(* ===== verification/_CoqProject ===== *)
-Q . S2P
Prelude.v
GoStrings.v
Json.v
GoTime.v
AtprotoTime.v
Effects.v
Processes.v
Database.v
Closure.v
ClosureProps.v
Like.v
RecordStore.v
RecordProps.v
BatchProps.v
DeleteProps.v
Config.v
Refresh.v
RefreshProps.v
Versions.v
VersionProps.v
Actors.v
Lexicons.v
LexiconProps.v
Validator.v
ValidatorProps.v
PubSub.v
SubRoutes.v
SubRouteProps.v
SubHandler.v
SubHandlerProps.v
SubCleanup.v
Tap.v
TapProps.v
Jetstream.v
JetstreamProps.v
Keyset.v
Filters.v
KeysetProps.v
FilterProps.v
LabelFilters.v
Endorsements.v
Labels.v
FilterSafety.v
KeysetForward.v
KeysetSpec.v
FilteredPages.v
LabelText.v
LabelProps.v
Base64.v
Cursors.v
Connection.v
ConnectionProps.v
EndorsementClosure.v
EndorsementClosureProps.v
ValidatorExamples.v
OAuthProof.v
OAuthStore.v
OAuthServer.v
OAuthFlow.v
OAuthMiddleware.v
OAuthProps.v
OAuthSafety.v
OAuthLogin.v
DidDocuments.v
BackfillClient.v
Backfill.v
BackfillProps.v
BackfillRun.v
HandleReconciler.v
Moderation.v
LexiconStore.v
Admin.v
AdminApi.v
AdminProps.v
Labeler.v
LabelerProps.v
Migrations.v
MigrationProps.v
RecordTimeline.v
WhereArg.v
