(* ===== verification/Prelude.v ===== *)
(** * Hyperindex: a verified model of its record index

    Hyperindex (src/) is an AT Protocol AppView server. It takes record and identity events
    from a Tap sidecar, a Jetstream or a backfill of whole repositories, validates records
    against Lexicons, keeps them in SQLite or PostgreSQL with a version history, takes labels
    from external labelers, and serves all of it over GraphQL: sorted and filtered
    connections, a timeline, endorsement closures, subscriptions, an admin API, and an OAuth
    server for the clients that log in. This library models those parts, one definition per
    Go function, and proves what each promises.

    ** Foundations

    - Prelude.v: outcomes, lists, paging by key ([collect_complete]), histories of steps.
    - Effects.v: the monad of every repository and handler: explicit state, errors as
      values, and a schedule of faults with one boolean per database statement. A theorem
      over all schedules covers every pattern of statement, begin and commit failures.
      [Preserves] (an invariant through any computation) and [ReadsAs] (a read under
      faults returns its result or an error) are the judgements clients reason with.
    - Processes.v: computations whose atomic steps are visible, for goroutines that share
      state with each other and with an environment, and a rely-guarantee rule for them.
    - GoStrings.v, Json.v, GoTime.v, AtprotoTime.v, Base64.v: the Go library functions the
      code uses, as functions: strings, encoding/json with its limits and escapes, the
      parsing and printing of times (internal/atproto/time.go; [created_at_roundtrip]),
      base64.
    - Database.v: the tables as one state, dialects, bound values, the order of text columns
      (a class, as the dialects differ), generated columns, placeholders and guarded JSON
      extraction (internal/database/executor.go, sqlite/, postgres/).

    ** Records: from an event to a row

    - RecordStore.v: internal/database/repositories/records.go, every write, delete and point
      read. RecordProps.v, BatchProps.v, DeleteProps.v: one write on every branch, its
      redelivery, the write-once creation time over all operations, batches as single
      writes, atomic deletes and purges.
    - Versions.v, VersionProps.v: record_versions.go, what each operation does to the history.
      Actors.v: actors.go and indexing_activity.go. Config.v: config.go.
    - Lexicons.v, LexiconProps.v: internal/lexicon, documents, references, the registry.
      Validator.v, ValidatorProps.v, ValidatorExamples.v: internal/validation, verdicts and
      fingerprints that cover what verdicts depend on, up to collisions of the hash. Refresh.v, RefreshProps.v:
      internal/validationrefresh, which settles every stored record.
    - Tap.v, TapProps.v: internal/tap events, handler and consumer: what is acknowledged is
      stored. Jetstream.v, JetstreamProps.v: internal/jetstream, which agrees with Tap event
      by event, activity logs and version history apart. HandleReconciler.v: internal/tap/admin.go and handle_reconciler.go.
    - DidDocuments.v, BackfillClient.v, Backfill.v, BackfillProps.v, BackfillRun.v:
      internal/backfill and internal/oauth/did.go, did_cache.go: a run without an error has
      stored every record it discovered, however its goroutines took turns.
    - Migrations.v, MigrationProps.v: internal/database/migrations/migrations.go and
      statements.go: startups broken off anywhere end in the state of a single one, unless a
      concurrent index build left an invalid index, which stops every startup until it is dropped.

    ** Records: from a row to a reader

    - Like.v, Filters.v, LabelFilters.v, FilterProps.v, FilterSafety.v: the clause builders of
      records.go; they select by a reference meaning, and no value reaches the text.
    - Keyset.v, KeysetProps.v, KeysetForward.v, KeysetSpec.v: sorted pages
      (records_created_at_keyset.go) as statements and the rows they select; complete and
      duplicate-free paging for sorts by columns and by JSON fields every record has as text. FilteredPages.v: pages and counts with filters.
    - WhereArg.v: what a [where] argument is turned into (schema/builder.go,
      schema/nested_filters.go, schema/collection_filter_extensions.go): filters that select
      the records meeting what it asks.
    - Cursors.v, Connection.v, ConnectionProps.v: the paginated connections of
      internal/graphql/schema/builder.go; a client that follows end cursors sees every record,
      under the same conditions.
    - RecordTimeline.v: the timeline across collections, its statement, arguments, cursors
      and resolver, with the same guarantee.
    - Closure.v, ClosureProps.v: internal/graphclosure, the walk against distances in the
      graph. Endorsements.v: records_endorsement.go. EndorsementClosure.v,
      EndorsementClosureProps.v: schema/endorsement_closure.go.
    - PubSub.v: internal/graphql/subscription/pubsub.go. SubRoutes.v, SubRouteProps.v,
      SubHandler.v, SubHandlerProps.v, SubCleanup.v: handler.go of the same directory, the
      connection of a subscriber: routing loses nothing, the protocol's messages, and that a
      closed connection leaves nothing behind.

    ** Labels and moderation

    - Labels.v, LabelText.v, LabelProps.v: external_labels.go: an event's labels
      with its cursor or not at all. Labeler.v, LabelerProps.v: internal/labeler: a stream is
      stored once, in order.
    - Moderation.v: labels.go, label_definitions.go, label_preferences.go, reports.go.
      LexiconStore.v: repositories/lexicons.go. Admin.v, AdminApi.v, AdminProps.v:
      internal/graphql/admin: only administrators change anything, saved Lexicons stay
      a set the startup validator accepts, and (on SQLite) the last decision about a subject holds.

    ** OAuth

    - OAuthProof.v (internal/oauth/dpop.go), OAuthStore.v (repositories/oauth_*.go),
      OAuthServer.v and OAuthFlow.v (internal/server/oauth_handlers.go), OAuthMiddleware.v
      (internal/oauth/middleware.go). OAuthProps.v, OAuthSafety.v, OAuthLogin.v: what a token
      response means, single use of codes, tokens and proofs (of codes and tokens also when requests
      overlap, once they are spent), and, on SQLite, a login to its end.

    ** How the parts interact

    [Tap.read_loop] hands a decoded frame to the handler, which classifies the record with the
    validator, runs record, version and activity operations on [Database.db] through
    [Effects.zoom] and publishes to [PubSub.PubSub]; Jetstream runs the same operations, and
    backfill the batched ones, whose agreement with single writes is proved. Subscription
    connections are goroutines on that broker. Reads go through [Keyset]: a filter clause is
    any [Keyset.clause_builder] that meets [KeysetProps.builder_spec], the pages are proved
    against that contract and the builders of Filters.v and LabelFilters.v discharge it. The
    closure of endorsements is [Closure] with the adjacency of [Endorsements]. Admin changes
    the Lexicons the validator starts with, and runs backfills.

    ** Parameters

    Code that is not in the repository is an argument, with documented behaviour as a class of
    laws where a theorem needs it; every such class has an instance in an example. The main
    ones: [Database.Env] (dialect, [jsonb] text, hash of version keys, Indigo's datetime
    parser), [Database.TextOrder] (a collation), [Keyset.SortKeys] and
    [KeysetForward.SortLaws] (what the database computes for sort expressions),
    [Filters.SqlFunctions] and [FilterProps.SqlLaws] (JSON extraction, casts, comparisons),
    [RecordTimeline.JsonSql] and [RecordTimeline.TimelineLaws] (PostgreSQL's text of a time, in a session
    whose time zone, which the code does not set, is whole hours from UTC),
    [Endorsements.EndorsementEnv] (Indigo's DID syntax), [Validator.Indigo],
    [SubRoutes.GraphQL] (graphql-go), [Connection.Hydration], [BackfillClient.CarReader],
    [DidDocuments.Http], HTTP transports, [Admin.AdminWorld], [Labeler.LabelStreams],
    [Migrations.SqlSchema], [OAuthProof.Jose] and [OAuthServer.OAuthWorld] (cryptography and
    what the network answers), which literals fit a float64, and what Go's [%v] prints of a
    map.

    ** Bounds and fuel

    The JSON parser's fuel is linear in the text and the Lexicon parser's the height of the
    document; [Migrations.split_tokens] has the length of the text ([split_tokens_enough]);
    [chunks] the length of the list ([chunks_concat]). Loops over stored rows (refresh,
    iteration, creation times of old records, reference walks, fragments of a document) have
    the number of rows, edges or fragments, which their theorems show to be enough. Clients
    that follow cursors take a fuel larger than the number of records, and the theorems about
    them say that the walk then ends with its result. A loop the code itself does not bound
    (the backfill client following cursors) is modelled with fuel and its divergence stated
    ([BackfillRun.cursor_followed_forever]). Machine integers are Z with the bounds the
    decoders check; pauses double up to their limits.

    ** Not modelled

    - Sockets, HTTP servers and routing (internal/server but for OAuth and the admin API), the
      SQL engines, and the process's wiring and configuration (cmd/hyperindex,
      internal/config): I/O and glue whose effect is on code outside the repository.
    - The construction of the GraphQL schema (internal/graphql/types, the Build functions of
      schema/builder.go and admin/types.go) and the execution of queries, graphql-go's,
      which checks arguments against the input types.
    - OAuth client registration, pushed authorization requests and the metadata documents,
      and the outgoing side of the upstream login (bridge, keys, nonces).
    - The resolution of Lexicons by DNS, the background workers that only run a modelled
      statement on a timer, statistics that only read (activity buckets, collection
      statistics and time series), text search, and redacted logging.
    - The TypeScript client, generated code, tests and scripts. *)
From Stdlib Require Export ZArith Lia.
From stdpp Require Export sorting.
From stdpp Require Export gmap strings countable list.

(** ** Outcomes

    A Go function that returns [(T, error)] returns an [outcome T]: [Ok] for a
    nil error, [Err] with the error text otherwise. *)

Inductive outcome (A : Type) : Type :=
  | Ok (a : A)
  | Err (e : string).
Arguments Ok {A} a.
Arguments Err {A} e.

#[export] Instance outcome_ret : MRet outcome := λ A a, Ok a.
#[export] Instance outcome_bind : MBind outcome := λ A B f m,
  match m with Ok a => f a | Err e => Err e end.
#[export] Instance outcome_fmap : FMap outcome := λ A B f m,
  match m with Ok a => Ok (f a) | Err e => Err e end.
#[export] Instance outcome_eq_dec `{EqDecision A} : EqDecision (outcome A).
Proof. solve_decision. Defined.

Definition is_ok {A} (o : outcome A) : bool :=
  match o with Ok _ => true | Err _ => false end.

(** Go's [fmt.Errorf("...: %w", err)]: prefix the error text. *)
Definition wrap_err {A} (msg : string) (o : outcome A) : outcome A :=
  match o with Ok a => Ok a | Err e => Err (msg +:+ ": " +:+ e) end.

Lemma is_ok_wrap {A} msg (o : outcome A) : is_ok (wrap_err msg o) = is_ok o.
Proof. by destruct o. Qed.

(** ** Tactics of the development *)

(** Split every boolean or decidable test met by the goal. *)
Ltac split_ifs :=
  repeat (case_match || case_decide || case_bool_decide); simplify_eq/=; try done.

(** ** Lists *)

Lemma existsb_ext_in {A} (f g : A → bool) l : (∀ x, x ∈ l → f x = g x) → existsb f l = existsb g l.
Proof. induction l as [|x l IH]; intros Hfg; [done|]. cbn. rewrite Hfg by set_solver. f_equal. apply IH. set_solver. Qed.

Section lists.
Context {A : Type}.
Implicit Types l k : list A.

Lemma filter_all (P : A → Prop) `{∀ x, Decision (P x)} l :
  Forall P l → filter P l = l.
Proof.
  induction 1 as [|x l Hx Hl IH]; [done|].
  rewrite filter_cons_True; by rewrite ?IH.
Qed.

Lemma filter_none (P : A → Prop) `{∀ x, Decision (P x)} l :
  Forall (λ x, ¬ P x) l → filter P l = [].
Proof.
  induction 1 as [|x l Hx Hl IH]; [done|].
  by rewrite filter_cons_False.
Qed.

Lemma filter_ext_in (P Q : A → Prop) `{∀ x, Decision (P x), ∀ x, Decision (Q x)} l :
  (∀ x, x ∈ l → P x ↔ Q x) → filter P l = filter Q l.
Proof.
  induction l as [|x l IH]; intros HPQ; [done|]. rewrite !filter_cons.
  rewrite IH by (intros; apply HPQ; by right). assert (Hx := HPQ x (list_elem_of_here _ _)).
  destruct (decide (P x)), (decide (Q x)); tauto.
Qed.

Lemma nodup_fmap_filter {B} (f : A → B) (P : A → Prop) `{∀ x, Decision (P x)} l :
  NoDup (f <$> l) → NoDup (f <$> filter P l).
Proof.
  induction l as [|x l IH]; [done|]. rewrite fmap_cons. intros [Hx Hnd]%NoDup_cons.
  rewrite filter_cons. case_decide; [|auto]. rewrite fmap_cons. constructor; [|auto].
  intros (y & Heq & [_ Hy]%list_elem_of_filter)%list_elem_of_fmap. apply Hx. rewrite Heq. by apply list_elem_of_fmap_2.
Qed.

Lemma existsb_pointwise (f g : A → bool) l : (∀ x, f x = g x) → existsb f l = existsb g l.
Proof. intros Hfg. induction l as [|x l IH]; [done|]. cbn. by rewrite Hfg, IH. Qed.

Lemma take_nil_inv n l : take n l = [] → n = 0 ∨ l = [].
Proof. destruct n, l; simpl; auto. discriminate. Qed.

Lemma elem_of_take_aux n l x : x ∈ take n l → x ∈ l.
Proof. intros Hx. rewrite <- (take_drop n l). apply elem_of_app. by left. Qed.

Lemma last_app_cons l x k : last (l ++ x :: k) = last (x :: k).
Proof.
  induction l as [|y l IH]; [done|].
  simpl app. rewrite <- IH. by destruct l.
Qed.

Lemma strongly_sorted_filter (R : relation A) (P : A → Prop) `{∀ x, Decision (P x)} l :
  StronglySorted R l → StronglySorted R (filter P l).
Proof.
  induction 1 as [|x l Hs IH Hall]; [constructor|].
  rewrite filter_cons. case_decide; [|done]. constructor; [done|].
  rewrite Forall_forall in *. intros y [_ Hy]%list_elem_of_filter. by apply Hall.
Qed.

Lemma last_snoc_split l x : last l = Some x → ∃ k, l = k ++ [x].
Proof.
  induction l as [|y l IH] using rev_ind; [done|].
  rewrite last_snoc. intros [= ->]. by eexists.
Qed.
End lists.

(** ** Chunks

    The repositories send long lists to the database in slices of a fixed size:
    [for start := 0; start < len(xs); start += size { batch := xs[start:end] }].
    [chunks] is the list of those slices. *)
Fixpoint chunks_fuel {A} (fuel size : nat) (l : list A) : list (list A) :=
  match fuel, l with
  | S f, _ :: _ => take size l :: chunks_fuel f size (drop size l)
  | _, _ => []
  end.

Definition chunks {A} (size : nat) (l : list A) : list (list A) :=
  chunks_fuel (length l) size l.

Lemma chunks_fuel_concat {A} fuel size (l : list A) :
  0 < size → length l ≤ fuel → concat (chunks_fuel fuel size l) = l.
Proof.
  intros Hs. revert l; induction fuel as [|f IH]; intros [|x l] Hl; simpl in *; try done; [lia|].
  rewrite IH; [apply take_drop|]. rewrite length_drop. simpl. lia.
Qed.

(** The slices cover the list exactly once and in order. *)
Lemma chunks_concat {A} size (l : list A) : 0 < size → concat (chunks size l) = l.
Proof. intros. by apply chunks_fuel_concat. Qed.

Lemma chunks_fuel_size {A} fuel size (l : list A) :
  Forall (λ c, length c ≤ size) (chunks_fuel fuel size l).
Proof.
  revert l; induction fuel as [|f IH]; intros [|x l]; simpl; constructor; auto.
  rewrite length_take. lia.
Qed.

Lemma chunks_size {A} size (l : list A) : Forall (λ c, length c ≤ size) (chunks size l).
Proof. apply chunks_fuel_size. Qed.

(** Folding over the slices is folding over the list. *)
Lemma foldl_chunks {A B} (f : B → A → B) size b (l : list A) :
  0 < size → foldl (foldl f) b (chunks size l) = foldl f b l.
Proof.
  intros Hs. rewrite <- (chunks_concat size l) at 2 by done.
  generalize (chunks size l) as cs. intros cs; revert b.
  induction cs as [|c cs IH]; intros b; [done|].
  simpl. by rewrite foldl_app, IH.
Qed.

(** ** Paging

    A reader that fetches [limit] rows after a cursor, advances the cursor to the key
    of the last row and stops at an empty page (or a short one). Over a list in
    strictly increasing key order this visits every row after the start once. *)
Section paging.
Context {A K : Type} (key : A → K) (lt : relation K)
  `{!StrictOrder lt, ∀ x y, Decision (lt x y)}.

Definition page (l : list A) (after : K) (limit : nat) : list A :=
  take limit (filter (λ x, lt after (key x)) l).

Fixpoint collect (fuel : nat) (l : list A) (after : K) (limit : nat) : list A :=
  match fuel with
  | O => []
  | S f => match last (page l after limit) with
           | None => []
           | Some x => page l after limit ++ collect f l (key x) limit
           end
  end.

Definition increasing (l : list A) : Prop := StronglySorted (λ x y, lt (key x) (key y)) l.

Lemma filter_after_prefix (l1 : list A) x l2 :
  increasing (l1 ++ x :: l2) →
  filter (λ y, lt (key x) (key y)) (l1 ++ x :: l2) = l2.
Proof.
  induction l1 as [|y l1 IH]; simpl; intros Hs; inversion Hs as [|? ? Hs' Hall]; subst.
  - rewrite filter_cons_False by apply irreflexivity, _. by apply filter_all.
  - rewrite filter_cons_False.
    + by apply IH.
    + rewrite Forall_app, Forall_cons in Hall. destruct Hall as (_ & Hyx & _).
      intros Hxy. by apply (irreflexivity lt (key x)); etrans.
Qed.

Lemma filter_split (P Q R : A → Prop) `{∀ x, Decision (P x), ∀ x, Decision (Q x), ∀ x, Decision (R x)}
    (l : list A) :
  increasing l → (∀ y, y ∈ l → R y ↔ P y ∨ Q y) →
  (∀ y z, y ∈ l → z ∈ l → P y → Q z → lt (key y) (key z)) →
  filter P l ++ filter Q l = filter R l.
Proof.
  induction 1 as [|x l Hs IH Hall]; intros HR HPQ; [done|].
  assert (Hx := HR x (list_elem_of_here _ _)).
  specialize (IH (λ y Hy, HR y (list_elem_of_further _ _ _ Hy))
    (λ y z Hy Hz, HPQ y z (list_elem_of_further _ _ _ Hy) (list_elem_of_further _ _ _ Hz))).
  rewrite !filter_cons. destruct (decide (P x)) as [HP|HP].
  - rewrite (decide_True (P := R x)) by tauto. rewrite decide_False; [simpl; by rewrite IH|].
    intros HQ. apply (irreflexivity lt (key x)). apply HPQ; try done; left.
  - destruct (decide (Q x)) as [HQ|HQ]; [|by rewrite decide_False by tauto].
    rewrite (decide_True (P := R x)) by tauto.
    assert (filter P l = []) as Hnil; [|by rewrite Hnil in *; simpl in *; rewrite IH].
    apply filter_none, Forall_forall. intros y Hy HPy. rewrite Forall_forall in Hall.
    apply (irreflexivity lt (key x)). etrans; [by apply Hall|]. apply HPQ; try done; [by right|left].
Qed.

(** What follows a prefix that ends in [x] is what is after [x]. *)
Lemma filter_after_last (l pre suf : list A) x :
  increasing l → l = pre ++ suf → last pre = Some x → filter (λ y, lt (key x) (key y)) l = suf.
Proof.
  intros Hs -> (k & ->)%last_snoc_split. rewrite <- app_assoc in *. by apply filter_after_prefix.
Qed.

Lemma increasing_filter (P : A → Prop) `{∀ x, Decision (P x)} l :
  increasing l → increasing (filter P l).
Proof. apply strongly_sorted_filter. Qed.

Lemma filter_later a x (l : list A) :
  lt a (key x) →
  filter (λ y, lt (key x) (key y)) (filter (λ y, lt a (key y)) l) = filter (λ y, lt (key x) (key y)) l.
Proof.
  intros Hax. rewrite list_filter_filter. apply list_filter_iff. intros y.
  split; [by intros []|]. intros. split; [done|]. by etrans.
Qed.

Lemma page_step (l : list A) a limit x :
  increasing l → last (page l a limit) = Some x →
  lt a (key x) ∧ filter (λ y, lt a (key y)) l = page l a limit ++ filter (λ y, lt (key x) (key y)) l.
Proof.
  intros Hs Hl. unfold page in *.
  set (m := filter (λ y, lt a (key y)) l) in *.
  assert (Hm : increasing m) by by apply increasing_filter.
  destruct (last_snoc_split _ _ Hl) as [k Hk].
  assert (Hx : lt a (key x)).
  { assert (x ∈ m) as [? _]%list_elem_of_filter; [|done].
    eapply elem_of_take_aux. rewrite Hk. apply elem_of_app. right. by left. }
  split; [done|]. rewrite <- (take_drop limit m) at 1. f_equal.
  rewrite <- (filter_later a x l Hx). fold m.
  rewrite <- (take_drop limit m) at 2. rewrite Hk, <- app_assoc. simpl.
  rewrite <- (take_drop limit m), Hk, <- app_assoc in Hm. simpl in Hm.
  by rewrite filter_after_prefix.
Qed.

Lemma collect_complete fuel (l : list A) a limit :
  increasing l → 0 < limit → length (filter (λ y, lt a (key y)) l) < fuel →
  collect fuel l a limit = filter (λ y, lt a (key y)) l.
Proof.
  intros Hs Hlim. revert a. induction fuel as [|f IH]; intros a Hf; [lia|]. simpl.
  destruct (last (page l a limit)) as [x|] eqn:Hl.
  - destruct (page_step _ _ _ _ Hs Hl) as [Hx Heq]. rewrite IH; [done|].
    rewrite Heq, length_app in Hf. destruct (page l a limit); [done|]. simpl in Hf. lia.
  - apply last_None, take_nil_inv in Hl as [?|Hl]; [lia|done].
Qed.
End paging.

Lemma increasing_snoc {A K} (key : A → K) (lt : relation K) (l : list A) (x : A) :
  increasing key lt l → Forall (λ y, lt (key y) (key x)) l → increasing key lt (l ++ [x]).
Proof.
  unfold increasing. induction 1 as [|y l Hs IH Hall]; intros Hx; cbn; [repeat constructor|].
  inv Hx. constructor; [auto|]. apply Forall_app. split; [done|]. by constructor.
Qed.

(** ** Reflexive transitive closure of a step relation *)

Inductive star {S L : Type} (step : S → L → S → Prop) : S → list L → S → Prop :=
  | star_refl s : star step s [] s
  | star_step s l s' ls s'' : step s l s' → star step s' ls s'' → star step s (l :: ls) s''.

Lemma star_invariant {S L} (step : S → L → S → Prop) (I : S → Prop) :
  (∀ s l s', I s → step s l s' → I s') →
  ∀ s ls s', I s → star step s ls s' → I s'.
Proof. intros Hstep s ls s' HI Hs. induction Hs; eauto. Qed.

Lemma star_app {S L} (step : S → L → S → Prop) s ls s' ls' s'' :
  star step s ls s' → star step s' ls' s'' → star step s (ls ++ ls') s''.
Proof. induction 1; simpl; [done|]. intros. econstructor; eauto. Qed.

(** ** Hint database of the development *)
Create HintDb hyperindex.
#[export] Hint Resolve chunks_size star_refl : hyperindex.
#[export] Hint Constructors star : hyperindex.
