(* ===== verification/GoStrings.v ===== *)
(** * Go strings

    The part of Go's [strings] package the modelled code uses, on byte strings:
    prefixes, suffixes, [Split], [Join], [Fields], [TrimSpace], [ToLower], decimal
    rendering of integers. White space is Unicode's [White_Space] in UTF-8, as
    Go's [unicode.IsSpace] has it. *)
From S2P Require Import Prelude.
From stdpp Require Import pretty.

(** ** Bytes *)

Fixpoint sdrop (n : nat) (s : string) : string :=
  match n, s with
  | S n', String _ s' => sdrop n' s'
  | _, _ => s
  end.

Fixpoint stake (n : nat) (s : string) : string :=
  match n, s with
  | S n', String c s' => String c (stake n' s')
  | _, _ => EmptyString
  end.

Fixpoint srev_onto (s acc : string) : string :=
  match s with
  | EmptyString => acc
  | String c s' => srev_onto s' (String c acc)
  end.
Definition srev (s : string) : string := srev_onto s "".

(** A byte as a one-byte string. *)
Definition byte_str (c : Ascii.ascii) : string := String c "".

(** The separators of the code. *)
Definition slash : Ascii.ascii := Eval cbv in Ascii.ascii_of_N 47.
Definition dot : Ascii.ascii := Eval cbv in Ascii.ascii_of_N 46.
Definition hash : Ascii.ascii := Eval cbv in Ascii.ascii_of_N 35.
Definition comma : Ascii.ascii := Eval cbv in Ascii.ascii_of_N 44.
Definition space : Ascii.ascii := Eval cbv in Ascii.ascii_of_N 32.
Definition newline : Ascii.ascii := Eval cbv in Ascii.ascii_of_N 10.

Definition byte_val (c : Ascii.ascii) : N := Ascii.N_of_ascii c.

(** Go's [itoa] / ["%d"]. *)
Definition itoa (z : Z) : string := pretty z.

(** ** Prefixes and suffixes *)

(** [strings.HasPrefix(s, p)] *)
Definition has_prefix (p s : string) : bool := String.prefix p s.

(** [strings.TrimPrefix(s, p)] *)
Definition trim_prefix (p s : string) : string :=
  if has_prefix p s then sdrop (String.length p) s else s.

(** [strings.HasSuffix(s, p)] *)
Definition has_suffix (p s : string) : bool := String.prefix (srev p) (srev s).

(** [strings.TrimSuffix(s, p)] *)
Definition trim_suffix (p s : string) : string :=
  if has_suffix p s then stake (String.length s - String.length p) s else s.

(** [strings.Contains(s, sub)] *)
Definition contains (s sub : string) : bool :=
  match String.index 0 sub s with Some _ => true | None => false end.

(** ** Split and join *)

Fixpoint split_go (c : Ascii.ascii) (s : string) (cur : string) : list string :=
  match s with
  | EmptyString => [srev cur]
  | String d s' =>
      if Ascii.eqb d c then srev cur :: split_go c s' "" else split_go c s' (String d cur)
  end.

(** [strings.Split(s, sep)] for a one-byte separator. *)
Definition split (c : Ascii.ascii) (s : string) : list string := split_go c s "".

(** [strings.Join(parts, sep)] *)
Fixpoint join (sep : string) (parts : list string) : string :=
  match parts with
  | [] => ""
  | [x] => x
  | x :: rest => x +:+ sep +:+ join sep rest
  end.

(** [strings.Cut] / [strings.SplitN(s, sep, 2)] at the first separator byte. *)
Fixpoint cut_go (c : Ascii.ascii) (s cur : string) : option (string * string) :=
  match s with
  | EmptyString => None
  | String d s' => if Ascii.eqb d c then Some (srev cur, s') else cut_go c s' (String d cur)
  end.
Definition cut (c : Ascii.ascii) (s : string) : option (string * string) := cut_go c s "".

(** ** White space *)

Definition is_space_ascii (n : N) : bool := ((9 <=? n) && (n <=? 13))%N || (n =? 32)%N.

(** Length in bytes of the white-space character [s] starts with; 0 if it starts
    with none. The multi-byte cases are U+0085, U+00A0, U+1680, U+2000..U+200A,
    U+2028, U+2029, U+202F, U+205F and U+3000. *)
Definition space_len (s : string) : nat :=
  match s with
  | String a r =>
      let a := byte_val a in
      if is_space_ascii a then 1
      else match r with
      | String b r' =>
          let b := byte_val b in
          if ((a =? 194) && ((b =? 133) || (b =? 160)))%N then 2
          else match r' with
          | String c _ =>
              let c := byte_val c in
              if (((a =? 225) && (b =? 154) && (c =? 128))
                  || ((a =? 226) && (b =? 128) && (128 <=? c) && (c <=? 138))
                  || ((a =? 226) && (b =? 128) && ((c =? 168) || (c =? 169) || (c =? 175)))
                  || ((a =? 226) && (b =? 129) && (c =? 159))
                  || ((a =? 227) && (b =? 128) && (c =? 128)))%N then 3 else 0
          | EmptyString => 0
          end
      | EmptyString => 0
      end
  | EmptyString => 0
  end.

(** The same at the end of a string, given reversed. *)
Definition space_len_rev (s : string) : nat :=
  if decide (space_len (stake 1 s) = 1) then 1
  else if decide (space_len (srev (stake 2 s)) = 2) then 2
  else if decide (space_len (srev (stake 3 s)) = 3) then 3
  else 0.

Fixpoint trim_with (len : string → nat) (fuel : nat) (s : string) : string :=
  match fuel with
  | O => s
  | S f => match len s with O => s | n => trim_with len f (sdrop n s) end
  end.

(** [strings.TrimSpace]. Every round drops at least a byte, so the length of the
    string is fuel enough. *)
Definition trim_space (s : string) : string :=
  let l := trim_with space_len (String.length s) s in
  srev (trim_with space_len_rev (String.length l) (srev l)).

Fixpoint fields_go (fuel : nat) (s cur : string) : list string :=
  let flush := if (cur =? "")%string then [] else [srev cur] in
  match fuel with
  | O => flush
  | S f =>
      match s with
      | EmptyString => flush
      | String c s' =>
          match space_len s with
          | O => fields_go f s' (String c cur)
          | n => flush ++ fields_go f (sdrop n s) ""
          end
      end
  end.

(** [strings.Fields]: the maximal runs of non-space bytes. *)
Definition fields (s : string) : list string := fields_go (S (String.length s)) s "".

(** ** Case *)

(** [strings.ToLower], up to which non-ASCII letter a non-ASCII letter becomes.
    The Kelvin sign (U+212A) and the dotted capital I (U+0130) are the only
    characters outside ASCII whose lower case is ASCII. *)
Fixpoint to_lower (s : string) : string :=
  match s with
  | EmptyString => EmptyString
  | String c s' =>
      let n := byte_val c in
      if ((65 <=? n) && (n <=? 90))%N then String (Ascii.ascii_of_N (n + 32)) (to_lower s')
      else match s' with
      | String b s'' =>
          if ((n =? 196) && (byte_val b =? 176))%N then String (Ascii.ascii_of_N 105) (to_lower s'')
          else match s'' with
          | String d s3 =>
              if ((n =? 226) && (byte_val b =? 132) && (byte_val d =? 170))%N
              then String (Ascii.ascii_of_N 107) (to_lower s3) else String c (to_lower s')
          | EmptyString => String c (to_lower s')
          end
      | EmptyString => String c (to_lower s')
      end
  end.

(** ** Laws *)

Lemma append_cons c s t : String c s +:+ t = String c (s +:+ t).
Proof. done. Qed.

Lemma append_nil_l s : "" +:+ s = s.
Proof. done. Qed.

Lemma append_nil_r s : s +:+ "" = s.
Proof. induction s as [|c s IH]; [done|]. by rewrite append_cons, IH. Qed.

Lemma append_assoc s t u : (s +:+ t) +:+ u = s +:+ (t +:+ u).
Proof. induction s as [|c s IH]; [done|]. by rewrite !append_cons, IH. Qed.

Lemma append_byte s c t : (s +:+ byte_str c) +:+ t = s +:+ String c t.
Proof. by rewrite append_assoc. Qed.

Lemma length_append s t : String.length (s +:+ t) = String.length s + String.length t.
Proof. induction s as [|c s IH]; [done|]. rewrite append_cons. simpl. by rewrite IH. Qed.

Lemma srev_onto_app s acc : srev_onto s acc = srev s +:+ acc.
Proof.
  unfold srev. revert acc. induction s as [|c s IH]; intros acc; [done|].
  cbn [srev_onto]. rewrite IH. change (String c "") with (byte_str c).
  by rewrite (IH (byte_str c)), append_byte.
Qed.

Lemma srev_cons c s : srev (String c s) = srev s +:+ byte_str c.
Proof. apply (srev_onto_app s (byte_str c)). Qed.

Lemma srev_append s t : srev (s +:+ t) = srev t +:+ srev s.
Proof.
  induction s as [|c s IH]; [by rewrite append_nil_l, append_nil_r|].
  by rewrite append_cons, !srev_cons, IH, append_assoc.
Qed.

Lemma srev_involutive s : srev (srev s) = s.
Proof. induction s as [|c s IH]; [done|]. by rewrite srev_cons, srev_append, IH. Qed.

Lemma prefix_append p s : String.prefix p (p +:+ s) = true.
Proof.
  induction p as [|c p IH]; [by destruct s|]. rewrite append_cons. cbn.
  by destruct (Ascii.ascii_dec c c).
Qed.

Lemma prefix_true p s : String.prefix p s = true → ∃ t, s = p +:+ t.
Proof.
  revert s. induction p as [|c p IH]; intros s H; [by exists s|].
  destruct s as [|d s]; cbn in H; [done|].
  destruct (Ascii.ascii_dec c d) as [->|]; [|done].
  destruct (IH s H) as [t ->]. by exists t.
Qed.

Lemma sdrop_append p s : sdrop (String.length p) (p +:+ s) = s.
Proof. induction p as [|c p IH]; [by destruct s|]. by rewrite append_cons. Qed.

Lemma trim_prefix_append p s : trim_prefix p (p +:+ s) = s.
Proof. unfold trim_prefix, has_prefix. by rewrite prefix_append, sdrop_append. Qed.

Lemma has_prefix_append p s : has_prefix p (p +:+ s) = true.
Proof. apply prefix_append. Qed.

(** [no_byte c s]: the byte [c] does not occur in [s]. *)
Fixpoint no_byte (c : Ascii.ascii) (s : string) : bool :=
  match s with
  | EmptyString => true
  | String d s' => negb (Ascii.eqb d c) && no_byte c s'
  end.

(** One step of a scan for [c]: close the case of a byte that is not [c]. *)
Ltac scan_byte IH :=
  match goal with H : no_byte _ (String _ _) = true |- _ =>
    let Hb := fresh in
    cbn in H; apply andb_prop in H; destruct H as [Hb H]; apply negb_true_iff in Hb;
    rewrite ?append_cons; cbn; rewrite Hb, IH by done; by rewrite ?srev_cons, ?append_byte
  end.

Lemma cut_go_spec c s t cur :
  no_byte c s = true → cut_go c (s +:+ String c t) cur = Some (srev cur +:+ s, t).
Proof.
  revert cur. induction s as [|d s IH]; intros cur H; [|scan_byte IH].
  rewrite append_nil_l, append_nil_r. cbn. by rewrite Ascii.eqb_refl.
Qed.

(** Cutting at the first separator undoes joining at it. *)
Lemma cut_append c s t : no_byte c s = true → cut c (s +:+ String c t) = Some (s, t).
Proof. intros. unfold cut. by rewrite cut_go_spec. Qed.

Lemma cut_none c s : no_byte c s = true → cut c s = None.
Proof.
  unfold cut. generalize "" as cur. induction s as [|d s IH]; intros cur H; [done|].
  scan_byte IH.
Qed.

Lemma split_go_app c s t cur :
  no_byte c s = true →
  split_go c (s +:+ String c t) cur = (srev cur +:+ s) :: split c t.
Proof.
  revert cur. induction s as [|d s IH]; intros cur H; [|scan_byte IH].
  rewrite append_nil_l, append_nil_r. cbn. by rewrite Ascii.eqb_refl.
Qed.

Lemma split_go_last c s cur : no_byte c s = true → split_go c s cur = [srev cur +:+ s].
Proof.
  revert cur. induction s as [|d s IH]; intros cur H; [|scan_byte IH].
  by rewrite append_nil_r.
Qed.

Lemma no_byte_app c s t : no_byte c (s +:+ t) = no_byte c s && no_byte c t.
Proof. induction s as [|d s IH]; [done|]. rewrite append_cons. cbn. by rewrite IH, andb_assoc. Qed.

(** [Split] undoes [Join] when no part holds the separator. *)
Lemma split_join c (l : list string) :
  l ≠ [] → Forall (λ s, no_byte c s = true) l → split c (join (byte_str c) l) = l.
Proof.
  induction l as [|x l IH]; intros Hne Hall; [done|]. inv Hall.
  unfold split in *. destruct l as [|y l]; [by cbn [join]; rewrite split_go_last|].
  cbn [join]. rewrite (split_go_app c x (join (byte_str c) (y :: l))) by done.
  f_equal. by apply IH.
Qed.

Lemma itoa_inj n m : itoa n = itoa m → n = m.
Proof. apply (inj (pretty (A := Z))). Qed.
