(* ===== verification/Json.v ===== *)
(** * JSON

    The part of Go's [encoding/json] the modelled code uses: a parser with Go's
    grammar (white space, escapes and surrogate pairs, invalid UTF-8 replaced by
    U+FFFD, nesting at most 10000), [json.Valid], and the way [Unmarshal] fills
    struct fields from the members of an object. Numbers stay as their literal, and a
    member keeps the text of its value for [json.RawMessage] fields. *)
From stdpp Require Import pretty.
From S2P Require Import Prelude GoStrings.

Inductive json :=
  | JNull
  | JBool (b : bool)
  | JNumber (literal : string)
  | JString (s : string)
  | JArray (items : list json)
  | JObject (members : list (string * (string * json))).

(** A member of an object: its name, the text of its value and the value. *)
Notation member := (string * (string * json))%type.

(** JSON text written with single quotes, for the examples of this development. *)
Fixpoint quoted (s : string) : string :=
  match s with
  | EmptyString => EmptyString
  | String c s' => String (if (byte_val c =? 39)%N then Ascii.ascii_of_N 34 else c) (quoted s')
  end.

(** ** Bytes *)

Definition byte (n : N) : Ascii.ascii := Ascii.ascii_of_N n.
Definition is_byte (n : N) (c : Ascii.ascii) : bool := (byte_val c =? n)%N.

Definition is_json_space (c : Ascii.ascii) : bool :=
  is_byte 32 c || is_byte 9 c || is_byte 10 c || is_byte 13 c.

Fixpoint skip_space (s : string) : string :=
  match s with
  | String c s' => if is_json_space c then skip_space s' else s
  | EmptyString => EmptyString
  end.

Definition is_digit (c : Ascii.ascii) : bool := ((48 <=? byte_val c) && (byte_val c <=? 57))%N.

Definition hex_val (c : Ascii.ascii) : option N :=
  let n := byte_val c in
  if ((48 <=? n) && (n <=? 57))%N then Some (n - 48)%N
  else if ((97 <=? n) && (n <=? 102))%N then Some (n - 87)%N
  else if ((65 <=? n) && (n <=? 70))%N then Some (n - 55)%N
  else None.

(** ** UTF-8 *)

(** The encoding of a code point below 0x110000. *)
Definition utf8_encode (r : N) : string :=
  if (r <? 128)%N then byte_str (byte r)
  else if (r <? 2048)%N then
    String (byte (192 + r / 64)) (byte_str (byte (128 + r mod 64)))
  else if (r <? 65536)%N then
    String (byte (224 + r / 4096)) (String (byte (128 + r / 64 mod 64)) (byte_str (byte (128 + r mod 64))))
  else String (byte (240 + r / 262144)) (String (byte (128 + r / 4096 mod 64))
    (String (byte (128 + r / 64 mod 64)) (byte_str (byte (128 + r mod 64))))).

Definition replacement : string := utf8_encode 65533.

Definition cont (n : N) : bool := ((128 <=? n) && (n <=? 191))%N.

(** Length of the valid UTF-8 sequence a string starts with; 0 if there is none. *)
Definition utf8_len (s : string) : nat :=
  match s with
  | EmptyString => 0
  | String a r =>
      let a := byte_val a in
      if (a <? 128)%N then 1
      else match r with
      | EmptyString => 0
      | String b r' =>
          let b := byte_val b in
          if ((194 <=? a) && (a <=? 223) && cont b)%N then 2
          else match r' with
          | EmptyString => 0
          | String c r'' =>
              let c := byte_val c in
              if ((((a =? 224) && (160 <=? b)) || ((225 <=? a) && (a <=? 236))
                   || ((a =? 237) && (b <=? 159)) || ((238 <=? a) && (a <=? 239)))
                  && cont b && cont c)%N then 3
              else match r'' with
              | EmptyString => 0
              | String d _ =>
                  if ((((a =? 240) && (144 <=? b)) || ((241 <=? a) && (a <=? 243))
                       || ((a =? 244) && (b <=? 143)))
                      && cont b && cont c && cont (byte_val d))%N then 4 else 0
              end
          end
      end
  end.

(** ** Strings *)

Definition hex4 (s : string) : option (N * string) :=
  match s with
  | String a (String b (String c (String d rest))) =>
      match hex_val a, hex_val b, hex_val c, hex_val d with
      | Some a, Some b, Some c, Some d => Some ((a * 4096 + b * 256 + c * 16 + d)%N, rest)
      | _, _, _, _ => None
      end
  | _ => None
  end.

Definition is_high (r : N) : bool := ((55296 <=? r) && (r <=? 56319))%N.
Definition is_low (r : N) : bool := ((56320 <=? r) && (r <=? 57343))%N.

(** What an escape [\uXXXX] stands for, and what follows it: a surrogate pair is one
    code point, a lone surrogate is U+FFFD. *)
Definition unescape_u (r : N) (rest : string) : string * string :=
  if is_high r then
    match rest with
    | String b (String u rest') =>
        if is_byte 92 b && is_byte 117 u then
          match hex4 rest' with
          | Some (lo, rest'') =>
              if is_low lo
              then (utf8_encode (65536 + (r - 55296) * 1024 + (lo - 56320)), rest'')
              else (replacement, rest)
          | None => (replacement, rest)
          end
        else (replacement, rest)
    | _ => (replacement, rest)
    end
  else if is_low r then (replacement, rest)
  else (utf8_encode r, rest).

Definition simple_escape (c : Ascii.ascii) : option Ascii.ascii :=
  let n := byte_val c in
  if ((n =? 34) || (n =? 92) || (n =? 47))%N then Some c
  else if (n =? 98)%N then Some (byte 8)
  else if (n =? 102)%N then Some (byte 12)
  else if (n =? 110)%N then Some (byte 10)
  else if (n =? 114)%N then Some (byte 13)
  else if (n =? 116)%N then Some (byte 9)
  else None.

(** The rest of a string literal, after its opening quote. *)
Fixpoint parse_string (fuel : nat) (s acc : string) : option (string * string) :=
  match fuel with
  | O => None
  | S f =>
      match s with
      | EmptyString => None
      | String c s' =>
          if is_byte 34 c then Some (acc, s')
          else if (byte_val c <? 32)%N then None
          else if is_byte 92 c then
            match s' with
            | EmptyString => None
            | String e s'' =>
                if is_byte 117 e then
                  match hex4 s'' with
                  | None => None
                  | Some (r, rest) =>
                      let '(t, rest') := unescape_u r rest in parse_string f rest' (acc +:+ t)
                  end
                else match simple_escape e with
                     | Some d => parse_string f s'' (acc +:+ byte_str d)
                     | None => None
                     end
            end
          else match utf8_len s with
               | O => parse_string f s' (acc +:+ replacement)
               | n => parse_string f (sdrop n s) (acc +:+ stake n s)
               end
      end
  end.

(** ** Numbers *)

Fixpoint take_digits (s : string) : string * string :=
  match s with
  | String c s' =>
      if is_digit c then let '(ds, rest) := take_digits s' in (String c ds, rest) else ("", s)
  | EmptyString => ("", "")
  end.

Definition parse_int_part (s : string) : option (string * string) :=
  match s with
  | String c s' =>
      if is_byte 48 c then Some (byte_str c, s')
      else if is_digit c then Some (take_digits s) else None
  | EmptyString => None
  end.

Definition parse_frac (s : string) : option (string * string) :=
  match s with
  | String c s' =>
      if is_byte 46 c then
        match take_digits s' with
        | (EmptyString, _) => None
        | (ds, rest) => Some (String c ds, rest)
        end
      else Some ("", s)
  | EmptyString => Some ("", "")
  end.

Definition parse_exp (s : string) : option (string * string) :=
  match s with
  | String c s' =>
      if is_byte 101 c || is_byte 69 c then
        let '(sign, s'') := match s' with
          | String d t => if is_byte 43 d || is_byte 45 d then (byte_str d, t) else ("", s')
          | EmptyString => ("", "") end in
        match take_digits s'' with
        | (EmptyString, _) => None
        | (ds, rest) => Some (String c (sign +:+ ds), rest)
        end
      else Some ("", s)
  | EmptyString => Some ("", "")
  end.

Definition parse_number (s : string) : option (string * string) :=
  let '(sign, s0) := match s with
    | String c s' => if is_byte 45 c then (byte_str c, s') else ("", s)
    | EmptyString => ("", "") end in
  '(i, s1) ← parse_int_part s0; '(fr, s2) ← parse_frac s1; '(ex, s3) ← parse_exp s2;
  Some (sign +:+ i +:+ fr +:+ ex, s3).

(** ** Values *)

Definition keyword (w : string) (j : json) (s : string) : option (json * string) :=
  if has_prefix w s then Some (j, sdrop (String.length w) s) else None.

Definition max_depth : nat := N.to_nat 10000.

(** Values, the rest of an array after a value has been asked for, and the rest of an
    object, on one fuel: every call is on a shorter text or a smaller task. *)
Fixpoint parse_value (fuel depth : nat) (s : string) : option (json * string) :=
  match fuel with
  | O => None
  | S f =>
      match skip_space s with
      | EmptyString => None
      | String c s' =>
          if is_byte 123 c then
            match depth with
            | O => None
            | S dep =>
                match skip_space s' with
                | String d rest => if is_byte 125 d then Some (JObject [], rest)
                                   else '(ms, rest) ← parse_members f dep s'; Some (JObject ms, rest)
                | EmptyString => None
                end
            end
          else if is_byte 91 c then
            match depth with
            | O => None
            | S dep =>
                match skip_space s' with
                | String d rest => if is_byte 93 d then Some (JArray [], rest)
                                   else '(xs, rest) ← parse_items f dep s'; Some (JArray xs, rest)
                | EmptyString => None
                end
            end
          else if is_byte 34 c then
            '(t, rest) ← parse_string f s' ""; Some (JString t, rest)
          else if is_byte 116 c then keyword "true" (JBool true) (String c s')
          else if is_byte 102 c then keyword "false" (JBool false) (String c s')
          else if is_byte 110 c then keyword "null" JNull (String c s')
          else '(t, rest) ← parse_number (String c s'); Some (JNumber t, rest)
      end
  end
with parse_items (fuel depth : nat) (s : string) : option (list json * string) :=
  match fuel with
  | O => None
  | S f =>
      '(v, s1) ← parse_value f depth s;
      match skip_space s1 with
      | String c rest =>
          if is_byte 44 c then '(vs, s2) ← parse_items f depth rest; Some (v :: vs, s2)
          else if is_byte 93 c then Some ([v], rest) else None
      | EmptyString => None
      end
  end
with parse_members (fuel depth : nat) (s : string) : option (list member * string) :=
  match fuel with
  | O => None
  | S f =>
      match skip_space s with
      | String q s0 =>
          if is_byte 34 q then
            '(k, s1) ← parse_string f s0 "";
            match skip_space s1 with
            | String col s2 =>
                if is_byte 58 col then
                  '(v, s3) ← parse_value f depth s2;
                  let text := skip_space s2 in
                  let raw := stake (String.length text - String.length s3) text in
                  match skip_space s3 with
                  | String c rest =>
                      if is_byte 44 c then '(ms, s4) ← parse_members f depth rest; Some ((k, (raw, v)) :: ms, s4)
                      else if is_byte 125 c then Some ([(k, (raw, v))], rest) else None
                  | EmptyString => None
                  end
                else None
            | EmptyString => None
            end
          else None
      | EmptyString => None
      end
  end.

(** Two units of fuel a byte are enough: a call that does not consume a byte is
    followed by one that does. *)
Definition json_parse (s : string) : option json :=
  '(j, rest) ← parse_value (2 * String.length s + 2) max_depth s;
  if (skip_space rest =? "")%string then Some j else None.

(** [json.Valid] *)
Definition valid_json (s : string) : bool :=
  match json_parse s with Some _ => true | None => false end.

(** ** Struct fields *)

(** Field names match up to case: ASCII letters, the Kelvin sign and the long s. *)
Fixpoint fold_name (s : string) : string :=
  match s with
  | EmptyString => EmptyString
  | String c s' =>
      let n := byte_val c in
      if ((65 <=? n) && (n <=? 90))%N then String (byte (n + 32)) (fold_name s')
      else match s' with
      | String b s'' =>
          if ((n =? 197) && (byte_val b =? 191))%N then String (byte 115) (fold_name s'')
          else match s'' with
          | String d s3 =>
              if ((n =? 226) && (byte_val b =? 132) && (byte_val d =? 170))%N
              then String (byte 107) (fold_name s3) else String c (fold_name s')
          | EmptyString => String c (fold_name s')
          end
      | EmptyString => String c (fold_name s')
      end
  end.

(** [Unmarshal] stores the members of an object in order. *)
Definition field_values (name : string) (ms : list member) : list (string * json) :=
  snd <$> filter (λ m : member, (fold_name m.1 =? fold_name name)%string = true) ms.

Fixpoint store_all {A} (store : A → string * json → option A) (init : A) (vs : list (string * json)) : option A :=
  match vs with
  | [] => Some init
  | v :: vs' => a ← store init v; store_all store a vs'
  end.

(** A [string] field: [null] leaves it alone, another type is an error. *)
Definition string_field (name : string) (ms : list member) : option string :=
  store_all (λ old v, match v.2 with JNull => Some old | JString s => Some s | _ => None end)
    "" (field_values name ms).

(** A [bool] field. *)
Definition bool_field (name : string) (ms : list member) : option bool :=
  store_all (λ old v, match v.2 with JNull => Some old | JBool b => Some b | _ => None end)
    false (field_values name ms).

(** A [*bool] field: [null] is the nil pointer. *)
Definition bool_ptr_field (name : string) (ms : list member) : option (option bool) :=
  store_all (λ _ v, match v.2 with JNull => Some None | JBool b => Some (Some b) | _ => None end)
    None (field_values name ms).

(** A pointer to a struct, as the members stored into it; a repeated member is
    stored into the same struct. *)
Definition struct_ptr_field (name : string) (ms : list member) : option (option (list member)) :=
  store_all (λ old v, match v.2 with
    | JNull => Some None | JObject o => Some (Some (default [] old ++ o)) | _ => None end)
    None (field_values name ms).

(** A [json.RawMessage] field: the text of the last value, [null] included. *)
Definition raw_field (name : string) (ms : list member) : string :=
  default "" (fst <$> last (field_values name ms)).

(** A decimal integer literal. *)
Fixpoint digits_val (s : string) (acc : Z) : option Z :=
  match s with
  | EmptyString => Some acc
  | String c s' => if is_digit c then digits_val s' (acc * 10 + (Z.of_N (byte_val c) - 48)) else None
  end.
Definition literal_int (s : string) : option Z :=
  match s with
  | String c s' => if is_byte 45 c then Z.opp <$> digits_val s' 0 else digits_val s 0
  | EmptyString => None
  end.

(** An [int64] field: integer literals in range only. *)
Definition in_int64 (n : Z) : bool := ((- 2 ^ 63 <=? n) && (n <? 2 ^ 63))%Z.
Definition int64_field (name : string) (ms : list member) : option Z :=
  store_all (λ old v, match v.2 with
    | JNull => Some old
    | JNumber l => n ← literal_int l; if in_int64 n then Some n else None
    | _ => None end) 0%Z (field_values name ms).

(** Decoding into [any] parses every number as a float64; which literals fit is a parameter. *)
Fixpoint numbers_ok (float64_ok : string → bool) (j : json) : bool :=
  match j with
  | JNumber l => float64_ok l
  | JArray items => forallb (numbers_ok float64_ok) items
  | JObject ms => forallb (λ m, numbers_ok float64_ok m.2.2) ms
  | _ => true
  end.

(** An [any] field: [null] is nil. *)
Definition any_field (float64_ok : string → bool) (name : string) (ms : list member) : option (option json) :=
  store_all (λ _ v, match v.2 with
    | JNull => Some None
    | j => if numbers_ok float64_ok j then Some (Some j) else None end) None (field_values name ms).

(** A [*float64] field, as the literal. *)
Definition float_ptr_field (float64_ok : string → bool) (name : string) (ms : list member) : option (option string) :=
  store_all (λ _ v, match v.2 with
    | JNull => Some None
    | JNumber l => if float64_ok l then Some (Some l) else None
    | _ => None end) None (field_values name ms).

(** An [*int] field. *)
Definition int_ptr_field (name : string) (ms : list member) : option (option Z) :=
  store_all (λ _ v, match v.2 with
    | JNull => Some None
    | JNumber l => n ← literal_int l; if in_int64 n then Some (Some n) else None
    | _ => None end) None (field_values name ms).

(** A [[]string] field: a null element is the empty string. *)
Definition strings_field (name : string) (ms : list member) : option (list string) :=
  store_all (λ _ v, match v.2 with
    | JNull => Some []
    | JArray items => mapM (λ j, match j with JString s => Some s | JNull => Some "" | _ => None end) items
    | _ => None end) [] (field_values name ms).

(** A [map[string]json.RawMessage] field; repeated fields fill one map. *)
Definition map_field (name : string) (ms : list member) : option (gmap string json) :=
  store_all (λ old v, match v.2 with
    | JNull => Some ∅
    | JObject o => Some (foldl (λ m e, <[ e.1 := e.2.2 ]> m) old o)
    | _ => None end) ∅ (field_values name ms).

(** A [json.RawMessage] field that is decoded again: its last value, if it is there. *)
Definition json_field (name : string) (ms : list member) : option json := snd <$> last (field_values name ms).

(** The members of a value decoded into a struct. *)
Definition members_of (j : json) : option (list member) :=
  match j with JObject ms => Some ms | JNull => Some [] | _ => None end.

(** An object as a Go map: of equal names the last counts. *)
Definition object_map (ms : list member) : gmap string json :=
  list_to_map (reverse ((λ m : member, (m.1, m.2.2)) <$> ms)).

(** [Unmarshal] of a text into a struct, as the members to store: [null] stores
    nothing. *)
Definition struct_members (text : string) : option (list member) :=
  match json_parse text with
  | Some (JObject ms) => Some ms
  | Some JNull => Some []
  | _ => None
  end.

Example json_parse_nested :
  json_parse (quoted "{ 'a' : [1, -2.5e3, true], 'b':{'c' : null } }") =
  Some (JObject [("a", ("[1, -2.5e3, true]", JArray [JNumber "1"; JNumber "-2.5e3"; JBool true]));
    ("b", (quoted "{'c' : null }", JObject [("c", ("null", JNull))]))]).
Proof. by vm_compute. Qed.

Example json_parse_surrogates :
  json_parse (quoted "'\ud83d\ude00\ud83d!'") = Some (JString ("😀" +:+ replacement +:+ "!")).
Proof. by vm_compute. Qed.

Example json_parse_invalid :
  map valid_json ["01"; "[1,]"; quoted "{'a'}"; "nul"; quoted "'"; "1 2"; ""; " [ ] "] =
  [false; false; false; false; false; false; false; true].
Proof. by vm_compute. Qed.

(** ** Decimal text

    Integers written by Go's formatting are read back by the JSON decoder. *)

Lemma digit_char x : (x < 10)%N → is_digit (pretty_N_char x) = true ∧ (Z.of_N (byte_val (pretty_N_char x)) - 48)%Z = Z.of_N x.
Proof.
  intros Hx. assert (x = 0 ∨ x = 1 ∨ x = 2 ∨ x = 3 ∨ x = 4 ∨ x = 5 ∨ x = 6 ∨ x = 7 ∨ x = 8 ∨ x = 9)%N as Hcase by lia.
  by repeat destruct Hcase as [->|Hcase]; [by vm_compute..|subst; by vm_compute].
Qed.

Lemma digits_val_go x s : digits_val (pretty_N_go x s) 0 = digits_val s (Z.of_N x).
Proof.
  revert s. induction (N.lt_wf_0 x) as [x _ IH]; intros s. destruct (decide (x = 0)%N) as [->|Hx]; [done|].
  rewrite pretty_N_go_step by lia. rewrite IH by (apply N.div_lt; lia). cbn [digits_val].
  destruct (digit_char (x `mod` 10)) as [-> ->]; [by apply N.mod_lt|].
  rewrite N2Z.inj_div, N2Z.inj_mod. f_equal. pose proof (Z.div_mod (Z.of_N x) 10). lia.
Qed.

Lemma digits_val_pretty (x : N) : digits_val (pretty x) 0 = Some (Z.of_N x).
Proof. unfold pretty, pretty_N. case_decide as Hx; [by subst|]. by rewrite digits_val_go. Qed.

Lemma take_all_digits s a n : digits_val s a = Some n → take_digits s = (s, "").
Proof.
  revert a. induction s as [|c s IH]; intros a; cbn; [done|]. destruct (is_digit c); [|done]. intros H%IH. by rewrite H.
Qed.

(** No leading zero. *)
Lemma pretty_go_head x s : (0 < x)%N → ∃ c r, pretty_N_go x s = String c r ∧ is_byte 48 c = false ∧ is_digit c = true.
Proof.
  revert s. induction (N.lt_wf_0 x) as [x _ IH]; intros s Hx. rewrite pretty_N_go_step by done.
  destruct (decide (x < 10)%N) as [Hlt|Hge].
  - rewrite N.div_small, N.mod_small by done. exists (pretty_N_char x), s. split; [done|].
    destruct (digit_char x Hlt) as [Hd Hv]. split; [|done]. apply N.eqb_neq. lia.
  - apply IH; [apply N.div_lt; lia|]. apply N.div_str_pos. lia.
Qed.

Lemma parse_pretty (x : N) : parse_int_part (pretty x) = Some (pretty x, "").
Proof.
  assert (Hv := digits_val_pretty x). unfold pretty, pretty_N in *. case_decide as Hx; [by subst|].
  destruct (pretty_go_head x "") as (c & r & E & H0 & Hd); [lia|]. rewrite E in *. unfold parse_int_part. rewrite H0, Hd.
  by rewrite (take_all_digits _ _ _ Hv).
Qed.

(** A digit is no other character the parser looks for. *)
Lemma digit_not c n : is_digit c = true → (n < 48 ∨ 57 < n)%N → is_byte n c = false.
Proof. unfold is_digit, is_byte. intros [H1%N.leb_le H2%N.leb_le]%andb_prop Hn. apply N.eqb_neq. lia. Qed.

Lemma digit_not_space c : is_digit c = true → is_json_space c = false.
Proof.
  intros Hd. unfold is_json_space. unfold is_digit in Hd. apply andb_prop in Hd as [H1%N.leb_le H2%N.leb_le].
  repeat (apply orb_false_iff; split); apply N.eqb_neq; unfold byte_val in *; lia.
Qed.

Lemma json_parse_natural (x : N) : json_parse (pretty x) = Some (JNumber (pretty x)).
Proof.
  assert (Hp := parse_pretty x). assert (Hv := digits_val_pretty x).
  destruct (pretty x) as [|c r] eqn:E; [done|].
  assert (Hd : is_digit c = true) by (cbn in Hv; by destruct (is_digit c)).
  unfold json_parse. rewrite Nat.add_comm. cbn [Nat.add parse_value skip_space]. rewrite digit_not_space by done.
  rewrite !(digit_not c) by (first [exact Hd|right; reflexivity|left; reflexivity]). unfold parse_number. rewrite (digit_not c) by (first [exact Hd|lia]). rewrite Hp. cbn.
  by rewrite append_nil_r.
Qed.

Lemma literal_pretty (x : N) : literal_int (pretty x) = Some (Z.of_N x).
Proof.
  assert (Hp := parse_pretty x). assert (Hv := digits_val_pretty x). destruct (pretty x) as [|c r]; [done|].
  assert (Hd : is_digit c = true) by (cbn in Hv; by destruct (is_digit c)).
  unfold literal_int. by rewrite (digit_not c) by (first [exact Hd|right; reflexivity|left; reflexivity]).
Qed.

Lemma itoa_natural (z : Z) : (0 ≤ z)%Z → itoa z = pretty (Z.to_N z).
Proof. by destruct z. Qed.
