(* ===== verification/GoTime.v ===== *)
(** * Go timestamps

    Which texts [time.Parse(time.RFC3339Nano, _)] accepts, as the code uses it to
    validate timestamps, and [strings.ToValidUTF8]. *)
From S2P Require Import Prelude GoStrings Json.

(** ** time.Parse(time.RFC3339Nano, _) *)

Definition digit_val (c : Ascii.ascii) : Z := Z.of_N (byte_val c) - 48.

(** A number of exactly two digits, and the rest. *)
Definition two_digits (s : string) : option (Z * string) :=
  match s with
  | String a (String b r) =>
      if is_digit a && is_digit b then Some ((digit_val a * 10 + digit_val b)%Z, r) else None
  | _ => None
  end.

(** [getnum] without a fixed width: one or two digits. *)
Definition one_or_two_digits (s : string) : option (Z * string) :=
  match s with
  | String a r =>
      if is_digit a then
        match r with
        | String b r' => if is_digit b then Some ((digit_val a * 10 + digit_val b)%Z, r') else Some (digit_val a, r)
        | EmptyString => Some (digit_val a, r)
        end
      else None
  | EmptyString => None
  end.

Definition expect (n : N) (s : string) : option string :=
  match s with String c r => if is_byte n c then Some r else None | EmptyString => None end.

Definition is_leap (y : Z) : bool := ((y mod 4 =? 0) && (negb (y mod 100 =? 0) || (y mod 400 =? 0)))%Z.

Definition days_in (month year : Z) : Z :=
  if (month =? 2)%Z then if is_leap year then 29 else 28
  else if bool_decide (month ∈ [4; 6; 9; 11]%Z) then 30 else 31.

Fixpoint skip_digits (s : string) : string :=
  match s with String c r => if is_digit c then skip_digits r else s | EmptyString => s end.

(** The optional fraction: a period or a comma and at least one digit. *)
Definition skip_fraction (s : string) : string :=
  match s with
  | String p (String d r) => if (is_byte 46 p || is_byte 44 p) && is_digit d then skip_digits r else s
  | _ => s
  end.

Definition zone_ok (s : string) : bool :=
  match s with
  | String z EmptyString => is_byte 90 z
  | String sign (String a (String b (String colon (String c (String d EmptyString))))) =>
      (is_byte 43 sign || is_byte 45 sign) && is_byte 58 colon &&
      match two_digits (String a (byte_str b)), two_digits (String c (byte_str d)) with
      | Some (h, _), Some (m, _) => (h <=? 24)%Z && (m <=? 60)%Z
      | _, _ => false
      end
  | _ => false
  end.

Definition in_range (lo x hi : Z) : option unit := if (lo <=? x)%Z && (x <=? hi)%Z then Some tt else None.

Definition rfc3339_valid (s : string) : bool :=
  match
    '(y1, s) ← two_digits s; '(y2, s) ← two_digits s;
    s ← expect 45 s; '(month, s) ← two_digits s; in_range 1 month 12 ;;
    s ← expect 45 s; '(day, s) ← two_digits s;
    s ← expect 84 s; '(hour, s) ← one_or_two_digits s; in_range 0 hour 23 ;;
    s ← expect 58 s; '(min, s) ← two_digits s; in_range 0 min 59 ;;
    s ← expect 58 s; '(sec, s) ← two_digits s; in_range 0 sec 59 ;;
    in_range 1 day (days_in month (y1 * 100 + y2)) ;;
    if zone_ok (skip_fraction s) then Some tt else None
  with Some _ => true | None => false end.

Example rfc3339_accepts :
  (rfc3339_valid <$> ["2024-02-29T12:00:00Z"; "2024-01-01T1:02:03.5+02:00"; "2023-02-29T12:00:00Z"; "2024-01-01"; "2024-01-01T24:00:00Z"])
  = [true; true; false; false; false].
Proof. reflexivity. Qed.

(** ** strings.ToValidUTF8 *)

(** Runs of bytes that are not UTF-8 become one replacement. *)
Fixpoint to_valid_go (fuel : nat) (s rep : string) (invalid : bool) : string :=
  match fuel, s with
  | O, _ | _, EmptyString => ""
  | S f, String _ s' =>
      match utf8_len s with
      | O => (if invalid then "" else rep) +:+ to_valid_go f s' rep true
      | n => stake n s +:+ to_valid_go f (sdrop n s) rep false
      end
  end.
Definition to_valid_utf8 (s rep : string) : string := to_valid_go (String.length s) s rep false.

Fixpoint valid_utf8_go (fuel : nat) (s : string) : bool :=
  match fuel, s with
  | O, _ | _, EmptyString => true
  | S f, _ => match utf8_len s with O => false | n => valid_utf8_go f (sdrop n s) end
  end.
Definition valid_utf8 (s : string) : bool := valid_utf8_go (String.length s) s.
