(* ===== verification/AtprotoTime.v ===== *)
(** * Record creation times

    src/internal/atproto/time.go: the creation time of a record in the one form the
    [record_created_at] column, its filters and its cursors use, UTC with milliseconds. The
    strict datetime parser is Indigo's ([syntax.ParseDatetimeTime]), a parameter; an instant
    is its nanoseconds since 1970. Then the layouts of [ParseTimestamp], and that it reads
    back what the column, PostgreSQL and a cursor hold. *)
From S2P Require Import Prelude GoStrings Json GoTime.

Class DatetimeParser := { ParseDatetimeTime : string → option Z }.

(** ** Formatting instants *)

(** The proleptic Gregorian date of a day number since 1970-01-01. *)
Definition civil (days : Z) : Z * Z * Z :=
  (let z := days + 719468 in
   let era := z / 146097 in
   let doe := z mod 146097 in
   let yoe := (doe - doe / 1460 + doe / 36524 - doe / 146096) / 365 in
   let doy := doe - (365 * yoe + yoe / 4 - yoe / 100) in
   let mp := (5 * doy + 2) / 153 in
   let d := doy - (153 * mp + 2) / 5 + 1 in
   let m := if mp <? 10 then mp + 3 else mp - 9 in
   ((if m <=? 2 then yoe + era * 400 + 1 else yoe + era * 400), m, d))%Z.

(** [appendInt]: at least [width] digits. *)
Fixpoint pad_zeros (width : nat) (s : string) : string :=
  match width with
  | O => s
  | S w => if String.length s <? width then String (byte 48) (pad_zeros w s) else s
  end.
Definition append_int (x : Z) (width : nat) : string :=
  if (x <? 0)%Z then "-" +:+ pad_zeros width (itoa (- x)) else pad_zeros width (itoa x).

(** [t.UTC().Truncate(time.Millisecond).Format("2006-01-02T15:04:05.000Z")] *)
Definition format_millis (t : Z) : string :=
  let ms := (t / 1000000)%Z in
  let '(y, m, d) := civil (ms / 86400000) in
  let r := (ms mod 86400000)%Z in
  append_int y 4 +:+ "-" +:+ append_int m 2 +:+ "-" +:+ append_int d 2 +:+ "T" +:+
  append_int (r / 3600000) 2 +:+ ":" +:+ append_int (r / 60000 mod 60) 2 +:+ ":" +:+
  append_int (r / 1000 mod 60) 2 +:+ "." +:+ append_int (r mod 1000) 3 +:+ "Z".

Section datetime.
Context `{DatetimeParser}.

Definition NormalizeRecordDatetime (value : string) : option string :=
  if (value =? "")%string then None else format_millis <$> ParseDatetimeTime value.

(** The top-level [createdAt] of a record, when it is a string: the text is decoded into a
    [map[string]json.RawMessage], in which the last member of a name counts. *)
Definition NormalizeRecordCreatedAt (recordJSON : string) : option string :=
  match json_parse recordJSON with
  | Some (JObject ms) =>
      match last (filter (λ m : member, (m.1 =? "createdAt")%string = true) ms) with
      | Some (_, (_, JString value)) => NormalizeRecordDatetime value
      | _ => None
      end
  | _ => None
  end.
End datetime.

(** ** A parser

    Accepts exactly the form above, for years of four digits. *)

Definition days_from_civil (y m d : Z) : Z :=
  (let y := if m <=? 2 then y - 1 else y in
   let era := y / 400 in
   let yoe := y mod 400 in
   let doy := (153 * (if m <=? 2 then m + 9 else m - 3) + 2) / 5 + d - 1 in
   era * 146097 + yoe * 365 + yoe / 4 - yoe / 100 + doy - 719468)%Z.

Definition parse_millis (s : string) : option Z :=
  '(y1, s) ← two_digits s; '(y2, s) ← two_digits s;
  s ← expect 45 s; '(m, s) ← two_digits s; in_range 1 m 12 ;;
  s ← expect 45 s; '(d, s) ← two_digits s; in_range 1 d (days_in m (y1 * 100 + y2)) ;;
  s ← expect 84 s; '(hh, s) ← two_digits s; in_range 0 hh 23 ;;
  s ← expect 58 s; '(mi, s) ← two_digits s; in_range 0 mi 59 ;;
  s ← expect 58 s; '(ss, s) ← two_digits s; in_range 0 ss 59 ;;
  s ← expect 46 s; '(f1, s) ← two_digits (String (byte 48) s); '(f2, s) ← two_digits s;
  match s with
  | String z EmptyString =>
      if is_byte 90 z then
        Some ((days_from_civil (y1 * 100 + y2) m d * 86400000 + hh * 3600000 + mi * 60000 + ss * 1000 + f1 * 100 + f2) * 1000000)%Z
      else None
  | _ => None
  end.

Example format_examples :
  format_millis <$> [0; -1; 951782400123999999; 4102444799999000000]%Z =
  ["1970-01-01T00:00:00.000Z"; "1969-12-31T23:59:59.999Z"; "2000-02-29T00:00:00.123Z"; "2099-12-31T23:59:59.999Z"].
Proof. by vm_compute. Qed.

Example parse_examples :
  (λ s, format_millis <$> parse_millis s) <$> ["2000-02-29T00:00:00.123Z"; "0010-03-01T23:59:59.009Z"; "2001-02-29T00:00:00.000Z"] =
  [Some "2000-02-29T00:00:00.123Z"; Some "0010-03-01T23:59:59.009Z"; None].
Proof. by vm_compute. Qed.

(** ** Legacy timestamps

    src/internal/atproto/time.go [ParseTimestamp] and [ExtractCreatedAt]: the time of an activity entry,
    from whichever field and format a record uses. An instant is its nanoseconds since 1970. *)

(** ** time.Parse

    The layouts differ in what separates date and time and in how they end; a fraction of a
    second is accepted by all of them. *)
Inductive layout_zone := ColonZone | LiteralZ | HourZone | LiteralUTC | NoZone.
Record layout := mkLayout { ly_space : bool; ly_zone : layout_zone }.

Definition TimestampFormats : list layout :=
  [mkLayout false ColonZone; mkLayout false ColonZone; mkLayout false ColonZone; mkLayout false LiteralZ; mkLayout false NoZone;
   mkLayout true HourZone; mkLayout true LiteralUTC; mkLayout true NoZone; mkLayout true HourZone; mkLayout true LiteralUTC; mkLayout true NoZone].

(** A space of the layout matches any number of spaces. *)
Fixpoint cut_spaces (s : string) : string :=
  match s with String c r => if Ascii.eqb c space then cut_spaces r else s | EmptyString => s end.
Definition separator (ly : layout) (s : string) : option string :=
  if ly_space ly then (s' ← expect 32 s; Some (cut_spaces s')) else expect 84 s.

(** The nanoseconds of up to nine digits of a fraction, [scale] being the next digit's worth. *)
Fixpoint nanoseconds (scale : Z) (s : string) : Z :=
  match s with
  | String c r => if is_digit c then (digit_val c * scale + nanoseconds (scale / 10) r)%Z else 0%Z
  | EmptyString => 0%Z
  end.

Definition fraction (s : string) : Z * string :=
  match s with
  | String p (String d r) =>
      if (is_byte 46 p || is_byte 44 p) && is_digit d
      then (nanoseconds 100000000 (String d r), skip_digits r) else (0%Z, s)
  | _ => (0%Z, s)
  end.

(** Seconds east of UTC; nothing may follow. *)
Definition zone_offset (z : layout_zone) (s : string) : option Z :=
  match z with
  | NoZone => if (s =? "")%string then Some 0%Z else None
  | LiteralZ => if (s =? "Z")%string then Some 0%Z else None
  | LiteralUTC => if (s =? "+00")%string then Some 0%Z else None
  | HourZone =>
      match s with
      | String sign r =>
          '(h, r) ← two_digits r;
          if (is_byte 43 sign || is_byte 45 sign) && (h <=? 24)%Z && (r =? "")%string
          then Some (if is_byte 45 sign then - (h * 3600) else h * 3600)%Z else None
      | EmptyString => None
      end
  | ColonZone =>
      if (s =? "Z")%string then Some 0%Z
      else if zone_ok s then
        match s with
        | String sign r =>
            '(h, r) ← two_digits r; r ← expect 58 r; '(m, _) ← two_digits r;
            Some (if is_byte 45 sign then - (h * 3600 + m * 60) else h * 3600 + m * 60)%Z
        | EmptyString => None
        end
      else None
  end.

Definition time_parse (ly : layout) (s : string) : option Z :=
  '(y1, s) ← two_digits s; '(y2, s) ← two_digits s;
  s ← expect 45 s; '(month, s) ← two_digits s; in_range 1 month 12 ;;
  s ← expect 45 s; '(day, s) ← two_digits s;
  s ← separator ly s; '(hour, s) ← one_or_two_digits s; in_range 0 hour 23 ;;
  s ← expect 58 s; '(min, s) ← two_digits s; in_range 0 min 59 ;;
  s ← expect 58 s; '(sec, s) ← two_digits s; in_range 0 sec 59 ;;
  let '(nanos, s) := fraction s in
  offset ← zone_offset (ly_zone ly) s;
  in_range 1 day (days_in month (y1 * 100 + y2)) ;;
  Some ((days_from_civil (y1 * 100 + y2) month day * 86400 + hour * 3600 + min * 60 + sec - offset) * 1000000000 + nanos)%Z.

(** The zero time: the start of the year 1. *)
Definition zero_time : Z := Eval vm_compute in (days_from_civil 1 1 1 * 86400 * 1000000000)%Z.

Definition ParseTimestamp (s : string) : Z := default zero_time (head (omap (λ ly, time_parse ly s) TimestampFormats)).

Definition createdAtFields : list string := ["createdAt"; "$createdAt"; "created_at"; "timestamp"; "indexedAt"].

Section created_at.
Context `{DatetimeParser} (float64_ok : string → bool).

(** The time a field gives, if it is a string that parses. *)
Definition field_time (data : gmap string json) (field : string) : option Z :=
  match data !! field with
  | Some (JString val) =>
      match ParseDatetimeTime val with
      | Some t => Some t
      | None => if (ParseTimestamp val =? zero_time)%Z then None else Some (ParseTimestamp val)
      end
  | _ => None
  end.

Definition ExtractCreatedAt (recordJSON : string) (fallback : Z) : Z :=
  match json_parse recordJSON with
  | Some (JObject ms) =>
      if forallb (λ m : member, numbers_ok float64_ok m.2.2) ms
      then default fallback (head (omap (field_time (object_map ms)) createdAtFields))
      else fallback
  | _ => fallback
  end.
End created_at.

Example timestamps_parse :
  ParseTimestamp <$> ["2024-02-29T12:00:00Z"; "2024-02-29 12:00:00.5"; "2024-02-29  12:00:00+00"; "2024-02-29T12:00:00.123456789012+01:30";
    "2024-02-29"; "2023-02-29T12:00:00"] =
  [1709208000000000000; 1709208000500000000; 1709208000000000000; 1709202600123456789; zero_time; zero_time]%Z.
Proof. by vm_compute. Qed.

(** ** Formatted instants are read back *)

(** A check of consecutive numbers, by evaluation. *)
Fixpoint upto (check : Z → bool) (n : nat) (z : Z) : bool :=
  match n with O => true | S n => check z && upto check n (z + 1) end.

Lemma upto_spec check n z x : upto check n z = true → (z ≤ x < z + Z.of_nat n)%Z → check x = true.
Proof.
  revert z. induction n as [|n IH]; intros z Hu Hx; [lia|]. cbn [upto] in Hu. apply andb_prop in Hu as [Hz Hu].
  destruct (decide (x = z)) as [->|]; [done|]. apply (IH (z + 1)%Z); [done|lia].
Qed.

(** A day within its 400 years: its year, and its place in the year that starts in March. *)
Lemma day_of_period doe :
  (0 ≤ doe < 146097)%Z →
  let yoe := ((doe - doe / 1460 + doe / 36524 - doe / 146096) / 365)%Z in
  let doy := (doe - (365 * yoe + yoe / 4 - yoe / 100))%Z in
  (0 ≤ yoe ≤ 399 ∧ 0 ≤ doy ≤ 365 ∧
   (doy = 365 → (yoe + 1) mod 4 = 0 ∧ ((yoe + 1) mod 100 ≠ 0 ∨ (yoe + 1) mod 400 = 0)))%Z.
Proof. intros Hd. cbv zeta. Z.to_euclidean_division_equations. lia. Qed.

Definition month_of (doy : Z) : Z := (let mp := (5 * doy + 2) / 153 in if mp <? 10 then mp + 3 else mp - 9)%Z.
Definition day_of (doy : Z) : Z := (doy - (153 * ((5 * doy + 2) / 153) + 2) / 5 + 1)%Z.

Definition doy_ok (doy : Z) : bool :=
  let m := month_of doy in let d := day_of doy in
  ((153 * (if m <=? 2 then m + 9 else m - 3) + 2) / 5 + d - 1 =? doy)%Z && (1 <=? m)%Z && (m <=? 12)%Z && (1 <=? d)%Z &&
  (d <=? if m =? 2 then if doy =? 365 then 29 else 28 else if bool_decide (m ∈ [4; 6; 9; 11]) then 30 else 31)%Z.

Lemma doys_ok : upto doy_ok 366 0 = true.
Proof. vm_compute. reflexivity. Qed.

(** The day number of a day's date is that day. *)
Lemma civil_days days :
  let '(y, m, d) := civil days in
  days_from_civil y m d = days ∧ (1 ≤ m ≤ 12)%Z ∧ (1 ≤ d ≤ days_in m y)%Z.
Proof.
  unfold civil. set (era := ((days + 719468) / 146097)%Z). set (doe := ((days + 719468) mod 146097)%Z). cbv zeta.
  destruct (day_of_period doe (Z.mod_pos_bound (days + 719468) 146097 ltac:(lia))) as (Hyoe & Hdoy & Hleap).
  set (yoe := ((doe - doe / 1460 + doe / 36524 - doe / 146096) / 365)%Z) in *.
  set (doy := (doe - (365 * yoe + yoe / 4 - yoe / 100))%Z) in *.
  pose proof (upto_spec _ _ _ doy doys_ok ltac:(lia)) as Hok. unfold doy_ok in Hok.
  change (if ((5 * doy + 2) / 153 <? 10)%Z then _ else _) with (month_of doy).
  change (doy - (153 * ((5 * doy + 2) / 153) + 2) / 5 + 1)%Z with (day_of doy).
  set (m := month_of doy) in *. set (d := day_of doy) in *. cbv zeta in Hok.
  repeat (apply andb_prop in Hok as [Hok ?]).
  set (y := (if (m <=? 2)%Z then yoe + era * 400 + 1 else yoe + era * 400)%Z).
  assert (Hy : (if (m <=? 2)%Z then y - 1 else y)%Z = (yoe + era * 400)%Z) by (unfold y; destruct (m <=? 2)%Z; lia).
  split_and!; [|lia..|].
  - unfold days_from_civil. rewrite Hy. cbv zeta. rewrite Z.div_add, Z_mod_plus_full by done.
    rewrite (Z.div_small yoe), (Z.mod_small yoe) by lia. apply Z.eqb_eq in Hok.
    pose proof (Z_div_mod_eq_full (days + 719468) 146097) as Hd. fold era doe in Hd. unfold doy in Hok. lia.
  - unfold days_in. destruct (Z.eqb_spec m 2) as [Em|]; [|lia]. destruct (Z.eqb_spec doy 365) as [E|].
    + destruct (Hleap E) as [H4 H100]. assert (is_leap y = true) as ->; [|lia]. unfold is_leap, y. rewrite Em. cbn [Z.leb Z.compare].
      change (2 <=? 2)%Z with true. cbv iota.
      replace (yoe + era * 400 + 1)%Z with (yoe + 1 + (era * 100) * 4)%Z at 1 by lia.
      replace (yoe + era * 400 + 1)%Z with (yoe + 1 + (era * 4) * 100)%Z at 1 by lia.
      replace (yoe + era * 400 + 1)%Z with (yoe + 1 + era * 400)%Z by lia. rewrite !Z_mod_plus_full.
      rewrite H4. destruct H100 as [H100|H100]; [apply Z.eqb_neq in H100; by rewrite H100|]. by rewrite H100, orb_true_r.
    + destruct (is_leap y); lia.
Qed.

(** The year of an instant; a formatted year of four digits can be read back. PostgreSQL has no
    year 0. *)
Definition year_of (t : Z) : Z := (civil (t / 1000000 / 86400000)).1.1.
Definition four_digit_year (t : Z) : Prop := (1 ≤ year_of t ≤ 9999)%Z.
#[export] Instance four_digit_year_dec t : Decision (four_digit_year t).
Proof. unfold four_digit_year. apply _. Defined.

Definition pair_ok (v : Z) : bool :=
  match append_int v 2 with
  | String a (String b EmptyString) => is_digit a && is_digit b && (digit_val a * 10 + digit_val b =? v)%Z
  | _ => false
  end.

Lemma pairs_ok : upto pair_ok 100 0 = true.
Proof. vm_compute. reflexivity. Qed.

Lemma two_digits_append v s : (0 ≤ v < 100)%Z →
  two_digits (append_int v 2 +:+ s) = Some (v, s) ∧ one_or_two_digits (append_int v 2 +:+ s) = Some (v, s).
Proof.
  intros Hv. pose proof (upto_spec _ _ _ v pairs_ok ltac:(lia)) as Hok. unfold pair_ok in Hok.
  destruct (append_int v 2) as [|a [|b [|]]]; try done. rewrite !append_cons. cbn [two_digits one_or_two_digits].
  destruct (is_digit a), (is_digit b); try done. apply Z.eqb_eq in Hok. by rewrite Hok.
Qed.

Definition year_ok (y : Z) : bool :=
  (append_int y 4 =? append_int (y / 100) 2 +:+ append_int (y mod 100) 2)%string.

Lemma years_ok : upto year_ok (Z.to_nat 10000) 0 = true.
Proof. vm_compute. reflexivity. Qed.

Lemma append_year y : (0 ≤ y ≤ 9999)%Z → append_int y 4 = append_int (y / 100) 2 +:+ append_int (y mod 100) 2.
Proof. intros Hy. pose proof (upto_spec _ _ _ y years_ok ltac:(lia)) as Hok. by apply String.eqb_eq in Hok. Qed.

Lemma expect_byte n s : (n < 256)%N → expect n (String (byte n) s) = Some s.
Proof. intros Hn. cbn. unfold is_byte, byte, byte_val. rewrite Ascii.N_ascii_embedding by done. by rewrite N.eqb_refl. Qed.
Lemma expect_dash s : expect 45 ("-" +:+ s) = Some s.
Proof. by apply expect_byte. Qed.
Lemma expect_colon s : expect 58 (":" +:+ s) = Some s.
Proof. by apply expect_byte. Qed.

(** What [time.Parse] makes of a date and a time of day followed by [s]. *)
Definition after_seconds (ly : layout) (y m d h mi ss : Z) (s : string) : option Z :=
  let '(nanos, s) := fraction s in
  offset ← zone_offset (ly_zone ly) s;
  Some ((days_from_civil y m d * 86400 + h * 3600 + mi * 60 + ss - offset) * 1000000000 + nanos)%Z.

Definition date_text (y m d : Z) : string := append_int y 4 +:+ "-" +:+ append_int m 2 +:+ "-" +:+ append_int d 2.
Definition clock_text (h mi ss : Z) : string := append_int h 2 +:+ ":" +:+ append_int mi 2 +:+ ":" +:+ append_int ss 2.

Lemma in_range_ok lo x hi : (lo ≤ x ≤ hi)%Z → in_range lo x hi = Some tt.
Proof. intros Hx. unfold in_range. by rewrite (proj2 (Z.leb_le _ _)), (proj2 (Z.leb_le _ _)) by lia. Qed.

(** [time.Parse] after the date. *)
Definition after_date (ly : layout) (y m d : Z) (s : string) : option Z :=
  s ← separator ly s; '(h, s) ← one_or_two_digits s; in_range 0 h 23 ;;
  s ← expect 58 s; '(mi, s) ← two_digits s; in_range 0 mi 59 ;;
  s ← expect 58 s; '(ss, s) ← two_digits s; in_range 0 ss 59 ;;
  after_seconds ly y m d h mi ss s.

Lemma time_parse_date ly y m d s :
  (0 ≤ y ≤ 9999)%Z → (1 ≤ m ≤ 12)%Z → (1 ≤ d ≤ days_in m y)%Z →
  time_parse ly (date_text y m d +:+ s) = after_date ly y m d s.
Proof.
  intros Hy Hm Hd. unfold time_parse, date_text, after_date, after_seconds.
  assert (Hd' : (d < 100)%Z).
  { unfold days_in in Hd. destruct (m =? 2)%Z; [destruct (is_leap y)|case_bool_decide]; lia. }
  rewrite append_year by done. rewrite !append_assoc.
  rewrite (proj1 (two_digits_append (y / 100) _ ltac:(Z.to_euclidean_division_equations; lia))). cbn [mbind option_bind].
  rewrite (proj1 (two_digits_append (y mod 100) _ (Z.mod_pos_bound y 100 eq_refl))). cbn [mbind option_bind].
  rewrite expect_dash. cbn [mbind option_bind].
  rewrite (proj1 (two_digits_append m _ ltac:(lia))). cbn [mbind option_bind]. rewrite (in_range_ok 1 m 12) by lia. cbn [mbind option_bind].
  rewrite expect_dash. cbn [mbind option_bind].
  rewrite (proj1 (two_digits_append d _ ltac:(lia))). cbn [mbind option_bind].
  assert (Hyy : (y / 100 * 100 + y mod 100 = y)%Z) by (pose proof (Z_div_mod_eq_full y 100); lia). rewrite Hyy.
  rewrite (in_range_ok 1 d (days_in m y)) by lia. cbn [mbind option_bind].
  repeat (match goal with |- mbind _ ?x = mbind _ ?x => destruct x as [?|]; [|done]; cbn [mbind option_bind]; try case_match end; try done).
Qed.

Lemma separator_clock ly h s :
  (0 ≤ h ≤ 23)%Z → separator ly ((if ly_space ly then " " else "T") +:+ append_int h 2 +:+ s) = Some (append_int h 2 +:+ s).
Proof.
  intros Hh. pose proof (upto_spec _ _ _ h pairs_ok ltac:(lia)) as Hok. unfold pair_ok in Hok.
  destruct (append_int h 2) as [|a [|b [|]]]; try done. unfold separator. destruct (ly_space ly); [|done].
  change (" " +:+ ?x) with (String (byte 32) x). rewrite expect_byte by done. cbn [mbind option_bind]. rewrite !append_cons.
  cbn [cut_spaces]. by destruct (Ascii.eqb_spec a space) as [->|].
Qed.

Lemma time_parse_text ly y m d h mi ss s :
  (0 ≤ y ≤ 9999)%Z → (1 ≤ m ≤ 12)%Z → (1 ≤ d ≤ days_in m y)%Z →
  (0 ≤ h ≤ 23)%Z → (0 ≤ mi ≤ 59)%Z → (0 ≤ ss ≤ 59)%Z →
  time_parse ly (date_text y m d +:+ (if ly_space ly then " " else "T") +:+ clock_text h mi ss +:+ s) =
  after_seconds ly y m d h mi ss s.
Proof.
  intros Hy Hm Hd Hh Hmi Hss. rewrite time_parse_date by done. unfold after_date, clock_text.
  rewrite !append_assoc, separator_clock by done. cbn [mbind option_bind].
  rewrite (proj2 (two_digits_append h _ ltac:(lia))). cbn [mbind option_bind]. rewrite (in_range_ok 0 h 23) by lia. cbn [mbind option_bind].
  rewrite expect_colon. cbn [mbind option_bind].
  rewrite (proj1 (two_digits_append mi _ ltac:(lia))). cbn [mbind option_bind]. rewrite (in_range_ok 0 mi 59) by lia. cbn [mbind option_bind].
  rewrite expect_colon. cbn [mbind option_bind].
  rewrite (proj1 (two_digits_append ss _ ltac:(lia))). cbn [mbind option_bind]. by rewrite (in_range_ok 0 ss 59) by lia.
Qed.

(** The date and time of day of an instant. *)
Record moment := mkMoment { mo_year : Z; mo_month : Z; mo_day : Z; mo_hour : Z; mo_minute : Z; mo_second : Z; mo_milli : Z }.
Definition moment_of (t : Z) : moment :=
  let ms := (t / 1000000)%Z in
  let '(y, m, d) := civil (ms / 86400000) in
  let r := (ms mod 86400000)%Z in
  mkMoment y m d (r / 3600000) (r / 60000 mod 60) (r / 1000 mod 60) (r mod 1000).

Lemma format_millis_text t :
  format_millis t = let m := moment_of t in
    date_text (mo_year m) (mo_month m) (mo_day m) +:+ "T" +:+ clock_text (mo_hour m) (mo_minute m) (mo_second m) +:+
    "." +:+ append_int (mo_milli m) 3 +:+ "Z".
Proof.
  unfold format_millis, moment_of, date_text, clock_text. destruct (civil _) as [[y m] d]. cbn [mo_year mo_month mo_day mo_hour mo_minute mo_second mo_milli].
  by rewrite !append_assoc.
Qed.

Lemma moment_any t :
  let m := moment_of t in
  (1 ≤ mo_month m ≤ 12)%Z ∧ (1 ≤ mo_day m ≤ days_in (mo_month m) (mo_year m))%Z ∧
  (0 ≤ mo_hour m ≤ 23)%Z ∧ (0 ≤ mo_minute m ≤ 59)%Z ∧ (0 ≤ mo_second m ≤ 59)%Z ∧ (0 ≤ mo_milli m < 1000)%Z ∧
  ((days_from_civil (mo_year m) (mo_month m) (mo_day m) * 86400 + mo_hour m * 3600 + mo_minute m * 60 + mo_second m) * 1000000000
    + mo_milli m * 1000000 = t / 1000000 * 1000000)%Z.
Proof.
  unfold moment_of. pose proof (civil_days (t / 1000000 / 86400000)) as Hc.
  destruct (civil _) as [[y m] d]. cbn [fst mo_year mo_month mo_day mo_hour mo_minute mo_second mo_milli].
  destruct Hc as (Hdays & Hm & Hd). rewrite Hdays.
  set (ms := (t / 1000000)%Z). pose proof (Z_div_mod_eq_full ms 86400000). pose proof (Z.mod_pos_bound ms 86400000 ltac:(lia)).
  set (r := (ms mod 86400000)%Z) in *. split_and!; try lia.
  all: Z.to_euclidean_division_equations; lia.
Qed.

Lemma moment_spec t : four_digit_year t →
  let m := moment_of t in
  (0 ≤ mo_year m ≤ 9999)%Z ∧ (1 ≤ mo_month m ≤ 12)%Z ∧ (1 ≤ mo_day m ≤ days_in (mo_month m) (mo_year m))%Z ∧
  (0 ≤ mo_hour m ≤ 23)%Z ∧ (0 ≤ mo_minute m ≤ 59)%Z ∧ (0 ≤ mo_second m ≤ 59)%Z ∧ (0 ≤ mo_milli m < 1000)%Z ∧
  ((days_from_civil (mo_year m) (mo_month m) (mo_day m) * 86400 + mo_hour m * 3600 + mo_minute m * 60 + mo_second m) * 1000000000
    + mo_milli m * 1000000 = t / 1000000 * 1000000)%Z.
Proof.
  intros Ht. split; [|apply moment_any]. unfold four_digit_year, year_of in Ht. unfold moment_of. destruct (civil _) as [[y m] d]. cbn in *. lia.
Qed.

(** ** The form of the column *)

(** [c] writes the instant [t], cut to milliseconds, as YYYY-MM-DDTHH:MM:SS.mmmZ: a date and a time of day of the calendar, which
    are that instant in UTC. *)
Definition utc_millis (t : Z) (c : string) : Prop :=
  ∃ y m d h mi ss ms, (1 ≤ m ≤ 12 ∧ 1 ≤ d ≤ days_in m y ∧ 0 ≤ h ≤ 23 ∧ 0 ≤ mi ≤ 59 ∧ 0 ≤ ss ≤ 59 ∧ 0 ≤ ms ≤ 999)%Z ∧
    c = append_int y 4 +:+ "-" +:+ append_int m 2 +:+ "-" +:+ append_int d 2 +:+ "T" +:+
        append_int h 2 +:+ ":" +:+ append_int mi 2 +:+ ":" +:+ append_int ss 2 +:+ "." +:+ append_int ms 3 +:+ "Z" ∧
    ((days_from_civil y m d * 86400 + h * 3600 + mi * 60 + ss) * 1000000000 + ms * 1000000 = t / 1000000 * 1000000)%Z.

Lemma format_millis_spec t : utc_millis t (format_millis t).
Proof.
  pose proof (moment_any t) as Hm. rewrite format_millis_text. cbv zeta in *. destruct Hm as (Hm & Hd & Hh & Hmi & Hss & Hms & Hsum).
  exists (mo_year (moment_of t)), (mo_month (moment_of t)), (mo_day (moment_of t)), (mo_hour (moment_of t)), (mo_minute (moment_of t)),
    (mo_second (moment_of t)), (mo_milli (moment_of t)).
  split; [lia|]. split; [|exact Hsum]. unfold date_text, clock_text. by rewrite !append_assoc.
Qed.

Section normal.
Context `{DatetimeParser}.

(** A text in the form of the column, of an instant the parser read. *)
Definition normal_datetime (c : string) : Prop := ∃ v t, ParseDatetimeTime v = Some t ∧ utc_millis t c.

Lemma normalized_normal v c : NormalizeRecordDatetime v = Some c → normal_datetime c.
Proof.
  unfold NormalizeRecordDatetime. destruct (v =? "")%string; [done|]. destruct (ParseDatetimeTime v) as [t|] eqn:E; [|done].
  intros [= <-]. exists v, t. split; [done|apply format_millis_spec].
Qed.

Lemma created_at_normal j c : NormalizeRecordCreatedAt j = Some c → normal_datetime c.
Proof. unfold NormalizeRecordCreatedAt. repeat case_match; try done. apply normalized_normal. Qed.

Lemma normal_nonempty c : normal_datetime c → c ≠ "".
Proof.
  intros (v & t & _ & y & m & d & h & mi & ss & ms & _ & -> & _) Hc. apply (f_equal String.length) in Hc.
  rewrite !length_append in Hc. cbn in Hc. lia.
Qed.
End normal.

(** What follows the seconds of a normal time, and of PostgreSQL's text of it: the fraction
    without its trailing zeros. *)
Fixpoint cut_zeros (s : string) : string :=
  match s with
  | EmptyString => EmptyString
  | String c r => match cut_zeros r with EmptyString => if is_byte 48 c then EmptyString else byte_str c | r' => String c r' end
  end.
Definition pg_fraction (r : Z) : string := if (r =? 0)%Z then "" else "." +:+ cut_zeros (append_int r 3).

(** The date and time that a clock [hours] ahead of UTC shows. *)
Definition local_time (hours t : Z) : Z := (t + hours * 3600000000000)%Z.

Definition zone_text (hours : Z) : string := (if (hours <? 0)%Z then "-" else "+") +:+ append_int (Z.abs hours) 2.

(** The text PostgreSQL gives for a [timestamptz] (DateStyle ISO): in the time zone of the session, which the code does not set. This is
    the text for an offset of whole hours and a year of the common era of up to four digits. *)
Definition pg_timestamp (hours t : Z) : string :=
  let m := moment_of (local_time hours t) in
  date_text (mo_year m) (mo_month m) (mo_day m) +:+ " " +:+ clock_text (mo_hour m) (mo_minute m) (mo_second m) +:+
  pg_fraction (mo_milli m) +:+ zone_text hours.

Definition zone_hours (hours : Z) : Prop := (-15 ≤ hours ≤ 15)%Z.
#[export] Instance zone_hours_dec hours : Decision (zone_hours hours).
Proof. unfold zone_hours. apply _. Defined.

(** Whole hours only: no layout of [TimestampFormats] has a space and an offset with minutes, so in a session of such a zone every time is
    read as the year 1. *)
Example half_hour_zone_lost : ParseTimestamp "2024-01-01 05:30:00+05:30" = zero_time ∧ ParseTimestamp "2024-01-01 05:00:00+05" = 1704067200000000000%Z.
Proof. split; vm_compute; reflexivity. Qed.

Definition zone_ok_at (hours : Z) : bool :=
  bool_decide (zone_offset HourZone (zone_text hours) = Some (hours * 3600)%Z) &&
  upto (λ r, bool_decide (fraction (pg_fraction r +:+ zone_text hours) = ((r * 1000000)%Z, zone_text hours))) 1000 0.

Lemma zones_ok : upto zone_ok_at 31 (-15) = true.
Proof. vm_compute. reflexivity. Qed.

Lemma zone_spec hours r : zone_hours hours → (0 ≤ r < 1000)%Z →
  zone_offset HourZone (zone_text hours) = Some (hours * 3600)%Z ∧
  fraction (pg_fraction r +:+ zone_text hours) = ((r * 1000000)%Z, zone_text hours).
Proof.
  intros Hh Hr. unfold zone_hours in Hh. pose proof (upto_spec _ _ _ hours zones_ok ltac:(lia)) as Hok. unfold zone_ok_at in Hok.
  apply andb_prop in Hok as [H1%bool_decide_eq_true H2]. pose proof (upto_spec _ _ _ r H2 ltac:(lia)) as H3. by apply bool_decide_eq_true in H3.
Qed.

Definition fraction_ok (r : Z) : bool := bool_decide (fraction ("." +:+ append_int r 3 +:+ "Z") = ((r * 1000000)%Z, "Z")).

Lemma fractions_ok : upto fraction_ok 1000 0 = true.
Proof. vm_compute. reflexivity. Qed.

Lemma fractions r : (0 ≤ r < 1000)%Z → fraction ("." +:+ append_int r 3 +:+ "Z") = ((r * 1000000)%Z, "Z").
Proof. intros Hr. pose proof (upto_spec _ _ _ r fractions_ok ltac:(lia)) as Hok. by apply bool_decide_eq_true in Hok. Qed.

Definition RFC3339Nano : layout := mkLayout false ColonZone.

Lemma parse_formatted t : four_digit_year t → time_parse RFC3339Nano (format_millis t) = Some (t / 1000000 * 1000000)%Z.
Proof.
  intros Ht. pose proof (moment_spec t Ht) as Hm. cbv zeta in Hm. destruct Hm as (Hy & Hm & Hd & Hh & Hmi & Hss & Hms & Hsum).
  rewrite format_millis_text. generalize dependent (moment_of t). intros mo Hy Hm Hd Hh Hmi Hss Hms Hsum. cbv zeta. rewrite (time_parse_text RFC3339Nano) by done. unfold after_seconds.
  rewrite (fractions _ Hms). cbn [RFC3339Nano ly_zone zone_offset String.eqb mbind option_bind]. rewrite <- Hsum. apply (f_equal Some). ring.
Qed.

(** A layout that wants a T does not take a space. *)
Lemma time_parse_no_t ly y m d s :
  ly_space ly = false → (0 ≤ y ≤ 9999)%Z → (1 ≤ m ≤ 12)%Z → (1 ≤ d ≤ days_in m y)%Z →
  time_parse ly (date_text y m d +:+ " " +:+ s) = None.
Proof. intros Hly Hy Hm Hd. rewrite time_parse_date by done. unfold after_date, separator. by rewrite Hly. Qed.

(** The texts a database gives back for a normal time, as [ParseTimestamp] reads them. *)
Lemma ParseTimestamp_formatted t : four_digit_year t → ParseTimestamp (format_millis t) = (t / 1000000 * 1000000)%Z.
Proof.
  intros Ht. unfold ParseTimestamp, TimestampFormats. cbn [omap list_omap].
  change (mkLayout false ColonZone) with RFC3339Nano. by rewrite (parse_formatted t Ht).
Qed.

Lemma ParseTimestamp_pg hours t :
  zone_hours hours → four_digit_year (local_time hours t) → ParseTimestamp (pg_timestamp hours t) = (t / 1000000 * 1000000)%Z.
Proof.
  intros Hz Ht. pose proof (moment_spec _ Ht) as Hm. cbv zeta in Hm. destruct Hm as (Hy & Hm & Hd & Hh & Hmi & Hss & Hms & Hsum).
  assert (Hloc : (local_time hours t / 1000000 * 1000000 = t / 1000000 * 1000000 + hours * 3600 * 1000000000)%Z).
  { unfold local_time. replace (t + hours * 3600000000000)%Z with (t + hours * 3600000 * 1000000)%Z by lia. rewrite Z.div_add by done. lia. }
  rewrite Hloc in Hsum.
  unfold ParseTimestamp, TimestampFormats, pg_timestamp. generalize dependent (moment_of (local_time hours t)). intros mo Hy Hm Hd Hh Hmi Hss Hms Hsum.
  cbv zeta. cbn [omap list_omap].
  rewrite !time_parse_no_t by done. rewrite (time_parse_text (mkLayout true HourZone)) by done. unfold after_seconds.
  destruct (zone_spec hours _ Hz Hms) as [Hoff Hfr]. rewrite Hfr. cbn [ly_zone]. rewrite Hoff. cbn [mbind option_bind head default]. unfold id. lia.
Qed.

Lemma format_truncated t : format_millis (t / 1000000 * 1000000) = format_millis t.
Proof. unfold format_millis. by rewrite Z.div_mul. Qed.

(** C40. A creation time in the column's form is read back whole, for every instant of the years 1 to 9999: the text
    SQLite stores, the text in a cursor, and the text PostgreSQL gives in a session whose time zone is a whole number of hours from UTC
    at that instant (and shows a year of 1 to 9999), all parse to the instant cut to milliseconds, whose form is the text again. *)
Theorem created_at_roundtrip t :
  four_digit_year t →
  ParseTimestamp (format_millis t) = (t / 1000000 * 1000000)%Z ∧
  (∀ hours, zone_hours hours → four_digit_year (local_time hours t) → ParseTimestamp (pg_timestamp hours t) = (t / 1000000 * 1000000)%Z) ∧
  time_parse RFC3339Nano (format_millis t) = Some (t / 1000000 * 1000000)%Z ∧
  format_millis (t / 1000000 * 1000000) = format_millis t ∧
  (t - 1000000 < t / 1000000 * 1000000 ≤ t)%Z.
Proof.
  intros Ht. split_and!; [by apply ParseTimestamp_formatted|by intros; apply ParseTimestamp_pg|by apply parse_formatted|apply format_truncated|..];
    Z.to_euclidean_division_equations; lia.
Qed.

Lemma created_at_roundtrip_witness :
  ParseTimestamp "2000-02-29T23:59:59.120Z" = 951868799120000000%Z ∧
  ParseTimestamp "2000-02-29 23:59:59.12+00" = 951868799120000000%Z ∧
  ParseTimestamp "2000-03-01 01:59:59.12+02" = 951868799120000000%Z ∧
  ParseTimestamp "2000-02-29 16:59:59.12-07" = 951868799120000000%Z.
Proof.
  assert (Ht : four_digit_year 951868799120456789) by (split; vm_compute; discriminate).
  destruct (created_at_roundtrip 951868799120456789 Ht) as (Hs & Hp & _). split; [exact Hs|].
  split; [|split]; [apply (Hp 0%Z)|apply (Hp 2%Z)|apply (Hp (-7)%Z)]; split; vm_compute; discriminate.
Defined.
