(* ===== verification/Effects.v ===== *)
(** * State, errors and faults

    The monad of the repositories and handlers. A computation reads and changes a
    state [S], may fail with an error text, and consumes a schedule of faults: one
    boolean per database statement, [true] when the driver reports an error and the
    statement has no effect. Statements past the end of the schedule succeed, so a
    theorem that quantifies over the schedule covers every pattern of failures. *)
From S2P Require Import Prelude.

Definition faults := list bool.

Definition M (S A : Type) : Type := S → faults → outcome A * S * faults.

Section monad.
Context {S : Type}.

#[export] Instance M_ret : MRet (M S) := λ A a s fs, (Ok a, s, fs).

#[export] Instance M_bind : MBind (M S) := λ A B f m s fs,
  match m s fs with
  | (Ok a, s', fs') => f a s' fs'
  | (Err e, s', fs') => (Err e, s', fs')
  end.

#[export] Instance M_fmap : FMap (M S) := λ A B f m s fs,
  match m s fs with
  | (Ok a, s', fs') => (Ok (f a), s', fs')
  | (Err e, s', fs') => (Err e, s', fs')
  end.

(** Return an error. *)
Definition throw {A} (e : string) : M S A := λ s fs, (Err e, s, fs).

(** [x, err := m]: the error becomes a value and the caller goes on. *)
Definition attempt {A} (m : M S A) : M S (outcome A) := λ s fs,
  match m s fs with (o, s', fs') => (Ok o, s', fs') end.

(** [if err != nil { return fmt.Errorf("msg: %w", err) }] *)
Definition wrap {A} (msg : string) (m : M S A) : M S A := λ s fs,
  match m s fs with (o, s', fs') => (wrap_err msg o, s', fs') end.

Definition of_outcome {A} (o : outcome A) : M S A := λ s fs, (o, s, fs).

Definition get : M S S := λ s fs, (Ok s, s, fs).
Definition modify (f : S → S) : M S unit := λ s fs, (Ok tt, f s, fs).
Definition gets {A} (f : S → A) : M S A := λ s fs, (Ok (f s), s, fs).

(** One database statement. A fault fails it and leaves the state alone; so does
    an error of the statement itself (a constraint, say). *)
Definition stmt {A} (f : S → outcome (A * S)) : M S A := λ s fs,
  match fs with
  | true :: fs' => (Err "database error", s, fs')
  | _ => match f s with
         | Ok (a, s') => (Ok a, s', tl fs)
         | Err e => (Err e, s, tl fs)
         end
  end.

(** A statement that only reads. *)
Definition query {A} (f : S → A) : M S A := stmt (λ s, Ok (f s, s)).

(** A statement that cannot violate a constraint. *)
Definition exec (f : S → S) : M S unit := stmt (λ s, Ok (tt, f s)).

(** [tx, err := db.BeginTx(...); defer tx.Rollback(); ...; tx.Commit()]: any error,
    the commit's included, puts the state back. *)
Definition transaction {A} (m : M S A) : M S A := λ s fs,
  match fs with
  | true :: fs' => (Err "begin failed", s, fs')
  | _ =>
      match m s (tl fs) with
      | (Ok a, s', fs') =>
          match fs' with
          | true :: fs'' => (Err "commit failed", s, fs'')
          | _ => (Ok a, s', tl fs')
          end
      | (Err e, _, fs') => (Err e, s, fs')
      end
  end.

(** [for _, x := range xs { if err := f(x); err != nil { return err } }] *)
Fixpoint for_each {A} (f : A → M S unit) (xs : list A) : M S unit :=
  match xs with
  | [] => mret tt
  | x :: xs' => f x ;; for_each f xs'
  end.

(** Run with no fault. *)
Definition run {A} (m : M S A) (s : S) : outcome A * S := (m s []).1.
End monad.

Arguments M_ret {S} A a /.

(** Running a computation on a part of the state. *)
Definition zoom {W S A} (pick : W → S) (put : S → W → W) (m : M S A) : M W A :=
  λ w fs, match m (pick w) fs with (o, s', fs') => (o, put s' w, fs') end.

(** ** Laws *)

Section laws.
Context {S : Type}.
Implicit Types (s : S) (fs : faults).

Lemma bind_ok {A B} (m : M S A) (f : A → M S B) s fs a s' fs' :
  m s fs = (Ok a, s', fs') → (m ≫= f) s fs = f a s' fs'.
Proof. intros H. unfold mbind, M_bind. by rewrite H. Qed.

Lemma bind_err {A B} (m : M S A) (f : A → M S B) s fs e s' fs' :
  m s fs = (Err e, s', fs') → (m ≫= f) s fs = (Err e, s', fs').
Proof. intros H. unfold mbind, M_bind. by rewrite H. Qed.

(** A successful sequence of two computations splits in the middle. *)
Lemma bind_ok_inv {A B} (m : M S A) (f : A → M S B) s fs b s' fs' :
  (m ≫= f) s fs = (Ok b, s', fs') →
  ∃ a s1 fs1, m s fs = (Ok a, s1, fs1) ∧ f a s1 fs1 = (Ok b, s', fs').
Proof.
  unfold mbind, M_bind. destruct (m s fs) as [[[a|e] s1] fs1]; [|done].
  intros H. by exists a, s1, fs1.
Qed.

Lemma stmt_ok_inv {A} (f : S → outcome (A * S)) s fs a s' fs' :
  stmt f s fs = (Ok a, s', fs') → f s = Ok (a, s').
Proof.
  unfold stmt. destruct fs as [|[] fs]; simpl; try done;
    destruct (f s) as [[? ?]|]; intros; by simplify_eq.
Qed.

Lemma stmt_err_inv {A} (f : S → outcome (A * S)) s fs e s' fs' :
  stmt f s fs = (Err e, s', fs') → s' = s.
Proof.
  unfold stmt. destruct fs as [|[] fs]; simpl; try (intros; by simplify_eq);
    destruct (f s) as [[? ?]|]; intros; by simplify_eq.
Qed.

Lemma query_state {A} (f : S → A) s fs o s' fs' :
  query f s fs = (o, s', fs') → s' = s ∧ ∀ a, o = Ok a → a = f s.
Proof.
  unfold query. destruct o.
  - intros H%stmt_ok_inv. naive_solver.
  - intros H%stmt_err_inv. naive_solver.
Qed.

Lemma exec_ok_inv (f : S → S) s fs s' fs' :
  exec f s fs = (Ok tt, s', fs') → s' = f s.
Proof. unfold exec. intros H%stmt_ok_inv. by simplify_eq. Qed.

(** All or nothing: a transaction that fails leaves the state as it was. *)
Lemma transaction_err {A} (m : M S A) s fs e s' fs' :
  transaction m s fs = (Err e, s', fs') → s' = s.
Proof. unfold transaction. intros. repeat case_match; by simplify_eq. Qed.

(** A transaction that succeeds has run its body to the end. *)
Lemma transaction_ok {A} (m : M S A) s fs a s' fs' :
  transaction m s fs = (Ok a, s', fs') → ∃ fs1, m s (tl fs) = (Ok a, s', fs1).
Proof. unfold transaction. intros. repeat case_match; simplify_eq; eauto. Qed.

(** A property of the state that every statement keeps is kept by any
    computation. [Preserves I m] is closed under the monad's operations. *)
Definition Preserves {A} (I : S → Prop) (m : M S A) : Prop :=
  ∀ s fs o s' fs', I s → m s fs = (o, s', fs') → I s'.

Context (I : S → Prop).

Lemma preserves_ret {A} (a : A) : Preserves I (mret a).
Proof. intros ? ? ? ? ? ? H. by inv H. Qed.

Lemma preserves_throw {A} e : Preserves I (throw (A:=A) e).
Proof. intros ? ? ? ? ? ? H. by inv H. Qed.

Lemma preserves_of_outcome {A} (o : outcome A) : Preserves I (of_outcome o).
Proof. intros ? ? ? ? ? ? H. by inv H. Qed.

Lemma preserves_bind {A B} (m : M S A) (f : A → M S B) :
  Preserves I m → (∀ a, Preserves I (f a)) → Preserves I (m ≫= f).
Proof.
  intros Hm Hf s fs o s' fs' HI. unfold mbind, M_bind.
  destruct (m s fs) as [[[a|e] s1] fs1] eqn:E; intros H.
  - eapply Hf; [|done]. by eapply Hm.
  - inv H. by eapply Hm.
Qed.

Lemma preserves_wrap {A} msg (m : M S A) : Preserves I m → Preserves I (wrap msg m).
Proof.
  intros Hm s fs o s' fs' HI. unfold wrap. destruct (m s fs) as [[? ?] ?] eqn:E.
  intros H. inv H. by eapply Hm.
Qed.

Lemma preserves_attempt {A} (m : M S A) : Preserves I m → Preserves I (attempt m).
Proof.
  intros Hm s fs o s' fs' HI. unfold attempt. destruct (m s fs) as [[? ?] ?] eqn:E.
  intros H. inv H. by eapply Hm.
Qed.

Lemma preserves_stmt {A} (f : S → outcome (A * S)) :
  (∀ s a s', I s → f s = Ok (a, s') → I s') → Preserves I (stmt f).
Proof.
  intros Hf s fs [a|e] s' fs' HI H.
  - apply stmt_ok_inv in H. eauto.
  - apply stmt_err_inv in H. by subst.
Qed.

Lemma preserves_query {A} (f : S → A) : Preserves I (query f).
Proof. apply preserves_stmt. naive_solver. Qed.

Lemma preserves_gets {A} (f : S → A) : Preserves I (gets f).
Proof. intros ? ? ? ? ? ? H. by inv H. Qed.

Lemma preserves_exec (f : S → S) : (∀ s, I s → I (f s)) → Preserves I (exec f).
Proof. intros Hf. apply preserves_stmt. naive_solver. Qed.

Lemma preserves_transaction {A} (m : M S A) : Preserves I m → Preserves I (transaction m).
Proof.
  intros Hm s fs [a|e] s' fs' HI H.
  - apply transaction_ok in H as [fs1 H]. by eapply Hm.
  - apply transaction_err in H. by subst.
Qed.

Lemma preserves_for_each {A} (f : A → M S unit) xs :
  (∀ x, Preserves I (f x)) → Preserves I (for_each f xs).
Proof.
  intros Hf. induction xs; simpl; [apply preserves_ret|].
  apply preserves_bind; auto.
Qed.
End laws.

(** ** Readers

    [ReadsAs m s out]: from [s], [m] leaves the state alone, returns [out] when no
    statement faults, and under faults returns nothing but [out] or an error. *)
Definition ReadsAs {S A} (m : M S A) (s : S) (out : outcome A) : Prop :=
  ∀ fs, ∃ o fs', m s fs = (o, s, fs') ∧ (∀ a, o = Ok a → out = Ok a) ∧ (fs = [] → o = out ∧ fs' = []).

Section readers.
Context {S : Type}.
Implicit Types s : S.

Lemma reads_of_outcome {A} (o : outcome A) s : ReadsAs (of_outcome o) s o.
Proof. intros fs. exists o, fs. naive_solver. Qed.

Lemma reads_ret {A} (a : A) s : ReadsAs (mret a) s (Ok a).
Proof. intros fs. exists (Ok a), fs. naive_solver. Qed.

Lemma reads_query {A} (f : S → A) s : ReadsAs (query f) s (Ok (f s)).
Proof.
  intros [|[] fs]; [exists (Ok (f s)), []|exists (Err "database error"), fs|exists (Ok (f s)), fs]; naive_solver.
Qed.

Lemma reads_stmt_ok {A} (f : S → outcome (A * S)) s a : f s = Ok (a, s) → ReadsAs (stmt f) s (Ok a).
Proof.
  intros Hf. unfold stmt. intros [|[] fs]; [exists (Ok a), []|exists (Err "database error"), fs|exists (Ok a), fs];
    rewrite ?Hf; naive_solver.
Qed.

Lemma reads_wrap {A} msg (m : M S A) s a : ReadsAs m s (Ok a) → ReadsAs (wrap msg m) s (Ok a).
Proof.
  intros Hm fs. destruct (Hm fs) as (o & fs' & Hrun & Hok & Hnil). unfold wrap. rewrite Hrun.
  exists (wrap_err msg o), fs'. split_and!; [done| |].
  - intros b. destruct o; [|done]. intros [= ->]. eauto.
  - intros Hfs. destruct (Hnil Hfs) as [-> ->]. done.
Qed.

Lemma reads_bind {A B} (m : M S A) (f : A → M S B) s o1 out :
  ReadsAs m s o1 → (∀ a, o1 = Ok a → ReadsAs (f a) s out) → (∀ e, o1 = Err e → out = Err e) →
  ReadsAs (m ≫= f) s out.
Proof.
  intros Hm Hf He fs. destruct (Hm fs) as (o & fs1 & Hrun & Hok & Hnil). unfold mbind, M_bind. rewrite Hrun.
  destruct o as [a|e].
  - specialize (Hok a eq_refl). destruct (Hf a Hok fs1) as (o2 & fs2 & Hrun2 & Hok2 & Hnil2).
    exists o2, fs2. split_and!; [done..|]. intros Hfs. destruct (Hnil Hfs). eauto.
  - exists (Err e), fs1. split_and!; [done..|]. intros Hfs. destruct (Hnil Hfs) as [Hout ->].
    split; [|done]. symmetry. eauto.
Qed.

Lemma reads_fmap {A B} (f : A → B) (m : M S A) s a : ReadsAs m s (Ok a) → ReadsAs (f <$> m) s (Ok (f a)).
Proof.
  intros Hm fs. destruct (Hm fs) as (o & fs' & Hrun & Hok & Hnil). unfold fmap, M_fmap. rewrite Hrun.
  destruct o as [b|e].
  - exists (Ok (f b)), fs'. specialize (Hok b eq_refl) as [= ->]. naive_solver.
  - exists (Err e), fs'. naive_solver.
Qed.

Lemma reads_run {A} (m : M S A) s out : ReadsAs m s out → run m s = (out, s).
Proof. intros Hm. destruct (Hm []) as (o & fs' & Hrun & _ & Hnil). unfold run. rewrite Hrun. by destruct (Hnil eq_refl) as [-> _]. Qed.
End readers.

Create HintDb preserves.
#[export] Hint Resolve preserves_ret preserves_throw preserves_of_outcome preserves_query
  preserves_gets preserves_wrap preserves_attempt preserves_transaction
  preserves_for_each : preserves.
#[export] Hint Extern 2 (Preserves _ (_ ≫= _)) => apply preserves_bind; intros : preserves.
#[export] Hint Extern 1 (Preserves _ (match ?x with _ => _ end)) => destruct x : preserves.

(** Step through a successful run: split binds and invert the statements. *)
Ltac run_inv :=
  repeat match goal with
  | H : (_ ≫= _) _ _ = (Ok _, _, _) |- _ =>
      let a := fresh "a" in let s := fresh "s" in let fs := fresh "fs" in let H' := fresh "H" in
      apply bind_ok_inv in H; destruct H as (a & s & fs & H' & H)
  | H : query _ _ _ = (Ok _, _, _) |- _ =>
      let Hs := fresh in let Ho := fresh in
      apply query_state in H; destruct H as [Hs Ho]; specialize (Ho _ eq_refl); subst
  | H : exec _ _ _ = (Ok _, _, _) |- _ => apply exec_ok_inv in H; subst
  | H : mret _ _ _ = _ |- _ => inv H
  | H : throw _ _ _ = _ |- _ => inv H
  end.
