(* ===== verification/Processes.v ===== *)
(** * Goroutines

    A computation whose atomic steps are visible, so that several of them and their
    environment may take turns on one shared state; and a rely-guarantee rule to reason about one
    of them at a time. *)
From S2P Require Import Prelude Effects.

(** An atomic step is a computation of the state monad: it sees the state and the faults of its
    own statements. *)
Inductive proc (W A : Type) : Type :=
  | Ret (a : A)
  | Act (m : W → faults → proc W A * W * faults).
Arguments Ret {W A} a.
Arguments Act {W A} m.

Section proc.
Context {W : Type}.

Definition proc_induction {A} (P : proc W A → Prop) (HR : ∀ a, P (Ret a))
    (HA : ∀ m, (∀ w fs, P (m w fs).1.1) → P (Act m)) : ∀ p, P p :=
  fix go p := match p with Ret a => HR a | Act m => HA m (λ w fs, go (m w fs).1.1) end.

Fixpoint proc_bind {A B} (f : A → proc W B) (p : proc W A) : proc W B :=
  match p with
  | Ret a => f a
  | Act m => Act (λ w fs, let '(p', w', fs') := m w fs in (proc_bind f p', w', fs'))
  end.

#[export] Instance proc_ret : MRet (proc W) := λ A a, Ret a.
#[export] Instance proc_mbind : MBind (proc W) := λ A B f p, proc_bind f p.

(** One atomic step; its error is a value. *)
Definition atomically {A} (m : M W A) : proc W (outcome A) := Act (λ w fs, let '(o, w', fs') := m w fs in (Ret o, w', fs')).

Definition reads {A} (f : W → A) : proc W A := Act (λ w fs, (Ret (f w), w, fs)).
Definition updates (f : W → W) : proc W unit := Act (λ w fs, (Ret tt, f w, fs)).

(** [for _, x := range xs { ... }] over an accumulator. *)
Fixpoint fold_proc {A B} (f : B → A → proc W B) (acc : B) (xs : list A) : proc W B :=
  match xs with
  | [] => mret acc
  | x :: xs => acc' ← f acc x; fold_proc f acc' xs
  end.

(** Alone and without faults. *)
Fixpoint run_proc {A} (p : proc W A) (w : W) : A * W :=
  match p with
  | Ret a => (a, w)
  | Act m => match m w [] with (p', w', _) => run_proc p' w' end
  end.

(** Some goroutines, from start to join: any of them takes its next step, under any faults,
    or the environment does something. *)
Inductive par {A} (env : W → W → Prop) : list (proc W A) → W → list A → W → Prop :=
  | par_done rs w : par env (Ret <$> rs) w rs w
  | par_step ps i m w fs p' w1 fs' rs w' :
      ps !! i = Some (Act m) → m w fs = (p', w1, fs') → par env (<[i := p']> ps) w1 rs w' → par env ps w rs w'
  | par_env ps w w1 rs w' : env w w1 → par env ps w1 rs w' → par env ps w rs w'.

(** ** Rely and guarantee

    [safe R G Φ p w]: from [w], with others changing the state as [R] allows, each step of [p] changes it as [G]
    says, and it ends with a result and a state that satisfy [Φ]. *)
Section safe.
Context {A : Type} (R G : W → W → Prop) (Φ : A → W → Prop).

Fixpoint safe (p : proc W A) (w : W) : Prop :=
  match p with
  | Ret a => ∀ w', R w w' → Φ a w'
  | Act m => ∀ w' fs, R w w' → G w' (m w' fs).1.2 ∧ safe (m w' fs).1.1 (m w' fs).1.2
  end.
End safe.

Section rules.
Context (R G : W → W → Prop) `{!PreOrder R}.

Lemma safe_stable {A} (Φ : A → W → Prop) p w w' : R w w' → safe R G Φ p w → safe R G Φ p w'.
Proof. intros Hw. destruct p as [a|m]; cbn; intros Hs; [intros w1 ?|intros w1 fs ?]; apply Hs; by etrans. Qed.

Lemma safe_ret {A} (Φ : A → W → Prop) a w : (∀ w', R w w' → Φ a w') → safe R G Φ (mret a) w.
Proof. done. Qed.

Lemma safe_bind {A B} (Φ : A → W → Prop) (Ψ : B → W → Prop) p (f : A → proc W B) w :
  safe R G Φ p w → (∀ a w', Φ a w' → safe R G Ψ (f a) w') → safe R G Ψ (p ≫= f) w.
Proof.
  intros Hp Hf. revert w Hp. change (p ≫= f) with (proc_bind f p).
  induction p as [a|m IH] using proc_induction; cbn; intros w Hp.
  - apply Hf, Hp. reflexivity.
  - intros w' fs Hw. destruct (Hp w' fs Hw) as [HG Hs]. specialize (IH w' fs).
    destruct (m w' fs) as [[p' w1] fs']. cbn in *. auto.
Qed.

Lemma safe_mono {A} (Φ Ψ : A → W → Prop) p w : (∀ a w', Φ a w' → Ψ a w') → safe R G Φ p w → safe R G Ψ p w.
Proof.
  intros Himp. revert w. induction p as [a|m IH] using proc_induction; cbn; intros w Hs; [eauto|].
  intros w' fs Hw. destruct (Hs w' fs Hw). auto.
Qed.

Lemma safe_atomically {A} (Φ : outcome A → W → Prop) (m : M W A) w :
  (∀ w0 fs o w1 fs', R w w0 → m w0 fs = (o, w1, fs') → G w0 w1 ∧ ∀ w2, R w1 w2 → Φ o w2) → safe R G Φ (atomically m) w.
Proof. intros H w0 fs Hw. destruct (m w0 fs) as [[o w1] fs'] eqn:E. cbn. by eapply H. Qed.

Lemma safe_reads {A} (Φ : A → W → Prop) (f : W → A) w :
  (∀ w0, R w w0 → G w0 w0 ∧ ∀ w2, R w0 w2 → Φ (f w0) w2) → safe R G Φ (reads f) w.
Proof. intros H w0 fs Hw. cbn. auto. Qed.

Lemma safe_updates (Φ : unit → W → Prop) f w :
  (∀ w0, R w w0 → G w0 (f w0) ∧ ∀ w2, R (f w0) w2 → Φ tt w2) → safe R G Φ (updates f) w.
Proof. intros H w0 fs Hw. cbn. auto. Qed.

(** What both sides keep is kept. *)
Lemma safe_keep {A} (P : W → Prop) (Φ : A → W → Prop) p w :
  (∀ w w', R w w' → P w → P w') → (∀ w w', G w w' → P w → P w') → P w → safe R G Φ p w → safe R G (λ a w', Φ a w' ∧ P w') p w.
Proof.
  intros HR HG. revert w. induction p as [a|m IH] using proc_induction; cbn; intros w HP Hs; [eauto|].
  intros w' fs Hw. destruct (Hs w' fs Hw). split; [done|]. apply IH; [|done]. eapply HG; [done|]. by eapply HR.
Qed.

(** A loop, by an invariant on what is done. *)
Lemma safe_fold {A B} (Ψ : list A → B → W → Prop) (f : B → A → proc W B) xs :
  (∀ done x acc w, Ψ done acc w → x ∈ xs → safe R G (Ψ (done ++ [x])) (f acc x) w) →
  (∀ done acc w w', R w w' → Ψ done acc w → Ψ done acc w') →
  ∀ acc w, Ψ [] acc w → safe R G (Ψ xs) (fold_proc f acc xs) w.
Proof.
  intros Hstep Hst. assert (Hgo : ∀ done todo acc w, done ++ todo = xs → Ψ done acc w → safe R G (Ψ xs) (fold_proc f acc todo) w).
  { intros done todo. revert done. induction todo as [|x todo IH]; intros done acc w Hxs Hacc; cbn.
    - rewrite app_nil_r in Hxs. subst. intros w' Hw. exact (Hst _ _ _ _ Hw Hacc).
    - apply (safe_bind (Ψ (done ++ [x]))); [apply Hstep; [done|rewrite <- Hxs; set_solver]|].
      intros acc' w' Hacc'. apply (IH (done ++ [x])); [by rewrite <- app_assoc|done]. }
  intros acc w. by apply (Hgo []).
Qed.
End rules.

(** Goroutines working on different jobs, whose guarantees are what the others rely on, run together as they would
    alone; [T] is any relation all their steps respect. *)
Section parallel.
Context {B A : Type} (jobs : list B) (env T : W → W → Prop) `{!PreOrder T}.
Context (R G : B → W → W → Prop) `{!∀ b, PreOrder (R b)} (Φ : B → A → W → Prop).
Context (Hinterfere : ∀ i j b c w w', i ≠ j → jobs !! i = Some b → jobs !! j = Some c → G c w w' → R b w w').
Context (Henv : ∀ b w w', b ∈ jobs → env w w' → R b w w').
Context (HGT : ∀ b w w', b ∈ jobs → G b w w' → T w w') (HenvT : ∀ w w', env w w' → T w w').

Lemma par_safe ps w rs w' :
  par env ps w rs w' → (∀ i p, ps !! i = Some p → ∃ b, jobs !! i = Some b ∧ safe (R b) (G b) (Φ b) p w) →
  (∀ i r, rs !! i = Some r → ∃ b, jobs !! i = Some b ∧ Φ b r w') ∧ length rs = length ps ∧ T w w'.
Proof.
  intros Hpar. induction Hpar as [rs w|ps i m w fs p' w1 fs' rs w' Hi Hm Hpar IH|ps w w1 rs w' He Hpar IH]; intros Hs.
  - split; [|by rewrite length_fmap]. intros i r Hr. destruct (Hs i (Ret r)) as (b & Hb & Hsafe); [by rewrite list_lookup_fmap, Hr|].
    exists b. split; [done|]. by apply Hsafe.
  - destruct (Hs i _ Hi) as (b & Hb & Hsafe). destruct (Hsafe w fs) as [HG Hnext]; [reflexivity|]. rewrite Hm in HG, Hnext. cbn in HG, Hnext.
    destruct IH as (HΦ & Hlen & HT).
    2: { split_and!; [done|by rewrite length_insert in Hlen|]. etrans; [|exact HT]. eapply HGT; [by eapply list_elem_of_lookup_2|done]. }
    intros j p Hj. destruct (decide (i = j)) as [<-|Hne].
    + rewrite list_lookup_insert_eq in Hj by (by eapply lookup_lt_Some). injection Hj as <-. by exists b.
    + rewrite list_lookup_insert_ne in Hj by done. destruct (Hs j p Hj) as (c & Hc & Hsafe'). exists c. split; [done|].
      eapply (safe_stable _ _ _ _ w); [|done]. by eapply (Hinterfere j i).
  - destruct IH as (HΦ & Hlen & HT).
    2: { split_and!; [done|done|]. etrans; [by apply HenvT|done]. }
    intros j p Hj. destruct (Hs j p Hj) as (c & Hc & Hsafe'). exists c. split; [done|].
    eapply (safe_stable _ _ _ _ w); [|done]. apply Henv; [by eapply list_elem_of_lookup_2|done].
Qed.
End parallel.

(** One goroutine alone with the environment. *)
Lemma run_safe {A} (env R G : W → W → Prop) `{!PreOrder R} (Φ : A → W → Prop) p w a w' :
  (∀ w w', env w w' → R w w') → par env [p] w [a] w' → safe R G Φ p w → Φ a w'.
Proof.
  intros Henv Hpar Hs. assert (Htop : PreOrder (λ _ _ : W, True)) by by split.
  destruct (par_safe [tt] env (λ _ _, True) (λ _, R) (λ _, G) (λ _, Φ)) with [p] w [a] w' as (HΦ & _).
  - by intros [|i] [|j] ? ? ? ? ? ?.
  - auto.
  - done.
  - done.
  - done.
  - intros [|i] q Hq; [|done]. injection Hq as <-. by exists tt.
  - by destruct (HΦ 0 a eq_refl) as (b & _ & ?).
Qed.

(** Goroutines can always run to the end. *)
Lemma par_ends {A} env (ps : list (proc W A)) w : ∃ rs w', par env ps w rs w'.
Proof.
  assert (Hgo : ∀ (rs : list A) (todo : list (proc W A)) w, ∃ rs' w', par env ((Ret <$> rs) ++ todo) w rs' w').
  { intros rs todo. revert rs. induction todo as [|p todo IH]; intros rs w0.
    { rewrite app_nil_r. eexists _, _. constructor. }
    revert w0. induction p as [a|m IHp] using proc_induction; intros w0.
    - destruct (IH (rs ++ [a]) w0) as (rs' & w' & Hp). rewrite fmap_app, <- app_assoc in Hp. by exists rs', w'.
    - destruct (m w0 []) as [[p' w1] fs'] eqn:E. destruct (IHp w0 [] w1) as (rs' & w' & Hp). rewrite E in Hp.
      exists rs', w'. eapply (par_step _ _ (length rs) m w0 []); [by rewrite lookup_app_r, length_fmap, Nat.sub_diag by (by rewrite length_fmap)|exact E|].
      by rewrite insert_app_r_alt, length_fmap, Nat.sub_diag by (by rewrite length_fmap). }
  exact (Hgo [] ps w).
Qed.

Lemma par_length {A} env (ps : list (proc W A)) w rs w' : par env ps w rs w' → length rs = length ps.
Proof. induction 1 as [rs w|ps i m w fs p' w1 fs' rs w' Hi Hm Hpar IH|]; [by rewrite length_fmap|by rewrite length_insert in IH|done]. Qed.

(** One after another is one of the ways to run. *)
Fixpoint run_all {A} (ps : list (proc W A)) (w : W) : list A * W :=
  match ps with
  | [] => ([], w)
  | p :: ps => let '(a, w1) := run_proc p w in let '(rs, w2) := run_all ps w1 in (a :: rs, w2)
  end.

Lemma run_all_par {A} env (ps : list (proc W A)) w : par env ps w (run_all ps w).1 (run_all ps w).2.
Proof.
  assert (Hgo : ∀ (rs : list A) (todo : list (proc W A)) w, par env ((Ret <$> rs) ++ todo) w (rs ++ (run_all todo w).1) (run_all todo w).2).
  { intros rs todo. revert rs. induction todo as [|p todo IH]; intros rs w0; cbn [run_all].
    { cbn. rewrite !app_nil_r. constructor. }
    revert w0. induction p as [a|m IHp] using proc_induction; intros w0; cbn [run_proc].
    - specialize (IH (rs ++ [a]) w0). rewrite fmap_app, <- !app_assoc in IH. by destruct (run_all todo w0).
    - destruct (m w0 []) as [[p' w1] fs'] eqn:E. specialize (IHp w0 [] w1). rewrite E in IHp. cbn in IHp.
      eapply (par_step _ _ (length rs) m w0 []); [by rewrite lookup_app_r, length_fmap, Nat.sub_diag by (by rewrite length_fmap)|exact E|].
      by rewrite insert_app_r_alt, length_fmap, Nat.sub_diag by (by rewrite length_fmap). }
  exact (Hgo [] ps w).
Qed.
End proc.
