(* ===== verification/Database.v ===== *)
(** * The database

    The tables the ingestion path writes ([record], [record_version], [actor],
    [indexing_activity], [external_label], [label_subscription_state]) as one state, the SQL
    dialects, the order of text columns and the values bound to statements
    (src/internal/database/executor.go, src/internal/database/migrations/). *)
From S2P Require Import Prelude GoStrings Json GoTime AtprotoTime Effects.

(** ** Dialects and environment *)

(** executor.go [Dialect] *)
Inductive Dialect := SQLite | PostgreSQL.
#[export] Instance Dialect_eq_dec : EqDecision Dialect.
Proof. solve_decision. Defined.

(** The order of text columns: SQLite compares bytes, PostgreSQL uses the
    database's collation. All the code needs is a total order. *)
Class TextOrder := {
  text_le : relation string;
  #[global] text_le_dec :: RelDecision text_le;
  #[global] text_le_po :: PartialOrder text_le;
  #[global] text_le_total :: Total text_le;
  text_le_empty s : text_le "" s;
}.

Definition text_lt `{TextOrder} (s t : string) : Prop := text_le s t ∧ s ≠ t.
#[export] Instance text_lt_dec `{TextOrder} : RelDecision text_lt.
Proof. unfold text_lt. intros s t. apply _. Defined.

(** The byte order ([BINARY] collation). *)
#[export, refine] Instance byte_order : TextOrder | 10 := { text_le := String.le }.
Proof. all: try apply _. by intros []. Defined.

(** What the repositories use of code outside the repository: the dialect they run
    on, PostgreSQL's canonical text of a [jsonb] value ([None] for text that is not
    JSON), the hash behind version keys, and Indigo's datetime parser. *)
Class Env := {
  dialect : Dialect;
  jsonb : string → option string;
  sha256_hex : string → string;
  #[global] datetime_parser :: DatetimeParser;
}.

(** ** Values *)

(** executor.go [Value]. A float is kept as its decimal text: no modelled code
    computes with one. *)
Inductive Value :=
  | TextValue (s : string)
  | IntValue (z : Z)
  | FloatValue (decimal : string)
  | BoolValue (b : bool)
  | NullValue
  | BlobValue (bytes : string)
  | TimestamptzValue (s : string).
#[export] Instance Value_eq_dec : EqDecision Value.
Proof. solve_decision. Defined.

(** executor.go [NullableText], [NullableInt]; records.go [nullableTextValue]. *)
Definition NullableText (s : option string) : Value :=
  match s with None => NullValue | Some s => TextValue s end.
Definition NullableInt (i : option Z) : Value :=
  match i with None => NullValue | Some i => IntValue i end.
Definition nullableTextValue (value : string) : Value :=
  if (value =? "")%string then NullValue else TextValue value.

(** The column a bound value stores, for a text or timestamp column. *)
Definition column_text (v : Value) : option string :=
  match v with TextValue s | TimestamptzValue s => Some s | _ => None end.
Definition column_int (v : Value) : option Z :=
  match v with IntValue z => Some z | BoolValue b => Some (if b then 1 else 0)%Z | _ => None end.

(** [sql.NullString.String]: NULL scans as the empty string. *)
Definition null_string (c : option string) : string := default "" c.

(** SQL's [COALESCE(a, b)] *)
Definition coalesce {A} (a b : option A) : option A :=
  match a with Some x => Some x | None => b end.

(** SQL's [instr(s, c)]: 1-based position of the first [c], 0 if absent. *)
Fixpoint sql_instr_go (c : Ascii.ascii) (s : string) (pos : nat) : nat :=
  match s with
  | EmptyString => 0
  | String d s' => if Ascii.eqb d c then pos else sql_instr_go c s' (S pos)
  end.
Definition sql_instr (s : string) (c : Ascii.ascii) : nat := sql_instr_go c s 1.

(** SQL's [substr(s, n)] for a 1-based [n ≥ 1]. *)
Definition sql_substr (s : string) (n : nat) : string := sdrop (n - 1) s.

(** ** Tables *)

(** The [record] table, keyed by [uri]. *)
Record row := mkRow {
  row_cid : string;
  row_did : string;
  row_collection : string;
  row_json : string;
  row_indexed_at : Z;
  row_record_created_at : option string;
  row_validation_status : string;
  row_validation_error : option string;
  row_validated_at : option Z;
  row_lexicon_hash : option string;
}.
#[export] Instance row_eq_dec : EqDecision row.
Proof. solve_decision. Defined.

(** A row of [record_version]. *)
Record version_row := mkVersion {
  ver_id : Z;
  ver_uri : string;
  ver_cid : string;
  ver_key : string;
  ver_did : string;
  ver_collection : string;
  ver_action : string;
  ver_json : option string;
  ver_live : option bool;
  ver_observed_at : Z;
}.
#[export] Instance version_row_eq_dec : EqDecision version_row.
Proof. solve_decision. Defined.

(** A row of [actor], keyed by [did]. *)
Record actor_row := mkActor { actor_handle : option string; actor_indexed_at : Z }.
#[export] Instance actor_row_eq_dec : EqDecision actor_row.
Proof. solve_decision. Defined.

(** A row of [indexing_activity], keyed by [id]. *)
Record activity_row := mkActivity {
  act_timestamp : Z;
  act_operation : string;
  act_collection : string;
  act_did : string;
  act_rkey : string;
  act_status : string;
  act_error : option string;
  act_event_json : string;
}.
#[export] Instance activity_row_eq_dec : EqDecision activity_row.
Proof. solve_decision. Defined.

(** A row of [external_label]. *)
Record label_row := mkLabel {
  lb_id : Z;
  lb_subscription_url : string;
  lb_seq : Z;
  lb_label_index : Z;
  lb_src : string;
  lb_uri : string;
  lb_cid : option string;
  lb_val : string;
  lb_neg : bool;
  lb_cts : string;
  lb_exp : option string;
  lb_sig : option string;
  lb_ver : option Z;
  lb_raw_json : option string;
  lb_received_at : Z;
}.
#[export] Instance label_row_eq_dec : EqDecision label_row.
Proof. solve_decision. Defined.

(** A row of [label_subscription_state], keyed by [url]. *)
Record label_state := mkLabelState {
  ls_labeler_did : option string;
  ls_last_seq : Z;
  ls_last_connected_at : option Z;
  ls_last_event_at : option Z;
  ls_last_error : option string;
  ls_created_at : Z;
  ls_updated_at : Z;
}.
#[export] Instance label_state_eq_dec : EqDecision label_state.
Proof. solve_decision. Defined.

(** The database. [db_versions] is in id order: ids come from the AUTOINCREMENT
    counter [db_next_version] and rows are only appended or removed; [db_labels]
    likewise. [db_clock] is
    what [datetime('now')] and [time.Now()] read. *)
Record db := mkDb {
  db_records : gmap string row;
  db_versions : list version_row;
  db_next_version : Z;
  db_actors : gmap string actor_row;
  db_activity : gmap Z activity_row;
  db_next_activity : Z;
  db_clock : Z;
  db_labels : list label_row;
  db_next_label : Z;
  db_label_states : gmap string label_state;
}.
#[export] Instance db_eq_dec : EqDecision db.
Proof. solve_decision. Defined.

Definition empty_db (clock : Z) : db := mkDb ∅ [] 1 ∅ ∅ 1 clock [] 1 ∅.

Definition set_records (f : gmap string row → gmap string row) (d : db) : db :=
  mkDb (f (db_records d)) (db_versions d) (db_next_version d) (db_actors d)
    (db_activity d) (db_next_activity d) (db_clock d) (db_labels d) (db_next_label d) (db_label_states d).
Definition set_versions (f : list version_row → list version_row) (d : db) : db :=
  mkDb (db_records d) (f (db_versions d)) (db_next_version d) (db_actors d)
    (db_activity d) (db_next_activity d) (db_clock d) (db_labels d) (db_next_label d) (db_label_states d).
Definition set_actors (f : gmap string actor_row → gmap string actor_row) (d : db) : db :=
  mkDb (db_records d) (db_versions d) (db_next_version d) (f (db_actors d))
    (db_activity d) (db_next_activity d) (db_clock d) (db_labels d) (db_next_label d) (db_label_states d).
Definition set_activity (f : gmap Z activity_row → gmap Z activity_row) (d : db) : db :=
  mkDb (db_records d) (db_versions d) (db_next_version d) (db_actors d)
    (f (db_activity d)) (db_next_activity d) (db_clock d) (db_labels d) (db_next_label d) (db_label_states d).

Definition set_label_states (f : gmap string label_state → gmap string label_state) (d : db) : db :=
  mkDb (db_records d) (db_versions d) (db_next_version d) (db_actors d) (db_activity d)
    (db_next_activity d) (db_clock d) (db_labels d) (db_next_label d) (f (db_label_states d)).

(** The text stored for a JSON argument: the text itself on SQLite; its canonical
    [jsonb] rendering on PostgreSQL, whose cast refuses anything else. *)
Definition store_json `{Env} (j : string) : outcome string :=
  match dialect with
  | SQLite => Ok j
  | PostgreSQL =>
      match jsonb j with
      | Some c => Ok c
      | None => Err "invalid input syntax for type json"
      end
  end.

(** The generated [rkey] column of migration 002: SQLite takes what follows the
    second slash after the scheme, PostgreSQL the last run without a slash ([NULL],
    read as an error by the scanners, when the URI ends in a slash). *)
Definition rkey_column `{Env} (uri : string) : option string :=
  match dialect with
  | SQLite =>
      let a := sql_instr (sql_substr uri 6) slash in
      Some (sql_substr uri (sql_instr (sql_substr uri (a + 6)) slash + a + 6))
  | PostgreSQL =>
      match rev (split slash uri) with
      | [] | "" :: _ => None
      | last :: _ => Some last
      end
  end.

(** ** Laws *)

Lemma text_lt_irrefl `{TextOrder} s : ¬ text_lt s s.
Proof. intros [? ?]. done. Qed.

Lemma text_lt_trans `{TextOrder} s t u : text_lt s t → text_lt t u → text_lt s u.
Proof.
  intros [H1 Hn1] [H2 Hn2]. split; [by etrans|]. intros ->.
  apply Hn2. by apply (anti_symm text_le).
Qed.

Lemma text_lt_tri `{TextOrder} s t : text_lt s t ∨ s = t ∨ text_lt t s.
Proof.
  destruct (decide (s = t)); [by auto|].
  destruct (total text_le s t); [left|right; right]; split; auto.
Qed.

Lemma text_not_lt `{TextOrder} s t : ¬ text_lt s t ↔ text_le t s.
Proof.
  split.
  - destruct (text_lt_tri s t) as [?|[->|[? ?]]]; [done|reflexivity|done].
  - intros Hle [Hst Hne]. apply Hne. by apply (anti_symm text_le).
Qed.

Lemma coalesce_some {A} (x : A) b : coalesce (Some x) b = Some x.
Proof. done. Qed.

Lemma sql_instr_go_spec c s t pos :
  no_byte c s = true → sql_instr_go c (s +:+ String c t) pos = String.length s + pos.
Proof.
  revert pos. induction s as [|d s IH]; intros pos H.
  - rewrite append_nil_l. cbn. by rewrite Ascii.eqb_refl.
  - cbn in H. apply andb_prop in H as [Hd H]. apply negb_true_iff in Hd.
    rewrite append_cons. cbn. rewrite Hd, IH by done. lia.
Qed.

(** The AT-URI of a record, as every event and the schema spell it. *)
Definition at_uri (did collection rkey : string) : string :=
  "at://" +:+ did +:+ String slash (collection +:+ String slash rkey).

Lemma sdrop_add n m s : sdrop (n + m) s = sdrop m (sdrop n s).
Proof.
  revert s. induction n as [|n IH]; intros s; [done|].
  destruct s as [|c s]; [by destruct m|]. apply IH.
Qed.

Lemma sdrop_append_S p c s : sdrop (String.length p + 1) (p +:+ String c s) = s.
Proof. by rewrite sdrop_add, sdrop_append. Qed.

(** The same database read at another time. *)
Definition at_time (t : Z) (d : db) : db :=
  mkDb (db_records d) (db_versions d) (db_next_version d) (db_actors d)
    (db_activity d) (db_next_activity d) t (db_labels d) (db_next_label d) (db_label_states d).

(** A concrete environment, for evaluating the model: every text is JSON, the hash
    is the identity and a record's creation time is what follows its first byte. *)
Definition example_env (dia : Dialect) : Env := {|
  dialect := dia;
  jsonb := Some;
  sha256_hex s := s;
  datetime_parser := {| ParseDatetimeTime := parse_millis |};
|}.

(** ** Scans in key order

    [ORDER BY key] over a table with a text key. *)
Section by_key.
Context `{TextOrder} {A : Type}.

#[export] Instance text_lt_strict : StrictOrder text_lt.
Proof. split; [intros s; apply text_lt_irrefl|intros s t u; apply text_lt_trans]. Qed.

Definition key_le (x y : string * A) : Prop := text_le x.1 y.1.
#[export] Instance key_le_dec : RelDecision key_le := λ x y, text_le_dec x.1 y.1.

Definition by_key (m : gmap string A) : list (string * A) := merge_sort key_le (map_to_list m).

Lemma elem_of_by_key m k a : (k, a) ∈ by_key m ↔ m !! k = Some a.
Proof. unfold by_key. rewrite merge_sort_Permutation. apply elem_of_map_to_list. Qed.

Lemma by_key_nodup m : NoDup (by_key m).*1.
Proof. unfold by_key. rewrite merge_sort_Permutation. apply NoDup_fst_map_to_list. Qed.

Lemma by_key_increasing m : increasing fst text_lt (by_key m).
Proof.
  assert (Hs : StronglySorted key_le (by_key m)).
  { apply StronglySorted_merge_sort; [intros x y z; unfold key_le; apply transitivity|].
    intros x y. apply (total text_le x.1 y.1). }
  pose proof (by_key_nodup m) as Hnd. revert Hs Hnd. generalize (by_key m) as l.
  induction 1 as [|x l Hs IH Hall]; cbn; [constructor|].
  intros [Hx Hnd]%NoDup_cons. constructor; [by apply IH|].
  rewrite Forall_forall in *. intros y Hy. split; [by apply Hall|].
  intros Heq. apply Hx. rewrite Heq. by apply list_elem_of_fmap_2.
Qed.
End by_key.

(** ** SQL text of the executors

    src/internal/database/sqlite/executor.go and postgres/executor.go: placeholders,
    and JSON field extraction with its guard against injection. A Go panic is an
    [Err]. *)

Section executor.
Context `{Env}.

(** Positional on SQLite, numbered on PostgreSQL. *)
Definition Placeholder (index : nat) : string :=
  match dialect with SQLite => "?" | PostgreSQL => "$" +:+ itoa (Z.of_nat index) end.

Definition Placeholders (count startIndex : nat) : string :=
  join ", " (Placeholder <$> seq startIndex count).

Definition is_letter_or_underscore (c : Ascii.ascii) : bool :=
  let n := byte_val c in
  ((65 <=? n) && (n <=? 90) || (97 <=? n) && (n <=? 122) || (n =? 95))%N.

Fixpoint all_bytes (P : Ascii.ascii → bool) (s : string) : bool :=
  match s with EmptyString => true | String c s' => P c && all_bytes P s' end.

(** [^[a-zA-Z_][a-zA-Z0-9_]*$] *)
Definition validJSONFieldName (field : string) : bool :=
  match field with
  | EmptyString => false
  | String c s => is_letter_or_underscore c && all_bytes (λ d, is_letter_or_underscore d || is_digit d) s
  end.

Definition JSONExtract (column field : string) : outcome string :=
  if negb (validJSONFieldName field) then Err "invalid JSON field name"
  else match dialect with
       | SQLite => Ok ("json_extract(" +:+ column +:+ ", '$." +:+ field +:+ "')")
       | PostgreSQL => Ok (column +:+ "->>'" +:+ field +:+ "'")
       end.

Fixpoint arrow_path (column : string) (path : list string) : string :=
  match path with
  | [] => column
  | [p] => column +:+ "->>'" +:+ p +:+ "'"
  | p :: rest => arrow_path (column +:+ "->'" +:+ p +:+ "'") rest
  end.

Definition JSONExtractPath (column : string) (path : list string) : outcome string :=
  match dialect with
  | SQLite =>
      if negb (forallb validJSONFieldName path) then Err "invalid JSON path segment"
      else Ok ("json_extract(" +:+ column +:+ ", '$." +:+ join "." path +:+ "')")
  | PostgreSQL =>
      if decide (path = []) then Ok column
      else if negb (forallb validJSONFieldName path) then Err "invalid JSON path segment"
      else Ok (arrow_path column path)
  end.

Definition Now : string := match dialect with SQLite => "datetime('now')" | PostgreSQL => "NOW()" end.

End executor.

(** executor.go [ParseDialect] *)
Definition ParseDialect (databaseURL : string) : Dialect :=
  let lower := to_lower databaseURL in
  if has_prefix "postgres://" lower || has_prefix "postgresql://" lower then PostgreSQL else SQLite.
