(* ===== verification/Closure.v ===== *)
(** * Graph closures

    src/internal/graphclosure/closure.go: a breadth-first walk from one account over
    edges that are fetched a level at a time, bounded in depth, in accounts and in the
    predecessors kept per account. The walk is proved against the distance in the graph. *)
From S2P Require Import Prelude GoStrings Effects.

Definition MaxDegree : Z := 3.
Definition DefaultClosureCap : Z := 3000.
Definition MaxVia : Z := 64.

(** [int(^uint(0)>>1) / MaxVia] *)
Definition maxSafeClosureAccounts : Z := (2 ^ 63 - 1) `div` MaxVia.

(** The edges of some accounts, at most a number of them, and whether there were more. *)
Class Adjacency (S : Type) :=
  AdjacentForLimit : list string → Z → M S (gmap string (list string) * bool).

Record Account := mkAccount { ac_DID : string; ac_Degree : nat; ac_Via : list string }.
Record Result := mkResult { re_Accounts : list Account; re_Truncated : bool }.

(** The variables of the walk. *)
Record traversal := mkTraversal {
  tr_seen : gmap string nat;
  tr_predecessors : gmap string (gset string);
  tr_next : list string;
  tr_truncated : bool;
}.

(** [len(seen)-1] *)
Definition accounts_seen (t : traversal) : Z := Z.of_nat (size (tr_seen t)) - 1.

Definition by_degree (x y : Account) : Prop :=
  ac_Degree x < ac_Degree y ∨ (ac_Degree x = ac_Degree y ∧ String.le (ac_DID x) (ac_DID y)).
#[export] Instance by_degree_dec : RelDecision by_degree.
Proof. intros x y. unfold by_degree. apply _. Defined.

Section walk.
Context (rootDID : string) (accountCap : Z).

(** One edge met at a degree. *)
Definition visit (degree : nat) (t : traversal) (edge : string * string) : traversal :=
  let '(issuer, subject) := edge in
  if (subject =? "")%string || (subject =? rootDID)%string then t
  else
    match tr_seen t !! subject with
    | Some existingDegree =>
        if (existingDegree =? degree) && (1 <? degree) then
          let known := default ∅ (tr_predecessors t !! subject) in
          let known := if (Z.of_nat (size known) <? MaxVia)%Z then {[ issuer ]} ∪ known else known in
          mkTraversal (tr_seen t) (<[ subject := known ]> (tr_predecessors t)) (tr_next t) (tr_truncated t)
        else t
    | None =>
        if (accountCap <=? accounts_seen t)%Z then
          mkTraversal (tr_seen t) (tr_predecessors t) (tr_next t) true
        else
          mkTraversal (<[ subject := degree ]> (tr_seen t))
            (if 1 <? degree then <[ subject := {[ issuer ]} ]> (tr_predecessors t) else tr_predecessors t)
            (tr_next t ++ [subject]) (tr_truncated t)
    end.

(** The edges in the order of the two nested loops. *)
Definition edges_of (frontier : list string) (edges : gmap string (list string)) : list (string * string) :=
  frontier ≫= λ issuer, pair issuer <$> default [] (edges !! issuer).

Definition expand (degree : nat) (t : traversal) (frontier : list string) (edges : gmap string (list string))
    (edgesTruncated : bool) : traversal :=
  let t' := foldl (visit degree) (mkTraversal (tr_seen t) (tr_predecessors t) [] (tr_truncated t))
    (edges_of frontier edges) in
  if edgesTruncated then mkTraversal (tr_seen t') (tr_predecessors t') (tr_next t') true else t'.

(** The loop over degrees; [levels] are left. *)
Fixpoint traverse {S} `{!Adjacency S} (levels degree : nat) (frontier : list string) (t : traversal) : M S traversal :=
  match levels with
  | O => mret t
  | Datatypes.S levels' =>
      let remainingAccounts := (accountCap - accounts_seen t)%Z in
      if (remainingAccounts <=? 0)%Z then mret (mkTraversal (tr_seen t) (tr_predecessors t) (tr_next t) true)
      else if (maxSafeClosureAccounts <? remainingAccounts)%Z then
        throw ("remaining graph closure account cap must be at most " +:+ itoa maxSafeClosureAccounts
          +:+ ", got " +:+ itoa remainingAccounts)
      else
        let edgeLimit := (remainingAccounts * MaxVia)%Z in
        found ← wrap ("load graph edges for degree " +:+ itoa (Z.of_nat degree)) (AdjacentForLimit frontier edgeLimit);
        let t' := expand degree t frontier found.1 found.2 in
        if tr_truncated t' then mret t'
        else if decide (tr_next t' = []) then mret t'
        else traverse levels' (Datatypes.S degree) (tr_next t') t'
  end.

Definition account_of (t : traversal) (seen : string * nat) : Account :=
  mkAccount seen.1 seen.2 (merge_sort String.le (elements (default ∅ (tr_predecessors t !! seen.1)))).

Definition closure_result (t : traversal) : Result :=
  mkResult (merge_sort by_degree (account_of t <$>
    filter (λ seen : string * nat, seen.1 ≠ rootDID) (map_to_list (tr_seen t)))) (tr_truncated t).
End walk.

Definition start (rootDID : string) : traversal := mkTraversal {[ rootDID := 0 ]} ∅ [] false.

Definition Compute {S} `{!Adjacency S} (rootDID : string) (maxDegree accountCap : Z) : M S Result :=
  if (rootDID =? "")%string then throw "root DID is required"
  else if (maxDegree <? 1)%Z || (MaxDegree <? maxDegree)%Z then
    throw ("degree must be between 1 and " +:+ itoa MaxDegree +:+ ", got " +:+ itoa maxDegree)
  else if (accountCap <=? 0)%Z then throw ("graph closure cap must be positive, got " +:+ itoa accountCap)
  else if (maxSafeClosureAccounts <? accountCap)%Z then
    throw ("graph closure cap must be at most " +:+ itoa maxSafeClosureAccounts +:+ ", got " +:+ itoa accountCap)
  else closure_result rootDID <$> traverse rootDID accountCap (Z.to_nat maxDegree) 1 [rootDID] (start rootDID).
