(* ===== verification/ClosureProps.v ===== *)
(** * Closures are distances

    The graph the adjacency source answers for, distances in it, and that the walk of
    Closure.v assigns every account its distance from the root: always right, and
    complete when the result is not marked truncated. *)
From S2P Require Import Prelude GoStrings Effects Closure.

(** ** Distances *)

Section distance.
Context (edge : string → string → Prop) (root : string).

(** Walks from the root; the empty text is no account. *)
Inductive hops : nat → string → Prop :=
  | hops_root : hops 0 root
  | hops_step n x y : hops n x → edge x y → y ≠ "" → hops (S n) y.

Definition distance (x : string) (n : nat) : Prop := hops n x ∧ ∀ m, m < n → ¬ hops m x.

Lemma distance_unique x n m : distance x n → distance x m → n = m.
Proof.
  intros [Hn Hn'] [Hm Hm']. destruct (lt_eq_lt_dec n m) as [[?|?]|?]; [|done|].
  - by destruct (Hm' n).
  - by destruct (Hn' m).
Qed.

Lemma distance_root : distance root 0.
Proof. split; [constructor|lia]. Qed.

Lemma distance_step x n : distance x (S n) → ∃ p, distance p n ∧ edge p x ∧ x ≠ "".
Proof.
  intros [Hx Hmin]. inv Hx. eexists. split_and!; [split; [done|]|done..].
  intros m Hm Hp. apply (Hmin (S m)); [lia|]. by econstructor.
Qed.

Lemma distance_below x n m : distance x n → m ≤ n → ∃ y, distance y m.
Proof.
  revert x. induction n as [|n IH]; intros x Hx Hm.
  - replace m with 0 by lia. eauto.
  - destruct (decide (m = S n)) as [->|]; [eauto|].
    destruct (distance_step _ _ Hx) as (p & Hp & _). apply (IH p); [done|lia].
Qed.
End distance.

(** What a source promises about the graph in a state: answers hold edges only, and all of
    them unless it says otherwise. *)
Class AdjacencyLaws {S} `{!Adjacency S} (s : S) (edge : string → string → Prop) := {
  adjacent_reads sources limit : (0 < limit)%Z → ∃ found truncated,
    ReadsAs (AdjacentForLimit sources limit) s (Ok (found, truncated)) ∧
    (∀ x y, y ∈ default [] (found !! x) → edge x y) ∧
    (truncated = false → ∀ x y, x ∈ sources → edge x y → y ∈ default [] (found !! x));
}.

(** ** One level *)

Section level.
Context (edge : string → string → Prop) (root : string) (cap : Z).
Implicit Types (t : traversal) (x y p : string) (done : list (string * string)).

(** The predecessors kept for an account of a degree: none for the first degree, else
    some, at most [MaxVia], each one step closer. *)
Definition via_sound t x n : Prop :=
  match tr_predecessors t !! x with
  | None => n = 1
  | Some ps => 1 < n ∧ ps ≠ ∅ ∧ (Z.of_nat (size ps) <= MaxVia)%Z ∧ ∀ p, p ∈ ps → distance edge root p (n - 1) ∧ edge p x
  end.

(** Fewer than [MaxVia] are all there are. *)
Definition via_complete t x n : Prop :=
  ∀ ps, tr_predecessors t !! x = Some ps → (Z.of_nat (size ps) < MaxVia)%Z →
    ∀ p, distance edge root p (n - 1) → edge p x → p ∈ ps.

Record sound t (d : nat) : Prop := {
  sound_distance x n : tr_seen t !! x = Some n → distance edge root x n ∧ n ≤ d;
  sound_root : tr_seen t !! root = Some 0;
  sound_cap : (accounts_seen t <= cap)%Z;
  sound_via x n : tr_seen t !! x = Some n → 0 < n → via_sound t x n;
  sound_fresh x : tr_seen t !! x = None → tr_predecessors t !! x = None;
}.

Record complete t (d : nat) : Prop := {
  complete_hops x m : hops edge root m x → m ≤ d → ∃ n, n ≤ m ∧ tr_seen t !! x = Some n;
  complete_via x n : tr_seen t !! x = Some n → 1 < n → via_complete t x n;
}.

(** The walk at an edge: [t0] is the state at the start of the level [d] and [done] the edges met since. *)
Record at_level (d : nat) (t0 : traversal) (done : list (string * string)) t : Prop := {
  al_old x n : tr_seen t0 !! x = Some n → tr_seen t !! x = Some n ∧ tr_predecessors t !! x = tr_predecessors t0 !! x;
  al_new x n : tr_seen t0 !! x = None → tr_seen t !! x = Some n →
    n = d ∧ x ≠ "" ∧ (∃ p, (p, x) ∈ done) ∧
    if decide (d = 1) then tr_predecessors t !! x = None
    else ∃ ps, tr_predecessors t !! x = Some ps ∧ ps ≠ ∅ ∧ (Z.of_nat (size ps) <= MaxVia)%Z ∧
      (∀ p, p ∈ ps → (p, x) ∈ done) ∧
      (tr_truncated t = false → (Z.of_nat (size ps) < MaxVia)%Z → ∀ p, (p, x) ∈ done → p ∈ ps);
  al_next x : x ∈ tr_next t ↔ tr_seen t0 !! x = None ∧ is_Some (tr_seen t !! x);
  al_met p x : tr_truncated t = false → (p, x) ∈ done → x ≠ "" → is_Some (tr_seen t !! x);
  al_fresh x : tr_seen t !! x = None → tr_predecessors t !! x = None;
  al_cap : (accounts_seen t <= cap)%Z;
}.

Lemma size_insert_via (p : string) (ps : gset string) :
  (Z.of_nat (size ps) < MaxVia)%Z → (Z.of_nat (size ({[ p ]} ∪ ps)) <= MaxVia)%Z.
Proof.
  intros Hs. destruct (decide (p ∈ ps)).
  - replace ({[ p ]} ∪ ps) with ps by set_solver. lia.
  - rewrite size_union, size_singleton by set_solver. lia.
Qed.

Lemma accounts_seen_insert t x n q nx b :
  tr_seen t !! x = None →
  accounts_seen (mkTraversal (<[x := n]> (tr_seen t)) q nx b) = (accounts_seen t + 1)%Z.
Proof. intros Hx. unfold accounts_seen. cbn. rewrite map_size_insert_None by done. lia. Qed.

Section visits.
Context (d : nat) (t0 : traversal).
Hypothesis old_root : tr_seen t0 !! root = Some 0.
Hypothesis old_below : ∀ x n, tr_seen t0 !! x = Some n → n < d.

(** An edge to nowhere new. *)
Lemma level_skip done t p x :
  at_level d t0 done t → x = "" ∨ is_Some (tr_seen t0 !! x) → at_level d t0 (done ++ [(p, x)]) t.
Proof.
  intros [Hold Hnew Hnext Hmet Hfresh Hcap] Hx. split; [done| |done| |done|done].
  - intros y n H0 Hy. destruct (Hnew y n H0 Hy) as (-> & Hne & (q & Hq) & Hps). split_and!; [done|done|set_solver|].
    case_decide; [done|]. destruct Hps as (ps & Hps & Hne' & Hsz & Hin & Hall). exists ps. split_and!; [done|done|done|set_solver|].
    intros Htr Hlt r [Hr|Hr]%elem_of_app; [by apply Hall|]. apply list_elem_of_singleton in Hr. simplify_eq.
    destruct Hx as [->|[? Hx]]; [done|congruence].
  - intros q y Htr [Hq|Hq]%elem_of_app Hne; [by eapply Hmet|]. apply list_elem_of_singleton in Hq. simplify_eq.
    destruct Hx as [->|[n Hx]]; [done|]. exists n. by apply Hold.
Qed.

(** An edge that does not fit. *)
Lemma level_full done t p x :
  at_level d t0 done t →
  at_level d t0 (done ++ [(p, x)]) (mkTraversal (tr_seen t) (tr_predecessors t) (tr_next t) true).
Proof.
  intros [Hold Hnew Hnext Hmet Hfresh Hcap]. split; cbn; [done| |done|done|done|done].
  intros y n H0 Hy. destruct (Hnew y n H0 Hy) as (-> & Hne & (q & Hq) & Hps). split_and!; [done|done|set_solver|].
  case_decide; [done|]. destruct Hps as (ps & Hps & Hne' & Hsz & Hin & Hall).
  exists ps. split_and!; [done|done|done|set_solver|done].
Qed.

(** Another way to an account of this level. *)
Lemma level_again done t p x n :
  at_level d t0 done t → tr_seen t0 !! x = None → tr_seen t !! x = Some n → x ≠ "" →
  at_level d t0 (done ++ [(p, x)])
    (if (n =? d) && (1 <? d) then
       let known := default ∅ (tr_predecessors t !! x) in
       let known := if (Z.of_nat (size known) <? MaxVia)%Z then {[ p ]} ∪ known else known in
       mkTraversal (tr_seen t) (<[ x := known ]> (tr_predecessors t)) (tr_next t) (tr_truncated t)
     else t).
Proof.
  intros [Hold Hnew Hnext Hmet Hfresh Hcap] H0 Hx Hne. destruct (Hnew x n H0 Hx) as (-> & _ & _ & Hps).
  rewrite Nat.eqb_refl. cbn [andb]. destruct (1 <? d) eqn:Hd; cbn zeta.
  - apply Nat.ltb_lt in Hd. rewrite decide_False in Hps by lia. destruct Hps as (ps & Hps & Hne' & Hsz & Hin & Hall).
    rewrite Hps. cbn [default]. split; cbn; [| |done| | |done].
    + intros y m Hy. destruct (decide (y = x)) as [->|]; [congruence|]. rewrite lookup_insert_ne by done. by apply Hold.
    + intros y m Hy0 Hy. destruct (decide (y = x)) as [->|Hyx].
      * rewrite lookup_insert_eq. replace m with d by congruence. split_and!; [done|done|set_solver|]. rewrite decide_False by lia.
        eexists. split; [done|]. case (Z.ltb_spec (Z.of_nat (size ps)) MaxVia) as [Hlt|Hge].
        -- split_and!; [set_solver|by apply size_insert_via|set_solver|].
           intros Htr _ q [Hq|Hq]%elem_of_app; [set_solver|]. apply list_elem_of_singleton in Hq. set_solver.
        -- split_and!; [done|done|set_solver|lia].
      * rewrite lookup_insert_ne by done. destruct (Hnew y m Hy0 Hy) as (-> & Hyne & (q & Hq) & Hps').
        split_and!; [done|done|set_solver|]. rewrite decide_False in * by lia.
        destruct Hps' as (qs & Hqs & ? & ? & ? & Hall'). exists qs. split_and!; [done..|set_solver|].
        intros Htr Hlt r [Hr|Hr]%elem_of_app; [by apply Hall'|]. apply list_elem_of_singleton in Hr. congruence.
    + intros q y Htr [Hq|Hq]%elem_of_app Hy; [by eapply Hmet|]. apply list_elem_of_singleton in Hq. simplify_eq. eauto.
    + intros y Hy. rewrite lookup_insert_ne; [by apply Hfresh|congruence].
  - apply Nat.ltb_ge in Hd. split; [done| |done| |done|done].
    + intros y m Hy0 Hy. destruct (Hnew y m Hy0 Hy) as (-> & ? & (q & Hq) & Hps'). split_and!; [done|done|set_solver|].
      destruct (old_below root 0 old_root). all: by rewrite decide_True in * by lia.
    + intros q y Htr [Hq|Hq]%elem_of_app Hy; [by eapply Hmet|]. apply list_elem_of_singleton in Hq. simplify_eq. eauto.
Qed.

(** A new account. *)
Lemma level_add done t p x :
  at_level d t0 done t → tr_seen t !! x = None → x ≠ "" → (accounts_seen t < cap)%Z →
  at_level d t0 (done ++ [(p, x)])
    (mkTraversal (<[ x := d ]> (tr_seen t))
       (if 1 <? d then <[ x := {[ p ]} ]> (tr_predecessors t) else tr_predecessors t)
       (tr_next t ++ [x]) (tr_truncated t)).
Proof.
  intros [Hold Hnew Hnext Hmet Hfresh Hcap] Hx Hne Hlt.
  remember (if 1 <? d then <[ x := {[ p ]} ]> (tr_predecessors t) else tr_predecessors t) as pre eqn:Epre.
  assert (Hpre : ∀ y, y ≠ x → pre !! y = tr_predecessors t !! y).
  { intros y Hy. rewrite Epre. destruct (1 <? d); [|done]. by rewrite lookup_insert_ne. }
  assert (H0 : tr_seen t0 !! x = None).
  { destruct (tr_seen t0 !! x) as [n|] eqn:E; [|done]. apply Hold in E as [E _]. congruence. }
  split; cbn.
  - intros y n Hy. destruct (decide (y = x)) as [->|]; [congruence|]. rewrite lookup_insert_ne, Hpre by done. by apply Hold.
  - intros y n Hy0 Hy. destruct (decide (y = x)) as [->|Hyx].
    + rewrite lookup_insert_eq in Hy. injection Hy as <-. split_and!; [done|done|set_solver|].
      assert (Hd := old_below root 0 old_root). case_decide as Hd1.
      * rewrite Epre, (proj2 (Nat.ltb_ge 1 d)) by lia. by apply Hfresh.
      * rewrite Epre, (proj2 (Nat.ltb_lt 1 d)), lookup_insert_eq by lia. eexists. split; [done|]. split_and!; [set_solver|by rewrite size_singleton|set_solver|].
        intros Htr _ q [Hq|Hq]%elem_of_app; [|apply list_elem_of_singleton in Hq; set_solver].
        destruct (Hmet q x Htr Hq Hne). congruence.
    + rewrite lookup_insert_ne in Hy by done. rewrite Hpre by done. destruct (Hnew y n Hy0 Hy) as (-> & Hyne & (q & Hq) & Hps').
      split_and!; [done|done|set_solver|]. case_decide; [done|].
      destruct Hps' as (qs & Hqs & ? & ? & ? & Hall'). exists qs. split_and!; [done..|set_solver|].
      intros Htr Hl r [Hr|Hr]%elem_of_app; [by apply Hall'|]. apply list_elem_of_singleton in Hr. congruence.
  - intros y. rewrite elem_of_app, list_elem_of_singleton, Hnext. destruct (decide (y = x)) as [->|Hyx].
    + rewrite lookup_insert_eq. naive_solver.
    + rewrite lookup_insert_ne by done. naive_solver.
  - intros q y Htr [Hq|Hq]%elem_of_app Hy; (destruct (decide (y = x)) as [->|]; [rewrite lookup_insert_eq; eauto|]).
    + rewrite lookup_insert_ne by done. by eapply Hmet.
    + apply list_elem_of_singleton in Hq. congruence.
  - intros y [Hyx Hy]%lookup_insert_None. rewrite Hpre by done. by apply Hfresh.
  - rewrite accounts_seen_insert by done. lia.
Qed.

Lemma visit_level done t e :
  at_level d t0 done t → at_level d t0 (done ++ [e]) (visit root cap d t e).
Proof.
  intros Ht. destruct e as [p x]. unfold visit.
  destruct (String.eqb_spec x "") as [->|Hx]; [apply level_skip; [done|by left]|].
  destruct (String.eqb_spec x root) as [->|Hr]; [apply level_skip; [done|right; eauto]|]. cbn [orb].
  destruct (tr_seen t !! x) as [n|] eqn:E.
  - destruct (tr_seen t0 !! x) as [m|] eqn:E0; [|by apply level_again].
    destruct (al_old _ _ _ _ Ht x m E0) as [E1 _]. simplify_eq.
    assert (Hm := old_below x n E0). rewrite (proj2 (Nat.eqb_neq n d)) by lia. apply level_skip; [done|right; eauto].
  - destruct (Z.leb_spec cap (accounts_seen t)); [by apply level_full|by apply level_add].
Qed.

Lemma visits_level done t es :
  at_level d t0 done t → at_level d t0 (done ++ es) (foldl (visit root cap d) t es).
Proof.
  revert done t. induction es as [|e es IH]; intros done t Ht; cbn; [by rewrite app_nil_r|].
  rewrite cons_middle, app_assoc. by apply IH, visit_level.
Qed.
End visits.

Lemma elem_of_edges F m p x : (p, x) ∈ edges_of F m ↔ p ∈ F ∧ x ∈ default [] (m !! p).
Proof.
  unfold edges_of. rewrite list_elem_of_bind. split.
  - intros (q & (y & [= -> ->] & Hy)%list_elem_of_fmap & Hq). done.
  - intros [Hp Hx]. exists p. split; [|done]. by apply list_elem_of_fmap_2.
Qed.

Section expansion.
Context (d : nat) (t : traversal) (F : list string) (m : gmap string (list string)) (more : bool).
Hypothesis Hsound : sound t d.
Hypothesis Hcomplete : complete t d.
Hypothesis HF : ∀ x, x ∈ F ↔ distance edge root x d.
Hypothesis Hm : ∀ x y, y ∈ default [] (m !! x) → edge x y.
Let t' := expand root cap (S d) t F m more.

Lemma expand_at_level : at_level (S d) t (edges_of F m) t'.
Proof.
  assert (H : at_level (S d) t ([] ++ edges_of F m)
    (foldl (visit root cap (S d)) (mkTraversal (tr_seen t) (tr_predecessors t) [] (tr_truncated t)) (edges_of F m))).
  { apply visits_level; [apply Hsound|intros x n Hx%Hsound; lia|].
    split; cbn; [done|congruence| |set_solver|apply Hsound|apply Hsound].
    intros x. split; [set_solver|]. intros [-> [? ?]]. done. }
  unfold t', expand. destruct more; [|done]. destruct H. split; cbn; [done| |done|done|done|done].
  intros x n H0 Hx. destruct (al_new0 x n H0 Hx) as (? & ? & ? & Hps). split_and!; [done..|].
  case_decide; [done|]. destruct Hps as (ps & ? & ? & ? & ? & ?). by exists ps.
Qed.

Lemma new_distance x n : tr_seen t !! x = None → tr_seen t' !! x = Some n → n = S d ∧ distance edge root x n.
Proof.
  intros H0 Hx. destruct (al_new _ _ _ _ expand_at_level x n H0 Hx) as (-> & Hne & (p & [Hp Hpx]%elem_of_edges) & _).
  apply HF in Hp as [Hp _]. split; [done|]. split; [econstructor; eauto|].
  intros k Hk Hh. destruct (complete_hops _ _ Hcomplete x k Hh) as (? & _ & ?); [lia|congruence].
Qed.

Lemma expand_sound : sound t' (S d).
Proof.
  assert (HL := expand_at_level). destruct Hsound as [Hdist Hroot Hcap Hvia Hfresh]. split.
  - intros x n Hx. destruct (tr_seen t !! x) as [k|] eqn:E.
    + destruct (al_old _ _ _ _ HL x k E) as [E' _]. simplify_eq. destruct (Hdist x _ E). split; [done|lia].
    + destruct (new_distance x n E Hx) as [-> ?]. split; [done|lia].
  - by apply (al_old _ _ _ _ HL).
  - apply HL.
  - intros x n Hx Hn. unfold via_sound. destruct (tr_seen t !! x) as [k|] eqn:E.
    + destruct (al_old _ _ _ _ HL x k E) as [E' ->]. simplify_eq. by apply Hvia.
    + destruct (al_new _ _ _ _ HL x n E Hx) as (-> & _ & _ & Hps). case_decide as Hd; [by rewrite Hps|].
      destruct Hps as (ps & -> & Hne & Hsz & Hin & _). split_and!; [lia|done|done|].
      intros p [Hp Hpx]%Hin%elem_of_edges. replace (S d - 1) with d by lia. split; [by apply HF|by apply Hm].
  - apply HL.
Qed.

Hypothesis Hall : more = false → ∀ x y, x ∈ F → edge x y → y ∈ default [] (m !! x).
Hypothesis Htr : tr_truncated t' = false.

Lemma expand_all x y : x ∈ F → edge x y → (x, y) ∈ edges_of F m.
Proof.
  intros Hx Hxy. apply elem_of_edges. split; [done|]. apply Hall; [|done..].
  unfold t', expand in Htr. by destruct more.
Qed.

Lemma expand_complete : complete t' (S d).
Proof.
  assert (HL := expand_at_level). assert (HS := expand_sound). split.
  - assert (Hlow : ∀ x k, hops edge root k x → k ≤ d → ∃ n, n ≤ k ∧ tr_seen t' !! x = Some n).
    { intros x k Hx Hk. destruct (complete_hops _ _ Hcomplete x k Hx Hk) as (n & Hn & Hs).
      exists n. split; [done|]. by apply (al_old _ _ _ _ HL). }
    intros x k Hx Hk. destruct (decide (k = S d)) as [->|]; [|apply Hlow; [done|lia]]. inv Hx.
    match goal with H : hops _ _ d ?p, E : edge ?p x |- _ => rename H into Hp, E into Hpx end.
    destruct (complete_hops _ _ Hcomplete _ _ Hp) as (n & Hn & Hs); [done|].
    apply (sound_distance _ _ Hsound) in Hs as [Hs _]. destruct (decide (n = d)) as [->|].
    + destruct (al_met _ _ _ _ HL x0 x) as [j Hj]; [done|apply expand_all; [by apply HF|done]|done|].
      exists j. split; [|done]. by apply (sound_distance _ _ HS) in Hj as [_ ?].
    + destruct (Hlow x (S n)) as (j & Hj & ?); [econstructor; [apply Hs|done..]|lia|]. exists j. split; [lia|done].
  - intros x n Hx Hn ps Hps Hlt p Hp Hpx. destruct (tr_seen t !! x) as [k|] eqn:E.
    + destruct (al_old _ _ _ _ HL x k E) as [E' E'']. simplify_eq.
      eapply (complete_via _ _ Hcomplete); [done|done|by rewrite <- E''|done..].
    + destruct (al_new _ _ _ _ HL x n E Hx) as (-> & _ & _ & Hq). rewrite decide_False in Hq by lia.
      destruct Hq as (qs & Hqs & _ & _ & _ & Hq). simplify_eq. apply Hq; [done..|].
      replace (S d - 1) with d in Hp by lia. apply expand_all; [by apply HF|done].
Qed.

Lemma expand_next x : x ∈ tr_next t' ↔ distance edge root x (S d).
Proof.
  rewrite (al_next _ _ _ _ expand_at_level). split.
  - intros [H0 [n Hx]]. by destruct (new_distance x n H0 Hx) as [-> ?].
  - intros Hx. destruct (complete_hops _ _ expand_complete x (S d)) as (n & _ & Hn); [apply Hx|done|]. split; [|eauto].
    destruct (tr_seen t !! x) as [k|] eqn:E; [|done]. apply (sound_distance _ _ Hsound) in E as [E Hk].
    assert (S d = k) by by eapply distance_unique. lia.
Qed.
End expansion.
End level.

(** ** The walk *)

Section closure.
Context {S : Type} `{!Adjacency S} (s : S) (edge : string → string → Prop) `{!AdjacencyLaws s edge}.
Context (root : string) (cap : Z).
Hypothesis Hcap : (0 < cap <= maxSafeClosureAccounts)%Z.

Lemma sound_mono t d d' : d ≤ d' → sound edge root cap t d → sound edge root cap t d'.
Proof. intros Hd [Hdist ? ? ? ?]. split; [|done..]. intros x n Hx. destruct (Hdist x n Hx). split; [done|lia]. Qed.

(** Nothing at a distance, nothing beyond. *)
Lemma complete_stop t d d' :
  sound edge root cap t d → complete edge root t d → (∀ x, ¬ distance edge root x d) → complete edge root t d'.
Proof.
  intros Hs [Hh Hv] Hnone. split; [|done]. intros x m Hx _. revert x Hx. induction m as [|m IH]; intros x Hx.
  - inv Hx. exists 0. split; [done|apply Hs].
  - inv Hx. match goal with H : hops _ _ m _ |- _ => destruct (IH _ H) as (n & Hn & Hp) end.
    apply (sound_distance _ _ _ _ _ Hs) in Hp as [Hp Hd].
    destruct (decide (n = d)) as [->|]; [by destruct (Hnone x0)|].
    destruct (Hh x (Datatypes.S n)) as (j & ? & ?); [econstructor; [apply Hp|done..]|lia|]. exists j. split; [lia|done].
Qed.

Lemma traverse_correct levels d F t :
  sound edge root cap t d → complete edge root t d → (∀ x, x ∈ F ↔ distance edge root x d) → tr_truncated t = false →
  ∃ t', ReadsAs (traverse root cap levels (Datatypes.S d) F t) s (Ok t') ∧
    sound edge root cap t' (d + levels) ∧ (tr_truncated t' = false → complete edge root t' (d + levels)).
Proof.
  revert d F t. induction levels as [|levels IH]; intros d F t Hs Hc HF Htr; cbn [traverse]; cbv zeta.
  - exists t. replace (d + 0) with d by lia. split_and!; [apply reads_ret|done|done].
  - assert (Hseen := sound_cap _ _ _ _ _ Hs).
    assert (0 <= accounts_seen t)%Z as Hpos.
    { unfold accounts_seen. assert (size (tr_seen t) ≠ 0); [|lia]. intros Hz%map_size_empty_iff.
      assert (H0 := sound_root _ _ _ _ _ Hs). by rewrite Hz in H0. }
    case (Z.leb_spec (cap - accounts_seen t) 0) as [Hle|Hgt].
    { eexists. split; [apply reads_ret|]. split; [|done]. apply sound_mono with d; [lia|]. by destruct Hs. }
    rewrite (proj2 (Z.ltb_ge _ _)) by lia.
    destruct (adjacent_reads (edge:=edge) F ((cap - accounts_seen t) * MaxVia)) as (m & more & Hreads & Hm & Hall); [unfold MaxVia; lia|].
    set (t' := expand root cap (Datatypes.S d) t F m more).
    assert (Hs' : sound edge root cap t' (Datatypes.S d)) by by apply expand_sound.
    assert (Hx : ∃ t'', ReadsAs (if tr_truncated t' then mret t' else if decide (tr_next t' = []) then mret t'
        else traverse root cap levels (Datatypes.S (Datatypes.S d)) (tr_next t') t') s (Ok t'') ∧
      sound edge root cap t'' (d + Datatypes.S levels) ∧ (tr_truncated t'' = false → complete edge root t'' (d + Datatypes.S levels))).
    { destruct (tr_truncated t') eqn:Htr'.
      - exists t'. split_and!; [apply reads_ret| |congruence]. eapply sound_mono, Hs'. lia.
      - assert (Hc' : complete edge root t' (Datatypes.S d)) by by eapply expand_complete.
        assert (Hnext := expand_next edge root cap d t F m more Hs Hc HF Hm Hall Htr').
        case_decide as Hnil.
        + exists t'. split_and!; [apply reads_ret|eapply sound_mono, Hs'; lia|]. intros _.
          eapply complete_stop; [done..|]. intros x Hx%Hnext. fold t' in Hx. rewrite Hnil in Hx. set_solver.
        + destruct (IH (Datatypes.S d) (tr_next t') t') as (t'' & ? & ? & ?); [done..|].
          exists t''. replace (d + Datatypes.S levels) with (Datatypes.S d + levels) by lia. done. }
    destruct Hx as (t'' & Hr & ? & ?). exists t''. split_and!; [|done..].
    eapply reads_bind; [by apply reads_wrap|intros a [= <-]; exact Hr|done].
Qed.

Lemma start_sound : sound edge root cap (start root) 0.
Proof.
  split; cbn.
  - intros x n [<- <-]%lookup_singleton_Some. split; [apply distance_root|done].
  - by rewrite lookup_singleton_eq.
  - unfold accounts_seen. cbn. rewrite map_size_singleton. lia.
  - intros x n [<- <-]%lookup_singleton_Some. lia.
  - done.
Qed.

Lemma start_complete : complete edge root (start root) 0.
Proof.
  split.
  - intros x m Hx Hm. assert (m = 0) as -> by lia. inv Hx. exists 0. split; [done|]. apply lookup_singleton_eq.
  - intros x n Hx. cbn in Hx. apply lookup_singleton_Some in Hx as [<- <-]. lia.
Qed.

End closure.

(** ** The result *)

Section result.
Context (root : string).

Definition via_of (t : traversal) (x : string) : list string := ac_Via (account_of t (x, 0)).

Lemma elem_of_via t x p : p ∈ via_of t x ↔ ∃ ps, tr_predecessors t !! x = Some ps ∧ p ∈ ps.
Proof.
  unfold via_of, account_of. cbn. rewrite merge_sort_Permutation, elem_of_elements.
  destruct (tr_predecessors t !! x); cbn; set_solver.
Qed.

Lemma via_length t x : length (via_of t x) = size (default ∅ (tr_predecessors t !! x)).
Proof. unfold via_of, account_of. cbn. by rewrite merge_sort_Permutation. Qed.

Lemma elem_of_closure t a :
  a ∈ re_Accounts (closure_result root t) ↔
  ac_DID a ≠ root ∧ tr_seen t !! ac_DID a = Some (ac_Degree a) ∧ ac_Via a = via_of t (ac_DID a).
Proof.
  unfold closure_result. cbn. rewrite merge_sort_Permutation, list_elem_of_fmap. split.
  - intros ([x n] & -> & [Hr Hx%elem_of_map_to_list]%list_elem_of_filter). done.
  - intros (Hr & Hx & Hv). exists (ac_DID a, ac_Degree a). split.
    + destruct a. cbn in *. by rewrite Hv.
    + apply list_elem_of_filter. split; [done|]. by apply elem_of_map_to_list.
Qed.

Lemma closure_nodup t : NoDup (ac_DID <$> re_Accounts (closure_result root t)).
Proof.
  unfold closure_result. cbn. rewrite merge_sort_Permutation, <- list_fmap_compose.
  apply nodup_fmap_filter, NoDup_fst_map_to_list.
Qed.

Lemma closure_length t :
  tr_seen t !! root = Some 0 → Z.of_nat (length (re_Accounts (closure_result root t))) = accounts_seen t.
Proof.
  intros Hr. unfold closure_result, accounts_seen. cbn. rewrite merge_sort_Permutation, length_fmap.
  rewrite <- (insert_delete_id _ _ _ Hr), map_to_list_insert, map_size_insert_None by apply lookup_delete_eq.
  rewrite filter_cons_False by (cbn; tauto). rewrite filter_all; [by rewrite length_map_to_list; lia|].
  apply Forall_forall. intros [x n] Hx%elem_of_map_to_list. cbn. intros ->. by rewrite lookup_delete_eq in Hx.
Qed.

End result.

#[export] Instance by_degree_trans : Transitive by_degree.
Proof.
  intros x y z [?|[? Hxy]] [?|[? Hyz]]; unfold by_degree; [left; lia..|].
  right. split; [lia|]. by transitivity (ac_DID y).
Qed.

#[export] Instance by_degree_total : Total by_degree.
Proof.
  intros x y. unfold by_degree. destruct (lt_eq_lt_dec (ac_Degree x) (ac_Degree y)) as [[?|?]|?]; [by left; left| |by right; left].
  destruct (total String.le (ac_DID x) (ac_DID y)); [left|right]; right; done.
Qed.

(** ** The promise *)

(** An account of the result and the graph. *)
Record account_ok (edge : string → string → Prop) (root : string) (degree : nat) (a : Account) : Prop := {
  account_degree : 1 ≤ ac_Degree a ≤ degree;
  account_distance : distance edge root (ac_DID a) (ac_Degree a);
  account_via_sorted : StronglySorted String.le (ac_Via a);
  account_via_bound : (Z.of_nat (length (ac_Via a)) <= MaxVia)%Z;
  account_via_edges p : p ∈ ac_Via a → distance edge root p (ac_Degree a - 1) ∧ edge p (ac_DID a);
  account_via_some : ac_Via a = [] ↔ ac_Degree a = 1;
}.

(** The accounts within a distance, or some of them when marked truncated, each with its
    distance and at most [MaxVia] accounts that lead to it. *)
Record closure_of (edge : string → string → Prop) (root : string) (degree : nat) (cap : Z) (r : Result) : Prop := {
  closure_sorted : StronglySorted by_degree (re_Accounts r);
  closure_once : NoDup (ac_DID <$> re_Accounts r);
  closure_cap : (Z.of_nat (length (re_Accounts r)) <= cap)%Z;
  closure_sound a : a ∈ re_Accounts r → account_ok edge root degree a;
  closure_complete x n : re_Truncated r = false → 1 ≤ n ≤ degree → distance edge root x n →
    ∃ via, mkAccount x n via ∈ re_Accounts r ∧
      (1 < n → (Z.of_nat (length via) < MaxVia)%Z → ∀ p, distance edge root p (n - 1) → edge p x → p ∈ via);
}.

Lemma closure_of_traversal edge root degree cap t :
  sound edge root cap t degree → (tr_truncated t = false → complete edge root t degree) →
  closure_of edge root degree cap (closure_result root t).
Proof.
  intros Hs Hc. split.
  - apply StronglySorted_merge_sort; apply _.
  - apply closure_nodup.
  - rewrite closure_length by apply Hs. apply Hs.
  - intros a (Hr & Ha & Hv)%elem_of_closure.
    destruct (sound_distance _ _ _ _ _ Hs _ _ Ha) as [Hd Hle].
    assert (ac_Degree a ≠ 0) as Hpos by (intros H0; rewrite H0 in Hd; destruct Hd as [Hd _]; by inv Hd).
    assert (Hvia := sound_via _ _ _ _ _ Hs _ _ Ha ltac:(lia)). unfold via_sound in Hvia. split; [lia|done| | | |].
    + rewrite Hv. apply StronglySorted_merge_sort; apply _.
    + rewrite Hv, via_length. destruct (tr_predecessors t !! ac_DID a); [apply Hvia|done].
    + intros p. rewrite Hv, elem_of_via. intros (ps & Hps & Hp). rewrite Hps in Hvia. by apply Hvia.
    + rewrite Hv, <- length_zero_iff_nil, via_length. destruct (tr_predecessors t !! ac_DID a) as [ps|]; cbn; [|done].
      destruct Hvia as (? & Hne & _). split; [|lia]. by intros ?%size_empty_iff%leibniz_equiv.
  - intros x n Htr Hn Hx. specialize (Hc Htr).
    destruct (complete_hops _ _ _ _ Hc x n) as (k & _ & Hk); [apply Hx|lia|].
    destruct (sound_distance _ _ _ _ _ Hs _ _ Hk) as [Hd _]. rewrite (distance_unique _ _ _ _ _ Hd Hx) in Hk.
    exists (via_of t x). split.
    + apply elem_of_closure. split_and!; [|done|done]. cbn. intros ->. assert (n = 0); [|lia].
      eapply distance_unique; [done|apply distance_root].
    + intros H1 Hlen p Hp Hpx. apply elem_of_via. assert (Hv := sound_via _ _ _ _ _ Hs _ _ Hk ltac:(lia)).
      rewrite via_length in Hlen. unfold via_sound in Hv. destruct (tr_predecessors t !! x) as [ps|] eqn:E; [|lia].
      exists ps. split; [done|]. by eapply (complete_via _ _ _ _ Hc).
Qed.

Definition closure_arguments (rootDID : string) (maxDegree accountCap : Z) : Prop :=
  rootDID ≠ "" ∧ (1 <= maxDegree <= MaxDegree)%Z ∧ (0 < accountCap <= maxSafeClosureAccounts)%Z.

Lemma compute_closure {S} `{!Adjacency S} (s : S) edge `{!AdjacencyLaws s edge} rootDID maxDegree accountCap :
  closure_arguments rootDID maxDegree accountCap →
  ∃ r, ReadsAs (Compute rootDID maxDegree accountCap) s (Ok r) ∧
    closure_of edge rootDID (Z.to_nat maxDegree) accountCap r.
Proof.
  intros (Hr & Hd & Hcap).
  destruct (traverse_correct s edge rootDID accountCap Hcap (Z.to_nat maxDegree) 0 [rootDID] (start rootDID)) as (t & Hreads & Hs & Hc).
  { apply start_sound. lia. }
  { apply start_complete. }
  { intros x. rewrite list_elem_of_singleton. split; [intros ->; apply distance_root|]. intros [H0 _]. by inv H0. }
  { done. }
  exists (closure_result rootDID t). split; [|by apply closure_of_traversal].
  unfold Compute. destruct (String.eqb_spec rootDID ""); [done|].
  rewrite !(proj2 (Z.ltb_ge _ _)) by lia. rewrite (proj2 (Z.leb_gt _ _)) by lia. cbn [orb].
  by apply reads_fmap.
Qed.

(** C8. The graph closure of a root is the set of accounts within the requested number of
    hops, each with its distance: [Compute] reads and changes nothing, returns a result
    when the database answers, lists every account once by distance and name, never more
    than the cap, each with at most [MaxVia] predecessors one hop closer, and unless the
    result says it is truncated no account within the distance is missing, nor any
    predecessor of an account with fewer than [MaxVia]. Other arguments are refused before
    the database is asked. *)
Theorem closure_correct {S} `{!Adjacency S} (s : S) edge `{!AdjacencyLaws s edge} rootDID maxDegree accountCap :
  (closure_arguments rootDID maxDegree accountCap →
   ∃ r, ReadsAs (Compute rootDID maxDegree accountCap) s (Ok r) ∧
     closure_of edge rootDID (Z.to_nat maxDegree) accountCap r) ∧
  (¬ closure_arguments rootDID maxDegree accountCap →
   ∀ fs, ∃ e, Compute rootDID maxDegree accountCap s fs = (Err e, s, fs)).
Proof.
  split; [apply compute_closure; apply _|]. intros Hbad fs. unfold Compute, throw.
  destruct (String.eqb_spec rootDID ""); [eauto|].
  destruct ((maxDegree <? 1)%Z || (MaxDegree <? maxDegree)%Z) eqn:Hd; [eauto|].
  destruct (Z.leb_spec accountCap 0); [eauto|]. destruct (Z.ltb_spec maxSafeClosureAccounts accountCap); [eauto|].
  destruct Hbad. apply orb_false_iff in Hd as [?%Z.ltb_ge ?%Z.ltb_ge]. by split_and!.
Qed.
