(* ===== verification/Like.v ===== *)
(** * LIKE patterns

    Escaping of user text in [LIKE] patterns (records.go [escapeLIKE],
    record_versions.go [escapeLike]), what [LIKE ... ESCAPE '\'] matches, and that an
    escaped text matches itself and nothing else, up to SQLite's ASCII case. *)
From S2P Require Import Prelude GoStrings Effects Database.

Definition backslash : Ascii.ascii := Eval cbv in Ascii.ascii_of_N 92.
Definition percent : Ascii.ascii := Eval cbv in Ascii.ascii_of_N 37.
Definition underscore : Ascii.ascii := Eval cbv in Ascii.ascii_of_N 95.

Fixpoint escapeLike (value : string) : string :=
  match value with
  | EmptyString => EmptyString
  | String c s =>
      if Ascii.eqb c backslash || Ascii.eqb c percent || Ascii.eqb c underscore
      then String backslash (String c (escapeLike s)) else String c (escapeLike s)
  end.

(** [strings.ReplaceAll(s, c, rep)] for a one-byte [c]. *)
Fixpoint replace_byte (c : Ascii.ascii) (rep s : string) : string :=
  match s with
  | EmptyString => EmptyString
  | String d s' => if Ascii.eqb d c then rep +:+ replace_byte c rep s' else String d (replace_byte c rep s')
  end.

(** records.go [escapeLIKE] *)
Definition escapeLIKE (s : string) : string :=
  let s := replace_byte backslash (String backslash (byte_str backslash)) s in
  let s := replace_byte percent (String backslash (byte_str percent)) s in
  replace_byte underscore (String backslash (byte_str underscore)) s.

Section like.
Context `{Env}.

(** SQL's [LIKE] with [ESCAPE '\']: a pattern is literals, [%] and [_]. *)
Inductive like_token := LikeByte (c : Ascii.ascii) | LikeOne | LikeMany.

Fixpoint like_tokens (pattern : string) : list like_token :=
  match pattern with
  | EmptyString => []
  | String c s =>
      if Ascii.eqb c backslash
      then match s with String d s' => LikeByte d :: like_tokens s' | EmptyString => [] end
      else (if Ascii.eqb c percent then LikeMany
            else if Ascii.eqb c underscore then LikeOne else LikeByte c) :: like_tokens s
  end.

(** ASCII lower case, for SQLite's case-insensitive [LIKE]. *)
Definition ascii_lower (c : Ascii.ascii) : Ascii.ascii :=
  let n := byte_val c in
  if ((65 <=? n) && (n <=? 90))%N then Ascii.ascii_of_N (n + 32) else c.

Definition like_byte_eq (c d : Ascii.ascii) : bool :=
  match dialect with
  | SQLite => Ascii.eqb (ascii_lower c) (ascii_lower d)
  | PostgreSQL => Ascii.eqb c d
  end.

(** Bytes of the UTF-8 character a string starts with. *)
Definition char_len (c : Ascii.ascii) : nat :=
  let n := byte_val c in
  if (n <? 192)%N then 1 else if (n <? 224)%N then 2 else if (n <? 240)%N then 3 else 4.

Fixpoint like_match (ts : list like_token) (s : string) : bool :=
  match ts with
  | [] => (s =? "")%string
  | LikeByte c :: ts' =>
      match s with String d s' => like_byte_eq c d && like_match ts' s' | EmptyString => false end
  | LikeOne :: ts' =>
      match s with String d _ => like_match ts' (sdrop (char_len d) s) | EmptyString => false end
  | LikeMany :: ts' => existsb (λ n, like_match ts' (sdrop n s)) (seq 0 (S (String.length s)))
  end.

(** SQLite's [LIKE] ignores ASCII case. *)
Fixpoint fold_case (s : string) : string :=
  match s with
  | EmptyString => EmptyString
  | String c s' => String (match dialect with SQLite => ascii_lower c | PostgreSQL => c end) (fold_case s')
  end.

Fixpoint bytes_of (s : string) : list Ascii.ascii :=
  match s with EmptyString => [] | String c s' => c :: bytes_of s' end.

Lemma like_tokens_escape p :
  like_tokens (escapeLike p +:+ "%") = (LikeByte <$> bytes_of p) ++ [LikeMany].
Proof.
  induction p as [|c p IH]; [done|]. cbn [escapeLike bytes_of].
  destruct (Ascii.eqb c backslash) eqn:E1, (Ascii.eqb c percent) eqn:E2, (Ascii.eqb c underscore) eqn:E3;
    cbn [orb]; rewrite !append_cons; cbn [like_tokens]; rewrite ?E1, ?E2, ?E3, ?Ascii.eqb_refl; cbn; by rewrite IH.
Qed.

Lemma like_many s : like_match [LikeMany] s = true.
Proof.
  cbn [like_match]. apply existsb_exists. exists (String.length s). split.
  - apply in_seq. lia.
  - apply String.eqb_eq. rewrite <- (append_nil_r s) at 2. apply sdrop_append.
Qed.

Lemma like_prefix p s :
  like_match (like_tokens (escapeLike p +:+ "%")) s = has_prefix (fold_case p) (fold_case s).
Proof.
  rewrite like_tokens_escape. revert s. induction p as [|c p IH]; intros s.
  - cbn [bytes_of fmap list_fmap app fold_case]. rewrite like_many. by destruct (fold_case s).
  - destruct s as [|d s]; [done|].
    change (like_match ((LikeByte <$> bytes_of (String c p)) ++ [LikeMany]) (String d s))
      with (like_byte_eq c d && like_match ((LikeByte <$> bytes_of p) ++ [LikeMany]) s).
    rewrite IH. unfold has_prefix. cbn [fold_case String.prefix]. unfold like_byte_eq.
    destruct dialect;
      match goal with |- context [Ascii.eqb ?a ?b] =>
        destruct (Ascii.eqb_spec a b) as [->|]; cbn [andb];
        repeat (case_match; try done) end.
Qed.

(** The three replacements do what the one-pass escape does. *)
Lemma escapeLIKE_escapeLike s : escapeLIKE s = escapeLike s.
Proof.
  induction s as [|c s IH]; [done|]. cbn [escapeLike]. rewrite <- IH. unfold escapeLIKE.
  cbn [replace_byte].
  destruct (Ascii.eqb c backslash) eqn:E1; [by apply Ascii.eqb_eq in E1 as ->|].
  cbn [replace_byte orb]. destruct (Ascii.eqb c percent) eqn:E2; [by apply Ascii.eqb_eq in E2 as ->|].
  cbn [replace_byte orb]. destruct (Ascii.eqb c underscore) eqn:E3; [by apply Ascii.eqb_eq in E3 as ->|done].
Qed.

(** ["%" + escapeLIKE(p) + "%"] matches the texts that contain [p]. *)
Lemma like_contains p s :
  like_match (like_tokens ("%" +:+ escapeLike p +:+ "%")) s
  = existsb (λ n, has_prefix (fold_case p) (fold_case (sdrop n s))) (seq 0 (S (String.length s))).
Proof.
  change (like_tokens ("%" +:+ escapeLike p +:+ "%")) with (LikeMany :: like_tokens (escapeLike p +:+ "%")).
  cbn [like_match]. generalize (seq 0 (S (String.length s))). intros l.
  induction l as [|n l IHl]; [done|]. cbn [existsb]. by rewrite like_prefix, IHl.
Qed.
End like.
