(* ===== verification/RecordStore.v ===== *)
(** * The record repository

    src/internal/database/repositories/records.go: the writes of the ingestion path
    (single, batched and backfill upserts), validation metadata updates, deletion and
    purge, and the point reads. Every operation is the sequence of statements the
    code issues, run in the monad of [Effects]: any of them may fail. *)
From S2P Require Import Prelude GoStrings Json AtprotoTime Effects Database.

(** ** Validation status (src/internal/validation/status.go) *)

Definition Status := string.
Definition StatusValid : Status := "valid".
Definition StatusInvalid : Status := "invalid".
Definition StatusUnknownSchema : Status := "unknown_schema".
Definition StatusValidationError : Status := "validation_error".
Definition StatusUnvalidated : Status := "unvalidated".

(** status.go [Result] *)
Record ValidationResult := mkResult {
  res_status : Status;
  res_error : string;
  res_lexicon_hash : string;
}.

(** status.go [RecordValidator] *)
Record RecordValidator := {
  ValidateRecord : string → string → string → ValidationResult;
  LexiconHash : string → option string;
}.

(** status.go [ClassifyRecord]: fail closed without a validator. *)
Definition ClassifyRecord (validator : option RecordValidator)
    (collection rkey rawJSON : string) : ValidationResult :=
  match validator with
  | None => mkResult StatusValidationError
      "record validator is not configured; restart Hyperindex with a valid startup Lexicon snapshot" ""
  | Some v => ValidateRecord v collection rkey rawJSON
  end.

(** status.go [Disabled] *)
Definition Disabled : RecordValidator := {|
  ValidateRecord _ _ _ := mkResult StatusUnvalidated
    "record validation is disabled (RECORD_VALIDATION_ENABLED=false)" "";
  LexiconHash _ := None;
|}.

(** ** Data *)

(** records.go [Record] *)
Record RecordStruct := mkRecord {
  rec_uri : string;
  rec_cid : string;
  rec_did : string;
  rec_collection : string;
  rec_json : string;
  rec_indexed_at : Z;
  rec_rkey : string;
  rec_validation_status : Status;
  rec_validation_error : string;
  rec_validated_at : option Z;
  rec_lexicon_hash : string;
}.

(** records.go [RecordWrite] *)
Record RecordWrite := mkWrite {
  rw_uri : string;
  rw_cid : string;
  rw_did : string;
  rw_collection : string;
  rw_rkey : string;
  rw_json : string;
  rw_validation_status : Status;
  rw_validation_error : string;
  rw_lexicon_hash : string;
}.
#[export] Instance RecordWrite_eq_dec : EqDecision RecordWrite.
Proof. solve_decision. Defined.

(** records.go [InsertResult] *)
Inductive InsertResult := Inserted | Skipped.
#[export] Instance InsertResult_eq_dec : EqDecision InsertResult.
Proof. solve_decision. Defined.

(** records.go [BackfillBatchResult] *)
Record BackfillBatchResult := mkBackfillResult { ChangedIndices : list nat; SkippedCount : nat }.

(** records.go [existingValidationWriteState] *)
Record existingValidationWriteState := mkExisting {
  ex_cid : string;
  ex_hasRecordCreatedAt : bool;
  ex_status : Status;
  ex_validationError : string;
  ex_hasValidatedAt : bool;
  ex_lexiconHash : string;
}.

Definition BatchInsertSize : nat := 100.
Definition ValidationBatchUpsertSize : nat := 100.
Definition SQLParamBatchSize : nat := 900.
Definition SQLiteAggregateParameterLimit : nat := 999.
Definition DefaultIterateBatchSize : nat := 1000.

Section store.
Context `{Env}.

(** ** Values *)

Definition recordCreatedAtValue (recordJSON : string) : Value :=
  match NormalizeRecordCreatedAt recordJSON with
  | None => NullValue
  | Some createdAt => TimestamptzValue createdAt
  end.

Definition validateSQLiteAggregateParameterCount (paramCount : nat) : outcome unit :=
  if decide (dialect ≠ SQLite) then Ok tt
  else if SQLiteAggregateParameterLimit <? paramCount
  then Err "sqlite query parameter count exceeds maximum allowed"
  else Ok tt.

Definition validateRecordWrite (rec : RecordWrite) : outcome unit :=
  if (rw_uri rec =? "")%string || (rw_did rec =? "")%string
     || (rw_collection rec =? "")%string || (rw_json rec =? "")%string
  then Err "validation-aware record write requires uri, did, collection, and json"
  else if bool_decide (rw_validation_status rec ∈
    [StatusValid; StatusInvalid; StatusUnknownSchema; StatusValidationError; StatusUnvalidated])
  then Ok tt
  else Err ("validation-aware record write for " +:+ rw_uri rec +:+ " has unsupported validation status").

(** The values bound for one write, in the order of the INSERT's columns: uri, cid,
    did, collection, json, record_created_at, validation_status, validation_error,
    lexicon_hash ([validated_at] is the database clock). *)
Definition recordWriteValues (rec : RecordWrite) (createdAt : Value) : list Value :=
  [TextValue (rw_uri rec); TextValue (rw_cid rec); TextValue (rw_did rec);
   TextValue (rw_collection rec); TextValue (rw_json rec); createdAt;
   TextValue (rw_validation_status rec); nullableTextValue (rw_validation_error rec);
   nullableTextValue (rw_lexicon_hash rec)].

(** ** The upsert statements *)

(** [validationBatchUpsertSQL]: one row of [INSERT ... ON CONFLICT(uri) DO UPDATE].
    [indexed_at] moves only when the CID or the JSON changes, and a known
    [record_created_at] is kept. *)
Definition validation_upsert_row (now : Z) (vals : list Value) (json : string)
    (old : option row) : row :=
  let v i := nth i vals NullValue in
  let text i := null_string (column_text (v i)) in
  let indexed := match old with
    | Some o => if decide (row_cid o ≠ text 1 ∨ row_json o ≠ json) then now else row_indexed_at o
    | None => now
    end in
  mkRow (text 1) (text 2) (text 3) json indexed
    (coalesce (old ≫= row_record_created_at) (column_text (v 5)))
    (text 6) (column_text (v 7)) (Some now) (column_text (v 8)).

Definition validation_upsert_one (rec : RecordWrite) (d : db) : outcome db :=
  json ← store_json (rw_json rec);
  mret (set_records (λ m, <[rw_uri rec := validation_upsert_row (db_clock d)
    (recordWriteValues rec (recordCreatedAtValue (rw_json rec))) json (m !! rw_uri rec)]> m) d).

Fixpoint fold_rows {A} (f : A → db → outcome db) (xs : list A) (d : db) : outcome db :=
  match xs with
  | [] => Ok d
  | x :: xs' => d' ← f x d; fold_rows f xs' d'
  end.

(** PostgreSQL refuses a multi-row upsert that meets the same key twice. *)
Definition upsert_conflict (uris : list string) : outcome unit :=
  if decide (dialect = PostgreSQL ∧ ¬ NoDup uris)
  then Err "ON CONFLICT DO UPDATE command cannot affect row a second time"
  else Ok tt.

Definition batchUpsertWithValidationTx (records : list RecordWrite) : M db unit :=
  wrap "batch upsert records with validation" (stmt (λ d,
    upsert_conflict (rw_uri <$> records) ;;
    d' ← fold_rows validation_upsert_one records d;
    mret (tt, d'))).

(** ** Point reads used by the writes *)

Definition getValidationWriteState (uri : string) : M db (option existingValidationWriteState) :=
  query (λ d, (λ r, mkExisting (row_cid r) (bool_decide (is_Some (row_record_created_at r)))
    (row_validation_status r) (null_string (row_validation_error r))
    (bool_decide (is_Some (row_validated_at r))) (null_string (row_lexicon_hash r)))
    <$> db_records d !! uri).

Definition getCIDAndRecordCreatedAtByURI (uri : string) : M db (option (string * bool)) :=
  query (λ d, (λ r, (row_cid r, bool_decide (null_string (row_record_created_at r) ≠ "")))
    <$> db_records d !! uri).

(** ** Row updates *)

(** [UPDATE record SET ... WHERE ...] on the rows selected by [sel], with the number
    of rows affected. *)
Definition update_rows (sel : string → row → bool) (f : string → row → row) (d : db) : nat * db :=
  (size (filter (λ kv : string * row, sel kv.1 kv.2 = true) (db_records d)),
   set_records (map_imap (λ k r, Some (if sel k r then f k r else r))) d).

(** [validation_status = $1, validation_error = $2, validated_at = now, lexicon_hash = $3] *)
Definition set_validation (now : Z) (status error lexiconHash : string) (r : row) : row :=
  mkRow (row_cid r) (row_did r) (row_collection r) (row_json r) (row_indexed_at r)
    (row_record_created_at r) status (column_text (nullableTextValue error)) (Some now)
    (column_text (nullableTextValue lexiconHash)).

Definition set_created_at (c : option string) (r : row) : row :=
  mkRow (row_cid r) (row_did r) (row_collection r) (row_json r) (row_indexed_at r)
    c (row_validation_status r) (row_validation_error r) (row_validated_at r) (row_lexicon_hash r).

Definition repairSameCIDValidation (rec : RecordWrite) (createdAt : Value) : M db bool :=
  wrap ("repair validation metadata for unchanged record " +:+ rw_uri rec)
    (stmt (λ d,
      let '(n, d') := update_rows
        (λ uri r, (uri =? rw_uri rec)%string && (row_cid r =? rw_cid rec)%string)
        (λ _ r, set_created_at (coalesce (row_record_created_at r) (column_text createdAt))
          (set_validation (db_clock d) (rw_validation_status rec) (rw_validation_error rec)
            (rw_lexicon_hash rec) r)) d in
      Ok (n =? 1, d'))).

(** The rows of the [incoming] table that match one row of [record]. The scalar
    subqueries of the repair read the first of them. *)
Definition incoming_match (records : list RecordWrite) (uri : string) (r : row) : option RecordWrite :=
  head (filter (λ w, rw_uri w = uri ∧ rw_cid w = row_cid r) records).

Definition batchRepairBackfillValidationTx (records : list RecordWrite) : M db unit :=
  affected ← wrap "repair same-CID backfill records" (stmt (λ d, Ok (update_rows
    (λ uri r, bool_decide (is_Some (incoming_match records uri r)))
    (λ uri r, match incoming_match records uri r with
      | Some w => set_created_at
          (coalesce (row_record_created_at r) (column_text (recordCreatedAtValue (rw_json w))))
          (set_validation (db_clock d) (rw_validation_status w) (rw_validation_error w)
            (rw_lexicon_hash w) r)
      | None => r
      end) d)));
  if affected =? length records then mret tt
  else throw "repair same-CID backfill records affected a wrong number of rows".

(** [UPDATE record SET record_created_at = $1 WHERE uri = $2 AND record_created_at IS NULL] *)
Definition fillMissingRecordCreatedAt (uri : string) (value : Value) : M db unit :=
  match value with
  | NullValue => mret tt
  | _ => exec (λ d, (update_rows
      (λ u r, (u =? uri)%string && bool_decide (row_record_created_at r = None))
      (λ _ r, set_created_at (column_text value) r) d).2)
  end.

(** ** Writes *)

(** The unvalidated insert of [Insert] and [insertBatchTx]: validation columns keep
    their value, or the schema's defaults for a new row. *)
Definition plain_upsert_one (uri cid did collection jsonData : string) (d : db) : outcome db :=
  json ← store_json jsonData;
  let createdAt := column_text (recordCreatedAtValue jsonData) in
  mret (set_records (λ m, <[uri := match m !! uri with
    | Some o => mkRow cid (row_did o) (row_collection o) json (db_clock d)
        (coalesce (row_record_created_at o) createdAt) (row_validation_status o)
        (row_validation_error o) (row_validated_at o) (row_lexicon_hash o)
    | None => mkRow cid did collection json (db_clock d) createdAt StatusUnknownSchema None None None
    end]> m) d).

Definition Insert (uri cid did collection jsonData : string) : M db InsertResult :=
  let createdAtValue := recordCreatedAtValue jsonData in
  existing ← getCIDAndRecordCreatedAtByURI uri;
  let '(existingCID, existingHasRecordCreatedAt) := default ("", false) existing in
  if negb (cid =? "")%string && (existingCID =? cid)%string then
    (if negb existingHasRecordCreatedAt then fillMissingRecordCreatedAt uri createdAtValue else mret tt) ;;
    mret Skipped
  else
    stmt (λ d, d' ← plain_upsert_one uri cid did collection jsonData d; mret (tt, d')) ;;
    mret Inserted.

Definition insertBatchTx (records : list RecordStruct) : M db unit :=
  stmt (λ d,
    upsert_conflict (rec_uri <$> records) ;;
    d' ← fold_rows (λ rec, plain_upsert_one (rec_uri rec) (rec_cid rec) (rec_did rec)
           (rec_collection rec) (rec_json rec)) records d;
    mret (tt, d')).

Definition BatchInsert (records : list RecordStruct) : M db unit :=
  if decide (records = []) then mret tt
  else transaction (for_each insertBatchTx (chunks BatchInsertSize records)).

(** The value [time.Time]-typed argument test of [UpsertWithValidation]. *)
Definition is_timestamptz (v : Value) : bool :=
  match v with TimestamptzValue _ => true | _ => false end.

Definition UpsertWithValidation (rec : RecordWrite) : M db InsertResult :=
  of_outcome (validateRecordWrite rec) ;;
  let createdAtValue := recordCreatedAtValue (rw_json rec) in
  existing ← wrap ("read existing validation state for " +:+ rw_uri rec)
    (getValidationWriteState (rw_uri rec));
  let upsert :=
    wrap ("upsert record " +:+ rw_uri rec +:+ " with validation")
      (stmt (λ d, d' ← validation_upsert_one rec d; mret (tt, d'))) ;;
    mret Inserted in
  match existing with
  | Some ex =>
      if negb (rw_cid rec =? "")%string && (ex_cid ex =? rw_cid rec)%string then
        let needsCreatedAtRepair :=
          negb (ex_hasRecordCreatedAt ex) && is_timestamptz createdAtValue in
        let metadataCurrent :=
          (ex_status ex =? rw_validation_status rec)%string
          && (ex_validationError ex =? rw_validation_error rec)%string
          && ex_hasValidatedAt ex
          && (ex_lexiconHash ex =? rw_lexicon_hash rec)%string in
        if metadataCurrent && negb needsCreatedAtRepair then mret Skipped
        else
          repaired ← repairSameCIDValidation rec createdAtValue;
          if (repaired : bool) then mret Skipped else upsert
      else upsert
  | None => upsert
  end.

(** [for _, x := range xs { if err := f(x); err != nil { return err } }] on pure checks. *)
Fixpoint first_error {A} (f : A → outcome unit) (xs : list A) : outcome unit :=
  match xs with
  | [] => Ok tt
  | x :: xs' => f x ;; first_error f xs'
  end.

Definition BatchUpsertWithValidation (records : list RecordWrite) : M db unit :=
  if decide (records = []) then mret tt
  else
    of_outcome (first_error validateRecordWrite records) ;;
    transaction (for_each batchUpsertWithValidationTx (chunks ValidationBatchUpsertSize records)).

(** ** Backfill batches *)

Definition backfillDuplicateConflict (first duplicate : RecordWrite) : string :=
  if negb (rw_did first =? rw_did duplicate)%string
     || negb (rw_collection first =? rw_collection duplicate)%string
  then "DID or collection differs"
  else if negb (rw_cid first =? rw_cid duplicate)%string then "CID differs"
  else if negb (rw_validation_status first =? rw_validation_status duplicate)%string
       || negb (rw_validation_error first =? rw_validation_error duplicate)%string
       || negb (rw_lexicon_hash first =? rw_lexicon_hash duplicate)%string
  then "validation metadata differs"
  else if (rw_cid first =? "")%string && negb (rw_json first =? rw_json duplicate)%string
  then "empty-CID content differs"
  else "".

(** The loop of [normalizeBackfillRecordWrites]: [acc] is [normalized], and [byURI]
    is the position in it of each URI, i.e. the first entry with that URI. *)
Fixpoint normalize_loop (did : string) (records : list RecordWrite) (index : nat)
    (acc : list (RecordWrite * nat)) : outcome (list (RecordWrite * nat)) :=
  match records with
  | [] => Ok acc
  | rec :: rest =>
      validateRecordWrite rec ;;
      if negb (rw_did rec =? did)%string
      then Err ("backfill validation-aware batch for " +:+ did +:+ " contains record "
                +:+ rw_uri rec +:+ " owned by " +:+ rw_did rec)
      else match head (filter (λ p : RecordWrite * nat, rw_uri p.1 = rw_uri rec) acc) with
      | Some (existing, _) =>
          let conflict := backfillDuplicateConflict existing rec in
          if negb (conflict =? "")%string
          then Err ("conflicting duplicate backfill URI " +:+ rw_uri rec +:+ ": " +:+ conflict)
          else normalize_loop did rest (S index) acc
      | None => normalize_loop did rest (S index) (acc ++ [(rec, index)])
      end
  end.

Definition normalizeBackfillRecordWrites (did : string) (records : list RecordWrite)
    : outcome (list (RecordWrite * nat)) :=
  if decide (records = []) then Ok []
  else if (did =? "")%string then Err "backfill validation-aware batch requires a DID"
  else normalize_loop did records 0 [].

(** The CIDs of the rows with the given URIs, read in slices. *)
Definition cids_of (uris : list string) (m : gmap string row) : gmap string string :=
  row_cid <$> filter (λ kv : string * row, kv.1 ∈ uris) m.

Fixpoint getCIDsByURIsTx_loop (batches : list (list string)) (acc : gmap string string)
    : M db (gmap string string) :=
  match batches with
  | [] => mret acc
  | batch :: rest =>
      found ← query (λ d, cids_of batch (db_records d));
      getCIDsByURIsTx_loop rest (found ∪ acc)
  end.
Definition getCIDsByURIsTx (uris : list string) : M db (gmap string string) :=
  getCIDsByURIsTx_loop (chunks SQLParamBatchSize uris) ∅.

(** A same-URI, same-non-empty-CID write only repairs metadata. *)
Definition is_repair (existing : gmap string string) (w : RecordWrite) : bool :=
  negb (rw_cid w =? "")%string && (default "" (existing !! rw_uri w) =? rw_cid w)%string.

(** [BatchUpsertWithValidationForBackfill]. The process lock per DID and the
    dialect's writer lock are statements without effect on the state. *)
Definition BatchUpsertWithValidationForBackfill (did : string) (records : list RecordWrite)
    : M db BackfillBatchResult :=
  normalized ← of_outcome (normalizeBackfillRecordWrites did records);
  if decide (normalized = []) then mret (mkBackfillResult [] 0)
  else transaction (
    wrap ("acquire backfill lock for " +:+ did) (exec (λ d, d)) ;;
    existingByURI ← wrap ("classify existing repo " +:+ did +:+ " records")
      (getCIDsByURIsTx ((λ p, rw_uri p.1) <$> normalized));
    let repairs := filter (λ p : RecordWrite * nat, is_repair existingByURI p.1 = true) normalized in
    let changed := filter (λ p : RecordWrite * nat, is_repair existingByURI p.1 = false) normalized in
    for_each batchUpsertWithValidationTx (chunks ValidationBatchUpsertSize (changed.*1)) ;;
    for_each batchRepairBackfillValidationTx (chunks ValidationBatchUpsertSize (repairs.*1)) ;;
    mret (mkBackfillResult (changed.*2) (length repairs))).

(** ** Validation metadata *)

Definition UpdateValidationStatus (uri : string) (status : Status) (validationError lexiconHash : string)
    : M db unit :=
  exec (λ d, (update_rows (λ u _, (u =? uri)%string)
    (λ _ r, set_validation (db_clock d) status validationError lexiconHash r) d).2).

Definition UpdateValidationStatusIfUnchanged (observed : option RecordStruct) (status : Status)
    (validationError lexiconHash : string) : M db bool :=
  match observed with
  | None => throw "update validation status conditionally: observed record is nil"
  | Some o =>
      wrap ("conditionally update validation metadata for " +:+ rec_uri o) (stmt (λ d,
        json ← store_json (rec_json o);
        let '(n, d') := update_rows
          (λ u r, (u =? rec_uri o)%string && (row_cid r =? rec_cid o)%string
                  && (row_json r =? json)%string)
          (λ _ r, set_validation (db_clock d) status validationError lexiconHash r) d in
        mret (n =? 1, d')))
  end.

(** A row [MarkCollectionUnknownSchema] touches: one whose metadata is not already
    what it writes. *)
Definition needs_unknown_mark (reason : string) (r : row) : bool :=
  negb (row_validation_status r =? StatusUnknownSchema)%string
  || bool_decide (row_validation_error r ≠ Some reason)
  || bool_decide (row_validated_at r = None)
  || bool_decide (row_lexicon_hash r ≠ None).

Definition MarkCollectionUnknownSchema (collection reason : string) : M db unit :=
  exec (λ d, (update_rows
    (λ _ r, (row_collection r =? collection)%string && needs_unknown_mark reason r)
    (λ _ r, mkRow (row_cid r) (row_did r) (row_collection r) (row_json r) (row_indexed_at r)
       (row_record_created_at r) StatusUnknownSchema (Some reason) (Some (db_clock d)) None) d).2).

(** ** Reads *)

(** [scanRecords] and [applyRecordValidationNulls]: a row as a struct. A NULL [rkey]
    does not scan into a string. *)
Definition scan_record (kv : string * row) : outcome RecordStruct :=
  match rkey_column kv.1 with
  | None => Err "converting NULL to string is unsupported"
  | Some rkey => Ok (mkRecord kv.1 (row_cid kv.2) (row_did kv.2) (row_collection kv.2)
      (row_json kv.2) (row_indexed_at kv.2) rkey (row_validation_status kv.2)
      (null_string (row_validation_error kv.2)) (row_validated_at kv.2)
      (null_string (row_lexicon_hash kv.2)))
  end.

Fixpoint scanRecords (rows : list (string * row)) : outcome (list RecordStruct) :=
  match rows with
  | [] => Ok []
  | r :: rest => x ← scan_record r; xs ← scanRecords rest; mret (x :: xs)
  end.

Definition no_rows : string := "sql: no rows in result set".

Definition select_one (sel : string → row → bool) (uri : string) (d : db) : outcome RecordStruct :=
  match db_records d !! uri with
  | Some r => if sel uri r then scan_record (uri, r) else Err no_rows
  | None => Err no_rows
  end.

Definition GetByURI (uri : string) : M db RecordStruct :=
  stmt (λ d, r ← select_one (λ _ _, true) uri d; mret (r, d)).

Definition typed_visible (collection : string) (r : row) : bool :=
  (row_collection r =? collection)%string && (row_validation_status r =? StatusValid)%string.

Definition GetValidByURI (uri collection : string) : M db RecordStruct :=
  stmt (λ d, r ← select_one (λ _ r, typed_visible collection r) uri d; mret (r, d)).

Definition ExistsValidByURI (uri collection : string) : M db bool :=
  query (λ d, match db_records d !! uri with
    | Some r => typed_visible collection r | None => false end).

(** [SELECT ... WHERE uri IN (batch) [AND validation_status = 'valid']] *)
Definition select_in (batch : list string) (validOnly : bool) (d : db) : list (string * row) :=
  map_to_list (filter (λ kv : string * row, kv.1 ∈ batch ∧
    (validOnly = true → row_validation_status kv.2 = StatusValid)) (db_records d)).

Fixpoint getByURIs_loop (batches : list (list string)) (validOnly : bool) (acc : list RecordStruct)
    : M db (list RecordStruct) :=
  match batches with
  | [] => mret acc
  | batch :: rest =>
      found ← stmt (λ d, rs ← scanRecords (select_in batch validOnly d); mret (rs, d));
      getByURIs_loop rest validOnly (acc ++ found)
  end.
Definition getByURIs (uris : list string) (validOnly : bool) : M db (list RecordStruct) :=
  getByURIs_loop (chunks SQLParamBatchSize uris) validOnly [].

(** ** Deletion *)

Definition delete_versions (sel : version_row → bool) (d : db) : db :=
  set_versions (filter (λ v, sel v = false)) d.
Definition delete_records (sel : string → row → bool) (d : db) : db :=
  set_records (filter (λ kv : string * row, sel kv.1 kv.2 = false)) d.

(** The columns deletion selects by. *)
Inductive delete_column := by_uri | by_did.
Definition row_matches (column : delete_column) (value : string) (uri : string) (r : row) : bool :=
  match column with by_uri => (uri =? value)%string | by_did => (row_did r =? value)%string end.
Definition version_matches (column : delete_column) (value : string) (v : version_row) : bool :=
  match column with by_uri => (ver_uri v =? value)%string | by_did => (ver_did v =? value)%string end.

Definition deleteVersionHistoryTx (column : delete_column) (value : string) : M db unit :=
  wrap "failed to delete record versions" (exec (delete_versions (version_matches column value))).

Definition deleteWithHistory (column : delete_column) (value : string) : M db unit :=
  transaction (
    deleteVersionHistoryTx column value ;;
    wrap "failed to delete records" (exec (delete_records (row_matches column value)))).
Definition Delete (uri : string) : M db unit := deleteWithHistory by_uri uri.
Definition DeleteByDID (did : string) : M db unit := deleteWithHistory by_did did.

(** [DELETE ... RETURNING]: [None] for a missing row. A row that does not scan is an
    error, and the transaction rolls back. *)
Definition DeleteReturning (uri : string) : M db (option RecordStruct) :=
  transaction (
    deleteVersionHistoryTx by_uri uri ;;
    stmt (λ d,
      match db_records d !! uri with
      | None => Ok (None, d)
      | Some r => x ← scan_record (uri, r);
                  mret (Some x, delete_records (row_matches by_uri uri) d)
      end)).

Definition PurgeActorData (did : string) : M db unit :=
  transaction (
    wrap "failed to delete records by did" (exec (delete_records (row_matches by_did did))) ;;
    deleteVersionHistoryTx by_did did ;;
    wrap "failed to delete actor by did" (exec (set_actors (delete did)))).

Definition DeleteAll : M db unit := exec (set_records (λ _, ∅)).
Definition GetCount : M db nat := query (λ d, size (db_records d)).
Definition GetCollectionCount (collection : string) : M db nat :=
  query (λ d, size (filter (λ kv : string * row, row_collection kv.2 = collection) (db_records d))).
Definition GetCountByDID (did : string) : M db nat :=
  query (λ d, size (filter (λ kv : string * row, row_did kv.2 = did) (db_records d))).

End store.

(** ** Ordered scans *)

Section scans.
Context `{Env} `{TextOrder}.

Definition needs_validation (collection currentLexiconHash : string) (r : row) : bool :=
  (row_collection r =? collection)%string
  && (bool_decide (row_lexicon_hash r ≠ Some currentLexiconHash)
      || bool_decide (row_validated_at r = None)).

Definition ListRecordsNeedingValidation (collection currentLexiconHash afterURI : string) (limit : Z)
    : M db (list RecordStruct) :=
  let limit := if (limit <=? 0)%Z then DefaultIterateBatchSize else Z.to_nat limit in
  stmt (λ d,
    rs ← scanRecords (take limit (filter
      (λ kv : string * row, needs_validation collection currentLexiconHash kv.2 = true ∧ text_lt afterURI kv.1)
      (by_key (db_records d))));
    mret (rs, d)).

End scans.
