(* ===== verification/RecordProps.v ===== *)
(** * What the record repository guarantees

    Functional correctness of the validated upsert, its idempotence under
    redelivery, the write-once creation time, and all-or-nothing deletion, purge and
    conditional updates, for every schedule of statement failures. *)
From S2P Require Import Prelude GoStrings Json AtprotoTime Effects Database RecordStore.

(** ** Shared lemmas *)

Section lemmas.
Context `{Env}.

Lemma update_rows_lookup sel f d k :
  db_records (update_rows sel f d).2 !! k =
  (λ r, if sel k r then f k r else r) <$> db_records d !! k.
Proof. unfold update_rows, set_records. simpl. rewrite map_lookup_imap. by destruct (_ !! k). Qed.

Lemma update_rows_ext sel sel' f d :
  (∀ k r, sel k r = sel' k r) → update_rows sel f d = update_rows sel' f d.
Proof.
  intros Hext. unfold update_rows, set_records. f_equal.
  - f_equal. apply map_filter_ext. intros k r _. by rewrite Hext.
  - f_equal. apply map_eq. intros k. rewrite !map_lookup_imap.
    by destruct (db_records d !! k); simpl; rewrite ?Hext.
Qed.

(** An update that selects at most the row of one URI is an insertion there. *)
Lemma update_rows_one (u : string) (sel : row → bool) (f : row → row) d :
  update_rows (λ k r, (k =? u)%string && sel r) (λ _ r, f r) d =
  match db_records d !! u with
  | Some r => if sel r then (1, set_records (<[u := f r]>) d) else (0, d)
  | None => (0, d)
  end.
Proof.
  unfold update_rows. f_equal.
  assert (Hrec : map_imap (λ k r, Some (if (k =? u)%string && sel r then f r else r)) (db_records d)
    = match db_records d !! u with
      | Some r => if sel r then <[u := f r]> (db_records d) else db_records d
      | None => db_records d end).
  { apply map_eq. intros k. rewrite map_lookup_imap.
    destruct (String.eqb_spec k u) as [->|Hne].
    - destruct (db_records d !! u) as [r|] eqn:E; [|by rewrite E].
      simpl. destruct (sel r); [by rewrite lookup_insert_eq|by rewrite E].
    - destruct (db_records d !! u) as [r|] eqn:E; [destruct (sel r)|];
        rewrite ?lookup_insert_ne by done; by destruct (db_records d !! k). }
  assert (Hsize : size (filter (λ kv : string * row, (kv.1 =? u)%string && sel kv.2 = true) (db_records d))
    = match db_records d !! u with Some r => if sel r then 1 else 0 | None => 0 end).
  { destruct (db_records d !! u) as [r|] eqn:E.
    - destruct (sel r) eqn:Es.
      + replace (filter _ _) with ({[u := r]} : gmap string row); [apply map_size_singleton|].
        apply map_eq. intros k. rewrite map_lookup_filter.
        destruct (decide (k = u)) as [->|Hne].
        * rewrite lookup_singleton_eq, E. simpl. rewrite option_guard_True; [done|].
          by rewrite String.eqb_refl, Es.
        * rewrite lookup_singleton_ne by done. destruct (db_records d !! k); simpl; [|done].
          rewrite option_guard_False; [done|]. by rewrite (proj2 (String.eqb_neq k u) Hne).
      + apply map_size_empty_iff, map_empty. intros k. rewrite map_lookup_filter.
        destruct (db_records d !! k) as [r'|] eqn:Ek; [simpl|done].
        rewrite option_guard_False; [done|]. destruct (String.eqb_spec k u); simpl; congruence.
    - apply map_size_empty_iff, map_empty. intros k. rewrite map_lookup_filter.
      destruct (db_records d !! k) as [r'|] eqn:Ek; [simpl|done].
      rewrite option_guard_False; [done|]. destruct (String.eqb_spec k u); simpl; congruence. }
  rewrite Hsize. unfold set_records. rewrite Hrec.
  destruct (db_records d !! u) as [r|]; [destruct (sel r)|]; by destruct d.
Qed.

Lemma set_records_insert_id u r d :
  db_records d !! u = Some r → set_records (<[u := r]>) d = d.
Proof. intros E. unfold set_records. rewrite insert_id by done. by destruct d. Qed.

Lemma null_string_nullable s : null_string (column_text (nullableTextValue s)) = s.
Proof. unfold nullableTextValue. by destruct (String.eqb_spec s ""); subst. Qed.

Lemma wrap_err_inv {A} msg (o : outcome A) a : wrap_err msg o = Ok a → o = Ok a.
Proof. by destruct o. Qed.

Lemma wrap_inv {S A} msg (m : M S A) s fs o s' fs' :
  wrap msg m s fs = (o, s', fs') → ∃ o', m s fs = (o', s', fs') ∧ o = wrap_err msg o'.
Proof. unfold wrap. destruct (m s fs) as [[o' ?] ?]. intros. simplify_eq. eauto. Qed.

Lemma of_outcome_inv {S A} (o' : outcome A) (s : S) fs o s' fs' :
  of_outcome o' s fs = (o, s', fs') → o' = o ∧ s' = s.
Proof. unfold of_outcome. by intros [= -> -> ->]. Qed.
End lemmas.

(** Split a bind into the error of its head and its success. *)
Ltac bind_cases H :=
  match type of H with
  | (?m ≫= _) ?st ?sched = _ =>
      let E := fresh "E" in
      destruct (m st sched) as [[[?a|?e] ?s] ?fs] eqn:E;
      [rewrite (bind_ok _ _ _ _ _ _ _ E) in H | rewrite (bind_err _ _ _ _ _ _ _ E) in H]
  end.

(** ** The validated upsert *)

Section upsert.
Context `{Env}.

(** What a successful upsert leaves at the record's URI. *)
Record upserted (rec : RecordWrite) (d : db) (res : InsertResult) (r : row) : Prop := {
  up_cid : row_cid r = rw_cid rec;
  up_status : row_validation_status r = rw_validation_status rec;
  up_error : null_string (row_validation_error r) = rw_validation_error rec;
  up_hash : null_string (row_lexicon_hash r) = rw_lexicon_hash rec;
  up_validated : is_Some (row_validated_at r);
  up_created : row_record_created_at r =
    coalesce (db_records d !! rw_uri rec ≫= row_record_created_at)
             (NormalizeRecordCreatedAt (rw_json rec));
  up_content : match res with
    | Inserted =>
        row_did r = rw_did rec ∧ row_collection r = rw_collection rec ∧
        store_json (rw_json rec) = Ok (row_json r) ∧ row_validated_at r = Some (db_clock d) ∧
        row_indexed_at r = match db_records d !! rw_uri rec with
          | Some old => if decide (row_cid old = row_cid r ∧ row_json old = row_json r)
                        then row_indexed_at old else db_clock d
          | None => db_clock d end
    | Skipped =>
        rw_cid rec ≠ "" ∧ ∃ old, db_records d !! rw_uri rec = Some old ∧
          row_cid old = rw_cid rec ∧ row_did r = row_did old ∧ row_collection r = row_collection old ∧
          row_json r = row_json old ∧ row_indexed_at r = row_indexed_at old
    end;
}.

Lemma column_text_created_at j : column_text (recordCreatedAtValue j) = NormalizeRecordCreatedAt j.
Proof. unfold recordCreatedAtValue. by destruct (NormalizeRecordCreatedAt j). Qed.

Lemma is_timestamptz_created_at j :
  is_timestamptz (recordCreatedAtValue j) = bool_decide (is_Some (NormalizeRecordCreatedAt j)).
Proof. unfold recordCreatedAtValue. by destruct (NormalizeRecordCreatedAt j). Qed.

Lemma validation_upsert_one_spec rec d d' :
  validation_upsert_one rec d = Ok d' →
  ∃ r, d' = set_records (<[rw_uri rec := r]>) d ∧ upserted rec d Inserted r.
Proof.
  unfold validation_upsert_one. destruct (store_json (rw_json rec)) as [json|] eqn:Ej; [|done].
  intros [= <-]. eexists. split; [done|].
  split; unfold recordWriteValues, validation_upsert_row; simpl;
    rewrite ?null_string_nullable, ?column_text_created_at; try done.
  rewrite Ej. repeat split; try done.
  destruct (db_records d !! rw_uri rec) as [o|]; [simpl|done].
    repeat case_decide; tauto.
Qed.

Lemma upsert_stmt_spec msg rec d fs o d' fs' :
  (wrap msg (stmt (λ d, d' ← validation_upsert_one rec d; mret (tt, d'))) ;; mret Inserted) d fs
    = (o, d', fs') →
  match o with
  | Ok res => res = Inserted ∧ ∃ r, d' = set_records (<[rw_uri rec := r]>) d ∧ upserted rec d Inserted r
  | Err _ => d' = d
  end.
Proof.
  intros Hrun. bind_cases Hrun; apply wrap_inv in E as (o' & E & Ho).
  - destruct o' as [?|]; [|done]. inv Hrun. split; [done|].
    apply stmt_ok_inv in E. unfold mbind, outcome_bind in E.
    destruct (validation_upsert_one rec d) eqn:Eu; [|done]. inv E.
    by apply validation_upsert_one_spec.
  - destruct o'; [done|]. inv Hrun. by apply stmt_err_inv in E.
Qed.

Lemma repairSameCIDValidation_spec rec v d fs o d' fs' :
  repairSameCIDValidation rec v d fs = (o, d', fs') →
  match o with
  | Ok true => ∃ old, db_records d !! rw_uri rec = Some old ∧ row_cid old = rw_cid rec ∧
      d' = set_records (<[rw_uri rec := set_created_at (coalesce (row_record_created_at old) (column_text v))
          (set_validation (db_clock d) (rw_validation_status rec) (rw_validation_error rec)
            (rw_lexicon_hash rec) old)]>) d
  | Ok false => d' = d ∧ ∀ old, db_records d !! rw_uri rec = Some old → row_cid old ≠ rw_cid rec
  | Err _ => d' = d
  end.
Proof.
  unfold repairSameCIDValidation. intros (o' & E & ->)%wrap_inv.
  destruct o' as [b|e]; simpl; [|by apply stmt_err_inv in E].
  apply stmt_ok_inv in E.
  rewrite (update_rows_one (rw_uri rec) (λ r, (row_cid r =? rw_cid rec)%string)
    (λ r, set_created_at (coalesce (row_record_created_at r) (column_text v))
          (set_validation (db_clock d) (rw_validation_status rec) (rw_validation_error rec)
            (rw_lexicon_hash rec) r))) in E.
  destruct (db_records d !! rw_uri rec) as [old|] eqn:Eo; [|by inv E].
  destruct (String.eqb_spec (row_cid old) (rw_cid rec)); inv E; [by eexists|].
  split; [done|]. by intros ? [= <-].
Qed.

(** The whole contract of [UpsertWithValidation], for every schedule of faults. *)
Lemma upsert_contract rec d fs o d' fs' :
  UpsertWithValidation rec d fs = (o, d', fs') →
  match o with
  | Ok res => ∃ r, d' = set_records (<[rw_uri rec := r]>) d ∧ upserted rec d res r
  | Err _ => d' = d
  end.
Proof.
  unfold UpsertWithValidation. intros Hrun.
  bind_cases Hrun; apply of_outcome_inv in E as [Hv ->]; [|by inv Hrun].
  bind_cases Hrun; apply wrap_inv in E as (o' & E & Ho);
    apply query_state in E as [-> Hq]; [|by inv Hrun].
  symmetry in Ho. apply wrap_err_inv in Ho as ->. specialize (Hq _ eq_refl) as ->.
  assert (Hups : ∀ fs o d' fs', (wrap ("upsert record " +:+ rw_uri rec +:+ " with validation")
      (stmt (λ d, d' ← validation_upsert_one rec d; mret (tt, d'))) ;; mret Inserted) d fs
      = (o, d', fs') →
      match o with
      | Ok res => ∃ r, d' = set_records (<[rw_uri rec := r]>) d ∧ upserted rec d res r
      | Err _ => d' = d end).
  { intros ? o1 ? ? Hu%upsert_stmt_spec. destruct o1; [|done]. by destruct Hu as [-> ?]. }
  destruct (db_records d !! rw_uri rec) as [old|] eqn:Eold; simpl in Hrun; [|by eapply Hups].
  destruct (String.eqb_spec (rw_cid rec) ""); simpl in Hrun; [by eapply Hups|].
  destruct (String.eqb_spec (row_cid old) (rw_cid rec)) as [Hcid|]; simpl in Hrun; [|by eapply Hups].
  rewrite is_timestamptz_created_at in Hrun.
  match type of Hrun with (if ?b then _ else _) _ _ = _ => destruct b eqn:Hmeta end.
  - inv Hrun. exists old. split; [by rewrite set_records_insert_id|].
    apply andb_prop in Hmeta as [Hmeta Hca%negb_true_iff].
    apply andb_prop in Hmeta as [Hmeta ?%String.eqb_eq].
    apply andb_prop in Hmeta as [Hmeta ?%bool_decide_eq_true].
    apply andb_prop in Hmeta as [?%String.eqb_eq ?%String.eqb_eq].
    split; try done; [|by eauto 10]. rewrite Eold. simpl.
    destruct (row_record_created_at old); [done|]. simpl in *.
    destruct (NormalizeRecordCreatedAt (rw_json rec)); [|done]. by rewrite bool_decide_eq_true_2 in Hca.
  - bind_cases Hrun; apply repairSameCIDValidation_spec in E.
    + match type of E with if ?b then _ else _ => destruct b end.
      * inv Hrun. destruct E as (old' & Eo' & _ & ->). simplify_eq.
        eexists. split; [done|].
        split; simpl; rewrite ?null_string_nullable, ?column_text_created_at, ?Eold; try done.
        by eauto 10.
      * destruct E as [-> Hne]. by eapply Hups.
    + by inv Hrun.
Qed.

Lemma upserted_ext w d d2 res r :
  db_records d !! rw_uri w = db_records d2 !! rw_uri w → db_clock d = db_clock d2 →
  upserted w d res r → upserted w d2 res r.
Proof.
  intros E Ec Hu. destruct Hu. constructor; try rewrite <- E; try rewrite <- Ec; done.
Qed.

Lemma upserted_ext_db w d d2 res r :
  db_records d = db_records d2 → db_clock d = db_clock d2 → upserted w d res r → upserted w d2 res r.
Proof. intros E. apply upserted_ext. by rewrite E. Qed.

(** A stored row makes the next delivery of the same write a no-op. *)
Lemma upserted_again rec d res r d2 fs :
  rw_cid rec ≠ "" → is_ok (validateRecordWrite rec) = true →
  upserted rec d res r → db_records d2 !! rw_uri rec = Some r →
  UpsertWithValidation rec d2 fs =
    (if decide (head fs = Some true)
     then Err ("read existing validation state for " +:+ rw_uri rec +:+ ": database error")
     else Ok Skipped, d2, tl fs).
Proof.
  intros Hcid Hok Hup Hd2. unfold UpsertWithValidation.
  destruct (validateRecordWrite rec) as [[]|] eqn:Hv; [|done].
  rewrite (bind_ok (of_outcome (Ok ())) _ d2 fs () d2 fs eq_refl).
  destruct Hup as [Hc Hs He Hh Hva Hcr _].
  unfold getValidationWriteState, query, wrap, mbind, M_bind, stmt.
  destruct fs as [|[] fs]; simpl; rewrite ?append_assoc; [|done|];
    rewrite Hd2; simpl; rewrite Hc, Hs, He, Hh, !String.eqb_refl, bool_decide_eq_true_2 by done;
    rewrite is_timestamptz_created_at;
    (destruct (String.eqb_spec (rw_cid rec) ""); [done|]; simpl);
    destruct (row_record_created_at r); simpl;
    rewrite ?bool_decide_eq_true_2 by eauto; simpl; try done;
    rewrite ?(bool_decide_eq_false_2 (is_Some None)) by (by intros []); simpl;
    destruct (NormalizeRecordCreatedAt (rw_json rec)); try done;
    by destruct (db_records d !! rw_uri rec ≫= row_record_created_at).
Qed.

Lemma upsert_ok_valid rec d fs res d' fs' :
  UpsertWithValidation rec d fs = (Ok res, d', fs') → is_ok (validateRecordWrite rec) = true.
Proof.
  unfold UpsertWithValidation. intros H0. bind_cases H0; [|done].
  apply of_outcome_inv in E as [-> _]. done.
Qed.

Lemma upsert_total rec d :
  validateRecordWrite rec = Ok () → is_ok (store_json (rw_json rec)) = true →
  is_ok (UpsertWithValidation rec d []).1.1 = true.
Proof.
  intros Hv Hs. destruct (UpsertWithValidation rec d []) as [[[res|e] d'] fs'] eqn:E; [done|exfalso].
  revert E. unfold UpsertWithValidation. rewrite Hv.
  rewrite (bind_ok (of_outcome (Ok ())) _ d [] () d [] eq_refl).
  unfold getValidationWriteState, repairSameCIDValidation, query, wrap, mbind, M_bind, stmt,
    validation_upsert_one, mbind, outcome_bind. simpl.
  destruct (store_json (rw_json rec)); [|done].
  by destruct (db_records d !! rw_uri rec); repeat (simpl; case_match).
Qed.

(** ** Properties *)

(** C1. [UpsertWithValidation], whatever statements fail: an error leaves the
    database untouched, and a success changes exactly the row of the record's URI,
    which then carries the write's CID and validation metadata and the first known
    creation time; an [Inserted] row has the write's content and moves [indexed_at]
    only if CID or JSON changed; a [Skipped] row keeps its content. Without faults a
    valid write succeeds. *)
Theorem UpsertWithValidation_functional rec d fs :
  (match UpsertWithValidation rec d fs with
   | (Ok res, d', _) => ∃ r, d' = set_records (<[rw_uri rec := r]>) d ∧ upserted rec d res r
   | (Err _, d', _) => d' = d
   end) ∧
  (validateRecordWrite rec = Ok () ∧ is_ok (store_json (rw_json rec)) = true →
   is_ok (UpsertWithValidation rec d []).1.1 = true).
Proof.
  split; [|intros []; by apply upsert_total].
  destruct (UpsertWithValidation rec d fs) as [[o d'] fs'] eqn:E. by apply upsert_contract in E.
Qed.

(** Redelivery is idempotent: once a write with a CID has succeeded, delivering
    it again, at any later time and under any faults, changes nothing, and without a
    fault it is reported as [Skipped]. *)
Theorem UpsertWithValidation_redelivery rec d fs res d' fs' t fs2 :
  rw_cid rec ≠ "" → UpsertWithValidation rec d fs = (Ok res, d', fs') →
  let '(o, d2, _) := UpsertWithValidation rec (at_time t d') fs2 in
  d2 = at_time t d' ∧ (head fs2 ≠ Some true → o = Ok Skipped).
Proof.
  intros Hcid Hup. pose proof (upsert_ok_valid _ _ _ _ _ _ Hup) as Hok.
  apply upsert_contract in Hup as (r & -> & Hr).
  erewrite upserted_again by (try done; simpl; by rewrite lookup_insert_eq).
  split; [done|]. intros. by rewrite decide_False by done.
Qed.
End upsert.

Definition example_write : RecordWrite :=
  mkWrite "at://did:plc:a/app.x/1" "cid1" "did:plc:a" "app.x" "1" (quoted "{'createdAt':'2024-01-02T03:04:05.006Z'}") StatusValid "" "hash".

Lemma UpsertWithValidation_functional_witness :
  let _ := example_env SQLite in
  is_ok (UpsertWithValidation example_write (empty_db 5) []).1.1 = true.
Proof.
  apply (UpsertWithValidation_functional (H := example_env SQLite) example_write (empty_db 5) []).
  by vm_compute.
Defined.

Lemma UpsertWithValidation_redelivery_witness :
  let _ := example_env SQLite in
  let d1 := (UpsertWithValidation example_write (empty_db 5) [false]).1.2 in
  let '(o, d2, _) := UpsertWithValidation example_write (at_time 9 d1) [] in
  d2 = at_time 9 d1 ∧ (head (A:=bool) [] ≠ Some true → o = Ok Skipped).
Proof.
  intros e d1.
  refine (UpsertWithValidation_redelivery (H := e) example_write (empty_db 5) [false]
    Inserted d1 [] 9 [] _ _); by vm_compute.
Defined.

(** ** The creation time is written once *)

Section write_once.
Context `{Env}.

(** Every operation of the repository that writes records and deletes none. *)
Inductive write_op :=
  | OpInsert (uri cid did collection jsonData : string)
  | OpBatchInsert (records : list RecordStruct)
  | OpUpsert (rec : RecordWrite)
  | OpBatchUpsert (records : list RecordWrite)
  | OpBackfill (did : string) (records : list RecordWrite)
  | OpUpdateStatus (uri status validationError lexiconHash : string)
  | OpUpdateStatusIfUnchanged (observed : option RecordStruct) (status validationError lexiconHash : string)
  | OpMarkUnknown (collection reason : string).

Definition run_op (op : write_op) : M db unit :=
  match op with
  | OpInsert uri cid did collection j => Insert uri cid did collection j ;; mret tt
  | OpBatchInsert rs => BatchInsert rs
  | OpUpsert rec => UpsertWithValidation rec ;; mret tt
  | OpBatchUpsert rs => BatchUpsertWithValidation rs
  | OpBackfill did rs => BatchUpsertWithValidationForBackfill did rs ;; mret tt
  | OpUpdateStatus uri st e h => UpdateValidationStatus uri st e h
  | OpUpdateStatusIfUnchanged o st e h => UpdateValidationStatusIfUnchanged o st e h ;; mret tt
  | OpMarkUnknown c reason => MarkCollectionUnknownSchema c reason
  end.

(** A caller that tries every operation in turn, whatever the earlier ones returned. *)
Definition run_ops (ops : list write_op) : M db unit :=
  for_each (λ op, attempt (run_op op) ;; mret tt) ops.

(** Invariants on the creation time of each key ([None] for a missing row) that survive
    [COALESCE(record_created_at, new)]. *)
Context (J : string → option string → Prop)
  (HJ : ∀ k o j, J k o → J k (coalesce o (NormalizeRecordCreatedAt j))).

Definition created_at (d : db) (k : string) : option string := db_records d !! k ≫= row_record_created_at.
Definition created_inv (d : db) : Prop := ∀ k, J k (created_at d k).

(** The creation time of a row is kept or filled from a record's JSON. *)
Definition keeps_created (old new : option string) : Prop := new = old ∨ ∃ j, new = coalesce old (NormalizeRecordCreatedAt j).

Lemma keeps_created_inv k o o' : keeps_created o o' → J k o → J k o'.
Proof using HJ. intros [->|(j & ->)]; auto. Qed.

Lemma created_insert k f d :
  (∀ o : option row, keeps_created (o ≫= row_record_created_at) (row_record_created_at (f o))) →
  created_inv d → created_inv (set_records (λ m, <[k := f (m !! k)]> m) d).
Proof using HJ.
  intros Hf Hd k'. unfold created_at. simpl. destruct (decide (k = k')) as [->|].
  - rewrite lookup_insert_eq. eapply keeps_created_inv, (Hd k'). apply Hf.
  - rewrite lookup_insert_ne by done. apply Hd.
Qed.

Lemma created_update sel f d :
  (∀ k r, sel k r = true → keeps_created (row_record_created_at r) (row_record_created_at (f k r))) →
  created_inv d → created_inv (update_rows sel f d).2.
Proof using HJ.
  intros Hf Hd k. unfold created_at. rewrite update_rows_lookup. specialize (Hd k). unfold created_at in Hd.
  destruct (db_records d !! k) as [r|]; [|done]. simpl in *.
  destruct (sel k r) eqn:Hs; [|done]. eapply keeps_created_inv, Hd. by apply Hf.
Qed.

Lemma created_update_pair sel f d n d' :
  update_rows sel f d = (n, d') →
  (∀ k r, sel k r = true → keeps_created (row_record_created_at r) (row_record_created_at (f k r))) →
  created_inv d → created_inv d'.
Proof using HJ. intros E. replace d' with (update_rows sel f d).2 by by rewrite E. apply created_update. Qed.

Lemma created_validation_upsert rec d d' :
  validation_upsert_one rec d = Ok d' → created_inv d → created_inv d'.
Proof using HJ.
  unfold validation_upsert_one. destruct (store_json _); [|done]. intros [= <-].
  apply created_insert. intros o. right. exists (rw_json rec). simpl. by rewrite column_text_created_at.
Qed.

Lemma created_plain_upsert uri cid did coll j d d' :
  plain_upsert_one uri cid did coll j d = Ok d' → created_inv d → created_inv d'.
Proof using HJ.
  unfold plain_upsert_one. destruct (store_json _); [|done]. intros [= <-].
  apply (created_insert uri (λ o, match o with Some o => _ | None => _ end)).
  intros o. right. exists j. destruct o; simpl; by rewrite column_text_created_at.
Qed.

Lemma created_fold_rows {A} (f : A → db → outcome db) xs d d' :
  (∀ x d d', f x d = Ok d' → created_inv d → created_inv d') →
  fold_rows f xs d = Ok d' → created_inv d → created_inv d'.
Proof.
  intros Hf. revert d. induction xs as [|x xs IH]; simpl; intros d; [by intros [= ->]|].
  unfold mbind, outcome_bind. destruct (f x d) eqn:E; [|done]. eauto.
Qed.

Lemma preserves_created_stmt {A} (f : db → outcome (A * db)) :
  (∀ d a d', f d = Ok (a, d') → created_inv d → created_inv d') → Preserves created_inv (stmt f).
Proof. intros Hf. apply preserves_stmt. eauto. Qed.

Lemma created_batch_stmt {A} (f : A → db → outcome db) g (xs : list A) d v d' :
  (∀ x d d', f x d = Ok d' → created_inv d → created_inv d') →
  (upsert_conflict g ;; d' ← fold_rows f xs d; mret (tt, d')) = Ok (v, d') →
  created_inv d → created_inv d'.
Proof.
  intros Hf. unfold mbind, outcome_bind. destruct (upsert_conflict g); [|done].
  destruct (fold_rows f xs d) eqn:E; [|done]. intros [= <- <-]. by eapply created_fold_rows.
Qed.

Lemma preserves_getCIDs batches acc : Preserves created_inv (getCIDsByURIsTx_loop batches acc).
Proof. revert acc. induction batches; simpl; intros; eauto with preserves. Qed.

Lemma preserves_batch_upsert ws : Preserves created_inv (batchUpsertWithValidationTx ws).
Proof using HJ.
  apply preserves_wrap, preserves_created_stmt. intros d v d'.
  apply created_batch_stmt. apply created_validation_upsert.
Qed.

Lemma preserves_batch_repair ws : Preserves created_inv (batchRepairBackfillValidationTx ws).
Proof using HJ.
  apply preserves_bind; [|intros; case_match; auto with preserves].
  apply preserves_wrap, preserves_created_stmt. intros d n d' [= <- <-].
  apply (created_update_pair _ _ _ _ _ eq_refl). simpl. intros k r _.
  case_match; simpl; [|by left]. right. eexists. by rewrite column_text_created_at.
Qed.

Lemma preserves_repair rec j : Preserves created_inv (repairSameCIDValidation rec (recordCreatedAtValue j)).
Proof using HJ.
  apply preserves_wrap, preserves_created_stmt. intros d n d' [= <- <-].
  apply (created_update_pair _ _ _ _ _ eq_refl). intros k r _. right. exists j. simpl.
  by rewrite column_text_created_at.
Qed.

Lemma preserves_fill uri j : Preserves created_inv (fillMissingRecordCreatedAt uri (recordCreatedAtValue j)).
Proof using HJ.
  unfold fillMissingRecordCreatedAt.
  destruct (recordCreatedAtValue j) eqn:Ev; auto with preserves;
    apply preserves_exec; intros d; apply created_update; intros k r [_ Hn%bool_decide_eq_true]%andb_prop;
    right; exists j; simpl; rewrite Hn, <- column_text_created_at, Ev; done.
Qed.

Lemma preserves_set_status sel st e h :
  Preserves created_inv (exec (λ d, (update_rows sel
    (λ _ r, set_validation (db_clock d) st e h r) d).2)).
Proof using HJ. apply preserves_exec. intros d. apply created_update. by left. Qed.

Lemma preserves_run_op op : Preserves created_inv (run_op op).
Proof using HJ.
  destruct op; simpl.
  - apply preserves_bind; [|auto with preserves]. unfold Insert.
    apply preserves_bind; [apply preserves_query|]. intros [[? ?]|]; simpl; case_match;
      repeat (apply preserves_bind; [|intros]); auto with preserves;
      try (case_match; auto using preserves_fill with preserves);
      apply preserves_created_stmt; unfold mbind, outcome_bind; intros d ? d';
      destruct (plain_upsert_one _ _ _ _ _ d) eqn:E; try done; intros [= <- <-];
      by eapply created_plain_upsert.
  - unfold BatchInsert. case_decide; [apply preserves_ret|].
    apply preserves_transaction, preserves_for_each. intros rs.
    apply preserves_created_stmt. intros d v d'. apply created_batch_stmt.
    intros. by eapply created_plain_upsert.
  - apply preserves_bind; [|auto with preserves]. intros d fs o d' fs' HI E.
    apply upsert_contract in E. destruct o as [res|]; [|by subst].
    destruct E as (r & -> & Hr). intros k. unfold created_at. simpl.
    destruct (decide (rw_uri rec = k)) as [<-|].
    + rewrite lookup_insert_eq. simpl. rewrite (up_created _ _ _ _ Hr). apply HJ, HI.
    + rewrite lookup_insert_ne by done. apply HI.
  - unfold BatchUpsertWithValidation. case_decide; [apply preserves_ret|].
    apply preserves_bind; intros; [auto with preserves|].
    apply preserves_transaction, preserves_for_each, preserves_batch_upsert.
  - apply preserves_bind; [|auto with preserves]. unfold BatchUpsertWithValidationForBackfill.
    apply preserves_bind; intros; [auto with preserves|]. case_decide; [apply preserves_ret|].
    apply preserves_transaction. repeat (apply preserves_bind; intros);
      auto using preserves_for_each, preserves_batch_upsert, preserves_batch_repair with preserves.
    + apply preserves_wrap. by apply preserves_exec.
    + apply preserves_wrap, preserves_getCIDs.
  - apply preserves_set_status.
  - apply preserves_bind; [|auto with preserves]. destruct observed; simpl; [|apply preserves_throw].
    apply preserves_wrap, preserves_created_stmt. unfold mbind, outcome_bind. intros d b d'.
    destruct (store_json _); [|done].
    intros [= <- <-]. apply (created_update_pair _ _ _ _ _ eq_refl). by left.
  - apply preserves_exec. intros d. apply created_update. by left.
Qed.

Lemma run_ops_created ops d fs : created_inv d → created_inv (run_ops ops d fs).1.2.
Proof using HJ.
  intros Hd. destruct (run_ops ops d fs) as [[o d'] fs'] eqn:E.
  refine (preserves_for_each created_inv _ _ _ _ _ _ _ _ Hd E).
  intros op. apply preserves_bind; [apply preserves_attempt, preserves_run_op|].
  intros. apply preserves_ret.
Qed.
End write_once.

(** C36. A creation time, once stored, survives every sequence of writes: single and
    batched inserts and upserts, backfill batches, conditional and unconditional
    validation updates, with any failures among their statements. *)
Theorem record_created_at_write_once `{Env} u c ops d fs :
  created_at d u = Some c → created_at (run_ops ops d fs).1.2 u = Some c.
Proof.
  intros Hd. apply (run_ops_created (λ k o, k = u → o = Some c)); [|by intros k ->|done].
  intros k o j Hk E. by rewrite (Hk E).
Qed.

(** C37. Every stored creation time is in the column's form, YYYY-MM-DDTHH:MM:SS.mmmZ with a
    date and a time of day of the calendar, and is in UTC the instant, cut to milliseconds, that the strict parser read from some
    text: whatever is written and whichever statements fail, if the times stored before were so. *)
Theorem record_created_at_normal `{Env} ops d fs :
  (∀ u c, created_at d u = Some c → normal_datetime c) →
  ∀ u c, created_at (run_ops ops d fs).1.2 u = Some c → normal_datetime c.
Proof.
  intros Hd. apply (run_ops_created (λ _ o, ∀ c, o = Some c → normal_datetime c)); [|done].
  intros k [c|] j Ho c' E; [by apply Ho|]. by eapply created_at_normal.
Qed.

Lemma record_created_at_normal_witness :
  let e := example_env SQLite in
  created_at (run_ops [OpUpsert example_write] (empty_db 5) []).1.2 "at://did:plc:a/app.x/1" = Some "2024-01-02T03:04:05.006Z" ∧
  normal_datetime "2024-01-02T03:04:05.006Z".
Proof.
  intros e. assert (He : created_at (run_ops [OpUpsert example_write] (empty_db 5) []).1.2 "at://did:plc:a/app.x/1"
    = Some "2024-01-02T03:04:05.006Z") by by vm_compute.
  split; [exact He|]. refine (record_created_at_normal (H := e) [OpUpsert example_write] (empty_db 5) [] _ _ _ He). done.
Defined.

Lemma record_created_at_write_once_witness :
  let e := example_env PostgreSQL in
  let d := (UpsertWithValidation example_write (empty_db 5) []).1.2 in
  created_at (run_ops [OpUpsert example_write; OpInsert "at://did:plc:a/app.x/1" "c2" "" ""
    (quoted "{'createdAt':'2031-01-02T03:04:05.006Z'}")] d [false; true]).1.2 "at://did:plc:a/app.x/1"
  = Some "2024-01-02T03:04:05.006Z".
Proof.
  intros e d. apply (record_created_at_write_once (H := e)). by vm_compute.
Defined.
