(* ===== verification/BatchProps.v ===== *)
(** * Batched writes

    The batch upserts of the record repository agree with their single-row
    specification ([RecordProps.upserted]): duplicates are resolved, slices compose,
    same-CID rows are only repaired, and a batch is all or nothing. *)
From S2P Require Import Prelude GoStrings Effects Database RecordStore RecordProps.

Section batch.
Context `{Env}.

(** ** Slices of one statement *)

(** The result of upserting writes of distinct URIs one after the other. *)
Definition upserted_all (ws : list RecordWrite) (d d' : db) : Prop :=
  ∃ m, d' = set_records (λ _, m) d ∧
    (∀ w, w ∈ ws → ∃ r, m !! rw_uri w = Some r ∧ upserted w d Inserted r) ∧
    (∀ u, u ∉ (rw_uri <$> ws) → m !! u = db_records d !! u).

Lemma fold_upsert_spec ws d d' :
  NoDup (rw_uri <$> ws) → fold_rows validation_upsert_one ws d = Ok d' → upserted_all ws d d'.
Proof.
  revert d. induction ws as [|w ws IH]; simpl; intros d Hnd Hf.
  - inv Hf. exists (db_records d'). split; [by destruct d'|]. split; [|done]. by intros w ?%elem_of_nil.
  - apply NoDup_cons in Hnd as [Hw Hnd]. unfold mbind, outcome_bind in Hf.
    destruct (validation_upsert_one w d) as [d1|] eqn:E1; [|done].
    apply validation_upsert_one_spec in E1 as (r & -> & Hr).
    destruct (IH _ Hnd Hf) as (m & -> & Hin & Hout). simpl in Hout.
    exists m. split; [done|]. split.
    + intros w' [->|Hw']%elem_of_cons.
      * exists r. rewrite Hout, lookup_insert_eq by done. done.
      * destruct (Hin w' Hw') as (r' & ? & Hr'). exists r'. split; [done|].
        eapply upserted_ext, Hr'; [simpl|done]. apply lookup_insert_ne. intros Heq.
        apply Hw. rewrite Heq. by apply list_elem_of_fmap_2.
    + intros u Hu. rewrite Hout by set_solver. apply lookup_insert_ne. set_solver.
Qed.

Lemma fold_rows_app {A} (f : A → db → outcome db) xs ys d :
  fold_rows f (xs ++ ys) d = (d' ← fold_rows f xs d; fold_rows f ys d').
Proof.
  revert d. induction xs as [|x xs IH]; intros d; [done|].
  simpl. unfold mbind, outcome_bind in *. destruct (f x d); [by rewrite IH|done].
Qed.

Lemma batch_upsert_ok ws d fs d' fs' :
  batchUpsertWithValidationTx ws d fs = (Ok (), d', fs') →
  fold_rows validation_upsert_one ws d = Ok d'.
Proof.
  unfold batchUpsertWithValidationTx. intros (o & E & Ho)%wrap_inv. symmetry in Ho.
  apply wrap_err_inv in Ho as ->. apply stmt_ok_inv in E. unfold mbind, outcome_bind in E.
  destruct (upsert_conflict _); [|done]. destruct (fold_rows _ ws d); [|done]. by inv E.
Qed.

Lemma for_each_cons_ok {A} (f : A → M db unit) x xs d fs d' fs' :
  for_each f (x :: xs) d fs = (Ok (), d', fs') →
  ∃ d1 fs1, f x d fs = (Ok (), d1, fs1) ∧ for_each f xs d1 fs1 = (Ok (), d', fs').
Proof. simpl. intros (a & d1 & fs1 & E1 & E2)%bind_ok_inv. destruct a. eauto. Qed.

Lemma batches_upsert_ok cs d fs d' fs' :
  for_each batchUpsertWithValidationTx cs d fs = (Ok (), d', fs') →
  fold_rows validation_upsert_one (concat cs) d = Ok d'.
Proof.
  revert d fs. induction cs as [|c cs IH]; intros d fs Hrun; [by inv Hrun|].
  apply for_each_cons_ok in Hrun as (d1 & fs1 & E1%batch_upsert_ok & E2%IH).
  simpl. rewrite fold_rows_app. unfold mbind, outcome_bind. by rewrite E1.
Qed.

Lemma chunked_upsert_ok n ws d fs d' fs' :
  0 < n → NoDup (rw_uri <$> ws) →
  for_each batchUpsertWithValidationTx (chunks n ws) d fs = (Ok (), d', fs') →
  upserted_all ws d d'.
Proof. intros ? ? E%batches_upsert_ok. rewrite chunks_concat in E by done. by apply fold_upsert_spec. Qed.

(** ** Repairs of unchanged rows *)

Definition repaired (now : Z) (w : RecordWrite) (r : row) : row :=
  set_created_at (coalesce (row_record_created_at r) (column_text (recordCreatedAtValue (rw_json w))))
    (set_validation now (rw_validation_status w) (rw_validation_error w) (rw_lexicon_hash w) r).

Definition repair_row (now : Z) (ws : list RecordWrite) (u : string) (r : row) : row :=
  match incoming_match ws u r with Some w => repaired now w r | None => r end.

Lemma incoming_match_some ws u r w :
  incoming_match ws u r = Some w → w ∈ ws ∧ rw_uri w = u ∧ rw_cid w = row_cid r.
Proof.
  unfold incoming_match. intros Hh. apply head_Some_elem_of in Hh.
  by apply list_elem_of_filter in Hh as [[? ?] ?].
Qed.

Lemma incoming_match_in ws w r :
  NoDup (rw_uri <$> ws) → w ∈ ws → rw_cid w = row_cid r →
  incoming_match ws (rw_uri w) r = Some w.
Proof.
  intros Hnd Hw Hc. destruct (incoming_match ws (rw_uri w) r) as [w'|] eqn:E.
  - apply incoming_match_some in E as (Hw' & Hu & _). f_equal.
    apply list_elem_of_lookup in Hw as [i Hi]. apply list_elem_of_lookup in Hw' as [j Hj].
    assert (i = j) as ->; [|by simplify_eq].
    eapply (NoDup_lookup _ _ _ (rw_uri w)); [done| |]; rewrite list_lookup_fmap, ?Hi, ?Hj; simpl; congruence.
  - unfold incoming_match in E. destruct (filter _ ws) eqn:Ef; [|done].
    assert (w ∈ (filter (λ v, rw_uri v = rw_uri w ∧ rw_cid v = row_cid r) ws)) as Hin
      by (by apply list_elem_of_filter).
    rewrite Ef in Hin. by apply elem_of_nil in Hin.
Qed.

Lemma incoming_match_none ws u r :
  u ∉ (rw_uri <$> ws) → incoming_match ws u r = None.
Proof.
  intros Hu. destruct (incoming_match ws u r) as [w|] eqn:E; [|done].
  apply incoming_match_some in E as (? & <- & _). by destruct Hu; apply list_elem_of_fmap_2.
Qed.

Lemma batch_repair_ok ws d fs d' fs' :
  batchRepairBackfillValidationTx ws d fs = (Ok (), d', fs') →
  d' = set_records (map_imap (λ k r, Some (repair_row (db_clock d) ws k r))) d.
Proof.
  unfold batchRepairBackfillValidationTx. intros (n & d1 & fs1 & E & Hret)%bind_ok_inv.
  apply wrap_inv in E as (o & E & Ho). symmetry in Ho. apply wrap_err_inv in Ho as ->.
  apply stmt_ok_inv in E. unfold update_rows in E. injection E as _ <-.
  assert (d' = set_records (map_imap (λ k r, Some (if bool_decide (is_Some (incoming_match ws k r))
    then match incoming_match ws k r with Some w => repaired (db_clock d) w r | None => r end
    else r))) d) as ->.
  { destruct (n =? length ws); [|done]. by inv Hret. }
  unfold set_records. f_equal. apply map_eq. intros k. rewrite !map_lookup_imap.
  destruct (db_records d !! k) as [r|]; [simpl|done]. unfold repair_row.
  by destruct (incoming_match ws k r).
Qed.

Lemma repair_row_app now ws ws' u r :
  NoDup (rw_uri <$> ws ++ ws') →
  repair_row now ws' u (repair_row now ws u r) = repair_row now (ws ++ ws') u r.
Proof.
  intros Hnd. unfold repair_row at 3. unfold incoming_match. rewrite filter_app.
  unfold repair_row at 2. unfold incoming_match. destruct (filter _ ws) as [|w l] eqn:E; [done|].
  simpl. assert (w ∈ ws ∧ rw_uri w = u) as [Hw Hu].
  { assert (w ∈ (filter (λ w, rw_uri w = u ∧ rw_cid w = row_cid r) ws)) as Hin by (rewrite E; left).
    by apply list_elem_of_filter in Hin as [[? ?] ?]. }
  unfold repair_row. rewrite incoming_match_none; [done|].
  rewrite fmap_app in Hnd. apply NoDup_app in Hnd as (_ & Hd & _). apply Hd.
  subst u. by apply list_elem_of_fmap_2.
Qed.

Lemma chunked_repair_ok cs d fs d' fs' :
  NoDup (rw_uri <$> concat cs) →
  for_each batchRepairBackfillValidationTx cs d fs = (Ok (), d', fs') →
  d' = set_records (map_imap (λ k r, Some (repair_row (db_clock d) (concat cs) k r))) d.
Proof.
  revert d fs. induction cs as [|c cs IH]; intros d fs Hnd Hrun.
  - inv Hrun. destruct d' as [m ? ? ? ? ? ?]. unfold set_records. simpl. f_equal. apply map_eq. intros k.
    rewrite map_lookup_imap. by destruct (m !! k).
  - apply for_each_cons_ok in Hrun as (d1 & fs1 & ->%batch_repair_ok & E2%IH).
    2:{ simpl in Hnd. rewrite fmap_app in Hnd. by apply NoDup_app in Hnd as (_ & _ & ?). }
    rewrite E2. unfold set_records. simpl. f_equal. apply map_eq. intros k.
    rewrite !map_lookup_imap. destruct (db_records d !! k); [simpl|done]. by rewrite repair_row_app.
Qed.

(** ** Deduplication *)

(** What [normalizeBackfillRecordWrites] promises of the first [n] records. *)
Record normalized_upto (did : string) (records : list RecordWrite) (n : nat)
    (acc : list (RecordWrite * nat)) : Prop := {
  norm_lookup : ∀ w i, (w, i) ∈ acc → records !! i = Some w ∧ i < n;
  norm_nodup : NoDup ((λ p, rw_uri p.1) <$> acc);
  norm_did : ∀ w i, (w, i) ∈ acc → rw_did w = did;
  norm_cover : ∀ i w, i < n → records !! i = Some w →
    ∃ w0 j, (w0, j) ∈ acc ∧ j ≤ i ∧ rw_uri w0 = rw_uri w ∧
      (w0 = w ∨ backfillDuplicateConflict w0 w = "");
}.

Lemma normalize_loop_spec did pre post acc out :
  normalize_loop did post (length pre) acc = Ok out →
  normalized_upto did (pre ++ post) (length pre) acc →
  normalized_upto did (pre ++ post) (length (pre ++ post)) out.
Proof.
  revert pre acc. induction post as [|w post IH]; intros pre acc; cbn [normalize_loop].
  - intros [= ->] Hn. by rewrite app_nil_r in *.
  - unfold mbind, outcome_bind. destruct (validateRecordWrite w); [|done].
    destruct (String.eqb_spec (rw_did w) did) as [Hdid|]; [simpl|done].
    assert (Hat : (pre ++ w :: post) !! length pre = Some w) by by apply list_lookup_middle.
    assert (∀ acc', normalize_loop did post (S (length pre)) acc' = Ok out →
      normalized_upto did (pre ++ w :: post) (S (length pre)) acc' →
      normalized_upto did (pre ++ w :: post) (length (pre ++ w :: post)) out) as IH'.
    { intros acc' Hl Hn. specialize (IH (pre ++ [w]) acc'). rewrite length_app, Nat.add_1_r in IH.
      rewrite <- app_assoc in IH. by apply IH. }
    destruct (head _) as [[w0 j]|] eqn:Eh.
    + apply head_Some_elem_of, list_elem_of_filter in Eh as [Hu Hin].
      destruct (backfillDuplicateConflict w0 w =? "")%string eqn:Ec; [simpl|done].
      intros Hl [Hlk Hnd Hd Hcov]. apply (IH' acc Hl). split; [|done|done|].
      * intros w' i Hi. destruct (Hlk _ _ Hi). split; [done|lia].
      * intros i w' Hi Hw'. destruct (decide (i = length pre)) as [->|].
        -- rewrite Hat in Hw'. injection Hw' as <-. exists w0, j.
           destruct (Hlk _ _ Hin). split_and!; [done|lia|done|right]. by apply String.eqb_eq.
        -- apply Hcov; [lia|done].
    + intros Hl [Hlk Hnd Hd Hcov]. apply (IH' _ Hl). split.
      * intros w' i [Hi|Hi]%elem_of_app; [destruct (Hlk _ _ Hi); split; [done|lia]|].
        apply list_elem_of_singleton in Hi as [= -> ->]. split; [done|lia].
      * rewrite fmap_app. apply NoDup_app. split_and!; [done| |apply NoDup_singleton].
        intros u Hu Hw%list_elem_of_singleton. subst u.
        apply list_elem_of_fmap in Hu as ([w0 j] & Hw0 & Hin).
        assert ((w0, j) ∈ filter (λ p : RecordWrite * nat, rw_uri p.1 = rw_uri w) acc) as Hf
          by by apply list_elem_of_filter.
        destruct (filter _ acc); [by apply elem_of_nil in Hf|done].
      * intros w' i [Hi|Hi]%elem_of_app; [by eapply Hd|].
        by apply list_elem_of_singleton in Hi as [= -> ->].
      * intros i w' Hi Hw'. destruct (decide (i = length pre)) as [->|].
        -- rewrite Hat in Hw'. injection Hw' as <-. exists w, (length pre).
           split_and!; [|lia|done|by left]. apply elem_of_app. right. by left.
        -- destruct (Hcov i w') as (w0 & j & ? & ?); [lia|done|]. exists w0, j.
           split; [|done]. apply elem_of_app. by left.
Qed.

Lemma normalizeBackfillRecordWrites_spec did records out :
  normalizeBackfillRecordWrites did records = Ok out →
  normalized_upto did records (length records) out.
Proof.
  unfold normalizeBackfillRecordWrites. case_decide; [intros [= <-]; subst|].
  { split; [|constructor| |]; try (by intros ? ? ?%elem_of_nil). simpl. lia. }
  destruct (did =? "")%string; [done|]. intros Hl.
  apply (normalize_loop_spec did [] records []); [done|].
  split; [|constructor| |]; try (by intros ? ? ?%elem_of_nil). simpl. lia.
Qed.

(** ** Classification *)

Lemma cids_of_lookup uris m u :
  cids_of uris m !! u = if decide (u ∈ uris) then row_cid <$> m !! u else None.
Proof.
  unfold cids_of. rewrite lookup_fmap, map_lookup_filter. destruct (m !! u); simpl.
  - case_decide; [by rewrite option_guard_True|by rewrite option_guard_False].
  - by case_decide.
Qed.

Lemma getCIDs_loop_ok batches acc d fs cids d' fs' :
  getCIDsByURIsTx_loop batches acc d fs = (Ok cids, d', fs') →
  d' = d ∧ ∀ u, cids !! u = (if decide (u ∈ concat batches) then
    (match row_cid <$> db_records d !! u with Some c => Some c | None => acc !! u end) else acc !! u).
Proof.
  revert acc fs. induction batches as [|b bs IH]; intros acc fs; cbn [getCIDsByURIsTx_loop].
  - intros Hr. inv Hr. done.
  - intros (found & d1 & fs1 & Eq & E)%bind_ok_inv.
    apply query_state in Eq as [-> Hq]. specialize (Hq _ eq_refl) as ->.
    apply IH in E as [-> Hl]. split; [done|]. intros u. rewrite Hl, lookup_union, cids_of_lookup. simpl.
    destruct (decide (u ∈ b ++ concat bs)) as [Hi|Hi]; rewrite elem_of_app in Hi;
      destruct (decide (u ∈ b)), (decide (u ∈ concat bs)); try tauto;
      by destruct (db_records d !! u), (acc !! u).
Qed.

Lemma getCIDs_ok uris d fs cids d' fs' :
  getCIDsByURIsTx uris d fs = (Ok cids, d', fs') → d' = d ∧ cids = cids_of uris (db_records d).
Proof.
  unfold getCIDsByURIsTx. intros [-> Hl]%getCIDs_loop_ok. split; [done|].
  apply map_eq. intros u. rewrite Hl, cids_of_lookup, chunks_concat, lookup_empty by (unfold SQLParamBatchSize; lia).
  case_decide; [|done]. by destruct (db_records d !! u).
Qed.

(** ** The backfill batch *)

Lemma repaired_upserted w d r :
  db_records d !! rw_uri w = Some r → rw_cid w ≠ "" → row_cid r = rw_cid w →
  upserted w d Skipped (repaired (db_clock d) w r).
Proof.
  intros Hr Hc Heq. split; unfold repaired; simpl;
    rewrite ?null_string_nullable, ?column_text_created_at, ?Hr; try done.
  by eauto 10.
Qed.

Lemma is_repair_spec w uris d :
  rw_uri w ∈ uris → is_repair (cids_of uris (db_records d)) w = true →
  rw_cid w ≠ "" ∧ ∃ r, db_records d !! rw_uri w = Some r ∧ row_cid r = rw_cid w.
Proof.
  unfold is_repair. rewrite cids_of_lookup. intros Hin. rewrite decide_True by done.
  intros [Hne Heq]%andb_prop. apply negb_true_iff, String.eqb_neq in Hne.
  split; [done|]. apply String.eqb_eq in Heq.
  destruct (db_records d !! rw_uri w) as [r|]; simpl in Heq; [by eauto|by rewrite <- Heq in Hne].
Qed.

Lemma norm_uris did records norm :
  normalized_upto did records (length records) norm →
  ∀ u, u ∈ ((λ p, rw_uri p.1) <$> norm) ↔ u ∈ (rw_uri <$> records).
Proof.
  intros [Hlk _ _ Hcov] u. rewrite !list_elem_of_fmap. split.
  - intros ([w i] & -> & Hin). destruct (Hlk _ _ Hin) as [Hi _].
    exists w. split; [done|]. by eapply list_elem_of_lookup_2.
  - intros (w & -> & [i Hi]%list_elem_of_lookup).
    destruct (Hcov i w) as (w0 & j & ? & _ & ? & _); [by eapply lookup_lt_Some|done|].
    by exists (w0, j).
Qed.

(** The two lists a batch is split into. *)
Definition batch_part (b : bool) (cids : gmap string string) (norm : list (RecordWrite * nat)) :=
  filter (λ p : RecordWrite * nat, is_repair cids p.1 = b) norm.

Lemma batch_part_uris b cids norm u :
  u ∈ (rw_uri <$> (batch_part b cids norm).*1) ↔ ∃ p, p ∈ norm ∧ is_repair cids p.1 = b ∧ rw_uri p.1 = u.
Proof.
  rewrite <- list_fmap_compose, list_elem_of_fmap. unfold batch_part. split.
  - intros (p & -> & [? ?]%list_elem_of_filter). eauto.
  - intros (p & ? & ? & <-). exists p. by rewrite list_elem_of_filter.
Qed.

Lemma batch_part_nodup b cids norm :
  NoDup ((λ p, rw_uri p.1) <$> norm) → NoDup (rw_uri <$> (batch_part b cids norm).*1).
Proof.
  rewrite <- list_fmap_compose. intros Hnd.
  eapply sublist_NoDup; [exact Hnd|]. apply fmap_sublist, sublist_filter.
Qed.

Lemma batch_part_disjoint cids norm u :
  NoDup ((λ p, rw_uri p.1) <$> norm) → u ∈ (rw_uri <$> (batch_part true cids norm).*1) →
  u ∉ (rw_uri <$> (batch_part false cids norm).*1).
Proof.
  intros Hnd. rewrite !batch_part_uris. intros (p & Hp & Hb & Hu) (q & Hq & Hb' & Hu').
  apply list_elem_of_lookup in Hp as [i Hi]. apply list_elem_of_lookup in Hq as [j Hj].
  assert (i = j) as ->; [|congruence].
  eapply (NoDup_lookup _ _ _ u); [done| |]; rewrite list_lookup_fmap, ?Hi, ?Hj; simpl; congruence.
Qed.

(** The body of the transaction, in terms of the two lists. *)
Lemma backfill_body_ok norm d d1 d' fs fs1 fs2 fs3 :
  NoDup ((λ p, rw_uri p.1) <$> norm) →
  let cids := cids_of ((λ p, rw_uri p.1) <$> norm) (db_records d) in
  for_each batchUpsertWithValidationTx (chunks ValidationBatchUpsertSize (batch_part false cids norm).*1)
    d fs = (Ok (), d1, fs1) →
  for_each batchRepairBackfillValidationTx (chunks ValidationBatchUpsertSize (batch_part true cids norm).*1)
    d1 fs2 = (Ok (), d', fs3) →
  (∃ m, d' = set_records (λ _, m) d) ∧
  (∀ w i, (w, i) ∈ norm → ∃ r, db_records d' !! rw_uri w = Some r ∧
     upserted w d (if is_repair cids w then Skipped else Inserted) r) ∧
  (∀ u, u ∉ ((λ p, rw_uri p.1) <$> norm) → db_records d' !! u = db_records d !! u).
Proof.
  intros Hnd cids H1 H2.
  apply chunked_upsert_ok in H1 as (m & -> & Hin & Hout);
    [|unfold ValidationBatchUpsertSize; lia|by apply batch_part_nodup].
  apply chunked_repair_ok in H2 as ->;
    rewrite ?chunks_concat in * by (unfold ValidationBatchUpsertSize; lia); [|by apply batch_part_nodup].
  unfold set_records. simpl. split; [by eexists|]. split.
  - intros w i Hwi. rewrite map_lookup_imap. simpl.
    assert (Hu : rw_uri w ∈ ((λ p : RecordWrite * nat, rw_uri p.1) <$> norm))
      by (apply list_elem_of_fmap; by exists (w, i)).
    assert (Hb : rw_uri w ∈ (rw_uri <$> (batch_part (is_repair cids w) cids norm).*1))
      by (apply batch_part_uris; by exists (w, i)).
    assert (Hw1 : w ∈ (batch_part (is_repair cids w) cids norm).*1).
    { apply list_elem_of_fmap. exists (w, i). split; [done|]. by apply list_elem_of_filter. }
    destruct (is_repair cids w) eqn:Er.
    + apply is_repair_spec in Er as (Hc & r & Hr & Hcid); [|done].
      rewrite Hout, Hr by (by apply batch_part_disjoint). simpl. eexists. split; [done|].
      unfold repair_row. erewrite incoming_match_in by (by try apply batch_part_nodup).
      by apply repaired_upserted.
    + destruct (Hin w Hw1) as (r & Hr & Hup). rewrite Hr. simpl. eexists. split; [done|].
      unfold repair_row. rewrite incoming_match_none; [done|]. intros Ht.
      by eapply batch_part_disjoint.
  - intros u Hu. rewrite map_lookup_imap. simpl. rewrite Hout.
    + destruct (db_records d !! u); [simpl|done]. unfold repair_row.
      rewrite incoming_match_none; [done|]. rewrite batch_part_uris. intros (p & Hp & _ & <-).
      apply Hu, list_elem_of_fmap. by exists p.
    + rewrite batch_part_uris. intros (p & Hp & _ & <-). apply Hu, list_elem_of_fmap. by exists p.
Qed.

Lemma batch_part_indices b cids did records norm w i :
  normalized_upto did records (length records) norm → (w, i) ∈ norm →
  i ∈ (batch_part b cids norm).*2 ↔ is_repair cids w = b.
Proof.
  intros [Hlk _ _ _] Hin. rewrite list_elem_of_fmap. unfold batch_part. split.
  - intros ([w' i'] & Hi & [Hb Hin']%list_elem_of_filter). simpl in *. subst i'.
    destruct (Hlk _ _ Hin), (Hlk _ _ Hin'). congruence.
  - intros Hb. exists (w, i). by rewrite list_elem_of_filter.
Qed.

Lemma batch_part_length cids norm :
  length (batch_part false cids norm).*2 + length (batch_part true cids norm) = length norm.
Proof.
  rewrite length_fmap. unfold batch_part. induction norm as [|p norm IH]; [done|].
  rewrite !filter_cons. destruct (is_repair cids p.1); simpl; repeat case_decide; simpl; try done; lia.
Qed.

Lemma distinct_length {A} (f : A → string) (l : list A) (us : list string) :
  NoDup (f <$> l) → (∀ u, u ∈ (f <$> l) ↔ u ∈ us) →
  length l = size (list_to_set us : gset string).
Proof.
  intros Hnd Heq. rewrite <- (length_fmap f l), <- (size_list_to_set (C := gset string)) by done.
  f_equal. apply set_eq. intros u. by rewrite !elem_of_list_to_set.
Qed.

(** What a backfill batch leaves behind. *)
Record backfilled (records : list RecordWrite) (d : db) (res : BackfillBatchResult) (d' : db) : Prop := {
  bf_frame : ∃ m, d' = set_records (λ _, m) d;
  bf_rows : ∀ i w, records !! i = Some w → ∃ j w0 r,
    j ≤ i ∧ records !! j = Some w0 ∧ rw_uri w0 = rw_uri w ∧
    (w0 = w ∨ backfillDuplicateConflict w0 w = "") ∧
    db_records d' !! rw_uri w = Some r ∧
    upserted w0 d (if decide (j ∈ ChangedIndices res) then Inserted else Skipped) r;
  bf_others : ∀ u, u ∉ (rw_uri <$> records) → db_records d' !! u = db_records d !! u;
  bf_count : length (ChangedIndices res) + SkippedCount res
    = size (list_to_set (rw_uri <$> records) : gset string);
}.

Lemma backfill_contract did records d fs o d' fs' :
  BatchUpsertWithValidationForBackfill did records d fs = (o, d', fs') →
  match o with Ok res => backfilled records d res d' | Err _ => d' = d end.
Proof.
  unfold BatchUpsertWithValidationForBackfill. intros Hrun.
  bind_cases Hrun; apply of_outcome_inv in E as [Hn ->]; [|by inv Hrun].
  apply normalizeBackfillRecordWrites_spec in Hn.
  pose proof (norm_uris _ _ _ Hn) as Hu.
  assert (Hlen := distinct_length (λ p, rw_uri p.1) _ _ (norm_nodup _ _ _ _ Hn) Hu).
  rename a into norm. destruct (decide (norm = [])) as [->|_].
  { inv Hrun. simpl in *. split; simpl; [by exists (db_records d'); destruct d'| |done|done].
    intros i w Hi. destruct (norm_cover _ _ _ _ Hn i w) as (? & ? & []%elem_of_nil & _);
      [by eapply lookup_lt_Some|done]. }
  destruct o as [res|]; [|by apply transaction_err in Hrun].
  apply transaction_ok in Hrun as [fs1 Hrun]. revert Hrun.
  intros (u0 & d1 & fs2 & E1 & Hrun)%bind_ok_inv.
  apply wrap_inv in E1 as (o1 & E1 & Ho1). symmetry in Ho1. apply wrap_err_inv in Ho1 as ->.
  destruct u0. apply exec_ok_inv in E1 as ->.
  apply bind_ok_inv in Hrun as (cids & d2 & fs3 & E2 & Hrun).
  apply wrap_inv in E2 as (o1 & E2 & Ho1). symmetry in Ho1. apply wrap_err_inv in Ho1 as ->.
  apply getCIDs_ok in E2 as [-> ->].
  apply bind_ok_inv in Hrun as ([] & d3 & fs4 & E3 & Hrun).
  apply bind_ok_inv in Hrun as ([] & d4 & fs5 & E4 & Hrun).
  injection Hrun as <- -> _.
  destruct (backfill_body_ok _ _ _ _ _ _ _ _ (norm_nodup _ _ _ _ Hn) E3 E4) as (Hf & Hin & Hout).
  split; simpl; [done| | |].
  - intros i w Hi. destruct (norm_cover _ _ _ _ Hn i w) as (w0 & j & Hj & Hle & Heq & Hc);
      [by eapply lookup_lt_Some|done|].
    destruct (norm_lookup _ _ _ _ Hn _ _ Hj) as [Hlk _].
    destruct (Hin _ _ Hj) as (r & Hr & Hup). exists j, w0, r.
    split_and!; [done..|by rewrite <- Heq|]. revert Hup.
    pose proof (batch_part_indices false (cids_of ((λ p, rw_uri p.1) <$> norm) (db_records d))
      _ _ _ _ _ Hn Hj) as Hidx. unfold batch_part in Hidx.
    destruct (is_repair _ w0); case_decide; naive_solver.
  - intros u Hnu. apply Hout. by rewrite Hu.
  - rewrite <- Hlen. apply (batch_part_length (cids_of ((λ p, rw_uri p.1) <$> norm) (db_records d))).
Qed.

(** C2. A backfill batch is atomic and equals its per-record contract: any failure
    leaves the database as it was; on success every URI of the input holds the row
    that the first write of that URI calls for ([Inserted] content if its index is
    among the changed ones, repaired metadata of an unchanged row otherwise), a later
    duplicate agrees with that first write, no other row changes, and the result
    counts each distinct URI once. *)
Theorem BatchUpsertWithValidationForBackfill_correct did records d fs :
  match BatchUpsertWithValidationForBackfill did records d fs with
  | (Ok res, d', _) => backfilled records d res d'
  | (Err _, d', _) => d' = d
  end.
Proof.
  destruct (BatchUpsertWithValidationForBackfill did records d fs) as [[o d'] fs'] eqn:E.
  by apply backfill_contract in E.
Qed.

(** ** Conditional validation updates *)

(** Compare and set: revalidation writes its verdict only if the row still has
    the CID and JSON it read. Success is reported exactly when it wrote; then only
    the validation columns of that one row changed; otherwise nothing did. *)
Theorem UpdateValidationStatusIfUnchanged_cas o status err hash d fs :
  match UpdateValidationStatusIfUnchanged (Some o) status err hash d fs with
  | (Ok true, d', _) => ∃ r, db_records d !! rec_uri o = Some r ∧ row_cid r = rec_cid o ∧
      store_json (rec_json o) = Ok (row_json r) ∧
      d' = set_records (<[rec_uri o := set_validation (db_clock d) status err hash r]>) d
  | (Ok false, d', _) => d' = d ∧ ∀ r, db_records d !! rec_uri o = Some r →
      ¬ (row_cid r = rec_cid o ∧ store_json (rec_json o) = Ok (row_json r))
  | (Err _, d', _) => d' = d
  end.
Proof.
  destruct (UpdateValidationStatusIfUnchanged _ _ _ _ d fs) as [[res d'] fs'] eqn:E.
  unfold UpdateValidationStatusIfUnchanged in E. apply wrap_inv in E as (res' & E & ->).
  destruct res' as [b|]; simpl; [|by apply stmt_err_inv in E].
  apply stmt_ok_inv in E. unfold mbind, outcome_bind in E.
  destruct (store_json (rec_json o)) as [json|]; [|done].
  pose proof (update_rows_one (rec_uri o)
    (λ r, (row_cid r =? rec_cid o)%string && (row_json r =? json)%string)
    (set_validation (db_clock d) status err hash) d) as Hu.
  rewrite (update_rows_ext _ (λ u r, (u =? rec_uri o)%string &&
    ((row_cid r =? rec_cid o)%string && (row_json r =? json)%string))) in E
    by (intros; by rewrite andb_assoc).
  rewrite Hu in E. destruct (db_records d !! rec_uri o) as [r|]; [|by inv E].
  destruct (String.eqb_spec (row_cid r) (rec_cid o)), (String.eqb_spec (row_json r) json);
    simpl in E; inv E; [by exists r|..];
    split; try done; intros r' Hr' [? Hj]; congruence.
Qed.
End batch.
