(* ===== verification/DeleteProps.v ===== *)
(** * Deletion and purge

    Deletes take the version history with the record, in one transaction; a purge
    leaves nothing of an actor behind. The generated [rkey] column is the last part
    of a record's AT-URI in both dialects. *)
From S2P Require Import Prelude GoStrings Effects Database RecordStore RecordProps.

Section delete.
Context `{Env}.

Lemma wrap_exec_ok {S} msg (f : S → S) s fs s' fs' :
  wrap msg (exec f) s fs = (Ok (), s', fs') → s' = f s.
Proof.
  intros (o & E & Ho)%wrap_inv. symmetry in Ho. apply wrap_err_inv in Ho as ->.
  by apply exec_ok_inv in E.
Qed.

Lemma delete_by_uri uri d :
  delete_records (row_matches by_uri uri) d = set_records (delete uri) d.
Proof.
  unfold delete_records, set_records. f_equal. apply map_eq. intros k.
  rewrite map_lookup_filter. destruct (decide (k = uri)) as [->|Hne].
  - rewrite lookup_delete_eq. destruct (db_records d !! uri); [|done]. simpl.
    by rewrite option_guard_False by (by rewrite String.eqb_refl).
  - rewrite lookup_delete_ne by done. destruct (db_records d !! k); [|done]. simpl.
    by rewrite option_guard_True by (by apply String.eqb_neq).
Qed.

Definition without_versions (uri : string) (d : db) : db :=
  set_versions (filter (λ v, (ver_uri v =? uri)%string = false)) d.

Lemma delete_returning_spec uri d fs o d' fs' :
  DeleteReturning uri d fs = (o, d', fs') →
  match o with
  | Ok (Some x) => d' = set_records (delete uri) (without_versions uri d) ∧
      ∃ r, db_records d !! uri = Some r ∧ scan_record (uri, r) = Ok x
  | Ok None => d' = without_versions uri d ∧ db_records d !! uri = None
  | Err _ => d' = d
  end.
Proof.
  intros E. destruct o as [x|]; [|by apply transaction_err in E].
  apply transaction_ok in E as [fs1 E].
  apply bind_ok_inv in E as ([] & d1 & fs2 & ->%wrap_exec_ok & E).
  apply stmt_ok_inv in E. unfold delete_versions in E. simpl in E.
  destruct (db_records d !! uri) as [r|] eqn:Er; [|by inv E].
  unfold mbind, outcome_bind in E. destruct (scan_record (uri, r)) as [y|] eqn:Es; [|done].
  injection E as <- <-. split; [|by eauto].
  change (delete_records (row_matches by_uri uri) (without_versions uri d)
    = set_records (delete uri) (without_versions uri d)).
  apply delete_by_uri.
Qed.

(** Deletion is all or nothing and takes the version history along: on success
    the row of the URI and every version of it are gone and nothing else changed, and
    [DeleteReturning] hands back that row; any failure leaves the database as it was. *)
Theorem DeleteReturning_atomic uri d fs :
  match DeleteReturning uri d fs with
  | (Ok (Some x), d', _) => d' = set_records (delete uri) (without_versions uri d) ∧
      ∃ r, db_records d !! uri = Some r ∧ scan_record (uri, r) = Ok x
  | (Ok None, d', _) => d' = without_versions uri d ∧ db_records d !! uri = None
  | (Err _, d', _) => d' = d
  end.
Proof.
  destruct (DeleteReturning uri d fs) as [[o d'] fs'] eqn:E.
  apply delete_returning_spec in E. by destruct o as [[]|].
Qed.

(** The database without anything of an actor. *)
Definition without_actor (did : string) (d : db) : db :=
  mkDb (filter (λ kv : string * row, row_did kv.2 ≠ did) (db_records d))
    (filter (λ v, ver_did v ≠ did) (db_versions d)) (db_next_version d)
    (delete did (db_actors d)) (db_activity d) (db_next_activity d) (db_clock d)
    (db_labels d) (db_next_label d) (db_label_states d).

Lemma purge_spec did d fs o d' fs' :
  PurgeActorData did d fs = (o, d', fs') →
  match o with Ok _ => d' = without_actor did d | Err _ => d' = d end.
Proof.
  intros E. destruct o as [x|]; [|by apply transaction_err in E].
  apply transaction_ok in E as [fs1 E].
  apply bind_ok_inv in E as ([] & d1 & fs2 & ->%wrap_exec_ok & E).
  apply bind_ok_inv in E as ([] & d2 & fs3 & ->%wrap_exec_ok & E).
  destruct x. apply wrap_exec_ok in E as ->.
  unfold without_actor, delete_versions, delete_records, set_actors, set_versions, set_records. simpl. f_equal.
  - apply map_filter_ext. intros k r _. simpl. apply String.eqb_neq.
  - apply list_filter_iff. intros v. simpl. apply String.eqb_neq.
Qed.

(** Purging an account removes its records, its version history and its actor
    row, and nothing that belongs to another account; any failure undoes the whole
    purge, and without a fault the purge succeeds. *)
Theorem PurgeActorData_complete did d fs :
  (match PurgeActorData did d fs with
   | (Ok _, d', _) => d' = without_actor did d
   | (Err _, d', _) => d' = d
   end) ∧ (fs = [] → is_ok (PurgeActorData did d fs).1.1 = true).
Proof.
  split; [|by intros ->].
  destruct (PurgeActorData did d fs) as [[o d'] fs'] eqn:E. apply purge_spec in E. by destruct o.
Qed.

Lemma PurgeActorData_complete_witness :
  let _ := example_env SQLite in
  is_ok (PurgeActorData "did:plc:a" (empty_db 1) []).1.1 = true.
Proof. by apply (PurgeActorData_complete "did:plc:a" (empty_db 1) []). Defined.

(** ** The generated [rkey] column *)

Lemma sql_substr_at_uri did collection rkey :
  sql_substr (at_uri did collection rkey) 6 = did +:+ String slash (collection +:+ String slash rkey).
Proof. reflexivity. Qed.

(** Migration 002's generated column extracts the record key from the AT-URI of
    a record, with SQLite's instr/substr arithmetic and with PostgreSQL's regular
    expression alike. *)
Theorem rkey_column_at_uri did collection rkey :
  no_byte slash did = true → no_byte slash collection = true → no_byte slash rkey = true →
  rkey ≠ "" → rkey_column (at_uri did collection rkey) = Some rkey.
Proof.
  intros Hd Hc Hr Hne. unfold rkey_column. destruct dialect.
  - f_equal. rewrite sql_substr_at_uri. unfold sql_instr.
    rewrite sql_instr_go_spec by done.
    set (a := String.length did + 1).
    assert (Ha : sql_substr (at_uri did collection rkey) (a + 6) = collection +:+ String slash rkey).
    { unfold sql_substr. replace (a + 6 - 1) with (5 + a) by lia. rewrite sdrop_add.
      apply (sdrop_append_S did slash). }
    rewrite Ha, sql_instr_go_spec by done.
    unfold sql_substr in *.
    replace (String.length collection + 1 + a + 6 - 1) with ((a + 6 - 1) + (String.length collection + 1)) by lia.
    rewrite sdrop_add, Ha. apply sdrop_append_S.
  - assert (split slash (at_uri did collection rkey) = ["at:"; ""; did; collection; rkey]) as ->.
    { unfold at_uri. change ("at://" +:+ ?x) with ("at:" +:+ String slash ("" +:+ String slash x)).
      unfold split. rewrite !split_go_app by done. unfold split. rewrite !split_go_app by done.
      unfold split. rewrite !split_go_app by done. unfold split. rewrite !split_go_app by done.
      unfold split. by rewrite split_go_last. }
    simpl. by destruct rkey.
Qed.
End delete.

Lemma rkey_column_at_uri_witness :
  rkey_column (H := example_env SQLite) "at://did:plc:a/app.x/3k" = Some "3k".
Proof.
  apply (rkey_column_at_uri (H := example_env SQLite) "did:plc:a" "app.x" "3k"); by vm_compute.
Defined.
