(* ===== verification/Config.v ===== *)
(** * The configuration table

    src/internal/database/repositories/config.go: settings by key, their defaults, and the
    list of administrators. The state is the table's values by key; [updated_at] is only
    written and left out. *)
From S2P Require Import Prelude GoStrings Effects.

Notation config := (gmap string string).

Definition DefaultRelayURL : string := "https://relay1.us-west.bsky.network".
Definition DefaultPLCDirectoryURL : string := "https://plc.directory".
Definition DefaultJetstreamURL : string := "wss://jetstream2.us-west.bsky.network/subscribe".
Definition DefaultOAuthSupportedScopes : string := "atproto transition:generic".

Definition Get (key : string) : M config string :=
  stmt (λ c, match c !! key with
    | Some value => Ok (value, c)
    | None => Err ("config key not found: " +:+ key) end).

Definition Set_ (key value : string) : M config unit := exec (<[ key := value ]>).
Definition Delete (key : string) : M config unit := exec (delete key).
Definition DeleteDomainAuthority : M config unit := Delete "domain_authority".

(** [Get] with a default for any error. *)
Definition get_or (key dflt : string) : M config string :=
  value ← attempt (Get key);
  mret (match value with Ok v => v | Err _ => dflt end).

(** The trimmed parts of a separated list that are not empty. *)
Definition trimmed_parts (sep : Ascii.ascii) (value : string) : list string :=
  filter (λ s, s ≠ "") (trim_space <$> split sep value).

(** ** Administrators *)

Definition admin_key : string := "admin_dids".

Definition GetAdminDIDs : M config (list string) :=
  value ← attempt (Get admin_key);
  mret (match value with Err _ => [] | Ok v => trimmed_parts comma v end).

Definition SetAdminDIDs (dids : list string) : M config unit := Set_ admin_key (join (byte_str comma) dids).

Definition AddAdminDID (did : string) : M config unit :=
  current ← GetAdminDIDs;
  if bool_decide (did ∈ current) then mret tt
  else Set_ admin_key (join (byte_str comma) (current ++ [did])).

(** [RemoveAdminError]'s texts. *)
Definition RemoveAdminLastAdmin : string := "cannot remove the last admin".
Definition RemoveAdminNotFound : string := "admin DID not found".
Definition RemoveAdminDatabaseError : string := "database error".

Definition RemoveAdminDID (did : string) : M config (list string) :=
  current ← GetAdminDIDs;
  let newList := filter (λ d, d ≠ did) current in
  if negb (bool_decide (did ∈ current)) then throw RemoveAdminNotFound
  else if bool_decide (newList = []) then throw RemoveAdminLastAdmin
  else
    written ← attempt (Set_ admin_key (join (byte_str comma) newList));
    match written with
    | Err _ => throw RemoveAdminDatabaseError
    | Ok _ => mret newList
    end.

Definition IsAdmin (did : string) : M config bool := (λ admins, bool_decide (did ∈ admins)) <$> GetAdminDIDs.
Definition HasAdmins : M config bool := (λ admins, 0 <? length admins) <$> GetAdminDIDs.

(** ** Services *)

Definition GetRelayURL : M config string := get_or "relay_url" DefaultRelayURL.
Definition GetPLCDirectoryURL (override : string) : M config string :=
  if negb (override =? "")%string then mret override else get_or "plc_directory_url" DefaultPLCDirectoryURL.
Definition GetJetstreamURL : M config string := get_or "jetstream_url" DefaultJetstreamURL.
Definition GetOAuthSupportedScopes : M config string := get_or "oauth_supported_scopes" DefaultOAuthSupportedScopes.
Definition GetOAuthSupportedScopesList : M config (list string) := trimmed_parts space <$> GetOAuthSupportedScopes.

Definition SetRelayURL : string → M config unit := Set_ "relay_url".
Definition SetPLCDirectoryURL : string → M config unit := Set_ "plc_directory_url".
Definition SetJetstreamURL : string → M config unit := Set_ "jetstream_url".
Definition SetOAuthSupportedScopes : string → M config unit := Set_ "oauth_supported_scopes".

Definition default_config : list (string * string) :=
  [("relay_url", DefaultRelayURL); ("plc_directory_url", DefaultPLCDirectoryURL);
   ("jetstream_url", DefaultJetstreamURL); ("oauth_supported_scopes", DefaultOAuthSupportedScopes)].

Definition initialize_default (e : string * string) : M config unit :=
  value ← attempt (Get e.1);
  match value with
  | Ok _ => mret tt
  | Err _ => Set_ e.1 e.2
  end.

(** [defaults]: the entries of the map in the order Go ranges over them. *)
Definition InitializeDefaults (defaults : list (string * string)) : M config unit := for_each initialize_default defaults.

(** ** Administrators are a set

    The stored text stands for a list of accounts: adding, removing and asking work on
    that list, whatever statement fails nobody is locked out by a removal, and what a
    failed read does to an addition. *)

Implicit Types (c : config) (l : list string) (d : string).

(** An account as the list stores it. *)
Definition plain_account d : Prop := d ≠ "" ∧ trim_space d = d ∧ no_byte comma d = true.

(** The table holds the list [l] of administrators. *)
Definition admin_list c l : Prop :=
  Forall plain_account l ∧ match c !! admin_key with Some v => v = join (byte_str comma) l | None => l = [] end.

Lemma filter_plain l : Forall plain_account l → filter (λ s, s ≠ "") (trim_space <$> l) = l.
Proof.
  induction 1 as [|d l (Hne & Htrim & _) _ IH]; [done|]. rewrite fmap_cons, Htrim, filter_cons_True by done. by rewrite IH.
Qed.

Lemma parse_joined l : Forall plain_account l → trimmed_parts comma (join (byte_str comma) l) = l.
Proof.
  intros Hl. unfold trimmed_parts. destruct l as [|d l]; [by vm_compute|].
  rewrite split_join; [by apply filter_plain|done|]. eapply Forall_impl; [exact Hl|]. by intros ? (_ & _ & ?).
Qed.

Lemma get_admins c l fs :
  admin_list c l →
  GetAdminDIDs c fs = match fs with true :: fs' => (Ok [], c, fs') | _ => (Ok l, c, tl fs) end.
Proof.
  intros [Hl Hc]. unfold GetAdminDIDs, Get, attempt, stmt, mbind, M_bind.
  assert (Hread : match c !! admin_key with Some v => trimmed_parts comma v | None => [] end = l).
  { destruct (c !! admin_key); subst; [by apply parse_joined|done]. }
  destruct fs as [|[] fs]; [|done|]; destruct (c !! admin_key); cbn; by rewrite Hread.
Qed.

Lemma admin_list_set c l : Forall plain_account l → admin_list (<[ admin_key := join (byte_str comma) l ]> c) l.
Proof. intros Hl. split; [done|]. by rewrite lookup_insert_eq. Qed.

(** The list after an addition. *)
Definition with_admin d l : list string := if decide (d ∈ l) then l else l ++ [d].

Lemma add_admin c l d fs :
  admin_list c l → plain_account d →
  AddAdminDID d c fs = match fs with
    | true :: fs' => Set_ admin_key d c fs'
    | _ => if decide (d ∈ l) then (Ok tt, c, tl fs) else Set_ admin_key (join (byte_str comma) (l ++ [d])) c (tl fs)
    end.
Proof.
  intros Hc Hd. unfold AddAdminDID, mbind, M_bind. rewrite (get_admins c l) by done.
  destruct fs as [|[] fs]; [|done|]; case_bool_decide; by case_decide.
Qed.

Lemma remove_admin c l d fs :
  admin_list c l →
  RemoveAdminDID d c fs = match fs with
    | true :: fs' => (Err RemoveAdminNotFound, c, fs')
    | _ =>
        if decide (d ∈ l) then
          if decide (filter (λ d', d' ≠ d) l = []) then (Err RemoveAdminLastAdmin, c, tl fs)
          else match tl fs with
            | true :: fs' => (Err RemoveAdminDatabaseError, c, fs')
            | _ => (Ok (filter (λ d', d' ≠ d) l), <[ admin_key := join (byte_str comma) (filter (λ d', d' ≠ d) l) ]> c, tl (tl fs))
            end
        else (Err RemoveAdminNotFound, c, tl fs)
    end.
Proof.
  intros Hc. unfold RemoveAdminDID, mbind, M_bind. rewrite (get_admins c l) by done.
  assert (Hwrite : ∀ fs0 : faults, (if negb (bool_decide (d ∈ l)) then throw RemoveAdminNotFound
      else if bool_decide (filter (λ d', d' ≠ d) l = []) then throw RemoveAdminLastAdmin
      else λ c fs, match attempt (Set_ admin_key (join (byte_str comma) (filter (λ d', d' ≠ d) l))) c fs with
        | (Ok a, c', fs') => match a with Ok _ => mret (filter (λ d', d' ≠ d) l) | Err _ => throw RemoveAdminDatabaseError end c' fs'
        | (Err e, c', fs') => (Err e, c', fs') end) c fs0 =
    if decide (d ∈ l) then
      if decide (filter (λ d', d' ≠ d) l = []) then (Err RemoveAdminLastAdmin, c, fs0)
      else match fs0 with
        | true :: fs' => (Err RemoveAdminDatabaseError, c, fs')
        | _ => (Ok (filter (λ d', d' ≠ d) l), <[ admin_key := join (byte_str comma) (filter (λ d', d' ≠ d) l) ]> c, tl fs0)
        end
    else (Err RemoveAdminNotFound, c, fs0)).
  { intros fs0. case_decide; [rewrite bool_decide_true by done|by rewrite bool_decide_false]. cbn [negb].
    case_decide; [by rewrite bool_decide_true|rewrite bool_decide_false by done]. by destruct fs0 as [|[] fs0]. }
  destruct fs as [|[] fs]; [apply Hwrite|done|apply Hwrite].
Qed.

(** The administrators behave as a set kept in order: a question is answered by
    membership, an addition appends a new account and nothing else, a removal takes all
    its entries out, and refuses an account that is not there and the last one. Whatever statement
    fails, a removal that reports an error changes nothing, and no removal leaves the list
    empty. An addition whose read of the list fails, though, succeeds and leaves the new
    account as the only administrator. *)
Theorem admin_list_correct c l d :
  admin_list c l → plain_account d →
  run (IsAdmin d) c = (Ok (bool_decide (d ∈ l)), c) ∧
  (∃ c', run (AddAdminDID d) c = (Ok tt, c') ∧ admin_list c' (with_admin d l) ∧ ∀ k, k ≠ admin_key → c' !! k = c !! k) ∧
  (∀ fs o c' fs', RemoveAdminDID d c fs = (o, c', fs') →
    match o with
    | Ok l' => d ∈ l ∧ l' = filter (λ d', d' ≠ d) l ∧ l' ≠ [] ∧ admin_list c' l'
    | Err e => c' = c ∧ (fs = [] → if decide (d ∈ l) then e = RemoveAdminLastAdmin ∧ (∀ d', d' ∈ l → d' = d) else e = RemoveAdminNotFound)
    end) ∧
  AddAdminDID d c [true] = (Ok tt, <[ admin_key := d ]> c, []) ∧ admin_list (<[ admin_key := d ]> c) [d].
Proof.
  intros Hc Hd. split_and!.
  - unfold IsAdmin, run, fmap, M_fmap. by rewrite (get_admins c l).
  - unfold run. rewrite (add_admin c l) by done. unfold with_admin. destruct (decide (d ∈ l)) as [|Hn].
    + exists c. by split_and!.
    + eexists. split; [done|]. split; [|intros; by apply lookup_insert_ne]. apply admin_list_set.
      apply Forall_app. split; [apply Hc|by constructor].
  - intros fs o c' fs'. rewrite (remove_admin c l) by done.
    assert (Hall : filter (λ d', d' ≠ d) l = [] → ∀ d', d' ∈ l → d' = d).
    { intros Hnil d' Hin. destruct (decide (d' = d)); [done|]. assert (Hf : d' ∈ filter (λ d', d' ≠ d) l) by (by apply list_elem_of_filter).
      rewrite Hnil in Hf. by apply elem_of_nil in Hf. }
    assert (Hset : admin_list (<[ admin_key := join (byte_str comma) (filter (λ d', d' ≠ d) l) ]> c) (filter (λ d', d' ≠ d) l)).
    { apply admin_list_set. apply Forall_forall. intros d' [_ Hin]%list_elem_of_filter. destruct Hc as [Hp _]. by eapply Forall_forall in Hp. }
    destruct (decide (d ∈ l)), (decide (filter (λ d', d' ≠ d) l = []));
      destruct fs as [|[] [|[] fs]]; intros [= <- <- <-]; split_and!; naive_solver.
  - rewrite (add_admin c l) by done. done.
  - apply (admin_list_set c [d]). by constructor.
Qed.

Lemma admin_list_correct_witness :
  let c : config := {[ admin_key := "did:plc:a,did:plc:b" ]} in
  run (IsAdmin "did:plc:b") c = (Ok true, c) ∧
  (∃ c', run (AddAdminDID "did:plc:b") c = (Ok tt, c') ∧ admin_list c' ["did:plc:a"; "did:plc:b"]).
Proof.
  intros c. assert (Hc : admin_list c ["did:plc:a"; "did:plc:b"]) by (split; [repeat constructor; by vm_compute|by vm_compute]).
  destruct (admin_list_correct c ["did:plc:a"; "did:plc:b"] "did:plc:b") as (Hq & (c' & Hadd & Hl & _) & _); [done|by vm_compute|].
  split; [exact Hq|]. exists c'. split; [exact Hadd|]. exact Hl.
Defined.
