(* ===== verification/Refresh.v ===== *)
(** * Validation refresh

    src/internal/validationrefresh/scheduler.go and records.go [GetCollectionStats]: at
    startup stored records are brought in line with the Lexicons selected. The counters of a
    run are only logged and left out. *)
From S2P Require Import Prelude GoStrings Json AtprotoTime Effects Database RecordStore.

Record CollectionStat := mkStat { st_Collection : string; st_Count : nat }.

(** Rows per collection. *)
Definition collection_counts (d : db) : gmap string nat :=
  foldr (λ r m, <[ row_collection r := S (default 0 (m !! row_collection r)) ]> m) ∅ (map_to_list (db_records d)).*2.

Definition more_records (x y : CollectionStat) : Prop := st_Count y ≤ st_Count x.
#[export] Instance more_records_dec : RelDecision more_records.
Proof. intros x y. unfold more_records. apply _. Defined.

(** [GROUP BY collection ORDER BY count DESC]; equal counts come in an order of the database's choice. *)
Definition GetCollectionStats : M db (list CollectionStat) :=
  query (λ d, merge_sort more_records ((λ e : string * nat, mkStat e.1 e.2) <$> map_to_list (collection_counts d))).

Definition refreshBatchSize : Z := 500.

Section refresh.
Context `{Env} `{TextOrder} (validator : RecordValidator).

(** The records of a batch; the result is the new [afterURI]. *)
Fixpoint refresh_batch (records : list RecordStruct) (afterURI : string) : M db string :=
  match records with
  | [] => mret afterURI
  | rec :: rest =>
      let result := ValidateRecord validator (rec_collection rec) (rec_rkey rec) (rec_json rec) in
      _ ← UpdateValidationStatusIfUnchanged (Some rec) (res_status result) (res_error result) (res_lexicon_hash result);
      refresh_batch rest (rec_uri rec)
  end.

Fixpoint refresh_loop (fuel : nat) (collection currentHash afterURI : string) : M db unit :=
  match fuel with
  | O => throw "out of fuel"
  | S fuel' =>
      records ← ListRecordsNeedingValidation collection currentHash afterURI refreshBatchSize;
      if decide (records = []) then mret tt
      else
        afterURI ← refresh_batch records afterURI;
        refresh_loop fuel' collection currentHash afterURI
  end.

(** Every batch ends at a later URI, so the rows bound the batches. *)
Definition RefreshCollection (collection : string) : M db unit :=
  match LexiconHash validator collection with
  | None => MarkCollectionUnknownSchema collection ("no saved lexicon for collection " +:+ collection)
  | Some currentHash =>
      rows ← gets (λ d, size (db_records d));
      refresh_loop (S rows) collection currentHash ""
  end.

Definition absent_message (collection : string) : string :=
  "no saved lexicon for collection " +:+ collection +:+ " in the startup schema".

Definition mark_absent (active : list string) (stat : CollectionStat) : M db unit :=
  if bool_decide (st_Collection stat ∈ active) then mret tt
  else wrap ("mark collection " +:+ st_Collection stat +:+ " unknown schema")
    (MarkCollectionUnknownSchema (st_Collection stat) (absent_message (st_Collection stat))).

Definition RefreshCollections (collections : list string) : M db unit :=
  stats ← wrap "list stored collections for validation cleanup" GetCollectionStats;
  for_each (mark_absent collections) stats ;;
  for_each (λ c, wrap ("refresh validation for " +:+ c) (RefreshCollection c)) collections.

(** ** What a run means for a row *)

Definition unknown_marked (now : Z) (reason : string) (r : row) : row :=
  if needs_unknown_mark reason r
  then mkRow (row_cid r) (row_did r) (row_collection r) (row_json r) (row_indexed_at r)
         (row_record_created_at r) StatusUnknownSchema (Some reason) (Some now) None
  else r.

Definition revalidated (now : Z) (currentHash u : string) (r : row) : row :=
  if needs_validation (row_collection r) currentHash r then
    let result := ValidateRecord validator (row_collection r) (default "" (rkey_column u)) (row_json r) in
    set_validation now (res_status result) (res_error result) (res_lexicon_hash result) r
  else r.

(** The row a run for one collection leaves. *)
Definition settle_collection (now : Z) (collection u : string) (r : row) : row :=
  if (row_collection r =? collection)%string then
    match LexiconHash validator collection with
    | None => unknown_marked now ("no saved lexicon for collection " +:+ collection) r
    | Some currentHash => revalidated now currentHash u r
    end
  else r.

(** The row a whole run leaves. *)
Definition settle (collections : list string) (now : Z) (u : string) (r : row) : row :=
  if bool_decide (row_collection r ∈ collections) then settle_collection now (row_collection r) u r
  else unknown_marked now (absent_message (row_collection r)) r.
End refresh.

(** What refresh relies on: a verdict carries the collection's current fingerprint. *)
Class ValidatorLaws (v : RecordValidator) :=
  verdict_hash collection rkey json h : LexiconHash v collection = Some h → res_lexicon_hash (ValidateRecord v collection rkey json) = h.
