(* ===== verification/RefreshProps.v ===== *)
(** * Refresh settles every record

    A run that succeeds leaves every stored record with the verdict of the startup
    Lexicons; whatever fails, a record is either as it was or settled; nothing but its
    validation columns changes; and a second run changes nothing. *)
From S2P Require Import Prelude GoStrings Json AtprotoTime Effects Database RecordStore RecordProps BatchProps Refresh.

Section refresh.
Context `{Env} `{TextOrder} (v : RecordValidator) `{!ValidatorLaws v}.
Implicit Types (d : db) (u : string) (r : row).

(** ** Rows *)

Lemma unknown_marked_idem now now' reason r :
  unknown_marked now' reason (unknown_marked now reason r) = unknown_marked now reason r.
Proof.
  unfold unknown_marked at 2 3. destruct (needs_unknown_mark reason r) eqn:E; unfold unknown_marked; [|by rewrite E].
  unfold needs_unknown_mark. cbn. by rewrite !bool_decide_false by naive_solver.
Qed.

Lemma unknown_marked_collection now reason r : row_collection (unknown_marked now reason r) = row_collection r.
Proof. unfold unknown_marked. by destruct (needs_unknown_mark reason r). Qed.

Lemma revalidated_collection now h u r : row_collection (revalidated v now h u r) = row_collection r.
Proof. unfold revalidated. by destruct (needs_validation _ _ _). Qed.

Lemma settle_collection_collection now c u r : row_collection (settle_collection v now c u r) = row_collection r.
Proof.
  unfold settle_collection. destruct (_ =? _)%string; [|done].
  destruct (LexiconHash v c); [apply revalidated_collection|apply unknown_marked_collection].
Qed.

(** A fingerprint is not empty text, which would be stored as NULL. *)
Definition hash_not_empty : Prop := ∀ c h, LexiconHash v c = Some h → h ≠ "".

Lemma revalidated_settled now h u r :
  hash_not_empty → LexiconHash v (row_collection r) = Some h →
  needs_validation (row_collection r) h (revalidated v now h u r) = false.
Proof.
  intros Hne Hh. unfold revalidated. destruct (needs_validation (row_collection r) h r) eqn:E; [|done].
  unfold needs_validation, set_validation. cbn. rewrite (verdict_hash _ _ _ _ Hh), String.eqb_refl.
  unfold nullableTextValue. rewrite (proj2 (String.eqb_neq h "")) by by eapply Hne. cbn.
  by rewrite !bool_decide_false by naive_solver.
Qed.

Lemma settle_collection_idem now now' c u r :
  hash_not_empty → settle_collection v now' c u (settle_collection v now c u r) = settle_collection v now c u r.
Proof.
  intros Hne. unfold settle_collection at 1. rewrite settle_collection_collection.
  unfold settle_collection. destruct (String.eqb_spec (row_collection r) c) as [Hc|]; [|done].
  destruct (LexiconHash v c) as [h|] eqn:Eh; [|apply unknown_marked_idem].
  unfold revalidated at 1. rewrite revalidated_collection, revalidated_settled; [done|done|congruence].
Qed.

(** Running again, at any time, changes nothing. *)
Lemma settle_idem collections now now' u r :
  hash_not_empty → settle v collections now' u (settle v collections now u r) = settle v collections now u r.
Proof.
  intros Hne. unfold settle at 1.
  assert (Hc : row_collection (settle v collections now u r) = row_collection r).
  { unfold settle. case_bool_decide; [apply settle_collection_collection|apply unknown_marked_collection]. }
  rewrite Hc. unfold settle. case_bool_decide; [by apply settle_collection_idem|apply unknown_marked_idem].
Qed.

(** ** A run *)

(** Rows have URIs, and JSON as the database stores it. *)
Definition rows_plain d : Prop :=
  db_records d !! "" = None ∧ ∀ u r, db_records d !! u = Some r → store_json (row_json r) = Ok (row_json r).

(** Every record key can be read. *)
Definition rows_readable d : Prop := ∀ u, is_Some (db_records d !! u) → is_Some (rkey_column u).

Notation with_records recs d := (set_records (λ _, recs) d).

Lemma with_records_id d : with_records (db_records d) d = d.
Proof. by destruct d. Qed.

(** A row after part of a run: as it was or settled. *)
Definition as_before_or (f : string → row → row) (before after : gmap string row) : Prop :=
  ∀ u, after !! u = before !! u ∨ after !! u = f u <$> before !! u.

(** [m] changes rows by [f] at most, and by [f] all rows it is responsible for when it succeeds;
    it succeeds when the database answers. *)
Definition Settles (f : Z → string → row → row) (sel : string → row → Prop) {A} (m : M db A) : Prop :=
  ∀ d fs o d' fs', rows_plain d → m d fs = (o, d', fs') →
    ∃ recs, d' = with_records recs d ∧ as_before_or (f (db_clock d)) (db_records d) recs ∧
      (is_ok o = true → ∀ u r, db_records d !! u = Some r → sel u r → recs !! u = Some (f (db_clock d) u r)) ∧
      (fs = [] → rows_readable d → is_ok o = true ∧ fs' = []).

(** Rows are changed in their validation columns only. *)
Class KeepsRow (f : Z → string → row → row) := {
  keeps_collection now u r : row_collection (f now u r) = row_collection r;
  keeps_json now u r : row_json (f now u r) = row_json r;
  keeps_idem now now' u r : f now' u (f now u r) = f now u r;
}.

Lemma plain_after f `{!KeepsRow f} d recs :
  rows_plain d → as_before_or (f (db_clock d)) (db_records d) recs → rows_plain (with_records recs d).
Proof.
  intros [He Hj] Hrecs. split; cbn.
  - destruct (Hrecs "") as [-> | ->]; by rewrite He.
  - intros u r. destruct (Hrecs u) as [-> | ->]; [apply Hj|]. destruct (db_records d !! u) as [r0|] eqn:E; [|done].
    intros [= <-]. rewrite keeps_json. by eapply Hj.
Qed.

Lemma readable_after f d recs :
  rows_readable d → as_before_or (f (db_clock d)) (db_records d) recs → rows_readable (with_records recs d).
Proof.
  intros Hr Hrecs u. cbn. destruct (Hrecs u) as [-> | ->]; [apply Hr|]. rewrite fmap_is_Some. apply Hr.
Qed.

(** Runs one after the other, on the rows. *)
Lemma as_before_or_trans f `{!KeepsRow f} now (recs0 recs1 recs2 : gmap string row) :
  as_before_or (f now) recs0 recs1 → as_before_or (f now) recs1 recs2 → as_before_or (f now) recs0 recs2.
Proof.
  intros H01 H12 u. destruct (H01 u) as [E|E], (H12 u) as [E'|E']; rewrite E', E; [by left|by right|by right|].
  right. destruct (recs0 !! u); cbn; [by rewrite keeps_idem|done].
Qed.

Lemma settled_stays f `{!KeepsRow f} now (recs1 recs2 : gmap string row) u r :
  as_before_or (f now) recs1 recs2 → recs1 !! u = Some (f now u r) → recs2 !! u = Some (f now u r).
Proof. intros H12 E. destruct (H12 u) as [-> | ->]; rewrite E; cbn; [done|by rewrite keeps_idem]. Qed.

Lemma settled_later f `{!KeepsRow f} now (recs0 recs1 recs2 : gmap string row) u r :
  as_before_or (f now) recs0 recs1 → recs0 !! u = Some r →
  (∀ r', r' = r ∨ r' = f now u r → recs1 !! u = Some r' → recs2 !! u = Some (f now u r')) → recs2 !! u = Some (f now u r).
Proof.
  intros H01 E Hlater. destruct (H01 u) as [E1|E1]; rewrite E in E1; [by apply Hlater; [left|]|].
  specialize (Hlater _ (or_intror eq_refl) E1). by rewrite keeps_idem in Hlater.
Qed.

(** Two computations one after the other. *)
Lemma settles_seq f `{!KeepsRow f} {A B} sel1 sel2 (m : M db A) (k : A → M db B) :
  (∀ now u r, sel2 u (f now u r) ↔ sel2 u r) →
  Settles f sel1 m → (∀ a, Settles f sel2 (k a)) → Settles f (λ u r, sel1 u r ∨ sel2 u r) (m ≫= k).
Proof.
  intros Hsel Hm Hk d fs o d' fs' Hd Hrun. unfold mbind, M_bind in Hrun.
  destruct (m d fs) as [[o1 d1] fs1] eqn:E1. destruct (Hm _ _ _ _ _ Hd E1) as (recs1 & -> & Hb1 & Hok1 & Hnil1).
  destruct o1 as [a|e].
  - destruct (Hk a _ _ _ _ _ (plain_after f _ _ Hd Hb1) Hrun) as (recs2 & -> & Hb2 & Hok2 & Hnil2). cbn in Hb2, Hok2.
    exists recs2. split; [done|]. split_and!.
    + by eapply (as_before_or_trans f).
    + intros Ho u r Hr [Hs|Hs]; [by eapply (settled_stays f); [exact Hb2|apply Hok1]|].
      eapply (settled_later f); [exact Hb1|exact Hr|]. intros r' Hr' Hr1. apply Hok2; [done..|].
      destruct Hr' as [-> | ->]; [done|by apply Hsel].
    + intros -> Hread. destruct (Hnil1 eq_refl Hread) as [_ ->]. apply Hnil2; [done|]. by eapply readable_after.
  - simplify_eq. exists recs1. split_and!; [done|done|done|]. intros -> Hread. by destruct (Hnil1 eq_refl Hread).
Qed.

Lemma settles_weaken f {A} (sel sel' : string → row → Prop) (m : M db A) :
  (∀ u r, sel' u r → sel u r) → Settles f sel m → Settles f sel' m.
Proof.
  intros Hs Hm d fs o d' fs' Hd Hrun. destruct (Hm _ _ _ _ _ Hd Hrun) as (recs & ? & ? & Hok & ?).
  exists recs. split_and!; [done..| |done]. intros Ho u r Hr Hsel. apply Hok; auto.
Qed.

Lemma settles_ret f {A} (a : A) : Settles f (λ _ _, False) (mret a).
Proof.
  intros d fs o d' fs' _ [= <- <- <-]. exists (db_records d). split_and!; [by rewrite with_records_id|by left|done|done].
Qed.

Lemma settles_wrap f {A} sel msg (m : M db A) : Settles f sel m → Settles f sel (wrap msg m).
Proof.
  intros Hm d fs o d' fs' Hd. unfold wrap. destruct (m d fs) as [[o1 d1] fs1] eqn:E. intros [= <- <- <-].
  rewrite is_ok_wrap. eauto.
Qed.

(** The slices of a loop. *)
Lemma settles_for_each f `{!KeepsRow f} {A} (sel : A → string → row → Prop) (m : A → M db unit) xs :
  (∀ x now u r, sel x u (f now u r) ↔ sel x u r) →
  (∀ x, x ∈ xs → Settles f (sel x) (m x)) → Settles f (λ u r, ∃ x, x ∈ xs ∧ sel x u r) (for_each m xs).
Proof.
  intros Hsel. induction xs as [|x xs IH]; intros Hm; cbn [for_each].
  - apply (settles_weaken _ (λ _ _, False)); [by intros ?? (? & ?%elem_of_nil & _)|]. apply settles_ret.
  - eapply settles_weaken; [|apply (settles_seq f (sel x) (λ u r, ∃ x, x ∈ xs ∧ sel x u r))].
    + cbn. intros u r (y & [->|Hy]%elem_of_cons & Hs); [by left|right; eauto].
    + intros. by setoid_rewrite Hsel.
    + apply Hm. left.
    + intros _. apply IH. intros. apply Hm. by right.
Qed.

(** ** Steps *)

Lemma settles_mark f c reason :
  (∀ now u r, row_collection r = c → f now u r = unknown_marked now reason r) →
  Settles f (λ _ r, row_collection r = c) (MarkCollectionUnknownSchema c reason).
Proof.
  intros Hf d fs o d' fs' _ Hrun.
  set (sel := λ (_ : string) r, (row_collection r =? c)%string && needs_unknown_mark reason r).
  set (g := λ (_ : string) r, mkRow (row_cid r) (row_did r) (row_collection r) (row_json r) (row_indexed_at r)
     (row_record_created_at r) StatusUnknownSchema (Some reason) (Some (db_clock d)) None).
  assert (Hg : ∀ u r, row_collection r = c → (if sel u r then g u r else r) = f (db_clock d) u r).
  { intros u r Hc. rewrite Hf by done. unfold sel, g, unknown_marked. rewrite Hc, String.eqb_refl. cbn. by rewrite <- Hc. }
  assert (Hskip : ∀ u r, row_collection r ≠ c → (if sel u r then g u r else r) = r).
  { intros u r Hc. unfold sel. by rewrite (proj2 (String.eqb_neq _ _)). }
  unfold MarkCollectionUnknownSchema, exec, stmt in Hrun. fold sel in Hrun.
  assert (Hcase : (o = Err "database error" ∧ d' = d ∧ ∃ fs1, fs = true :: fs1) ∨
    (o = Ok tt ∧ d' = (update_rows sel g d).2 ∧ fs' = tl fs)).
  { destruct fs as [|[] fs]; simplify_eq; [by right|by left; eauto|by right]. }
  destruct Hcase as [(-> & -> & (fs1 & ->))|(-> & -> & ->)].
  - exists (db_records d). split_and!; [by rewrite with_records_id|by left|done|done].
  - exists (db_records (update_rows sel g d).2). split; [done|]. split_and!; [| |by intros ->].
    + intros u. rewrite update_rows_lookup. destruct (db_records d !! u) as [r|]; [|by left]. cbn.
      destruct (decide (row_collection r = c)); [right; by rewrite Hg|left; by rewrite Hskip].
    + intros _ u r Hr Hc. rewrite update_rows_lookup, Hr. cbn. by rewrite Hg.
Qed.

(** *** Batches *)

Lemma scan_record_fields u r rec :
  scan_record (u, r) = Ok rec →
  rec_uri rec = u ∧ rec_cid rec = row_cid r ∧ rec_collection rec = row_collection r ∧ rec_json rec = row_json r ∧
  rec_rkey rec = default "" (rkey_column u).
Proof. unfold scan_record. cbn. destruct (rkey_column u); [|done]. by intros [= <-]. Qed.

(** The conditional update of a row that is as it was read. *)
Lemma update_as_read d u r rec st e h fs :
  db_records d !! u = Some r → scan_record (u, r) = Ok rec → store_json (row_json r) = Ok (row_json r) →
  UpdateValidationStatusIfUnchanged (Some rec) st e h d fs =
  match fs with
  | true :: fs' => (Err ("conditionally update validation metadata for " +:+ u +:+ ": database error"), d, fs')
  | _ => (Ok true, set_records (<[ u := set_validation (db_clock d) st e h r ]>) d, tl fs)
  end.
Proof.
  intros Hr (Hu & Hc & _ & Hj & _)%scan_record_fields Hstore. unfold UpdateValidationStatusIfUnchanged, wrap.
  rewrite Hu, Hc, Hj.
  assert (Hstmt : (json ← store_json (row_json r); let '(n, d') := update_rows
      (λ u0 r0, (u0 =? u)%string && (row_cid r0 =? row_cid r)%string && (row_json r0 =? json)%string)
      (λ _ r0, set_validation (db_clock d) st e h r0) d in mret (n =? 1, d'))
    = Ok (true, set_records (<[ u := set_validation (db_clock d) st e h r ]>) d)).
  { rewrite Hstore. cbn [mbind outcome_bind].
    rewrite (update_rows_ext _ (λ u0 r0, (u0 =? u)%string && ((row_cid r0 =? row_cid r)%string && (row_json r0 =? row_json r)%string)))
      by (intros; by rewrite andb_assoc).
    rewrite (update_rows_one u (λ r0, (row_cid r0 =? row_cid r)%string && (row_json r0 =? row_json r)%string)
      (set_validation (db_clock d) st e h)).
    by rewrite Hr, !String.eqb_refl. }
  unfold stmt. destruct fs as [|[] fs]; [rewrite Hstmt|..|rewrite Hstmt]; done.
Qed.

(** A batch as read: rows of the collection that need validation, in order. *)
Record batch_rows d c h (rows : list (string * row)) : Prop := {
  batch_stored u r : (u, r) ∈ rows → db_records d !! u = Some r;
  batch_due u r : (u, r) ∈ rows → needs_validation c h r = true;
  batch_once : NoDup rows.*1;
}.

Lemma batch_cons d d' c h u r rows :
  batch_rows d c h ((u, r) :: rows) → (∀ w, w ≠ u → db_records d' !! w = db_records d !! w) → batch_rows d' c h rows.
Proof.
  intros [Hst Hdue Hnd] Hsame. rewrite fmap_cons in Hnd. apply NoDup_cons in Hnd as [Hn Hnd]. split; [| |done].
  - intros w s Hw. rewrite Hsame; [apply Hst; by right|]. intros ->. apply Hn. apply list_elem_of_fmap. by exists (u, s).
  - intros w s Hw. apply (Hdue w s). by right.
Qed.

Lemma needs_collection c h r : needs_validation c h r = true → row_collection r = c.
Proof. unfold needs_validation. by intros [?%String.eqb_eq _]%andb_prop. Qed.

Lemma refresh_batch_run c h rows records a d fs o d' fs' :
  rows_plain d → batch_rows d c h rows → Forall2 (λ kv rec, scan_record kv = Ok rec) rows records →
  refresh_batch v records a d fs = (o, d', fs') →
  ∃ recs, d' = with_records recs d ∧
    (∀ u, recs !! u = db_records d !! u ∨ (u ∈ rows.*1 ∧ recs !! u = revalidated v (db_clock d) h u <$> db_records d !! u)) ∧
    (∀ a', o = Ok a' → a' = default a (last rows.*1) ∧ ∀ u r, (u, r) ∈ rows → recs !! u = Some (revalidated v (db_clock d) h u r)) ∧
    (fs = [] → is_ok o = true ∧ fs' = []).
Proof.
  intros Hd Hrows Hscan. revert a d fs Hd Hrows. induction Hscan as [|[u r] rec rows records Hrec Hscan IH]; intros a d fs Hd Hrows.
  { intros [= <- <- <-]. exists (db_records d). split_and!; [by rewrite with_records_id|by left| |done].
    intros a' [= <-]. split; [done|set_solver]. }
  cbn [refresh_batch]. assert (Hr : db_records d !! u = Some r) by (apply (batch_stored _ _ _ _ Hrows); left).
  assert (Hdue : needs_validation c h r = true) by (apply (batch_due _ _ _ _ Hrows u); left).
  assert (Hc := needs_collection _ _ _ Hdue). unfold mbind at 1, M_bind at 1.
  rewrite (update_as_read d u r) by (first [done|by eapply Hd]).
  destruct (scan_record_fields _ _ _ Hrec) as (-> & _ & -> & -> & ->).
  set (res := ValidateRecord _ _ _ _).
  assert (Hval : set_validation (db_clock d) (res_status res) (res_error res) (res_lexicon_hash res) r = revalidated v (db_clock d) h u r).
  { unfold revalidated. rewrite Hc at 1. by rewrite Hdue. }
  rewrite Hval. set (d1 := set_records _ d).
  assert (Hfault : (∃ fs1 e, fs = true :: fs1 ∧ (o, d', fs') = (Err e, d, fs1)) ∨ refresh_batch v records u d1 (tl fs) = (o, d', fs') →
    ∃ recs, d' = with_records recs d ∧
    (∀ w, recs !! w = db_records d !! w ∨ (w ∈ ((u, r) :: rows).*1 ∧ recs !! w = revalidated v (db_clock d) h w <$> db_records d !! w)) ∧
    (∀ a', o = Ok a' → a' = default a (last ((u, r) :: rows).*1) ∧
      ∀ w s, (w, s) ∈ (u, r) :: rows → recs !! w = Some (revalidated v (db_clock d) h w s)) ∧
    (fs = [] → is_ok o = true ∧ fs' = [])).
  { intros [(fs1 & e & -> & [= -> -> ->])|Hrun].
    { exists (db_records d). split_and!; [by rewrite with_records_id|by left|done|done]. }
    assert (Hd1 : rows_plain d1).
    { destruct Hd as [He Hj]. split; unfold d1; cbn.
      - rewrite lookup_insert_ne; [done|]. intros ->. congruence.
      - intros w s [[<- <-]|[_ Hs]]%lookup_insert_Some; [|by eapply Hj].
        unfold revalidated. rewrite Hc, Hdue. cbn. by eapply Hj. }
    assert (Hrows1 : batch_rows d1 c h rows).
    { eapply batch_cons; [exact Hrows|]. intros w Hw. unfold d1. cbn. by rewrite lookup_insert_ne. }
    destruct (IH u d1 (tl fs) Hd1 Hrows1 Hrun) as (recs & -> & Hpart & Hok & Hnil).
    assert (Hu : u ∉ rows.*1) by (assert (Hn := batch_once _ _ _ _ Hrows); rewrite fmap_cons in Hn; by apply NoDup_cons in Hn as [? _]).
    exists recs. split; [done|]. unfold d1 in Hpart, Hok. cbn in Hpart, Hok. split_and!.
    - intros w. destruct (decide (w = u)) as [->|Hne].
      + destruct (Hpart u) as [E|[? _]]; [|done]. right. split; [rewrite fmap_cons; left|]. by rewrite E, lookup_insert_eq, Hr.
      + destruct (Hpart w) as [E|[? E]]; rewrite lookup_insert_ne in E by done; [by left|right].
        split; [rewrite fmap_cons; by right|done].
    - intros a' Ha'. destruct (Hok a' Ha') as [-> Hall]. split.
      + rewrite fmap_cons, last_cons. by destruct (last rows.*1).
      + intros w s [[= -> ->]|Hw]%elem_of_cons; [|by apply Hall].
        destruct (Hpart u) as [E|[? _]]; [|done]. by rewrite E, lookup_insert_eq.
    - intros ->. by apply Hnil. }
  intros Hrun. apply Hfault. destruct fs as [|[] fs]; [by right|left; eauto|by right]. 
Qed.

(** *** The loop *)

(** The rows of the collection that need validation, in the order of their URIs. *)
Definition due_rows c h d : list (string * row) := filter (λ kv, needs_validation c h kv.2 = true) (by_key (db_records d)).
Notation due_page := (page fst text_lt).

Lemma due_rows_increasing c h d : increasing fst text_lt (due_rows c h d).
Proof. apply increasing_filter, by_key_increasing. Qed.

Lemma elem_of_due_rows c h d u r : (u, r) ∈ due_rows c h d ↔ needs_validation c h r = true ∧ db_records d !! u = Some r.
Proof. unfold due_rows. by rewrite list_elem_of_filter, elem_of_by_key. Qed.

Lemma due_page_rows c h d after n : batch_rows d c h (due_page (due_rows c h d) after n).
Proof.
  assert (Hin : ∀ u r, (u, r) ∈ due_page (due_rows c h d) after n → (u, r) ∈ due_rows c h d).
  { unfold page. intros u r [_ ?]%elem_of_take_aux%list_elem_of_filter. done. }
  split.
  - intros u r Hu. by apply Hin, elem_of_due_rows in Hu as [_ ?].
  - intros u r Hu. by apply Hin, elem_of_due_rows in Hu as [? _].
  - apply (sublist_NoDup _ (by_key (db_records d)).*1); [apply by_key_nodup|]. apply fmap_sublist.
    unfold page, due_rows. etrans; [apply sublist_take|]. etrans; apply sublist_filter.
Qed.

Lemma list_page d c h after fs :
  ListRecordsNeedingValidation c h after refreshBatchSize d fs =
  match fs with
  | true :: fs' => (Err "database error", d, fs')
  | _ => (scanRecords (due_page (due_rows c h d) after 500), d, tl fs)
  end.
Proof.
  assert (Hp : take 500 (filter (λ kv : string * row, needs_validation c h kv.2 = true ∧ text_lt after kv.1) (by_key (db_records d)))
    = due_page (due_rows c h d) after 500).
  { unfold page, due_rows. rewrite list_filter_filter. f_equal. apply list_filter_iff. intros. tauto. }
  unfold ListRecordsNeedingValidation, stmt. change (refreshBatchSize <=? 0)%Z with false.
  change (Z.to_nat refreshBatchSize) with 500%nat. cbn match.
  destruct fs as [|[] fs]; rewrite ?Hp; [by destruct (scanRecords _)|done|by destruct (scanRecords _)].
Qed.

Lemma scanRecords_ok rows recs : scanRecords rows = Ok recs → Forall2 (λ kv rec, scan_record kv = Ok rec) rows recs.
Proof.
  revert recs. induction rows as [|kv rows IH]; intros recs; cbn [scanRecords]; [by intros [= <-]|].
  destruct (scan_record kv) as [rec|] eqn:E; [|done]. destruct (scanRecords rows) as [recs'|]; [|done].
  cbn. intros [= <-]. constructor; auto.
Qed.

Lemma scanRecords_readable rows :
  (∀ u r, (u, r) ∈ rows → is_Some (rkey_column u)) → is_ok (scanRecords rows) = true.
Proof.
  induction rows as [|[u r] rows IH]; intros Hr; [done|]. cbn [scanRecords].
  destruct (Hr u r) as [k Hk]; [left|]. unfold scan_record. cbn. rewrite Hk.
  destruct (scanRecords rows); [done|]. cbn in *. apply IH. intros. eapply Hr. by right.
Qed.

(** Rows whose URI is still to come. *)
Definition rows_left d after : nat := size (filter (λ u, text_lt after u) (dom (db_records d))).

Lemma rows_left_less d d' after u :
  dom (db_records d') = dom (db_records d) → is_Some (db_records d !! u) → text_lt after u → rows_left d' u < rows_left d after.
Proof.
  intros Hdom Hu Hlt. unfold rows_left. rewrite Hdom. apply subset_size. split.
  - intros w [? ?]%elem_of_filter. apply elem_of_filter. split; [by etrans|done].
  - intros Hsub. assert (Hin : u ∈ filter (λ w, text_lt u w) (dom (db_records d))).
    { apply Hsub, elem_of_filter. split; [done|]. by apply elem_of_dom. }
    apply elem_of_filter in Hin as [Hirr _]. by apply irreflexivity in Hirr; [|apply _].
Qed.

Lemma list_page_cases d c h after fs o d1 fs1 :
  ListRecordsNeedingValidation c h after refreshBatchSize d fs = (o, d1, fs1) →
  d1 = d ∧ fs1 = tl fs ∧
  ((∃ records, o = Ok records ∧ Forall2 (λ kv rec, scan_record kv = Ok rec) (due_page (due_rows c h d) after 500) records) ∨
   (∃ e, o = Err e ∧ (fs = [] → rows_readable d → False))).
Proof.
  rewrite list_page. set (P := due_page (due_rows c h d) after 500).
  assert (Hread : rows_readable d → is_ok (scanRecords P) = true).
  { intros Hread. apply scanRecords_readable. intros u r Hu. apply Hread.
    rewrite (batch_stored _ _ _ _ (due_page_rows c h d after 500) _ _ Hu). by eexists. }
  assert (Hscan : (∃ records, scanRecords P = Ok records ∧ Forall2 (λ kv rec, scan_record kv = Ok rec) P records) ∨
    (∃ e, scanRecords P = Err e ∧ (fs = [] → rows_readable d → False))).
  { destruct (scanRecords P) as [records|e] eqn:E; [left; exists records; split; [done|by apply scanRecords_ok]|].
    right. exists e. split; [done|]. intros _ Hr. by apply Hread in Hr. }
  destruct fs as [|[] fs]; intros [= <- <- <-]; (split; [done|]; split; [done|]); [done| |done].
  right. exists "database error". by split.
Qed.

(** The last row of a page comes later, and what needs validation up to it is in the page. *)
Lemma page_advances d c h after u r :
  last (due_page (due_rows c h d) after 500) = Some (u, r) →
  text_lt after u ∧ is_Some (db_records d !! u) ∧
  ∀ w s, db_records d !! w = Some s → needs_validation c h s = true → text_lt after w → ¬ text_lt u w →
    (w, s) ∈ due_page (due_rows c h d) after 500.
Proof.
  intros Hl. destruct (page_step fst text_lt _ _ _ _ (due_rows_increasing c h d) Hl) as [Hlt Hsplit].
  split_and!; [done| |].
  - exists r. eapply batch_stored; [apply (due_page_rows c h d after 500)|]. by apply last_Some_elem_of.
  - intros w s Hw Hn Haft Hnot. assert (Hin : (w, s) ∈ filter (λ y : string * row, text_lt after y.1) (due_rows c h d)).
    { apply list_elem_of_filter. split; [done|]. by apply elem_of_due_rows. }
    rewrite Hsplit in Hin. apply elem_of_app in Hin as [?|[? _]%list_elem_of_filter]; done.
Qed.

Lemma not_due f c h now u r :
  (∀ now u r, row_collection r = c → f now u r = revalidated v now h u r) →
  row_collection r = c → needs_validation c h r = false → f now u r = r.
Proof. intros Hf Hc Hn. rewrite Hf by done. unfold revalidated. by rewrite Hc, Hn. Qed.

(** A batch settles its rows. *)
Lemma batch_settles f `{!KeepsRow f} c h rows records a d fs o d' fs' :
  (∀ now u r, row_collection r = c → f now u r = revalidated v now h u r) →
  rows_plain d → batch_rows d c h rows → Forall2 (λ kv rec, scan_record kv = Ok rec) rows records →
  refresh_batch v records a d fs = (o, d', fs') →
  ∃ recs, d' = with_records recs d ∧ as_before_or (f (db_clock d)) (db_records d) recs ∧
    (∀ a', o = Ok a' → a' = default a (last rows.*1) ∧ ∀ u r, (u, r) ∈ rows → recs !! u = Some (f (db_clock d) u r)) ∧
    (fs = [] → is_ok o = true ∧ fs' = []).
Proof.
  intros Hf Hd Hrows Hscan Hrun.
  assert (Heq : ∀ u r, (u, r) ∈ rows → revalidated v (db_clock d) h u r = f (db_clock d) u r).
  { intros u r Hu. symmetry. apply Hf. eapply needs_collection, batch_due, Hu. exact Hrows. }
  destruct (refresh_batch_run _ _ _ _ _ _ _ _ _ _ Hd Hrows Hscan Hrun) as (recs & -> & Hpart & Hok & Hnil).
  exists recs. split; [done|]. split_and!; [| |done].
  - intros u. destruct (Hpart u) as [E|[((w & r) & -> & Hin)%list_elem_of_fmap E]]; [by left|right].
    cbn in *. rewrite E, (batch_stored _ _ _ _ Hrows _ _ Hin). cbn. f_equal. by apply Heq.
  - intros a' Ha. destruct (Hok a' Ha) as [-> Hall]. split; [done|]. intros u r Hu. rewrite <- Heq by done. by apply Hall.
Qed.

Lemma refresh_loop_run f `{!KeepsRow f} c h :
  (∀ now u r, row_collection r = c → f now u r = revalidated v now h u r) →
  ∀ fuel after d fs o d' fs', rows_plain d → refresh_loop v fuel c h after d fs = (o, d', fs') →
  ∃ recs, d' = with_records recs d ∧ as_before_or (f (db_clock d)) (db_records d) recs ∧
    (is_ok o = true → ∀ u r, db_records d !! u = Some r → row_collection r = c → text_lt after u → recs !! u = Some (f (db_clock d) u r)) ∧
    (fs = [] → rows_readable d → rows_left d after < fuel → is_ok o = true ∧ fs' = []).
Proof.
  intros Hf. induction fuel as [|fuel IH]; intros after d fs o d' fs' Hd.
  { intros [= <- <- <-]. exists (db_records d). split_and!; [by rewrite with_records_id|by left|done|lia]. }
  cbn [refresh_loop]. unfold mbind at 1, M_bind at 1.
  destruct (ListRecordsNeedingValidation _ _ _ _ d fs) as [[o0 d0] fs0] eqn:El.
  apply list_page_cases in El as (-> & -> & [(records & -> & Hscan)|(e & -> & Hbad)]).
  2: { intros [= <- <- <-]. exists (db_records d). split_and!; [by rewrite with_records_id|by left|done|]. naive_solver. }
  assert (Hrows := due_page_rows c h d after 500). assert (Hadv := page_advances d c h after).
  set (P := due_page (due_rows c h d) after 500) in *. destruct (decide (records = [])) as [->|Hne].
  { intros [= <- <- <-]. exists (db_records d). split_and!; [by rewrite with_records_id|by left| |by intros ->].
    intros _ u r Hr Hc Hlt. rewrite Hr. f_equal. symmetry. destruct (needs_validation c h r) eqn:En; [|by eapply not_due].
    exfalso. apply Forall2_nil_inv_r in Hscan. apply take_nil_inv in Hscan as [|Hnil]; [done|].
    assert (Hin : (u, r) ∈ []); [|by apply elem_of_nil in Hin]. rewrite <- Hnil. apply list_elem_of_filter.
    split; [done|]. by apply elem_of_due_rows. }
  destruct (last P) as [[x rx]|] eqn:Hlast; [|by apply last_None in Hlast; rewrite Hlast in Hscan; inv Hscan].
  destruct (Hadv _ _ eq_refl) as (Hlt & Hsome & Hin). intros Hrun. unfold mbind, M_bind in Hrun.
  destruct (refresh_batch v records after d (tl fs)) as [[o1 d1] fs1] eqn:Eb.
  destruct (batch_settles f _ _ _ _ _ _ _ _ _ _ Hf Hd Hrows Hscan Eb) as (recs1 & -> & Hb1 & Hok1 & Hnil1).
  destruct o1 as [a'|e].
  2: { simplify_eq. exists recs1. split_and!; [done|done|done|]. intros -> _ _. by destruct (Hnil1 eq_refl). }
  destruct (Hok1 _ eq_refl) as [-> Hall]. rewrite fmap_last, Hlast in Hrun. cbn in Hrun.
  destruct (IH _ _ _ _ _ _ (plain_after f _ _ Hd Hb1) Hrun) as (recs2 & -> & Hb2 & Hok2 & Hnil2). cbn in Hb2, Hok2.
  exists recs2. split; [done|]. split_and!; [by eapply (as_before_or_trans f)| |].
  - intros Ho u r Hr Hc Haft. destruct (decide (text_lt x u)) as [Hx|Hx].
    { eapply (settled_later f); [exact Hb1|exact Hr|]. intros r' Hr' Hr1. apply Hok2; [done..| |done].
      destruct Hr' as [-> | ->]; [done|by rewrite keeps_collection]. }
    eapply (settled_stays f); [exact Hb2|]. destruct (needs_validation c h r) eqn:En; [by apply Hall, Hin|].
    rewrite (not_due f c h) by done. destruct (Hb1 u) as [-> | ->]; rewrite Hr; [done|]. cbn. f_equal. by apply (not_due f c h).
  - intros -> Hread Hfuel. destruct (Hnil1 eq_refl) as [_ ->]. apply Hnil2; [done|by eapply readable_after|].
    eapply Nat.lt_le_trans; [|apply Nat.lt_succ_r, Hfuel]. apply rows_left_less; [|done..]. cbn.
    apply set_eq. intros w. rewrite !elem_of_dom. destruct (Hb1 w) as [-> | ->]; [done|]. by rewrite fmap_is_Some.
Qed.
End refresh.

(** ** A whole refresh run

    [RefreshCollections] over every stored collection: the composition of the marks of
    RefreshProps.v and the loops of the selected collections. *)

Section run.
Context `{Env} `{TextOrder} (v : RecordValidator) `{!ValidatorLaws v} (collections : list string).
Hypothesis Hne : hash_not_empty v.
Implicit Types (d : db) (u : string) (r : row).
Notation settled := (settle v collections).

Instance settle_keeps : KeepsRow settled.
Proof.
  assert (Hu : ∀ now reason r, row_json (unknown_marked now reason r) = row_json r).
  { intros. unfold unknown_marked. by destruct (needs_unknown_mark _ _). }
  split.
  - intros. unfold settle. case_bool_decide; [apply settle_collection_collection|apply unknown_marked_collection].
  - intros. unfold settle, settle_collection, revalidated. case_bool_decide; [|apply Hu].
    destruct (_ =? _)%string; [|done]. destruct (LexiconHash v _); [by destruct (needs_validation _ _ _)|apply Hu].
  - intros. by apply settle_idem.
Qed.

Lemma settled_selected now u r :
  row_collection r ∈ collections → settled now u r = settle_collection v now (row_collection r) u r.
Proof. intros. unfold settle. by rewrite bool_decide_true. Qed.

Lemma rows_left_all d : rows_left d "" ≤ size (db_records d).
Proof. unfold rows_left. rewrite <- size_dom. apply subseteq_size. set_solver. Qed.

Lemma RefreshCollection_settles c :
  c ∈ collections → Settles settled (λ _ r, row_collection r = c) (RefreshCollection v c).
Proof.
  intros Hc. unfold RefreshCollection. destruct (LexiconHash v c) as [h|] eqn:Eh.
  - intros d fs o d' fs' Hd Hrun. unfold mbind, M_bind, gets in Hrun.
    assert (Hf : ∀ now u r, row_collection r = c → settled now u r = revalidated v now h u r).
    { intros now u r <-. rewrite settled_selected by done. unfold settle_collection. by rewrite String.eqb_refl, Eh. }
    destruct (refresh_loop_run v settled c h Hf _ _ _ _ _ _ _ Hd Hrun) as (recs & -> & Hb & Hok & Hnil).
    exists recs. split_and!; [done..| |].
    + intros Ho u r Hr Hcol. apply Hok; [done..|]. split; [apply text_le_empty|]. intros <-. destruct Hd. congruence.
    + intros Hfs Hread. apply Hnil; [done..|]. apply Nat.lt_succ_r, rows_left_all.
  - apply settles_mark. intros now u r <-. rewrite settled_selected by done. unfold settle_collection. by rewrite String.eqb_refl, Eh.
Qed.

Lemma mark_absent_settles stat :
  Settles settled (λ _ r, row_collection r = st_Collection stat ∧ row_collection r ∉ collections) (mark_absent collections stat).
Proof.
  unfold mark_absent. case_bool_decide as Hin.
  - apply (settles_weaken settled (λ _ _, False)); [|apply settles_ret]. intros _ r [E Hn]. by rewrite E in Hn.
  - apply settles_wrap. eapply settles_weaken; [|apply settles_mark]; [by intros _ r [E _]|].
    intros now u r Hc. unfold settle. rewrite bool_decide_false by by rewrite Hc. by rewrite Hc.
Qed.

(** ** Every stored collection is listed *)

Lemma collection_counts_domain d c :
  is_Some (collection_counts d !! c) ↔ ∃ u r, db_records d !! u = Some r ∧ row_collection r = c.
Proof.
  assert (Hl : ∀ rows : list row, is_Some (foldr (λ r (m : gmap string nat), <[ row_collection r := S (default 0 (m !! row_collection r)) ]> m) ∅ rows !! c)
    ↔ ∃ r, r ∈ rows ∧ row_collection r = c).
  { induction rows as [|r rows IH]; cbn [foldr]; [split; [by intros [??]|set_solver]|].
    rewrite lookup_insert_is_Some, IH. split.
    - intros [E|(_ & r' & Hr & E)]; eexists; (split; [|exact E]); [left|by right].
    - intros (r' & [->|Hr]%elem_of_cons & E); [by left|]. destruct (decide (row_collection r = c)); [by left|right]. eauto. }
  unfold collection_counts. rewrite Hl. split.
  - intros (r & ((u & r') & -> & Hu%elem_of_map_to_list)%list_elem_of_fmap & E). by exists u, r'.
  - intros (u & r & Hu & E). exists r. split; [|done]. apply list_elem_of_fmap. exists (u, r).
    split; [done|]. by apply elem_of_map_to_list.
Qed.

Lemma stats_cover d fs o d' fs' :
  GetCollectionStats d fs = (o, d', fs') →
  d' = d ∧ (fs = [] → is_ok o = true ∧ fs' = []) ∧
  ∀ stats, o = Ok stats → ∀ u r, db_records d !! u = Some r → ∃ stat, stat ∈ stats ∧ st_Collection stat = row_collection r.
Proof.
  unfold GetCollectionStats, query, stmt.
  intros Hq. assert (Hd : d' = d ∧ (fs = [] → is_ok o = true ∧ fs' = [])) by (destruct fs as [|[] fs]; by simplify_eq).
  destruct Hd as [-> Hnil]. do 2 (split; [done|]). intros stats -> u r Hr.
  destruct fs as [|[] fs]; simplify_eq.
  all: destruct (proj2 (collection_counts_domain d (row_collection r))) as [n Hn]; [by exists u, r|].
  all: exists (mkStat (row_collection r) n); split; [|done]; rewrite merge_sort_Permutation.
  all: apply list_elem_of_fmap; exists (row_collection r, n); split; [done|]; by apply elem_of_map_to_list.
Qed.

Lemma RefreshCollections_settles : Settles settled (λ _ _, True) (RefreshCollections v collections).
Proof.
  intros d fs o d' fs' Hd Hrun. unfold RefreshCollections, mbind at 1, M_bind at 1, wrap at 1 in Hrun.
  destruct (GetCollectionStats d fs) as [[o1 d1] fs1] eqn:E. apply stats_cover in E as (-> & Hnil1 & Hcover).
  destruct o1 as [stats|e].
  2: { cbn in Hrun. simplify_eq. exists (db_records d'). split_and!; [by rewrite with_records_id|by left|done|].
       intros Hfs _. by destruct (Hnil1 Hfs). }
  cbn in Hrun.
  assert (Hm : Settles settled (λ u r, (∃ stat, stat ∈ stats ∧ row_collection r = st_Collection stat ∧ row_collection r ∉ collections)
      ∨ (∃ c, c ∈ collections ∧ row_collection r = c))
    (for_each (mark_absent collections) stats ;; for_each (λ c, wrap ("refresh validation for " +:+ c) (RefreshCollection v c)) collections)).
  { apply (settles_seq settled); [intros; by setoid_rewrite keeps_collection| |intros _].
    - apply (settles_for_each settled (λ stat _ r, row_collection r = st_Collection stat ∧ row_collection r ∉ collections)).
      + intros. by rewrite keeps_collection.
      + intros. apply mark_absent_settles.
    - apply (settles_for_each settled (λ c _ r, row_collection r = c)).
      + intros. by rewrite keeps_collection.
      + intros. by apply settles_wrap, RefreshCollection_settles. }
  destruct (Hm _ _ _ _ _ Hd Hrun) as (recs & -> & Hb & Hok & Hnil). exists recs. split_and!; [done..| |].
  - intros Ho u r Hr _. apply Hok; [done..|]. destruct (decide (row_collection r ∈ collections)); [right; eauto|left].
    destruct (Hcover _ eq_refl u r Hr) as (stat & Hs & E). by exists stat.
  - intros -> Hread. destruct (Hnil1 eq_refl) as [_ ->]. by apply Hnil.
Qed.

(** C6. A refresh run that succeeds leaves every stored record with the verdict of the
    selected Lexicons, or marked as without schema when its collection has none; whatever
    statement fails, each record is as it was or has that verdict, and nothing else in the
    database changes. A run against a database that answers ends, and succeeds; and a run
    after a successful one, whenever it happens, changes no record. *)
Theorem refresh_settles d fs o d' fs' :
  rows_plain d → RefreshCollections v collections d fs = (o, d', fs') →
  (∃ recs, d' = set_records (λ _, recs) d ∧ as_before_or (settled (db_clock d)) (db_records d) recs) ∧
  (is_ok o = true → ∀ u, db_records d' !! u = settled (db_clock d) u <$> db_records d !! u) ∧
  (fs = [] → rows_readable d → is_ok o = true) ∧
  (is_ok o = true → ∀ d2 fs2, db_records d2 = db_records d' →
    db_records (RefreshCollections v collections d2 fs2).1.2 = db_records d2).
Proof.
  intros Hd Hrun. destruct (RefreshCollections_settles _ _ _ _ _ Hd Hrun) as (recs & -> & Hb & Hok & Hnil).
  assert (Hall : is_ok o = true → ∀ u, recs !! u = settled (db_clock d) u <$> db_records d !! u).
  { intros Ho u. destruct (db_records d !! u) as [r|] eqn:Er; [by apply Hok|].
    destruct (Hb u) as [-> | ->]; by rewrite Er. }
  split_and!; [by exists recs|done|intros; by apply Hnil|].
  intros Ho d2 fs2 E. cbn in E. destruct (RefreshCollections v collections d2 fs2) as [[o2 d3] fs3] eqn:E2.
  assert (Hd2 : rows_plain d2).
  { assert (Hp := plain_after settled d recs Hd Hb). unfold rows_plain in *. cbn in Hp. by rewrite E. }
  destruct (RefreshCollections_settles _ _ _ _ _ Hd2 E2) as (recs2 & -> & Hb2 & _). cbn. apply map_eq. intros u.
  destruct (Hb2 u) as [-> | ->]; [done|]. rewrite E, (Hall Ho). destruct (db_records d !! u); [|done]. cbn. by rewrite keeps_idem.
Qed.
End run.
