(* ===== verification/Versions.v ===== *)
(** * Record version history

    src/internal/database/repositories/record_versions.go: which collections keep
    history ([CollectionMatcher] and its SQL predicate), appending versions, seeding
    baselines and reading a record's history page by page. *)
From S2P Require Import Prelude GoStrings Effects Database Like RecordStore RecordProps.

Definition RecordVersionBaseline : string := "baseline".
Definition RecordVersionCreate : string := "create".
Definition RecordVersionUpdate : string := "update".
Definition MaxRecordHistoryPageSize : Z := 500.

(** record_versions.go [RecordVersionWrite] *)
Record RecordVersionWrite := mkVersionWrite {
  vw_uri : string;
  vw_cid : string;
  vw_did : string;
  vw_collection : string;
  vw_action : string;
  vw_json : option string;
  vw_live : option bool;
}.

(** record_versions.go [RecordVersion] is the row without its key: the model reads
    back [version_row]s. *)

(** ** The collection matcher *)

Record CollectionMatcher := mkMatcher { exact : gset string; prefixes : list string }.

Definition matcher_add (m : CollectionMatcher) (raw : string) : CollectionMatcher :=
  let entry := trim_space raw in
  if (entry =? "")%string then m
  else if has_suffix ".*" entry
  then mkMatcher (exact m) (prefixes m ++ [trim_suffix "*" entry])
  else mkMatcher ({[entry]} ∪ exact m) (prefixes m).

Definition NewCollectionMatcher (list : string) : CollectionMatcher :=
  foldl matcher_add (mkMatcher ∅ []) (split comma list).

Definition Empty (m : CollectionMatcher) : bool :=
  bool_decide (exact m = ∅) && bool_decide (prefixes m = []).

Definition Matches (m : CollectionMatcher) (collection : string) : bool :=
  bool_decide (collection ∈ exact m)
  || existsb (λ prefix, has_prefix prefix collection) (prefixes m).

(** ** The SQL predicate *)

(** One disjunct of the predicate, with the index of its placeholder. *)
Inductive predicate_part := EqPart (ph : nat) | LikePart (ph : nat).

Definition predicate_params (m : CollectionMatcher) : list Value :=
  (TextValue <$> elements (exact m)) ++
  ((λ prefix, TextValue (escapeLike prefix +:+ "%")) <$> prefixes m).

Definition predicate_parts (m : CollectionMatcher) (base : nat) : list predicate_part :=
  let n := size (exact m) in
  ((λ i, EqPart (base + i)) <$> seq 1 n) ++
  ((λ i, LikePart (base + i)) <$> seq (n + 1) (length (prefixes m))).

Definition render_part `{Env} (column : string) (p : predicate_part) : string :=
  match p with
  | EqPart i => column +:+ " = " +:+ Placeholder i
  | LikePart i => column +:+ " LIKE " +:+ Placeholder i +:+ " ESCAPE '\'"
  end.

Definition sqlPredicate `{Env} (m : CollectionMatcher) (column : string) (base : nat)
    : string * list Value :=
  match predicate_parts m base with
  | [] => ("1 = 0", [])
  | parts => ("(" +:+ join " OR " (render_part column <$> parts) +:+ ")", predicate_params m)
  end.

(** The parameter bound to the placeholder numbered [i], the [pos]-th of the text,
    when the parameters start after [base]. *)
Definition bound_text `{Env} (params : list Value) (base pos i : nat) : string :=
  let k := match dialect with SQLite => pos | PostgreSQL => i - base - 1 end in
  null_string (column_text (nth k params NullValue)).

Definition eval_part `{Env} (params : list Value) (base : nat) (column : string)
    (pos : nat) (p : predicate_part) : bool :=
  match p with
  | EqPart i => (column =? bound_text params base pos i)%string
  | LikePart i => like_match (like_tokens (bound_text params base pos i)) column
  end.

(** The rows the predicate selects, by the value of the column. *)
Definition predicate_holds `{Env} (m : CollectionMatcher) (base : nat) (column : string) : bool :=
  existsb id (imap (eval_part (predicate_params m) base column) (predicate_parts m base)).

(** ** Writing history *)

Section versions.
Context `{Env}.

Definition versionKey (v : RecordVersionWrite) : string :=
  if negb (vw_cid v =? "")%string then vw_cid v
  else "sha256:" +:+ sha256_hex (default "" (vw_json v)).

(** The unique index on [(uri, version_key)]. *)
Definition has_version (uri key : string) (vs : list version_row) : bool :=
  existsb (λ v, (ver_uri v =? uri)%string && (ver_key v =? key)%string) vs.

(** [INSERT ... ON CONFLICT DO NOTHING] of one row; the row's id is the counter's
    next value. PostgreSQL's sequence advances on a conflict too. *)
Definition insert_version (mk : Z → version_row) (d : db) : db :=
  let v := mk (db_next_version d) in
  let next := (db_next_version d + 1)%Z in
  if has_version (ver_uri v) (ver_key v) (db_versions d)
  then match dialect with
       | SQLite => d
       | PostgreSQL => mkDb (db_records d) (db_versions d) next (db_actors d)
                         (db_activity d) (db_next_activity d) (db_clock d) (db_labels d) (db_next_label d) (db_label_states d)
       end
  else mkDb (db_records d) (db_versions d ++ [v]) next (db_actors d)
         (db_activity d) (db_next_activity d) (db_clock d) (db_labels d) (db_next_label d) (db_label_states d).

Definition store_nullable_json (j : option string) : outcome (option string) :=
  match j with None => Ok None | Some j => Some <$> store_json j end.

Definition Append (v : RecordVersionWrite) : M db unit :=
  if (vw_uri v =? "")%string || (vw_did v =? "")%string || (vw_collection v =? "")%string
  then throw "record version requires uri, did and collection"
  else if bool_decide (vw_action v = RecordVersionCreate ∨ vw_action v = RecordVersionUpdate)
  then wrap ("append record version for " +:+ vw_uri v) (stmt (λ d,
    json ← store_nullable_json (vw_json v);
    mret (tt, insert_version (λ id, mkVersion id (vw_uri v) (vw_cid v) (versionKey v) (vw_did v)
      (vw_collection v) (vw_action v) json (vw_live v) (db_clock d)) d)))
  else throw ("unsupported record version action " +:+ vw_action v).

(** The rows [SeedBaseline] selects, in an order the database chooses (the map's). *)
Definition seed_rows (m : CollectionMatcher) (d : db) : list (string * row) :=
  filter (λ kv : string * row, predicate_holds m 0 (row_collection kv.2) = true ∧
    existsb (λ v, (ver_uri v =? kv.1)%string) (db_versions d) = false) (map_to_list (db_records d)).

Definition baseline_version (kv : string * row) (id : Z) : version_row :=
  let r := kv.2 in
  mkVersion id kv.1 (row_cid r) (if (row_cid r =? "")%string then "baseline" else row_cid r)
    (row_did r) (row_collection r) RecordVersionBaseline (Some (row_json r)) None (row_indexed_at r).

Definition seed (m : CollectionMatcher) (d : db) : db :=
  foldl (λ d kv, insert_version (baseline_version kv) d) d (seed_rows m d).

Definition SeedBaseline (m : CollectionMatcher) : M db nat :=
  if Empty m then mret 0
  else wrap "seed record version baseline" (stmt (λ d,
    let d' := seed m d in
    Ok (length (db_versions d') - length (db_versions d), d'))).

(** ** Reading history *)

Definition ListByURI (uri : string) (afterID limit : Z) : M db (list version_row) :=
  if (limit <=? 0)%Z || (MaxRecordHistoryPageSize <? limit)%Z
  then throw "record history page size must be between 1 and 500"
  else wrap ("list record versions for " +:+ uri) (query (λ d,
    take (Z.to_nat limit) (filter (λ v, ver_uri v = uri ∧ (afterID < ver_id v)%Z) (db_versions d)))).

End versions.

(** ** The predicate selects what the matcher accepts *)

Section predicate.
Context `{Env}.

(** Every placeholder of the predicate is bound to the parameter rendered for it. *)
Lemma predicate_eval m base column :
  imap (eval_part (predicate_params m) base column) (predicate_parts m base) =
  ((λ x, (column =? x)%string) <$> elements (exact m)) ++
  ((λ p, like_match (like_tokens (escapeLike p +:+ "%")) column) <$> prefixes m).
Proof.
  assert (Hk : ∀ k, (match dialect with SQLite => k | PostgreSQL => base + S k - base - 1 end) = k)
    by (intros; destruct dialect; lia).
  unfold predicate_parts. change (size (exact m)) with (length (elements (exact m))).
  set (n := length (elements (exact m))).
  rewrite imap_app, length_fmap, length_seq. f_equal.
  - apply list_eq. intros k. rewrite list_lookup_imap, !list_lookup_fmap.
    destruct (elements (exact m) !! k) as [x|] eqn:E.
    + rewrite lookup_seq_lt by (by eapply lookup_lt_Some). cbn. unfold bound_text.
      rewrite Hk. unfold predicate_params.
      by rewrite (nth_lookup_Some _ _ _ (TextValue x)) by
        (apply lookup_app_l_Some; by rewrite list_lookup_fmap, E).
    + by rewrite lookup_seq_ge by (by apply lookup_ge_None in E).
  - apply list_eq. intros k. rewrite list_lookup_imap, !list_lookup_fmap.
    destruct (prefixes m !! k) as [p|] eqn:E.
    + rewrite lookup_seq_lt by (by eapply lookup_lt_Some). cbn. unfold bound_text.
      replace (base + (n + 1 + k)) with (base + S (n + k)) by lia. rewrite Hk. unfold predicate_params.
      rewrite (nth_lookup_Some _ _ _ (TextValue (escapeLike p +:+ "%"))); [done|].
      rewrite lookup_app_r by (rewrite length_fmap; lia). rewrite list_lookup_fmap, length_fmap.
      fold n. replace (n + k - n) with k by lia. by rewrite E.
    + by rewrite lookup_seq_ge by (by apply lookup_ge_None in E).
Qed.

Lemma existsb_fmap {A B} (f : B → bool) (g : A → B) l : existsb f (g <$> l) = existsb (λ x, f (g x)) l.
Proof. induction l as [|x l IH]; [done|]. cbn. f_equal. apply IH. Qed.

Lemma predicate_holds_spec m base column :
  predicate_holds m base column =
  bool_decide (column ∈ exact m)
  || existsb (λ p, has_prefix (fold_case p) (fold_case column)) (prefixes m).
Proof.
  unfold predicate_holds. rewrite predicate_eval, existsb_app, !existsb_fmap. f_equal.
  - apply eq_true_iff_eq. rewrite existsb_exists, bool_decide_eq_true, <- elem_of_elements.
    split.
    + intros (x & Hx & He). apply String.eqb_eq in He as ->. by apply list_elem_of_In.
    + intros Hx. exists column. split; [by apply list_elem_of_In|]. apply String.eqb_refl.
  - induction (prefixes m) as [|p ps IH]; [done|]. cbn. f_equal; [apply like_prefix|apply IH].
Qed.

Lemma fold_case_append p s : fold_case (p +:+ s) = fold_case p +:+ fold_case s.
Proof. induction p as [|c p IH]; [done|]. rewrite append_cons. cbn. by rewrite IH. Qed.

Lemma matches_predicate m base column : Matches m column = true → predicate_holds m base column = true.
Proof.
  rewrite predicate_holds_spec. unfold Matches. intros [->|He]%orb_prop; [done|].
  apply orb_true_intro. right. apply existsb_exists in He as (p & Hp & Hpre).
  apply existsb_exists. exists p. split; [done|]. apply prefix_true in Hpre as [t ->].
  rewrite fold_case_append. apply has_prefix_append.
Qed.

Lemma predicate_matches_pg m base column :
  dialect = PostgreSQL → predicate_holds m base column = Matches m column.
Proof.
  intros Hd. rewrite predicate_holds_spec. unfold Matches. f_equal.
  assert (Hf : ∀ s, fold_case s = s) by (induction s as [|c s IH]; cbn; rewrite ?Hd, ?IH; done).
  induction (prefixes m) as [|p ps IH]; [done|]. cbn. by rewrite IH, !Hf.
Qed.
End predicate.
