(* ===== verification/VersionProps.v ===== *)
(** * What version history guarantees

    A version is stored once per URI and key however often it is delivered, in id
    order; seeding baselines is idempotent; paging reads every version once. *)
From S2P Require Import Prelude GoStrings Effects Database Like RecordStore RecordProps DeleteProps Versions.

Section versions.
Context `{Env}.

(** The unique index, and ids that increase and stay below the counter. *)
Record versions_wf (d : db) : Prop := {
  vwf_unique : NoDup ((λ v, (ver_uri v, ver_key v)) <$> db_versions d);
  vwf_increasing : increasing ver_id Z.lt (db_versions d);
  vwf_next : Forall (λ v, (0 < ver_id v < db_next_version d)%Z) (db_versions d);
  vwf_positive : (0 < db_next_version d)%Z;
}.

Lemma has_version_spec u k vs :
  has_version u k vs = true ↔ (u, k) ∈ ((λ v, (ver_uri v, ver_key v)) <$> vs).
Proof.
  unfold has_version. rewrite existsb_exists, list_elem_of_fmap. split.
  - intros (v & Hv & [?%String.eqb_eq ?%String.eqb_eq]%andb_prop). exists v.
    split; [congruence|by apply list_elem_of_In].
  - intros (v & [= -> ->] & Hv). exists v. split; [by apply list_elem_of_In|].
    by rewrite !String.eqb_refl.
Qed.

Lemma insert_version_wf mk d :
  (∀ id, ver_id (mk id) = id) → versions_wf d → versions_wf (insert_version mk d).
Proof.
  intros Hid [Hu Hs Hn Hp]. unfold insert_version. destruct (has_version _ _ _) eqn:E.
  - destruct dialect; [by split|]. split; simpl; [done|done| |lia].
    eapply Forall_impl; [exact Hn|]. simpl. lia.
  - split; simpl.
    + rewrite fmap_app. apply NoDup_app. split_and!; [done| |apply NoDup_singleton].
      intros p Hin ->%list_elem_of_singleton. apply has_version_spec in Hin.
      simpl in *. congruence.
    + apply increasing_snoc; [done|]. rewrite Hid. eapply Forall_impl; [exact Hn|]. simpl. lia.
    + apply Forall_app. split; [eapply Forall_impl; [exact Hn|]; simpl; lia|].
      constructor; [rewrite Hid; lia|constructor].
    + lia.
Qed.

Lemma wf_delete sel d : versions_wf d → versions_wf (delete_versions sel d).
Proof.
  intros [Hu Hs Hn Hp]. split; simpl; [| | |done].
  - eapply sublist_NoDup; [exact Hu|]. apply fmap_sublist, sublist_filter.
  - by apply increasing_filter.
  - rewrite Forall_forall in *. intros v [_ Hv]%list_elem_of_filter. by apply Hn.
Qed.

Lemma wf_records f d : versions_wf d → versions_wf (set_records f d).
Proof. by intros []. Qed.

(** What one insertion does to the history. *)
Lemma insert_version_cases mk d :
  let v := mk (db_next_version d) in
  (has_version (ver_uri v) (ver_key v) (db_versions d) = true ∧
   db_versions (insert_version mk d) = db_versions d) ∨
  (has_version (ver_uri v) (ver_key v) (db_versions d) = false ∧
   db_versions (insert_version mk d) = db_versions d ++ [v]).
Proof.
  intros v. unfold insert_version. fold v. destruct (has_version _ _ _) eqn:E; [left|by right].
  split; [done|]. by destruct dialect.
Qed.

Lemma insert_version_records mk d : db_records (insert_version mk d) = db_records d.
Proof. unfold insert_version. destruct (has_version _ _ _), dialect; done. Qed.

Lemma insert_version_clock mk d : db_clock (insert_version mk d) = db_clock d.
Proof. unfold insert_version. destruct (has_version _ _ _), dialect; done. Qed.

Lemma has_version_app u k vs v :
  has_version u k (vs ++ [v]) = has_version u k vs || ((ver_uri v =? u)%string && (ver_key v =? k)%string).
Proof. unfold has_version. rewrite existsb_app. simpl. by rewrite orb_false_r. Qed.

Lemma insert_version_has mk d :
  (∀ i j, ver_uri (mk i) = ver_uri (mk j) ∧ ver_key (mk i) = ver_key (mk j)) →
  has_version (ver_uri (mk 0%Z)) (ver_key (mk 0%Z)) (db_versions (insert_version mk d)) = true.
Proof.
  intros Hmk. destruct (Hmk 0%Z (db_next_version d)) as [-> ->].
  destruct (insert_version_cases mk d) as [[? ->]|[_ ->]]; [done|].
  by rewrite has_version_app, !String.eqb_refl, orb_true_r.
Qed.

Lemma append_ok v d fs d' fs' :
  Append v d fs = (Ok (), d', fs') → ∃ json,
    store_nullable_json (vw_json v) = Ok json ∧
    d' = insert_version (λ id, mkVersion id (vw_uri v) (vw_cid v) (versionKey v) (vw_did v)
      (vw_collection v) (vw_action v) json (vw_live v) (db_clock d)) d ∧
    ∀ d2, db_clock d2 = db_clock d → (Append v d2 []).1 =
      (Ok (), insert_version (λ id, mkVersion id (vw_uri v) (vw_cid v) (versionKey v) (vw_did v)
        (vw_collection v) (vw_action v) json (vw_live v) (db_clock d)) d2).
Proof.
  unfold Append. destruct (_ || _); [done|]. destruct (bool_decide _); [|done].
  intros (o & E & Ho)%wrap_inv. symmetry in Ho. apply wrap_err_inv in Ho as ->.
  apply stmt_ok_inv in E. unfold mbind, outcome_bind in *.
  destruct (store_nullable_json (vw_json v)) as [json|] eqn:Ej; [|done].
  inv E. exists json. split_and!; [done..|]. intros d2 Hc. unfold wrap, stmt. simpl. by rewrite Hc.
Qed.

Lemma append_err v d fs e d' fs' : Append v d fs = (Err e, d', fs') → d' = d.
Proof.
  unfold Append. destruct (_ || _); [by intros [= _ -> _]|]. destruct (bool_decide _); [|by intros [= _ -> _]].
  intros (o & E & Ho)%wrap_inv. destruct o; [done|]. by apply stmt_err_inv in E.
Qed.

(** Recording a version: an error changes nothing. A success keeps the stored
    history as a prefix, adds at most one row, and only if the URI had no version
    with this key; afterwards it has one, so delivering the event again adds nothing. *)
Theorem Append_once v d fs :
  match Append v d fs with
  | (Ok _, d', _) =>
      has_version (vw_uri v) (versionKey v) (db_versions d') = true ∧
      (if has_version (vw_uri v) (versionKey v) (db_versions d) then db_versions d' = db_versions d
       else ∃ row, db_versions d' = db_versions d ++ [row] ∧
            ver_uri row = vw_uri v ∧ ver_key row = versionKey v ∧ ver_observed_at row = db_clock d) ∧
      db_versions (Append v d' []).1.2 = db_versions d' ∧ db_records d' = db_records d
  | (Err _, d', _) => d' = d
  end.
Proof.
  destruct (Append v d fs) as [[[[]|e] d'] fs'] eqn:E; [|by apply append_err in E].
  apply append_ok in E as (json & _ & -> & Hagain).
  set (mk := λ id, mkVersion id _ _ _ _ _ _ _ _ _) in *.
  assert (Hmk := insert_version_has mk d (λ i j, conj eq_refl eq_refl)). simpl in Hmk.
  split_and!; [done| | |apply insert_version_records].
  - destruct (insert_version_cases mk d) as [[He ->]|[He ->]]; simpl in He; rewrite He; [done|].
    by eexists.
  - rewrite Hagain by apply insert_version_clock. simpl.
    destruct (insert_version_cases mk (insert_version mk d)) as [[_ ->]|[He _]]; [done|].
    simpl in He. congruence.
Qed.

(** ** Baselines *)

Definition uri_in (vs : list version_row) (u : string) : bool :=
  existsb (λ v, (ver_uri v =? u)%string) vs.

Lemma uri_in_spec vs u : uri_in vs u = true ↔ u ∈ (ver_uri <$> vs).
Proof.
  unfold uri_in. rewrite existsb_exists, list_elem_of_fmap. split.
  - intros (v & Hv & E%String.eqb_eq). exists v. split; [done|by apply list_elem_of_In].
  - intros (v & -> & Hv). exists v. split; [by apply list_elem_of_In|apply String.eqb_refl].
Qed.

Lemma has_version_uri u k vs : uri_in vs u = false → has_version u k vs = false.
Proof.
  intros Hu. apply not_true_iff_false. intros Hv%has_version_spec.
  apply not_true_iff_false in Hu. apply Hu, uri_in_spec.
  apply list_elem_of_fmap in Hv as (v & [= -> _] & Hv). by apply list_elem_of_fmap_2.
Qed.

Definition seed_fold (kvs : list (string * row)) (d : db) : db :=
  foldl (λ d kv, insert_version (baseline_version kv) d) d kvs.

(** Every seeded row is new. *)
Lemma seed_fold_versions kvs d :
  NoDup kvs.*1 → Forall (λ kv, uri_in (db_versions d) kv.1 = false) kvs →
  ∃ vs, db_versions (seed_fold kvs d) = db_versions d ++ vs ∧ ver_uri <$> vs = kvs.*1 ∧
    Forall2 (λ kv v, v = baseline_version kv (ver_id v)) kvs vs.
Proof.
  revert d. induction kvs as [|kv kvs IH]; intros d Hnd Hin.
  - exists []. by rewrite app_nil_r.
  - apply NoDup_cons in Hnd as [Hkv Hnd]. apply Forall_cons in Hin as [Hk Hin]. cbn [seed_fold foldl].
    destruct (insert_version_cases (baseline_version kv) d) as [[He _]|[_ Hv]];
      [cbn in He; by rewrite has_version_uri in He|].
    destruct (IH (insert_version (baseline_version kv) d)) as (vs & Hvs & Hu & Ha); [done| |].
    + rewrite Hv. rewrite Forall_forall in *. intros kv' Hkv'. apply not_true_iff_false.
      rewrite uri_in_spec, fmap_app, elem_of_app. intros [Hi|Hi%list_elem_of_singleton].
      * apply uri_in_spec in Hi. by rewrite Hin in Hi.
      * apply Hkv. cbn in Hi. rewrite <- Hi. by apply list_elem_of_fmap_2.
    + exists (baseline_version kv (db_next_version d) :: vs).
      unfold seed_fold in Hvs. rewrite Hvs, Hv, <- app_assoc. split_and!; [done| |by constructor].
      cbn. by rewrite Hu.
Qed.

Lemma seed_fold_records kvs d : db_records (seed_fold kvs d) = db_records d.
Proof.
  revert d. induction kvs as [|kv kvs IH]; intros d; [done|]. cbn.
  unfold seed_fold in IH. by rewrite IH, insert_version_records.
Qed.

Lemma seed_rows_nodup m d : NoDup (seed_rows m d).*1.
Proof.
  unfold seed_rows. eapply sublist_NoDup; [|apply fmap_sublist, sublist_filter].
  apply (NoDup_fst_map_to_list (M := gmap string)).
Qed.

Lemma elem_of_seed_rows m d u r :
  (u, r) ∈ seed_rows m d ↔
  db_records d !! u = Some r ∧ predicate_holds m 0 (row_collection r) = true ∧ uri_in (db_versions d) u = false.
Proof.
  unfold seed_rows. rewrite list_elem_of_filter, elem_of_map_to_list. unfold uri_in. naive_solver.
Qed.

Lemma seed_versions m d :
  ∃ vs, db_versions (seed m d) = db_versions d ++ vs ∧ ver_uri <$> vs = (seed_rows m d).*1 ∧
    Forall2 (λ kv v, v = baseline_version kv (ver_id v)) (seed_rows m d) vs.
Proof.
  apply seed_fold_versions; [apply seed_rows_nodup|].
  apply Forall_forall. intros [u r] Hin. by apply elem_of_seed_rows in Hin as (_ & _ & ?).
Qed.

Lemma seed_rows_seeded m d : seed_rows m (seed m d) = [].
Proof.
  destruct (seed_rows m (seed m d)) as [|[u r] l] eqn:E; [done|exfalso].
  assert ((u, r) ∈ seed_rows m (seed m d)) as Hin by (rewrite E; left).
  apply elem_of_seed_rows in Hin as (Hr & Hp & Hu).
  change (seed m d) with (seed_fold (seed_rows m d) d) in Hr. rewrite seed_fold_records in Hr.
  destruct (seed_versions m d) as (vs & Hvs & Huris & _). rewrite Hvs in Hu.
  apply not_true_iff_false in Hu. apply Hu. rewrite uri_in_spec, fmap_app, elem_of_app, Huris.
  destruct (uri_in (db_versions d) u) eqn:Eu; [left; by apply uri_in_spec|right].
  apply list_elem_of_fmap. exists (u, r). split; [done|]. by apply elem_of_seed_rows.
Qed.

(** Seeding: an error changes nothing; a success appends one baseline version for
    each record of a selected collection that had no history, reports how many, and
    leaves nothing for a second run to do. Every collection the matcher accepts is
    selected (on PostgreSQL exactly those). *)
Theorem SeedBaseline_idempotent m d fs :
  Empty m = false →
  match SeedBaseline m d fs with
  | (Ok n, d', _) =>
      (∃ vs, db_versions d' = db_versions d ++ vs ∧ n = length vs ∧
         (∀ u, u ∈ (ver_uri <$> vs) ↔ ∃ r, db_records d !! u = Some r ∧
            predicate_holds m 0 (row_collection r) = true ∧ uri_in (db_versions d) u = false) ∧
         NoDup (ver_uri <$> vs)) ∧
      (∀ u r, db_records d !! u = Some r → Matches m (row_collection r) = true →
         uri_in (db_versions d') u = true) ∧
      SeedBaseline m d' [] = (Ok 0, d', [])
  | (Err _, d', _) => d' = d
  end.
Proof.
  intros Hm. destruct (SeedBaseline m d fs) as [[[n|e] d'] fs'] eqn:E;
    unfold SeedBaseline in E; rewrite Hm in E; apply wrap_inv in E as (o & E & Ho);
    destruct o; simplify_eq/=; [|by apply stmt_err_inv in E].
  apply stmt_ok_inv in E. cbn in E. injection E as <- <-.
  destruct (seed_versions m d) as (vs & Hvs & Huris & _). split_and!.
  - exists vs. rewrite Hvs, length_app, Huris. split_and!; [done|lia| |apply seed_rows_nodup].
    intros u. rewrite list_elem_of_fmap. split.
    + intros ([u' r] & -> & Hin). exists r. by apply elem_of_seed_rows.
    + intros (r & Hr). exists (u, r). by rewrite elem_of_seed_rows.
  - intros u r Hr Hmat. rewrite Hvs, uri_in_spec, fmap_app, elem_of_app, Huris.
    destruct (uri_in (db_versions d) u) eqn:Eu; [left; by apply uri_in_spec|right].
    apply list_elem_of_fmap. exists (u, r). split; [done|].
    apply elem_of_seed_rows. split_and!; [done|by apply matches_predicate|done].
  - unfold SeedBaseline. rewrite Hm. unfold wrap, stmt. simpl.
    assert (seed m (seed m d) = seed m d) as ->; [|by rewrite Nat.sub_diag].
    unfold seed at 1. by rewrite seed_rows_seeded.
Qed.

(** ** Reading a record's history *)

(** A client that pages through [ListByURI] until it gets nothing. *)
Fixpoint read_history (fuel : nat) (uri : string) (afterID limit : Z) : M db (list version_row) :=
  match fuel with
  | O => throw "out of fuel"
  | S f =>
      vs ← ListByURI uri afterID limit;
      match last vs with
      | None => mret []
      | Some v => rest ← read_history f uri (ver_id v) limit; mret (vs ++ rest)
      end
  end.

Lemma list_by_uri_ok uri a limit d :
  (0 < limit ≤ MaxRecordHistoryPageSize)%Z →
  ListByURI uri a limit d [] =
  (Ok (page ver_id Z.lt (filter (λ v, ver_uri v = uri) (db_versions d)) a (Z.to_nat limit)), d, []).
Proof.
  intros Hl. unfold ListByURI. destruct (Z.leb_spec limit 0); [lia|].
  destruct (Z.ltb_spec MaxRecordHistoryPageSize limit); [lia|]. simpl.
  unfold wrap, query, stmt, page. simpl. do 3 f_equal. f_equal.
  rewrite list_filter_filter. apply list_filter_iff. intros. tauto.
Qed.

Lemma read_history_ok fuel uri a limit d :
  (0 < limit ≤ MaxRecordHistoryPageSize)%Z → versions_wf d →
  length (filter (λ v, (a < ver_id v)%Z) (filter (λ v, ver_uri v = uri) (db_versions d))) < fuel →
  read_history fuel uri a limit d [] =
  (Ok (filter (λ v, (a < ver_id v)%Z) (filter (λ v, ver_uri v = uri) (db_versions d))), d, []).
Proof.
  intros Hl Hwf. revert a. induction fuel as [|f IH]; intros a Hf; [lia|].
  cbn [read_history]. rewrite (bind_ok _ _ _ _ _ _ _ (list_by_uri_ok uri a limit d Hl)).
  set (l := filter (λ v, ver_uri v = uri) (db_versions d)) in *.
  assert (Hinc : increasing ver_id Z.lt l) by apply increasing_filter, Hwf.
  destruct (last (page ver_id Z.lt l a (Z.to_nat limit))) as [x|] eqn:Hlast.
  - destruct (page_step ver_id Z.lt l a (Z.to_nat limit) x Hinc Hlast) as [_ Heq].
    rewrite Heq, length_app in Hf.
    assert (Hf' : length (filter (λ v, (ver_id x < ver_id v)%Z) l) < f)
      by (destruct (page ver_id Z.lt l a (Z.to_nat limit)); [done|simpl in *; lia]).
    rewrite (bind_ok _ _ d [] _ d [] (IH (ver_id x) Hf')). by rewrite Heq.
  - apply last_None in Hlast. unfold page in Hlast.
    apply take_nil_inv in Hlast as [?|Hnil]; [lia|]. by rewrite Hnil.
Qed.

(** Reading a history page by page, with any page size the code admits, yields every
    stored version of the URI, oldest first and each once, and nothing else. *)
Theorem read_history_complete uri limit d :
  (0 < limit ≤ MaxRecordHistoryPageSize)%Z → versions_wf d →
  (read_history (S (length (db_versions d))) uri 0 limit d []).1 =
  (Ok (filter (λ v, ver_uri v = uri) (db_versions d)), d).
Proof.
  intros Hl Hwf. pose proof (vwf_next _ Hwf) as Hpos. rewrite Forall_forall in Hpos.
  assert (Hall : filter (λ v, (0 < ver_id v)%Z) (filter (λ v, ver_uri v = uri) (db_versions d))
    = filter (λ v, ver_uri v = uri) (db_versions d)).
  { apply filter_all, Forall_forall. intros v [_ Hv]%list_elem_of_filter. by apply Hpos. }
  rewrite read_history_ok; [by rewrite Hall|done|done|].
  rewrite Hall. apply Nat.lt_succ_r. apply length_filter.
Qed.

(** ** The invariant *)

(** The operations that touch [record_version]. *)
Inductive history_op :=
  | HAppend (v : RecordVersionWrite)
  | HSeed (m : CollectionMatcher)
  | HDelete (uri : string)
  | HDeleteReturning (uri : string)
  | HDeleteByDID (did : string)
  | HPurge (did : string).

Definition run_history_op (op : history_op) : M db unit :=
  match op with
  | HAppend v => Append v
  | HSeed m => SeedBaseline m ;; mret tt
  | HDelete uri => Delete uri
  | HDeleteReturning uri => DeleteReturning uri ;; mret tt
  | HDeleteByDID did => DeleteByDID did
  | HPurge did => PurgeActorData did
  end.

Lemma seed_wf m d : versions_wf d → versions_wf (seed m d).
Proof.
  unfold seed. generalize (seed_rows m d) as kvs. intros kvs; revert d.
  induction kvs as [|kv kvs IH]; intros d Hwf; [done|]. simpl. apply IH. by apply insert_version_wf.
Qed.

Lemma preserves_wf_delete column value :
  Preserves versions_wf (deleteVersionHistoryTx column value).
Proof. apply preserves_wrap, preserves_exec, wf_delete. Qed.

Lemma preserves_wf_records msg sel : Preserves versions_wf (wrap msg (exec (delete_records sel))).
Proof. apply preserves_wrap, preserves_exec. intros d. apply wf_records. Qed.

Lemma preserves_wf_op op : Preserves versions_wf (run_history_op op).
Proof.
  destruct op; simpl.
  - intros d fs [[]|e] d' fs' Hwf E; [|by apply append_err in E; subst].
    apply append_ok in E as (json & _ & -> & _). by apply insert_version_wf.
  - apply preserves_bind; [|intros; apply preserves_ret]. unfold SeedBaseline.
    destruct (Empty m); [apply preserves_ret|]. apply preserves_wrap, preserves_stmt.
    intros d n d' Hwf [= _ <-]. by apply seed_wf.
  - apply preserves_transaction, preserves_bind; intros; [apply preserves_wf_delete|apply preserves_wf_records].
  - apply preserves_bind; [|intros; apply preserves_ret].
    apply preserves_transaction, preserves_bind; intros; [apply preserves_wf_delete|].
    apply preserves_stmt. intros d o d' Hwf. destruct (db_records d !! uri) as [r|]; [|by intros [= _ <-]].
    unfold mbind, outcome_bind. destruct (scan_record _); [|done]. intros [= _ <-]. by apply wf_records.
  - apply preserves_transaction, preserves_bind; intros; [apply preserves_wf_delete|apply preserves_wf_records].
  - apply preserves_transaction. repeat (apply preserves_bind; intros);
      [apply preserves_wf_records|apply preserves_wf_delete|].
    apply preserves_wrap, preserves_exec. by intros d [].
Qed.

(** What an operation takes away. *)
Definition removes (op : history_op) (v : version_row) : bool :=
  match op with
  | HDelete uri | HDeleteReturning uri => (ver_uri v =? uri)%string
  | HDeleteByDID did | HPurge did => (ver_did v =? did)%string
  | HAppend _ | HSeed _ => false
  end.

Definition removes_record (op : history_op) (kv : string * row) : bool :=
  match op with
  | HDelete uri | HDeleteReturning uri => (kv.1 =? uri)%string
  | HDeleteByDID did | HPurge did => (row_did kv.2 =? did)%string
  | HAppend _ | HSeed _ => false
  end.

(** The key of a version: the CID of its content, else a hash of its text. *)
Definition keyed (v : RecordVersionWrite) (key : string) : Prop :=
  (vw_cid v ≠ "" → key = vw_cid v) ∧ (vw_cid v = "" → key = "sha256:" +:+ sha256_hex (default "" (vw_json v))).

(** One version as it was observed, unless the record has one with this key. *)
Definition appended (v : RecordVersionWrite) (d : db) (rows : list version_row) : Prop :=
  ∃ key, keyed v key ∧
    if has_version (vw_uri v) key (db_versions d) then rows = []
    else ∃ id json, store_nullable_json (vw_json v) = Ok json ∧
      rows = [mkVersion id (vw_uri v) (vw_cid v) key (vw_did v) (vw_collection v) (vw_action v) json (vw_live v) (db_clock d)].

(** The collections a seeding selects: those listed, and those with a listed prefix, on SQLite in whatever case. *)
Definition selected (m : CollectionMatcher) (collection : string) : Prop :=
  collection ∈ exact m ∨ ∃ p, p ∈ prefixes m ∧ has_prefix (fold_case p) (fold_case collection) = true.

(** A baseline shows the stored record as of the time it was indexed. *)
Definition is_baseline (uri : string) (r : row) (v : version_row) : Prop :=
  v = mkVersion (ver_id v) uri (row_cid r) (ver_key v) (row_did r) (row_collection r) "baseline" (Some (row_json r)) None (row_indexed_at r) ∧
  (row_cid r ≠ "" → ver_key v = row_cid r) ∧ (row_cid r = "" → ver_key v = "baseline").

(** One baseline for each selected record without history. *)
Definition seeded (m : CollectionMatcher) (d : db) (rows : list version_row) : Prop :=
  NoDup (ver_uri <$> rows) ∧
  (∀ v, v ∈ rows → ∃ r, db_records d !! ver_uri v = Some r ∧ selected m (row_collection r) ∧
     ver_uri v ∉ (ver_uri <$> db_versions d) ∧ is_baseline (ver_uri v) r v) ∧
  (∀ u r, db_records d !! u = Some r → selected m (row_collection r) → u ∈ (ver_uri <$> db_versions d) ∨ u ∈ (ver_uri <$> rows)).

Definition added (op : history_op) (d : db) (rows : list version_row) : Prop :=
  match op with HAppend v => appended v d rows | HSeed m => seeded m d rows | _ => rows = [] end.

(** What is not refused. *)
Definition admissible (op : history_op) (d : db) : Prop :=
  match op with
  | HAppend v => vw_uri v ≠ "" ∧ vw_did v ≠ "" ∧ vw_collection v ≠ "" ∧ (vw_action v = "create" ∨ vw_action v = "update") ∧
      is_ok (store_nullable_json (vw_json v)) = true
  | HDeleteReturning uri => ∀ r, db_records d !! uri = Some r → is_ok (scan_record (uri, r)) = true
  | _ => True
  end.

Lemma selected_spec m c : predicate_holds m 0 c = true ↔ selected m c.
Proof.
  rewrite predicate_holds_spec, orb_true_iff, bool_decide_eq_true, existsb_exists. unfold selected.
  split; (intros [?|(p & Hp & ?)]; [by left|right; exists p; split; [|done]]); by apply list_elem_of_In.
Qed.

Lemma versionKey_keyed v : keyed v (versionKey v).
Proof. unfold versionKey, keyed. by destruct (String.eqb_spec (vw_cid v) ""). Qed.

Lemma append_appended v d fs d' fs' :
  Append v d fs = (Ok (), d', fs') → ∃ rows, db_versions d' = db_versions d ++ rows ∧ db_records d' = db_records d ∧ appended v d rows.
Proof.
  intros (json & Hj & -> & _)%append_ok. set (mk := λ id, mkVersion id _ _ _ _ _ _ _ _ _).
  destruct (insert_version_cases mk d) as [[He ->]|[He ->]]; cbn in He; rewrite insert_version_records.
  - exists []. rewrite app_nil_r. split_and!; [done|done|]. exists (versionKey v). split; [apply versionKey_keyed|]. by rewrite He.
  - eexists. split_and!; [done|done|]. exists (versionKey v). split; [apply versionKey_keyed|]. rewrite He. by eexists _, _.
Qed.

Lemma uri_out vs u : uri_in vs u = false ↔ u ∉ (ver_uri <$> vs).
Proof. by rewrite <- not_true_iff_false, uri_in_spec. Qed.

Lemma seed_seeded m d : ∃ rows, db_versions (seed m d) = db_versions d ++ rows ∧ db_records (seed m d) = db_records d ∧ seeded m d rows.
Proof.
  destruct (seed_versions m d) as (vs & Hvs & Huris & Hrows). exists vs. split_and!; [done|apply seed_fold_records|]. split_and!.
  - rewrite Huris. apply seed_rows_nodup.
  - intros v (i & Hi)%list_elem_of_lookup. eapply Forall2_lookup_r in Hrows as ([u r] & Hkv & Hv); [|exact Hi].
    apply list_elem_of_lookup_2, elem_of_seed_rows in Hkv as (Hr & Hp & Hu). exists r. rewrite Hv. cbn. split_and!; [done|by apply selected_spec|by apply uri_out|].
    unfold is_baseline, baseline_version. cbn. by destruct (String.eqb_spec (row_cid r) "").
  - intros u r Hr Hsel%selected_spec. rewrite Huris. destruct (uri_in (db_versions d) u) eqn:Eu; [left; by apply uri_in_spec|right].
    apply list_elem_of_fmap. exists (u, r). split; [done|]. by apply elem_of_seed_rows.
Qed.

Lemma seeded_none m d : Empty m = true → seeded m d [].
Proof.
  intros [He%bool_decide_eq_true Hp%bool_decide_eq_true]%andb_prop. split_and!; [constructor|by intros v ?%elem_of_nil|].
  intros u r _ [Hin|(p & Hin & _)]; [rewrite He in Hin|rewrite Hp in Hin]; set_solver.
Qed.

Lemma kept_all (vs : list version_row) : vs = filter (λ v, false = false) vs.
Proof. symmetry. apply filter_all, Forall_forall. done. Qed.

Lemma records_all (m : gmap string row) : m = filter (λ kv : string * row, false = false) m.
Proof. symmetry. apply map_filter_id. done. Qed.

Lemma delete_map (uri : string) (m : gmap string row) : delete uri m = filter (λ kv : string * row, (kv.1 =? uri)%string = false) m.
Proof.
  apply map_eq. intros k. rewrite map_lookup_filter. destruct (decide (k = uri)) as [->|Hne].
  - rewrite lookup_delete_eq. destruct (m !! uri); [|done]. cbn. by rewrite option_guard_False by (by rewrite String.eqb_refl).
  - rewrite lookup_delete_ne by done. destruct (m !! k); [|done]. cbn. by rewrite option_guard_True by (by apply String.eqb_neq).
Qed.

Lemma delete_with_history_spec column value d fs d' fs' :
  deleteWithHistory column value d fs = (Ok (), d', fs') →
  db_versions d' = filter (λ v, version_matches column value v = false) (db_versions d) ∧
  db_records d' = filter (λ kv : string * row, row_matches column value kv.1 kv.2 = false) (db_records d).
Proof.
  intros [fs1 E]%transaction_ok. apply bind_ok_inv in E as ([] & d1 & fs2 & ->%wrap_exec_ok & ->%wrap_exec_ok). done.
Qed.

Lemma run_op_err op d fs e d' fs' : run_history_op op d fs = (Err e, d', fs') → d' = d.
Proof.
  destruct op; cbn [run_history_op].
  - apply append_err.
  - intros Hrun. bind_cases Hrun; [done|]. injection Hrun as _ <- _. unfold SeedBaseline in E. destruct (Empty m); [done|]. apply wrap_inv in E as (o & E & Ho).
    destruct o; [done|]. by apply stmt_err_inv in E.
  - by apply transaction_err.
  - intros Hrun. bind_cases Hrun; [done|]. injection Hrun as _ <- _. by apply transaction_err in E.
  - by apply transaction_err.
  - by apply transaction_err.
Qed.

Lemma run_op_ok op d fs d' fs' : run_history_op op d fs = (Ok (), d', fs') →
  ∃ rows, db_versions d' = filter (λ v, removes op v = false) (db_versions d) ++ rows ∧
    db_records d' = filter (λ kv : string * row, removes_record op kv = false) (db_records d) ∧ added op d rows.
Proof.
  destruct op as [v|m|uri|uri|did|did]; cbn [run_history_op removes removes_record added]; intros Hrun.
  1,2: rewrite <- kept_all, <- records_all.
  - by eapply append_appended.
  - bind_cases Hrun; [|done]. injection Hrun as <- _. unfold SeedBaseline in E. destruct (Empty m) eqn:Em.
    + injection E as _ <- _. exists []. rewrite app_nil_r. split_and!; [done|done|by apply seeded_none].
    + apply wrap_inv in E as (o & E & Ho). destruct o; [|done]. apply stmt_ok_inv in E. cbn in E. injection E as _ <-. apply seed_seeded.
  - apply delete_with_history_spec in Hrun as [Hv Hr]. exists []. rewrite app_nil_r. split_and!; [exact Hv|exact Hr|done].
  - bind_cases Hrun; [|done]. injection Hrun as <- _. apply delete_returning_spec in E. exists []. rewrite app_nil_r, <- delete_map.
    match type of E with match ?x with _ => _ end => destruct x end.
    + by destruct E as [-> _].
    + destruct E as [-> Hn]. split_and!; [done| |done]. cbn. symmetry. by apply delete_id.
  - apply delete_with_history_spec in Hrun as [Hv Hr]. exists []. rewrite app_nil_r. split_and!; [exact Hv|exact Hr|done].
  - apply purge_spec in Hrun as ->. exists []. rewrite app_nil_r. split_and!; [| |done].
    + apply list_filter_iff. intros v. symmetry. apply String.eqb_neq.
    + apply map_filter_ext. intros k r _. symmetry. apply String.eqb_neq.
Qed.

Lemma run_op_admissible op d : is_ok (run_history_op op d []).1.1 = true ↔ admissible op d.
Proof.
  destruct op as [v|m|uri|uri|did|did]; cbn [run_history_op admissible].
  - unfold Append. destruct (String.eqb_spec (vw_uri v) ""); [by split; [|intros (? & _)]|].
    destruct (String.eqb_spec (vw_did v) ""); [by split; [|intros (_ & ? & _)]|].
    destruct (String.eqb_spec (vw_collection v) ""); [by split; [|intros (_ & _ & ? & _)]|]. cbn [orb].
    case_bool_decide as Ha; [|by split; [|intros (_ & _ & _ & ? & _)]]. unfold wrap, stmt. cbn.
    destruct (store_nullable_json (vw_json v)); cbn; split; [done..| |]; [done|by intros (_ & _ & _ & _ & ?)].
  - split; [done|intros _]. unfold SeedBaseline. by destruct (Empty m).
  - done.
  - unfold DeleteReturning, transaction, deleteVersionHistoryTx, wrap, exec, stmt, mbind, M_bind. cbn.
    destruct (db_records d !! uri) as [r|]; cbn; [|by split; [intros _ r|]].
    destruct (scan_record (uri, r)) eqn:Es; cbn; (split; [intros Hok r' [= <-]; by rewrite Es|]); [done|].
    intros Hall. specialize (Hall r eq_refl). by rewrite Es in Hall.
  - done.
  - done.
Qed.

End versions.

Definition example_version : RecordVersionWrite :=
  mkVersionWrite "at://did:plc:a/app.x/1" "" "did:plc:a" "app.x" RecordVersionCreate (Some "{}") (Some true).

Definition example_history : db :=
  (run (Append (H := example_env SQLite) example_version) (empty_db 3)).2.

Lemma SeedBaseline_idempotent_witness :
  let _ := example_env PostgreSQL in
  Empty (NewCollectionMatcher "app.x, org.y.*") = false ∧
  (SeedBaseline (NewCollectionMatcher "app.x, org.y.*") (empty_db 1) []).1.1 = Ok 0.
Proof.
  intros e. assert (He : Empty (NewCollectionMatcher "app.x, org.y.*") = false) by by vm_compute.
  split; [done|]. destruct (SeedBaseline_idempotent (H := e) _ (empty_db 1) [] He) as (_ & _ & Hr).
  by vm_compute in Hr |- *.
Defined.

Lemma read_history_complete_witness :
  (read_history 2 "at://did:plc:a/app.x/1" 0 1 example_history []).1 =
  (Ok (filter (λ v, ver_uri v = "at://did:plc:a/app.x/1") (db_versions example_history)), example_history).
Proof.
  apply (read_history_complete "at://did:plc:a/app.x/1" 1 example_history).
  - unfold MaxRecordHistoryPageSize. lia.
  - split; vm_compute; repeat constructor; try done. apply not_elem_of_nil.
Defined.
