(* ===== verification/Actors.v ===== *)
(** * Actors and the activity log

    src/internal/database/repositories/actors.go and indexing_activity.go: the actor
    table (DID, handle) with its insert-only and authoritative writes, and the log of
    indexing activity. [Actor.IndexedAt] is not read back: no modelled code uses it. *)
From S2P Require Import Prelude GoStrings Json Effects Database RecordStore.

(** actors.go [Actor] and [ActorData] *)
Record Actor := mkActorData { a_DID : string; a_Handle : string }.
#[export] Instance Actor_eq_dec : EqDecision Actor.
Proof. solve_decision. Defined.

(** SQL's [TRIM]: spaces only. *)
Fixpoint ltrim_spaces (s : string) : string :=
  match s with String c s' => if Ascii.eqb c space then ltrim_spaces s' else s | EmptyString => "" end.
Definition sql_trim (s : string) : string := srev (ltrim_spaces (srev (ltrim_spaces s))).

(** [missingHandlePredicateSQL] *)
Definition missing_handle (did : string) (a : actor_row) : bool :=
  match actor_handle a with
  | None => true
  | Some h => (sql_trim h =? "")%string || (h =? did)%string
  end.

Definition Ensure (did : string) : M db unit :=
  exec (λ d, set_actors (λ m, match m !! did with
    | Some _ => m
    | None => <[did := mkActor None (db_clock d)]> m end) d).

Definition UpsertIdentity (did handle : string) : M db unit :=
  exec (λ d, set_actors (<[did := mkActor (Some handle) (db_clock d)]>) d).

Definition Upsert (did handle : string) : M db unit := UpsertIdentity did handle.

Definition SetHandleIfMissing (did handle : string) : M db bool :=
  stmt (λ d, match db_actors d !! did with
    | Some a => if missing_handle did a
                then Ok (true, set_actors (<[did := mkActor (Some handle) (db_clock d)]>) d)
                else Ok (false, d)
    | None => Ok (false, d)
    end).

(** One row of the batch upsert: an empty handle keeps the stored one. *)
Definition upsert_actor (now : Z) (m : gmap string actor_row) (a : Actor) : gmap string actor_row :=
  let handle := match m !! a_DID a with
    | Some old => if (a_Handle a =? "")%string then actor_handle old else Some (a_Handle a)
    | None => Some (a_Handle a) end in
  <[a_DID a := mkActor handle now]> m.

Section batch.
Context `{Env}.

Definition batchUpsertChunk (actors : list Actor) : M db unit :=
  stmt (λ d,
    upsert_conflict (a_DID <$> actors) ;;
    mret (tt, set_actors (λ m, foldl (upsert_actor (db_clock d)) m actors) d)).

(** The slices are separate statements: an error keeps the earlier ones. *)
Definition BatchUpsert (actors : list Actor) : M db unit :=
  for_each batchUpsertChunk (chunks BatchInsertSize actors).
End batch.

Definition actor_of (did : string) (a : actor_row) : Actor :=
  mkActorData did (null_string (actor_handle a)).

Definition ActorsGetByDID (did : string) : M db Actor :=
  stmt (λ d, match db_actors d !! did with
    | Some a => Ok (actor_of did a, d) | None => Err no_rows end).

Definition GetByDIDs (dids : list string) : M db (gmap string Actor) :=
  if decide (dids = []) then mret ∅
  else query (λ d, map_imap (λ k a, Some (actor_of k a))
    (filter (λ kv : string * actor_row, kv.1 ∈ dids) (db_actors d))).

Definition GetByHandle (handle : string) : M db Actor :=
  stmt (λ d, match head (filter (λ kv : string * actor_row, actor_handle kv.2 = Some handle)
      (map_to_list (db_actors d))) with
    | Some (did, a) => Ok (actor_of did a, d) | None => Err no_rows end).

Definition Exists (did : string) : M db bool :=
  query (λ d, bool_decide (is_Some (db_actors d !! did))).
Definition ActorsGetCount : M db nat := query (λ d, size (db_actors d)).
Definition ActorsDeleteAll : M db unit := exec (set_actors (λ _, ∅)).
Definition ActorsDeleteByDID (did : string) : M db unit :=
  wrap ("delete actor by DID " +:+ did) (exec (set_actors (delete did))).

Definition ListDIDsMissingHandle `{TextOrder} (afterDID : string) (limit : Z) : M db (list string) :=
  let limit := if (limit <=? 0)%Z then 100 else Z.to_nat limit in
  query (λ d, (take limit (filter (λ kv : string * actor_row,
      missing_handle kv.1 kv.2 = true ∧ text_lt afterDID kv.1) (by_key (db_actors d)))).*1).

(** ** The activity log *)

(** indexing_activity.go [ActivityEntry] *)
Record ActivityEntry := mkEntry { ent_id : Z; ent_row : activity_row }.

Section activity.

Definition normalizeActivityEventJSON (eventJSON : string) : outcome string :=
  let trimmed := trim_space eventJSON in
  if (trimmed =? "")%string || (trimmed =? "null")%string then Ok "{}"
  else if valid_json trimmed then Ok trimmed
  else Err "activity event_json must be valid JSON".

Definition LogActivityWithStatus (timestamp : Z) (operation collection did rkey eventJSON status : string)
    : M db Z :=
  normalized ← of_outcome (normalizeActivityEventJSON eventJSON);
  stmt (λ d,
    let id := db_next_activity d in
    Ok (id, mkDb (db_records d) (db_versions d) (db_next_version d) (db_actors d)
      (<[id := mkActivity timestamp operation collection did rkey status None normalized]> (db_activity d))
      (id + 1) (db_clock d) (db_labels d) (db_next_label d) (db_label_states d))).

Definition LogActivity (timestamp : Z) (operation collection did rkey eventJSON : string) : M db Z :=
  LogActivityWithStatus timestamp operation collection did rkey eventJSON "pending".

Definition UpdateStatus (id : Z) (status : string) (errorMessage : option string) : M db unit :=
  exec (set_activity (alter (λ a, mkActivity (act_timestamp a) (act_operation a) (act_collection a)
    (act_did a) (act_rkey a) status (column_text (NullableText errorMessage)) (act_event_json a)) id)).

(** [timestamp < now - hours]: the rows the retention worker drops. *)
Definition activity_expired (now hours : Z) (a : activity_row) : bool :=
  (act_timestamp a <? now - hours * 3600)%Z.

Definition CleanupOldActivity (hours : Z) : M db unit :=
  exec (λ d, set_activity (filter (λ kv : Z * activity_row,
    activity_expired (db_clock d) hours kv.2 = false)) d).

(** Newest first; rows with equal timestamps come in an order of the database's choice. *)
Definition newer (x y : ActivityEntry) : Prop :=
  (act_timestamp (ent_row y) <= act_timestamp (ent_row x))%Z.
#[export] Instance newer_dec : RelDecision newer.
Proof. unfold newer. intros x y. apply _. Defined.

Definition GetRecentActivity (hours : Z) : M db (list ActivityEntry) :=
  query (λ d, take 1000 (merge_sort newer
    ((λ kv : Z * activity_row, mkEntry kv.1 kv.2) <$> map_to_list (filter (λ kv : Z * activity_row,
      activity_expired (db_clock d) hours kv.2 = false) (db_activity d))))).

Definition ActivityDeleteAll : M db unit := exec (set_activity (λ _, ∅)).
Definition ActivityGetCount : M db nat := query (λ d, size (db_activity d)).

End activity.
