(* ===== verification/Lexicons.v ===== *)
(** * Lexicons

    src/internal/lexicon/types.go, nsid.go, parser.go and registry.go: parsing of Lexicon
    documents, references between definitions, and the registry that finds a definition by
    its reference. Go ranges over maps in any order; here it is that of [map_to_list]. Which
    numbers fit a float64 is a parameter. *)
From S2P Require Import Prelude GoStrings Json.

(** ** types.go *)

Record ArrayItems := mkItems { ai_Type : string; ai_Ref : string; ai_Refs : list string }.

Record PropertyBody := mkBody {
  pb_Type : string;
  pb_Required : bool;
  pb_Format : string;
  pb_Ref : string;
  pb_Refs : list string;
  pb_Items : option ArrayItems;
  pb_Description : string;
  pb_Default : option json;
  pb_Minimum : option string;
  pb_Maximum : option string;
  pb_MinLength : option Z;
  pb_MaxLength : option Z;
  pb_Enum : list string;
  pb_Const : option json;
  pb_KnownValues : list string;
}.

(** A property and, for an inline object, its schema. *)
Inductive Property := mkProperty (body : PropertyBody) (InlineObject : option ObjectDef)
with ObjectDef := mkObjectDef (Type_ : string) (RequiredFields : list string) (Properties : list (string * Property)).

Definition body (p : Property) : PropertyBody := match p with mkProperty b _ => b end.
Definition InlineObject (p : Property) : option ObjectDef := match p with mkProperty _ o => o end.
Definition od_Type (o : ObjectDef) : string := match o with mkObjectDef t _ _ => t end.
Definition od_RequiredFields (o : ObjectDef) : list string := match o with mkObjectDef _ r _ => r end.
Definition od_Properties (o : ObjectDef) : list (string * Property) := match o with mkObjectDef _ _ ps => ps end.

Record RecordDef := mkRecordDef { rd_Type : string; rd_Key : string; rd_Properties : list (string * Property) }.

Record Def := mkDef { df_Type : string; df_Record : option RecordDef; df_Object : option ObjectDef }.

Record Lexicon := mkLexicon { lx_ID : string; lx_Main : option RecordDef; lx_Others : gmap string Def }.

Definition IsRecord (d : Def) : bool := (df_Type d =? "record")%string && bool_decide (is_Some (df_Record d)).
Definition IsObject (d : Def) : bool := (df_Type d =? "object")%string && bool_decide (is_Some (df_Object d)).

Definition IsRequired (o : ObjectDef) (name : string) : bool := existsb (String.eqb name) (od_RequiredFields o).

(** The first property of a name. *)
Definition property_named (ps : list (string * Property)) (name : string) : option Property :=
  snd <$> head (filter (λ p, p.1 = name) ps).

Definition HasRef (p : Property) : bool := negb (pb_Ref (body p) =? "")%string || negb (bool_decide (pb_Refs (body p) = [])).
Definition IsUnion (p : Property) : bool := (pb_Type (body p) =? "union")%string || negb (bool_decide (pb_Refs (body p) = [])).
Definition IsArray (p : Property) : bool := (pb_Type (body p) =? "array")%string.
Definition GetRefs (p : Property) : list string :=
  if negb (bool_decide (pb_Refs (body p) = [])) then pb_Refs (body p)
  else if negb (pb_Ref (body p) =? "")%string then [pb_Ref (body p)] else [].

(** ** nsid.go *)

Definition IsLocalRef (ref : string) : bool := has_prefix "#" ref.

Definition ResolveLocalRef (ref lexiconID : string) : string := if IsLocalRef ref then lexiconID +:+ ref else ref.

Definition MakeRef (lexiconID defName : string) : string :=
  if (defName =? "")%string then lexiconID else lexiconID +:+ String hash defName.

(** [SplitN(ref, hash, 2)] *)
Definition ParseRef (ref : string) : option (string * string) :=
  if (ref =? "")%string then None
  else if IsLocalRef ref then Some ("", trim_prefix "#" ref)
  else match cut hash ref with
       | None => Some (ref, "")
       | Some (id, name) => Some (id, name)
       end.

(** [IsValidNSID]: which characters outside ASCII [unicode.IsLower] or [unicode.IsDigit]
    accept is a parameter, of a character's bytes. A byte that is not UTF-8 is none. *)
Definition nsid_byte (c : Ascii.ascii) : bool :=
  is_digit c || ((97 <=? byte_val c) && (byte_val c <=? 122))%N || is_byte 45 c.

Fixpoint nsid_runes (unicode_nsid : string → bool) (fuel : nat) (s : string) : bool :=
  match fuel, s with
  | O, _ | _, EmptyString => true
  | S f, String c r =>
      if (byte_val c <? 128)%N then nsid_byte c && nsid_runes unicode_nsid f r
      else match utf8_len s with
           | O => false
           | n => unicode_nsid (stake n s) && nsid_runes unicode_nsid f (sdrop n s)
           end
  end.

Definition IsValidNSID (unicode_nsid : string → bool) (nsid : string) : bool :=
  let parts := split dot nsid in
  (3 <=? length parts) &&
  forallb (λ part, negb (part =? "")%string && nsid_runes unicode_nsid (String.length part) part &&
    negb (has_prefix "-" part || has_suffix "-" part)) parts.

Example nsid_examples : IsValidNSID (λ _, false) <$>
  ["app.bsky.feed.post"; "app.bsky"; "app..x.y"; "app.b-c.d"; "app.-b.c"; "app.b.c-"; "app.b.é";
   "org.hypercerts.claim.contributorInformation"] = [true; false; false; true; false; false; false; false].
Proof. by vm_compute. Qed.

Definition IDFromRef (ref : string) : string := default "" (fst <$> ParseRef ref).
Definition DefNameFromRef (ref : string) : string := default "" (snd <$> ParseRef ref).

Definition ToCollectionName (nsid : string) : string := default "" (last (split dot nsid)).

Definition ToDomainParts (nsid : string) : list string :=
  let parts := split dot nsid in
  if length parts <=? 1 then [] else take (length parts - 1) parts.

(** ** parser.go *)

Section parser.
Context (float64_ok : string → bool).

Definition decoded {A} (o : option A) : outcome A :=
  match o with Some a => Ok a | None => Err "json: cannot unmarshal" end.

Definition parseArrayItems (data : json) : outcome ArrayItems :=
  decoded (ms ← members_of data;
    t ← string_field "type" ms; ref ← string_field "ref" ms; refs ← strings_field "refs" ms;
    mret (mkItems t ref refs)).

Record rawProperty := mkRawProperty {
  rp_body : PropertyBody;
  rp_Items : option json;
  rp_Required : list string;
  rp_Properties : gmap string json;
}.

Definition decode_property (data : json) : option rawProperty :=
  ms ← members_of data;
  t ← string_field "type" ms; format ← string_field "format" ms; ref ← string_field "ref" ms;
  refs ← strings_field "refs" ms; required ← strings_field "required" ms; properties ← map_field "properties" ms;
  description ← string_field "description" ms; dflt ← any_field float64_ok "default" ms;
  minimum ← float_ptr_field float64_ok "minimum" ms; maximum ← float_ptr_field float64_ok "maximum" ms;
  minLength ← int_ptr_field "minLength" ms; maxLength ← int_ptr_field "maxLength" ms;
  enum ← strings_field "enum" ms; const ← any_field float64_ok "const" ms; known ← strings_field "knownValues" ms;
  mret (mkRawProperty (mkBody t false format ref refs None description dflt minimum maximum minLength maxLength
    enum const known) (json_field "items" ms) required properties).

Definition with_items (b : PropertyBody) (items : option ArrayItems) : PropertyBody :=
  mkBody (pb_Type b) (pb_Required b) (pb_Format b) (pb_Ref b) (pb_Refs b) items (pb_Description b) (pb_Default b)
    (pb_Minimum b) (pb_Maximum b) (pb_MinLength b) (pb_MaxLength b) (pb_Enum b) (pb_Const b) (pb_KnownValues b).

Definition with_required (p : Property) (required : bool) : Property :=
  let b := body p in
  mkProperty (mkBody (pb_Type b) required (pb_Format b) (pb_Ref b) (pb_Refs b) (pb_Items b) (pb_Description b)
    (pb_Default b) (pb_Minimum b) (pb_Maximum b) (pb_MinLength b) (pb_MaxLength b) (pb_Enum b) (pb_Const b)
    (pb_KnownValues b)) (InlineObject p).

(** [parseProperties], given how a property is parsed. *)
Definition parseProperties (parseProperty : json → outcome Property) (propsMap : gmap string json) (required : list string)
    : outcome (list (string * Property)) :=
  mapM (λ e : string * json,
    prop ← wrap_err ("failed to parse property '" +:+ e.1 +:+ "'") (parseProperty e.2);
    mret (e.1, with_required prop (bool_decide (e.1 ∈ required)))) (map_to_list propsMap).

(** The fuel is the nesting of inline objects that is followed. *)
Fixpoint parseProperty (fuel : nat) (data : json) : outcome Property :=
  match fuel with
  | O => Err "out of fuel"
  | S fuel' =>
      raw ← decoded (decode_property data);
      items ← match rp_Items raw with
              | None => Ok None
              | Some j => Some <$> wrap_err "failed to parse items" (parseArrayItems j)
              end;
      inline ← (if (pb_Type (rp_body raw) =? "object")%string && negb (bool_decide (rp_Properties raw = ∅))
                then props ← parseProperties (parseProperty fuel') (rp_Properties raw) (rp_Required raw);
                     mret (Some (mkObjectDef "object" (rp_Required raw) props))
                else Ok None);
      mret (mkProperty (with_items (rp_body raw) items) inline)
  end.

(** Nesting of a value. *)
Fixpoint height (j : json) : nat :=
  match j with
  | JArray items => S (foldr (λ i n, Nat.max (height i) n) 0 items)
  | JObject ms => S (foldr (λ m n, Nat.max (height m.2.2) n) 0 ms)
  | _ => 1
  end.

Definition parse_property (data : json) : outcome Property := parseProperty (height data) data.

Record rawObjectDef := mkRawObject { ro_Type : string; ro_Required : list string; ro_Properties : gmap string json }.

Definition decode_object (data : json) : option rawObjectDef :=
  ms ← members_of data;
  t ← string_field "type" ms; required ← strings_field "required" ms; properties ← map_field "properties" ms;
  mret (mkRawObject t required properties).

Definition parseObjectDef (data : json) : outcome ObjectDef :=
  raw ← decoded (decode_object data);
  props ← parseProperties parse_property (ro_Properties raw) (ro_Required raw);
  mret (mkObjectDef (ro_Type raw) (ro_Required raw) props).

Definition parseObjectAsRecordDef (data : json) : outcome RecordDef :=
  raw ← decoded (decode_object data);
  props ← parseProperties parse_property (ro_Properties raw) (ro_Required raw);
  mret (mkRecordDef (ro_Type raw) "" props).

Definition parseRecordDef (data : json) : outcome RecordDef :=
  raw ← decoded (ms ← members_of data;
    t ← string_field "type" ms; key ← string_field "key" ms; mret (t, key, json_field "record" ms));
  let '(t, key, record) := raw in
  match record with
  | None => Ok (mkRecordDef t key [])
  | Some j =>
      inner ← wrap_err "failed to parse record object" (decoded (decode_object j));
      props ← parseProperties parse_property (ro_Properties inner) (ro_Required inner);
      mret (mkRecordDef t key props)
  end.

Definition type_of (data : json) : outcome string := decoded (ms ← members_of data; string_field "type" ms).

Definition parseMainDef (data : json) : outcome RecordDef :=
  t ← type_of data;
  if (t =? "record")%string then parseRecordDef data
  else if (t =? "object")%string then parseObjectAsRecordDef data
  else Err ("unsupported main definition type: " +:+ t).

Definition parseDef (data : json) : outcome Def :=
  t ← type_of data;
  if (t =? "record")%string then (λ r, mkDef "record" (Some r) None) <$> parseRecordDef data
  else (λ o, mkDef t None (Some o)) <$> parseObjectDef data.

(** One definition of the document. *)
Definition add_def (lexicon : Lexicon) (e : string * json) : outcome Lexicon :=
  if (e.1 =? "main")%string then
    main ← wrap_err "failed to parse main definition" (parseMainDef e.2);
    mret (mkLexicon (lx_ID lexicon) (Some main) (lx_Others lexicon))
  else
    def ← wrap_err ("failed to parse definition '" +:+ e.1 +:+ "'") (parseDef e.2);
    mret (mkLexicon (lx_ID lexicon) (lx_Main lexicon) (<[ e.1 := def ]> (lx_Others lexicon))).

Definition convertRawLexicon (id : string) (defs : gmap string json) : outcome Lexicon :=
  if (id =? "")%string then Err "lexicon missing required 'id' field"
  else foldl (λ acc e, lexicon ← acc; add_def lexicon e) (Ok (mkLexicon id None ∅)) (map_to_list defs).

Definition ParseBytes (data : string) : outcome Lexicon :=
  raw ← wrap_err "failed to parse lexicon JSON" (decoded (ms ← struct_members data;
    _ ← int64_field "lexicon" ms; id ← string_field "id" ms; defs ← map_field "defs" ms; mret (id, defs)));
  convertRawLexicon raw.1 raw.2.
End parser.

(** ** registry.go *)

Record Registry := mkRegistry {
  rg_lexicons : gmap string Lexicon;
  rg_objectDefs : gmap string ObjectDef;
  rg_recordDefs : gmap string RecordDef;
}.

Definition NewRegistry : Registry := mkRegistry ∅ ∅ ∅.

Definition register_def (id : string) (r : Registry) (e : string * Def) : Registry :=
  let ref := MakeRef id e.1 in
  let def := e.2 in
  if IsObject def then
    mkRegistry (rg_lexicons r)
      (match df_Object def with Some o => <[ ref := o ]> (rg_objectDefs r) | None => rg_objectDefs r end) (rg_recordDefs r)
  else if IsRecord def then
    mkRegistry (rg_lexicons r) (rg_objectDefs r)
      (match df_Record def with Some d => <[ ref := d ]> (rg_recordDefs r) | None => rg_recordDefs r end)
  else r.

Definition register_main (lexicon : Lexicon) (r : Registry) : Registry :=
  match lx_Main lexicon with
  | None => r
  | Some main =>
      mkRegistry (rg_lexicons r)
        (if (rd_Type main =? "object")%string
         then <[ lx_ID lexicon := mkObjectDef (rd_Type main) [] (rd_Properties main) ]> (rg_objectDefs r)
         else rg_objectDefs r)
        (<[ lx_ID lexicon := main ]> (rg_recordDefs r))
  end.

Definition Register (lexicon : Lexicon) (r : Registry) : Registry :=
  let r := mkRegistry (<[ lx_ID lexicon := lexicon ]> (rg_lexicons r)) (rg_objectDefs r) (rg_recordDefs r) in
  foldl (register_def (lx_ID lexicon)) (register_main lexicon r) (map_to_list (lx_Others lexicon)).

Definition NewRegistryFromLexicons (lexicons : list Lexicon) : Registry :=
  foldl (λ r lexicon, Register lexicon r) NewRegistry lexicons.

Definition unregister_def (id : string) (r : Registry) (name : string) : Registry :=
  mkRegistry (rg_lexicons r) (delete (MakeRef id name) (rg_objectDefs r)) (delete (MakeRef id name) (rg_recordDefs r)).

Definition Unregister (lexiconID : string) (r : Registry) : Registry :=
  match rg_lexicons r !! lexiconID with
  | None => r
  | Some lexicon =>
      foldl (unregister_def lexiconID)
        (mkRegistry (delete lexiconID (rg_lexicons r)) (delete lexiconID (rg_objectDefs r)) (delete lexiconID (rg_recordDefs r)))
        (map_to_list (lx_Others lexicon)).*1
  end.

Definition GetLexicon (r : Registry) (id : string) : option Lexicon := rg_lexicons r !! id.
Definition GetObjectDef (r : Registry) (ref : string) : option ObjectDef := rg_objectDefs r !! ref.
Definition GetRecordDef (r : Registry) (lexiconID : string) : option RecordDef := rg_recordDefs r !! lexiconID.

(** An object definition, else a record definition. *)
Definition ResolveRef (r : Registry) (ref contextLexiconID : string) : option (ObjectDef + RecordDef) :=
  let resolvedRef := ResolveLocalRef ref contextLexiconID in
  match GetObjectDef r resolvedRef with
  | Some o => Some (inl o)
  | None => inr <$> GetRecordDef r resolvedRef
  end.

Definition ParseAndRegister (float64_ok : string → bool) (text : string) (r : Registry) : outcome (Lexicon * Registry) :=
  lexicon ← wrap_err "failed to parse lexicon" (ParseBytes float64_ok text);
  mret (lexicon, Register lexicon r).

Definition GetCollectionLexicons (r : Registry) : list Lexicon :=
  filter (λ l, (λ m, rd_Type m) <$> lx_Main l = Some "record") (map_to_list (rg_lexicons r)).*2.

Definition GetDefsLexicons (r : Registry) : list Lexicon :=
  filter (λ l, bool_decide (is_Some (lx_Main l)) = false ∧ lx_Others l ≠ ∅) (map_to_list (rg_lexicons r)).*2.
