(* ===== verification/LexiconProps.v ===== *)
(** * The registry finds what documents define

    Parsing follows inline objects to any depth a document has; the registry of a set of
    Lexicons maps exactly the references its documents define to what they define, and
    registering a Lexicon is undone by removing it. *)
From S2P Require Import Prelude GoStrings Json Lexicons.

(** ** Fuel of the parser *)

Section fuel.
Context (float64_ok : string → bool).

Lemma height_member (ms : list member) m : m ∈ ms → height m.2.2 < height (JObject ms).
Proof.
  cbn [height]. induction ms as [|m' ms IH]; [set_solver|]. intros [->|Hm]%elem_of_cons; cbn [foldr]; [lia|].
  specialize (IH Hm). lia.
Qed.

Lemma store_all_ind {A} (P : A → Prop) store (init a : A) vs :
  P init → (∀ b v b', v ∈ vs → P b → store b v = Some b' → P b') → store_all store init vs = Some a → P a.
Proof.
  revert init. induction vs as [|v vs IH]; intros init H0 Hs; cbn; [by intros [= <-]|].
  destruct (store init v) as [b|] eqn:E; [|done]. cbn. apply IH; [|intros; eapply Hs; [by right|done..]].
  eapply Hs; [left|done..].
Qed.

Lemma field_value_member name (ms : list member) v : v ∈ field_values name ms → ∃ n, (n, v) ∈ ms.
Proof.
  unfold field_values. intros ([n v'] & -> & [_ Hin]%list_elem_of_filter)%list_elem_of_fmap. by exists n.
Qed.

(** A value of a map field is nested two levels below its struct. *)
Lemma map_field_height name (ms : list member) m k j :
  map_field name ms = Some m → m !! k = Some j → height j < height (JObject ms).
Proof.
  intros Hm. unfold map_field in Hm. revert k j.
  refine (store_all_ind (λ m : gmap string json, ∀ k j, m !! k = Some j → height j < height (JObject ms)) _ ∅ m _ _ _ Hm); [done|].
  intros b [t v] b' Hv Hb Hst k j Hk. cbn in Hst. destruct v as [| | | | |o]; simplify_eq; try done.
  apply field_value_member in Hv as [n Hn].
  assert (Ho : height (JObject o) < height (JObject ms)) by exact (height_member ms (n, (t, JObject o)) Hn).
  assert (Hall : ∀ e, e ∈ o → height e.2.2 < height (JObject ms)) by (intros e ?%height_member; lia). clear Hn Ho.
  revert b Hb Hk. induction o as [|e o IH]; intros b Hb; cbn; [apply Hb|].
  apply IH; [intros; apply Hall; by right|]. intros k' j' [[<- <-]|[_ ?]]%lookup_insert_Some; [apply Hall; left|by eapply Hb].
Qed.

Lemma mapM_ext_in {A B} (f g : A → outcome B) l : (∀ x, x ∈ l → f x = g x) → mapM f l = mapM g l.
Proof.
  induction l as [|x l IH]; intros Hfg; [done|]. cbn. rewrite (Hfg x) by left. rewrite IH by (intros; apply Hfg; by right). done.
Qed.

(** More fuel than the nesting changes nothing. *)
Lemma parseProperty_fuel n m data :
  height data ≤ n → height data ≤ m → parseProperty float64_ok n data = parseProperty float64_ok m data.
Proof.
  revert m data. induction n as [|n IH]; intros [|m] data Hn Hm; [done|destruct data; cbn in Hn; lia|destruct data; cbn in Hm; lia|].
  cbn [parseProperty]. destruct (decoded (decode_property float64_ok data)) as [raw|] eqn:Er; [|done]. cbn [mbind outcome_bind].
  destruct (match rp_Items raw with None => _ | Some j => _ end); [|done]. cbn [mbind outcome_bind].
  destruct ((pb_Type (rp_body raw) =? "object")%string && negb (bool_decide (rp_Properties raw = ∅))); [|done].
  assert (parseProperties (parseProperty float64_ok n) (rp_Properties raw) (rp_Required raw) =
    parseProperties (parseProperty float64_ok m) (rp_Properties raw) (rp_Required raw)) as ->; [|done].
  apply mapM_ext_in. intros [k j] Hk%elem_of_map_to_list. cbn.
  assert (Hj : height j < height data).
  { destruct (decode_property float64_ok data) as [raw'|] eqn:Ed; [|done]. injection Er as ->.
    unfold decode_property in Ed. apply bind_Some in Ed as (ms & Ems & Ed).
    assert (Hprops : map_field "properties" ms = Some (rp_Properties raw)).
    { repeat (apply bind_Some in Ed as (? & ? & Ed)). by injection Ed as <-. }
    destruct data; cbn in Ems; simplify_eq; [|by eapply map_field_height].
    change (Some (∅ : gmap string json) = Some (rp_Properties raw)) in Hprops. injection Hprops as Hp. by rewrite <- Hp in Hk. }
  rewrite (IH m j); [done|lia..].
Qed.
End fuel.

(** ** Entries *)

Definition main_entries {A} (l : Lexicon) (f : RecordDef → option A) : list (string * A) :=
  match lx_Main l ≫= f with Some a => [(lx_ID l, a)] | None => [] end.

Definition other_entries {A} (l : Lexicon) (f : Def → option A) : list (string * A) :=
  omap (λ e : string * Def, pair (MakeRef (lx_ID l) e.1) <$> f e.2) (map_to_list (lx_Others l)).

(** The objects and records of a document by their references. *)
Definition object_entries (l : Lexicon) : list (string * ObjectDef) :=
  main_entries l (λ m, if (rd_Type m =? "object")%string then Some (mkObjectDef (rd_Type m) [] (rd_Properties m)) else None)
  ++ other_entries l (λ d, if IsObject d then df_Object d else None).

Definition record_entries (l : Lexicon) : list (string * RecordDef) :=
  main_entries l Some ++ other_entries l (λ d, if negb (IsObject d) && IsRecord d then df_Record d else None).

Definition insert_all {A} (m : gmap string A) (es : list (string * A)) : gmap string A := foldl (λ m e, <[ e.1 := e.2 ]> m) m es.

Lemma insert_all_other {A} (m : gmap string A) es k : k ∉ es.*1 → insert_all m es !! k = m !! k.
Proof.
  revert m. induction es as [|e es IH]; intros m; [done|]. rewrite fmap_cons, not_elem_of_cons. intros [? ?].
  cbn. unfold insert_all in IH. rewrite IH by done. by rewrite lookup_insert_ne.
Qed.

Lemma insert_all_lookup {A} (m : gmap string A) es k a :
  NoDup es.*1 → insert_all m es !! k = Some a ↔ (k, a) ∈ es ∨ (k ∉ es.*1 ∧ m !! k = Some a).
Proof.
  revert m. induction es as [|[k' a'] es IH]; intros m; [set_solver|]. rewrite fmap_cons. intros [Hn Hnd]%NoDup_cons.
  cbn [insert_all foldl fst snd]. fold (insert_all (<[k' := a']> m) es). rewrite IH by done. cbn in Hn. destruct (decide (k = k')) as [->|].
  - rewrite lookup_insert_eq. split.
    + intros [?|[_ [= ->]]]; left; [by right|left].
    + intros [[[= ->]|Hin]%elem_of_cons|[Hk _]]; [right; done|by left|set_solver].
  - rewrite lookup_insert_ne by done. set_solver.
Qed.

Lemma register_spec l r :
  rg_objectDefs (Register l r) = insert_all (rg_objectDefs r) (object_entries l) ∧
  rg_recordDefs (Register l r) = insert_all (rg_recordDefs r) (record_entries l) ∧
  rg_lexicons (Register l r) = <[ lx_ID l := l ]> (rg_lexicons r).
Proof.
  unfold Register. set (r1 := mkRegistry _ _ _). set (r2 := register_main l r1).
  assert (H2 : rg_objectDefs r2 = insert_all (rg_objectDefs r) (main_entries l (λ m, if (rd_Type m =? "object")%string then
      Some (mkObjectDef (rd_Type m) [] (rd_Properties m)) else None)) ∧
    rg_recordDefs r2 = insert_all (rg_recordDefs r) (main_entries l Some) ∧ rg_lexicons r2 = <[ lx_ID l := l ]> (rg_lexicons r)).
  { unfold r2, register_main, main_entries. destruct (lx_Main l) as [m|]; cbn; [|done]. by destruct (rd_Type m =? "object")%string. }
  destruct H2 as (Ho & Hr & Hl). unfold object_entries, record_entries, insert_all in *. rewrite !foldl_app, <- Ho, <- Hr, <- Hl.
  unfold other_entries. clear. generalize r2. induction (map_to_list (lx_Others l)) as [|e es IH]; intros q; [done|].
  cbn [foldl omap list_omap]. destruct (IH (register_def (lx_ID l) q e)) as (H1 & H2 & H3). cbn in H1, H2.
  rewrite H1, H2, H3. unfold register_def. destruct e as [n d]. cbn. destruct (IsObject d) eqn:Ho; cbn.
  - by destruct (df_Object d).
  - destruct (IsRecord d) eqn:Hr; cbn; [|done]. by destruct (df_Record d).
Qed.

(** ** A set of documents *)

(** Ids without a hash sign, definitions with names. *)
Definition well_named (l : Lexicon) : Prop := no_byte hash (lx_ID l) = true ∧ lx_Others l !! "" = None.

Lemma make_ref_inj id n n' : n ≠ "" → n' ≠ "" → MakeRef id n = MakeRef id n' → n = n'.
Proof.
  unfold MakeRef. intros Hn Hn'. rewrite !(proj2 (String.eqb_neq _ _)) by done.
  intros Heq. apply (inj (String.append id)) in Heq. by injection Heq.
Qed.

Lemma make_ref_cut id n : no_byte hash id = true → n ≠ "" → cut hash (MakeRef id n) = Some (id, n).
Proof. intros Hid Hn. unfold MakeRef. rewrite (proj2 (String.eqb_neq _ _)) by done. by apply cut_append. Qed.

(** The document a reference is in. *)
Definition ref_document (ref : string) : string := default ref (fst <$> cut hash ref).

Lemma entry_keys {A} l (fm : RecordDef → option A) (fo : Def → option A) :
  well_named l → let es := main_entries l fm ++ other_entries l fo in
  NoDup es.*1 ∧ ∀ e, e ∈ es → ref_document e.1 = lx_ID l.
Proof.
  intros [Hid Hname] es.
  assert (Hothers : ∀ k a, (k, a) ∈ other_entries l fo → ∃ n, n ≠ "" ∧ k = MakeRef (lx_ID l) n).
  { intros k a ([n d] & Hin%elem_of_map_to_list & Hf)%list_elem_of_omap. cbn in Hf. destruct (fo d); [|done]. cbn in Hf. simplify_eq.
    exists n. split; [|done]. intros ->. congruence. }
  assert (Hmain : ∀ k a, (k, a) ∈ main_entries l fm → k = lx_ID l).
  { intros k a. unfold main_entries. destruct (lx_Main l ≫= fm); [|set_solver]. intros ?%list_elem_of_singleton. congruence. }
  split.
  - unfold es. rewrite fmap_app. apply NoDup_app. split_and!.
    + unfold main_entries. destruct (lx_Main l ≫= fm); cbn; [apply NoDup_singleton|constructor].
    + intros k ([k1 a1] & -> & H1%Hmain)%list_elem_of_fmap ([k2 a2] & Hk & H2%Hothers)%list_elem_of_fmap. cbn in *. subst.
      destruct H2 as (n & Hn & Heq). apply (f_equal (cut hash)) in Heq. by rewrite make_ref_cut, (cut_none hash (lx_ID l)) in Heq.
    + unfold other_entries. assert (Hnd := NoDup_fst_map_to_list (lx_Others l)).
      assert (Hne : ∀ e, e ∈ map_to_list (lx_Others l) → e.1 ≠ "") by (intros [n d] Hin%elem_of_map_to_list; cbn; intros ->; congruence).
      induction (map_to_list (lx_Others l)) as [|[n d] ds IH]; [constructor|]. rewrite fmap_cons in Hnd. apply NoDup_cons in Hnd as [Hn Hnd].
      specialize (IH Hnd (λ e He, Hne e (list_elem_of_further _ _ _ He))).
      cbn [omap list_omap fst snd]. destruct (fo d); [|exact IH]. cbn [fmap option_fmap option_map]. rewrite fmap_cons. constructor; [|exact IH].
      intros ([k a'] & Hk & Hin)%list_elem_of_fmap. cbn in Hk. subst k. apply list_elem_of_omap in Hin as ([n' d'] & Hin & Hf). cbn in Hf.
      destruct (fo d'); [|done]. cbn in Hf. injection Hf as Heq _. apply Hn. apply list_elem_of_fmap. exists (n', d'). split; [|done]. cbn.
      symmetry. apply (make_ref_inj (lx_ID l)); [apply (Hne (n', d')); by right|apply (Hne (n, d)); left|done].
  - intros [k a] [H1%Hmain|H2%Hothers]%elem_of_app; unfold ref_document; cbn [fst].
    + subst. by rewrite cut_none.
    + destruct H2 as (n & Hn & ->). by rewrite make_ref_cut.
Qed.

(** The entries of documents with different ids have different keys. *)
Lemma all_entry_keys {A} (entries : Lexicon → list (string * A)) ls :
  (∀ l, l ∈ ls → NoDup (entries l).*1 ∧ ∀ e, e ∈ entries l → ref_document e.1 = lx_ID l) →
  NoDup (lx_ID <$> ls) → NoDup (ls ≫= entries).*1.
Proof.
  induction ls as [|l ls IH]; intros Hes Hnd; [constructor|]. rewrite bind_cons, fmap_app.
  rewrite fmap_cons in Hnd. apply NoDup_cons in Hnd as [Hl Hnd]. apply NoDup_app. split_and!.
  - apply Hes. left.
  - intros k ([k1 a1] & -> & H1)%list_elem_of_fmap ([k2 a2] & Hk & (l' & H2 & Hl')%list_elem_of_bind)%list_elem_of_fmap. cbn in *. subst.
    apply (Hes l) in H1; [|left]. apply (Hes l') in H2; [|by right]. cbn [fst] in *. apply Hl. rewrite <- H1, H2. by apply list_elem_of_fmap_2.
  - apply IH; [|done]. intros. apply Hes. by right.
Qed.

Lemma new_registry_spec ls :
  rg_objectDefs (NewRegistryFromLexicons ls) = insert_all ∅ (ls ≫= object_entries) ∧
  rg_recordDefs (NewRegistryFromLexicons ls) = insert_all ∅ (ls ≫= record_entries).
Proof.
  enough (Hr : ∀ r, rg_objectDefs (foldl (λ r l, Register l r) r ls) = insert_all (rg_objectDefs r) (ls ≫= object_entries) ∧
    rg_recordDefs (foldl (λ r l, Register l r) r ls) = insert_all (rg_recordDefs r) (ls ≫= record_entries)) by apply (Hr NewRegistry).
  induction ls as [|l ls IH]; intros r; [done|]. cbn [foldl]. rewrite !bind_cons.
  destruct (IH (Register l r)) as [-> ->]. destruct (register_spec l r) as (-> & -> & _). unfold insert_all. by rewrite !foldl_app.
Qed.

Section set.
Context (ls : list Lexicon).
Hypothesis Hnamed : ∀ l, l ∈ ls → well_named l.
Hypothesis Hnd : NoDup (lx_ID <$> ls).

Lemma registered_object k o :
  rg_objectDefs (NewRegistryFromLexicons ls) !! k = Some o ↔ ∃ l, l ∈ ls ∧ (k, o) ∈ object_entries l.
Proof.
  rewrite (proj1 (new_registry_spec ls)), insert_all_lookup.
  - rewrite list_elem_of_bind. rewrite lookup_empty. naive_solver.
  - apply all_entry_keys; [|done]. intros l Hl. by apply entry_keys, Hnamed.
Qed.

Lemma registered_record k d :
  rg_recordDefs (NewRegistryFromLexicons ls) !! k = Some d ↔ ∃ l, l ∈ ls ∧ (k, d) ∈ record_entries l.
Proof.
  rewrite (proj2 (new_registry_spec ls)), insert_all_lookup.
  - rewrite list_elem_of_bind. rewrite lookup_empty. naive_solver.
  - apply all_entry_keys; [|done]. intros l Hl. by apply entry_keys, Hnamed.
Qed.

Lemma same_id l l' : l ∈ ls → l' ∈ ls → lx_ID l = lx_ID l' → l = l'.
Proof.
  intros [i Hi]%list_elem_of_lookup [j Hj]%list_elem_of_lookup Heq.
  assert (i = j) as ->; [|congruence]. eapply NoDup_lookup; [done|by rewrite list_lookup_fmap, Hi|].
  rewrite list_lookup_fmap, Hj; cbn; by rewrite Heq.
Qed.

(** Only its main definition is found by a document's id. *)
Lemma registered_main l : l ∈ ls → GetRecordDef (NewRegistryFromLexicons ls) (lx_ID l) = lx_Main l.
Proof.
  intros Hl. unfold GetRecordDef. destruct (lx_Main l) as [m|] eqn:Em.
  { apply registered_record. exists l. split; [done|]. unfold record_entries, main_entries. rewrite Em. cbn. left. }
  destruct (rg_recordDefs (NewRegistryFromLexicons ls) !! lx_ID l) as [d|] eqn:E; [|done]. exfalso.
  apply registered_record in E as (l' & Hl' & Hin).
  destruct (entry_keys l' Some (λ d, if negb (IsObject d) && IsRecord d then df_Record d else None) (Hnamed _ Hl')) as [_ Hdoc].
  assert (Hkey := Hdoc _ Hin). cbn [fst] in Hkey. unfold ref_document in Hkey. rewrite cut_none in Hkey by apply Hnamed, Hl. cbn in Hkey.
  assert (l = l') as <- by by apply same_id.
  unfold record_entries, main_entries in Hin. rewrite Em in Hin. cbn in Hin.
  apply list_elem_of_omap in Hin as ([n d'] & Hin%elem_of_map_to_list & Hf). cbn in Hf.
  destruct (if negb (IsObject d') && IsRecord d' then df_Record d' else None); [|done]. cbn in Hf. injection Hf as Heq _.
  apply (f_equal (cut hash)) in Heq. rewrite make_ref_cut, cut_none in Heq; [done|by apply Hnamed..|].
  intros ->. by rewrite (proj2 (Hnamed _ Hl)) in Hin.
Qed.

(** The registry of a set of Lexicons with different ids resolves a reference, local or
    not, to exactly what the documents define under it: an object definition, a main object
    among them, before a record definition; and a document's main
    definition is found by the document's id. *)
Theorem registry_resolves ref context :
  let r := NewRegistryFromLexicons ls in
  let full := ResolveLocalRef ref context in
  (∀ o, ResolveRef r ref context = Some (inl o) ↔ ∃ l, l ∈ ls ∧ (full, o) ∈ object_entries l) ∧
  (∀ d, ResolveRef r ref context = Some (inr d) ↔
    (∃ l, l ∈ ls ∧ (full, d) ∈ record_entries l) ∧ ¬ ∃ l o, l ∈ ls ∧ (full, o) ∈ object_entries l) ∧
  (∀ l, l ∈ ls → GetRecordDef r (lx_ID l) = lx_Main l).
Proof.
  intros r full. unfold ResolveRef, GetObjectDef. fold full. split_and!; [| |apply registered_main].
  - intros o. rewrite <- registered_object. fold r.
    destruct (rg_objectDefs r !! full); [naive_solver|]. destruct (GetRecordDef r full); naive_solver.
  - intros d. rewrite <- registered_record. fold r.
    assert (Hno : (∃ l o, l ∈ ls ∧ (full, o) ∈ object_entries l) ↔ is_Some (rg_objectDefs r !! full)).
    { split; [intros (l & o & ? & ?); exists o; apply registered_object; eauto|].
      intros [o (l & ? & ?)%registered_object]. eauto. }
    rewrite Hno. unfold GetRecordDef. destruct (rg_objectDefs r !! full) as [o|]; [|destruct (rg_recordDefs r !! full)].
    + split; [done|]. intros [_ []]. by exists o.
    + split; [intros [= <-]; split; [done|by intros []]|]. by intros [[= ->] _].
    + split; [done|by intros []].
Qed.
End set.
