(* ===== verification/Validator.v ===== *)
(** * The record validator

    src/internal/validation/validator.go: the startup set of Lexicons, the graph of
    references between their definitions, the fingerprint of a collection and the verdict
    on a record. Indigo's catalog, data model and syntax are parameters ([Indigo]). *)
From S2P Require Import Prelude GoStrings Json AtprotoTime Effects Database RecordStore Lexicons.

(** What the code takes from Indigo: schema documents as definitions by name (a record
    definition has a key rule), the catalog, the AT Protocol data model and record keys. *)
Class Indigo := {
  SchemaDef : Type;
  Catalog : Type;
  AtData : Type;
  NewBaseCatalog : Catalog;
  record_key : SchemaDef → option string;
  with_record_key : string → SchemaDef → SchemaDef;
  unmarshal_schema : string → outcome (string * gmap string SchemaDef);
  AddSchemaFile : Catalog → string * gmap string SchemaDef → outcome Catalog;
  UnmarshalJSON : string → outcome AtData;
  indigo_ValidateRecord : Catalog → AtData → string → outcome unit;
  ParseRecordKey : string → outcome unit;
  ParseTID : string → outcome unit;
  ParseNSID : string → outcome unit;
}.

(** ** References *)

Definition definitionRef (id name : string) : string :=
  if (name =? "main")%string then id else id +:+ String hash name.

Definition normalizeDefinitionRef (ref contextID : string) : string :=
  trim_suffix "#main" (if has_prefix "#" ref then contextID +:+ ref else ref).

Definition add_ref (contextID : string) (ref : json) (refs : gset string) : gset string :=
  match ref with
  | JString r => if (r =? "")%string then refs else {[ normalizeDefinitionRef r contextID ]} ∪ refs
  | _ => refs
  end.

(** [value["name"]] of a decoded object: the last member of that name. *)
Definition member_value (name : string) (ms : list member) : option json :=
  (λ m : member, m.2.2) <$> last (filter (λ m : member, m.1 = name) ms).

(** The references of an object itself. *)
Definition own_refs (contextID : string) (ms : list member) : gset string :=
  let refs := match member_value "ref" ms with Some r => add_ref contextID r ∅ | None => ∅ end in
  match member_value "refs" ms with
  | Some (JArray rs) => foldr (add_ref contextID) refs rs
  | _ => refs
  end.

(** Members that a later one of their name replaces are not in Go's map. *)
Fixpoint collectRefs (value : json) (contextID : string) : gset string :=
  match value with
  | JObject ms =>
      own_refs contextID ms ∪
      (fix children (l : list member) : gset string :=
         match l with
         | [] => ∅
         | m :: rest =>
             (if bool_decide (m.1 ∈ rest.*1) then ∅ else collectRefs m.2.2 contextID) ∪ children rest
         end) ms
  | JArray items =>
      (fix children (l : list json) : gset string :=
         match l with [] => ∅ | i :: rest => collectRefs i contextID ∪ children rest end) items
  | _ => ∅
  end.

Definition sort_strings (s : gset string) : list string := merge_sort String.le (elements s).

(** A map in the order of its sorted keys. *)
Definition sorted_entries {A} (m : gmap string A) : list (string * A) :=
  by_key (H := byte_order) m.

Section validator.
Context `{Env} `{Indigo} (float64_ok : string → bool).

(** Refused only for a number Go cannot hold. *)
Definition collectDefinitionRefs (raw : json) (contextID : string) : outcome (list string) :=
  if numbers_ok float64_ok raw then Ok (sort_strings (collectRefs raw contextID))
  else Err "json: cannot unmarshal number".

(** [rawReferenceDocument] *)
Definition reference_document (raw : string) : outcome (string * gmap string json) :=
  decoded (ms ← struct_members raw; id ← string_field "id" ms; defs ← map_field "defs" ms; mret (id, defs)).

Definition add_definition (expectedID : string) (graph : gmap string (list string)) (e : string * json)
    : outcome (gmap string (list string)) :=
  let node := definitionRef expectedID e.1 in
  refs ← wrap_err ("inspect references in " +:+ node) (collectDefinitionRefs e.2 expectedID);
  mret (<[ node := refs ]> graph).

(** [for _, x := range xs { acc, err = f(acc, x); if err != nil { return err } }] *)
Definition fold_outcome {A B} (f : B → A → outcome B) (init : B) (xs : list A) : outcome B :=
  foldl (λ acc x, b ← acc; f b x) (Ok init) xs.

Definition add_document (graph : gmap string (list string)) (e : string * string) : outcome (gmap string (list string)) :=
  document ← wrap_err ("failed to inspect references in saved lexicon " +:+ e.1) (reference_document e.2);
  if negb (document.1 =? e.1)%string
  then Err ("lexicon ID mismatch: expected " +:+ e.1 +:+ ", document contains " +:+ document.1)
  else fold_outcome (add_definition e.1) graph (sorted_entries document.2).

Definition buildReferenceGraph (saved : gmap string string) : outcome (gmap string (list string)) :=
  fold_outcome add_document ∅ (sorted_entries saved).

Definition missing_reference (graph : gmap string (list string)) : option (string * string) :=
  head (sorted_entries graph ≫= λ e, pair e.1 <$> filter (λ ref, graph !! ref = None) e.2).

Definition validateReferenceClosure (graph : gmap string (list string)) : outcome unit :=
  match missing_reference graph with
  | Some (node, ref) => Err (node +:+ " references " +:+ ref +:+ ", which is not present in the saved Lexicon set")
  | None => Ok tt
  end.

(** ** The startup set *)

Record Validator := mkValidator {
  v_registry : Registry;
  v_catalog : Catalog;
  v_hashes : gmap string string;
  v_referenceGraph : gmap string (list string);
}.

Definition HashLexiconJSON (raw : string) : string := sha256_hex raw.

Definition nonRecordMainTypes : list string := ["query"; "procedure"; "subscription"; "permission-set"].

(** The id and the main type of a document, as far as it decodes. *)
Definition main_type (raw : string) : option (string * string) :=
  ms ← struct_members raw; id ← string_field "id" ms;
  defs ← struct_ptr_field "defs" ms; main ← struct_ptr_field "main" (default [] defs);
  t ← string_field "type" (default [] main); mret (id, t).

Definition without_lexicon (filtered : gmap string string) (e : string * string) : outcome (gmap string string) :=
  match main_type e.2 with
  | Some (id, t) =>
      if bool_decide (t ∈ nonRecordMainTypes) then
        if negb (id =? e.1)%string
        then Err ("lexicon ID mismatch: expected " +:+ e.1 +:+ ", document contains " +:+ id)
        else Ok filtered
      else Ok (<[ e.1 := e.2 ]> filtered)
  | None => Ok (<[ e.1 := e.2 ]> filtered)
  end.

Definition withoutNonRecordLexicons (saved : gmap string string) : outcome (gmap string string) :=
  fold_outcome without_lexicon ∅ (map_to_list saved).

Definition addSchemaFileToIndigoCatalog (catalog : Catalog) (schemaFile : string * gmap string SchemaDef) : outcome Catalog :=
  AddSchemaFile catalog (schemaFile.1,
    (λ def, if bool_decide (record_key def = Some "record-key") then with_record_key "any" def else def) <$> schemaFile.2).

Definition parseLexiconBytes (expectedID raw : string) : outcome (Lexicon * (string * gmap string SchemaDef)) :=
  parsed ← wrap_err ("failed to parse lexicon " +:+ expectedID +:+ " for GraphQL") (ParseBytes float64_ok raw);
  if negb (lx_ID parsed =? expectedID)%string
  then Err ("lexicon ID mismatch: expected " +:+ expectedID +:+ ", document contains " +:+ lx_ID parsed)
  else
    schemaFile ← wrap_err ("failed to parse lexicon " +:+ expectedID +:+ " for Indigo") (unmarshal_schema raw);
    if negb (schemaFile.1 =? expectedID)%string
    then Err ("lexicon ID mismatch: expected " +:+ expectedID +:+ ", document contains " +:+ schemaFile.1)
    else Ok (parsed, schemaFile).

Definition load_lexicon (acc : Registry * Catalog * gmap string string) (e : string * string)
    : outcome (Registry * Catalog * gmap string string) :=
  let '(registry, catalog, hashes) := acc in
  parsed ← parseLexiconBytes e.1 e.2;
  catalog ← wrap_err ("saved lexicon " +:+ e.1 +:+ " is not valid according to Indigo")
    (addSchemaFileToIndigoCatalog catalog parsed.2);
  mret (Register parsed.1 registry, catalog, <[ e.1 := HashLexiconJSON e.2 ]> hashes).

Definition NewValidatorFromLexiconBytes (saved : gmap string string) : outcome Validator :=
  saved ← withoutNonRecordLexicons saved;
  loaded ← fold_outcome load_lexicon (NewRegistry, NewBaseCatalog, ∅) (sorted_entries saved);
  let '(registry, catalog, hashes) := loaded in
  referenceGraph ← buildReferenceGraph saved;
  _ ← wrap_err "startup Lexicon set has unresolved references" (validateReferenceClosure referenceGraph);
  mret (mkValidator registry catalog hashes referenceGraph).

Definition CheckLexiconSet (saved : gmap string string) : outcome unit :=
  _ ← NewValidatorFromLexiconBytes saved; mret tt.

Definition CheckLexiconBytes (expectedID raw : string) : outcome unit :=
  parsed ← parseLexiconBytes expectedID raw;
  _ ← wrap_err ("lexicon " +:+ expectedID +:+ " is not valid according to Indigo")
    (addSchemaFileToIndigoCatalog NewBaseCatalog parsed.2);
  mret tt.

(** ** Fingerprints *)

(** The depth-first walk of [referencedLexiconIDs]; the head of [stack] is its top. The
    graph's edges bound the pops. *)
Fixpoint reference_walk (graph : gmap string (list string)) (fuel : nat) (stack : list string) (visited : gset string)
    : gset string :=
  match fuel, stack with
  | S fuel', node :: stack' =>
      if decide (node ∈ visited) then reference_walk graph fuel' stack' visited
      else reference_walk graph fuel' (rev (default [] (graph !! node)) ++ stack') ({[ node ]} ∪ visited)
  | _, _ => visited
  end.

Definition graph_edges (graph : gmap string (list string)) : nat :=
  foldr (λ e n, length e.2 + n) 0 (map_to_list graph).

(** [strings.Cut(node, hash)], the part before. *)
Definition lexicon_of (node : string) : string := match cut hash node with Some (id, _) => id | None => node end.

Definition referencedLexiconIDs (v : Validator) (collection : string) : list string :=
  sort_strings (set_map lexicon_of
    (reference_walk (v_referenceGraph v) (2 + graph_edges (v_referenceGraph v)) [collection] ∅)).

Definition fingerprint_parts (hashes : gmap string string) (ids : list string) : list string :=
  omap (λ id, h ← hashes !! id; Some (id +:+ "=" +:+ h)) ids.

Definition validator_LexiconHash (v : Validator) (collection : string) : option string :=
  match v_hashes v !! collection with
  | None => None
  | Some _ => Some (HashLexiconJSON (join (byte_str newline) (fingerprint_parts (v_hashes v) (referencedLexiconIDs v collection))))
  end.

(** ** Verdicts *)

Definition isCatalogResolutionError (message : string) : bool :=
  contains message "schema not found in catalog" || contains message "could not resolve known union variant".

(** Error texts leave out the quoted key. *)
Definition validateRecordKey (rule rkey : string) : outcome unit :=
  if (rule =? "any")%string || (rule =? "record-key")%string then
    wrap_err ("record key expected record-key for rule " +:+ rule) (ParseRecordKey rkey)
  else if (rule =? "tid")%string then wrap_err "record key expected tid" (ParseTID rkey)
  else if (rule =? "nsid")%string then wrap_err "record key expected nsid" (ParseNSID rkey)
  else if has_prefix "literal:" rule then
    if (rkey =? trim_prefix "literal:" rule)%string then Ok tt else Err "record key expected literal"
  else Err "saved lexicon uses unsupported record key rule; update the Lexicon and restart Hyperindex".

Definition validator_ValidateRecord (v : Validator) (collection rkey rawJSON : string) : ValidationResult :=
  match validator_LexiconHash v collection with
  | None => mkResult StatusUnknownSchema ("no saved lexicon for collection " +:+ collection +:+ " in the startup schema") ""
  | Some hash =>
      match GetRecordDef (v_registry v) collection with
      | None => mkResult StatusValidationError ("saved lexicon for collection " +:+ collection +:+ " has no record definition") hash
      | Some def =>
          match UnmarshalJSON rawJSON with
          | Err e =>
              if negb (valid_json rawJSON)
              then mkResult StatusValidationError ("failed to parse record JSON for collection " +:+ collection +:+ ": " +:+ e) hash
              else mkResult StatusInvalid ("record is not valid AT Protocol data: " +:+ e) hash
          | Ok record =>
              match validateRecordKey (rd_Key def) rkey with
              | Err e => mkResult StatusInvalid e hash
              | Ok _ =>
                  match indigo_ValidateRecord (v_catalog v) record collection with
                  | Err e =>
                      if isCatalogResolutionError e
                      then mkResult StatusValidationError ("startup Lexicon set is incomplete for collection " +:+ collection +:+ ": " +:+ e) hash
                      else mkResult StatusInvalid ("record does not conform to lexicon " +:+ collection +:+ ": " +:+ e) hash
                  | Ok _ => mkResult StatusValid "" hash
                  end
              end
          end
      end
  end.

(** The validator as the interface the handlers use. *)
Definition record_validator (v : Validator) : RecordValidator := {|
  ValidateRecord := validator_ValidateRecord v;
  LexiconHash := validator_LexiconHash v;
|}.
End validator.
