(* ===== verification/ValidatorProps.v ===== *)
(** * Fingerprints cover what verdicts depend on

    The walk over the reference graph visits exactly the definitions a collection
    reaches, and the fingerprint of a collection is that of the documents they are in: a
    change to any of them changes it. *)
From stdpp Require Import relations.
From S2P Require Import Prelude GoStrings Json AtprotoTime Effects Database RecordStore Refresh Lexicons Validator.

Lemma elem_of_rev {A} (l : list A) x : x ∈ rev l ↔ x ∈ l.
Proof. by rewrite !list_elem_of_In, <- in_rev. Qed.

(** ** The walk *)

Section walk.
Context (graph : gmap string (list string)).
Implicit Types (x y : string) (stack : list string) (visited : gset string).

Definition refers x y : Prop := y ∈ default [] (graph !! x).

(** The edges out of nodes not yet visited. *)
Definition pending visited : nat :=
  sum_list ((λ e : string * list string, length e.2) <$> filter (λ e : string * list string, e.1 ∉ visited) (map_to_list graph)).

Lemma pending_visit x visited :
  x ∉ visited → pending visited = length (default [] (graph !! x)) + pending ({[ x ]} ∪ visited).
Proof.
  intros Hx. unfold pending.
  assert (Hsame : ∀ l : list (string * list string), x ∉ l.*1 →
    filter (λ e : string * list string, e.1 ∉ visited) l = filter (λ e : string * list string, e.1 ∉ {[ x ]} ∪ visited) l).
  { intros l Hl. apply filter_ext_in. intros [k v] Hk. cbn. assert (k ≠ x) by (intros ->; apply Hl, list_elem_of_fmap; by exists (x, v)).
    set_solver. }
  destruct (graph !! x) as [refs|] eqn:E; cbn [default].
  - assert (Hp : map_to_list graph ≡ₚ (x, refs) :: map_to_list (delete x graph)).
    { rewrite <- map_to_list_insert by apply lookup_delete_eq. by rewrite insert_delete_id. }
    rewrite Hp, !filter_cons. cbn. rewrite decide_True by done. rewrite decide_False by set_solver.
    cbn. rewrite Hsame; [done|]. intros ([k v] & Hk & Hin%elem_of_map_to_list)%list_elem_of_fmap. cbn in Hk. subst.
    by rewrite lookup_delete_eq in Hin.
  - cbn. rewrite Hsame; [done|]. intros ([k v] & Hk & Hin%elem_of_map_to_list)%list_elem_of_fmap. cbn in Hk. subst. congruence.
Qed.

Lemma pending_le visited : pending visited ≤ graph_edges graph.
Proof.
  unfold pending, graph_edges. induction (map_to_list graph) as [|e l IH]; [done|].
  rewrite filter_cons. case_decide; cbn; lia.
Qed.

Lemma walk_sound fuel stack visited y :
  y ∈ reference_walk graph fuel stack visited → y ∈ visited ∨ ∃ x, x ∈ stack ∧ rtc refers x y.
Proof.
  revert stack visited. induction fuel as [|fuel IH]; intros [|x stack] visited; cbn; [by left..|].
  case_decide as Hx; intros [Hy|(z & Hz & Hr)]%IH; [by left|right; exists z; set_solver| |].
  - apply elem_of_union in Hy as [->%elem_of_singleton|Hy]; [|by left]. right. exists x. split; [left|done].
  - right. apply elem_of_app in Hz as [Hz|Hz]; [|exists z; set_solver]. exists x. split; [left|].
    eapply rtc_l; [|done]. by apply elem_of_rev.
Qed.

Definition closed_up_to stack visited : Prop := ∀ x y, x ∈ visited → refers x y → y ∈ visited ∨ y ∈ stack.

Lemma walk_complete fuel stack visited :
  length stack + pending visited < fuel → closed_up_to stack visited →
  let result := reference_walk graph fuel stack visited in
  visited ⊆ result ∧ (∀ x, x ∈ stack → x ∈ result) ∧ ∀ x y, x ∈ result → refers x y → y ∈ result.
Proof.
  revert stack visited. induction fuel as [|fuel IH]; intros [|x stack] visited Hf Hc; cbn in *; [lia|lia| |].
  { split_and!; [done|set_solver|]. intros x y Hx Hxy. destruct (Hc x y Hx Hxy); [done|set_solver]. }
  case_decide as Hx.
  - destruct (IH stack visited) as (Hv & Hs & Hcl); [lia| |].
    { intros a b Ha Hab. destruct (Hc a b Ha Hab) as [|[->|]%elem_of_cons]; auto. }
    split_and!; [done| |done]. intros a [->|Ha]%elem_of_cons; auto.
  - rewrite (pending_visit x) in Hf by done.
    destruct (IH (rev (default [] (graph !! x)) ++ stack) ({[ x ]} ∪ visited)) as (Hv & Hs & Hcl).
    + rewrite length_app, length_rev. lia.
    + intros a b [->%elem_of_singleton|Ha]%elem_of_union Hab.
      * right. apply elem_of_app. left. by apply elem_of_rev.
      * destruct (Hc a b Ha Hab) as [|[->|]%elem_of_cons]; set_solver.
    + split_and!; [set_solver| |done]. intros a [->|Ha]%elem_of_cons; [set_solver|]. apply Hs. set_solver.
Qed.

(** The fuel of [referencedLexiconIDs] is enough: exactly the reachable definitions. *)
Lemma walk_reaches collection y :
  y ∈ reference_walk graph (2 + graph_edges graph) [collection] ∅ ↔ rtc refers collection y.
Proof.
  split.
  - intros [?|(x & ->%list_elem_of_singleton & Hr)]%walk_sound; [set_solver|done].
  - destruct (walk_complete (2 + graph_edges graph) [collection] ∅) as (_ & Hs & Hcl).
    { cbn [length]. assert (Hp := pending_le ∅). lia. }
    { intros x y' Hx. set_solver. }
    specialize (Hs collection (list_elem_of_here _ _)).
    generalize dependent (reference_walk graph (2 + graph_edges graph) [collection] ∅). intros result Hs Hcl Hr.
    induction Hr as [|a b c Hab Hbc IH]; [done|]. apply IH. by eapply Hcl.
Qed.
End walk.

(** ** Folds with errors *)

Lemma fold_outcome_snoc {A B} (f : B → A → outcome B) b xs x :
  fold_outcome f b (xs ++ [x]) = (fold_outcome f b xs ≫= λ b', f b' x).
Proof. unfold fold_outcome. by rewrite foldl_app. Qed.

(** What holds at the start and is kept by every step holds at the end. *)
Lemma fold_outcome_ind {A B} (f : B → A → outcome B) (P : list A → B → Prop) b xs b' :
  P [] b →
  (∀ done x b1 b2, done ++ [x] `prefix_of` xs → P done b1 → f b1 x = Ok b2 → P (done ++ [x]) b2) →
  fold_outcome f b xs = Ok b' → P xs b'.
Proof.
  intros H0. revert b'. induction xs as [|x xs IH] using rev_ind; intros b' Hstep; [by intros [= <-]|].
  rewrite fold_outcome_snoc. destruct (fold_outcome f b xs) as [b1|] eqn:E; [|done]. cbn. intros Hx.
  apply (Hstep xs x b1); [done| |done]. apply IH; [|done]. intros done y b2 b3 Hp. apply Hstep. by apply prefix_app_r.
Qed.

Lemma prefix_elem {A} (done : list A) x xs y : done ++ [x] `prefix_of` xs → y ∈ done ++ [x] → y ∈ xs.
Proof. intros [k ->] ?. apply elem_of_app. by left. Qed.

Lemma elem_of_sorted_entries {A} (m : gmap string A) k a : (k, a) ∈ sorted_entries m ↔ m !! k = Some a.
Proof. apply elem_of_by_key. Qed.

Lemma sorted_entries_nodup {A} (m : gmap string A) : NoDup (sorted_entries m).*1.
Proof. apply by_key_nodup. Qed.

Lemma elem_of_sort_strings (s : gset string) x : x ∈ sort_strings s ↔ x ∈ s.
Proof. unfold sort_strings. by rewrite merge_sort_Permutation, elem_of_elements. Qed.

Lemma wrap_err_ok {A} msg (o : outcome A) a : wrap_err msg o = Ok a → o = Ok a.
Proof. by destruct o. Qed.

(** ** The graph of a set of documents *)

Lemma lexicon_of_ref id name : no_byte hash id = true → lexicon_of (definitionRef id name) = id.
Proof.
  intros Hid. unfold lexicon_of, definitionRef. destruct (name =? "main")%string; [by rewrite cut_none|by rewrite cut_append].
Qed.

Lemma lexicon_of_plain id : no_byte hash id = true → lexicon_of id = id.
Proof. intros Hid. unfold lexicon_of. by rewrite cut_none. Qed.

Lemma definitionRef_inj id id' n n' :
  no_byte hash id = true → no_byte hash id' = true → definitionRef id n = definitionRef id' n' → id = id' ∧ n = n'.
Proof.
  intros Hid Hid' Heq. assert (id = id') as <-.
  { by rewrite <- (lexicon_of_ref id n), <- (lexicon_of_ref id' n'), Heq. }
  split; [done|]. unfold definitionRef in Heq.
  destruct (String.eqb_spec n "main") as [->|], (String.eqb_spec n' "main") as [->|]; [done| | |].
  - apply (f_equal (cut hash)) in Heq. by rewrite (cut_none hash id), cut_append in Heq.
  - apply (f_equal (cut hash)) in Heq. by rewrite (cut_none hash id), cut_append in Heq.
  - apply (f_equal (cut hash)) in Heq. rewrite !cut_append in Heq by done. by injection Heq.
Qed.

Section documents.
Context `{Env} `{Indigo} (float64_ok : string → bool).
Implicit Types (docs saved : gmap string string) (id name : string).

(** Documents by ids without a hash sign, as NSIDs are. *)
Definition plain_ids docs : Prop := ∀ id raw, docs !! id = Some raw → no_byte hash id = true.

(** A definition of a document. *)
Definition defines docs id name (def : json) : Prop :=
  ∃ raw defs, docs !! id = Some raw ∧ reference_document raw = Ok (id, defs) ∧ defs !! name = Some def.

(** One definition refers to another. *)
Definition refers_in docs (x y : string) : Prop :=
  ∃ id name def, defines docs id name def ∧ x = definitionRef id name ∧ y ∈ collectRefs def id.

Lemma add_definition_ok id graph name def graph' :
  add_definition float64_ok id graph (name, def) = Ok graph' →
  graph' = <[definitionRef id name := sort_strings (collectRefs def id)]> graph.
Proof. unfold add_definition, collectDefinitionRefs. cbn. destruct (numbers_ok float64_ok def); [|done]. by intros [= <-]. Qed.

(** The definitions of one document. *)
Lemma add_definitions_spec id (defs : gmap string json) graph0 graph :
  no_byte hash id = true →
  fold_outcome (add_definition float64_ok id) graph0 (sorted_entries defs) = Ok graph →
  (∀ name def, defs !! name = Some def → graph !! definitionRef id name = Some (sort_strings (collectRefs def id))) ∧
  (∀ x, (∀ name def, defs !! name = Some def → x ≠ definitionRef id name) → graph !! x = graph0 !! x).
Proof.
  intros Hid Hfold.
  pose (P := λ (done : list (string * json)) (g : gmap string (list string)),
    (∀ name def, (name, def) ∈ done → g !! definitionRef id name = Some (sort_strings (collectRefs def id))) ∧
    (∀ x, (∀ name def, (name, def) ∈ done → x ≠ definitionRef id name) → g !! x = graph0 !! x)).
  assert (HP : P (sorted_entries defs) graph).
  { revert Hfold. apply fold_outcome_ind; [by split; [set_solver|]|].
    intros done [n d] g1 g2 Hpre [H1 H2] ->%add_definition_ok. split.
    - intros name def Hin. destruct (decide (name = n)) as [->|Hne].
      + rewrite lookup_insert_eq. do 2 f_equal.
        assert (Hd : (n, def) ∈ sorted_entries defs) by by eapply prefix_elem.
        assert (Hd' : (n, d) ∈ sorted_entries defs) by (eapply prefix_elem; [done|set_solver]).
        apply elem_of_sorted_entries in Hd, Hd'. congruence.
      + apply elem_of_app in Hin as [Hin|Hin%list_elem_of_singleton]; [|congruence].
        rewrite lookup_insert_ne; [by apply H1|]. by intros [_ ?]%definitionRef_inj.
    - intros x Hx. rewrite lookup_insert_ne; [apply H2; intros; apply (Hx name def); set_solver|].
      intros Heq. apply (Hx n d); [set_solver|done]. }
  destruct HP as [H1 H2]. split.
  - intros name def Hd. apply H1. by apply elem_of_sorted_entries.
  - intros x Hx. apply H2. intros name def Hin. apply (Hx name def). by apply elem_of_sorted_entries.
Qed.

(** The whole graph. *)
Lemma reference_graph_spec docs graph :
  plain_ids docs → buildReferenceGraph float64_ok docs = Ok graph →
  (∀ id name def, defines docs id name def → graph !! definitionRef id name = Some (sort_strings (collectRefs def id))) ∧
  (∀ x refs, graph !! x = Some refs → ∃ id name def, defines docs id name def ∧ x = definitionRef id name ∧
    refs = sort_strings (collectRefs def id)).
Proof.
  intros Hplain.
  pose (def_of := λ (done : list (string * string)) id name def, ∃ raw defs, (id, raw) ∈ done ∧
    reference_document raw = Ok (id, defs) ∧ defs !! name = Some def).
  pose (P := λ (done : list (string * string)) (g : gmap string (list string)),
    (∀ id name def, def_of done id name def → g !! definitionRef id name = Some (sort_strings (collectRefs def id))) ∧
    (∀ x refs, g !! x = Some refs → ∃ id name def, def_of done id name def ∧ x = definitionRef id name ∧
      refs = sort_strings (collectRefs def id))).
  assert (Hdef : ∀ id name def, defines docs id name def ↔ def_of (sorted_entries docs) id name def).
  { intros. unfold defines, def_of. by setoid_rewrite elem_of_sorted_entries. }
  unfold buildReferenceGraph. intros Hfold. setoid_rewrite Hdef. enough (P (sorted_entries docs) graph) as [? ?] by done.
  revert Hfold. apply fold_outcome_ind; [split; [intros ??? (? & ? & ? & _); set_solver|done]|].
  intros done [id raw] g1 g2 Hpre [H1 H2] Hadd.
  assert (Hplain' : ∀ id' raw', (id', raw') ∈ done ++ [(id, raw)] → no_byte hash id' = true).
  { intros id' raw' Hin. eapply prefix_elem, elem_of_sorted_entries in Hin; [by eapply Hplain|done]. }
  assert (Hid : no_byte hash id = true) by (apply (Hplain' id raw); set_solver).
  unfold add_document in Hadd. cbn in Hadd. destruct (reference_document raw) as [[id' defs]|] eqn:Ed; [|done]. cbn in Hadd.
  destruct (String.eqb_spec id' id) as [->|]; [|done]. cbn [negb] in Hadd.
  destruct (add_definitions_spec id defs g1 g2 Hid Hadd) as [Hnew Hold]. split.
  - intros i n d (r & ds & Hin & Hr & Hd). destruct (decide (i = id)) as [->|Hne].
    + assert (r = raw) as ->.
      { eapply prefix_elem, elem_of_sorted_entries in Hin; [|done].
        assert (Hin' : (id, raw) ∈ sorted_entries docs) by (eapply prefix_elem; [done|set_solver]).
        apply elem_of_sorted_entries in Hin'. congruence. }
      apply Hnew. congruence.
    + apply elem_of_app in Hin as [Hin|Hin%list_elem_of_singleton]; [|congruence].
      rewrite Hold; [apply H1; by exists r, ds|]. intros n' d' _ [? _]%definitionRef_inj; [done|apply (Hplain' i r); set_solver|done].
  - intros x refs Hx. destruct (decide (Exists (λ e : string * json, x = definitionRef id e.1) (map_to_list defs))) as [Hex|Hnot].
    + apply Exists_exists in Hex as ([n d] & Hd%elem_of_map_to_list & ->). cbn in *. rewrite (Hnew n d Hd) in Hx.
      exists id, n, d. split_and!; [|done|congruence]. exists raw, defs. split_and!; [set_solver|done|done].
    + rewrite Hold in Hx.
      * destruct (H2 x refs Hx) as (i & n & d & (r & ds & Hin & ?) & ?). exists i, n, d. split; [|done].
        exists r, ds. split; [set_solver|done].
      * intros n d Hd ->. apply Hnot, Exists_exists. exists (n, d). split; [by apply elem_of_map_to_list|done].
Qed.

Lemma refers_graph docs graph x y :
  plain_ids docs → buildReferenceGraph float64_ok docs = Ok graph → refers graph x y ↔ refers_in docs x y.
Proof.
  intros Hplain Hg. destruct (reference_graph_spec _ _ Hplain Hg) as [H1 H2]. unfold refers. split.
  - destruct (graph !! x) as [refs|] eqn:E; cbn; [|set_solver]. destruct (H2 x refs E) as (id & n & d & Hd & -> & ->).
    intros Hy%elem_of_sort_strings. by exists id, n, d.
  - intros (id & n & d & Hd & -> & Hy). rewrite (H1 id n d Hd). cbn. by apply elem_of_sort_strings.
Qed.
End documents.

(** ** Fingerprints and verdicts

    Two startup sets that give a collection one fingerprint hold the same documents
    wherever the collection's definitions lead; and what a verdict of the validator means. *)

Definition equals_sign : Ascii.ascii := byte 61.

Section fingerprints.
Context `{Env} `{Indigo} (float64_ok : string → bool).
Implicit Types (docs saved : gmap string string) (id c : string) (v : Validator).

(** ** A validator and its documents *)

Lemma filtered_documents saved docs :
  withoutNonRecordLexicons saved = Ok docs → ∀ id raw, docs !! id = Some raw → saved !! id = Some raw.
Proof.
  unfold withoutNonRecordLexicons. intros Hf.
  enough (HP : ∀ id raw, docs !! id = Some raw → (id, raw) ∈ map_to_list saved) by (intros; apply elem_of_map_to_list; auto).
  revert Hf. apply (fold_outcome_ind without_lexicon
    (λ done g, ∀ id raw, g !! id = Some raw → (id, raw) ∈ done)); [done|].
  intros done [i r] g1 g2 _ Hg Hstep id raw Hid.
  assert (Hcase : g2 = g1 ∨ g2 = <[i := r]> g1).
  { unfold without_lexicon in Hstep. cbn in Hstep. destruct (main_type r) as [[j t]|]; [|right; congruence].
    case_bool_decide; [|right; congruence]. destruct (negb _); [done|left; congruence]. }
  apply elem_of_app. destruct Hcase as [->| ->]; [left; eauto|].
  apply lookup_insert_Some in Hid as [[-> ->]|[_ Hid]]; [right; by apply list_elem_of_singleton|left; eauto].
Qed.

Lemma loaded_hashes docs registry catalog hashes :
  fold_outcome (load_lexicon float64_ok) (NewRegistry, NewBaseCatalog, ∅) (sorted_entries docs) = Ok (registry, catalog, hashes) →
  ∀ id, hashes !! id = HashLexiconJSON <$> docs !! id.
Proof.
  intros Hf.
  pose (P := λ (done : list (string * string)) (acc : Registry * Catalog * gmap string string),
    (∀ id raw, (id, raw) ∈ done → acc.2 !! id = Some (HashLexiconJSON raw)) ∧
    (∀ id h, acc.2 !! id = Some h → ∃ raw, (id, raw) ∈ done)).
  assert (HP : P (sorted_entries docs) (registry, catalog, hashes)).
  { revert Hf. apply fold_outcome_ind; [split; [set_solver|done]|].
    intros done [i r] [[r1 c1] h1] [[r2 c2] h2] Hpre [H1 H2] Hstep. cbn in *.
    destruct (parseLexiconBytes float64_ok i r) as [parsed|]; [|done]. cbn in Hstep.
    destruct (addSchemaFileToIndigoCatalog c1 parsed.2); [|done]. cbn in Hstep. injection Hstep as _ _ <-. cbn. split.
    - intros id raw Hin. cbn. destruct (decide (id = i)) as [->|].
      + rewrite lookup_insert_eq. assert (raw = r) as ->; [|done].
        eapply prefix_elem, elem_of_sorted_entries in Hin; [|done].
        assert (Hr : (i, r) ∈ sorted_entries docs) by (eapply prefix_elem; [done|set_solver]).
        apply elem_of_sorted_entries in Hr. congruence.
      + rewrite lookup_insert_ne by done. apply H1. set_solver.
    - intros id h Hh. cbn in Hh. apply lookup_insert_Some in Hh as [[-> _]|[_ Hh]]; [exists r; set_solver|].
      destruct (H2 id h Hh) as [raw ?]. exists raw. set_solver. }
  destruct HP as [H1 H2]. cbn in *. intros id. destruct (docs !! id) as [raw|] eqn:E; cbn.
  - by apply H1, elem_of_sorted_entries.
  - destruct (hashes !! id) as [h|] eqn:Eh; [|done]. destruct (H2 id h Eh) as [raw Hin%elem_of_sorted_entries]. congruence.
Qed.

Lemma closed_references graph x y :
  missing_reference graph = None → refers graph x y → is_Some (graph !! y).
Proof.
  unfold missing_reference, refers. intros Hm%head_None Hxy. destruct (graph !! x) as [refs|] eqn:E; [|set_solver]. cbn in Hxy.
  destruct (graph !! y) as [|] eqn:Ey; [eauto|]. exfalso.
  assert (Hin : (x, y) ∈ sorted_entries graph ≫= λ e, pair e.1 <$> filter (λ ref, graph !! ref = None) e.2).
  { apply list_elem_of_bind. exists (x, refs). cbn. split; [|by apply elem_of_sorted_entries].
    apply list_elem_of_fmap. exists y. split; [done|]. by apply list_elem_of_filter. }
  rewrite Hm in Hin. set_solver.
Qed.

(** What [NewValidatorFromLexiconBytes] leaves. *)
Record built docs v : Prop := {
  built_hashes id : v_hashes v !! id = HashLexiconJSON <$> docs !! id;
  built_graph : buildReferenceGraph float64_ok docs = Ok (v_referenceGraph v);
  built_closed : missing_reference (v_referenceGraph v) = None;
}.

Lemma new_validator_built saved v :
  NewValidatorFromLexiconBytes float64_ok saved = Ok v → ∃ docs, withoutNonRecordLexicons saved = Ok docs ∧ built docs v.
Proof.
  unfold NewValidatorFromLexiconBytes. destruct (withoutNonRecordLexicons saved) as [docs|] eqn:Ed; [|done]. cbn.
  destruct (fold_outcome (load_lexicon float64_ok) _ _) as [[[registry catalog] hashes]|] eqn:El; [|done]. cbn.
  destruct (buildReferenceGraph float64_ok docs) as [graph|] eqn:Eg; [|done]. cbn.
  unfold validateReferenceClosure. destruct (missing_reference graph) as [[? ?]|] eqn:Em; [done|]. cbn. intros [= <-].
  exists docs. split; [done|]. split; [by eapply loaded_hashes|done|done].
Qed.

(** ** What a fingerprint is made of *)

(** A document that a collection's definitions lead to. *)
Definition leads_to_document docs c id : Prop := ∃ node, rtc (refers_in docs) c node ∧ lexicon_of node = id.

Lemma referenced_ids docs v c id :
  plain_ids docs → built docs v → id ∈ referencedLexiconIDs v c ↔ leads_to_document docs c id.
Proof.
  intros Hplain Hb. unfold referencedLexiconIDs, leads_to_document.
  rewrite elem_of_sort_strings, elem_of_map. setoid_rewrite walk_reaches.
  assert (Hrtc : ∀ x y, rtc (refers (v_referenceGraph v)) x y ↔ rtc (refers_in docs) x y).
  { intros x y. split; apply rtc_subrel; intros a b Hab; by apply (refers_graph float64_ok docs _ a b Hplain (built_graph _ _ Hb)). }
  setoid_rewrite Hrtc. naive_solver.
Qed.

(** Every document a stored collection leads to is stored. *)
Lemma referenced_stored docs v c id :
  plain_ids docs → built docs v → is_Some (docs !! c) → leads_to_document docs c id → is_Some (docs !! id).
Proof.
  intros Hplain Hb [raw Hc] (node & Hr & <-). apply rtc_inv_r in Hr as [<-|(x & _ & Hx)].
  - rewrite lexicon_of_plain by by eapply Hplain. eauto.
  - apply (refers_graph float64_ok docs _ _ _ Hplain (built_graph _ _ Hb)) in Hx.
    apply closed_references in Hx as [refs Hn]; [|apply Hb].
    destruct (reference_graph_spec float64_ok docs _ Hplain (built_graph _ _ Hb)) as [_ Hdef].
    destruct (Hdef node refs Hn) as (i & n & d & (r & ds & Hi & _) & -> & _).
    rewrite lexicon_of_ref by by eapply Hplain. eauto.
Qed.

(** The line of a document in a fingerprint. *)
Definition document_line docs id : string := id +:+ String equals_sign (HashLexiconJSON (default "" (docs !! id))).

Lemma fingerprint_lines docs v c :
  plain_ids docs → built docs v → is_Some (docs !! c) →
  validator_LexiconHash v c =
    Some (sha256_hex (join (byte_str newline) (document_line docs <$> referencedLexiconIDs v c))).
Proof.
  intros Hplain Hb Hc. unfold validator_LexiconHash. rewrite (built_hashes _ _ Hb). destruct (Hc) as [raw Hraw]. rewrite Hraw. cbn.
  do 3 f_equal. unfold fingerprint_parts.
  assert (Hall : ∀ id, id ∈ referencedLexiconIDs v c → is_Some (docs !! id)).
  { intros id Hid. apply (referenced_ids docs) in Hid; [|done..]. by eapply referenced_stored. }
  induction (referencedLexiconIDs v c) as [|id ids IH]; [done|]. cbn.
  destruct (Hall id (list_elem_of_here _ _)) as [r Hr]. rewrite (built_hashes _ _ Hb).
  unfold document_line at 1. rewrite Hr. cbn. f_equal. apply IH. intros. apply Hall. by right.
Qed.

(** ** Equal fingerprints *)

(** Ids without the bytes that structure a fingerprint. *)
Definition ordinary_ids docs : Prop := ∀ id raw, docs !! id = Some raw →
  no_byte hash id = true ∧ no_byte newline id = true ∧ no_byte equals_sign id = true.

Hypothesis digest_line : ∀ s, no_byte newline (sha256_hex s) = true.

Lemma document_line_bytes docs id :
  no_byte newline id = true → no_byte newline (document_line docs id) = true.
Proof. intros Hid. unfold document_line. rewrite no_byte_app, Hid. cbn. apply digest_line. Qed.

Lemma lines_injective docs1 docs2 (ids1 ids2 : list string) :
  (∀ id, id ∈ ids1 → ∃ raw, docs1 !! id = Some raw ∧ no_byte newline id = true ∧ no_byte equals_sign id = true) →
  (∀ id, id ∈ ids2 → ∃ raw, docs2 !! id = Some raw ∧ no_byte newline id = true ∧ no_byte equals_sign id = true) →
  document_line docs1 <$> ids1 = document_line docs2 <$> ids2 →
  ids1 = ids2 ∧ ∀ id, id ∈ ids1 → HashLexiconJSON (default "" (docs1 !! id)) = HashLexiconJSON (default "" (docs2 !! id)).
Proof.
  revert ids2. induction ids1 as [|i ids1 IH]; intros [|j ids2] H1 H2; [by split; [|set_solver]|done..|].
  rewrite !fmap_cons. intros [= Hline Hrest].
  destruct (H1 i (list_elem_of_here _ _)) as (r1 & Hr1 & _ & He1), (H2 j (list_elem_of_here _ _)) as (r2 & Hr2 & _ & He2).
  unfold document_line in Hline. apply (f_equal (cut equals_sign)) in Hline. rewrite !cut_append in Hline by done.
  injection Hline as -> Hh.
  destruct (IH ids2) as [-> Heq]; [intros; apply H1; by right|intros; apply H2; by right|done|].
  split; [done|]. intros id [->|Hid]%elem_of_cons; [done|auto].
Qed.

Lemma join_injective (l k : list string) :
  l ≠ [] → k ≠ [] → Forall (λ s, no_byte newline s = true) l → Forall (λ s, no_byte newline s = true) k →
  join (byte_str newline) l = join (byte_str newline) k → l = k.
Proof. intros Hl Hk Fl Fk Heq. rewrite <- (split_join newline l), <- (split_join newline k) by done. by rewrite Heq. Qed.

(** A document saved at startup that a collection's definitions lead to. *)
Definition depends_on saved c id : Prop :=
  ∃ docs, withoutNonRecordLexicons saved = Ok docs ∧ leads_to_document docs c id.

Lemma referenced_lines saved docs v c h :
  withoutNonRecordLexicons saved = Ok docs → ordinary_ids saved → built docs v → validator_LexiconHash v c = Some h →
  h = sha256_hex (join (byte_str newline) (document_line docs <$> referencedLexiconIDs v c)) ∧
  c ∈ referencedLexiconIDs v c ∧
  (∀ id, id ∈ referencedLexiconIDs v c ↔ depends_on saved c id) ∧
  (∀ id, id ∈ referencedLexiconIDs v c →
    ∃ raw, docs !! id = Some raw ∧ saved !! id = Some raw ∧ no_byte newline id = true ∧ no_byte equals_sign id = true).
Proof.
  intros Hdocs Hord Hb Hh. assert (Hsub := filtered_documents _ _ Hdocs).
  assert (Hplain : plain_ids docs) by (intros id raw ?%Hsub; by eapply Hord).
  assert (Hc : is_Some (docs !! c)).
  { unfold validator_LexiconHash in Hh. rewrite (built_hashes _ _ Hb) in Hh. destruct (docs !! c); [eauto|done]. }
  rewrite (fingerprint_lines docs v c) in Hh by done. injection Hh as <-. split_and!; [done| | |].
  - apply (referenced_ids docs); [done..|]. exists c. split; [done|]. destruct Hc as [raw Hraw].
    apply lexicon_of_plain. by eapply Hplain.
  - intros id. rewrite (referenced_ids docs) by done. unfold depends_on. split; [eauto|].
    intros (docs' & Hd & ?). congruence.
  - intros id Hid. apply (referenced_ids docs) in Hid; [|done..].
    destruct (referenced_stored docs v c id) as [raw Hraw]; [done..|]. exists raw. assert (Hs := Hsub _ _ Hraw).
    destruct (Hord _ _ Hs) as (_ & ? & ?). done.
Qed.

(** The text a collection's fingerprint is the digest of. *)
Definition fingerprint_text saved v c : string := join (byte_str newline) (document_line saved <$> referencedLexiconIDs v c).

(** Two texts of one digest. *)
Definition collide (s t : string) : Prop := s ≠ t ∧ sha256_hex s = sha256_hex t.

(** A collision in what two startup sets have digests of: the texts of the fingerprints, or the two sets' documents of one id. *)
Definition digests_collide saved1 saved2 v1 v2 c : Prop :=
  collide (fingerprint_text saved1 v1 c) (fingerprint_text saved2 v2 c) ∨
  ∃ id raw1 raw2, depends_on saved1 c id ∧ saved1 !! id = Some raw1 ∧ saved2 !! id = Some raw2 ∧ collide raw1 raw2.

Lemma saved_lines (saved docs : gmap string string) (ids : list string) :
  (∀ id, id ∈ ids → ∃ raw, docs !! id = Some raw ∧ saved !! id = Some raw ∧ no_byte newline id = true ∧ no_byte equals_sign id = true) →
  document_line docs <$> ids = document_line saved <$> ids.
Proof.
  intros Hs. apply list_fmap_ext. intros i id Hid. apply list_elem_of_lookup_2 in Hid. destruct (Hs id Hid) as (raw & H1 & H2 & _).
  unfold document_line. by rewrite H1, H2.
Qed.

Lemma equal_fingerprints saved1 saved2 v1 v2 c h :
  ordinary_ids saved1 → ordinary_ids saved2 →
  NewValidatorFromLexiconBytes float64_ok saved1 = Ok v1 → NewValidatorFromLexiconBytes float64_ok saved2 = Ok v2 →
  validator_LexiconHash v1 c = Some h → validator_LexiconHash v2 c = Some h →
  ((∀ id, depends_on saved1 c id ↔ depends_on saved2 c id) ∧ depends_on saved1 c c ∧
   ∀ id, depends_on saved1 c id → is_Some (saved1 !! id) ∧ saved2 !! id = saved1 !! id) ∨
  digests_collide saved1 saved2 v1 v2 c.
Proof.
  intros Hord1 Hord2 (docs1 & Hd1 & Hb1)%new_validator_built (docs2 & Hd2 & Hb2)%new_validator_built Hh1 Hh2.
  destruct (referenced_lines saved1 docs1 v1 c h) as (E1 & Hc1 & Hids1 & Hs1); [done..|].
  destruct (referenced_lines saved2 docs2 v2 c h) as (E2 & Hc2 & Hids2 & Hs2); [done..|].
  rewrite (saved_lines saved1 docs1) in E1 by done. rewrite (saved_lines saved2 docs2) in E2 by done.
  fold (fingerprint_text saved1 v1 c) in E1. fold (fingerprint_text saved2 v2 c) in E2. rewrite E1 in E2.
  destruct (decide (fingerprint_text saved1 v1 c = fingerprint_text saved2 v2 c)) as [Et|]; [clear E1 E2|by right; left].
  apply join_injective in Et.
  2, 3: intros Hnil%fmap_nil_inv; rewrite Hnil in *; set_solver.
  2, 3: apply Forall_fmap, Forall_forall; intros id Hid; cbn; apply document_line_bytes.
  2: { by destruct (Hs1 id Hid) as (? & _ & _ & ? & _). }
  2: { by destruct (Hs2 id Hid) as (? & _ & _ & ? & _). }
  apply lines_injective in Et as [Hids Hdocs].
  2: { intros id Hid. destruct (Hs1 id Hid) as (raw & _ & ? & ? & ?). by exists raw. }
  2: { intros id Hid. destruct (Hs2 id Hid) as (raw & _ & ? & ? & ?). by exists raw. }
  destruct (decide (Forall (λ id, saved2 !! id = saved1 !! id) (referencedLexiconIDs v1 c))) as [Hsame|Hdiff].
  - left. rewrite Forall_forall in Hsame. split_and!.
    + intros id. by rewrite <- Hids1, <- Hids2, Hids.
    + by apply Hids1.
    + intros id Hid%Hids1. destruct (Hs1 id Hid) as (raw & _ & Hsr1 & _). split; [eauto|by apply Hsame].
  - right. right. apply not_Forall_Exists, Exists_exists in Hdiff as (id & Hid & Hne); [|apply _].
    destruct (Hs1 id Hid) as (raw1 & _ & Hr1 & _). assert (Hid2 : id ∈ referencedLexiconIDs v2 c) by by rewrite <- Hids.
    destruct (Hs2 id Hid2) as (raw2 & _ & Hr2 & _). specialize (Hdocs id Hid). rewrite Hr1, Hr2 in Hdocs.
    exists id, raw1, raw2. split_and!; [by apply Hids1|done|done|]. split; [|done]. intros ->. apply Hne. cbn. congruence.
Qed.
End fingerprints.

(** C7. A fingerprint covers everything a verdict depends on: when two startup sets of
    Lexicons give a collection the same fingerprint, its definitions lead to the same
    documents in both, its own among them, and each of these documents is the same text in
    both sets - or SHA-256 has a collision among the texts it was applied to: the two texts of the fingerprint,
    or the two sets' documents of one id. So, collisions apart, a change to any of the documents, however indirectly
    referenced, changes the fingerprint and has the stored records validated again. The ids of the
    saved Lexicons have none of the bytes #, = and newline, as NSIDs have. *)
Theorem fingerprint_covers_references `{Env} `{Indigo} float64_ok saved1 saved2 v1 v2 c h :
  (∀ s, no_byte newline (sha256_hex s) = true) →
  ordinary_ids saved1 → ordinary_ids saved2 →
  NewValidatorFromLexiconBytes float64_ok saved1 = Ok v1 → NewValidatorFromLexiconBytes float64_ok saved2 = Ok v2 →
  validator_LexiconHash v1 c = Some h → validator_LexiconHash v2 c = Some h →
  ((∀ id, depends_on saved1 c id ↔ depends_on saved2 c id) ∧ depends_on saved1 c c ∧
   ∀ id, depends_on saved1 c id → is_Some (saved1 !! id) ∧ saved2 !! id = saved1 !! id) ∨
  digests_collide saved1 saved2 v1 v2 c.
Proof. intros Hd. apply (equal_fingerprints float64_ok Hd). Qed.

(** ** Verdicts *)

Section verdicts.
Context `{Env} `{Indigo}.

(** What it takes to be valid. *)
Definition conforms (v : Validator) (c rkey raw : string) : Prop :=
  ∃ def record, GetRecordDef (v_registry v) c = Some def ∧ UnmarshalJSON raw = Ok record ∧
    validateRecordKey (rd_Key def) rkey = Ok tt ∧ indigo_ValidateRecord (v_catalog v) record c = Ok tt.

Lemma key_error rule rkey e : validateRecordKey rule rkey = Err e → e ≠ "".
Proof.
  assert (Hwrap : ∀ c msg (o : outcome unit), wrap_err (String c msg) o = Err e → e ≠ "")
    by (intros c msg [|]; [done|by intros [= <-]]).
  unfold validateRecordKey. destruct (_ || _); [apply Hwrap|]. destruct (rule =? "tid")%string; [apply Hwrap|].
  destruct (rule =? "nsid")%string; [apply Hwrap|]. destruct (has_prefix _ _); [destruct (_ =? _)%string; [done|]|]; by intros [= <-].
Qed.

(** What refreshing records relies on. *)
#[export] Instance record_validator_laws v : ValidatorLaws (record_validator v).
Proof.
  intros c rkey raw h Hh. cbn in *. unfold validator_ValidateRecord. rewrite Hh.
  destruct (GetRecordDef _ _); [|done]. destruct (UnmarshalJSON raw); [|by destruct (negb _)].
  destruct (validateRecordKey _ _); [|done]. destruct (indigo_ValidateRecord _ _ _); [done|]. by destruct (isCatalogResolutionError _).
Qed.

(** The parts of a verdict in one case of the validator. *)
Ltac verdict_cases :=
  cbn; split_and!;
  [ split; [intros Hst; first [discriminate Hst|split; [by eexists|by eexists _, _]]
           |intros [Hs (d & r & ? & ? & ? & ?)]; first [done|congruence|by destruct Hs]]
  | split; intros Hst; first [done|discriminate Hst|congruence]
  | intros Hst; first [discriminate Hst
      |eexists; split_and!; [done|intros (d & r & ? & ? & ? & ?); congruence|first [by left|by right]]]
  | apply (bool_decide_unpack _); vm_compute; exact I
  | split; intros Hst; first [done|discriminate Hst|congruence]
  | done ].

(** C27. The validator fails closed: a record is valid exactly when its collection has a
    Lexicon and a record definition, it is AT Protocol data, its key obeys the rule and
    Indigo accepts it; without a Lexicon the verdict is unknown_schema, a problem of the
    server or of the JSON itself is a validation_error, anything else is invalid, with an
    error text whenever it is not valid; and the verdict carries the collection's current
    fingerprint. *)
Theorem verdict_exact v c rkey raw (res := validator_ValidateRecord v c rkey raw) :
  (res_status res = StatusValid ↔ is_Some (validator_LexiconHash v c) ∧ conforms v c rkey raw) ∧
  (res_status res = StatusUnknownSchema ↔ validator_LexiconHash v c = None) ∧
  (res_status res = StatusInvalid → ∃ def, GetRecordDef (v_registry v) c = Some def ∧ ¬ conforms v c rkey raw ∧
    (valid_json raw = true ∨ is_ok (UnmarshalJSON raw) = true)) ∧
  res_status res ∈ [StatusValid; StatusInvalid; StatusUnknownSchema; StatusValidationError] ∧
  (res_status res = StatusValid ↔ res_error res = "") ∧
  res_lexicon_hash res = default "" (validator_LexiconHash v c).
Proof.
  subst res. unfold validator_ValidateRecord, conforms.
  destruct (validator_LexiconHash v c) as [h|]; [|verdict_cases].
  destruct (GetRecordDef (v_registry v) c) as [def|]; [|verdict_cases].
  destruct (UnmarshalJSON raw) as [record|e] eqn:Eu; [|destruct (valid_json raw); verdict_cases].
  destruct (validateRecordKey (rd_Key def) rkey) as [[]|e] eqn:Ek; [|assert (Hne := key_error _ _ _ Ek); verdict_cases].
  destruct (indigo_ValidateRecord (v_catalog v) record c) as [[]|e] eqn:Ei; [verdict_cases|].
  destruct (isCatalogResolutionError e); verdict_cases.
Qed.
End verdicts.
