(* ===== verification/PubSub.v ===== *)
(** * Subscriptions

    src/internal/graphql/subscription/pubsub.go: best-effort delivery of record
    events to subscribers with bounded buffers. A Go channel is its buffered events
    and whether it is closed; sending on a closed channel would panic. *)
From S2P Require Import Prelude GoStrings Json Effects Database.

Inductive EventType := EventCreate | EventUpdate | EventDelete.
#[export] Instance EventType_eq_dec : EqDecision EventType.
Proof. solve_decision. Defined.

Definition SubscriberBufferSize : nat := 100.

(** pubsub.go [RecordEvent] *)
Record PubRecordEvent := mkEvent {
  ev_Type : EventType;
  ev_URI : string;
  ev_CID : string;
  ev_DID : string;
  ev_Collection : string;
  ev_Record : option json;
  ev_TypedRecord : option (gmap string json);
  ev_TypedVisible : bool;
  ev_WasValid : bool;
}.

(** A channel of capacity [SubscriberBufferSize]. *)
Record channel := mkChannel { ch_buffer : list PubRecordEvent; ch_closed : bool }.

(** pubsub.go [PubSub]: the registered subscribers by id (their collection; empty is
    every collection). A subscriber's channel outlives its registration. *)
Record PubSub := mkPubSub {
  subscribers : gmap string string;
  channels : gmap string channel;
  nextID : Z;
}.

Definition NewPubSub : PubSub := mkPubSub ∅ ∅ 0.

Definition Subscribe (collection : string) (ps : PubSub) : string * PubSub :=
  let n := (nextID ps + 1)%Z in
  let id := itoa n in
  (id, mkPubSub (<[id := collection]> (subscribers ps)) (<[id := mkChannel [] false]> (channels ps)) n).

Definition Unsubscribe (id : string) (ps : PubSub) : PubSub :=
  match subscribers ps !! id with
  | Some _ => mkPubSub (delete id (subscribers ps))
      (alter (λ ch, mkChannel (ch_buffer ch) true) id (channels ps)) (nextID ps)
  | None => ps
  end.

Definition wants (collection : string) (ev : PubRecordEvent) : bool :=
  (collection =? "")%string || (collection =? ev_Collection ev)%string.

(** [select { case sub.Events <- event: default: }] *)
Definition try_send (ev : PubRecordEvent) (ch : channel) : channel :=
  if length (ch_buffer ch) <? SubscriberBufferSize
  then mkChannel (ch_buffer ch ++ [ev]) (ch_closed ch) else ch.

Definition Publish (ev : PubRecordEvent) (ps : PubSub) : PubSub :=
  mkPubSub (subscribers ps)
    (map_imap (λ id ch, Some (match subscribers ps !! id with
       | Some collection => if wants collection ev then try_send ev ch else ch
       | None => ch end)) (channels ps))
    (nextID ps).

(** [<-sub.Events]: the oldest buffered event, if any. *)
Definition Receive (id : string) (ps : PubSub) : option PubRecordEvent * PubSub :=
  match channels ps !! id with
  | Some (mkChannel (ev :: rest) closed) =>
      (Some ev, mkPubSub (subscribers ps) (<[id := mkChannel rest closed]> (channels ps)) (nextID ps))
  | _ => (None, ps)
  end.

Definition SubscriberCount (ps : PubSub) : nat := size (subscribers ps).

Definition decodeRawSubscriptionRecord (recordJSON : string) : option json :=
  if (recordJSON =? "")%string then None
  else match json_parse recordJSON with
       | Some JNull | None => None
       | Some j => Some j
       end.

Definition decodeTypedSubscriptionRecord (recordJSON uri cid : string) : option (gmap string json) :=
  if (recordJSON =? "")%string then None
  else match json_parse recordJSON with
       | Some (JObject ms) => Some (<["cid" := JString cid]> (<["uri" := JString uri]> (object_map ms)))
       | _ => None
       end.

Definition PublishRecordWithValidation (eventType : EventType) (uri cid did collection recordJSON : string)
    (typedVisible : bool) : PubSub → PubSub :=
  Publish (mkEvent eventType uri cid did collection (decodeRawSubscriptionRecord recordJSON)
    (decodeTypedSubscriptionRecord recordJSON uri cid) typedVisible false).

Definition PublishRecord (eventType : EventType) (uri cid did collection recordJSON : string) : PubSub → PubSub :=
  PublishRecordWithValidation eventType uri cid did collection recordJSON true.

Definition PublishDelete (uri cid did collection previousRecordJSON : string) (wasValid : bool)
    : PubSub → PubSub :=
  Publish (mkEvent EventDelete uri cid did collection None
    (decodeTypedSubscriptionRecord previousRecordJSON uri cid) false wasValid).

(** ** Interleavings

    Subscribers, publishers and consumers run concurrently; the mutex serialises
    their operations, so a run is a sequence of steps. *)

Inductive ps_label :=
  | LSubscribe (collection : string)
  | LUnsubscribe (id : string)
  | LPublish (ev : PubRecordEvent)
  | LReceive (id : string).

Inductive ps_step : PubSub → ps_label → PubSub → Prop :=
  | step_subscribe ps c : ps_step ps (LSubscribe c) (Subscribe c ps).2
  | step_unsubscribe ps id : ps_step ps (LUnsubscribe id) (Unsubscribe id ps)
  | step_publish ps ev : ps_step ps (LPublish ev) (Publish ev ps)
  | step_receive ps id : ps_step ps (LReceive id) (Receive id ps).2.

(** Registered subscribers have an open channel holding at most a buffer of events
    they asked for; ids are those handed out so far. *)
Record ps_wf (ps : PubSub) : Prop := {
  pw_registered : ∀ id c, subscribers ps !! id = Some c → ∃ ch, channels ps !! id = Some ch ∧
    ch_closed ch = false ∧ Forall (λ ev, wants c ev = true) (ch_buffer ch);
  pw_bounded : ∀ id ch, channels ps !! id = Some ch → length (ch_buffer ch) ≤ SubscriberBufferSize;
  pw_ids : ∀ id, is_Some (channels ps !! id) → ∃ n, id = itoa n ∧ (0 < n ≤ nextID ps)%Z;
  pw_next : (0 ≤ nextID ps)%Z;
}.

Lemma fresh_id ps : ps_wf ps → channels ps !! itoa (nextID ps + 1) = None.
Proof.
  intros Hwf. destruct (channels ps !! itoa (nextID ps + 1)) as [ch|] eqn:E; [|done].
  destruct (pw_ids _ Hwf (itoa (nextID ps + 1))) as (n & Hn & ?); [by rewrite E|].
  apply itoa_inj in Hn. lia.
Qed.

Lemma try_send_bound ev ch :
  length (ch_buffer ch) ≤ SubscriberBufferSize → length (ch_buffer (try_send ev ch)) ≤ SubscriberBufferSize.
Proof.
  intros. unfold try_send. destruct (Nat.ltb_spec (length (ch_buffer ch)) SubscriberBufferSize); [|done].
  simpl. rewrite length_app. simpl. lia.
Qed.

Lemma publish_channel ev ps id :
  channels (Publish ev ps) !! id = (λ ch, match subscribers ps !! id with
    | Some c => if wants c ev then try_send ev ch else ch | None => ch end) <$> channels ps !! id.
Proof. unfold Publish. simpl. rewrite map_lookup_imap. by destruct (channels ps !! id). Qed.

Lemma subscribe_wf c ps : ps_wf ps → ps_wf (Subscribe c ps).2.
Proof.
  intros [Hr Hb Hi Hn]. split; simpl.
  - intros id' c'. destruct (decide (id' = itoa (nextID ps + 1))) as [->|].
    + rewrite !lookup_insert_eq. intros [= ->]. eexists. split; [done|]. by split.
    + rewrite !lookup_insert_ne by done. apply Hr.
  - intros id' ch. rewrite lookup_insert_Some. intros [[_ <-]|[_ ?]]; [simpl; lia|by eapply Hb].
  - intros id'. destruct (decide (id' = itoa (nextID ps + 1))) as [->|].
    + intros _. eexists. split; [done|]. lia.
    + rewrite lookup_insert_ne by done. intros (m & ? & ?)%Hi. exists m. split; [done|lia].
  - lia.
Qed.

Lemma unsubscribe_wf id ps : ps_wf ps → ps_wf (Unsubscribe id ps).
Proof.
  unfold Unsubscribe. intros Hwf. destruct (subscribers ps !! id) as [c|] eqn:E; [|done].
  destruct Hwf as [Hr Hb Hi Hn]. split; simpl.
  - intros id' c' [Hne Hc]%lookup_delete_Some. rewrite lookup_alter_ne by done. by apply Hr.
  - intros id' ch. destruct (decide (id = id')) as [->|].
    + rewrite lookup_alter_eq, fmap_Some. intros (ch' & ? & ->). simpl. by eapply Hb.
    + rewrite lookup_alter_ne by done. apply Hb.
  - intros id'. rewrite lookup_alter_is_Some. apply Hi.
  - done.
Qed.

Lemma publish_wf ev ps : ps_wf ps → ps_wf (Publish ev ps).
Proof.
  intros [Hr Hb Hi Hn]. split.
  - intros id c Hc. rewrite publish_channel. simpl in Hc. rewrite Hc.
    destruct (Hr id c Hc) as (ch & -> & Hcl & Hall). eexists. split; [done|].
    destruct (wants c ev) eqn:Hw; [|done]. unfold try_send.
    destruct (_ <? _); simpl; split; [done| |done|done]. apply Forall_app. by split; [|constructor].
  - intros id ch. rewrite publish_channel, fmap_Some. intros (ch' & Hch' & ->).
    destruct (subscribers ps !! id); [case_match|]; eauto using try_send_bound.
  - intros id [ch Hch]. rewrite publish_channel, fmap_Some in Hch. destruct Hch as (ch' & ? & _).
    apply Hi. by eexists.
  - done.
Qed.

Lemma receive_wf id ps : ps_wf ps → ps_wf (Receive id ps).2.
Proof.
  unfold Receive. intros Hwf.
  destruct (channels ps !! id) as [[[|ev rest] closed]|] eqn:E; [done| |done].
  destruct Hwf as [Hr Hb Hi Hn]. split; simpl.
  - intros id' c Hc. destruct (Hr id' c Hc) as (ch & Hch & Hcl & Hall).
    destruct (decide (id' = id)) as [->|].
    + rewrite E in Hch. injection Hch as <-. rewrite lookup_insert_eq. eexists. split; [done|].
      simpl in *. by inv Hall.
    + rewrite lookup_insert_ne by done. eauto.
  - intros id' ch. rewrite lookup_insert_Some. intros [[_ <-]|[_ ?]]; [|by eapply Hb].
    apply Hb in E. simpl in *. lia.
  - intros id'. destruct (decide (id' = id)) as [->|].
    + intros _. apply Hi. by eexists.
    + rewrite lookup_insert_ne by done. apply Hi.
  - done.
Qed.

Lemma step_wf ps l ps' : ps_wf ps → ps_step ps l ps' → ps_wf ps'.
Proof.
  intros Hwf Hstep.
  destruct Hstep; auto using subscribe_wf, unsubscribe_wf, publish_wf, receive_wf.
Qed.

Lemma new_wf : ps_wf NewPubSub.
Proof.
  split; simpl; [by intros ? ? ?%lookup_empty_Some|by intros ? ? ?%lookup_empty_Some| |done].
  intros id [? ?%lookup_empty_Some]. done.
Qed.

(** ** What a subscriber sees *)

(** The events handed to one subscriber's consumer along a run, and those a
    subscription to [c] asked for while it was registered. *)
Fixpoint received (id : string) (ps : PubSub) (ls : list ps_label) : list PubRecordEvent :=
  match ls with
  | [] => []
  | l :: ls' =>
      let ps' := match l with
        | LSubscribe c => (Subscribe c ps).2 | LUnsubscribe id' => Unsubscribe id' ps
        | LPublish ev => Publish ev ps | LReceive id' => (Receive id' ps).2 end in
      match l with
      | LReceive id' => if decide (id' = id)
          then option_list (Receive id ps).1 ++ received id ps' ls' else received id ps' ls'
      | _ => received id ps' ls'
      end
  end.

Fixpoint run_ps (ls : list ps_label) (ps : PubSub) : PubSub :=
  match ls with
  | [] => ps
  | LSubscribe c :: ls' => run_ps ls' (Subscribe c ps).2
  | LUnsubscribe id :: ls' => run_ps ls' (Unsubscribe id ps)
  | LPublish ev :: ls' => run_ps ls' (Publish ev ps)
  | LReceive id :: ls' => run_ps ls' (Receive id ps).2
  end.

Definition published (c : string) (ls : list ps_label) : list PubRecordEvent :=
  omap (λ l, match l with LPublish ev => if wants c ev then Some ev else None | _ => None end) ls.

Definition buffer_of (id : string) (ps : PubSub) : list PubRecordEvent :=
  default [] (ch_buffer <$> channels ps !! id).

Lemma subscribe_other c ps id :
  ps_wf ps → is_Some (subscribers ps !! id) →
  subscribers (Subscribe c ps).2 !! id = subscribers ps !! id ∧
  buffer_of id (Subscribe c ps).2 = buffer_of id ps.
Proof.
  intros Hwf [c' Hid]. destruct (pw_registered _ Hwf id c' Hid) as (ch & Hch & _).
  assert (id ≠ itoa (nextID ps + 1)) by (intros ->; by rewrite fresh_id in Hch).
  unfold buffer_of. simpl. by rewrite !lookup_insert_ne by done.
Qed.

Lemma unsubscribe_other id' ps id :
  id' ≠ id → subscribers (Unsubscribe id' ps) !! id = subscribers ps !! id ∧
  buffer_of id (Unsubscribe id' ps) = buffer_of id ps.
Proof.
  intros Hne. unfold Unsubscribe, buffer_of. destruct (subscribers ps !! id'); [simpl|done].
  by rewrite lookup_delete_ne, lookup_alter_ne by done.
Qed.

Lemma publish_buffer ev ps id c :
  ps_wf ps → subscribers ps !! id = Some c →
  buffer_of id (Publish ev ps) = buffer_of id ps ++
    (if wants c ev && (length (buffer_of id ps) <? SubscriberBufferSize) then [ev] else []).
Proof.
  intros Hwf Hid. destruct (pw_registered _ Hwf id c Hid) as (ch & Hch & _).
  unfold buffer_of. rewrite publish_channel, Hch, Hid. simpl.
  destruct (wants c ev); simpl; [|by rewrite app_nil_r]. unfold try_send.
  destruct (_ <? _); simpl; [done|by rewrite app_nil_r].
Qed.

Lemma receive_buffer id' ps id :
  option_list (if decide (id' = id) then (Receive id' ps).1 else None) ++ buffer_of id (Receive id' ps).2
  = buffer_of id ps.
Proof.
  unfold Receive, buffer_of. destruct (decide (id' = id)) as [->|Hd].
  - destruct (channels ps !! id) as [[[|ev rest] closed]|] eqn:E; simpl; rewrite ?E; try done.
    by rewrite lookup_insert_eq.
  - destruct (channels ps !! id') as [[[|ev rest] closed]|] eqn:E; simpl; try done.
    by rewrite lookup_insert_ne.
Qed.

Lemma receive_subscribers id ps : subscribers (Receive id ps).2 = subscribers ps.
Proof. unfold Receive. by destruct (channels ps !! id) as [[[|??]?]|]. Qed.

Definition not_unsubscribe (id : string) (l : ps_label) : Prop := l ≠ LUnsubscribe id.

(** What a subscriber of [c] that holds [held] unread events gets of those published along a run: each that
    is published while fewer than [SubscriberBufferSize] are unread. *)
Fixpoint accepted (id c : string) (held : nat) (ls : list ps_label) : list PubRecordEvent :=
  match ls with
  | [] => []
  | LPublish ev :: ls' =>
      if wants c ev && (held <? SubscriberBufferSize) then ev :: accepted id c (S held) ls' else accepted id c held ls'
  | LReceive id' :: ls' => accepted id c (if decide (id' = id) then pred held else held) ls'
  | _ :: ls' => accepted id c held ls'
  end.

(** It reads fast enough: at each publication of an event it asked for, fewer than a buffer are unread. *)
Fixpoint keeps_up (id c : string) (held : nat) (ls : list ps_label) : bool :=
  match ls with
  | [] => true
  | LPublish ev :: ls' =>
      if wants c ev then (held <? SubscriberBufferSize) && keeps_up id c (S held) ls' else keeps_up id c held ls'
  | LReceive id' :: ls' => keeps_up id c (if decide (id' = id) then pred held else held) ls'
  | _ :: ls' => keeps_up id c held ls'
  end.

Lemma published_cons c l ls :
  published c (l :: ls) = match l with LPublish ev => if wants c ev then ev :: published c ls else published c ls | _ => published c ls end.
Proof. destruct l as [| |ev|]; [done..| |done]. unfold published. cbn. by destruct (wants c ev). Qed.

Lemma accepted_published id c held ls : accepted id c held ls `sublist_of` published c ls.
Proof.
  revert held. induction ls as [|l ls IH]; intros held; [done|]. rewrite published_cons.
  destruct l as [c'|id'|ev|id']; cbn [accepted]; [apply IH|apply IH| |apply IH].
  destruct (wants c ev); cbn [andb]; [|apply IH]. destruct (_ <? _); [by apply sublist_skip|by apply sublist_cons].
Qed.

Lemma keeps_up_all id c held ls : keeps_up id c held ls = true → accepted id c held ls = published c ls.
Proof.
  revert held. induction ls as [|l ls IH]; intros held; [done|]. rewrite published_cons.
  destruct l as [c'|id'|ev|id']; cbn [accepted keeps_up]; [apply IH|apply IH| |apply IH].
  destruct (wants c ev); cbn [andb]; [|apply IH]. destruct (_ <? _); [|done]. intros Hk. by rewrite IH.
Qed.

Lemma received_length id ps : length (buffer_of id (Receive id ps).2) = pred (length (buffer_of id ps)).
Proof.
  rewrite <- (receive_buffer id ps id), decide_True by done. unfold Receive, buffer_of.
  destruct (channels ps !! id) as [[[|ev rest] closed]|] eqn:E; cbn; rewrite ?E; [done| |done]. by rewrite lookup_insert_eq.
Qed.

(** Delivery to one subscriber, by induction along the run. *)
Lemma delivery id c ls ps :
  ps_wf ps → subscribers ps !! id = Some c → Forall (not_unsubscribe id) ls →
  received id ps ls ++ buffer_of id (run_ps ls ps) = buffer_of id ps ++ accepted id c (length (buffer_of id ps)) ls.
Proof.
  revert ps. induction ls as [|l ls IH]; intros ps Hwf Hid Hls.
  { simpl. by rewrite app_nil_r. }
  apply Forall_cons in Hls as [Hl Hls]. destruct l as [c'|id'|ev|id']; cbn [received run_ps accepted].
  - destruct (subscribe_other c' ps id Hwf (ex_intro _ c Hid)) as [Hs Hb].
    rewrite <- Hb. apply IH; [by apply subscribe_wf|by rewrite Hs|done].
  - assert (id' ≠ id) as Hne by (intros ->; by apply Hl).
    destruct (unsubscribe_other id' ps id Hne) as [Hs Hb].
    rewrite <- Hb. apply IH; [by apply unsubscribe_wf|by rewrite Hs|done].
  - rewrite (IH (Publish ev ps) (publish_wf ev ps Hwf) Hid Hls), (publish_buffer ev ps id c Hwf Hid).
    destruct (wants c ev && _); [|by rewrite app_nil_r]. rewrite <- app_assoc, length_app, Nat.add_comm. done.
  - pose proof (receive_buffer id' ps id) as Hb.
    assert (IH' := IH (Receive id' ps).2 (receive_wf id' ps Hwf)). rewrite receive_subscribers in IH'. specialize (IH' Hid Hls).
    destruct (decide (id' = id)) as [->|]; cbn [option_list] in Hb.
    + rewrite <- app_assoc, IH', received_length. rewrite <- Hb at 2. by rewrite <- app_assoc.
    + change (buffer_of id (Receive id' ps).2 = buffer_of id ps) in Hb. by rewrite IH', Hb.
Qed.

(** Every run of subscribers, publishers and consumers keeps the broker well formed:
    no registered subscriber ever has a closed channel (so publishing never panics),
    no buffer exceeds its capacity, and a subscriber only holds events it asked for. *)
Theorem pubsub_invariant ls ps : star ps_step NewPubSub ls ps → ps_wf ps.
Proof. apply (star_invariant ps_step ps_wf step_wf), new_wf. Qed.

(** C35. Delivery: from its subscription on, a subscriber receives or holds, in publication order and each
    once, exactly the events of the collection it asked for that were published while it had fewer than a buffer
    unread; so all of them as long as its buffer has room whenever one is published, however many that are. *)
Theorem pubsub_delivery c ls ls' ps :
  star ps_step NewPubSub ls' ps → Forall (not_unsubscribe (Subscribe c ps).1) ls →
  let '(id, ps0) := Subscribe c ps in let delivered := received id ps0 ls ++ buffer_of id (run_ps ls ps0) in
  delivered = accepted id c 0 ls ∧ delivered `sublist_of` published c ls ∧
  (keeps_up id c 0 ls = true → delivered = published c ls).
Proof.
  intros Hs Hls. pose proof (star_invariant ps_step ps_wf step_wf _ _ _ new_wf Hs) as Hwf.
  assert (Hd := delivery (Subscribe c ps).1 c ls (Subscribe c ps).2).
  assert (Hb : buffer_of (Subscribe c ps).1 (Subscribe c ps).2 = []).
  { unfold buffer_of. simpl. by rewrite lookup_insert_eq. }
  rewrite Hb in Hd. cbn [length app Subscribe fst snd] in *. cbv zeta. rewrite Hd;
    [|by apply (subscribe_wf c)|simpl; by rewrite lookup_insert_eq|done].
  split_and!; [done|apply accepted_published|apply keeps_up_all].
Qed.

Definition example_event (c : string) : PubRecordEvent :=
  mkEvent EventCreate "u" "" "" c None None true false.

Lemma pubsub_invariant_witness :
  ps_wf (Publish (example_event "a") (Subscribe "a" NewPubSub).2).
Proof.
  apply (pubsub_invariant [LSubscribe "a"; LPublish (example_event "a")]).
  econstructor; [apply step_subscribe|]. econstructor; [apply step_publish|]. constructor.
Defined.

(** A subscriber that reads each event gets all of a hundred and fifty; one that reads none, the first hundred. *)
Lemma pubsub_delivery_witness :
  let round := [LPublish (example_event "b"); LPublish (example_event "a"); LReceive "1"] in
  let ls := mjoin (replicate 150 round) in let ps0 := (Subscribe "a" NewPubSub).2 in
  received "1" ps0 ls ++ buffer_of "1" (run_ps ls ps0) = published "a" ls ∧
  let unread := replicate 150 (LPublish (example_event "a")) in
  buffer_of "1" (run_ps unread ps0) = replicate 100 (example_event "a").
Proof.
  intros round ls ps0. split.
  - apply (pubsub_delivery "a" ls [] NewPubSub); [constructor| |by vm_compute].
    apply Forall_join, Forall_replicate. by repeat constructor.
  - intros unread. destruct (pubsub_delivery "a" unread [] NewPubSub) as [Hd _]; [constructor|by apply Forall_replicate|].
    etrans; [|etrans; [exact Hd|by vm_compute]]. by vm_compute.
Defined.
