(* ===== verification/SubRoutes.v ===== *)
(** * What a subscription listens to

    src/internal/graphql/subscription/handler.go, from [validateSubscriptionOperation] to
    [subscriptionResultIsEmpty], and the root fields of builder.go [buildSubscriptionType].
    Documents are graphql-go's syntax trees as far as the code looks at them; the parser, the
    validator and the executor are parameters ([GraphQL]). *)
From S2P Require Import Prelude GoStrings Json Effects Database PubSub.

(** ** Documents *)

Inductive ast_value := StringValue (s : string) | BooleanValue (b : bool) | VariableValue (name : option string) | OtherValue.

Record argument := mkArgument { arg_Name : option string; arg_Value : ast_value }.
Record directive := mkDirective { dir_Name : option string; dir_Arguments : list argument }.

Inductive selection :=
  | Field (Name : option string) (Arguments : list argument) (Directives : list directive)
  | InlineFragment (Directives : list directive) (SelectionSet : list selection)
  | FragmentSpread (Name : option string) (Directives : list directive).

Record fragment := mkFragment { fr_Name : option string; fr_Directives : list directive; fr_SelectionSet : list selection }.
Record variable_definition := mkVariableDefinition { vd_Name : option string; vd_DefaultValue : option ast_value }.

Record operation := mkOperation {
  od_Name : option string;
  od_Operation : string;
  od_VariableDefinitions : list variable_definition;
  od_SelectionSet : list selection;
}.

Inductive ast_definition := OperationDefinition (o : operation) | FragmentDefinition (f : fragment) | OtherDefinition.
Notation document := (list ast_definition).

(** A request's [variables]. *)
Notation variables := (gmap string json).

Record subscribePayload := mkPayload { sp_Query : string; sp_Variables : variables; sp_OperationName : string }.

(** ** Directives and arguments *)

Definition string_variable (vars : variables) (name : string) : option string :=
  match vars !! name with Some (JString s) => Some s | _ => None end.
Definition bool_variable (vars : variables) (name : string) : option bool :=
  match vars !! name with Some (JBool b) => Some b | _ => None end.

(** The first argument of a name. *)
Definition argument_named (name : string) (arguments : list argument) : option argument :=
  head (filter (λ a, arg_Name a = Some name) arguments).

(** [None]: not known. *)
Definition directiveCondition (arguments : list argument) (vars : variables) : option bool :=
  a ← argument_named "if" arguments;
  match arg_Value a with
  | BooleanValue b => Some b
  | VariableValue (Some name) => bool_variable vars name
  | _ => None
  end.

Definition directive_includes (d : directive) (condition : bool) : bool :=
  if bool_decide (dir_Name d = Some "skip") then negb condition else condition.

(** The walk of [directivesInclude]: [None] when a condition is not known. *)
Fixpoint directives_walk (directives : list directive) (vars : variables) (included : bool) : option bool :=
  match directives with
  | [] => Some included
  | d :: rest =>
      if bool_decide (dir_Name d = Some "skip") || bool_decide (dir_Name d = Some "include") then
        condition ← directiveCondition (dir_Arguments d) vars;
        directives_walk rest vars (included && directive_includes d condition)
      else directives_walk rest vars included
  end.

Definition directivesInclude (directives : list directive) (vars : variables) : option bool :=
  directives_walk directives vars true.

(** [None]: not proven. *)
Definition recordEventsCollectionArgument (arguments : list argument) (vars : variables) : option string :=
  a ← argument_named "collection" arguments;
  match arg_Value a with
  | StringValue s => Some s
  | VariableValue (Some name) => string_variable vars name
  | _ => None
  end.

(** ** Routes *)

Record subscriptionRoute := mkRoute { rt_collection : string; rt_set : bool; rt_broad : bool }.

Definition broaden (r : subscriptionRoute) : subscriptionRoute := mkRoute (rt_collection r) (rt_set r) true.

Definition add (collection : option string) (r : subscriptionRoute) : subscriptionRoute :=
  match collection with
  | None => broaden r
  | Some c =>
      if (c =? "")%string then broaden r
      else if rt_set r && negb (rt_collection r =? c)%string then broaden r
      else mkRoute c true (rt_broad r)
  end.

(** A turn of the loop over selections: go on, or return. *)
Inductive turn := Go (r : subscriptionRoute) | Return (r : subscriptionRoute).

Definition on_included (included : option bool) (r : subscriptionRoute) (k : turn) : turn :=
  match included with
  | None => Return (broaden r)
  | Some false => Go r
  | Some true => k
  end.

(** The loop over the selections of a set. *)
Fixpoint turns (step : selection → subscriptionRoute → turn) (l : list selection) (r : subscriptionRoute) : subscriptionRoute :=
  match l with
  | [] => r
  | s :: rest => match step s r with Go r' => turns step rest r' | Return r' => r' end
  end.

Section collect.
Context (fragments : gmap string fragment) (vars : variables).

(** The fuel bounds the fragments entered; each is entered once on a path. *)
Fixpoint collect_step (fuel : nat) (stack : gset string) {struct fuel} : selection → subscriptionRoute → turn :=
  match fuel with
  | O => λ _ r, Return (broaden r)
  | S fuel' =>
      fix step (s : selection) (r : subscriptionRoute) {struct s} : turn :=
        match s with
        | Field name arguments directives =>
            on_included (directivesInclude directives vars) r
              (if bool_decide (name = Some "recordEvents")
               then Go (add (recordEventsCollectionArgument arguments vars) r) else Go r)
        | InlineFragment directives set =>
            on_included (directivesInclude directives vars) r
              (if rt_broad r then Go r else
               Go ((fix inner (l : list selection) (r : subscriptionRoute) : subscriptionRoute :=
                 match l with
                 | [] => r
                 | s' :: rest => match step s' r with Go r' => inner rest r' | Return r' => r' end
                 end) set r))
        | FragmentSpread name directives =>
            on_included (directivesInclude directives vars) r
              match name with
              | None => Go r
              | Some n =>
                  if bool_decide (n ∈ stack) then Go r
                  else match fragments !! n with
                  | None => Return (broaden r)
                  | Some f =>
                      on_included (directivesInclude (fr_Directives f) vars) r
                        (if rt_broad r then Go r
                         else Go (turns (collect_step fuel' ({[n]} ∪ stack)) (fr_SelectionSet f) r))
                  end
              end
        end
  end.

Definition collectRecordEventsRoutes (fuel : nat) (set : list selection) (stack : gset string) (r : subscriptionRoute) : subscriptionRoute :=
  if rt_broad r then r else turns (collect_step fuel stack) set r.
End collect.

(** Later definitions of a name replace earlier ones. *)
Definition fragment_map (doc : document) : gmap string fragment :=
  foldl (λ m d, match d with
    | FragmentDefinition f => match fr_Name f with Some n => <[ n := f ]> m | None => m end
    | _ => m end) ∅ doc.

Definition add_default (vars : variables) (d : variable_definition) : variables :=
  match vd_Name d with
  | None => vars
  | Some name =>
      match vars !! name with
      | Some _ => vars
      | None =>
          match vd_DefaultValue d with
          | Some (StringValue s) => <[ name := JString s ]> vars
          | Some (BooleanValue b) => <[ name := JBool b ]> vars
          | _ => vars
          end
      end
  end.

Definition resolvedVariables (o : operation) (vars : variables) : variables :=
  foldl add_default vars (od_VariableDefinitions o).

Definition selectedRecordEventsCollection (doc : document) (o : operation) (vars : variables) : string :=
  let fragments := fragment_map doc in
  let route := collectRecordEventsRoutes fragments (resolvedVariables o vars) (S (size fragments)) (od_SelectionSet o) ∅
    (mkRoute "" false false) in
  if rt_broad route || negb (rt_set route) then "" else rt_collection route.

(** ** Operations *)

Fixpoint operations_of (doc : document) : list operation :=
  match doc with
  | [] => []
  | OperationDefinition o :: rest => o :: operations_of rest
  | _ :: rest => operations_of rest
  end.

Definition selectedSubscriptionOperation (doc : document) (operationName : string) : outcome operation :=
  let operations := operations_of doc in
  match head (filter (λ o, operationName ≠ "" ∧ od_Name o = Some operationName) operations) with
  | Some o => Ok o
  | None =>
      if negb (operationName =? "")%string then Err "subscription operation was not found"
      else match operations with
      | [o] => Ok o
      | _ => Err "operationName is required when a document contains multiple operations"
      end
  end.

(** What the code takes from graphql-go: parsing, the errors of validation, and running an
    operation on a root object, which gives errors and data. *)
Class GraphQL := {
  Schema : Type;
  parse : string → outcome document;
  ValidateDocument : Schema → document → list string;
  Do : Schema → subscribePayload → option PubRecordEvent → list string * option (list (string * option json));
}.

Definition validateSubscriptionOperation `{GraphQL} (schema : option Schema) (payload : subscribePayload) : outcome string :=
  match schema with
  | None => Err "subscription schema is unavailable"
  | Some schema =>
      if (trim_space (sp_Query payload) =? "")%string then Err "subscription query is required"
      else
        doc ← wrap_err "invalid subscription query" (parse (sp_Query payload));
        match ValidateDocument schema doc with
        | e :: _ => Err ("invalid subscription query: " +:+ e)
        | [] =>
            o ← selectedSubscriptionOperation doc (sp_OperationName payload);
            if negb (od_Operation o =? "subscription")%string then Err "operation must be a subscription"
            else match (Do schema payload None).1 with
            | e :: _ => Err ("invalid subscription operation: " +:+ e)
            | [] => Ok (selectedRecordEventsCollection doc o (sp_Variables payload))
            end
        end
  end.

(** No field has a value. *)
Definition subscriptionResultIsEmpty (data : option (list (string * option json))) : bool :=
  match data with
  | None => true
  | Some fields => forallb (λ f : string * option json, bool_decide (f.2 = None)) fields
  end.

(** ** Root fields (builder.go) *)

(** What [recordEvents] shows of an event, given its [collection] argument. *)
Definition record_events_field (collection : option string) (ev : PubRecordEvent) : option PubRecordEvent :=
  match collection with
  | Some c => if negb (c =? "")%string && negb (ev_Collection ev =? c)%string then None else Some ev
  | None => Some ev
  end.

Definition subscriptionRecordKey (uri : string) : string :=
  if negb (has_prefix "at://" uri) then ""
  else
    let parts := split slash uri in
    if length parts <=? 3 then "" else default "" (last parts).
