(* ===== verification/SubRouteProps.v ===== *)
(** * Routing loses nothing for recordEvents

    When an operation is routed to one collection, every [recordEvents] field it selects, by
    GraphQL's rules for fragments and directives, asks for that collection. *)
From S2P Require Import Prelude GoStrings Json Effects Database PubSub SubRoutes.

(** ** What an operation selects

    Fields through fragments whose directives all include them, under the coerced variables
    [coerced] of the execution. *)

Definition directive_holds (coerced : variables) (d : directive) : Prop :=
  (dir_Name d = Some "skip" → directiveCondition (dir_Arguments d) coerced = Some false) ∧
  (dir_Name d = Some "include" → directiveCondition (dir_Arguments d) coerced = Some true).

Definition included_by (coerced : variables) (ds : list directive) : Prop := Forall (directive_holds coerced) ds.

Section select.
Context (fragments : gmap string fragment) (coerced : variables).

(** [avoid]: fragments the path does not enter. *)
Inductive selects (avoid : gset string) : list selection → string → list argument → Prop :=
  | selects_field set n arguments ds :
      Field (Some n) arguments ds ∈ set → included_by coerced ds → selects avoid set n arguments
  | selects_inline set ds set' n arguments :
      InlineFragment ds set' ∈ set → included_by coerced ds → selects avoid set' n arguments → selects avoid set n arguments
  | selects_spread set f fr ds n arguments :
      FragmentSpread (Some f) ds ∈ set → included_by coerced ds → f ∉ avoid → fragments !! f = Some fr →
      selects avoid (fr_SelectionSet fr) n arguments → selects avoid set n arguments.

(** A path that enters a fragment again has a shorter one from its last entry. *)
Lemma selects_last_entry avoid avoid' set n arguments :
  avoid ⊆ avoid' → selects avoid set n arguments →
  selects avoid' set n arguments ∨
  ∃ f fr, f ∈ avoid' ∧ f ∉ avoid ∧ fragments !! f = Some fr ∧ selects avoid' (fr_SelectionSet fr) n arguments.
Proof.
  intros Hsub Hsel. induction Hsel as [set n arguments ds Hin Hinc|set ds set' n arguments Hin Hinc Hsel IH|
    set f fr ds n arguments Hin Hinc Hf Hfr Hsel IH].
  - left. by eapply selects_field.
  - destruct IH as [?|?]; [left; by eapply selects_inline|by right].
  - destruct IH as [?|?]; [|by right]. destruct (decide (f ∈ avoid')); [right; by exists f, fr|left; by eapply selects_spread].
Qed.
End select.

(** ** Conditions the code knows *)

Section known.
Context (vars coerced : variables).

(** Execution coerces a string to itself and a boolean to itself. *)
Definition coerces : Prop :=
  (∀ n s, string_variable vars n = Some s → string_variable coerced n = Some s) ∧
  (∀ n b, bool_variable vars n = Some b → bool_variable coerced n = Some b).

Hypothesis Hcoerce : coerces.

Lemma condition_known arguments b :
  directiveCondition arguments vars = Some b → directiveCondition arguments coerced = Some b.
Proof.
  unfold directiveCondition. destruct (argument_named "if" arguments) as [a|]; [|done]. cbn.
  destruct (arg_Value a) as [| |[n|]|]; try done. apply Hcoerce.
Qed.

(** What the code leaves out is left out. *)
Lemma walk_excludes ds acc : directives_walk ds vars acc = Some false → acc = true → ¬ included_by coerced ds.
Proof.
  revert acc. induction ds as [|d ds IH]; intros acc; cbn [directives_walk]; [congruence|]. intros Hw -> Hinc.
  apply Forall_cons in Hinc as [[Hskip Hincl] Hinc].
  destruct (bool_decide (dir_Name d = Some "skip") || bool_decide (dir_Name d = Some "include")) eqn:Ed; [|exact (IH _ Hw eq_refl Hinc)].
  destruct (directiveCondition (dir_Arguments d) vars) as [b|] eqn:Ec; [|done]. cbn in Hw. apply condition_known in Ec.
  assert (Hb : directive_includes d b = true).
  { unfold directive_includes. case_bool_decide as Hs; [rewrite (Hskip Hs) in Ec; by injection Ec as <-|].
    cbn in Ed. apply bool_decide_eq_true in Ed. rewrite (Hincl Ed) in Ec. by injection Ec as <-. }
  rewrite Hb in Hw. exact (IH _ Hw eq_refl Hinc).
Qed.

Lemma excluded ds : directivesInclude ds vars = Some false → ¬ included_by coerced ds.
Proof. intros Hd. by eapply walk_excludes. Qed.

(** The collection an execution sees in the arguments of a field. *)
Lemma collection_known arguments c :
  recordEventsCollectionArgument arguments vars = Some c → recordEventsCollectionArgument arguments coerced = Some c.
Proof.
  unfold recordEventsCollectionArgument. destruct (argument_named "collection" arguments) as [a|]; [|done]. cbn.
  destruct (arg_Value a) as [| |[n|]|]; try done. apply Hcoerce.
Qed.
End known.

(** ** Routes *)

(** A route that is not broad proves [c] for a field. *)
Definition proves (r : subscriptionRoute) (c : option string) : Prop :=
  rt_broad r = false → rt_set r = true ∧ rt_collection r ≠ "" ∧ c = Some (rt_collection r).

(** Later routes only become broad. *)
Definition route_le (r r' : subscriptionRoute) : Prop :=
  rt_broad r' = false → rt_broad r = false ∧ (rt_set r = true → rt_set r' = true ∧ rt_collection r' = rt_collection r).

Lemma route_le_refl r : route_le r r.
Proof. by intros ->. Qed.
Lemma route_le_trans r1 r2 r3 : route_le r1 r2 → route_le r2 r3 → route_le r1 r3.
Proof.
  intros H12 H23 Hb. destruct (H23 Hb) as [Hb2 H3]. destruct (H12 Hb2) as [Hb1 H2]. split; [done|].
  intros [Hs Hc]%H2. destruct (H3 Hs) as [? Hc3]. split; [done|congruence].
Qed.
#[export] Instance route_le_pre : PreOrder route_le.
Proof. split; [exact route_le_refl|exact route_le_trans]. Qed.

Lemma route_le_broaden r : route_le r (broaden r).
Proof. done. Qed.

Lemma proves_le r r' c : route_le r r' → proves r c → proves r' c.
Proof. intros Hle Hp Hb. destruct (Hle Hb) as [Hb' Hk]. destruct (Hp Hb') as (Hs & Hne & ->). by destruct (Hk Hs) as [? ->]. Qed.

Lemma add_le c r : route_le r (add c r).
Proof.
  unfold add. destruct c as [c|]; [|done]. destruct (c =? "")%string; [done|].
  destruct (rt_set r) eqn:Es; cbn; [|intros Hb; split; [exact Hb|congruence]].
  destruct (String.eqb_spec (rt_collection r) c); [|done]. intros Hb. split; [exact Hb|]. by subst.
Qed.

Lemma add_proves c r : proves (add c r) c.
Proof.
  unfold add. destruct c as [c|]; [|done]. destruct (String.eqb_spec c ""); [done|].
  destruct (rt_set r && negb (rt_collection r =? c)%string) eqn:E; [done|]. by intros Hb.
Qed.

(** ** The walk *)

Section selection_ind.
Context (P : selection → Prop)
  (Hfield : ∀ n a ds, P (Field n a ds)) (Hspread : ∀ n ds, P (FragmentSpread n ds))
  (Hinline : ∀ ds set, Forall P set → P (InlineFragment ds set)).

Fixpoint selection_nested (s : selection) : P s :=
  match s with
  | Field n a ds => Hfield n a ds
  | FragmentSpread n ds => Hspread n ds
  | InlineFragment ds set =>
      Hinline ds set ((fix all (l : list selection) : Forall P l :=
        match l with [] => Forall_nil_2 _ | s' :: l' => Forall_cons_2 _ _ _ (selection_nested s') (all l') end) set)
  end.
End selection_ind.

Section walk.
Context (fragments : gmap string fragment) (vars coerced : variables).
Hypothesis Hcoerce : coerces vars coerced.
(** Validated documents have no conditions on the definition of a fragment. *)
Hypothesis Hplain : ∀ n f, fragments !! n = Some f → directivesInclude (fr_Directives f) vars ≠ Some false.
Notation step := (collect_step fragments vars).
Notation selects := (selects fragments coerced).

Definition covers (avoid : gset string) (set : list selection) (r : subscriptionRoute) : Prop :=
  ∀ arguments, selects avoid set "recordEvents" arguments → proves r (recordEventsCollectionArgument arguments vars).

Lemma covers_elem avoid set r : (∀ s, s ∈ set → covers avoid [s] r) → covers avoid set r.
Proof.
  intros Hall arguments Hsel. inversion Hsel as [? ? ? ? Hin|? ? ? ? ? Hin|? ? ? ? ? ? Hin]; subst; (eapply (Hall _ Hin)).
  - eapply selects_field; [left|done].
  - eapply selects_inline; [left|done..].
  - eapply selects_spread; [left|done..].
Qed.

Lemma covers_broad avoid set r : rt_broad r = true → covers avoid set r.
Proof. intros Hb ? _ ?. congruence. Qed.

Lemma covers_le avoid set r r' : route_le r r' → covers avoid set r → covers avoid set r'.
Proof. intros Hle Hc arguments Hs. eapply proves_le; [exact Hle|]. by apply Hc. Qed.

(** What a turn does right. *)
Definition turn_ok (stack : gset string) (s : selection) (r : subscriptionRoute) (t : turn) : Prop :=
  match t with
  | Return r' => rt_broad r' = true
  | Go r' => route_le r r' ∧ covers stack [s] r'
  end.

Lemma turns_ok stack f l r :
  (∀ s r, s ∈ l → turn_ok stack s r (f s r)) → route_le r (turns f l r) ∧ covers stack l (turns f l r).
Proof.
  revert r. induction l as [|s l IH]; intros r Hf; cbn [turns].
  - split; [done|]. apply covers_elem. intros ? []%elem_of_nil.
  - assert (Hs := Hf s r ltac:(left)). destruct (f s r) as [r'|r'].
    + destruct Hs as [Hle Hc]. destruct (IH r') as [Hle' Hc']; [intros; apply Hf; by right|]. split; [by etrans|].
      apply covers_elem. intros s' [->|Hin]%elem_of_cons; [by eapply covers_le|].
      intros arguments Hsel. apply Hc'. inversion Hsel as [? ? ? ? Hi|? ? ? ? ? Hi|? ? ? ? ? ? Hi]; subst; apply list_elem_of_singleton in Hi; subst.
      * by eapply selects_field.
      * by eapply selects_inline.
      * by eapply selects_spread.
    + cbn in Hs. split; [intros Hb; congruence|by apply covers_broad].
Qed.

(** Selections that a directive excludes cover nothing. *)
Lemma excluded_ok stack s r ds k :
  (∀ arguments, selects stack [s] "recordEvents" arguments → included_by coerced ds) →
  (directivesInclude ds vars = Some true → turn_ok stack s r k) → turn_ok stack s r (on_included (directivesInclude ds vars) r k).
Proof.
  intros Hinc Hk. destruct (directivesInclude ds vars) as [[]|] eqn:E; cbn; [by apply Hk| |done].
  split; [done|]. intros arguments Hsel. destruct (excluded _ _ Hcoerce _ E). by eapply Hinc.
Qed.

Lemma inner_turns (g : selection → subscriptionRoute → turn) l r :
  turns g l r = (fix inner (l : list selection) (r : subscriptionRoute) : subscriptionRoute :=
     match l with [] => r | s' :: rest => match g s' r with Go r' => inner rest r' | Return r' => r' end end) l r.
Proof. revert r. induction l as [|s l IH]; intros r; [done|]. cbn. destruct (g s r); [|done]. apply IH. Qed.

Lemma step_inline fuel stack ds set r :
  step (S fuel) stack (InlineFragment ds set) r =
  on_included (directivesInclude ds vars) r (if rt_broad r then Go r else Go (turns (step (S fuel) stack) set r)).
Proof. rewrite (inner_turns (step (S fuel) stack)). reflexivity. Qed.

Ltac single Hsel :=
  inversion Hsel as [? ? ? ? Hi|? ? ? ? ? Hi|? ? ? ? ? ? Hi]; subst; apply list_elem_of_singleton in Hi; simplify_eq.

Lemma step_ok fuel : ∀ stack s r, turn_ok stack s r (step fuel stack s r).
Proof.
  induction fuel as [|fuel IH]; intros stack s; [done|].
  induction s as [n a ds|n ds|ds set Hset] using selection_nested; intros r.
  - cbn [collect_step]. apply excluded_ok; [by intros ? Hsel; single Hsel|]. intros _.
    case_bool_decide as Hn; cbn; (split; [first [apply add_le|done]|]); intros arguments Hsel; single Hsel; apply add_proves.
  - cbn [collect_step]. apply excluded_ok; [by intros ? Hsel; single Hsel|]. intros _. destruct n as [n|].
    2: { split; [done|]. intros ? Hsel; single Hsel. }
    case_bool_decide as Hn. { split; [done|]. intros ? Hsel; single Hsel. done. }
    destruct (fragments !! n) as [f|] eqn:Ef; [|done].
    destruct (directivesInclude (fr_Directives f) vars) as [[]|] eqn:Ed; [|by destruct (Hplain _ _ Ef)|done]. cbn [on_included].
    destruct (rt_broad r) eqn:Eb. { split; [done|]. by apply covers_broad. }
    destruct (turns_ok ({[n]} ∪ stack) (step fuel ({[n]} ∪ stack)) (fr_SelectionSet f) r) as [Hle Hc]; [intros; apply IH|].
    split; [done|]. intros arguments Hsel. single Hsel.
    match goal with Hs : selects stack (fr_SelectionSet f) _ _ |- _ => apply (selects_last_entry _ _ stack ({[n]} ∪ stack)) in Hs; [|set_solver];
      destruct Hs as [Hs|(g & fr & Hg & Hng & Hfr & Hs)] end; [by apply Hc|].
    assert (g = n) as -> by set_solver. simplify_eq. by apply Hc.
  - rewrite step_inline. apply excluded_ok; [by intros ? Hsel; single Hsel|]. intros _.
    destruct (rt_broad r) eqn:Eb. { split; [done|]. by apply covers_broad. }
    destruct (turns_ok stack (step (S fuel) stack) set r) as [Hle Hc].
    { intros s' r' Hin. rewrite Forall_forall in Hset. by apply Hset. }
    split; [done|]. intros arguments Hsel. single Hsel. by apply Hc.
Qed.
End walk.

(** ** Fuel *)

Lemma turns_ext f g l r : (∀ s r, s ∈ l → f s r = g s r) → turns f l r = turns g l r.
Proof.
  revert r. induction l as [|s l IH]; intros r Hfg; [done|]. cbn. rewrite (Hfg s r) by left.
  destruct (g s r); [|done]. apply IH. intros. apply Hfg. by right.
Qed.

(** More fuel than fragments left to enter changes nothing. *)
Lemma step_fuel (fragments : gmap string fragment) vars n m stack s r :
  size (dom fragments ∖ stack) < n → size (dom fragments ∖ stack) < m →
  collect_step fragments vars n stack s r = collect_step fragments vars m stack s r.
Proof.
  revert m stack s r. induction n as [|n IH]; intros m stack s; [lia|]. intros r Hn. revert r Hn. destruct m as [|m]; [lia|].
  induction s as [nm a ds|nm ds|ds set Hset] using selection_nested; intros r Hn Hm; [done| |].
  - cbn [collect_step]. f_equal. destruct nm as [nm|]; [|done]. case_bool_decide as Hin; [done|].
    destruct (fragments !! nm) as [f|] eqn:Ef; [|done]. f_equal. destruct (rt_broad r); [done|]. f_equal.
    assert (Hlt : size (dom fragments ∖ ({[nm]} ∪ stack)) < size (dom fragments ∖ stack)).
    { apply subset_size. split; [set_solver|]. intros Hsub. apply elem_of_dom_2 in Ef. set_solver. }
    apply turns_ext. intros. apply IH; lia.
  - rewrite !step_inline. f_equal. destruct (rt_broad r); [done|]. f_equal. apply turns_ext.
    intros s' r' Hin. rewrite Forall_forall in Hset. by apply Hset.
Qed.

Lemma route_fuel doc vars k set r :
  let fragments := fragment_map doc in
  collectRecordEventsRoutes fragments vars (S (size fragments)) set ∅ r =
  collectRecordEventsRoutes fragments vars (S (size fragments) + k) set ∅ r.
Proof.
  intros fragments. unfold collectRecordEventsRoutes. destruct (rt_broad r); [done|].
  assert (Hs : size (dom fragments ∖ ∅) ≤ size fragments) by (rewrite <- size_dom; apply subseteq_size; set_solver).
  apply turns_ext. intros. apply step_fuel; lia.
Qed.

(** ** Routing *)

(** C23. Routing a subscription to one collection loses nothing of [recordEvents]: of an
    operation whose route is a collection, every [recordEvents] field it selects, through
    any fragments and directives, asks for that collection, so an event for which such a field has a value
    is one the route wants. *)
Theorem routing_loses_nothing doc o vars coerced arguments ev :
  coerces (resolvedVariables o vars) coerced →
  (∀ n f, fragment_map doc !! n = Some f → directivesInclude (fr_Directives f) (resolvedVariables o vars) ≠ Some false) →
  selects (fragment_map doc) coerced ∅ (od_SelectionSet o) "recordEvents" arguments →
  let route := selectedRecordEventsCollection doc o vars in
  (route ≠ "" → recordEventsCollectionArgument arguments coerced = Some route) ∧
  (record_events_field (recordEventsCollectionArgument arguments coerced) ev ≠ None → wants route ev = true).
Proof.
  intros Hco Hplain Hsel route. unfold selectedRecordEventsCollection in route.
  set (r := collectRecordEventsRoutes _ _ _ _ _ _) in route.
  destruct (turns_ok (fragment_map doc) (resolvedVariables o vars) coerced ∅
    (collect_step (fragment_map doc) (resolvedVariables o vars) (S (size (fragment_map doc))) ∅) (od_SelectionSet o) (mkRoute "" false false))
    as [_ Hcov]; [intros; by apply step_ok|].
  fold (collectRecordEventsRoutes (fragment_map doc) (resolvedVariables o vars) (S (size (fragment_map doc))) (od_SelectionSet o) ∅
    (mkRoute "" false false)) in Hcov. change (covers (fragment_map doc) (resolvedVariables o vars) coerced ∅ (od_SelectionSet o) r) in Hcov.
  specialize (Hcov _ Hsel). unfold proves in Hcov.
  assert (Harg : route ≠ "" → recordEventsCollectionArgument arguments coerced = Some route).
  { unfold route. destruct (rt_broad r); [done|]. destruct (Hcov eq_refl) as (Hs & _ & Hc). rewrite Hs. cbn. intros _.
    by apply (collection_known _ _ Hco). }
  split; [exact Harg|]. intros Hval. unfold wants. destruct (String.eqb_spec route "") as [|Hne]; [done|]. cbn.
  rewrite (Harg Hne) in Hval. unfold record_events_field in Hval. rewrite (proj2 (String.eqb_neq _ _) Hne) in Hval. cbn in Hval.
  destruct (String.eqb_spec (ev_Collection ev) route) as [Heq|]; [|done]. rewrite Heq. apply String.eqb_refl.
Qed.

(** ** Examples *)

Definition collection_argument (v : ast_value) : list argument := [mkArgument (Some "collection") v].

(** [subscription($c: String) { ...f ...f  bEvents @skip(if: true) } fragment f { recordEvents(collection: $c) }] *)
Definition routed_operation : operation := mkOperation None "subscription" [mkVariableDefinition (Some "c") None]
  [FragmentSpread (Some "f") []; FragmentSpread (Some "f") [];
   Field (Some "bEvents") [] [mkDirective (Some "skip") [mkArgument (Some "if") (BooleanValue true)]]].
Definition routed_fragment : fragment :=
  mkFragment (Some "f") [] [Field (Some "recordEvents") (collection_argument (VariableValue (Some "c"))) []].
Definition routed_document : document := [OperationDefinition routed_operation; FragmentDefinition routed_fragment].
Definition routed_variables : variables := {[ "c" := JString "app.a" ]}.

Definition event_of (collection : string) : PubRecordEvent :=
  mkEvent EventCreate ("at://did:plc:a/" +:+ collection +:+ "/1") "c1" "did:plc:a" collection None None true false.

Lemma routing_loses_nothing_witness :
  selectedRecordEventsCollection routed_document routed_operation routed_variables = "app.a" ∧
  recordEventsCollectionArgument (collection_argument (VariableValue (Some "c"))) routed_variables = Some "app.a".
Proof.
  assert (Hr : selectedRecordEventsCollection routed_document routed_operation routed_variables = "app.a") by by vm_compute.
  split; [exact Hr|]. destruct (routing_loses_nothing routed_document routed_operation routed_variables routed_variables
    (collection_argument (VariableValue (Some "c"))) (event_of "app.a")) as [Harg _].
  - split; by intros.
  - change (fragment_map routed_document) with (<["f" := routed_fragment]> (∅ : gmap string fragment)).
    intros n f [[_ <-]|[_ Hf]]%lookup_insert_Some; [by vm_compute|by apply lookup_empty_Some in Hf].
  - eapply (selects_spread _ _ _ _ "f" routed_fragment); [left|constructor|apply not_elem_of_empty|reflexivity|].
    eapply selects_field; [left|constructor].
  - rewrite Hr in Harg. by apply Harg.
Defined.

(** A typed field beside [recordEvents] is not looked at: the operation is routed to one collection
    and the events of the typed field's own collection are never delivered to it. *)
Definition mixed_operation : operation := mkOperation None "subscription" []
  [Field (Some "recordEvents") (collection_argument (StringValue "app.a")) []; Field (Some "appBEvents") [] []].

Example typed_field_starves :
  selectedRecordEventsCollection [OperationDefinition mixed_operation] mixed_operation ∅ = "app.a" ∧
  wants "app.a" (event_of "app.b") = false.
Proof. split; by vm_compute. Qed.
