(* ===== verification/SubHandler.v ===== *)
(** * Subscription connections

    src/internal/graphql/subscription/handler.go: one websocket connection of the
    graphql-transport-ws protocol. The read loop and one goroutine per operation share the
    map of operations; what they do between taking and releasing the mutex is one step. A
    write may fail (a fault), as it does once the socket is closed; what is sent carries,
    for the proofs, the operation it is about. *)
From S2P Require Import Prelude GoStrings Json Effects Database PubSub SubRoutes.

Definition msgConnectionInit : string := "connection_init".
Definition msgConnectionAck : string := "connection_ack".
Definition msgPing : string := "ping".
Definition msgPong : string := "pong".
Definition msgSubscribe : string := "subscribe".
Definition msgNext : string := "next".
Definition msgError : string := "error".
Definition msgComplete : string := "complete".
Definition msgConnectionTerminate : string := "connection_terminate".

Definition closeUnauthorized : Z := 4401.
Definition closeSubscriberAlreadyExists : Z := 4409.
Definition closeTooManyInitializations : Z := 4429.
Definition closeReasonSubscriberAlreadyExists : string := "Subscriber already exists".

(** [makeOriginChecker]; [origin]: the request's Origin header, empty when absent. *)
Definition makeOriginChecker (allowedOrigins : list string) (origin : string) : bool :=
  if bool_decide (allowedOrigins = []) || bool_decide (allowedOrigins = ["*"]) then true
  else (origin =? "")%string || bool_decide (origin ∈ allowedOrigins).

(** A message read, its payload raw. *)
Record wsMessage := mkWsMessage { ws_ID : string; ws_Type : string; ws_Payload : string }.

Definition unmarshal_message (data : string) : option wsMessage :=
  ms ← struct_members data;
  id ← string_field "id" ms; type ← string_field "type" ms;
  Some (mkWsMessage id type (raw_field "payload" ms)).

Definition unmarshal_payload (float64_ok : string → bool) (data : string) : option subscribePayload :=
  ms ← struct_members data;
  query ← string_field "query" ms; vars ← map_field "variables" ms; name ← string_field "operationName" ms;
  if forallb (λ e : string * json, numbers_ok float64_ok e.2) (map_to_list vars) then Some (mkPayload query vars name) else None.

(** A message written. *)
Inductive ws_payload := NoPayload | ErrorPayload (messages : list string) | DataPayload (fields : list (string * option json)).
Record out_message := mkOut { out_ID : string; out_Type : string; out_Payload : ws_payload }.

(** Where the goroutine of an operation is, with its subscriber; from [Leaving] on its
    deferred calls run. *)
Inductive phase := Starting | Listening (sub : string) | Leaving (sub : string) | Finishing (sub : string)
  | Completing (sub : string) | Done (sub : string).

Record goroutine := mkGoroutine { g_id : string; g_payload : subscribePayload; g_collection : string; g_phase : phase }.

(** [wsClient]: operations are numbered as they are created. *)
Record client := mkClient {
  cl_subscriptions : gmap string nat;
  cl_initialized : bool;
  cl_closed : bool;
  cl_close_frame : option (Z * string);
  cl_cancelled : gset nat;
  cl_goroutines : gmap nat goroutine;
  cl_next : nat;
  cl_sent : list (option nat * out_message);
  cl_pubsub : PubSub;
}.

Definition new_client (ps : PubSub) : client := mkClient ∅ false false None ∅ ∅ 0 [] ps.

Definition set_subscriptions (f : gmap string nat → gmap string nat) (c : client) : client :=
  mkClient (f (cl_subscriptions c)) (cl_initialized c) (cl_closed c) (cl_close_frame c) (cl_cancelled c) (cl_goroutines c)
    (cl_next c) (cl_sent c) (cl_pubsub c).
Definition set_initialized (c : client) : client :=
  mkClient (cl_subscriptions c) true (cl_closed c) (cl_close_frame c) (cl_cancelled c) (cl_goroutines c) (cl_next c) (cl_sent c) (cl_pubsub c).
Definition set_cancelled (f : gset nat → gset nat) (c : client) : client :=
  mkClient (cl_subscriptions c) (cl_initialized c) (cl_closed c) (cl_close_frame c) (f (cl_cancelled c)) (cl_goroutines c) (cl_next c)
    (cl_sent c) (cl_pubsub c).
Definition set_goroutines (f : gmap nat goroutine → gmap nat goroutine) (c : client) : client :=
  mkClient (cl_subscriptions c) (cl_initialized c) (cl_closed c) (cl_close_frame c) (cl_cancelled c) (f (cl_goroutines c)) (cl_next c)
    (cl_sent c) (cl_pubsub c).
Definition set_pubsub (f : PubSub → PubSub) (c : client) : client :=
  mkClient (cl_subscriptions c) (cl_initialized c) (cl_closed c) (cl_close_frame c) (cl_cancelled c) (cl_goroutines c) (cl_next c)
    (cl_sent c) (f (cl_pubsub c)).
Definition add_sent (tag : option nat) (msg : out_message) (c : client) : client :=
  mkClient (cl_subscriptions c) (cl_initialized c) (cl_closed c) (cl_close_frame c) (cl_cancelled c) (cl_goroutines c) (cl_next c)
    (cl_sent c ++ [(tag, msg)]) (cl_pubsub c).

(** ** Writing *)

Definition writeMessageLocked (tag : option nat) (msg : out_message) : M client bool := λ c fs,
  match fs with
  | true :: fs' => (Ok false, c, fs')
  | _ => (Ok true, add_sent tag msg c, tl fs)
  end.

Definition send (msg : out_message) : M client unit := writeMessageLocked None msg ;; mret tt.

Definition sendError (id message : string) : M client unit := send (mkOut id msgError (ErrorPayload [message])).

(** Cancel every operation and empty the map. *)
Definition drop_operations (c : client) : client :=
  set_subscriptions (λ _, ∅) (set_cancelled (λ s, list_to_set (map_to_list (cl_subscriptions c)).*2 ∪ s) c).

Definition mark_closed (frame : option (Z * string)) (c : client) : client :=
  let c := drop_operations c in
  mkClient (cl_subscriptions c) (cl_initialized c) true frame (cl_cancelled c) (cl_goroutines c) (cl_next c) (cl_sent c) (cl_pubsub c).

Definition closeWithCode (code : Z) (reason : string) : M client unit :=
  modify (λ c, if cl_closed c then c else mark_closed (Some (code, reason)) c).

Definition close : M client unit := modify (λ c, if cl_closed c then c else mark_closed None c).

Definition cancelSubscription (id : string) : M client unit :=
  modify (λ c, match cl_subscriptions c !! id with
    | Some op => set_cancelled (λ s, {[op]} ∪ s) (set_subscriptions (delete id) c)
    | None => c end).

(** The operation is the one registered under its id. *)
Definition is_current (id : string) (op : nat) (c : client) : bool := bool_decide (cl_subscriptions c !! id = Some op).

Definition sendOperationMessage (id : string) (op : nat) (msg : out_message) (terminal : bool) : M client bool :=
  current ← gets (is_current id op);
  if negb current then mret false
  else
    (if terminal then modify (λ c, set_cancelled (λ s, {[op]} ∪ s) (set_subscriptions (delete id) c)) else mret tt) ;;
    writeMessageLocked (Some op) msg.

(** ** The read loop *)

Section connection.
Context `{GraphQL} (schema : option Schema) (float64_ok : string → bool).

(** A new operation and its goroutine. *)
Definition register (id : string) (payload : subscribePayload) (collection : string) (c : client) : client :=
  let op := cl_next c in
  mkClient (<[id := op]> (cl_subscriptions c)) (cl_initialized c) (cl_closed c) (cl_close_frame c) (cl_cancelled c)
    (<[op := mkGoroutine id payload collection Starting]> (cl_goroutines c)) (S op) (cl_sent c) (cl_pubsub c).

Definition handleSubscribe (msg : wsMessage) : M client unit :=
  if (ws_ID msg =? "")%string then sendError (ws_ID msg) "Subscription operation id is required"
  else
    duplicate ← gets (λ c, bool_decide (is_Some (cl_subscriptions c !! ws_ID msg)));
    if (duplicate : bool) then closeWithCode closeSubscriberAlreadyExists closeReasonSubscriberAlreadyExists
    else match unmarshal_payload float64_ok (ws_Payload msg) with
    | None => sendError (ws_ID msg) "Invalid subscribe payload"
    | Some payload =>
        match validateSubscriptionOperation schema payload with
        | Err e => sendError (ws_ID msg) e
        | Ok collection => modify (register (ws_ID msg) payload collection)
        end
    end.

Definition handleMessage (msg : wsMessage) : M client unit :=
  let t := ws_Type msg in
  if (t =? msgConnectionInit)%string then
    initialized ← gets cl_initialized;
    if (initialized : bool) then closeWithCode closeTooManyInitializations "Too many initialization requests"
    else modify set_initialized ;; send (mkOut "" msgConnectionAck NoPayload)
  else if (t =? msgPing)%string then send (mkOut "" msgPong NoPayload)
  else if (t =? msgSubscribe)%string then
    initialized ← gets cl_initialized;
    if negb initialized then closeWithCode closeUnauthorized "Unauthorized" else handleSubscribe msg
  else if (t =? msgComplete)%string then cancelSubscription (ws_ID msg)
  else if (t =? msgConnectionTerminate)%string then close
  else mret tt.

(** One turn of [run]: a frame, or a read error that ends the loop. *)
Definition read_frame (data : option string) : M client unit :=
  match data with
  | None => close
  | Some data => match unmarshal_message data with Some msg => handleMessage msg | None => mret tt end
  end.

(** ** Operations ([runSubscription]) *)

Definition set_phase (op : nat) (p : phase) : M client unit :=
  modify (set_goroutines (alter (λ g, mkGoroutine (g_id g) (g_payload g) (g_collection g) p) op)).

Definition op_start (op : nat) (g : goroutine) : M client unit :=
  sub ← gets (λ c, (Subscribe (g_collection g) (cl_pubsub c)).1);
  modify (set_pubsub (λ ps, (Subscribe (g_collection g) ps).2)) ;; set_phase op (Listening sub).

(** An event of the subscriber [sub]. *)
Definition op_event (op : nat) (g : goroutine) (sub : string) : M client unit :=
  received ← gets (λ c, (Receive sub (cl_pubsub c)).1);
  modify (set_pubsub (λ ps, (Receive sub ps).2)) ;;
  match received, schema with
  | Some event, Some schema =>
      let '(errors, data) := Do schema (g_payload g) (Some event) in
      if negb (bool_decide (errors = [])) then
        sendOperationMessage (g_id g) op (mkOut (g_id g) msgError (ErrorPayload errors)) true ;; set_phase op (Leaving sub)
      else if subscriptionResultIsEmpty data then mret tt
      else
        ok ← sendOperationMessage (g_id g) op (mkOut (g_id g) msgNext (DataPayload (default [] data))) false;
        if (ok : bool) then mret tt else set_phase op (Leaving sub)
  | _, _ => mret tt
  end.

Definition op_unsubscribe (op : nat) (sub : string) : M client unit :=
  modify (set_pubsub (Unsubscribe sub)) ;; set_phase op (Finishing sub).

(** [finishSubscription], under the mutex. *)
Definition op_finish (op : nat) (g : goroutine) (sub : string) : M client unit :=
  current ← gets (is_current (g_id g) op);
  if (current : bool) then modify (set_subscriptions (delete (g_id g))) ;; set_phase op (Completing sub)
  else set_phase op (Done sub).

Definition op_complete (op : nat) (g : goroutine) (sub : string) : M client unit :=
  writeMessageLocked (Some op) (mkOut (g_id g) msgComplete NoPayload) ;; set_phase op (Done sub).

(** ** Interleavings

    [LRead]: the read loop; [LOther]: other connections and publishers on the broker, which
    leave this connection's subscribers registered and unread. *)

Inductive ws_label := LRead (data : option string) | LGoroutine (op : nat) | LOther (l : ps_label).

Definition own_subscriber (c : client) (id : string) : Prop :=
  ∃ op g, cl_goroutines c !! op = Some g ∧ (g_phase g = Listening id ∨ g_phase g = Leaving id).

Definition foreign (c : client) (l : ps_label) : Prop :=
  match l with LUnsubscribe id | LReceive id => ¬ own_subscriber c id | _ => True end.

(** What the goroutine of an operation can do next. *)
Inductive goroutine_step (op : nat) (g : goroutine) : client → M client unit → Prop :=
  | gs_start c : g_phase g = Starting → goroutine_step op g c (op_start op g)
  | gs_event c sub : g_phase g = Listening sub → is_Some (Receive sub (cl_pubsub c)).1 → goroutine_step op g c (op_event op g sub)
  | gs_ended c sub ch : g_phase g = Listening sub → channels (cl_pubsub c) !! sub = Some ch → ch_closed ch = true → ch_buffer ch = [] →
      goroutine_step op g c (set_phase op (Leaving sub))
  | gs_cancelled c sub : g_phase g = Listening sub → op ∈ cl_cancelled c → goroutine_step op g c (set_phase op (Leaving sub))
  | gs_unsubscribe c sub : g_phase g = Leaving sub → goroutine_step op g c (op_unsubscribe op sub)
  | gs_finish c sub : g_phase g = Finishing sub → goroutine_step op g c (op_finish op g sub)
  | gs_complete c sub : g_phase g = Completing sub → goroutine_step op g c (op_complete op g sub).

Inductive ws_step : client → ws_label → client → Prop :=
  | ws_read c data fs c' fs' : read_frame data c fs = (Ok tt, c', fs') → ws_step c (LRead data) c'
  | ws_goroutine c op g m fs c' fs' :
      cl_goroutines c !! op = Some g → goroutine_step op g c m → m c fs = (Ok tt, c', fs') → ws_step c (LGoroutine op) c'
  | ws_other c l ps' : foreign c l → ps_step (cl_pubsub c) l ps' → ws_step c (LOther l) (set_pubsub (λ _, ps') c).
End connection.
