(* ===== verification/SubHandlerProps.v ===== *)
(** * What a subscriber sees

    The messages of an operation are results followed by at most one ending, none after it
    was completed by the client; a closed connection leaves nothing behind. *)
From S2P Require Import Prelude GoStrings Json Effects Database PubSub SubRoutes SubHandler.

Definition registered (c : client) (op : nat) (g : goroutine) : Prop := cl_subscriptions c !! g_id g = Some op.

(** The messages sent about an operation. *)
Definition op_log (c : client) (op : nat) : list out_message := snd <$> filter (λ x, x.1 = Some op) (cl_sent c).

(** Results only. *)
Definition open_log (id : string) (l : list out_message) : Prop := Forall (λ m, out_ID m = id ∧ out_Type m = msgNext) l.

(** Results, then at most an error or the completion. *)
Definition ended_log (id : string) (l : list out_message) : Prop :=
  open_log id l ∨ ∃ results m, l = results ++ [m] ∧ open_log id results ∧ out_ID m = id ∧ out_Type m ∈ [msgError; msgComplete].

#[local] Arguments op_log : simpl never.
#[local] Arguments open_log : simpl never.
#[local] Arguments ended_log : simpl never.

Definition is_completing (g : goroutine) : Prop := match g_phase g with Completing _ => True | _ => False end.
Definition is_done (g : goroutine) : Prop := match g_phase g with Done _ => True | _ => False end.
Definition has_left (g : goroutine) : Prop := is_completing g ∨ is_done g.

(** ** The invariant of the map and the messages *)

Record ops_inv (c : client) : Prop := {
  oi_registered id op : cl_subscriptions c !! id = Some op →
    ∃ g, cl_goroutines c !! op = Some g ∧ g_id g = id ∧ op ∉ cl_cancelled c ∧ ¬ has_left g;
  oi_known op g : cl_goroutines c !! op = Some g → op < cl_next c;
  oi_cancelled op : op ∈ cl_cancelled c → op < cl_next c;
  oi_gone op g : cl_goroutines c !! op = Some g → ¬ registered c op g → op ∈ cl_cancelled c ∨ has_left g;
  oi_open op g : cl_goroutines c !! op = Some g → registered c op g ∨ is_completing g → open_log (g_id g) (op_log c op);
  oi_ended op g : cl_goroutines c !! op = Some g → ended_log (g_id g) (op_log c op);
  oi_fresh op : cl_next c ≤ op → op_log c op = [];
}.

Lemma ops_inv_new ps : ops_inv (new_client ps).
Proof. by split. Qed.

Lemma op_log_sent c c' op : cl_sent c' = cl_sent c → op_log c' op = op_log c op.
Proof. unfold op_log. by intros ->. Qed.

(** Two clients that differ only in what the invariant does not look at. *)
Lemma ops_inv_same c c' :
  cl_subscriptions c' = cl_subscriptions c → cl_goroutines c' = cl_goroutines c → cl_cancelled c' = cl_cancelled c →
  cl_next c' = cl_next c → (∀ op, op_log c' op = op_log c op) → ops_inv c → ops_inv c'.
Proof.
  intros Hs Hg Hc Hn Hl [H1 H2 H3 H4 H5 H6 H7]. unfold registered in *.
  split; unfold registered; rewrite ?Hs, ?Hg, ?Hc, ?Hn; [exact H1|exact H2|exact H3|exact H4| | |]; intros; rewrite Hl; eauto.
Qed.

Lemma op_log_untagged c msg op : op_log (add_sent None msg c) op = op_log c op.
Proof. unfold op_log, add_sent. cbn. rewrite filter_app, fmap_app. cbn. by rewrite app_nil_r. Qed.

Lemma op_log_tagged c op' msg op :
  op_log (add_sent (Some op') msg c) op = op_log c op ++ (if decide (op' = op) then [msg] else []).
Proof.
  unfold op_log, add_sent. cbn. rewrite filter_app, fmap_app. f_equal. case_decide as Hop.
  - subst. by rewrite filter_cons_True.
  - rewrite filter_cons_False; [done|]. cbn. congruence.
Qed.

(** Taking an operation out of the map, cancelled. *)
Lemma ops_inv_remove c id op :
  ops_inv c → cl_subscriptions c !! id = Some op → ops_inv (set_cancelled (λ s, {[op]} ∪ s) (set_subscriptions (delete id) c)).
Proof.
  intros [H1 H2 H3 H4 H5 H6 H7] Hid. destruct (H1 _ _ Hid) as (g & Hg & Hgid & _ & _). split; unfold registered in *; cbn.
  - intros id' op' [Hne Hid']%lookup_delete_Some. destruct (H1 _ _ Hid') as (g' & Hg' & Hgid' & Hnc & Hnl).
    exists g'. split_and!; [done|done| |done]. intros [->%elem_of_singleton|?]%elem_of_union; [|done]. congruence.
  - done.
  - intros op' [->%elem_of_singleton|?]%elem_of_union; eauto.
  - intros op' g' Hg' Hn. destruct (decide (op' = op)) as [->|]; [left; set_solver|].
    destruct (H4 op' g' Hg') as [?|?]; [|left; set_solver|by right]. intros Hr. apply Hn. rewrite lookup_delete_ne; [done|].
    intros ?. congruence.
  - intros op' g' Hg' [Hr|Hr]; apply (H5 op' g' Hg'); [left|by right]. by apply lookup_delete_Some in Hr as [_ ?].
  - done.
  - done.
Qed.

(** Emptying the map. *)
Lemma ops_inv_drop c : ops_inv c → ops_inv (drop_operations c).
Proof.
  intros [H1 H2 H3 H4 H5 H6 H7]. unfold registered in *. split; unfold registered; cbn.
  - done.
  - done.
  - intros op [Hin%elem_of_list_to_set|?]%elem_of_union; [|by apply H3].
    apply list_elem_of_fmap in Hin as ([id op'] & -> & Hin%elem_of_map_to_list). destruct (H1 _ _ Hin) as (g & Hg & _). by apply H2 in Hg.
  - intros op g Hg _. destruct (decide (cl_subscriptions c !! g_id g = Some op)) as [Hr|Hr].
    + left. apply elem_of_union_l, elem_of_list_to_set, list_elem_of_fmap. exists (g_id g, op). split; [done|]. by apply elem_of_map_to_list.
    + destruct (H4 _ _ Hg Hr); [left; set_solver|by right].
  - intros op g Hg [?|Hr]; [done|]. apply (H5 op g Hg). by right.
  - done.
  - done.
Qed.

Lemma ops_inv_register c id payload collection :
  ops_inv c → cl_subscriptions c !! id = None → ops_inv (register id payload collection c).
Proof.
  intros [H1 H2 H3 H4 H5 H6 H7] Hid. unfold registered in *.
  assert (Hfresh : cl_goroutines c !! cl_next c = None).
  { destruct (cl_goroutines c !! cl_next c) as [g|] eqn:E; [|done]. apply H2 in E. lia. }
  split; unfold registered; cbn.
  - intros id' op' [[<- <-]|[Hne Hid']]%lookup_insert_Some.
    + eexists. rewrite lookup_insert_eq. split_and!; [done|done| |by intros []]. intros Hin%H3. lia.
    + destruct (H1 _ _ Hid') as (g & Hg & ?). exists g. rewrite lookup_insert_ne; [done|]. intros ?. congruence.
  - intros op g [[<- <-]|[_ Hg]]%lookup_insert_Some; [lia|]. apply H2 in Hg. lia.
  - intros op Hin%H3. lia.
  - intros op g [[<- <-]|[Hne Hg]]%lookup_insert_Some Hn; [by rewrite lookup_insert_eq in Hn|]. apply (H4 _ _ Hg).
    intros Hr. apply Hn. rewrite lookup_insert_ne; [done|]. intros ?. congruence.
  - intros op g [[<- <-]|[Hne Hg]]%lookup_insert_Some Hr; [rewrite (op_log_sent c) by done; rewrite H7 by done; apply Forall_nil_2|].
    apply (H5 _ _ Hg). destruct Hr as [Hr|?]; [left|by right].
    apply lookup_insert_Some in Hr as [[_ ?]|[_ ?]]; congruence.
  - intros op g [[<- <-]|[Hne Hg]]%lookup_insert_Some; [left; rewrite (op_log_sent c) by done; rewrite H7 by done; apply Forall_nil_2|].
    by apply (H6 _ _ Hg).
  - intros op Hop. apply H7. lia.
Qed.

(** The goroutine of an operation goes on. *)
Lemma ops_inv_phase c op g p :
  ops_inv c → cl_goroutines c !! op = Some g →
  let g' := mkGoroutine (g_id g) (g_payload g) (g_collection g) p in
  (has_left g' → ¬ registered c op g) → (has_left g → has_left g') → (is_completing g' → open_log (g_id g) (op_log c op)) →
  ops_inv (set_goroutines (alter (λ g, mkGoroutine (g_id g) (g_payload g) (g_collection g) p) op) c).
Proof.
  intros [H1 H2 H3 H4 H5 H6 H7] Hg g' Hleft Hkeep Hopen. unfold registered in *.
  assert (Hcase : ∀ op1 g1, alter (λ g, mkGoroutine (g_id g) (g_payload g) (g_collection g) p) op (cl_goroutines c) !! op1 = Some g1 →
    (op1 = op ∧ g1 = g') ∨ (op1 ≠ op ∧ cl_goroutines c !! op1 = Some g1)).
  { intros op1 g1. destruct (decide (op1 = op)) as [->|Hne]; [rewrite lookup_alter_eq, Hg|rewrite lookup_alter_ne by done].
    - intros [= <-]. by left.
    - by right. }
  split; unfold registered; cbn.
  - intros id op1 Hid. destruct (H1 _ _ Hid) as (g1 & Hg1 & Hgid & Hnc & Hnl). destruct (decide (op1 = op)) as [->|Hne].
    + simplify_eq. exists g'. rewrite lookup_alter_eq, Hg. split_and!; [done|done|done|]. intros Hl. by apply Hleft.
    + exists g1. rewrite lookup_alter_ne by done. done.
  - intros op1 g1 [[-> ->]|[_ ?]]%Hcase; eauto.
  - done.
  - intros op1 g1 [[-> ->]|[_ Hg1]]%Hcase Hn; [|by eapply H4]. destruct (H4 _ _ Hg Hn); [by left|right; auto].
  - intros op1 g1 [[-> ->]|[_ Hg1]]%Hcase Hr; [|by eapply H5]. destruct Hr as [Hr|Hr]; [|by apply Hopen].
    apply (H5 _ _ Hg). by left.
  - intros op1 g1 [[-> ->]|[_ Hg1]]%Hcase; [exact (H6 _ _ Hg)|by eapply H6].
  - done.
Qed.

(** A result of a registered operation. *)
Lemma ops_inv_next c op g payload :
  ops_inv c → cl_goroutines c !! op = Some g → registered c op g →
  ops_inv (add_sent (Some op) (mkOut (g_id g) msgNext payload) c).
Proof.
  intros [H1 H2 H3 H4 H5 H6 H7] Hg Hreg. split; [exact H1|exact H2|exact H3|exact H4| | |].
  - intros op' g' Hg' Hr. rewrite op_log_tagged. specialize (H5 op' g' Hg' Hr). apply Forall_app. split; [exact H5|].
    case_decide as Hop; [|constructor]. subst. assert (g' = g) as -> by (cbn in Hg'; congruence). by repeat constructor.
  - intros op' g' Hg'. rewrite op_log_tagged. case_decide as Hop; [|rewrite app_nil_r; by apply H6]. subst.
    assert (g' = g) as -> by (cbn in Hg'; congruence). left. apply Forall_app. split; [by apply (H5 _ g Hg); left|by repeat constructor].
  - intros op' Hop. rewrite op_log_tagged, H7 by done. rewrite decide_False; [done|]. intros <-. apply H2 in Hg. cbn in Hop. lia.
Qed.

(** The last message of an operation that is no longer registered. *)
Lemma ops_inv_end c op g type payload :
  ops_inv c → cl_goroutines c !! op = Some g → ¬ registered c op g → ¬ is_completing g →
  open_log (g_id g) (op_log c op) → type ∈ [msgError; msgComplete] →
  ops_inv (add_sent (Some op) (mkOut (g_id g) type payload) c).
Proof.
  intros [H1 H2 H3 H4 H5 H6 H7] Hg Hreg Hcomp Hopen Htype. split; [exact H1|exact H2|exact H3|exact H4| | |].
  - intros op' g' Hg' Hr. rewrite op_log_tagged. rewrite decide_False; [rewrite app_nil_r; by apply H5|]. intros ->.
    assert (g' = g) as -> by (cbn in Hg'; congruence). by destruct Hr.
  - intros op' g' Hg'. rewrite op_log_tagged. case_decide as Hop; [|rewrite app_nil_r; by apply H6]. subst.
    assert (g' = g) as -> by (cbn in Hg'; congruence). right. by eexists _, _.
  - intros op' Hop. rewrite op_log_tagged, H7 by done. rewrite decide_False; [done|]. intros <-. apply H2 in Hg. cbn in Hop. lia.
Qed.

(** ** Steps *)

Lemma write_cases tag msg c fs o c' fs' :
  writeMessageLocked tag msg c fs = (o, c', fs') → (∃ ok, o = Ok ok) ∧ (c' = c ∨ c' = add_sent tag msg c).
Proof. unfold writeMessageLocked. destruct fs as [|[] fs]; intros [= <- <- <-]; split; eauto. Qed.

Lemma send_inv I msg :
  (∀ c, I c → I (add_sent None msg c)) → Preserves I (send msg).
Proof.
  intros HI c fs o c' fs' Hc. unfold send, mbind, M_bind. destruct (writeMessageLocked None msg c fs) as [[o1 c1] fs1] eqn:E.
  apply write_cases in E as ((ok & ->) & [->| ->]); intros [= _ <- _]; auto.
Qed.

Lemma ops_inv_untagged c msg : ops_inv c → ops_inv (add_sent None msg c).
Proof. apply ops_inv_same; try done. intros. apply op_log_untagged. Qed.

Lemma modify_inv {S} (I : S → Prop) f : (∀ s, I s → I (f s)) → Preserves I (modify f).
Proof. intros HI s fs o s' fs' Hs [= _ <- _]. auto. Qed.

(** What the read loop does to a connection. *)
Record read_closed (I : client → Prop) : Prop := {
  rc_untagged c msg : I c → I (add_sent None msg c);
  rc_closed c frame : I c → I (mark_closed frame c);
  rc_remove c id op : I c → cl_subscriptions c !! id = Some op → I (set_cancelled (λ s, {[op]} ∪ s) (set_subscriptions (delete id) c));
  rc_register c id payload collection : I c → cl_subscriptions c !! id = None → I (register id payload collection c);
  rc_initialized c : I c → I (set_initialized c);
}.

Section connection.
Context `{GraphQL} (schema : option Schema) (float64_ok : string → bool).

Section read.
Context (I : client → Prop) (HI : read_closed I).

Lemma read_send msg : Preserves I (send msg).
Proof. apply send_inv. intros. by apply HI. Qed.

Lemma read_close_code code reason : Preserves I (closeWithCode code reason).
Proof. apply modify_inv. intros c Hc. destruct (cl_closed c); [done|by apply HI]. Qed.

Lemma read_close : Preserves I close.
Proof. apply modify_inv. intros c Hc. destruct (cl_closed c); [done|by apply HI]. Qed.

Lemma read_subscribe msg : Preserves I (handleSubscribe schema float64_ok msg).
Proof.
  unfold handleSubscribe. destruct (_ =? _)%string; [apply read_send|].
  intros c fs o c' fs' Hc Hrun. unfold mbind at 1, M_bind at 1, gets in Hrun. case_bool_decide as Hdup; [by eapply read_close_code|].
  destruct (unmarshal_payload _ _) as [payload|]; [|by eapply read_send].
  destruct (validateSubscriptionOperation _ _) as [collection|]; [|by eapply read_send].
  injection Hrun as _ <- _. apply (rc_register I HI); [done|]. by apply eq_None_not_Some.
Qed.

Lemma read_message msg : Preserves I (handleMessage schema float64_ok msg).
Proof.
  unfold handleMessage. destruct (_ =? _)%string.
  { apply preserves_bind; [apply preserves_gets|intros []]; [apply read_close_code|].
    apply preserves_bind; [|intros; apply read_send]. apply modify_inv, (rc_initialized I HI). }
  destruct (_ =? _)%string; [apply read_send|]. destruct (_ =? _)%string.
  { apply preserves_bind; [apply preserves_gets|intros []]; [apply read_subscribe|apply read_close_code]. }
  destruct (_ =? _)%string.
  { apply modify_inv. intros c Hc. destruct (cl_subscriptions c !! _) as [op|] eqn:E; [by apply (rc_remove I HI)|done]. }
  destruct (_ =? _)%string; [apply read_close|apply preserves_ret].
Qed.

Lemma read_preserves data : Preserves I (read_frame schema float64_ok data).
Proof.
  unfold read_frame. destruct data as [data|]; [|apply read_close].
  destruct (unmarshal_message data); [apply read_message|apply preserves_ret].
Qed.
End read.

Lemma ops_inv_read_closed : read_closed ops_inv.
Proof.
  split.
  - intros c msg. apply ops_inv_same; try done. intros. apply op_log_untagged.
  - intros c frame Hc%ops_inv_drop. by apply (ops_inv_same (drop_operations c)).
  - intros c id op. apply ops_inv_remove.
  - intros c id payload collection. apply ops_inv_register.
  - intros c. by apply ops_inv_same.
Qed.

Lemma ops_inv_sendop c op g (type : string) payload (terminal : bool) fs o c' fs' :
  ops_inv c → cl_goroutines c !! op = Some g → (if terminal then type ∈ [msgError; msgComplete] else type = msgNext) →
  sendOperationMessage (g_id g) op (mkOut (g_id g) type payload) terminal c fs = (o, c', fs') →
  ops_inv c' ∧ cl_goroutines c' = cl_goroutines c ∧ ∃ ok, o = Ok ok.
Proof.
  intros Hc Hg Htype. unfold sendOperationMessage, gets, mbind, M_bind, is_current. case_bool_decide as Hcur; cbn [negb].
  2: { intros [= <- <- <-]. eauto. }
  destruct (oi_registered c Hc _ _ Hcur) as (g' & Hg' & _ & _ & Hnl). assert (g' = g) as -> by congruence.
  destruct terminal; unfold modify; cbn.
  - set (c1 := set_cancelled _ _). assert (H1 : ops_inv c1) by by apply ops_inv_remove.
    intros ([ok ->] & [-> | ->])%write_cases; [by eauto|]. split_and!; [|done|eauto].
    apply ops_inv_end; [done|done| | | |done].
    + unfold registered, c1. cbn. by rewrite lookup_delete_eq.
    + intros ?. apply Hnl. by left.
    + rewrite (op_log_sent c) by done. apply (oi_open c Hc op g Hg). by left.
  - intros ([ok ->] & [-> | ->])%write_cases; [by eauto|]. split_and!; [|done|eauto]. subst type. by apply ops_inv_next.
Qed.

Lemma ops_inv_leave c op g sub :
  ops_inv c → cl_goroutines c !! op = Some g → ¬ has_left g →
  ops_inv (set_goroutines (alter (λ g, mkGoroutine (g_id g) (g_payload g) (g_collection g) (Leaving sub)) op) c).
Proof. intros Hc Hg Hl. apply (ops_inv_phase c op g); [done|done|by intros []|done|done]. Qed.

Lemma ops_inv_event c op g sub fs o c' fs' :
  ops_inv c → cl_goroutines c !! op = Some g → g_phase g = Listening sub → op_event schema op g sub c fs = (o, c', fs') → ops_inv c'.
Proof.
  intros Hc Hg Hph. assert (Hl : ¬ has_left g) by (unfold has_left, is_completing, is_done; rewrite Hph; by intros []).
  unfold op_event. unfold gets, modify, mbind at 1 2, M_bind at 1 2. set (c1 := set_pubsub _ c).
  assert (H1 : ops_inv c1) by by apply (ops_inv_same c).
  destruct ((Receive sub (cl_pubsub c)).1) as [event|]; [|by intros [= _ <- _]]. destruct schema as [sch|]; [|by intros [= _ <- _]].
  destruct (Do sch (g_payload g) (Some event)) as [errors data]. destruct (negb (bool_decide (errors = []))).
  - unfold mbind, M_bind. destruct (sendOperationMessage _ _ _ true c1 fs) as [[o1 c2] fs2] eqn:E.
    apply ops_inv_sendop in E as (H2 & Hg2 & [ok ->]); [|done|done|left]. intros [= _ <- _]. eapply ops_inv_leave; [done| |exact Hl].
    by rewrite Hg2.
  - destruct (subscriptionResultIsEmpty data); [by intros [= _ <- _]|].
    unfold mbind, M_bind. destruct (sendOperationMessage _ _ _ false c1 fs) as [[o1 c2] fs2] eqn:E.
    apply ops_inv_sendop in E as (H2 & Hg2 & [ok ->]); [|done|done|done]. destruct ok; intros [= _ <- _]; [done|].
    eapply ops_inv_leave; [done| |exact Hl]. by rewrite Hg2.
Qed.

Lemma ops_inv_finish c op g sub fs o c' fs' :
  ops_inv c → cl_goroutines c !! op = Some g → g_phase g = Finishing sub → op_finish op g sub c fs = (o, c', fs') → ops_inv c'.
Proof.
  intros Hc Hg Hph. assert (Hl : ¬ has_left g) by (unfold has_left, is_completing, is_done; rewrite Hph; by intros []).
  unfold op_finish, gets, modify, mbind, M_bind, is_current. case_bool_decide as Hcur; intros [= _ <- _].
  - (* completing: out of the map without being cancelled *)
    set (p := Completing sub). set (c1 := set_goroutines _ _).
    assert (Hopen : open_log (g_id g) (op_log c op)) by (apply (oi_open c Hc op g Hg); by left).
    assert (Hcase : ∀ op1 g1, cl_goroutines c1 !! op1 = Some g1 →
      (op1 = op ∧ g1 = mkGoroutine (g_id g) (g_payload g) (g_collection g) p) ∨ (op1 ≠ op ∧ cl_goroutines c !! op1 = Some g1)).
    { intros op1 g1. unfold c1. cbn. destruct (decide (op1 = op)) as [->|Hne]; [rewrite lookup_alter_eq, Hg|rewrite lookup_alter_ne by done].
      - intros [= <-]. by left. - by right. }
    assert (Hlog : ∀ op1, op_log c1 op1 = op_log c op1) by (intros; by apply op_log_sent).
    destruct Hc as [H1 H2 H3 H4 H5 H6 H7]. unfold registered in *.
    assert (Hsubs : cl_subscriptions c1 = delete (g_id g) (cl_subscriptions c)) by done.
    split; unfold registered; rewrite ?Hsubs.
    + intros id op1 [Hne Hid]%lookup_delete_Some. destruct (H1 _ _ Hid) as (g1 & Hg1 & Hgid & Hnc & Hnl).
      exists g1. split_and!; [|done|done|done]. unfold c1. cbn. rewrite lookup_alter_ne; [done|]. intros ->. congruence.
    + intros op1 g1 [[-> ->]|[_ ?]]%Hcase; [by apply (H2 op g)|by apply (H2 op1 g1)].
    + done.
    + intros op1 g1 [[-> ->]|[Hne Hg1]]%Hcase Hn; [right; by left|]. apply (H4 _ _ Hg1). intros Hr. apply Hn.
      rewrite lookup_delete_ne; [done|]. intros E. rewrite E in Hcur. congruence.
    + intros op1 g1 [[-> ->]|[Hne Hg1]]%Hcase Hr; rewrite Hlog; [done|]. apply (H5 _ _ Hg1).
      destruct Hr as [[_ ?]%lookup_delete_Some|?]; auto.
    + intros op1 g1 [[-> ->]|[Hne Hg1]]%Hcase; rewrite Hlog; [by left|by apply H6].
    + intros op1 Hop. rewrite Hlog. by apply H7.
  - apply (ops_inv_phase c op g); [done|done|done|by right|by intros []].
Qed.

Lemma ops_inv_complete c op g sub fs o c' fs' :
  ops_inv c → cl_goroutines c !! op = Some g → g_phase g = Completing sub → op_complete op g sub c fs = (o, c', fs') → ops_inv c'.
Proof.
  intros Hc Hg Hph Hrun. unfold op_complete, mbind, M_bind in Hrun.
  destruct (writeMessageLocked _ _ c fs) as [[o1 c1] fs1] eqn:E. apply write_cases in E as ([ok ->] & Hc1). injection Hrun as _ <- _.
  assert (Hcomp : is_completing g) by (unfold is_completing; by rewrite Hph).
  assert (Hnr : ¬ registered c op g).
  { intros Hr. destruct (oi_registered c Hc _ _ Hr) as (g' & Hg' & _ & _ & Hnl). apply Hnl. left. by replace g' with g by congruence. }
  set (c2 := set_goroutines (alter (λ g, mkGoroutine (g_id g) (g_payload g) (g_collection g) (Done sub)) op) c).
  assert (H2 : ops_inv c2) by (apply (ops_inv_phase c op g); [done|done|done|by right|by intros []]).
  destruct Hc1 as [->| ->]; [exact H2|].
  change (set_goroutines ?f (add_sent ?t ?m c)) with (add_sent t m c2).
  apply (ops_inv_end c2 op (mkGoroutine (g_id g) (g_payload g) (g_collection g) (Done sub))); [done| |done|by intros []| |by right; left].
  - unfold c2. cbn. by rewrite lookup_alter_eq, Hg.
  - rewrite (op_log_sent c) by done. apply (oi_open c Hc op g Hg). by right.
Qed.

Lemma ops_inv_step c l c' : ops_inv c → ws_step schema float64_ok c l c' → ops_inv c'.
Proof.
  intros Hc Hstep. inversion Hstep as [? data fs ? fs' Hrun|? op g m fs ? fs' Hg Hgs Hrun|? ? ps' _ _]; subst.
  - by eapply (read_preserves _ ops_inv_read_closed).
  - assert (Hl : ∀ sub, g_phase g = Listening sub ∨ g_phase g = Leaving sub → ¬ has_left g).
    { intros sub [Hph|Hph]; unfold has_left, is_completing, is_done; rewrite Hph; by intros []. }
    inversion Hgs as [? Hph|? sub Hph Hrec|? sub ch Hph|? sub Hph Hin|? sub Hph|? sub Hph|? sub Hph]; subst.
    + unfold op_start in Hrun. injection Hrun as <- _.
      apply (ops_inv_phase _ op g); [by apply (ops_inv_same c)|done|by intros []|unfold has_left, is_completing, is_done; rewrite Hph; by intros []|done].
    + by eapply ops_inv_event.
    + injection Hrun as <- _. eapply ops_inv_leave; eauto.
    + injection Hrun as <- _. eapply ops_inv_leave; eauto.
    + injection Hrun as <- _. apply (ops_inv_phase _ op g); [by apply (ops_inv_same c)|done|by intros []| |done].
      intros Hl'. destruct (Hl sub); [by right|done].
    + by eapply ops_inv_finish.
    + by eapply ops_inv_complete.
  - by apply (ops_inv_same c).
Qed.

Lemma ops_inv_reachable ps ls c : star (ws_step schema float64_ok) (new_client ps) ls c → ops_inv c.
Proof. apply (star_invariant _ ops_inv ops_inv_step), ops_inv_new. Qed.

(** ** Messages of an operation that is out of the map *)

Definition log_is (op : nat) (l : list out_message) (c : client) : Prop := op_log c op = l.

Lemma log_read_closed op l : read_closed (log_is op l).
Proof.
  unfold log_is. split.
  - intros c msg <-. apply op_log_untagged.
  - intros c frame <-. by apply op_log_sent.
  - intros c id op' <- _. by apply op_log_sent.
  - intros c id payload collection <- _. by apply op_log_sent.
  - intros c <-. by apply op_log_sent.
Qed.

Lemma sendop_log id op' msg terminal op c fs o c' fs' :
  sendOperationMessage id op' msg terminal c fs = (o, c', fs') → op' ≠ op ∨ cl_subscriptions c !! id ≠ Some op' →
  op_log c' op = op_log c op.
Proof.
  unfold sendOperationMessage, gets, mbind, M_bind, is_current. intros Hrun Hor. case_bool_decide as Hcur; cbn [negb] in Hrun.
  2: { by injection Hrun as _ <- _. }
  destruct Hor as [Hne|?]; [|done]. destruct terminal; unfold modify in Hrun; cbn in Hrun;
    apply write_cases in Hrun as (_ & [-> | ->]); rewrite ?op_log_tagged, ?(decide_False (P := op' = op)), ?app_nil_r by done; by apply op_log_sent.
Qed.

Lemma event_log op' g' sub op c fs o c' fs' :
  op_event schema op' g' sub c fs = (o, c', fs') → op' ≠ op ∨ cl_subscriptions c !! g_id g' ≠ Some op' → op_log c' op = op_log c op.
Proof.
  intros Hrun Hor. unfold op_event, gets, modify, mbind at 1 2, M_bind at 1 2 in Hrun. set (c1 := set_pubsub _ c) in Hrun.
  assert (H1 : op_log c1 op = op_log c op) by done. assert (Hor1 : op' ≠ op ∨ cl_subscriptions c1 !! g_id g' ≠ Some op') by done.
  destruct ((Receive sub (cl_pubsub c)).1) as [event|]; [|by injection Hrun as _ <- _].
  destruct schema as [sch|]; [|by injection Hrun as _ <- _]. destruct (Do sch (g_payload g') (Some event)) as [errors data].
  destruct (negb (bool_decide (errors = []))); [|destruct (subscriptionResultIsEmpty data); [by injection Hrun as _ <- _|]];
    unfold mbind, M_bind in Hrun; match type of Hrun with context [sendOperationMessage ?a ?b ?c0 ?d ?e ?f] =>
      destruct (sendOperationMessage a b c0 d e f) as [[[ok|err] c2] fs2] eqn:E end; apply (sendop_log _ _ _ _ op) in E; try done;
    try (destruct ok); injection Hrun as _ <- _; by rewrite <- H1, <- E.
Qed.

Lemma step_log c l c' op g :
  ws_step schema float64_ok c l c' → cl_goroutines c !! op = Some g → ¬ registered c op g →
  ∃ more, op_log c' op = op_log c op ++ more ∧ (more = [] ∨ is_completing g ∧ more = [mkOut (g_id g) msgComplete NoPayload]).
Proof.
  intros Hstep Hg Hnr. assert (Hnone : ∀ c2, op_log c2 op = op_log c op →
    ∃ more, op_log c2 op = op_log c op ++ more ∧ (more = [] ∨ is_completing g ∧ more = [mkOut (g_id g) msgComplete NoPayload])).
  { intros c2 E. exists []. rewrite app_nil_r. auto. }
  inversion Hstep as [? data fs ? fs' Hrun|? op' g' m fs ? fs' Hg' Hgs Hrun|? ? ps' _ _]; subst; [| |by apply Hnone].
  - apply Hnone. by eapply (read_preserves _ (log_read_closed op (op_log c op))).
  - assert (Hor : op' ≠ op ∨ cl_subscriptions c !! g_id g' ≠ Some op').
    { destruct (decide (op' = op)) as [->|]; [right|by left]. by replace g' with g by congruence. }
    inversion Hgs as [? Hph|? sub Hph Hrec|? sub ch Hph|? sub Hph Hin|? sub Hph|? sub Hph|? sub Hph]; subst.
    + apply Hnone. by injection Hrun as <- _.
    + apply Hnone. by eapply event_log.
    + apply Hnone. by injection Hrun as <- _.
    + apply Hnone. by injection Hrun as <- _.
    + apply Hnone. by injection Hrun as <- _.
    + apply Hnone. unfold op_finish, gets, mbind, M_bind in Hrun. destruct (is_current _ _ _); by injection Hrun as <- _.
    + unfold op_complete, mbind, M_bind in Hrun. destruct (writeMessageLocked _ _ c fs) as [[o1 c1] fs1] eqn:E.
      apply write_cases in E as ([ok ->] & Hc1). injection Hrun as <- _. destruct Hc1 as [-> | ->]; [by apply Hnone|].
      change (op_log (set_goroutines ?f ?x) op) with (op_log x op). rewrite op_log_tagged. eexists. split; [reflexivity|].
      case_decide as Hop; [right|by left]. subst. replace g' with g in * by congruence. split; [|done]. unfold is_completing. by rewrite Hph.
Qed.

(** C21. However frames, operations and events interleave on a connection, and whatever
    writes fail, the messages sent about an operation carry its id and are results followed by at
    most one error or completion; results and errors only come while it is registered. Once it is not - the client completed it,
    the connection was closed, it ended by itself or another operation has its id - nothing follows, but for one message: an
    operation that ended by itself is first taken out of the map and then sends its [complete]. *)
Theorem operation_messages ps ls c op g :
  star (ws_step schema float64_ok) (new_client ps) ls c → cl_goroutines c !! op = Some g →
  ended_log (g_id g) (op_log c op) ∧
  (registered c op g → open_log (g_id g) (op_log c op)) ∧
  (∀ l c', ws_step schema float64_ok c l c' → ¬ registered c op g →
    ∃ more, op_log c' op = op_log c op ++ more ∧ (more = [] ∨ is_completing g ∧ more = [mkOut (g_id g) msgComplete NoPayload])).
Proof.
  intros Hrun%ops_inv_reachable Hg. split_and!.
  - by apply (oi_ended c Hrun op).
  - intros Hr. apply (oi_open c Hrun op g Hg). by left.
  - intros l c' Hstep Hnr. by eapply step_log.
Qed.
End connection.
