(* ===== verification/SubCleanup.v ===== *)
(** * A closed connection leaves nothing behind

    Every goroutine has its own subscriber on the broker and gives it back; once no
    operation is registered every goroutine can end, its steps are bounded, and no
    subscriber of the connection remains. *)
From S2P Require Import Prelude GoStrings Json Effects Database PubSub SubRoutes SubRouteProps SubHandler SubHandlerProps.

Definition phase_sub (p : phase) : option string :=
  match p with
  | Starting => None
  | Listening sub | Leaving sub | Finishing sub | Completing sub | Done sub => Some sub
  end.

(** A goroutine's subscriber: registered until it leaves, gone and never reused afterwards. *)
Definition phase_ok (collection : string) (p : phase) (ps : PubSub) : Prop :=
  match p with
  | Starting => True
  | Listening sub | Leaving sub => subscribers ps !! sub = Some collection
  | Finishing sub | Completing sub | Done sub => subscribers ps !! sub = None ∧ is_Some (channels ps !! sub)
  end.

Record subs_inv (c : client) : Prop := {
  si_wf : ps_wf (cl_pubsub c);
  si_ok op g : cl_goroutines c !! op = Some g → phase_ok (g_collection g) (g_phase g) (cl_pubsub c);
  si_distinct op1 op2 g1 g2 sub : cl_goroutines c !! op1 = Some g1 → cl_goroutines c !! op2 = Some g2 →
    phase_sub (g_phase g1) = Some sub → phase_sub (g_phase g2) = Some sub → op1 = op2;
}.

Lemma subs_inv_new ps : ps_wf ps → subs_inv (new_client ps).
Proof. by split. Qed.

(** ** The broker *)

(** What stays true of the subscribers [P] is about. *)
Definition keeps_subs (P : string → Prop) (ps ps' : PubSub) : Prop :=
  ∀ sub, P sub → is_Some (channels ps !! sub) → subscribers ps' !! sub = subscribers ps !! sub ∧ is_Some (channels ps' !! sub).

Lemma ok_has_channel collection p ps sub :
  ps_wf ps → phase_ok collection p ps → phase_sub p = Some sub → is_Some (channels ps !! sub).
Proof.
  intros Hwf Hok Hsub. destruct p; simplify_eq/=; try (by destruct Hok);
    destruct (pw_registered _ Hwf _ _ Hok) as (ch & -> & _); by eexists.
Qed.

Lemma ok_kept (P : string → Prop) collection p ps ps' :
  ps_wf ps → keeps_subs P ps ps' → (∀ sub, phase_sub p = Some sub → P sub) → phase_ok collection p ps → phase_ok collection p ps'.
Proof.
  intros Hwf Hk HP Hok. destruct (phase_sub p) as [sub|] eqn:Hs; [|by destruct p].
  destruct (Hk sub (HP _ eq_refl) (ok_has_channel _ _ _ _ Hwf Hok Hs)) as [Hsame Hch].
  destruct p; simplify_eq/=; rewrite Hsame; [done|done|by destruct Hok..].
Qed.

Lemma subscribe_keeps c ps : ps_wf ps → keeps_subs (λ _, True) ps (Subscribe c ps).2.
Proof.
  intros Hwf sub _ Hch. unfold Subscribe. cbn. assert (Hne : itoa (nextID ps + 1) ≠ sub).
  { intros <-. rewrite (fresh_id ps Hwf) in Hch. by destruct Hch. }
  by rewrite !lookup_insert_ne.
Qed.

Lemma receive_keeps id ps : keeps_subs (λ _, True) ps (Receive id ps).2.
Proof.
  intros sub _ Hch. unfold Receive. destruct (channels ps !! id) as [[[|ev rest] closed]|] eqn:E; cbn; [done| |done].
  split; [done|]. destruct (decide (sub = id)) as [->|]; [by rewrite lookup_insert_eq|by rewrite lookup_insert_ne].
Qed.

Lemma unsubscribe_keeps id ps : keeps_subs (λ sub, sub ≠ id) ps (Unsubscribe id ps).
Proof.
  intros sub Hne Hch. unfold Unsubscribe. destruct (subscribers ps !! id); [|done]. cbn.
  by rewrite lookup_delete_ne, lookup_alter_ne.
Qed.

Lemma publish_keeps ev ps : keeps_subs (λ _, True) ps (Publish ev ps).
Proof. intros sub _ [ch Hch]. split; [done|]. rewrite publish_channel, Hch. by eexists. Qed.

(** ** Steps *)

(** One goroutine goes on, the broker changes for its subscriber only. *)
Lemma subs_inv_phase (P : string → Prop) c c' op g p :
  subs_inv c → cl_goroutines c !! op = Some g →
  cl_goroutines c' = alter (λ g, mkGoroutine (g_id g) (g_payload g) (g_collection g) p) op (cl_goroutines c) →
  ps_wf (cl_pubsub c') → keeps_subs P (cl_pubsub c) (cl_pubsub c') →
  (∀ op2 g2 sub, op2 ≠ op → cl_goroutines c !! op2 = Some g2 → phase_sub (g_phase g2) = Some sub → P sub ∧ phase_sub p ≠ Some sub) →
  phase_ok (g_collection g) p (cl_pubsub c') → subs_inv c'.
Proof.
  intros [Hwf Hok Hd] Hg Hg' Hwf' Hk Hothers Hp.
  assert (Hcase : ∀ op1 g1, cl_goroutines c' !! op1 = Some g1 →
    (op1 = op ∧ g1 = mkGoroutine (g_id g) (g_payload g) (g_collection g) p) ∨ (op1 ≠ op ∧ cl_goroutines c !! op1 = Some g1)).
  { intros op1 g1. rewrite Hg'. destruct (decide (op1 = op)) as [->|]; [rewrite lookup_alter_eq, Hg|rewrite lookup_alter_ne by done].
    - intros [= <-]. by left. - by right. }
  split; [done| |].
  - intros op1 g1 [[-> ->]|[Hne Hg1]]%Hcase; [done|]. eapply ok_kept; [exact Hwf|exact Hk| |by eapply Hok].
    intros sub Hs. by eapply Hothers.
  - intros op1 op2 g1 g2 sub [[-> ->]|[Hne1 Hg1]]%Hcase [[-> ->]|[Hne2 Hg2]]%Hcase Hs1 Hs2; [done| | |by eapply Hd].
    + by destruct (Hothers op2 g2 sub Hne2 Hg2 Hs2).
    + by destruct (Hothers op1 g1 sub Hne1 Hg1 Hs1).
Qed.

(** The same without the broker. *)
Lemma subs_inv_move c op g p :
  subs_inv c → cl_goroutines c !! op = Some g → phase_sub p = phase_sub (g_phase g) → phase_ok (g_collection g) p (cl_pubsub c) →
  ∀ c', cl_goroutines c' = alter (λ g, mkGoroutine (g_id g) (g_payload g) (g_collection g) p) op (cl_goroutines c) →
    cl_pubsub c' = cl_pubsub c → subs_inv c'.
Proof.
  intros Hc Hg Hp Hok c' Hg' Hps. apply (subs_inv_phase (λ _, True) c c' op g p); [done|done|done|rewrite Hps; apply Hc| | |by rewrite Hps].
  - intros sub _ ?. by rewrite Hps.
  - intros op2 g2 sub Hne Hg2 Hs. split; [done|]. rewrite Hp. intros Hs'. apply Hne. by eapply (si_distinct c Hc).
Qed.

Lemma subs_inv_same c c' :
  cl_goroutines c' = cl_goroutines c → cl_pubsub c' = cl_pubsub c → subs_inv c → subs_inv c'.
Proof. intros Hg Hps [Hwf Hok Hd]. split; rewrite ?Hps; [done|rewrite Hg; done|rewrite Hg; done]. Qed.

Lemma subs_inv_read_closed : read_closed subs_inv.
Proof.
  split.
  - intros c msg. by apply subs_inv_same.
  - intros c frame. by apply subs_inv_same.
  - intros c id op Hc _. by apply (subs_inv_same c).
  - intros c id payload collection [Hwf Hok Hd] _. split; cbn; [done| |].
    + intros op g [[<- <-]|[_ Hg]]%lookup_insert_Some; [done|by eapply Hok].
    + intros op1 op2 g1 g2 sub [[<- <-]|[_ Hg1]]%lookup_insert_Some [[<- <-]|[_ Hg2]]%lookup_insert_Some; [done|done|done|]. by eapply Hd.
  - intros c. by apply subs_inv_same.
Qed.

(** Only the broker changes. *)
Lemma subs_inv_broker (P : string → Prop) c c' :
  subs_inv c → cl_goroutines c' = cl_goroutines c → ps_wf (cl_pubsub c') → keeps_subs P (cl_pubsub c) (cl_pubsub c') →
  (∀ op g sub, cl_goroutines c !! op = Some g → phase_sub (g_phase g) = Some sub → P sub ∨ subscribers (cl_pubsub c) !! sub = None ∧
    subscribers (cl_pubsub c') !! sub = None ∧ is_Some (channels (cl_pubsub c') !! sub)) → subs_inv c'.
Proof.
  intros [Hwf Hok Hd] Hg Hwf' Hk HP. split; [done| |rewrite Hg; done]. rewrite Hg. intros op g Hop. specialize (Hok op g Hop).
  destruct (phase_sub (g_phase g)) as [sub|] eqn:Hs; [|by destruct (g_phase g)].
  destruct (HP op g sub Hop Hs) as [HPs|(Hn & Hn' & Hch)].
  - eapply ok_kept; [exact Hwf|exact Hk| |exact Hok]. rewrite Hs. by intros ? [= <-].
  - destruct (g_phase g); simplify_eq/=; first [done|congruence].
Qed.

Section connection.
Context `{GraphQL} (schema : option Schema) (float64_ok : string → bool).

Lemma sendop_frame id op msg terminal c fs o c' fs' :
  sendOperationMessage id op msg terminal c fs = (o, c', fs') →
  cl_goroutines c' = cl_goroutines c ∧ cl_pubsub c' = cl_pubsub c ∧ cl_next c' = cl_next c ∧ (cl_subscriptions c = ∅ → c' = c ∧ o = Ok false).
Proof.
  unfold sendOperationMessage, gets, mbind, M_bind, is_current. case_bool_decide as Hcur; cbn [negb]; [|by intros [= <- <- _]].
  intros Hrun. assert (He : cl_subscriptions c ≠ ∅) by (intros He; by rewrite He in Hcur).
  destruct terminal; unfold modify in Hrun; cbn in Hrun; apply write_cases in Hrun as (_ & [-> | ->]); done.
Qed.

Lemma event_frame op g sub c fs c' fs' :
  op_event schema op g sub c fs = (Ok tt, c', fs') →
  cl_pubsub c' = (Receive sub (cl_pubsub c)).2 ∧ cl_next c' = cl_next c ∧
  (cl_goroutines c' = cl_goroutines c ∨
   cl_goroutines c' = alter (λ g, mkGoroutine (g_id g) (g_payload g) (g_collection g) (Leaving sub)) op (cl_goroutines c)) ∧
  (cl_subscriptions c = ∅ → cl_subscriptions c' = ∅).
Proof.
  unfold op_event, gets, modify, mbind at 1 2, M_bind at 1 2. set (c1 := set_pubsub _ c).
  assert (H1 : cl_goroutines c1 = cl_goroutines c ∧ cl_pubsub c1 = (Receive sub (cl_pubsub c)).2 ∧
    cl_next c1 = cl_next c ∧ cl_subscriptions c1 = cl_subscriptions c) by done.
  destruct H1 as (Hg1 & Hp1 & Hn1 & Hs1). rewrite <- Hg1, <- Hp1, <- Hn1, <- Hs1. clearbody c1. clear Hg1 Hp1 Hn1 Hs1.
  destruct ((Receive sub (cl_pubsub c)).1) as [event|]; [|intros [= <- _]; auto]. destruct schema as [sch|]; [|intros [= <- _]; auto].
  destruct (Do sch (g_payload g) (Some event)) as [errors data].
  destruct (negb (bool_decide (errors = []))); [|destruct (subscriptionResultIsEmpty data); [intros [= <- _]; auto|]];
    unfold mbind, M_bind; match goal with |- context [sendOperationMessage ?a ?b ?c0 ?d ?e ?f] =>
      destruct (sendOperationMessage a b c0 d e f) as [[[ok|err] c2] fs2] eqn:E end; try done;
    apply sendop_frame in E as (Hg & Hp & Hn & Hs); try (destruct ok); intros [= <- _]; cbn; rewrite ?Hg, ?Hp, ?Hn; split_and!; auto;
    intros He; by destruct (Hs He) as [-> _].
Qed.

Lemma subs_inv_step c l c' : subs_inv c → ws_step schema float64_ok c l c' → subs_inv c'.
Proof.
  intros Hc Hstep. inversion Hstep as [? data fs ? fs' Hrun|? op g m fs ? fs' Hg Hgs Hrun|? l' ps' Hfor Hps]; subst.
  - by eapply (read_preserves _ _ _ subs_inv_read_closed).
  - assert (Hok := si_ok c Hc op g Hg). assert (Hwf := si_wf c Hc).
    inversion Hgs as [? Hph|? sub Hph Hrec|? sub ch Hph|? sub Hph Hin|? sub Hph|? sub Hph|? sub Hph]; subst; rewrite Hph in Hok.
    + injection Hrun as <- _. eapply (subs_inv_phase (λ _, True) c _ op g); [done|done|reflexivity|by apply subscribe_wf|by apply subscribe_keeps| |].
      * intros op2 g2 sub Hne Hg2 Hs. split; [done|]. cbn. intros [= <-].
        destruct (ok_has_channel _ _ _ _ Hwf (si_ok c Hc op2 g2 Hg2) Hs) as [ch Hch]. by rewrite (fresh_id _ Hwf) in Hch.
      * cbn. by rewrite lookup_insert_eq.
    + apply event_frame in Hrun as (Hps & _ & Hgs' & _).
      assert (H1 : subs_inv (set_pubsub (λ ps, (Receive sub ps).2) c)).
      { apply (subs_inv_broker (λ _, True) c); [done|done|by apply receive_wf|apply receive_keeps|auto]. }
      destruct Hgs' as [Hgs'|Hgs']; [by apply (subs_inv_same (set_pubsub (λ ps, (Receive sub ps).2) c))|].
      eapply (subs_inv_move _ op g (Leaving sub)); [exact H1|done|by rewrite Hph| |exact Hgs'|exact Hps].
      assert (Hok1 := si_ok _ H1 op g Hg). rewrite Hph in Hok1. exact Hok1.
    + injection Hrun as <- _. eapply (subs_inv_move c op g (Leaving sub)); [done|done|by rewrite Hph|exact Hok|reflexivity|done].
    + injection Hrun as <- _. eapply (subs_inv_move c op g (Leaving sub)); [done|done|by rewrite Hph|exact Hok|reflexivity|done].
    + injection Hrun as <- _. eapply (subs_inv_phase (λ s, s ≠ sub) c _ op g); [done|done|reflexivity|by apply unsubscribe_wf|apply unsubscribe_keeps| |].
      * intros op2 g2 s Hne Hg2 Hs. assert (s ≠ sub); [|by split; [|intros [= ->]]]. intros ->. apply Hne.
        eapply (si_distinct c Hc); [exact Hg2|exact Hg|exact Hs|by rewrite Hph].
      * cbn. unfold Unsubscribe. cbn in Hok. rewrite Hok. cbn. rewrite lookup_delete_eq. split; [done|].
        rewrite lookup_alter_is_Some. destruct (pw_registered _ Hwf _ _ Hok) as (ch & -> & _). by eexists.
    + unfold op_finish, gets, mbind, M_bind in Hrun. destruct (is_current _ _ _); injection Hrun as <- _.
      * eapply (subs_inv_move c op g (Completing sub)); [done|done|by rewrite Hph|exact Hok|reflexivity|done].
      * eapply (subs_inv_move c op g (Done sub)); [done|done|by rewrite Hph|exact Hok|reflexivity|done].
    + unfold op_complete, mbind, M_bind in Hrun. destruct (writeMessageLocked _ _ c fs) as [[o1 c1] fs1] eqn:E.
      apply write_cases in E as ([ok ->] & Hc1). injection Hrun as <- _.
      destruct Hc1 as [-> | ->]; (eapply (subs_inv_move c op g (Done sub)); [done|done|by rewrite Hph|exact Hok|reflexivity|done]).
  - assert (Hwf := si_wf c Hc). assert (Hwf' := step_wf _ _ _ Hwf Hps).
    assert (Hown : ∀ id, foreign c (LUnsubscribe id) → ∀ op g sub, cl_goroutines c !! op = Some g → phase_sub (g_phase g) = Some sub →
      sub ≠ id ∨ subscribers (cl_pubsub c) !! sub = None).
    { intros id Hf op g sub Hg Hs. destruct (decide (sub = id)) as [->|]; [right|by left].
      assert (Hok := si_ok c Hc op g Hg). destruct (g_phase g) eqn:Hph; simplify_eq/=; try (by destruct Hok);
        destruct Hf; exists op, g; auto. }
    inversion Hps as [? col|? id|? ev|? id]; subst.
    + apply (subs_inv_broker (λ _, True) c); [done|done|done|by apply subscribe_keeps|auto].
    + apply (subs_inv_broker (λ s, s ≠ id) c); [done|done|done|apply unsubscribe_keeps|].
      intros op g sub Hg Hs. destruct (decide (sub = id)) as [->|]; [right|by left].
      destruct (Hown id Hfor op g id Hg Hs) as [?|Hn]; [done|]. cbn. unfold Unsubscribe. rewrite Hn. split_and!; [done..|].
      exact (ok_has_channel _ _ _ _ Hwf (si_ok c Hc op g Hg) Hs).
    + apply (subs_inv_broker (λ _, True) c); [done|done|done|apply publish_keeps|auto].
    + apply (subs_inv_broker (λ _, True) c); [done|done|done|apply receive_keeps|auto].
Qed.

Lemma subs_inv_reachable ps ls c : ps_wf ps → star (ws_step schema float64_ok) (new_client ps) ls c → subs_inv c.
Proof. intros Hps. apply (star_invariant _ subs_inv subs_inv_step). by apply subs_inv_new. Qed.

(** ** Ending *)

Definition buffered (ps : PubSub) (sub : string) : nat := length (default [] (ch_buffer <$> channels ps !! sub)).

(** What a goroutine that is to end still has to do. *)
Definition weight (ps : PubSub) (p : phase) : nat :=
  let k := S SubscriberBufferSize in
  match p with
  | Starting => 5 * k
  | Listening sub => 4 * k + buffered ps sub
  | Leaving _ => 3 * k
  | Finishing _ => 2 * k
  | Completing _ => k
  | Done _ => 0
  end.

Definition weight_at (c : client) (op : nat) : nat :=
  match cl_goroutines c !! op with Some g => weight (cl_pubsub c) (g_phase g) | None => 0 end.

Definition exit_measure (c : client) : nat := sum_list_with (weight_at c) (seq 0 (cl_next c)).

Lemma sum_list_with_lt {A} (f g : A → nat) l x :
  x ∈ l → f x < g x → (∀ y, y ∈ l → f y ≤ g y) → sum_list_with f l < sum_list_with g l.
Proof.
  assert (Hle : ∀ l, (∀ y, y ∈ l → f y ≤ g y) → sum_list_with f l ≤ sum_list_with g l).
  { clear l. induction l as [|y l IH]; intros Hall; cbn; [lia|]. assert (f y ≤ g y) by (apply Hall; left).
    assert (sum_list_with f l ≤ sum_list_with g l) by (apply IH; intros; apply Hall; by right). lia. }
  induction l as [|y l IH]; intros Hin Hlt Hall; [by apply elem_of_nil in Hin|]. cbn.
  assert (f y ≤ g y) by (apply Hall; left). apply elem_of_cons in Hin as [->|Hin].
  - assert (sum_list_with f l ≤ sum_list_with g l) by (apply Hle; intros; apply Hall; by right). lia.
  - assert (sum_list_with f l < sum_list_with g l) by (apply IH; [done|done|]; intros; apply Hall; by right). lia.
Qed.

(** One goroutine gets lighter, the buffers of the others stay. *)
Lemma measure_phase c c' op g p :
  subs_inv c → cl_goroutines c !! op = Some g → op < cl_next c → cl_next c' = cl_next c →
  cl_goroutines c' = alter (λ g, mkGoroutine (g_id g) (g_payload g) (g_collection g) p) op (cl_goroutines c) →
  weight (cl_pubsub c') p < weight (cl_pubsub c) (g_phase g) →
  (∀ sub, is_Some (channels (cl_pubsub c) !! sub) → phase_sub (g_phase g) ≠ Some sub → buffered (cl_pubsub c') sub = buffered (cl_pubsub c) sub) →
  exit_measure c' < exit_measure c.
Proof.
  intros Hc Hg Hop Hnext Hg' Hw Hbuf. unfold exit_measure. rewrite Hnext. apply (sum_list_with_lt _ _ _ op).
  - apply elem_of_seq. lia.
  - unfold weight_at. by rewrite Hg', lookup_alter_eq, Hg.
  - intros op2 _. unfold weight_at. rewrite Hg'. destruct (decide (op2 = op)) as [->|Hne].
    { rewrite lookup_alter_eq, Hg. cbn. lia. }
    rewrite lookup_alter_ne by done. destruct (cl_goroutines c !! op2) as [g2|] eqn:Hg2; [|done].
    destruct (g_phase g2) as [|sub| | | |] eqn:Hp2; try done. cbn. rewrite Hbuf; [done| |].
    + by eapply (ok_has_channel _ _ _ _ (si_wf c Hc)); [apply (si_ok c Hc op2 g2 Hg2)|rewrite Hp2].
    + intros Hs. apply Hne. eapply (si_distinct c Hc); [exact Hg2|exact Hg|by rewrite Hp2|exact Hs].
Qed.

Lemma buffered_bound ps sub : ps_wf ps → buffered ps sub ≤ SubscriberBufferSize.
Proof.
  intros Hwf. unfold buffered. destruct (channels ps !! sub) as [ch|] eqn:E; cbn [fmap option_fmap option_map default]; [by eapply pw_bounded|].
  unfold SubscriberBufferSize. cbn. lia.
Qed.

Lemma buffered_subscribe col ps sub : ps_wf ps → is_Some (channels ps !! sub) → buffered (Subscribe col ps).2 sub = buffered ps sub.
Proof.
  intros Hwf Hch. unfold buffered, Subscribe. cbn. rewrite lookup_insert_ne; [done|]. intros <-. rewrite (fresh_id ps Hwf) in Hch. by destruct Hch.
Qed.

Lemma buffered_receive id ps sub : sub ≠ id → buffered (Receive id ps).2 sub = buffered ps sub.
Proof.
  intros Hne. unfold buffered, Receive. destruct (channels ps !! id) as [[[|ev rest] closed]|]; [done| |done]. cbn. by rewrite lookup_insert_ne.
Qed.

Lemma buffered_received id ps : is_Some (Receive id ps).1 → buffered (Receive id ps).2 id < buffered ps id.
Proof.
  unfold buffered, Receive. destruct (channels ps !! id) as [[[|ev rest] closed]|] eqn:E; cbn; [by intros []| |by intros []].
  intros _. rewrite lookup_insert_eq. cbn. lia.
Qed.

Lemma buffered_unsubscribe id ps sub : buffered (Unsubscribe id ps) sub = buffered ps sub.
Proof.
  unfold buffered, Unsubscribe. destruct (subscribers ps !! id); [|done]. cbn. destruct (decide (sub = id)) as [->|].
  - rewrite lookup_alter_eq. by destruct (channels ps !! id).
  - by rewrite lookup_alter_ne.
Qed.

#[local] Instance is_done_dec g : Decision (is_done g).
Proof. unfold is_done. destruct (g_phase g); apply _. Defined.

(** With no operation registered, a goroutine only moves towards its end. *)
Lemma goroutine_ends c op c' :
  ops_inv c → subs_inv c → cl_subscriptions c = ∅ → ws_step schema float64_ok c (LGoroutine op) c' →
  (cl_subscriptions c' = ∅ ∧ cl_next c' = cl_next c) ∧ exit_measure c' < exit_measure c.
Proof.
  intros Ho Hs Hempty Hstep. inversion Hstep as [|? ? g m fs ? fs' Hg Hgs Hrun|]; subst.
  assert (Hop := oi_known c Ho op g Hg). assert (Hwf := si_wf c Hs).
  assert (Hm := λ c1 p, measure_phase c c1 op g p Hs Hg Hop).
  inversion Hgs as [? Hph|? sub Hph Hrec|? sub ch Hph|? sub Hph Hin|? sub Hph|? sub Hph|? sub Hph]; subst; rewrite Hph in Hm.
  - injection Hrun as <- _. split; [done|]. eapply Hm; [done..| |].
    + cbn. unfold buffered. cbn. rewrite lookup_insert_eq. cbn. lia.
    + intros. by apply buffered_subscribe.
  - apply event_frame in Hrun as (Hps & Hn & Hgs' & He). split; [by split; [apply He|]|].
    assert (Hbuf : ∀ s, is_Some (channels (cl_pubsub c) !! s) → phase_sub (Listening sub) ≠ Some s → buffered (cl_pubsub c') s = buffered (cl_pubsub c) s).
    { intros s _ Hne. rewrite Hps. apply buffered_receive. intros ->. by apply Hne. }
    destruct Hgs' as [Hgs'|Hgs']; eapply (Hm c'); try done.
    + rewrite Hgs'. apply map_eq. intros i. destruct (decide (i = op)) as [->|]; [|by rewrite lookup_alter_ne].
      rewrite lookup_alter_eq, Hg. destruct g. cbn in *. by subst.
    + assert (Hlt := buffered_received sub (cl_pubsub c) Hrec). rewrite <- Hps in Hlt. unfold weight. lia.
    + unfold weight. lia.
  - injection Hrun as <- _. split; [done|]. eapply Hm; [done..| |done]. unfold weight. lia.
  - injection Hrun as <- _. split; [done|]. eapply Hm; [done..| |done]. unfold weight. lia.
  - injection Hrun as <- _. split; [done|]. eapply Hm; [done..| |]; [unfold weight; lia|]. intros. apply buffered_unsubscribe.
  - unfold op_finish, gets, mbind, M_bind in Hrun. unfold is_current in Hrun. rewrite Hempty, lookup_empty in Hrun. cbn in Hrun.
    injection Hrun as <- _. split; [done|]. eapply Hm; [done..| |done]. unfold weight. lia.
  - unfold op_complete, mbind, M_bind in Hrun. destruct (writeMessageLocked _ _ c fs) as [[o1 c1] fs1] eqn:E.
    apply write_cases in E as ([ok ->] & Hc1). injection Hrun as <- _.
    destruct Hc1 as [-> | ->]; (split; [done|]; eapply Hm; [done..| |done]; unfold weight; lia).
Qed.

Lemma goroutine_moves c op g (m : M client unit) :
  cl_goroutines c !! op = Some g → goroutine_step schema op g c m → (m c []).1.1 = Ok tt →
  ∃ c', ws_step schema float64_ok c (LGoroutine op) c'.
Proof.
  intros Hg Hgs Hok. destruct (m c []) as [[o c'] fs'] eqn:E. cbn in Hok. subst o. exists c'. by eapply ws_goroutine.
Qed.

(** A goroutine that has not ended can go on. *)
Lemma goroutine_goes_on c op g :
  ops_inv c → cl_subscriptions c = ∅ → cl_goroutines c !! op = Some g → is_done g ∨ ∃ c', ws_step schema float64_ok c (LGoroutine op) c'.
Proof.
  intros Ho Hempty Hg. destruct (g_phase g) as [|sub|sub|sub|sub|sub] eqn:Hph; [right..|left; unfold is_done; by rewrite Hph].
  - by apply (goroutine_moves c op g (op_start op g)); [|apply gs_start|].
  - apply (goroutine_moves c op g (set_phase op (Leaving sub))); [done| |done]. apply gs_cancelled; [exact Hph|].
    destruct (oi_gone c Ho op g Hg) as [?|Hl]; [unfold registered; by rewrite Hempty, lookup_empty|done|].
    unfold has_left, is_completing, is_done in Hl. rewrite Hph in Hl. by destruct Hl.
  - by apply (goroutine_moves c op g (op_unsubscribe op sub)); [|apply gs_unsubscribe|].
  - apply (goroutine_moves c op g (op_finish op g sub)); [done|by apply gs_finish|].
    unfold op_finish, gets, mbind, M_bind, is_current. by rewrite Hempty, lookup_empty.
  - by apply (goroutine_moves c op g (op_complete op g sub)); [|apply gs_complete|].
Qed.

(** *** What others publish in the meantime *)

Definition goroutine_steps (ls : list ws_label) : nat := sum_list_with (λ l, match l with LGoroutine _ => 1 | _ => 0 end) ls.
Definition publications (ls : list ws_label) : nat := sum_list_with (λ l, match l with LOther (LPublish _) => 1 | _ => 0 end) ls.

Lemma sum_list_with_le {A} (f g : A → nat) k l :
  (∀ y, y ∈ l → f y ≤ g y + k) → sum_list_with f l ≤ sum_list_with g l + length l * k.
Proof.
  induction l as [|y l IH]; intros Hall; cbn; [lia|]. assert (f y ≤ g y + k) by (apply Hall; left).
  assert (sum_list_with f l ≤ sum_list_with g l + length l * k) by (apply IH; intros; apply Hall; by right). lia.
Qed.

Lemma buffered_publish ev ps sub : buffered (Publish ev ps) sub ≤ buffered ps sub + 1.
Proof.
  unfold buffered. rewrite publish_channel. destruct (channels ps !! sub) as [ch|]; cbn; [|lia].
  destruct (subscribers ps !! sub); [|lia]. destruct (wants _ _); [|lia]. unfold try_send. destruct (_ <? _); [|lia].
  cbn. rewrite length_app. cbn. lia.
Qed.

Lemma buffered_receive_le id ps sub : buffered (Receive id ps).2 sub ≤ buffered ps sub.
Proof.
  destruct (decide (sub = id)) as [->|]; [|by rewrite buffered_receive]. unfold buffered.
  destruct (Receive id ps) as [[ev|] ps'] eqn:E.
  - assert (Hlt := buffered_received id ps). rewrite E in Hlt. apply Nat.lt_le_incl, Hlt. done.
  - unfold Receive in E. destruct (channels ps !! id) as [[[|? ?] ?]|] eqn:Ech; simplify_eq; cbn; by rewrite Ech.
Qed.

(** What others do on the broker adds at most one event per operation, and only when they publish. *)
Lemma others_measure c l c' :
  subs_inv c → ws_step schema float64_ok c (LOther l) c' →
  (cl_subscriptions c' = cl_subscriptions c ∧ cl_next c' = cl_next c) ∧
  exit_measure c' ≤ exit_measure c + cl_next c * publications [LOther l].
Proof.
  intros Hs Hstep. inversion Hstep as [| |? ? ps' _ Hps]; subst. split; [done|].
  unfold exit_measure. change (cl_next (set_pubsub (λ _, ps') c)) with (cl_next c).
  etrans; [apply (sum_list_with_le _ (weight_at c) (publications [LOther l]))|by rewrite length_seq].
  intros op _. unfold weight_at. change (cl_goroutines (set_pubsub _ c)) with (cl_goroutines c). change (cl_pubsub (set_pubsub (λ _, ps') c)) with ps'.
  destruct (cl_goroutines c !! op) as [g|] eqn:Hg; [|lia].
  destruct (g_phase g) as [|sub| | | |] eqn:Hp; cbn [weight]; try lia.
  enough (buffered ps' sub ≤ buffered (cl_pubsub c) sub + publications [LOther l]) by lia.
  assert (Hwf := si_wf c Hs). assert (Hch : is_Some (channels (cl_pubsub c) !! sub)).
  { eapply (ok_has_channel _ _ _ _ (si_wf c Hs)); [apply (si_ok c Hs op g Hg)|by rewrite Hp]. }
  destruct Hps.
  - rewrite buffered_subscribe; [lia|done|done].
  - rewrite buffered_unsubscribe. lia.
  - apply buffered_publish.
  - etrans; [apply buffered_receive_le|]. lia.
Qed.

(** Without frames from the peer, nothing is registered again; and the goroutines' steps are paid for. *)
Lemma steps_bounded c ls c' :
  star (ws_step schema float64_ok) c ls c' → ops_inv c → subs_inv c → cl_subscriptions c = ∅ → (∀ data, LRead data ∉ ls) →
  (ops_inv c' ∧ subs_inv c' ∧ cl_subscriptions c' = ∅) ∧
  goroutine_steps ls + exit_measure c' ≤ exit_measure c + cl_next c * publications ls.
Proof.
  induction 1 as [c|c l c1 ls c2 Hstep _ IH]; intros Ho Hs Hempty Hno; [split; [done|cbn; lia]|].
  assert (Ho1 : ops_inv c1) by by eapply ops_inv_step. assert (Hs1 : subs_inv c1) by by eapply subs_inv_step.
  assert (Hno1 : ∀ data, LRead data ∉ ls) by (intros data Hin; apply (Hno data); by right).
  destruct l as [data|op|l]; [destruct (Hno data); left| |].
  - destruct (goroutine_ends c op c1 Ho Hs Hempty Hstep) as [[He Hn] Hlt]. destruct (IH Ho1 Hs1 He Hno1) as [Hinv Hle]. split; [done|].
    unfold goroutine_steps, publications in *. cbn [sum_list_with]. rewrite Hn in Hle. lia.
  - destruct (others_measure c l c1 Hs Hstep) as [[He Hn] Hle1]. rewrite Hempty in He. destruct (IH Ho1 Hs1 He Hno1) as [Hinv Hle]. split; [done|].
    unfold goroutine_steps, publications in *. cbn [sum_list_with] in *. rewrite Hn in Hle. rewrite Nat.add_0_r in Hle1. lia.
Qed.

Definition all_ended (c : client) : Prop :=
  ∀ op g, cl_goroutines c !! op = Some g → ∃ sub, g_phase g = Done sub ∧ subscribers (cl_pubsub c) !! sub = None.

Lemma can_end c :
  ops_inv c → subs_inv c → cl_subscriptions c = ∅ →
  ∃ ops c', length ops ≤ exit_measure c ∧ star (ws_step schema float64_ok) c (LGoroutine <$> ops) c' ∧ all_ended c'.
Proof.
  remember (exit_measure c) as n eqn:Hn. revert c Hn. induction (lt_wf n) as [n _ IH]. intros c -> Ho Hs Hempty.
  destruct (decide (map_Forall (λ _ g, is_done g) (cl_goroutines c))) as [Hall|Hnot].
  - exists [], c. split; [cbn; lia|]. split; [constructor|]. intros op g Hg. assert (Hdone := Hall op g Hg).
    assert (Hok := si_ok c Hs op g Hg). unfold is_done in Hdone. destruct (g_phase g) as [| | | | |sub]; try done. by exists sub; destruct Hok.
  - apply map_not_Forall in Hnot as (op & g & Hg & Hnd); [|apply _].
    destruct (goroutine_goes_on c op g Ho Hempty Hg) as [?|[c1 Hstep]]; [done|].
    destruct (goroutine_ends c op c1 Ho Hs Hempty Hstep) as [[He1 _] Hlt].
    destruct (IH _ Hlt c1 eq_refl) as (ops & c' & Hlen & Hstar & Hend);
      [by eapply ops_inv_step|by eapply subs_inv_step|done|].
    exists (op :: ops), c'. split; [cbn; lia|]. split; [by econstructor|done].
Qed.

(** C22. Once no operation is registered - the connection was closed, or the client completed
    them all - and no frame is handled any more, goroutines only wind up, whatever others do on the broker: however their steps,
    publications and other subscribers interleave, nothing is registered again, and the goroutines together take at most
    [exit_measure c] steps plus one per operation for each event published in the meantime (a goroutine that was cancelled may still
    take buffered events, since [select] chooses among what is ready). At each moment of it every one that has not ended can go on, and
    they can all end within as many steps as the measure then says; an ended one has no subscriber left on the broker. *)
Theorem closed_connection_ends ps ls c ls' c' :
  ps_wf ps → star (ws_step schema float64_ok) (new_client ps) ls c → cl_subscriptions c = ∅ →
  star (ws_step schema float64_ok) c ls' c' → (∀ data, LRead data ∉ ls') →
  cl_subscriptions c' = ∅ ∧ goroutine_steps ls' + exit_measure c' ≤ exit_measure c + cl_next c * publications ls' ∧
  (∀ op g, cl_goroutines c' !! op = Some g → is_done g ∨ ∃ c2, ws_step schema float64_ok c' (LGoroutine op) c2) ∧
  (∀ op g sub, cl_goroutines c' !! op = Some g → g_phase g = Done sub → subscribers (cl_pubsub c') !! sub = None) ∧
  ∃ ops c2, length ops ≤ exit_measure c' ∧ star (ws_step schema float64_ok) c' (LGoroutine <$> ops) c2 ∧ all_ended c2.
Proof.
  intros Hps Hrun Hempty Hrun' Hno. assert (Ho := ops_inv_reachable _ _ _ _ _ Hrun). assert (Hs := subs_inv_reachable _ _ _ Hps Hrun).
  destruct (steps_bounded c ls' c' Hrun' Ho Hs Hempty Hno) as [(Ho' & Hs' & He) Hle]. split_and!; [done|done| | |by apply can_end].
  - intros op g. by apply goroutine_goes_on.
  - intros op g sub Hg Hp. assert (Hok := si_ok c' Hs' op g Hg). rewrite Hp in Hok. by destruct Hok.
Qed.
End connection.

(** ** One connection, followed

    Runs of a subscription connection with a schema whose only field is
    [recordEvents(collection: app.a)]. *)

Definition one_operation : operation := mkOperation None "subscription" []
  [Field (Some "recordEvents") (collection_argument (StringValue "app.a")) []].

(** A field's value: the uri of the event it shows. *)
#[local] Instance one_schema : GraphQL := {|
  Schema := unit;
  parse q := if (q =? "bad")%string then Err "Syntax Error" else Ok [OperationDefinition one_operation];
  ValidateDocument _ _ := [];
  Do _ _ ev := ([], Some [("recordEvents", JString ∘ ev_URI <$> (ev ≫= record_events_field (Some "app.a")))]);
|}.

Definition one : option Schema := Some tt.
Definition numbers_fit : string → bool := λ _, true.
#[local] Notation step := (ws_step one numbers_fit).

Definition frame_init : string := quoted "{'type':'connection_init'}".
Definition frame_subscribe (id : string) : string :=
  quoted ("{'id':'" +:+ id +:+ "','type':'subscribe','payload':{'query':'subscription { recordEvents(collection: app.a) }'}}").
Definition frame_complete (id : string) : string := quoted ("{'id':'" +:+ id +:+ "','type':'complete'}").

(** The connection after a turn in which every write succeeds. *)
Definition after (m : M client unit) (c : client) : client := (m c []).1.2.
Definition read (data : string) : client → client := after (read_frame one numbers_fit (Some data)).

Definition goroutine_0 (p : phase) : goroutine :=
  mkGoroutine "s" (mkPayload "subscription { recordEvents(collection: app.a) }" ∅ "") "app.a" p.

Definition subscribed : client := read (frame_subscribe "s") (read frame_init (new_client NewPubSub)).
Definition listening : client := after (op_start 0 (goroutine_0 Starting)) subscribed.
Definition published_to (c : client) : client := set_pubsub (Publish (event_of "app.a")) c.
Definition received_one : client := after (op_event one 0 (goroutine_0 (Listening "1")) "1") (published_to listening).

Lemma read_run data c : (read_frame one numbers_fit (Some data) c []).1.1 = Ok tt → step c (LRead (Some data)) (read data c).
Proof.
  intros Hok. destruct (read_frame one numbers_fit (Some data) c []) as [[o c'] fs'] eqn:E. unfold read, after. rewrite E. cbn in *. subst.
  by eapply ws_read.
Qed.

Lemma goroutine_run op g m c :
  cl_goroutines c !! op = Some g → goroutine_step one op g c m → (m c []).1.1 = Ok tt → step c (LGoroutine op) (after m c).
Proof.
  intros Hg Hgs Hok. unfold after. destruct (m c []) as [[o c'] fs'] eqn:E. cbn in *. subst. by eapply ws_goroutine.
Qed.

Lemma published_run c : step c (LOther (LPublish (event_of "app.a"))) (published_to c).
Proof. by apply (ws_other _ _ c (LPublish (event_of "app.a"))); [|constructor]. Qed.

Lemma received_one_run :
  star step (new_client NewPubSub)
    [LRead (Some frame_init); LRead (Some (frame_subscribe "s")); LGoroutine 0; LOther (LPublish (event_of "app.a")); LGoroutine 0]
    received_one.
Proof.
  eapply star_step; [by apply read_run; vm_compute|]. eapply star_step; [by apply read_run; vm_compute|].
  eapply star_step; [apply (goroutine_run 0 (goroutine_0 Starting) (op_start 0 (goroutine_0 Starting))); [by vm_compute|by apply gs_start|by vm_compute]|].
  eapply star_step; [apply published_run|].
  eapply star_step;
    [apply (goroutine_run 0 (goroutine_0 (Listening "1")) (op_event one 0 (goroutine_0 (Listening "1")) "1")); [by vm_compute| |by vm_compute]|constructor].
  apply gs_event; [done|]. vm_compute. eexists. reflexivity.
Qed.

Definition closed_by_peer : client := after close received_one.

Lemma closed_by_peer_run : ∃ ls, star step (new_client NewPubSub) ls closed_by_peer.
Proof.
  eexists. eapply star_app; [apply received_one_run|]. eapply star_step; [|constructor].
  apply (ws_read _ _ received_one None [] closed_by_peer []). reflexivity.
Qed.

Definition result_message : out_message := mkOut "s" msgNext (DataPayload [("recordEvents", Some (JString "at://did:plc:a/app.a/1"))]).

(** The client completes its operation after one result: nothing follows. *)
Lemma operation_messages_witness :
  op_log (read (frame_complete "s") received_one) 0 = [result_message] ∧
  ended_log "s" [result_message] ∧
  ∀ l c', step (read (frame_complete "s") received_one) l c' → op_log c' 0 = [result_message].
Proof.
  set (c := read (frame_complete "s") received_one).
  assert (Hlog : op_log c 0 = [result_message]) by (vm_compute; reflexivity).
  assert (Hg : cl_goroutines c !! 0 = Some (goroutine_0 (Listening "1"))) by (vm_compute; reflexivity).
  assert (Hnone : cl_subscriptions c !! "s" = None) by (vm_compute; reflexivity).
  destruct (operation_messages one numbers_fit NewPubSub
    ([LRead (Some frame_init); LRead (Some (frame_subscribe "s")); LGoroutine 0; LOther (LPublish (event_of "app.a")); LGoroutine 0]
      ++ [LRead (Some (frame_complete "s"))]) c 0 (goroutine_0 (Listening "1"))) as (Hended & _ & Hnext).
  - eapply star_app; [apply received_one_run|]. eapply star_step; [|constructor]. apply read_run. vm_compute. reflexivity.
  - exact Hg.
  - rewrite Hlog in Hended. split; [exact Hlog|]. split; [exact Hended|]. intros l c' Hstep.
    destruct (Hnext l c' Hstep) as (more & Hmore & [->|[Hc _]]); [|by rewrite Hmore, Hlog|by destruct Hc].
    unfold registered. cbn [g_id goroutine_0]. rewrite Hnone. discriminate.
Defined.

(** The connection is lost after one result; one more event is published and taken, and still the goroutine can end
    within three buffers of steps. *)
Definition one_more : client :=
  after (op_event one 0 (goroutine_0 (Listening "1")) "1")
    (set_pubsub (λ _, Publish (event_of "app.a") (cl_pubsub closed_by_peer)) closed_by_peer).

Lemma closed_connection_ends_witness :
  subscribers (cl_pubsub one_more) !! "1" = Some "app.a" ∧ exit_measure one_more = 303 ∧
  ∃ ops c', length ops ≤ exit_measure one_more ∧ star step one_more (LGoroutine <$> ops) c' ∧ all_ended c'.
Proof.
  split; [vm_compute; reflexivity|]. split; [vm_compute; reflexivity|]. destruct closed_by_peer_run as [ls Hrun].
  assert (Hempty : cl_subscriptions closed_by_peer = ∅) by (vm_compute; reflexivity).
  eassert (Hmore : star step closed_by_peer [LOther (LPublish (event_of "app.a")); LGoroutine 0] one_more).
  { eapply star_step; [apply ws_other; [done|apply step_publish]|]. eapply star_step; [|constructor].
    eapply (ws_goroutine _ _ _ 0 (goroutine_0 (Listening "1")) (op_event one 0 (goroutine_0 (Listening "1")) "1") [] _ []); [vm_compute; reflexivity| |vm_compute; reflexivity].
    apply gs_event; [done|]. vm_compute. eexists. reflexivity. }
  destruct (closed_connection_ends one numbers_fit NewPubSub ls closed_by_peer _ one_more new_wf Hrun Hempty Hmore) as (_ & _ & _ & _ & Hend);
    [by intros data [?|[?|?%elem_of_nil]%elem_of_cons]%elem_of_cons|exact Hend].
Defined.

(** A second [connection_init] closes the connection, but frames already received are
    still handled: a [subscribe] among them registers an operation that was never cancelled, which keeps its subscriber. *)
Definition subscribed_after_close : client :=
  after (op_start 0 (goroutine_0 Starting)) (read (frame_subscribe "s") (read frame_init (read frame_init (new_client NewPubSub)))).

Example frame_after_close :
  cl_closed subscribed_after_close = true ∧ cl_subscriptions subscribed_after_close !! "s" = Some 0 ∧
  0 ∉ cl_cancelled subscribed_after_close ∧ subscribers (cl_pubsub subscribed_after_close) !! "1" = Some "app.a" ∧
  after close subscribed_after_close = subscribed_after_close.
Proof. split_and!; [by vm_compute..| |by vm_compute|by vm_compute]. apply (bool_decide_unpack _). by vm_compute. Qed.
