(* ===== verification/Tap.v ===== *)
(** * Tap ingestion

    src/internal/tap: parsing of Tap events (event.go), the handler that stores,
    deletes and purges (handler.go), and the consumer that reads frames, dispatches
    them and acknowledges what was handled (consumer.go). The handler works on the
    database and the subscription broker; the consumer on any handler. *)
From S2P Require Import Prelude GoStrings Json Effects Database RecordStore Versions Actors PubSub.

(** ** Events (event.go) *)

Definition EventTypeRecord : string := "record".
Definition EventTypeIdentity : string := "identity".
Definition ActionCreate : string := "create".
Definition ActionUpdate : string := "update".
Definition ActionDelete : string := "delete".

Record RecordEvent := mkRecordEvent {
  re_Live : bool;
  re_Rev : string;
  re_DID : string;
  re_Collection : string;
  re_RKey : string;
  re_Action : string;
  re_CID : string;
  re_Record : string;
}.

Record IdentityEvent := mkIdentityEvent {
  ie_DID : string;
  ie_Handle : string;
  ie_IsActive : bool;
  ie_IsActivePresent : bool;
  ie_Status : string;
}.

Record Event := mkTapEvent {
  te_ID : Z;
  te_Type : string;
  te_Record : option RecordEvent;
  te_Identity : option IdentityEvent;
}.

Definition URI (r : RecordEvent) : string := at_uri (re_DID r) (re_Collection r) (re_RKey r).

Definition unmarshal_record (ms : list member) : option RecordEvent :=
  live ← bool_field "live" ms; rev ← string_field "rev" ms; did ← string_field "did" ms;
  collection ← string_field "collection" ms; rkey ← string_field "rkey" ms;
  action ← string_field "action" ms; cid ← string_field "cid" ms;
  Some (mkRecordEvent live rev did collection rkey action cid (raw_field "record" ms)).

(** [IdentityEvent.UnmarshalJSON] *)
Definition unmarshal_identity (ms : list member) : option IdentityEvent :=
  did ← string_field "did" ms; handle ← string_field "handle" ms;
  active ← bool_ptr_field "is_active" ms; status ← string_field "status" ms;
  Some (mkIdentityEvent did handle (default false active) (bool_decide (is_Some active)) status).

Definition unmarshal_event (data : string) : option Event :=
  ms ← struct_members data;
  id ← int64_field "id" ms; type ← string_field "type" ms;
  rec ← struct_ptr_field "record" ms;
  rec ← match rec with None => Some None | Some r => Some <$> unmarshal_record r end;
  identity ← store_all (λ _ v, match v.2 with
    | JNull => Some None | JObject o => Some <$> unmarshal_identity o | _ => None end)
    None (field_values "identity" ms);
  Some (mkTapEvent id type rec identity).

Definition ParseEvent (data : string) : outcome Event :=
  match unmarshal_event data with
  | None => Err "failed to parse tap event"
  | Some event =>
      if (te_Type event =? "")%string then Err "tap event missing type field"
      else
        (if (te_Type event =? EventTypeRecord)%string then
          match te_Record event with
          | None => Err "tap record event missing record payload"
          | Some r =>
              if (re_DID r =? "")%string then Err "tap record event missing did field"
              else if (re_Collection r =? "")%string then Err "tap record event missing collection field"
              else if (re_RKey r =? "")%string then Err "tap record event missing rkey field"
              else if (re_Action r =? "")%string then Err "tap record event missing action field"
              else Ok tt
          end
        else Ok tt) ;;
        (if (te_Type event =? EventTypeIdentity)%string then
          match te_Identity event with
          | None => Err "tap identity event missing identity payload"
          | Some i => if (ie_DID i =? "")%string then Err "tap identity event missing did field" else Ok tt
          end
        else Ok tt) ;;
        Ok event
  end.

Definition IsRecord (e : Event) : bool :=
  (te_Type e =? EventTypeRecord)%string && bool_decide (is_Some (te_Record e)).
Definition IsIdentity (e : Event) : bool :=
  (te_Type e =? EventTypeIdentity)%string && bool_decide (is_Some (te_Identity e)).

(** ** The handler (handler.go) *)

(** What the handler writes to: the database and the broker. *)
Record world := mkWorld { w_db : db; w_ps : PubSub }.

Definition on_db {A} (m : M db A) : M world A :=
  zoom w_db (λ d w, mkWorld d (w_ps w)) m.
Definition on_ps (f : PubSub → PubSub) : M world unit := modify (λ w, mkWorld (w_db w) (f (w_ps w))).

(** handler.go [IndexHandler]: the optional collaborators are present or not. *)
Record IndexHandler := mkHandler {
  h_validator : option RecordValidator;
  h_activity : bool;
  h_pubsub : bool;
  h_versions : bool;
  h_historyCollections : CollectionMatcher;
}.

Definition NewIndexHandler (activity pubsub : bool) (validators : list RecordValidator) : IndexHandler :=
  mkHandler (head validators) activity pubsub false (mkMatcher ∅ []).

Definition WithRecordHistory (h : IndexHandler) (collections : CollectionMatcher) : IndexHandler :=
  mkHandler (h_validator h) (h_activity h) (h_pubsub h) true collections.

Definition keepsHistory (h : IndexHandler) (collection : string) : bool :=
  h_versions h && Matches (h_historyCollections h) collection.

Section handler.
Context `{Env}.

Definition classify (h : IndexHandler) (event : RecordEvent) : ValidationResult :=
  ClassifyRecord (h_validator h) (re_Collection event) (re_RKey event) (re_Record event).

(** The write a create or update event asks for. *)
Definition event_write (h : IndexHandler) (event : RecordEvent) : RecordWrite :=
  let v := classify h event in
  mkWrite (URI event) (re_CID event) (re_DID event) (re_Collection event) (re_RKey event)
    (re_Record event) (res_status v) (res_error v) (res_lexicon_hash v).

Definition event_version (event : RecordEvent) : RecordVersionWrite :=
  mkVersionWrite (URI event) (re_CID event) (re_DID event) (re_Collection event)
    (if (re_Action event =? ActionUpdate)%string then RecordVersionUpdate else RecordVersionCreate)
    (Some (re_Record event)) (Some (re_Live event)).

(** Log an activity and complete it; failures are only logged. *)
Definition log_completed (operation : string) (event : RecordEvent) (eventJSON : string) : M db unit :=
  now ← gets db_clock;
  id ← attempt (LogActivity now operation (re_Collection event) (re_DID event) (re_RKey event) eventJSON);
  match id with
  | Err _ => mret tt
  | Ok id => attempt (UpdateStatus id "completed" None) ;; mret tt
  end.

Definition publish_write (h : IndexHandler) (event : RecordEvent) : PubSub → PubSub :=
  PublishRecordWithValidation
    (if (re_Action event =? ActionUpdate)%string then EventUpdate else EventCreate)
    (URI event) (re_CID event) (re_DID event) (re_Collection event) (re_Record event)
    (res_status (classify h event) =? StatusValid)%string.

Definition handle_upsert (h : IndexHandler) (event : RecordEvent) : M world unit :=
  if (re_Record event =? "")%string then mret tt
  else
    attempt (on_db (Ensure (re_DID event))) ;;
    (if keepsHistory h (re_Collection event)
     then wrap "failed to record version history" (on_db (Append (event_version event)))
     else mret tt) ;;
    writeResult ← wrap "failed to store record with validation metadata"
      (on_db (UpsertWithValidation (event_write h event)));
    (if decide (writeResult = Skipped) then mret tt
     else if h_activity h then on_db (log_completed (re_Action event) event (re_Record event))
     else mret tt) ;;
    if h_pubsub h then on_ps (publish_write h event) else mret tt.

Definition publish_deletion (event : RecordEvent) (deleted : option RecordStruct) : PubSub → PubSub :=
  match deleted with
  | Some r => PublishDelete (URI event) (rec_cid r) (rec_did r) (rec_collection r) (rec_json r)
                (rec_validation_status r =? StatusValid)%string
  | None => PublishDelete (URI event) "" (re_DID event) (re_Collection event) "" false
  end.

Definition handle_delete (h : IndexHandler) (event : RecordEvent) : M world unit :=
  deleted ← wrap "failed to delete record" (on_db (DeleteReturning (URI event)));
  (if h_pubsub h then on_ps (publish_deletion event deleted) else mret tt) ;;
  if h_activity h then on_db (log_completed "delete" event "") else mret tt.

Definition HandleRecord (h : IndexHandler) (event : RecordEvent) : M world unit :=
  if (re_Action event =? ActionCreate)%string || (re_Action event =? ActionUpdate)%string
  then handle_upsert h event
  else if (re_Action event =? ActionDelete)%string then handle_delete h event
  else mret tt.

Definition identityStatus (event : IdentityEvent) : string := to_lower (trim_space (ie_Status event)).

Definition shouldPurgeIdentity (event : IdentityEvent) : bool :=
  bool_decide (identityStatus event ∈ ["deleted"; "deactivated"; "suspended"; "takendown"]).

Definition HandleIdentity (event : IdentityEvent) : M world unit :=
  if shouldPurgeIdentity event
  then wrap "failed to purge actor data" (on_db (PurgeActorData (ie_DID event)))
  else on_db (UpsertIdentity (ie_DID event) (ie_Handle event)).

End handler.

(** ** The consumer (consumer.go) *)

(** [EventHandler]: what the consumer asks of a handler. *)
Class EventHandler (S : Type) := {
  handle_record : RecordEvent → M S unit;
  handle_identity : IdentityEvent → M S unit;
}.

Definition index_handler `{Env} (h : IndexHandler) : EventHandler world := {|
  handle_record := HandleRecord h;
  handle_identity := HandleIdentity;
|}.

Record Stats := mkStats {
  EventsReceived : Z;
  RecordsCreated : Z;
  RecordsUpdated : Z;
  RecordsDeleted : Z;
  IdentityEvents : Z;
  Errors : Z;
}.

Definition no_stats : Stats := mkStats 0 0 0 0 0 0.
Definition add_received (s : Stats) : Stats :=
  mkStats (EventsReceived s + 1) (RecordsCreated s) (RecordsUpdated s) (RecordsDeleted s)
    (IdentityEvents s) (Errors s).
Definition add_identity (s : Stats) : Stats :=
  mkStats (EventsReceived s) (RecordsCreated s) (RecordsUpdated s) (RecordsDeleted s)
    (IdentityEvents s + 1) (Errors s).
Definition add_error (s : Stats) : Stats :=
  mkStats (EventsReceived s) (RecordsCreated s) (RecordsUpdated s) (RecordsDeleted s)
    (IdentityEvents s) (Errors s + 1).
Definition incrementRecordStat (action : string) (s : Stats) : Stats :=
  mkStats (EventsReceived s)
    (RecordsCreated s + if (action =? ActionCreate)%string then 1 else 0)
    (RecordsUpdated s + if (action =? ActionUpdate)%string then 1 else 0)
    (RecordsDeleted s + if (action =? ActionDelete)%string then 1 else 0)
    (IdentityEvents s) (Errors s).

(** The consumer's state: the handler's, the counters and the messages written to the
    socket, oldest first. *)
Record consumer (S : Type) := mkConsumer { c_handler : S; c_stats : Stats; c_sent : list string }.
Arguments mkConsumer {S} c_handler c_stats c_sent.
Arguments c_handler {S} c.
Arguments c_stats {S} c.
Arguments c_sent {S} c.

Definition on_handler {S A} (m : M S A) : M (consumer S) A :=
  zoom c_handler (λ s c, mkConsumer s (c_stats c) (c_sent c)) m.
Definition count {S} (f : Stats → Stats) : M (consumer S) unit :=
  modify (λ c, mkConsumer (c_handler c) (f (c_stats c)) (c_sent c)).

Definition ack_message (id : Z) : string := quoted ("{'type':'ack','id':" +:+ itoa id +:+ "}").

Definition isWriteError (msg : string) : bool :=
  contains msg "failed to send ack" || contains msg "failed to set write deadline".

(** What reading one message gives. [write_error] is what writing its ack returns. *)
Inductive frame :=
  | FStop
  | FDeadlineError (e : string)
  | FCloseNormal
  | FReadError (e : string)
  | FOther
  | FText (data : string) (write_error : option string).

Section consumer.
Context {S : Type} `{EventHandler S}.

Definition writeText (write_error : option string) (msg : string) : M (consumer S) unit :=
  match write_error with
  | Some e => throw e
  | None => modify (λ c, mkConsumer (c_handler c) (c_stats c) (c_sent c ++ [msg]))
  end.

Definition dispatch (DisableAcks : bool) (write_error : option string) (event : Event)
    : M (consumer S) unit :=
  let ack := if DisableAcks then mret tt
    else wrap ("failed to send ack for event " +:+ itoa (te_ID event))
      (writeText write_error (ack_message (te_ID event))) in
  match (if IsRecord event then te_Record event else None),
        (if IsIdentity event then te_Identity event else None) with
  | Some r, _ => on_handler (handle_record r) ;; count (incrementRecordStat (re_Action r)) ;; ack
  | None, Some i => on_handler (handle_identity i) ;; count add_identity ;; ack
  | None, None => mret tt
  end.

(** How a connection ended: whether it was established, whether to reconnect at once,
    and the error. [Running]: the script of frames ran out first. *)
Inductive ending := Running | Ended (connected immediateReconnect : bool) (err : option string).

(** The read loop of [runOnce], on the frames the socket yields. *)
Fixpoint read_loop (DisableAcks : bool) (frames : list frame) : M (consumer S) ending :=
  match frames with
  | [] => mret Running
  | FStop :: _ => mret (Ended true false None)
  | FDeadlineError e :: _ => mret (Ended true false (Some ("failed to set read deadline: " +:+ e)))
  | FCloseNormal :: _ => mret (Ended true false None)
  | FReadError e :: _ => mret (Ended true false (Some ("read error: " +:+ e)))
  | FOther :: rest => read_loop DisableAcks rest
  | FText data write_error :: rest =>
      count add_received ;;
      match ParseEvent data with
      | Err _ => count add_error ;; read_loop DisableAcks rest
      | Ok event =>
          result ← attempt (dispatch DisableAcks write_error event);
          match result with
          | Ok _ => read_loop DisableAcks rest
          | Err e =>
              count add_error ;;
              if isWriteError e
              then mret (Ended true true (Some ("failed during Tap ack write: " +:+ e)))
              else read_loop DisableAcks rest
          end
      end
  end.

Definition runOnce (DisableAcks : bool) (dial_error : option string) (frames : list frame)
    : M (consumer S) ending :=
  match dial_error with
  | Some e => mret (Ended false false (Some ("failed to connect to Tap: " +:+ e)))
  | None => read_loop DisableAcks frames
  end.

(** Durations in nanoseconds. *)
Definition second : Z := 1000000000.
Definition minBackoff : Z := second.
Definition maxBackoff : Z := 120 * second.

Definition next_backoff (backoff : Z) : Z :=
  let b := (backoff * 2)%Z in if (maxBackoff <? b)%Z then maxBackoff else b.

(** One turn of [Start]'s loop: the connection's script and whether the consumer was
    told to stop afterwards. *)
Record session := mkSession { dial_error : option string; session_frames : list frame; stopped : bool }.

(** The reconnection loop: the pauses it makes, in order. *)
Fixpoint start_loop (DisableAcks : bool) (sessions : list session) (backoff : Z)
    : M (consumer S) (list Z) :=
  match sessions with
  | [] => mret []
  | s :: rest =>
      result ← runOnce DisableAcks (dial_error s) (session_frames s);
      match result with
      | Running => mret []
      | Ended connected immediateReconnect _ =>
          let backoff := if connected : bool then minBackoff else backoff in
          if stopped s then mret []
          else if immediateReconnect : bool then start_loop DisableAcks rest backoff
          else
            waits ← start_loop DisableAcks rest (next_backoff backoff);
            mret (backoff :: waits)
      end
  end.

Definition Start (DisableAcks : bool) (sessions : list session) : M (consumer S) (list Z) :=
  start_loop DisableAcks sessions minBackoff.

End consumer.
