(* ===== verification/TapProps.v ===== *)
(** * What Tap ingestion guarantees

    An event is stored, deleted or purged completely or its delivery fails; a
    redelivered event changes nothing; the consumer acknowledges exactly what its
    handler accepted; reconnection pauses stay within their bounds. *)
From S2P Require Import Prelude GoStrings Json Effects Database RecordStore RecordProps DeleteProps Versions VersionProps Actors PubSub Tap.

Section frame.
Context `{Env}.

Lemma on_db_inv {A} (m : M db A) w fs o w' fs' :
  on_db m w fs = (o, w', fs') → ∃ d', m (w_db w) fs = (o, d', fs') ∧ w' = mkWorld d' (w_ps w).
Proof. unfold on_db, zoom. destruct (m (w_db w) fs) as [[? ?] ?]. intros. simplify_eq. eauto. Qed.

(** The parts of the database that the actor table and the activity log leave alone. *)
Definition same_store (d d' : db) : Prop :=
  db_records d' = db_records d ∧ db_versions d' = db_versions d ∧ db_clock d' = db_clock d.

Lemma same_store_refl d : same_store d d.
Proof. done. Qed.

Lemma same_store_trans d d' d'' : same_store d d' → same_store d' d'' → same_store d d''.
Proof. intros (? & ? & ?) (? & ? & ?). split_and!; congruence. Qed.

Lemma preserves_same_store {A} (m : M db A) d0 fs o d' fs' :
  Preserves (same_store d0) m → m d0 fs = (o, d', fs') → same_store d0 d'.
Proof. intros Hm E. eapply Hm; [apply same_store_refl|exact E]. Qed.

Lemma ensure_same d0 did : Preserves (same_store d0) (Ensure did).
Proof. apply preserves_exec. intros d Hd. eapply same_store_trans; [exact Hd|done]. Qed.

Lemma log_same d0 op event j : Preserves (same_store d0) (log_completed op event j).
Proof.
  unfold log_completed. apply preserves_bind; [apply preserves_gets|intros now].
  apply preserves_bind.
  - apply preserves_attempt. apply preserves_bind; [apply preserves_of_outcome|intros].
    apply preserves_stmt. intros d id d' Hd [= _ <-]. eapply same_store_trans; [exact Hd|done].
  - intros [id|]; [|apply preserves_ret]. apply preserves_bind; [|intros; apply preserves_ret].
    apply preserves_attempt, preserves_exec. intros d Hd. eapply same_store_trans; [exact Hd|done].
Qed.

Lemma log_total op event j d fs : ∃ d' fs', log_completed op event j d fs = (Ok (), d', fs').
Proof.
  unfold log_completed, gets, attempt, mbind, M_bind.
  destruct (LogActivity _ _ _ _ _ _ d fs) as [[[id|e] d1] fs1]; [|by eexists _, _].
  destruct (UpdateStatus id "completed" None d1 fs1) as [[o d2] fs2]. by eexists _, _.
Qed.

Lemma attempt_inv {S A} (m : M S A) s fs o s' fs' :
  attempt m s fs = (o, s', fs') → ∃ o', m s fs = (o', s', fs') ∧ o = Ok o'.
Proof. unfold attempt. destruct (m s fs) as [[? ?] ?]. intros. simplify_eq. eauto. Qed.

(** What an accepted create or update leaves behind. *)
Record stored (h : IndexHandler) (event : RecordEvent) (w w' : world) : Prop := {
  st_row : ∃ res r, upserted (event_write h event) (w_db w) res r ∧
    db_records (w_db w') = <[URI event := r]> (db_records (w_db w));
  st_history : keepsHistory h (re_Collection event) = true →
    has_version (URI event) (versionKey (event_version event)) (db_versions (w_db w')) = true;
  st_versions : ∃ vs, db_versions (w_db w') = db_versions (w_db w) ++ vs ∧
    Forall (λ v, keepsHistory h (re_Collection event) = true ∧ ver_uri v = URI event) vs;
  st_published : w_ps w' = if h_pubsub h then publish_write h event (w_ps w) else w_ps w;
}.

(** The history step: at most one version is appended, and records stay. *)
Lemma history_step h event w fs o w' fs' :
  (if keepsHistory h (re_Collection event)
   then wrap "failed to record version history" (on_db (Append (event_version event)))
   else mret tt) w fs = (o, w', fs') →
  w_ps w' = w_ps w ∧ db_records (w_db w') = db_records (w_db w) ∧ db_clock (w_db w') = db_clock (w_db w) ∧
  (∃ vs, db_versions (w_db w') = db_versions (w_db w) ++ vs ∧
     Forall (λ v, keepsHistory h (re_Collection event) = true ∧ ver_uri v = URI event) vs) ∧
  (is_ok o = true → keepsHistory h (re_Collection event) = true →
     has_version (URI event) (versionKey (event_version event)) (db_versions (w_db w')) = true).
Proof.
  destruct (keepsHistory h (re_Collection event)) eqn:Hk; [|].
  - intros (o' & E & ->)%wrap_inv. rewrite is_ok_wrap. apply on_db_inv in E as (d' & E & ->). simpl.
    destruct o' as [[]|e].
    + apply append_ok in E as (json & _ & -> & _).
      set (mk := λ id, mkVersion id _ _ _ _ _ _ _ _ _).
      split_and!; [done|apply insert_version_records|apply insert_version_clock| |].
      * destruct (insert_version_cases mk (w_db w)) as [[_ ->]|[_ ->]]; [exists []; by rewrite app_nil_r|].
        eexists. split; [done|]. by repeat constructor.
      * intros _ _. apply (insert_version_has mk (w_db w)). done.
    + apply append_err in E as ->. split_and!; [done..| |done]. exists []. by rewrite app_nil_r.
  - intros [= <- <- <-]. split_and!; [done..| |done]. exists []. by rewrite app_nil_r.
Qed.

Lemma upsert_frame h event d fs o d' fs' :
  UpsertWithValidation (event_write h event) d fs = (o, d', fs') →
  db_versions d' = db_versions d ∧ db_clock d' = db_clock d ∧
  match o with
  | Ok res => ∃ r, upserted (event_write h event) d res r ∧
      db_records d' = <[URI event := r]> (db_records d)
  | Err _ => db_records d' = db_records d
  end.
Proof.
  intros E%upsert_contract. destruct o as [res|e]; [|by subst].
  destruct E as (r & -> & Hr). split_and!; [done..|]. by exists r.
Qed.

Lemma tail_step h event res w fs o w' fs' :
  ((if decide (res = Skipped) then mret tt
    else if h_activity h then on_db (log_completed (re_Action event) event (re_Record event))
    else mret tt) ;;
   if h_pubsub h then on_ps (publish_write h event) else mret tt) w fs = (o, w', fs') →
  o = Ok () ∧ same_store (w_db w) (w_db w') ∧
  w_ps w' = if h_pubsub h then publish_write h event (w_ps w) else w_ps w.
Proof.
  intros Hrun. bind_cases Hrun.
  - assert (Hs : same_store (w_db w) (w_db s) ∧ w_ps s = w_ps w).
    { case_decide; [by inv E|]. destruct (h_activity h); [|by inv E].
      apply on_db_inv in E as (d' & E & ->). split; [|done]. simpl.
      eapply preserves_same_store; [apply log_same|exact E]. }
    destruct Hs as [Hs Hp]. destruct (h_pubsub h); inv Hrun; by rewrite <- ?Hp.
  - exfalso. case_decide; [done|]. destruct (h_activity h); [|done].
    apply on_db_inv in E as (d' & E & _).
    destruct (log_total (re_Action event) event (re_Record event) (w_db w) fs) as (? & ? & Hl).
    rewrite Hl in E. done.
Qed.

Lemma handle_upsert_spec h event w fs o w' fs' :
  re_Record event ≠ "" →
  handle_upsert h event w fs = (o, w', fs') →
  match o with
  | Ok _ => stored h event w w'
  | Err _ => db_records (w_db w') = db_records (w_db w) ∧ w_ps w' = w_ps w ∧
      ∃ vs, db_versions (w_db w') = db_versions (w_db w) ++ vs ∧
        Forall (λ v, keepsHistory h (re_Collection event) = true ∧ ver_uri v = URI event) vs
  end.
Proof.
  intros Hb. unfold handle_upsert. destruct (String.eqb_spec (re_Record event) ""); [done|]. intros Hrun.
  bind_cases Hrun; apply attempt_inv in E as (o1 & E & Ho1); [|done].
  apply on_db_inv in E as (d1 & E & ->).
  apply (preserves_same_store _ _ _ _ _ _ (ensure_same _ _)) in E as (Hr1 & Hv1 & Hc1). clear Ho1.
  bind_cases Hrun; apply history_step in E as (Hp2 & Hr2 & Hc2 & (vs & Hv2 & Hvs) & Hh2); simpl in *.
  2:{ inv Hrun. split_and!; [congruence|done|]. exists vs. by rewrite Hv2, Hv1. }
  bind_cases Hrun; apply wrap_inv in E as (o3 & E & Ho3); apply on_db_inv in E as (d3 & E & ->);
    apply upsert_frame in E as (Hv3 & Hc3 & Hup); simpl in *.
  2:{ inv Hrun. destruct o3; [done|]. simpl. split_and!; [congruence|done|]. exists vs. by rewrite Hv3, Hv2, Hv1. }
  destruct o3 as [res|]; [|done]. simpl in Ho3. injection Ho3 as ->.
  destruct Hup as (r & Hup & Hr3).
  apply tail_step in Hrun as (-> & (Hr4 & Hv4 & _) & Hp4). simpl in *.
  split.
  - exists res, r. split; [|congruence]. eapply upserted_ext_db, Hup; congruence.
  - intros Hk. rewrite Hv4, Hv3. by apply Hh2.
  - exists vs. split; [congruence|done].
  - by rewrite Hp4, Hp2.
Qed.
End frame.

(** ** Record events *)

Section records.
Context `{Env}.

(** A create or update event, under every schedule of failures. If its handling
    succeeds the record row is what the validated upsert promises for the verdict of
    the configured validator, a collection with history has a version of this
    content, and exactly one event was published; if it fails, no record changed and
    nothing was published, so Tap's redelivery starts over. *)
Theorem HandleRecord_upsert h event w fs :
  (re_Action event = ActionCreate ∨ re_Action event = ActionUpdate) → re_Record event ≠ "" →
  match HandleRecord h event w fs with
  | (Ok _, w', _) => stored h event w w'
  | (Err _, w', _) => db_records (w_db w') = db_records (w_db w) ∧ w_ps w' = w_ps w ∧
      ∃ vs, db_versions (w_db w') = db_versions (w_db w) ++ vs ∧
        Forall (λ v, keepsHistory h (re_Collection event) = true ∧ ver_uri v = URI event) vs
  end.
Proof.
  intros Ha Hb. destruct (HandleRecord h event w fs) as [[o w'] fs'] eqn:E.
  unfold HandleRecord in E.
  assert ((re_Action event =? ActionCreate)%string || (re_Action event =? ActionUpdate)%string = true) as Hact
    by (destruct Ha as [-> | ->]; done).
  rewrite Hact in E. by apply handle_upsert_spec in E.
Qed.

(** The history of a URI after a successful delivery already has this version. *)
Lemma stored_row_lookup h event w w' :
  stored h event w w' → ∃ res r, db_records (w_db w') !! URI event = Some r ∧
    upserted (event_write h event) (w_db w) res r.
Proof.
  intros [(res & r & Hup & Hr) _ _ _]. exists res, r. rewrite Hr. by rewrite lookup_insert_eq.
Qed.

Lemma append_noop v d fs o d' fs' :
  has_version (vw_uri v) (versionKey v) (db_versions d) = true →
  Append v d fs = (o, d', fs') → db_versions d' = db_versions d.
Proof.
  intros Hh E. destruct o as [[]|]; [|by apply append_err in E; subst].
  apply append_ok in E as (json & _ & -> & _).
  set (mk := λ id, mkVersion id _ _ _ _ _ _ _ _ _).
  destruct (insert_version_cases mk d) as [[_ ->]|[He _]]; [done|]. simpl in He. congruence.
Qed.

Lemma history_noop h event w fs o w' fs' :
  (keepsHistory h (re_Collection event) = true →
   has_version (URI event) (versionKey (event_version event)) (db_versions (w_db w)) = true) →
  (if keepsHistory h (re_Collection event)
   then wrap "failed to record version history" (on_db (Append (event_version event)))
   else mret tt) w fs = (o, w', fs') →
  same_store (w_db w) (w_db w') ∧ w_ps w' = w_ps w.
Proof.
  intros Hh E. pose proof (history_step _ _ _ _ _ _ _ E) as (Hp & Hr & Hc & _).
  split; [|done]. split_and!; [done| |done].
  destruct (keepsHistory h (re_Collection event)); [|by inv E].
  apply wrap_inv in E as (o' & E & _). apply on_db_inv in E as (d' & E & ->).
  apply append_noop in E; [done|]. by apply Hh.
Qed.

(** Redelivery after success, at any later time and with any failures, stores
    nothing new: records and versions are as the first delivery left them. *)
Theorem HandleRecord_redelivery h event w fs w' fs' t fs2 :
  (re_Action event = ActionCreate ∨ re_Action event = ActionUpdate) →
  re_Record event ≠ "" → re_CID event ≠ "" →
  HandleRecord h event w fs = (Ok (), w', fs') →
  let w2 := (HandleRecord h event (mkWorld (at_time t (w_db w')) (w_ps w')) fs2).1.2 in
  db_records (w_db w2) = db_records (w_db w') ∧ db_versions (w_db w2) = db_versions (w_db w').
Proof.
  intros Ha Hb Hcid E w2. subst w2. unfold HandleRecord in *.
  assert ((re_Action event =? ActionCreate)%string || (re_Action event =? ActionUpdate)%string = true) as Hact
    by (destruct Ha as [-> | ->]; done).
  rewrite Hact in *. pose proof (handle_upsert_spec _ _ _ _ _ _ _ Hb E) as Hst.
  assert (Hok : is_ok (validateRecordWrite (event_write h event)) = true).
  { unfold handle_upsert in E. destruct (String.eqb_spec (re_Record event) ""); [done|].
    apply bind_ok_inv in E as (? & ? & ? & _ & E). apply bind_ok_inv in E as (? & ? & ? & _ & E).
    apply bind_ok_inv in E as (res & ? & ? & E & _). apply wrap_inv in E as (o3 & E & Ho3).
    destruct o3; [|done]. apply on_db_inv in E as (? & E & _). by eapply upsert_ok_valid. }
  destruct (stored_row_lookup _ _ _ _ Hst) as (res & r & Hr & Hup).
  destruct (handle_upsert h event (mkWorld (at_time t (w_db w')) (w_ps w')) fs2) as [[o2 w2] fs2'] eqn:E2.
  simpl. unfold handle_upsert in E2. destruct (String.eqb_spec (re_Record event) ""); [done|].
  bind_cases E2; apply attempt_inv in E0 as (o1 & E0 & Ho1); [|done].
  apply on_db_inv in E0 as (d1 & E0 & ->).
  apply (preserves_same_store _ _ _ _ _ _ (ensure_same _ _)) in E0 as (Hr1 & Hv1 & _). simpl in *.
  bind_cases E2; apply history_noop in E0 as [(Hr2 & Hv2 & _) Hp2]; simpl in *;
    try (intros Hk; rewrite Hv1; by apply (st_history _ _ _ _ Hst)).
  2:{ inv E2. split; congruence. }
  assert (Hlook : db_records (w_db s) !! rw_uri (event_write h event) = Some r)
    by (change (rw_uri (event_write h event)) with (URI event); congruence).
  bind_cases E2; apply wrap_inv in E0 as (o3 & E0 & Ho3); apply on_db_inv in E0 as (d3 & E0 & ->);
    rewrite (upserted_again (event_write h event) _ _ _ _ _ Hcid Hok Hup Hlook) in E0;
    injection E0 as <- <- <-; simpl in *.
  - apply tail_step in E2 as (_ & (Hr4 & Hv4 & _) & _). simpl in *. split; congruence.
  - inv E2. simpl. split; congruence.
Qed.

Lemma handle_delete_frame h event w fs o w' fs' :
  handle_delete h event w fs = (o, w', fs') →
  match o with
  | Ok _ => ∃ deleted d1 fs1, DeleteReturning (URI event) (w_db w) fs = (Ok deleted, d1, fs1) ∧
      same_store d1 (w_db w') ∧
      w_ps w' = if h_pubsub h then publish_deletion event deleted (w_ps w) else w_ps w
  | Err _ => w' = w
  end.
Proof.
  unfold handle_delete. intros Hrun.
  bind_cases Hrun; apply wrap_inv in E as (o1 & E & Ho1); apply on_db_inv in E as (d1 & E & ->).
  2:{ inv Hrun. destruct o1; [done|]. apply transaction_err in E. subst. by destruct w. }
  destruct o1 as [deleted|]; [|done]. injection Ho1 as ->.
  bind_cases Hrun.
  2:{ exfalso. by destruct (h_pubsub h). }
  assert (Hs : w_db s = d1 ∧ w_ps s = if h_pubsub h then publish_deletion event deleted (w_ps w) else w_ps w).
  { destruct (h_pubsub h); by inv E0. }
  destruct Hs as [<- Hp]. destruct (h_activity h).
  - apply on_db_inv in Hrun as (d2 & E2 & ->).
    destruct (log_total "delete" event "" (w_db s) fs1) as (? & ? & Hl).
    rewrite Hl in E2. injection E2 as <- <- <-.
    exists deleted, (w_db s), fs0. split_and!; [done| |done].
    eapply preserves_same_store; [apply log_same|exact Hl].
  - inv Hrun. by exists deleted, (w_db w'), fs0.
Qed.
End records.

(** ** Deletions and identities *)

Section deletions.
Context `{Env}.

(** A delete event: if its handling fails nothing changed at all; if it succeeds the
    record and its whole version history are gone, every other record and version
    stays, and the published deletion carries the removed row's data. *)
Theorem HandleRecord_delete h event w fs :
  re_Action event = ActionDelete →
  match HandleRecord h event w fs with
  | (Ok _, w', _) =>
      db_records (w_db w') = delete (URI event) (db_records (w_db w)) ∧
      db_versions (w_db w') = filter (λ v, (ver_uri v =? URI event)%string = false) (db_versions (w_db w)) ∧
      ∃ deleted, w_ps w' = (if h_pubsub h then publish_deletion event deleted (w_ps w) else w_ps w) ∧
        match deleted, db_records (w_db w) !! URI event with
        | Some x, Some r => scan_record (URI event, r) = Ok x
        | None, None => True
        | _, _ => False
        end
  | (Err _, w', _) => w' = w
  end.
Proof.
  intros Ha. destruct (HandleRecord h event w fs) as [[o w'] fs'] eqn:E.
  unfold HandleRecord in E. rewrite Ha in E. cbn in E.
  apply handle_delete_frame in E. destruct o as [[]|]; [|done].
  destruct E as (deleted & d1 & fs1 & E & (Hr & Hv & _) & Hp). apply delete_returning_spec in E.
  rewrite Hr, Hv. destruct deleted as [x|].
  - destruct E as (-> & r & Hrow & Hscan). split_and!; [done|done|]. exists (Some x). by rewrite Hrow.
  - destruct E as (-> & Hrow). simpl. rewrite delete_id by done. split_and!; [done|done|].
    exists None. by rewrite Hrow.
Qed.

(** An identity event: a status that, trimmed and in lower case, is deleted,
    deactivated, suspended or takendown purges everything of the account; any other
    status (whatever [is_active] says) only replaces the actor's handle. A failure
    changes nothing. *)
Theorem HandleIdentity_correct event w fs :
  match HandleIdentity event w fs with
  | (Ok _, w', _) => w_ps w' = w_ps w ∧ w_db w' =
      (if bool_decide (identityStatus event ∈ ["deleted"; "deactivated"; "suspended"; "takendown"])
       then without_actor (ie_DID event) (w_db w)
       else set_actors (<[ie_DID event := mkActor (Some (ie_Handle event)) (db_clock (w_db w))]>) (w_db w))
  | (Err _, w', _) => w' = w
  end.
Proof.
  destruct (HandleIdentity event w fs) as [[o w'] fs'] eqn:E.
  unfold HandleIdentity, shouldPurgeIdentity in E. destruct (bool_decide _).
  - apply wrap_inv in E as (o1 & E & ->). apply on_db_inv in E as (d' & E & ->).
    apply purge_spec in E. destruct o1; subst; [done|by destruct w].
  - apply on_db_inv in E as (d' & E & ->). destruct o as [[]|].
    + by apply exec_ok_inv in E as ->.
    + apply stmt_err_inv in E. subst. by destruct w.
Qed.
End deletions.

(** ** The consumer *)

Section consumer.
Context {S : Type} `{EventHandler S}.

(** What the handler is asked for an event; [None] for an event of no known type. *)
Definition run_handler (event : Event) : option (M S unit) :=
  match (if IsRecord event then te_Record event else None),
        (if IsIdentity event then te_Identity event else None) with
  | Some r, _ => Some (handle_record r)
  | None, Some i => Some (handle_identity i)
  | None, None => None
  end.

Lemma on_handler_bind {A B} (m : M S A) (f : A → M (consumer S) B) c fs :
  (on_handler m ≫= f) c fs =
  match m (c_handler c) fs with
  | (Ok a, s', fs') => f a (mkConsumer s' (c_stats c) (c_sent c)) fs'
  | (Err e, s', fs') => (Err e, mkConsumer s' (c_stats c) (c_sent c), fs')
  end.
Proof.
  unfold on_handler, zoom, mbind, M_bind. by destruct (m (c_handler c) fs) as [[[a|e] s'] fs'].
Qed.

(** One dispatch: the handler runs once, and an ack is sent iff it succeeded (and
    acks are on and the socket takes it). *)
Definition dispatch_result (disable : bool) (werr : option string) (event : Event) (m : M S unit)
    (c : consumer S) (fs : faults) (o : outcome unit) (c' : consumer S) : Prop :=
  ∃ oh s' fs1, m (c_handler c) fs = (oh, s', fs1) ∧ c_handler c' = s' ∧
    match oh with
    | Err e => o = Err e ∧ c_sent c' = c_sent c
    | Ok _ => match (if disable then None else Some werr) with
        | None => o = Ok () ∧ c_sent c' = c_sent c
        | Some None => o = Ok () ∧ c_sent c' = c_sent c ++ [ack_message (te_ID event)]
        | Some (Some e) => c_sent c' = c_sent c ∧
            o = Err ("failed to send ack for event " +:+ itoa (te_ID event) +:+ ": " +:+ e)
        end
    end.

Lemma handle_and_ack (m : M S unit) f disable werr event (c : consumer S) fs o c' fs' :
  (on_handler m ;; count f ;;
   if disable : bool then mret tt
   else wrap ("failed to send ack for event " +:+ itoa (te_ID event))
      (writeText werr (ack_message (te_ID event)))) c fs = (o, c', fs') →
  dispatch_result disable werr event m c fs o c'.
Proof.
  rewrite on_handler_bind. unfold dispatch_result.
  destruct (m (c_handler c) fs) as [[[[]|e] s'] fs1]; intros Hrun; eexists _, _, _; split; try done.
  - destruct disable; [by inv Hrun|]. destruct werr; inv Hrun; by rewrite ?append_assoc.
  - by inv Hrun.
Qed.

Lemma dispatch_spec disable werr event (c : consumer S) fs o c' fs' :
  dispatch disable werr event c fs = (o, c', fs') →
  match run_handler event with
  | None => o = Ok () ∧ c' = c
  | Some m => dispatch_result disable werr event m c fs o c'
  end.
Proof.
  unfold dispatch, run_handler. intros Hrun.
  destruct (if IsRecord event then te_Record event else None) as [r|];
    [|destruct (if IsIdentity event then te_Identity event else None) as [i|]; [|by inv Hrun]];
    by eapply handle_and_ack.
Qed.

(** An ack that cannot be written is recognised by its error text. *)
Lemma contains_prefix p s : contains (p +:+ s) p = true.
Proof.
  unfold contains. destruct p as [|c p]; [by destruct s|]. rewrite append_cons. cbn.
  destruct (Ascii.ascii_dec c c); [|done]. by rewrite prefix_append.
Qed.

(** The handler runs along a connection: which events were handled and whether the
    handler accepted them. *)
Inductive handler_trace : S → list (Event * bool) → S → Prop :=
  | trace_nil s : handler_trace s [] s
  | trace_snoc s tr s1 event m fs o s2 fs' :
      handler_trace s tr s1 → run_handler event = Some m → m s1 fs = (o, s2, fs') →
      handler_trace s (tr ++ [(event, is_ok o)]) s2.

Definition acks (tr : list (Event * bool)) : list string :=
  omap (λ p : Event * bool, if p.2 then Some (ack_message (te_ID p.1)) else None) tr.

Definition parsed (frames : list frame) : list Event :=
  omap (λ f, match f with FText data _ => match ParseEvent data with Ok e => Some e | Err _ => None end
             | _ => None end) frames.

(** What is known of the consumer while it reads: every ack sent belongs to an event
    the handler accepted. *)
Record reading (c0 : S) (sent0 : list string) (tr : list (Event * bool)) (c : consumer S) : Prop := {
  rd_trace : handler_trace c0 tr (c_handler c);
  rd_sent : c_sent c = sent0 ++ acks tr;
}.

Lemma acks_app tr tr' : acks (tr ++ tr') = acks tr ++ acks tr'.
Proof. apply omap_app. Qed.

(** How a read loop ends: the acks are those of the accepted events, except that
    the last accepted one may have failed to be acknowledged. *)
Definition loop_result (c0 : S) (sent0 : list string) (tr : list (Event * bool))
    (evs : list Event) (e : ending) (c' : consumer S) : Prop :=
  ∃ tr', (tr'.*1) `sublist_of` evs ∧ handler_trace c0 (tr ++ tr') (c_handler c') ∧
    (c_sent c' = sent0 ++ acks (tr ++ tr') ∨
     ∃ tr0 event msg, tr' = tr0 ++ [(event, true)] ∧ e = Ended true true (Some msg) ∧
       c_sent c' = sent0 ++ acks (tr ++ tr0)).

Lemma loop_result_cons c0 sent0 tr p ev evs e c' :
  ev = p.1 → loop_result c0 sent0 (tr ++ [p]) evs e c' → loop_result c0 sent0 tr (ev :: evs) e c'.
Proof.
  intros -> (tr' & Hsub & Htr & Hs). exists (p :: tr').
  rewrite <- app_assoc in Htr. split_and!; [by apply sublist_skip|done|].
  destruct Hs as [Hs|(tr0 & event & msg & -> & -> & Hs)].
  - left. by rewrite <- app_assoc in Hs.
  - right. exists (p :: tr0), event, msg. by rewrite <- app_assoc in Hs.
Qed.

Lemma loop_result_skip c0 sent0 tr ev evs e c' :
  loop_result c0 sent0 tr evs e c' → loop_result c0 sent0 tr (ev :: evs) e c'.
Proof.
  intros (tr' & Hsub & Hrest). exists tr'. split; [by apply sublist_cons|done].
Qed.

Lemma loop_result_stop c0 sent0 tr evs e c : reading c0 sent0 tr c → loop_result c0 sent0 tr evs e c.
Proof.
  intros [Htr Hs]. exists []. rewrite app_nil_r.
  split_and!; [apply sublist_nil_l|done|by left].
Qed.

Lemma reading_stats c0 sent0 tr (c : consumer S) f :
  reading c0 sent0 tr c → reading c0 sent0 tr (mkConsumer (c_handler c) f (c_sent c)).
Proof. by intros []. Qed.

Lemma trace_step c0 tr s1 event m fs oh s2 fs' :
  handler_trace c0 tr s1 → run_handler event = Some m → m s1 fs = (oh, s2, fs') →
  handler_trace c0 (tr ++ [(event, is_ok oh)]) s2.
Proof. intros. by eapply trace_snoc. Qed.

Lemma attempt_bind {A B} (m : M (consumer S) A) (f : outcome A → M (consumer S) B) c fs :
  (attempt m ≫= f) c fs = let '(o, c1, fs1) := m c fs in f o c1 fs1.
Proof. unfold attempt, mbind, M_bind. by destruct (m c fs) as [[o c1] fs1]. Qed.

Lemma read_loop_spec frames c0 sent0 tr c fs o c' fs' :
  reading c0 sent0 tr c → read_loop false frames c fs = (o, c', fs') →
  ∃ e, o = Ok e ∧ loop_result c0 sent0 tr (parsed frames) e c'.
Proof.
  revert tr c fs. induction frames as [|f frames IH]; intros tr c fs Hrd Hrun.
  { inv Hrun. eexists. split; [done|]. by apply loop_result_stop. }
  destruct f as [|e| |e| |data werr]; cbn [read_loop parsed omap list_omap] in *;
    try (inv Hrun; eexists; split; [done|]; by apply loop_result_stop); [by eapply IH|].
  change ((count add_received ≫= ?k) c fs) with
    (k () (mkConsumer (c_handler c) (add_received (c_stats c)) (c_sent c)) fs) in Hrun.
  cbn beta in Hrun. apply (reading_stats _ _ _ _ (add_received (c_stats c))) in Hrd.
  set (c1 := mkConsumer _ _ _) in *.
  destruct (ParseEvent data) as [event|].
  2:{ cbn in Hrun. eapply IH; [|exact Hrun]. by apply reading_stats. }
  rewrite attempt_bind in Hrun. destruct (dispatch false werr event c1 fs) as [[od c2] fs2] eqn:Ed.
  apply dispatch_spec in Ed. destruct (run_handler event) as [m|] eqn:Hm.
  2:{ destruct Ed as [-> ->]. destruct (IH _ _ _ Hrd Hrun) as (e & -> & Hl).
      exists e. split; [done|]. by apply loop_result_skip. }
  destruct Ed as (oh & s' & fs1 & Hh & <- & Hcase).
  pose proof (trace_step _ _ _ _ _ _ _ _ _ (rd_trace _ _ _ _ Hrd) Hm Hh) as Htr.
  pose proof (rd_sent _ _ _ _ Hrd) as Hsent.
  destruct oh as [[]|eh]; [destruct werr as [ew|]|]; simpl in Htr.
  - destruct Hcase as [Hs ->]. cbn in Hrun.
    assert (Hw : isWriteError ("failed to send ack for event " +:+ itoa (te_ID event) +:+ ": " +:+ ew) = true).
    { unfold isWriteError. change "failed to send ack for event " with ("failed to send ack" +:+ " for event ").
      by rewrite append_assoc, contains_prefix. }
    rewrite Hw in Hrun. inv Hrun. eexists. split; [done|].
    exists [(event, true)]. split_and!; [apply sublist_skip, sublist_nil_l|done|].
    right. eexists [], event, _. split_and!; [done|done|]. simpl. rewrite app_nil_r. congruence.
  - destruct Hcase as [-> Hs]. assert (Hrd2 : reading c0 sent0 (tr ++ [(event, true)]) c2).
    { split; [done|]. rewrite Hs, Hsent, acks_app. by rewrite app_assoc. }
    destruct (IH _ _ _ Hrd2 Hrun) as (e & -> & Hl). exists e. split; [done|].
    by apply (loop_result_cons _ _ _ (event, true)).
  - destruct Hcase as [-> Hs]. cbn in Hrun. assert (Hrd2 : reading c0 sent0 (tr ++ [(event, false)]) c2).
    { split; [done|]. rewrite Hs, Hsent, acks_app. by rewrite app_nil_r. }
    apply (reading_stats _ _ _ _ (add_error (c_stats c2))) in Hrd2.
    destruct (isWriteError eh).
    + inv Hrun. eexists. split; [done|]. apply (loop_result_cons _ _ _ (event, false)); [done|]. by apply loop_result_stop.
    + destruct (IH _ _ _ Hrd2 Hrun) as (e & -> & Hl). exists e. split; [done|].
      by apply (loop_result_cons _ _ _ (event, false)).
Qed.

(** C26. Acknowledgement is at-least-once delivery: for every connection, whatever the
    socket yields and whatever fails, the read loop ends normally, the events the handler ran
    on are parsed ones in their order, none twice, and the acks written are
    those of the events it accepted: a rejected event is never acknowledged, and only
    an accepted event whose ack could not be written (which ends the connection with
    an immediate reconnect) misses its ack. *)
Theorem consumer_acks frames (c : consumer S) fs :
  let '(o, c', _) := runOnce false None frames c fs in
  ∃ e tr, o = Ok e ∧ (tr.*1) `sublist_of` parsed frames ∧
    handler_trace (c_handler c) tr (c_handler c') ∧
    (c_sent c' = c_sent c ++ acks tr ∨
     ∃ tr0 event msg, tr = tr0 ++ [(event, true)] ∧ e = Ended true true (Some msg) ∧
       c_sent c' = c_sent c ++ acks tr0).
Proof.
  destruct (runOnce false None frames c fs) as [[o c'] fs'] eqn:E. cbn [runOnce] in E.
  assert (Hrd : reading (c_handler c) (c_sent c) [] c).
  { split; [constructor|]. by rewrite app_nil_r. }
  destruct (read_loop_spec _ _ _ _ _ _ _ _ _ Hrd E) as (e & -> & tr & Hsub & Htr & Hs).
  exists e, tr. split_and!; [done|done|done|exact Hs].
Qed.

(** ** Reconnection *)

Lemma next_backoff_bounds b :
  (minBackoff ≤ b ≤ maxBackoff)%Z → (minBackoff ≤ next_backoff b ≤ maxBackoff)%Z.
Proof.
  unfold next_backoff, minBackoff, maxBackoff, second.
  intros. destruct (Z.ltb_spec (120 * 1000000000) (b * 2)); lia.
Qed.

Lemma start_loop_bounds disable sessions b (c : consumer S) fs waits c' fs' :
  (minBackoff ≤ b ≤ maxBackoff)%Z →
  start_loop disable sessions b c fs = (Ok waits, c', fs') →
  Forall (λ w, minBackoff ≤ w ≤ maxBackoff)%Z waits.
Proof.
  revert b c fs waits. induction sessions as [|s sessions IH]; intros b c fs waits Hb Hrun.
  { inv Hrun. constructor. }
  cbn [start_loop] in Hrun. apply bind_ok_inv in Hrun as (e & c1 & fs1 & _ & Hrun).
  destruct e as [|connected imm err]; [by inv Hrun|].
  set (b' := if connected then minBackoff else b) in *.
  assert (Hb' : (minBackoff ≤ b' ≤ maxBackoff)%Z).
  { unfold b'. destruct connected; [|done]. unfold minBackoff, maxBackoff, second. lia. }
  destruct (stopped s); [by inv Hrun|]. destruct imm; [by eapply IH|].
  apply bind_ok_inv in Hrun as (waits' & c2 & fs2 & E & Hrun). inv Hrun.
  constructor; [done|]. eapply IH; [|exact E]. by apply next_backoff_bounds.
Qed.

(** The pauses of [n] connections in a row that are never established. *)
Fixpoint pauses (n : nat) (b : Z) : list Z :=
  match n with O => [] | Datatypes.S n' => b :: pauses n' (next_backoff b) end.

Lemma pauses_doubling n k :
  pauses n (Z.min (2 ^ Z.of_nat k * second) maxBackoff) =
  (λ i, Z.min (2 ^ Z.of_nat i * second) maxBackoff) <$> seq k n.
Proof.
  revert k. induction n as [|n IH]; intros k; [done|]. cbn. f_equal. rewrite <- IH. f_equal.
  unfold next_backoff. rewrite Nat2Z.inj_succ, Z.pow_succ_r by lia.
  assert (0 < 2 ^ Z.of_nat k)%Z by (apply Z.pow_pos_nonneg; lia).
  unfold maxBackoff, second in *.
  match goal with |- context [(?a <? ?b)%Z] => destruct (Z.ltb_spec a b) end; lia.
Qed.

Lemma failed_dials disable e n b (c : consumer S) fs :
  start_loop disable (replicate n (mkSession (Some e) [] false)) b c fs =
  (Ok (pauses n b), c, fs).
Proof.
  revert b. induction n as [|n IH]; intros b; [done|].
  cbn [replicate start_loop runOnce dial_error].
  etrans; [apply (bind_ok (mret _) _ c fs _ c fs eq_refl)|]. cbn [stopped].
  rewrite (bind_ok _ _ c fs _ c fs (IH (next_backoff b))). done.
Qed.

(** Reconnection pauses: every pause is between one second and two minutes, and
    connections that keep failing are retried after 1, 2, 4, ... seconds, capped at
    two minutes. *)
Theorem Start_backoff disable sessions (c : consumer S) fs :
  (∀ waits c' fs', Start disable sessions c fs = (Ok waits, c', fs') →
     Forall (λ w, minBackoff ≤ w ≤ maxBackoff)%Z waits) ∧
  ∀ n e, (Start disable (replicate n (mkSession (Some e) [] false)) c fs).1.1 =
    Ok ((λ i, Z.min (2 ^ Z.of_nat i * second) maxBackoff) <$> seq 0 n).
Proof.
  split.
  - intros waits c' fs'. apply start_loop_bounds. unfold minBackoff, maxBackoff, second. lia.
  - intros n e. unfold Start. rewrite failed_dials, <- pauses_doubling. done.
Qed.
End consumer.

(** ** Witnesses *)

Definition example_handler : IndexHandler :=
  WithRecordHistory (NewIndexHandler true true [Disabled]) (NewCollectionMatcher "app.*").

Definition example_record (action cid : string) : RecordEvent :=
  mkRecordEvent true "r1" "did:plc:a" "app.x" "1" action cid "{}".

Definition example_world : world := mkWorld (empty_db 5) NewPubSub.

Lemma HandleRecord_upsert_witness :
  let _ := example_env SQLite in
  let event := example_record ActionCreate "c1" in
  let '(o, w', fs') := HandleRecord example_handler event example_world [true] in
  is_ok o = true ∧ match (o, w', fs') with
    | (Ok _, w', _) => stored example_handler event example_world w'
    | (Err _, w', _) => db_records (w_db w') = db_records (w_db example_world)
    end.
Proof.
  intros e event.
  pose proof (HandleRecord_upsert (H := e) example_handler event example_world [true]
    (or_introl eq_refl) ltac:(done)) as Hspec.
  assert (Hok : is_ok (HandleRecord (H := e) example_handler event example_world [true]).1.1 = true)
    by by vm_compute.
  destruct (HandleRecord example_handler event example_world [true]) as [[[u|err] w'] fs']; [|done].
  split; [done|exact Hspec].
Defined.

Lemma HandleRecord_redelivery_witness :
  let _ := example_env SQLite in
  let event := example_record ActionUpdate "c1" in
  let w' := (HandleRecord example_handler event example_world []).1.2 in
  let w2 := (HandleRecord example_handler event (mkWorld (at_time 9 (w_db w')) (w_ps w')) [false; true]).1.2 in
  db_records (w_db w2) = db_records (w_db w') ∧ db_versions (w_db w2) = db_versions (w_db w').
Proof.
  intros e event w'.
  apply (HandleRecord_redelivery (H := e) example_handler event example_world [] w' []);
    [by right|done|done|by vm_compute].
Defined.

Lemma HandleRecord_delete_witness :
  let _ := example_env SQLite in
  let w := (HandleRecord example_handler (example_record ActionCreate "c1") example_world []).1.2 in
  let '(o, w', _) := HandleRecord example_handler (example_record ActionDelete "") w [] in
  is_ok o = true ∧ db_records (w_db w') = delete "at://did:plc:a/app.x/1" (db_records (w_db w)).
Proof.
  intros e w. set (event := example_record ActionDelete "").
  pose proof (HandleRecord_delete (H := e) example_handler event w [] eq_refl) as Hspec.
  assert (Hok : is_ok (HandleRecord (H := e) example_handler event w []).1.1 = true) by by vm_compute.
  destruct (HandleRecord example_handler event w []) as [[[u|err] w'] fs']; [|done].
  split; [done|]. exact (proj1 Hspec).
Defined.
