(* ===== verification/Jetstream.v ===== *)
(** * Jetstream ingestion

    src/internal/jetstream: events (event.go), the handling of commits and the cursor kept
    in the configuration table (consumer.go). The websocket client is left out: the events
    it yields are an argument. *)
From S2P Require Import Prelude GoStrings Json Effects Database RecordStore Config Actors PubSub Tap.

(** ** Events (event.go) *)

Definition EventTypeCommit : string := "commit".
Definition OpCreate : string := "create".
Definition OpUpdate : string := "update".
Definition OpDelete : string := "delete".

Record CommitEvent := mkCommit {
  ce_Rev : string;
  ce_Operation : string;
  ce_Collection : string;
  ce_RKey : string;
  ce_Record : string;
  ce_CID : string;
}.

Record Event := mkEvent { ev_DID : string; ev_TimeUS : Z; ev_Kind : string; ev_Commit : option CommitEvent }.

Definition commit_uri (c : CommitEvent) (did : string) : string := at_uri did (ce_Collection c) (ce_RKey c).

Definition unmarshal_commit (ms : list member) : option CommitEvent :=
  rev ← string_field "rev" ms; operation ← string_field "operation" ms; collection ← string_field "collection" ms;
  rkey ← string_field "rkey" ms; cid ← string_field "cid" ms;
  Some (mkCommit rev operation collection rkey (raw_field "record" ms) cid).

Definition ParseEvent (data : string) : outcome Event :=
  match (ms ← struct_members data;
    did ← string_field "did" ms; time_us ← int64_field "time_us" ms; kind ← string_field "kind" ms;
    commit ← struct_ptr_field "commit" ms;
    commit ← match commit with None => Some None | Some c => Some <$> unmarshal_commit c end;
    Some (mkEvent did time_us kind commit)) with
  | None => Err "failed to parse event"
  | Some event => Ok event
  end.

Definition IsCommit (e : Event) : bool := (ev_Kind e =? EventTypeCommit)%string && bool_decide (is_Some (ev_Commit e)).
Definition commit_operation (op : string) (e : Event) : bool :=
  IsCommit e && match ev_Commit e with Some c => (ce_Operation c =? op)%string | None => false end.
Definition IsCreate : Event → bool := commit_operation OpCreate.
Definition IsUpdate : Event → bool := commit_operation OpUpdate.
Definition IsDelete : Event → bool := commit_operation OpDelete.

(** ** Commits (consumer.go) *)

Record Stats := mkStats {
  EventsReceived : Z;
  RecordsCreated : Z;
  RecordsUpdated : Z;
  RecordsDeleted : Z;
  Errors : Z;
}.

Definition add_received (s : Stats) : Stats := mkStats (EventsReceived s + 1) (RecordsCreated s) (RecordsUpdated s) (RecordsDeleted s) (Errors s).
Definition add_error (s : Stats) : Stats := mkStats (EventsReceived s) (RecordsCreated s) (RecordsUpdated s) (RecordsDeleted s) (Errors s + 1).
Definition add_deleted (s : Stats) : Stats := mkStats (EventsReceived s) (RecordsCreated s) (RecordsUpdated s) (RecordsDeleted s + 1) (Errors s).
Definition add_written (operation : string) (result : InsertResult) (s : Stats) : Stats :=
  match result with
  | Skipped => s
  | Inserted =>
      if (operation =? OpCreate)%string
      then mkStats (EventsReceived s) (RecordsCreated s + 1) (RecordsUpdated s) (RecordsDeleted s) (Errors s)
      else mkStats (EventsReceived s) (RecordsCreated s) (RecordsUpdated s + 1) (RecordsDeleted s) (Errors s)
  end.

(** What handling a commit changes: the database, the broker and the counters. *)
Record sink := mkSink { k_world : world; k_stats : Stats }.

Definition on_world {A} (m : M world A) : M sink A := zoom k_world (λ w k, mkSink w (k_stats k)) m.
Definition count (f : Stats → Stats) : M sink unit := modify (λ k, mkSink (k_world k) (f (k_stats k))).

(** The optional collaborators of [Consumer]. *)
Record Collaborators := mkCollaborators { jc_validator : option RecordValidator; jc_activity : bool; jc_pubsub : bool }.

Section commits.
Context `{Env} (c : Collaborators).

Definition commit_verdict (commit : CommitEvent) : ValidationResult :=
  ClassifyRecord (jc_validator c) (ce_Collection commit) (ce_RKey commit) (ce_Record commit).

Definition commit_write (did : string) (commit : CommitEvent) : RecordWrite :=
  let v := commit_verdict commit in
  mkWrite (commit_uri commit did) (ce_CID commit) did (ce_Collection commit) (ce_RKey commit) (ce_Record commit)
    (res_status v) (res_error v) (res_lexicon_hash v).

(** The id of the logged activity, 0 when there is none. *)
Definition log_activity (did : string) (commit : CommitEvent) : M sink Z :=
  if jc_activity c then
    processedAt ← gets (λ k, db_clock (w_db (k_world k)));
    id ← attempt (on_world (on_db (LogActivity processedAt (ce_Operation commit) (ce_Collection commit) did (ce_RKey commit) (ce_Record commit))));
    mret (match id with Ok id => id | Err _ => 0%Z end)
  else mret 0%Z.

Definition updateActivityStatus (activityID : Z) (status : string) (errMsg : option string) : M sink unit :=
  if jc_activity c && (0 <? activityID)%Z
  then attempt (on_world (on_db (UpdateStatus activityID status errMsg))) ;; mret tt
  else mret tt.

Definition publish_commit (did : string) (commit : CommitEvent) : PubSub → PubSub :=
  PublishRecordWithValidation (if (ce_Operation commit =? OpUpdate)%string then EventUpdate else EventCreate)
    (commit_uri commit did) (ce_CID commit) did (ce_Collection commit) (ce_Record commit)
    (res_status (commit_verdict commit) =? StatusValid)%string.

Definition publish_deleted (did : string) (commit : CommitEvent) (deleted : option RecordStruct) : PubSub → PubSub :=
  match deleted with
  | Some r => PublishDelete (commit_uri commit did) (rec_cid r) (rec_did r) (rec_collection r) (rec_json r)
                (rec_validation_status r =? StatusValid)%string
  | None => PublishDelete (commit_uri commit did) (ce_CID commit) did (ce_Collection commit) "" false
  end.

(** A repository call of a commit: its error ends the activity and the commit. *)
Definition or_failed {A} (activityID : Z) (msg : string) (m : M sink A) : M sink A :=
  result ← attempt m;
  match result with
  | Err e => updateActivityStatus activityID "error" (Some e) ;; throw (msg +:+ ": " +:+ e)
  | Ok a => mret a
  end.

Definition handle_write (did : string) (commit : CommitEvent) (activityID : Z) : M sink unit :=
  attempt (on_world (on_db (Ensure did))) ;;
  writeResult ← or_failed activityID "failed to store record with validation metadata"
    (on_world (on_db (UpsertWithValidation (commit_write did commit))));
  count (add_written (ce_Operation commit) writeResult) ;;
  (if jc_pubsub c then on_world (on_ps (publish_commit did commit)) else mret tt) ;;
  updateActivityStatus activityID "success" None.

Definition handle_removal (did : string) (commit : CommitEvent) (activityID : Z) : M sink unit :=
  deleted ← or_failed activityID "failed to delete record" (on_world (on_db (DeleteReturning (commit_uri commit did))));
  count add_deleted ;;
  (if jc_pubsub c then on_world (on_ps (publish_deleted did commit deleted)) else mret tt) ;;
  updateActivityStatus activityID "success" None.

Definition handleCommit (did : string) (commit : CommitEvent) : M sink unit :=
  activityID ← log_activity did commit;
  if (ce_Operation commit =? OpCreate)%string || (ce_Operation commit =? OpUpdate)%string
  then handle_write did commit activityID
  else if (ce_Operation commit =? OpDelete)%string then handle_removal did commit activityID
  else mret tt.
End commits.

(** ** The cursor *)

Definition cursor_key : string := "jetstream_cursor".

(** [json.Unmarshal] into an int64. *)
Definition unmarshal_int64 (text : string) : option Z :=
  match json_parse text with
  | Some JNull => Some 0%Z
  | Some (JNumber l) => n ← literal_int l; if in_int64 n then Some n else None
  | _ => None
  end.

Definition loadCursor : M config Z :=
  value ← Get cursor_key;
  if (value =? "")%string then mret 0%Z
  else of_outcome (match unmarshal_int64 value with Some n => Ok n | None => Err "json: cannot unmarshal" end).

Definition saveCursor (cursor : Z) : M config unit := Set_ cursor_key (itoa cursor).

(** The consumer between its goroutines' steps. *)
Record jet := mkJet { j_sink : sink; j_config : config; j_cursor : Z }.

Definition on_sink {A} (m : M sink A) : M jet A := zoom j_sink (λ k j, mkJet k (j_config j) (j_cursor j)) m.
Definition on_config {A} (m : M config A) : M jet A := zoom j_config (λ g j, mkJet (j_sink j) g (j_cursor j)) m.
Definition set_cursor (t : Z) : M jet unit := modify (λ j, mkJet (j_sink j) (j_config j) t).

Section consumer.
Context `{Env} (c : Collaborators).

(** One turn of [processEvents]: whether the event was accepted. *)
Definition process_event (event : Event) : M jet bool :=
  on_sink (count add_received) ;;
  result ← (match (if IsCommit event then ev_Commit event else None) with
    | Some commit => attempt (on_sink (handleCommit c (ev_DID event) commit))
    | None => mret (Ok tt)
    end);
  match result with
  | Err _ => on_sink (count add_error) ;; mret false
  | Ok _ => set_cursor (ev_TimeUS event) ;; mret true
  end.

Fixpoint processEvents (events : list Event) : M jet unit :=
  match events with
  | [] => mret tt
  | e :: rest => process_event e ;; processEvents rest
  end.

(** A tick of [cursorFlusher]; the result is the new [lastFlushed]. *)
Definition flusher_tick (lastFlushed : Z) : M jet Z :=
  cursor ← gets j_cursor;
  if (lastFlushed <? cursor)%Z then
    saved ← attempt (on_config (saveCursor cursor));
    mret (match saved with Ok _ => cursor | Err _ => lastFlushed end)
  else mret lastFlushed.

Definition flushCursor : M jet unit :=
  cursor ← gets j_cursor;
  if (0 <? cursor)%Z then attempt (on_config (saveCursor cursor)) ;; mret tt else mret tt.

(** The cursor a connection asks Jetstream to resume from (client.go [buildURL]). *)
Definition resume_cursor (DisableCursor : bool) : M jet (option Z) :=
  cursor ← attempt (on_config loadCursor);
  let cursor := match cursor with Ok n => n | Err _ => 0%Z end in
  mret (if (0 <? cursor)%Z && negb DisableCursor then Some cursor else None).

(** What happens during a connection: an event is processed, the flusher ticks, and at
    the end it flushes. *)
Inductive jet_label := JEvent (event : Event) (accepted : bool) | JTick | JFlush.

Inductive jet_step : jet * Z → jet_label → jet * Z → Prop :=
  | jet_event j last event ok fs j' fs' :
      process_event event j fs = (Ok ok, j', fs') → jet_step (j, last) (JEvent event ok) (j', last)
  | jet_tick j last last' fs j' fs' :
      flusher_tick last j fs = (Ok last', j', fs') → jet_step (j, last) JTick (j', last')
  | jet_flush j last fs j' fs' :
      flushCursor j fs = (Ok tt, j', fs') → jet_step (j, last) JFlush (j', last).

(** ** Connections *)

Inductive jet_op := OpEvent (event : Event) | OpTick | OpFlush.

(** What happens on a connection, in order; without a cursor the flusher is not started. *)
Fixpoint run_ops (DisableCursor : bool) (ops : list jet_op) (lastFlushed : Z) : M jet unit :=
  match ops with
  | [] => mret tt
  | OpEvent e :: rest => process_event e ;; run_ops DisableCursor rest lastFlushed
  | OpTick :: rest =>
      lastFlushed ← (if DisableCursor then mret lastFlushed else flusher_tick lastFlushed);
      run_ops DisableCursor rest lastFlushed
  | OpFlush :: rest => (if DisableCursor then mret tt else flushCursor) ;; run_ops DisableCursor rest lastFlushed
  end.

(** [startInternal]: the cursor it asked for. Its error is only logged. *)
Definition startInternal (DisableCursor : bool) (dial_error : option string) (ops : list jet_op) : M jet (option Z) :=
  cursor ← resume_cursor DisableCursor;
  (match dial_error with Some _ => mret tt | None => run_ops DisableCursor ops 0 end) ;;
  mret cursor.

(** One turn of [Start]: the connection, and whether the consumer was stopped during it or
    during the pause after it. *)
Record session := mkSession { s_dial_error : option string; s_ops : list jet_op; s_stopped : bool; s_stopped_waiting : bool }.

(** [Start]: the cursors asked for and the pauses. *)
Fixpoint start_loop (DisableCursor : bool) (sessions : list session) (backoff : Z) : M jet (list (option Z) * list Z) :=
  match sessions with
  | [] => mret ([], [])
  | s :: rest =>
      cursor ← startInternal DisableCursor (s_dial_error s) (s_ops s);
      if s_stopped s then mret ([cursor], [])
      else if s_stopped_waiting s then mret ([cursor], [backoff])
      else
        r ← start_loop DisableCursor rest (next_backoff backoff);
        mret (cursor :: r.1, backoff :: r.2)
  end.

Definition Start (DisableCursor : bool) (sessions : list session) : M jet (list (option Z) * list Z) :=
  start_loop DisableCursor sessions second.
End consumer.
