(* ===== verification/JetstreamProps.v ===== *)
(** * What Jetstream ingestion guarantees

    The handling of a commit is that of the same Tap event; the saved cursor is the time
    of an accepted event and is read back as saved; and what happens to a commit
    that fails when a later one succeeds. *)
From stdpp Require Import pretty.
From S2P Require Import Prelude GoStrings Json Effects Database RecordStore RecordProps DeleteProps Config Versions Actors PubSub Tap TapProps Jetstream.

Section jetstream.
Context `{Env} (c : Collaborators).

(** ** One commit, two ways in *)

(** The Tap event of a commit. *)
Definition tap_event (live : bool) (did : string) (commit : CommitEvent) : RecordEvent :=
  mkRecordEvent live (ce_Rev commit) did (ce_Collection commit) (ce_RKey commit) (ce_Operation commit)
    (ce_CID commit) (ce_Record commit).

(** The Tap handler with the same collaborators, without history or activity log. *)
Definition tap_handler : IndexHandler := mkHandler (jc_validator c) false (jc_pubsub c) false (mkMatcher ∅ []).

Definition agrees {A} (m : M sink A) (m' : M world A) : Prop :=
  ∀ k fs, let '(o, k', fs') := m k fs in m' (k_world k) fs = (o, k_world k', fs').

Lemma agrees_ret {A} (a : A) : agrees (mret a) (mret a).
Proof. done. Qed.

Lemma agrees_world {A} (m : M world A) : agrees (on_world m) m.
Proof. intros k fs. unfold on_world, zoom. by destruct (m (k_world k) fs) as [[? ?] ?]. Qed.

Lemma agrees_bind {A B} (m : M sink A) (m' : M world A) (f : A → M sink B) (f' : A → M world B) :
  agrees m m' → (∀ a, agrees (f a) (f' a)) → agrees (m ≫= f) (m' ≫= f').
Proof.
  intros Hm Hf k fs. specialize (Hm k fs). unfold mbind, M_bind. destruct (m k fs) as [[[a|e] k1] fs1]; rewrite Hm; [|done].
  apply Hf.
Qed.

Lemma agrees_attempt {A} (m : M sink A) m' : agrees m m' → agrees (attempt m) (attempt m').
Proof. intros Hm k fs. specialize (Hm k fs). unfold attempt. by destruct (m k fs) as [[? ?] ?]; rewrite Hm. Qed.

Lemma agrees_skip {B} (p : M world unit) (m : M sink B) m' : p = mret tt → agrees m m' → agrees m (p ;; m').
Proof. by intros ->. Qed.

(** Counting is not seen by the world. *)
Lemma agrees_count {B} f (m : M sink B) m' : agrees m m' → agrees (count f ;; m) m'.
Proof. intros Hm k fs. apply (Hm (mkSink (k_world k) (f (k_stats k))) fs). Qed.

(** The end of an activity that was not logged. *)
Lemma agrees_last (m : M sink unit) m' id status msg :
  jc_activity c = false → agrees m m' → agrees (m ;; updateActivityStatus c id status msg) m'.
Proof.
  intros Hc Hm k fs. specialize (Hm k fs). unfold updateActivityStatus, mbind, M_bind. rewrite Hc. cbn.
  by destruct (m k fs) as [[[[]|e] k1] fs1]; rewrite Hm.
Qed.

Lemma agrees_or_failed {A} id msg (m : M sink A) m' : jc_activity c = false → agrees m m' → agrees (or_failed c id msg m) (wrap msg m').
Proof.
  intros Hc Hm k fs. specialize (Hm k fs). unfold or_failed, wrap, attempt, updateActivityStatus, mbind, M_bind. rewrite Hc. cbn.
  by destruct (m k fs) as [[[a|e] k1] fs1]; rewrite Hm.
Qed.

Lemma write_agrees live did commit id :
  jc_activity c = false → ce_Record commit ≠ "" →
  agrees (handle_write c did commit id) (handle_upsert tap_handler (tap_event live did commit)).
Proof.
  intros Hc Hrec. unfold handle_write, handle_upsert. change (re_Record (tap_event live did commit)) with (ce_Record commit). rewrite (proj2 (String.eqb_neq _ _)) by done.
  apply agrees_bind; [apply agrees_attempt, agrees_world|intros _].
  apply agrees_skip; [done|].
  apply agrees_bind; [by apply agrees_or_failed, agrees_world|intros res]. apply agrees_count.
  assert (Htail : agrees (if jc_pubsub c then on_world (on_ps (publish_commit c did commit)) else mret tt)
    ((if decide (res = Skipped) then mret tt else mret tt) ;;
      if h_pubsub tap_handler then on_ps (publish_write tap_handler (tap_event live did commit)) else mret tt)).
  { intros k fs. case_decide; cbn; destruct (jc_pubsub c); done. }
  by apply agrees_last.
Qed.

Lemma removal_agrees live did commit id :
  jc_activity c = false → ce_CID commit = "" →
  agrees (handle_removal c did commit id) (handle_delete tap_handler (tap_event live did commit)).
Proof.
  intros Hc Hcid. unfold handle_removal, handle_delete.
  apply agrees_bind; [by apply agrees_or_failed, agrees_world|intros deleted]. apply agrees_count.
  apply (agrees_bind _ _ _ (λ _, mret tt)); [|intros []; unfold updateActivityStatus; by rewrite Hc].
  intros k fs. unfold publish_deleted, publish_deletion. rewrite Hcid. cbn. by destruct deleted, (jc_pubsub c).
Qed.

(** *** With activity logs *)

(** A database with another activity log. *)
Definition with_log (a : gmap Z activity_row) (n : Z) (d : db) : db :=
  mkDb (db_records d) (db_versions d) (db_next_version d) (db_actors d) a n (db_clock d) (db_labels d) (db_next_label d) (db_label_states d).

Definition but_log (w w' : world) : Prop := ∃ a n, w_db w' = with_log a n (w_db w) ∧ w_ps w' = w_ps w.

(** Without faults, a computation that neither sees nor changes the log. *)
Definition blind {A} (m : M db A) : Prop := ∀ d, ∃ o d', m d [] = (o, d', []) ∧ ∀ a n, m (with_log a n d) [] = (o, with_log a n d', []).

Lemma blind_of_outcome {A} (o : outcome A) : blind (of_outcome o).
Proof. intros d. by exists o, d. Qed.

Lemma blind_bind {A B} (m : M db A) (f : A → M db B) : blind m → (∀ x, blind (f x)) → blind (m ≫= f).
Proof.
  intros Hm Hf d. destruct (Hm d) as ([x|e] & d1 & E & Hl); unfold mbind, M_bind; rewrite E.
  - destruct (Hf x d1) as (o & d2 & E2 & Hl2). exists o, d2. split; [done|]. intros a n. by rewrite Hl, Hl2.
  - exists (Err e), d1. split; [done|]. intros a n. by rewrite Hl.
Qed.

Lemma blind_wrap {A} msg (m : M db A) : blind m → blind (wrap msg m).
Proof.
  intros Hm d. destruct (Hm d) as (o & d1 & E & Hl). exists (wrap_err msg o), d1. unfold wrap. rewrite E. split; [done|]. intros a n. by rewrite Hl.
Qed.

Lemma blind_stmt {A} (f : db → outcome (A * db)) :
  (∀ d a n, f (with_log a n d) = match f d with Ok (x, d') => Ok (x, with_log a n d') | Err e => Err e end) → blind (stmt f).
Proof.
  intros Hf d. unfold stmt. cbn. destruct (f d) as [[x d']|e] eqn:E.
  - exists (Ok x), d'. split; [done|]. intros a n. by rewrite Hf, E.
  - exists (Err e), d. split; [done|]. intros a n. by rewrite Hf, E.
Qed.

Lemma blind_transaction {A} (m : M db A) : blind m → blind (transaction m).
Proof.
  intros Hm d. destruct (Hm d) as ([x|e] & d1 & E & Hl); unfold transaction; cbn [tl]; rewrite E; cbn [tl].
  - exists (Ok x), d1. split; [done|]. intros a n. by rewrite Hl.
  - exists (Err e), d. split; [done|]. intros a n. by rewrite Hl.
Qed.

Lemma blind_ensure did : blind (Ensure did).
Proof. by apply blind_stmt. Qed.

Lemma blind_upsert rec : blind (UpsertWithValidation rec).
Proof.
  assert (Hupsert : blind (wrap ("upsert record " +:+ rw_uri rec +:+ " with validation") (stmt (λ d, d' ← validation_upsert_one rec d; mret (tt, d'))) ;; mret Inserted)).
  { apply blind_bind; [|intros; apply blind_of_outcome]. apply blind_wrap, blind_stmt. intros d a n. unfold validation_upsert_one. by destruct (store_json _). }
  unfold UpsertWithValidation. apply blind_bind; [apply blind_of_outcome|intros _].
  apply blind_bind; [apply blind_wrap; by apply blind_stmt|intros [ex|]; [|exact Hupsert]].
  destruct (_ && _); [|exact Hupsert]. cbv zeta. destruct (_ && _); [apply blind_of_outcome|].
  apply blind_bind; [apply blind_wrap; by apply blind_stmt|intros []; [apply blind_of_outcome|exact Hupsert]].
Qed.

Lemma blind_delete uri : blind (DeleteReturning uri).
Proof.
  apply blind_transaction, blind_bind; [apply blind_wrap; by apply blind_stmt|intros _]. apply blind_stmt. intros d a n.
  change (db_records (with_log a n d)) with (db_records d). destruct (db_records d !! uri); [|done]. by destruct (scan_record _).
Qed.

(** Without faults, the two leave the same but for the log. *)
Definition matches {A} (m : M sink A) (m' : M world A) : Prop :=
  ∀ k w, but_log (k_world k) w → ∃ o k' w', m k [] = (o, k', []) ∧ m' w [] = (o, w', []) ∧ but_log (k_world k') w'.

Lemma matches_ret {A} (x : A) : matches (mret x) (mret x).
Proof. intros k w Hw. by exists (Ok x), k, w. Qed.

Lemma matches_bind {A B} (m : M sink A) m' (f : A → M sink B) f' : matches m m' → (∀ x, matches (f x) (f' x)) → matches (m ≫= f) (m' ≫= f').
Proof.
  intros Hm Hf k w Hw. destruct (Hm k w Hw) as ([x|e] & k1 & w1 & E & E' & Hw1); unfold mbind, M_bind; rewrite E, E'; [by apply Hf|].
  by exists (Err e), k1, w1.
Qed.

Lemma matches_db {A} (m : M db A) : blind m → matches (on_world (on_db m)) (on_db m).
Proof.
  intros Hm k w (a & n & Hd & Hp). destruct (Hm (w_db (k_world k))) as (o & d' & E & Hl).
  exists o, (mkSink (mkWorld d' (w_ps (k_world k))) (k_stats k)), (mkWorld (with_log a n d') (w_ps w)). unfold on_world, on_db, zoom.
  rewrite E, Hd, Hl. split_and!; [done|done|]. by exists a, n.
Qed.

Lemma matches_ps f : matches (on_world (on_ps f)) (on_ps f).
Proof. intros k w (a & n & Hd & Hp). do 3 eexists. split_and!; [done|done|]. exists a, n. cbn. by rewrite Hp. Qed.

Lemma matches_attempt {A} (m : M sink A) m' : matches m m' → matches (attempt m) (attempt m').
Proof.
  intros Hm k w Hw. destruct (Hm k w Hw) as (o & k1 & w1 & E & E' & Hw1). exists (Ok o), k1, w1. unfold attempt. by rewrite E, E'.
Qed.

(** What only one of the two does, to its log. *)
Definition logs {W A} (world_of : W → world) (m : M W A) : Prop :=
  ∀ k, ∃ x k', m k [] = (Ok x, k', []) ∧ ∃ a n, w_db (world_of k') = with_log a n (w_db (world_of k)) ∧ w_ps (world_of k') = w_ps (world_of k).

Lemma matches_left {A B} (p : M sink A) (m : A → M sink B) m' : logs k_world p → (∀ x, matches (m x) m') → matches (p ≫= m) m'.
Proof.
  intros Hp Hm k w (a & n & Hd & Hps). destruct (Hp k) as (x & k1 & E & a1 & n1 & Hd1 & Hps1). unfold mbind, M_bind. rewrite E. apply Hm.
  exists a, n. rewrite Hd1, Hd, Hps1, Hps. done.
Qed.

Lemma matches_right {A B} (p : M world A) (m : M sink B) m' : logs id p → (∀ x, matches m (m' x)) → matches m (p ≫= m').
Proof.
  intros Hp Hm k w (a & n & Hd & Hps). destruct (Hp w) as (x & w1 & E & a1 & n1 & Hd1 & Hps1). unfold mbind, M_bind. rewrite E.
  apply Hm. exists a1, n1. cbn in *. rewrite Hd1, Hd, Hps1, Hps. done.
Qed.

Lemma matches_last (m : M sink unit) m' (p : M sink unit) : logs k_world p → matches m m' → matches (m ;; p) m'.
Proof.
  intros Hp Hm k w Hw. destruct (Hm k w Hw) as ([x|e] & k1 & w1 & E & E' & Hw1); unfold mbind, M_bind; rewrite E; [|by exists (Err e), k1, w1].
  destruct (Hp k1) as ([] & k2 & E2 & a2 & n2 & Hd2 & Hps2). destruct x. exists (Ok tt), k2, w1. split_and!; [done|done|].
  destruct Hw1 as (a & n & Hd & Hps). exists a, n. rewrite Hd, Hd2, Hps, Hps2. done.
Qed.

Lemma db_as_log d : d = with_log (db_activity d) (db_next_activity d) d.
Proof. by destruct d. Qed.

Lemma logs_status id status msg : logs k_world (updateActivityStatus c id status msg).
Proof.
  intros k. unfold updateActivityStatus. destruct (_ && _).
  - eexists _, _. split; [done|]. by eexists _, _.
  - eexists _, k. split; [done|]. exists (db_activity (w_db (k_world k))), (db_next_activity (w_db (k_world k))). split; [apply db_as_log|done].
Qed.

Lemma logs_log did commit : logs k_world (log_activity c did commit).
Proof.
  intros k. assert (Hnone : ∀ d, ∃ a n, d = with_log a n d) by (intros d; eexists _, _; apply db_as_log).
  unfold log_activity, LogActivity, LogActivityWithStatus. destruct (jc_activity c).
  - unfold mbind, M_bind, attempt, on_world, on_db, zoom, gets, of_outcome. destruct (normalizeActivityEventJSON _).
    + eexists _, _. split; [done|]. by eexists _, _.
    + eexists _, _. split; [done|]. destruct (Hnone (w_db (k_world k))) as (a & n & Hd). exists a, n. by split.
  - eexists _, k. split; [done|]. destruct (Hnone (w_db (k_world k))) as (a & n & Hd). exists a, n. by split.
Qed.

Lemma logs_completed operation event text : logs id (on_db (log_completed operation event text)).
Proof.
  intros w. unfold log_completed, LogActivity, LogActivityWithStatus, mbind, M_bind, attempt, on_db, zoom, gets, of_outcome.
  destruct (normalizeActivityEventJSON text); eexists _, _; (split; [done|]).
  - by eexists _, _.
  - exists (db_activity (w_db w)), (db_next_activity (w_db w)). split; [apply db_as_log|done].
Qed.

Lemma matches_or_failed {A} id msg (m : M sink A) m' : matches m m' → matches (or_failed c id msg m) (wrap msg m').
Proof.
  intros Hm k w Hw. destruct (Hm k w Hw) as ([x|e] & k1 & w1 & E & E' & Hw1); unfold or_failed, attempt, wrap, mbind, M_bind; rewrite E, E'.
  - by exists (Ok x), k1, w1.
  - destruct (logs_status id "error" (Some e) k1) as (x & k2 & E2 & a2 & n2 & Hd2 & Hps2). rewrite E2.
    exists (Err (msg +:+ ": " +:+ e)), k2, w1. split_and!; [done|done|]. destruct Hw1 as (a & n & Hd & Hps). exists a, n. rewrite Hd, Hd2, Hps, Hps2. done.
Qed.

Lemma matches_count {B} f (m : M sink B) m' : matches m m' → matches (count f ;; m) m'.
Proof. intros Hm k w Hw. apply (Hm (mkSink (k_world k) (f (k_stats k))) w Hw). Qed.

(** A Tap handler with the same collaborators that keeps no history of the collection. *)
Definition like_tap (h : IndexHandler) (collection : string) : Prop :=
  h_validator h = jc_validator c ∧ h_pubsub h = jc_pubsub c ∧ keepsHistory h collection = false.

Lemma write_matches h live did commit id :
  like_tap h (ce_Collection commit) → ce_Record commit ≠ "" →
  matches (handle_write c did commit id) (handle_upsert h (tap_event live did commit)).
Proof.
  intros (Hv & Hp & Hh) Hrec. unfold handle_write, handle_upsert. change (re_Record (tap_event live did commit)) with (ce_Record commit). rewrite (proj2 (String.eqb_neq _ _)) by done.
  apply matches_bind; [apply matches_attempt, matches_db, blind_ensure|intros _].
  change (re_Collection (tap_event live did commit)) with (ce_Collection commit). rewrite Hh. change (mret tt ;; ?m) with m.
  assert (Hw : event_write h (tap_event live did commit) = commit_write c did commit).
  { unfold event_write, commit_write, classify, commit_verdict. cbn. by rewrite Hv. }
  rewrite Hw.
  apply matches_bind; [apply matches_or_failed, matches_db, blind_upsert|intros res]. apply matches_count.
  apply matches_last; [apply logs_status|].
  assert (Hpub : publish_write h (tap_event live did commit) = publish_commit c did commit).
  { unfold publish_write, publish_commit, classify, commit_verdict. cbn. by rewrite Hv. }
  assert (Htail : matches (if jc_pubsub c then on_world (on_ps (publish_commit c did commit)) else mret tt)
    (if h_pubsub h then on_ps (publish_write h (tap_event live did commit)) else mret tt)).
  { rewrite Hp, Hpub. destruct (jc_pubsub c); [apply matches_ps|apply matches_ret]. }
  case_decide; [exact Htail|]. destruct (h_activity h); [|exact Htail]. apply matches_right; [apply logs_completed|intros _; exact Htail].
Qed.

Lemma removal_matches h live did commit id :
  like_tap h (ce_Collection commit) → ce_CID commit = "" →
  matches (handle_removal c did commit id) (handle_delete h (tap_event live did commit)).
Proof.
  intros (Hv & Hp & Hh) Hcid. unfold handle_removal, handle_delete.
  apply matches_bind; [apply matches_or_failed, matches_db, blind_delete|intros deleted]. apply matches_count.
  assert (Hpub : publish_deleted did commit deleted = publish_deletion (tap_event live did commit) deleted).
  { unfold publish_deleted, publish_deletion. rewrite Hcid. by destruct deleted. }
  assert (Htail : matches (if jc_pubsub c then on_world (on_ps (publish_deleted did commit deleted)) else mret tt)
    (if h_pubsub h then on_ps (publish_deletion (tap_event live did commit) deleted) else mret tt)).
  { rewrite Hp, Hpub. destruct (jc_pubsub c); [apply matches_ps|apply matches_ret]. }
  apply matches_bind; [exact Htail|intros []]. intros k w Hw.
  destruct (logs_status id "success" None k) as ([] & k2 & E2 & a2 & n2 & Hd2 & Hps2).
  assert (Hk2 : but_log (k_world k2) w) by (destruct Hw as (a & n & Hd & Hps); exists a, n; by rewrite Hd, Hd2, Hps, Hps2).
  destruct (h_activity h); [|by exists (Ok tt), k2, w].
  destruct (logs_completed "delete" (tap_event live did commit) "" w) as ([] & w2 & E3 & a3 & n3 & Hd3 & Hps3).
  exists (Ok tt), k2, w2. split_and!; [done|done|]. destruct Hk2 as (a & n & Hd & Hps). exists a3, n3. cbn in *. by rewrite Hd3, Hd, Hps3, Hps.
Qed.

(** C13. Both ways in store the same, in a collection whose history Tap does not keep: whether the
    two log activity or not, without failing statements Jetstream's handling of a commit and Tap's of the same event give
    the same outcome, the same published events and the same database but for the activity log; and when neither logs activity, the
    same outcome, published events and database whatever statements fail. (They differ for a create or update without a
    record, which Tap drops, and in the CID published for the deletion of a record that is not stored, so
    these are left out.) *)
Theorem ingestion_paths_agree h live did commit k w fs :
  like_tap h (ce_Collection commit) →
  (ce_Operation commit ≠ OpDelete → ce_Record commit ≠ "") → (ce_Operation commit = OpDelete → ce_CID commit = "") →
  (but_log (k_world k) w → ∃ o k' w',
    handleCommit c did commit k [] = (o, k', []) ∧ HandleRecord h (tap_event live did commit) w [] = (o, w', []) ∧ but_log (k_world k') w') ∧
  (jc_activity c = false → let '(o, k', fs') := handleCommit c did commit k fs in
    HandleRecord tap_handler (tap_event live did commit) (k_world k) fs = (o, k_world k', fs')).
Proof.
  intros Hh Hrec Hcid. split.
  - revert k w. change (matches (handleCommit c did commit) (HandleRecord h (tap_event live did commit))).
    unfold handleCommit. apply matches_left; [apply logs_log|intros id]. unfold HandleRecord. cbn [re_Action tap_event].
    change ActionCreate with OpCreate. change ActionUpdate with OpUpdate. change ActionDelete with OpDelete.
    destruct (String.eqb_spec (ce_Operation commit) OpDelete) as [Hdel|Hdel].
    + rewrite Hdel. cbn. apply removal_matches; auto.
    + destruct (_ || _); [apply write_matches; auto|apply matches_ret].
  - intros Hc. revert k fs. change (agrees (handleCommit c did commit) (HandleRecord tap_handler (tap_event live did commit))).
    unfold handleCommit, HandleRecord, log_activity. rewrite Hc. cbn [re_Action tap_event]. change (mret 0%Z ≫= ?f) with (f 0%Z). cbv beta.
    change ActionCreate with OpCreate. change ActionUpdate with OpUpdate. change ActionDelete with OpDelete.
    destruct (String.eqb_spec (ce_Operation commit) OpDelete) as [Hdel|Hdel].
    + rewrite Hdel. cbn. apply removal_agrees; auto.
    + destruct (_ || _); [apply write_agrees; auto|apply agrees_ret].
Qed.

(** ** A commit that fails *)

(** What a failed commit leaves alone. *)
Definition same_data (w w' : world) : Prop :=
  db_records (w_db w') = db_records (w_db w) ∧ db_versions (w_db w') = db_versions (w_db w) ∧ w_ps w' = w_ps w.

Definition data_kept (k0 k : sink) : Prop := same_data (k_world k0) (k_world k).

Lemma data_kept_db {A} k0 (m : M db A) :
  (∀ d0, Preserves (same_store d0) m) → Preserves (data_kept k0) (on_world (on_db m)).
Proof.
  intros Hm k fs o k' fs' (Hr & Hv & Hp) Hrun. unfold on_world, on_db, zoom in Hrun.
  destruct (m (w_db (k_world k)) fs) as [[o1 d1] fs1] eqn:E. simplify_eq.
  apply (preserves_same_store _ _ _ _ _ _ (Hm _)) in E as (Hr1 & Hv1 & _). unfold data_kept, same_data. cbn. split_and!; congruence.
Qed.

Lemma data_kept_status k0 id status msg : Preserves (data_kept k0) (updateActivityStatus c id status msg).
Proof.
  unfold updateActivityStatus. destruct (_ && _); [|apply preserves_ret].
  apply preserves_bind; [|intros; apply preserves_ret]. apply preserves_attempt, data_kept_db. intros d0.
  apply preserves_exec. intros d Hd. eapply same_store_trans; [exact Hd|done].
Qed.

Lemma data_kept_log k0 did commit : Preserves (data_kept k0) (log_activity c did commit).
Proof.
  unfold log_activity. destruct (jc_activity c); [|apply preserves_ret].
  apply preserves_bind; [apply preserves_gets|intros t]. apply preserves_bind; [|intros; apply preserves_ret].
  apply preserves_attempt, data_kept_db. intros d0. apply preserves_bind; [apply preserves_of_outcome|intros n].
  apply preserves_stmt. intros d id d' Hd [= _ <-]. eapply same_store_trans; [exact Hd|done].
Qed.

(** The tail of a commit never fails. *)
Lemma status_total id status msg k fs : ∃ k' fs', updateActivityStatus c id status msg k fs = (Ok tt, k', fs').
Proof.
  unfold updateActivityStatus. destruct (_ && _); [|by eexists _, _].
  unfold attempt, mbind, M_bind. destruct (on_world _ k fs) as [[o k1] fs1]. by eexists _, _.
Qed.

Lemma tail_total (f : Stats → Stats) (g : PubSub → PubSub) id k fs :
  ∃ k' fs', (count f ;; (if jc_pubsub c then on_world (on_ps g) else mret tt) ;; updateActivityStatus c id "success" None) k fs
    = (Ok tt, k', fs').
Proof. destruct (jc_pubsub c); apply status_total. Qed.

Lemma failed_write {A} id msg (m : M db A) (f : A → M sink unit) k fs e k' fs' :
  (∀ d fs e d' fs', m d fs = (Err e, d', fs') → d' = d) → (∀ a k fs, ∃ k' fs', f a k fs = (Ok tt, k', fs')) →
  (or_failed c id msg (on_world (on_db m)) ≫= f) k fs = (Err e, k', fs') → data_kept k k'.
Proof.
  intros Hm Hf Hrun. bind_cases Hrun.
  { match type of Hrun with f ?a ?k1 ?fs1 = _ => destruct (Hf a k1 fs1) as (? & ? & Hok) end. congruence. }
  unfold or_failed, on_world, on_db, attempt, zoom, mbind, M_bind in E.
  destruct (m (w_db (k_world k)) fs) as [[[a|e2] d1] fs1] eqn:Em; [done|].
  destruct (status_total id "error" (Some e2) (mkSink (mkWorld d1 (w_ps (k_world k))) (k_stats k)) fs1) as (k2 & fs2 & Es).
  rewrite Es in E. injection E as _ <- _. injection Hrun as _ <- _. apply Hm in Em as ->.
  eapply data_kept_status; [|exact Es]. split_and!; done.
Qed.

Lemma data_kept_trans k1 k2 k3 : data_kept k1 k2 → data_kept k2 k3 → data_kept k1 k3.
Proof. unfold data_kept, same_data. intros (? & ? & ?) (? & ? & ?). split_and!; congruence. Qed.

Lemma failed_commit did commit k fs e k' fs' :
  handleCommit c did commit k fs = (Err e, k', fs') → data_kept k k'.
Proof.
  unfold handleCommit. intros Hrun. bind_cases Hrun.
  2: { exfalso. unfold log_activity in E. destruct (jc_activity c); [|done].
       unfold gets, attempt, mbind, M_bind in E. by destruct (on_world _ k fs) as [[? ?] ?]. }
  eapply data_kept_log in E; [|split_and!; reflexivity]. eapply data_kept_trans; [exact E|]. clear E.
  destruct (_ || _); [|destruct (_ =? _)%string; [|done]].
  - unfold handle_write in Hrun. bind_cases Hrun; apply attempt_inv in E as (o' & E & Ho); [|done].
    eapply (data_kept_db _ (Ensure did)) in E; [|intros; apply ensure_same|split_and!; reflexivity].
    eapply data_kept_trans; [exact E|]. eapply failed_write; [| |exact Hrun]; [|intros; apply tail_total].
    intros ????? Hu. by apply upsert_contract in Hu.
  - unfold handle_removal in Hrun. eapply failed_write; [| |exact Hrun]; [|intros; apply tail_total].
    intros ????? Hu. by apply delete_returning_spec in Hu.
Qed.

(** ** The cursor *)

(** The cursor after what happened on a connection: the time of the last accepted event. *)
Definition cursor_step (t : Z) (l : jet_label) : Z :=
  match l with JEvent e true => ev_TimeUS e | _ => t end.
Definition cursor_after (t : Z) (ls : list jet_label) : Z := foldl cursor_step t ls.

Lemma process_event_spec e j fs o j' fs' :
  process_event c e j fs = (o, j', fs') →
  ∃ ok, o = Ok ok ∧ j_config j' = j_config j ∧ j_cursor j' = cursor_step (j_cursor j) (JEvent e ok) ∧
    (ok = false → data_kept (j_sink j) (j_sink j') ∧ IsCommit e = true).
Proof.
  unfold process_event. destruct (IsCommit e) eqn:Ec.
  2: { intros [= <- <- <-]. by exists true. }
  destruct (ev_Commit e) as [commit|] eqn:Em; [|unfold IsCommit in Ec; rewrite Em, andb_false_r in Ec; done].
  unfold attempt, on_sink, zoom, set_cursor, modify, count, mbind, M_bind. cbn.
  destruct (handleCommit c (ev_DID e) commit _ fs) as [[[[]|err] k1] fs1] eqn:E; intros [= <- <- <-]; cbn.
  - by exists true.
  - exists false. split_and!; [done..|]. intros _. split; [|done]. apply failed_commit in E. exact E.
Qed.

(** A saved cursor is read back. *)
Lemma load_saved (t : Z) (g : config) :
  (0 ≤ t)%Z → in_int64 t = true → ReadsAs loadCursor (<[ cursor_key := itoa t ]> g) (Ok t).
Proof.
  intros Ht Hin. unfold loadCursor. eapply (reads_bind _ _ _ (Ok (itoa t))); [|intros ? [= <-]|done].
  - apply reads_stmt_ok. by rewrite lookup_insert_eq.
  - rewrite itoa_natural by done. assert (Hp := json_parse_natural (Z.to_N t)).
    destruct (String.eqb_spec (pretty (Z.to_N t)) "") as [E|_]; [by rewrite E in Hp|].
    unfold unmarshal_int64. rewrite Hp, literal_pretty, Z2N.id by done. cbn. rewrite Hin. apply reads_of_outcome.
Qed.

Definition saved (g : config) (t : Z) : config := <[ cursor_key := itoa t ]> g.

(** What one step does to the cursor and the table. *)
Lemma jet_step_spec j last l j' last' :
  jet_step c (j, last) l (j', last') → (0 ≤ last)%Z →
  (0 ≤ last')%Z ∧ j_cursor j' = cursor_step (j_cursor j) l ∧
  (j_config j' = j_config j ∨ (0 < j_cursor j)%Z ∧ j_config j' = saved (j_config j) (j_cursor j)).
Proof.
  intros Hstep Hlast. inversion Hstep as [? ? e ok fs ? fs' Hrun|? ? ? fs ? fs' Hrun|? ? fs ? fs' Hrun]; subst.
  - apply process_event_spec in Hrun as (ok' & [= <-] & -> & -> & _). auto.
  - unfold flusher_tick, attempt, on_config, saveCursor, Set_, zoom, exec, stmt, gets, mbind, M_bind in Hrun. cbn in Hrun.
    destruct (Z.ltb_spec last (j_cursor j)); [|injection Hrun as <- <- <-; auto].
    destruct fs as [|[] fs]; injection Hrun as <- <- <-; cbn; (split; [lia|]); (split; [done|]); first [by left|right; split; [lia|done]].
  - unfold flushCursor, attempt, on_config, saveCursor, Set_, zoom, exec, stmt, gets, mbind, M_bind in Hrun. cbn in Hrun.
    destruct (Z.ltb_spec 0 (j_cursor j)); [|injection Hrun as <- <-; auto].
    destruct fs as [|[] fs]; injection Hrun as <- <-; cbn; (split; [done|]); (split; [done|]); first [by left|by right].
Qed.

Lemma jet_run_spec j last ls j' last' :
  star (jet_step c) (j, last) ls (j', last') → (0 ≤ last)%Z →
  j_cursor j' = cursor_after (j_cursor j) ls ∧
  (j_config j' = j_config j ∨ ∃ before, before `prefix_of` ls ∧
    (0 < cursor_after (j_cursor j) before)%Z ∧ j_config j' = saved (j_config j) (cursor_after (j_cursor j) before)).
Proof.
  remember (j, last) as s eqn:Es. remember (j', last') as s' eqn:Es'. intros Hrun. revert j last Es.
  induction Hrun as [s|s l s1 ls s2 Hstep Hrun IH]; intros j last -> Hlast; [simplify_eq; auto|].
  destruct s1 as [j1 last1]. destruct (jet_step_spec _ _ _ _ _ Hstep Hlast) as (Hlast1 & Hc1 & Hg1).
  destruct (IH Es' j1 last1 eq_refl Hlast1) as (Hc2 & Hg2). cbn [cursor_after foldl]. fold (cursor_after (cursor_step (j_cursor j) l) ls).
  rewrite <- Hc1. split; [done|]. destruct Hg2 as [Hg2|(before & Hpre & Hpos & Hg2)].
  - rewrite Hg2. destruct Hg1 as [Hg1|[Hpos Hg1]]; [by left|right]. exists []. split; [by exists (l :: ls)|done].
  - right. exists (l :: before). cbn [cursor_after foldl]. fold (cursor_after (cursor_step (j_cursor j) l) before).
    rewrite <- Hc1. split_and!; [|done|].
    + destruct Hpre as [k ->]. by exists k.
    + rewrite Hg2. destruct Hg1 as [Hg1|[_ Hg1]]; rewrite Hg1; [done|]. unfold saved. by rewrite insert_insert_eq.
Qed.

(** However events, ticks and flushes follow each other on a connection, and whatever fails,
    the cursor in memory is the time of the last accepted event, the saved one is what the
    cursor was at some moment of the connection (or was never written), and the next
    connection reads it back exactly and asks to resume there. *)
Theorem jetstream_cursor j ls j' last' :
  star (jet_step c) (j, 0%Z) ls (j', last') →
  j_cursor j' = cursor_after (j_cursor j) ls ∧
  (j_config j' = j_config j ∨ ∃ before t, before `prefix_of` ls ∧ t = cursor_after (j_cursor j) before ∧
    (0 < t)%Z ∧ j_config j' = saved (j_config j) t ∧
    (in_int64 t = true → run (resume_cursor false) j' = (Ok (Some t), j'))).
Proof.
  intros Hrun. destruct (jet_run_spec _ _ _ _ _ Hrun) as [Hc [Hg|(before & Hpre & Hpos & Hg)]]; [done|by auto|].
  split; [done|]. right. eexists before, _. split_and!; [done|reflexivity|done|done|].
  intros Hin. set (t := cursor_after _ before) in *. unfold run, resume_cursor, attempt, on_config, zoom, mbind, M_bind.
  assert (Hload := reads_run _ _ _ (load_saved t (j_config j) ltac:(lia) Hin)). unfold run in Hload. fold (saved (j_config j) t) in Hload.
  rewrite <- Hg in Hload. destruct (loadCursor (j_config j') []) as [[o g] fs]. simplify_eq/=.
  rewrite (proj2 (Z.ltb_lt 0 t)) by done. cbn. by destruct j'.
Qed.

(** C20. A commit that fails is lost as soon as a later event succeeds, although the code
    means not to advance the cursor: nothing of the failed commit is stored or published, the cursor
    moves to the later event, and after the flush that ends the connection the next one
    resumes from there. *)
Theorem failed_commit_skipped e1 e2 j fs1 j1 fs1' fs2 j2 fs2' :
  process_event c e1 j fs1 = (Ok false, j1, fs1') → process_event c e2 j1 fs2 = (Ok true, j2, fs2') →
  (0 < ev_TimeUS e2)%Z → in_int64 (ev_TimeUS e2) = true →
  IsCommit e1 = true ∧ same_data (k_world (j_sink j)) (k_world (j_sink j1)) ∧
  ∃ j3, run flushCursor j2 = (Ok tt, j3) ∧ run (resume_cursor false) j3 = (Ok (Some (ev_TimeUS e2)), j3).
Proof.
  intros (? & [= <-] & _ & _ & Hfail)%process_event_spec Hrun2 Hpos Hin. destruct (Hfail eq_refl) as [Hkept Hcommit].
  split_and!; [done|exact Hkept|]. assert (Hc2 : j_cursor j2 = ev_TimeUS e2).
  { by apply process_event_spec in Hrun2 as (? & [= <-] & _ & ? & _). }
  set (j3 := mkJet (j_sink j2) (saved (j_config j2) (ev_TimeUS e2)) (j_cursor j2)). exists j3.
  assert (Hflush : flushCursor j2 [] = (Ok tt, j3, [])).
  { unfold flushCursor, gets, mbind, M_bind. rewrite (proj2 (Z.ltb_lt 0 (j_cursor j2))) by lia.
    unfold j3. rewrite <- Hc2. done. }
  split; [unfold run; by rewrite Hflush|].
  assert (Hload := reads_run _ _ _ (load_saved (ev_TimeUS e2) (j_config j2) ltac:(lia) Hin)).
  unfold run in *. unfold resume_cursor, attempt, on_config, zoom, mbind, M_bind. cbn [j_config j3].
  fold (saved (j_config j2) (ev_TimeUS e2)) in Hload. destruct (loadCursor _ []) as [[o g] fs]. simplify_eq/=.
  by rewrite (proj2 (Z.ltb_lt 0 (ev_TimeUS e2))) by done.
Qed.
End jetstream.

(** ** On a concrete stream *)

Section example.
#[local] Instance stream_env : Env := example_env SQLite.

Definition stream_collaborators : Collaborators := mkCollaborators (Some Disabled) false true.
Definition stream_commit (rkey cid : string) : CommitEvent := mkCommit "rev" OpCreate "app.x" rkey "{}" cid.
Definition stream_event (time : Z) (rkey : string) : Event :=
  mkEvent "did:plc:a" time EventTypeCommit (Some (stream_commit rkey "c1")).
Definition stream_sink : sink := mkSink (mkWorld (empty_db 5) NewPubSub) (mkStats 0 0 0 0 0).
Definition stream_start : jet := mkJet stream_sink ∅ 0.

(** As the server runs: both log activity. And without logs, with a first statement that fails. *)
Definition logging_collaborators : Collaborators := mkCollaborators (Some Disabled) true true.
Definition logging_handler : IndexHandler := NewIndexHandler true true [Disabled].

Lemma ingestion_paths_agree_witness :
  (∃ o k' w', handleCommit logging_collaborators "did:plc:a" (stream_commit "1" "c1") stream_sink [] = (o, k', []) ∧
    HandleRecord logging_handler (tap_event true "did:plc:a" (stream_commit "1" "c1")) (k_world stream_sink) [] = (o, w', []) ∧
    but_log (k_world k') w' ∧ is_ok o = true ∧ size (db_records (w_db w')) = 1 ∧ size (db_activity (w_db w')) = 1) ∧
  let '(o, k', _) := handleCommit stream_collaborators "did:plc:a" (stream_commit "1" "c1") stream_sink [true] in
  HandleRecord (tap_handler stream_collaborators) (tap_event true "did:plc:a" (stream_commit "1" "c1")) (k_world stream_sink) [true]
    = (o, k_world k', []) ∧ is_ok o = true.
Proof.
  assert (Hl : like_tap logging_collaborators logging_handler "app.x") by done.
  assert (Hs : like_tap stream_collaborators (tap_handler stream_collaborators) "app.x") by done.
  split.
  - destruct (ingestion_paths_agree logging_collaborators logging_handler true "did:plc:a" (stream_commit "1" "c1") stream_sink
      (k_world stream_sink) [] Hl ltac:(done) ltac:(done)) as [Hag _].
    destruct Hag as (o & k' & w' & E & E' & Hw); [exists ∅, 1%Z; by split|]. exists o, k', w'. split_and!; [done..| | |].
    + assert (Ho : is_ok (handleCommit logging_collaborators "did:plc:a" (stream_commit "1" "c1") stream_sink []).1.1 = true) by by vm_compute.
      by rewrite E in Ho.
    + assert (Hr : size (db_records (w_db (HandleRecord logging_handler (tap_event true "did:plc:a" (stream_commit "1" "c1")) (k_world stream_sink) []).1.2)) = 1)
        by by vm_compute. by rewrite E' in Hr.
    + assert (Hr : size (db_activity (w_db (HandleRecord logging_handler (tap_event true "did:plc:a" (stream_commit "1" "c1")) (k_world stream_sink) []).1.2)) = 1)
        by by vm_compute. by rewrite E' in Hr.
  - destruct (ingestion_paths_agree stream_collaborators (tap_handler stream_collaborators) true "did:plc:a" (stream_commit "1" "c1") stream_sink
      (k_world stream_sink) [true] Hs ltac:(done) ltac:(done)) as [_ Hag]. specialize (Hag eq_refl).
    assert (Hok : (handleCommit stream_collaborators "did:plc:a" (stream_commit "1" "c1") stream_sink [true]).1.1 = Ok tt ∧
      (handleCommit stream_collaborators "did:plc:a" (stream_commit "1" "c1") stream_sink [true]).2 = []) by (split; by vm_compute).
    destruct (handleCommit stream_collaborators _ _ _ _) as [[o k'] fs']. cbn in Hok. destruct Hok as [-> ->]. split; [exact Hag|done].
Defined.

(** The first commit fails on its write, the second is stored. *)
Definition after_failure : jet := (process_event stream_collaborators (stream_event 10 "1") stream_start [false; false; true]).1.2.
Definition after_success : jet := (process_event stream_collaborators (stream_event 20 "2") after_failure []).1.2.

Lemma failed_commit_skipped_witness :
  db_records (w_db (k_world (j_sink after_failure))) = ∅ ∧
  ∃ j3, run flushCursor after_success = (Ok tt, j3) ∧ run (resume_cursor false) j3 = (Ok (Some 20%Z), j3).
Proof.
  destruct (failed_commit_skipped stream_collaborators (stream_event 10 "1") (stream_event 20 "2") stream_start
    [false; false; true] after_failure [] [] after_success []) as (_ & [Hrec _] & Hresume);
    [by vm_compute|by vm_compute|done|by vm_compute|]. split; [exact Hrec|exact Hresume].
Defined.

Definition after_flush : jet := (flushCursor after_success []).1.2.

Lemma jetstream_cursor_witness :
  j_cursor after_flush = 20%Z ∧ j_config after_flush = saved ∅ 20.
Proof.
  destruct (jetstream_cursor stream_collaborators stream_start
    [JEvent (stream_event 10 "1") false; JEvent (stream_event 20 "2") true; JFlush] after_flush 0%Z) as [Hc _].
  - eapply star_step; [apply (jet_event _ _ _ _ _ [false; false; true] after_failure []); by vm_compute|].
    eapply star_step; [apply (jet_event _ _ _ _ _ [] after_success []); by vm_compute|].
    eapply star_step; [apply (jet_flush _ _ _ [] after_flush []); by vm_compute|]. apply star_refl.
  - split; [exact Hc|by vm_compute].
Defined.
End example.
