(* ===== verification/Keyset.v ===== *)
(** * Keyset pages

    src/internal/database/repositories/records_created_at_keyset.go and the sorted
    pages of records.go: the statement of a page (its text, its conditions and their
    bound arguments), what the database selects with it, and how a page is filled
    from the segments of a [record_created_at] continuation. *)
From S2P Require Import Prelude GoStrings Json Effects Database RecordStore.

(** records.go [SortOption] *)
Record SortOption := mkSort { Field : string; Direction : string }.

Definition SortFieldRecordCreatedAt : string := "record_created_at".

Definition directSortColumns : list string := ["indexed_at"; "uri"; "did"; "collection"; "cid"; "rkey"].

Definition keysetSortFieldName (sort : option SortOption) : string :=
  match sort with None => "indexed_at" | Some s => Field s end.

(** ** What a sort expression evaluates to

    SQLite orders numbers before texts; PostgreSQL compares timestamps by instant,
    texts by collation. A JSON field extracted on SQLite keeps its type. *)
Inductive sql_key := KNumber (z : Z) | KText (s : string).
#[export] Instance sql_key_eq_dec : EqDecision sql_key.
Proof. solve_decision. Defined.

Definition key_leq `{TextOrder} (x y : sql_key) : Prop :=
  match x, y with
  | KNumber a, KNumber b => (a <= b)%Z
  | KNumber _, KText _ => True
  | KText s, KText t => text_le s t
  | KText _, KNumber _ => False
  end.
#[export] Instance key_leq_dec `{TextOrder} : RelDecision key_leq.
Proof. intros [a|s] [b|t]; simpl; apply _. Defined.

Definition key_lt `{TextOrder} (x y : sql_key) : Prop := key_leq x y ∧ x ≠ y.
#[export] Instance key_lt_dec `{TextOrder} : RelDecision key_lt.
Proof. unfold key_lt. intros x y. apply _. Defined.

(** Evaluations the database does outside the code: normalised timestamps of columns
    and cursors, the text of a creation time, [json_extract] and [->>]. *)
Class SortKeys := {
  indexed_key : Z → sql_key;
  created_key : string → sql_key;
  created_text : string → string;
  timestamp_cursor : string → option sql_key;
  json_field : string → string → option sql_key;
  format_time : Z → string;
  format_value : json → string;
}.

(** ** SQL text *)

Section text.
Context `{Env}.

Definition recordColumns : string :=
  match dialect with
  | PostgreSQL => "uri, cid, did, collection, json::text, indexed_at::text, rkey, validation_status, validation_error, validated_at::text, lexicon_hash"
  | SQLite => "uri, cid, did, collection, json, indexed_at, rkey, validation_status, validation_error, validated_at, lexicon_hash"
  end.

Definition validStatusLiteralCondition : string := "validation_status = '" +:+ StatusValid +:+ "'".

Definition double_quote : string := byte_str (byte 34).
Definition recordCreatedAtTextPG : string :=
  "to_char(record_created_at AT TIME ZONE 'UTC', 'YYYY-MM-DD" +:+ double_quote +:+ "T" +:+ double_quote
  +:+ "HH24:MI:SS.MS" +:+ double_quote +:+ "Z" +:+ double_quote +:+ "')".

Definition sortedRecordColumns (sort : option SortOption) : string :=
  if negb (keysetSortFieldName sort =? SortFieldRecordCreatedAt)%string then recordColumns
  else recordColumns +:+ ", " +:+
    match dialect with PostgreSQL => recordCreatedAtTextPG | SQLite => "record_created_at" end.

Definition recordCreatedAtNullsClause (direction : string) : string :=
  if (direction =? "ASC")%string then "NULLS FIRST" else "NULLS LAST".

Definition recordCreatedAtOrderBy (createdAtColumn uriColumn direction : string) : string :=
  let direction := if (direction =? "ASC")%string then direction else "DESC" in
  let expr := createdAtColumn +:+ " " +:+ direction in
  let expr := match dialect with
    | PostgreSQL => expr +:+ " " +:+ recordCreatedAtNullsClause direction | SQLite => expr end in
  expr +:+ ", " +:+ uriColumn +:+ " " +:+ direction.

Definition normalizedIndextAtExpr : string :=
  match dialect with
  | PostgreSQL => "indexed_at"
  | SQLite => "strftime('%Y-%m-%dT%H:%M:%fZ', indexed_at)"
  end.

Definition keysetSortFieldExpr (sortField : string) : outcome string :=
  if (sortField =? "indexed_at")%string then Ok normalizedIndextAtExpr
  else if bool_decide (sortField ∈ directSortColumns) then Ok sortField
  else JSONExtract "json" sortField.

Definition keysetCursorValueExpr (sortField placeholder : string) : string :=
  if negb (sortField =? "indexed_at")%string then placeholder
  else match dialect with
       | PostgreSQL => placeholder +:+ "::timestamptz"
       | SQLite => "strftime('%Y-%m-%dT%H:%M:%fZ', " +:+ placeholder +:+ ")"
       end.

Definition recordCreatedAtCursorValueExpr (placeholder : string) : string :=
  match dialect with PostgreSQL => placeholder +:+ "::timestamptz" | SQLite => placeholder end.

Definition buildSortExpr (sort : option SortOption) : outcome string :=
  match sort with
  | None => Ok (normalizedIndextAtExpr +:+ " DESC, uri DESC")
  | Some s =>
      let dir := if negb (Direction s =? "ASC")%string && negb (Direction s =? "DESC")%string
                 then "DESC" else Direction s in
      if (Field s =? SortFieldRecordCreatedAt)%string
      then Ok (recordCreatedAtOrderBy "record_created_at" "uri" dir)
      else
        fieldExpr ← (if (Field s =? "indexed_at")%string then Ok normalizedIndextAtExpr
                     else if bool_decide (Field s ∈ directSortColumns) then Ok (Field s)
                     else JSONExtract "json" (Field s));
        let expr := fieldExpr +:+ " " +:+ dir in
        Ok (if negb (Field s =? "uri")%string then expr +:+ ", uri " +:+ dir else expr)
  end.

(** ** Conditions *)

Inductive cmp_op := Less | Greater.
Definition cmp_text (c : cmp_op) : string := match c with Less => "<" | Greater => ">" end.

(** The cursor conditions, with the numbers of their placeholders. *)
Inductive keyset_cond :=
  | Undated (cmp : cmp_op) (ph : nat)
  | DatedAll
  | UndatedAll
  | Dated (cmp : cmp_op) (ph1 ph2 : nat)
  | FieldCursor (field : string) (cmp : cmp_op) (ph1 ph2 ph3 : nat).

Definition render_keyset (c : keyset_cond) : outcome string :=
  match c with
  | Undated cmp ph => Ok ("(record_created_at IS NULL AND uri " +:+ cmp_text cmp +:+ " " +:+ Placeholder ph +:+ ")")
  | DatedAll => Ok "record_created_at IS NOT NULL"
  | UndatedAll => Ok "record_created_at IS NULL"
  | Dated cmp ph1 ph2 => Ok ("(record_created_at, uri) " +:+ cmp_text cmp +:+ " (" +:+
      recordCreatedAtCursorValueExpr (Placeholder ph1) +:+ ", " +:+ Placeholder ph2 +:+ ")")
  | FieldCursor field cmp ph1 ph2 ph3 =>
      expr ← keysetSortFieldExpr field;
      Ok ("(" +:+ expr +:+ " " +:+ cmp_text cmp +:+ " " +:+ keysetCursorValueExpr field (Placeholder ph1)
        +:+ " OR (" +:+ expr +:+ " = " +:+ keysetCursorValueExpr field (Placeholder ph2)
        +:+ " AND uri " +:+ cmp_text cmp +:+ " " +:+ Placeholder ph3 +:+ "))")
  end.

(** A filter clause built elsewhere: its text, the placeholders it uses in text order,
    its parameters, and the rows it selects given the statement's arguments. *)
Record clause := mkClause {
  cl_sql : string;
  cl_placeholders : list nat;
  cl_params : list Value;
  cl_holds : db → list Value → string → row → bool;
}.

Inductive where_part :=
  | WCollection (ph : nat)
  | WValid
  | WKeyset (c : keyset_cond)
  | WClause (c : clause).

Definition render_where (w : where_part) : outcome string :=
  match w with
  | WCollection ph => Ok ("collection = " +:+ Placeholder ph)
  | WValid => Ok validStatusLiteralCondition
  | WKeyset c => render_keyset c
  | WClause c => Ok (cl_sql c)
  end.

Definition keyset_placeholders (c : keyset_cond) : list nat :=
  match c with
  | Undated _ ph => [ph] | DatedAll | UndatedAll => []
  | Dated _ p1 p2 => [p1; p2] | FieldCursor _ _ p1 p2 p3 => [p1; p2; p3]
  end.

Definition where_placeholders (w : where_part) : list nat :=
  match w with
  | WCollection ph => [ph] | WValid => []
  | WKeyset c => keyset_placeholders c | WClause c => cl_placeholders c
  end.

(** ** Segments and pages *)

Record keysetSegment := mkSegment { condition : option keyset_cond; seg_args : list Value }.

Definition recordCreatedAtKeysetSegments (direction cursorValue cursorURI : string) (firstPlaceholder : nat)
    : list keysetSegment :=
  let ascending := (direction =? "ASC")%string in
  let cmp := if ascending then Greater else Less in
  if (cursorValue =? "")%string then
    let undated := mkSegment (Some (Undated cmp firstPlaceholder)) [TextValue cursorURI] in
    if negb ascending then [undated] else [undated; mkSegment (Some DatedAll) []]
  else
    let dated := mkSegment (Some (Dated cmp firstPlaceholder (firstPlaceholder + 1)))
      [TextValue cursorValue; TextValue cursorURI] in
    if ascending then [dated] else [dated; mkSegment (Some UndatedAll) []].

Record pageSegment := mkPageSegment { ps_where : list where_part; ps_args : list Value }.

Record sortedPage := mkPage {
  page_sort : option SortOption;
  columns : string;
  orderBy : outcome string;
  segments : list pageSegment;
}.

Fixpoint render_all (ws : list where_part) : outcome (list string) :=
  match ws with
  | [] => Ok []
  | w :: ws' => t ← render_where w; ts ← render_all ws'; mret (t :: ts)
  end.

(** [sortedPage.sql] *)
Definition page_sql (p : sortedPage) (seg : pageSegment) (limit : nat) : outcome string :=
  ts ← render_all (ps_where seg); order ← orderBy p;
  Ok ("SELECT " +:+ columns p +:+ " FROM record WHERE " +:+ join " AND " ts +:+ " ORDER BY " +:+ order
    +:+ " LIMIT " +:+ itoa (Z.of_nat limit)).

Definition newSortedPage (sort : option SortOption) (whereParts : list where_part) (args : list Value)
    (keyset : list keysetSegment) : sortedPage :=
  let keyset := match keyset with [] => [mkSegment None []] | _ => keyset end in
  mkPage sort (sortedRecordColumns sort) (buildSortExpr sort)
    ((λ k, mkPageSegment (whereParts ++ match condition k with Some c => [WKeyset c] | None => [] end)
       (args ++ seg_args k)) <$> keyset).

(** A clause builder gets the first free placeholder; [None]: no clause. *)
Definition clause_builder := nat → outcome (option clause).

Definition add_clause (msg : string) (b : clause_builder) (st : list where_part * list Value * nat)
    : outcome (list where_part * list Value * nat) :=
  let '(whereParts, args, nextPlaceholder) := st in
  c ← wrap_err msg (b nextPlaceholder);
  Ok match c with
     | None => st
     | Some c => (whereParts ++ [WClause c], args ++ cl_params c, nextPlaceholder + length (cl_params c))
     end.

Definition sortedRecordsPage (collection : string) (filters didFilter labels : clause_builder)
    (sort : option SortOption) (afterCursorValues : list string) (validOnly : bool) : outcome sortedPage :=
  let whereParts := WCollection 1 :: (if validOnly then [WValid] else []) in
  let args := [TextValue collection] in
  let sortField := keysetSortFieldName sort in
  let createdAtCursor := (length afterCursorValues =? 2) && (sortField =? SortFieldRecordCreatedAt)%string in
  let st := match afterCursorValues with
    | [afterSortVal; afterURI] =>
        if createdAtCursor then (whereParts, args, 2)
        else
          let cmp := match sort with
            | None => Less
            | Some s => if (Direction s =? "DESC")%string then Less else Greater end in
          (whereParts ++ [WKeyset (FieldCursor sortField cmp 2 3 4)],
           args ++ [TextValue afterSortVal; TextValue afterSortVal; TextValue afterURI], 5)
    | _ => (whereParts, args, 2)
    end in
  st ← add_clause "failed to build filter clause" filters st;
  st ← add_clause "failed to build DID filter clause" didFilter st;
  '(whereParts, args, nextPlaceholder) ← add_clause "failed to build external label filter clause" labels st;
  let keyset := match sort, afterCursorValues with
    | Some s, [v; u] => if createdAtCursor
        then recordCreatedAtKeysetSegments (Direction s) v u nextPlaceholder else []
    | _, _ => []
    end in
  Ok (newSortedPage sort whereParts args keyset).

End text.

(** ** What the statements select *)

Section select.
Context `{Env} `{TextOrder} `{SortKeys}.

Definition field_key (field : string) (kv : string * row) : option sql_key :=
  let '(u, r) := kv in
  if (field =? SortFieldRecordCreatedAt)%string then created_key <$> row_record_created_at r
  else if (field =? "indexed_at")%string then Some (indexed_key (row_indexed_at r))
  else if (field =? "uri")%string then Some (KText u)
  else if (field =? "did")%string then Some (KText (row_did r))
  else if (field =? "collection")%string then Some (KText (row_collection r))
  else if (field =? "cid")%string then Some (KText (row_cid r))
  else if (field =? "rkey")%string then KText <$> rkey_column u
  else json_field (row_json r) field.

(** A cursor value is bound as text; timestamps go through [strftime] or a cast. *)
Definition field_cursor (field value : string) : option sql_key :=
  if (field =? "indexed_at")%string then timestamp_cursor value
  else if (field =? SortFieldRecordCreatedAt)%string
  then match dialect with PostgreSQL => timestamp_cursor value | SQLite => Some (KText value) end
  else Some (KText value).

(** [NULL] is the smallest value, except in PostgreSQL's default ordering. *)
Definition null_smallest (field : string) : bool :=
  bool_decide (dialect = SQLite) || (field =? SortFieldRecordCreatedAt)%string.

Definition opt_key_lt (field : string) (x y : option sql_key) : Prop :=
  match x, y with
  | Some a, Some b => key_lt a b
  | None, Some _ => null_smallest field = true
  | Some _, None => null_smallest field = false
  | None, None => False
  end.
#[export] Instance opt_key_lt_dec field : RelDecision (opt_key_lt field).
Proof. intros [a|] [b|]; simpl; apply _. Defined.

(** Ascending order on the sort field, then on the URI. *)
Definition asc_lt (field : string) (x y : string * row) : Prop :=
  opt_key_lt field (field_key field x) (field_key field y) ∨
  field_key field x = field_key field y ∧ text_lt x.1 y.1.
#[export] Instance asc_lt_dec field : RelDecision (asc_lt field).
Proof. unfold asc_lt. intros x y. apply _. Defined.

(** [ORDER BY buildSortExpr sort]: anything but [ASC] is descending. *)
Definition is_asc (sort : option SortOption) : bool :=
  match sort with None => false | Some s => (Direction s =? "ASC")%string end.
Definition row_lt (sort : option SortOption) (x y : string * row) : Prop :=
  let field := keysetSortFieldName sort in
  if is_asc sort then asc_lt field x y else asc_lt field y x.
#[export] Instance row_lt_dec sort : RelDecision (row_lt sort).
Proof. unfold row_lt. intros x y. destruct (is_asc sort); apply _. Defined.

Definition row_le (sort : option SortOption) (x y : string * row) : Prop := ¬ row_lt sort y x.
#[export] Instance row_le_dec sort : RelDecision (row_le sort).
Proof. unfold row_le. intros x y. apply _. Defined.

Definition cmp_holds {A} (lt : relation A) (c : cmp_op) (x y : A) : Prop :=
  match c with Less => lt x y | Greater => lt y x end.

Definition arg_text (args : list Value) (ph : nat) : string :=
  null_string (column_text (nth (ph - 1) args NullValue)).

(** SQL's three-valued logic: a comparison with [NULL] does not select. *)
Definition keyset_holds (args : list Value) (c : keyset_cond) (kv : string * row) : Prop :=
  match c with
  | Undated cmp ph => row_record_created_at kv.2 = None ∧ cmp_holds text_lt cmp kv.1 (arg_text args ph)
  | DatedAll => row_record_created_at kv.2 ≠ None
  | UndatedAll => row_record_created_at kv.2 = None
  | Dated cmp ph1 ph2 =>
      match field_key SortFieldRecordCreatedAt kv, field_cursor SortFieldRecordCreatedAt (arg_text args ph1) with
      | Some k, Some c => cmp_holds key_lt cmp k c ∨ k = c ∧ cmp_holds text_lt cmp kv.1 (arg_text args ph2)
      | _, _ => False
      end
  | FieldCursor field cmp ph1 ph2 ph3 =>
      match field_key field kv with
      | None => False
      | Some k =>
          match field_cursor field (arg_text args ph1) with
          | Some c => cmp_holds key_lt cmp k c | None => False end ∨
          (field_cursor field (arg_text args ph2) = Some k ∧ cmp_holds text_lt cmp kv.1 (arg_text args ph3))
      end
  end.
#[export] Instance cmp_holds_dec {A} (lt : relation A) `{RelDecision _ _ lt} c x y : Decision (cmp_holds lt c x y).
Proof. destruct c; simpl; apply _. Defined.
#[export] Instance keyset_holds_dec args c kv : Decision (keyset_holds args c kv).
Proof.
  destruct c as [| | | |field cmp ph1 ph2 ph3]; cbn [keyset_holds]; try apply _.
  - destruct (field_key SortFieldRecordCreatedAt kv), (field_cursor SortFieldRecordCreatedAt (arg_text args ph1)); apply _.
  - destruct (field_key field kv); [|apply _]. apply or_dec; [|apply _].
    destruct (field_cursor field (arg_text args ph1)); apply _.
Defined.

Definition where_holds (d : db) (args : list Value) (w : where_part) (kv : string * row) : Prop :=
  match w with
  | WCollection ph => row_collection kv.2 = arg_text args ph
  | WValid => row_validation_status kv.2 = StatusValid
  | WKeyset c => keyset_holds args c kv
  | WClause c => cl_holds c d args kv.1 kv.2 = true
  end.
#[export] Instance where_holds_dec d args w kv : Decision (where_holds d args w kv).
Proof. destruct w; simpl; apply _. Defined.

Definition sorted_rows (sort : option SortOption) (d : db) : list (string * row) :=
  merge_sort (row_le sort) (map_to_list (db_records d)).

(** The rows of one segment, in the page's order. *)
Definition segment_rows (page : sortedPage) (seg : pageSegment) (d : db) : list (string * row) :=
  filter (λ kv, Forall (λ w, where_holds d (ps_args seg) w kv) (ps_where seg)) (sorted_rows (page_sort page) d).

(** A record of a sorted page, with the creation time it was sorted by. *)
Record SortedRecord := mkSorted { so_record : RecordStruct; so_created_at : string }.

Definition scan_sorted (sort : option SortOption) (kv : string * row) : outcome SortedRecord :=
  rec ← scan_record kv;
  Ok (mkSorted rec (if (keysetSortFieldName sort =? SortFieldRecordCreatedAt)%string
    then null_string (created_text <$> row_record_created_at kv.2) else "")).

Fixpoint scanSortedRecords (sort : option SortOption) (rows : list (string * row)) : outcome (list SortedRecord) :=
  match rows with
  | [] => Ok []
  | r :: rest => x ← scan_sorted sort r; xs ← scanSortedRecords sort rest; mret (x :: xs)
  end.

Definition querySegment (page : sortedPage) (seg : pageSegment) (limit : nat) (label : string)
    : M db (list SortedRecord) :=
  of_outcome (validateSQLiteAggregateParameterCount (length (ps_args seg))) ;;
  of_outcome (page_sql page seg limit) ;;
  rows ← wrap ("failed to query " +:+ label +:+ " records") (query (λ d, take limit (segment_rows page seg d)));
  of_outcome (scanSortedRecords (page_sort page) rows).

(** [readSegments]: the first segment always runs, a later one only for a shortfall. *)
Fixpoint readSegments_loop {A Seg} (read : Seg → nat → M db (list A)) (limit : nat) (segs : list Seg)
    (first : bool) (records : list A) : M db (list A) :=
  match segs with
  | [] => mret records
  | seg :: rest =>
      if negb first && (limit <=? length records) then mret records
      else
        page ← read seg (limit - length records);
        readSegments_loop read limit rest false (records ++ page)
  end.
Definition readSegments {A Seg} (limit : nat) (segs : list Seg) (read : Seg → nat → M db (list A))
    : M db (list A) := readSegments_loop read limit segs true [].

Definition readSortedPage (page : sortedPage) (limit : nat) (label : string) : M db (list SortedRecord) :=
  readSegments limit (segments page) (λ seg remaining, querySegment page seg remaining label).

Definition getByCollectionSortedWithKeysetCursor (collection : string)
    (filters didFilter labels : clause_builder) (sort : option SortOption) (limit : nat)
    (afterCursorValues : list string) (validOnly : bool) : M db (list SortedRecord) :=
  page ← of_outcome (sortedRecordsPage collection filters didFilter labels sort afterCursorValues validOnly);
  readSortedPage page limit "sorted".

Definition reversed_sort (sort : option SortOption) : SortOption :=
  match sort with
  | None => mkSort "indexed_at" "ASC"
  | Some s => mkSort (Field s) (if (Direction s =? "ASC")%string then "DESC" else "ASC")
  end.

Definition getByCollectionReversedWithKeysetCursor (collection : string)
    (filters didFilter labels : clause_builder) (sort : option SortOption) (limit : nat)
    (beforeCursorValues : list string) (validOnly : bool) : M db (list SortedRecord) :=
  page ← of_outcome (sortedRecordsPage collection filters didFilter labels (Some (reversed_sort sort))
    beforeCursorValues validOnly);
  records ← readSortedPage page limit "reversed";
  mret (reverse records).


(** The member of a decoded object, printed with [%v]. *)
Definition json_field_text (j field : string) : string :=
  match json_parse j with
  | Some (JObject ms) =>
      match last (filter (λ m : member, (m.1 =? field)%string = true) ms) with
      | Some (_, (_, JString s)) => s
      | Some (_, (_, JBool b)) => if b then "true" else "false"
      | None | Some (_, (_, JNull)) => ""
      | Some (_, (_, v)) => format_value v
      end
  | _ => ""
  end.

(** graphql/schema/builder.go [sortFieldValueForRecord] *)
Definition sortFieldValueForRecord (rec : SortedRecord) (sort : option SortOption) : string :=
  let r := so_record rec in
  match sort with
  | None => format_time (rec_indexed_at r)
  | Some s =>
      let f := Field s in
      if (f =? SortFieldRecordCreatedAt)%string then so_created_at rec
      else if (f =? "indexed_at")%string then format_time (rec_indexed_at r)
      else if (f =? "uri")%string then rec_uri r
      else if (f =? "did")%string then rec_did r
      else if (f =? "collection")%string then rec_collection r
      else if (f =? "cid")%string then rec_cid r
      else if (f =? "rkey")%string then rec_rkey r
      else json_field_text (rec_json r) f
  end.

(** The cursor values of an edge. *)
Definition cursor_values (sort : option SortOption) (rec : SortedRecord) : list string :=
  [sortFieldValueForRecord rec sort; rec_uri (so_record rec)].

End select.
