(* ===== verification/Filters.v ===== *)
(** * Filter clauses

    The clause builders of src/internal/database/repositories/records.go: field
    filters (JSON properties, columns, correlated array elements, contributors, badge
    types), DID filters and external-label filters. A condition is built with the
    numbers of its placeholders; its text and what it selects are read off it. *)
From S2P Require Import Prelude GoStrings Json Effects Database Like RecordStore Keyset.

(** ** Values of a filter *)

(** An [interface{}] value. A float and a value of any other type carry what [%v]
    prints. *)
Inductive goval :=
  | GNil
  | GString (s : string)
  | GInt (z : Z)
  | GFloat (printed : string)
  | GBool (b : bool)
  | GList (l : list goval)
  | GStrings (l : list string)
  | GOther (printed : string).

(** [fmt.Sprintf("%v", v)] *)
Fixpoint print_v (v : goval) : string :=
  match v with
  | GNil => "<nil>"
  | GString s | GFloat s | GOther s => s
  | GInt z => itoa z
  | GBool b => if b then "true" else "false"
  | GList l => "[" +:+ join " " (List.map print_v l) +:+ "]"
  | GStrings l => "[" +:+ join " " l +:+ "]"
  end.

Definition toDBValue (v : goval) : Value :=
  match v with
  | GString s => TextValue s
  | GInt z => IntValue z
  | GFloat f => FloatValue f
  | GBool b => BoolValue b
  | GNil => NullValue
  | v => TextValue (print_v v)
  end.

Definition MaxINListSize : nat := 100.

(** records.go [FieldFilterTarget] *)
Definition FieldFilterTargetJSON : string := "json".
Definition FieldFilterTargetColumn : string := "column".
Definition FieldFilterTargetContributorDID : string := "contributor_did".
Definition FieldFilterTargetBadgeAwardBadgeType : string := "badge_award_badge_type".

Record FieldFilter := mkFilter {
  ff_Field : string;
  ff_Path : list string;
  ff_ArrayPath : list string;
  ff_Operator : string;
  ff_Value : goval;
  ff_FieldType : string;
  ff_Target : string;
}.

Record DIDFilter := mkDID { did_EQ : string; did_IN : list string }.
Definition did_empty (f : DIDFilter) : bool := (did_EQ f =? "")%string && bool_decide (did_IN f = []).

Definition metadataFilterColumns : list string := ["uri"; SortFieldRecordCreatedAt].

Definition targets_json (f : FieldFilter) : bool :=
  (ff_Target f =? "")%string || (ff_Target f =? FieldFilterTargetJSON)%string.

Definition isArrayAnyFilter (f : FieldFilter) : bool :=
  targets_json f && negb (bool_decide (ff_ArrayPath f = [])).

Definition arrayFilterGroupKey (f : FieldFilter) : string :=
  if negb (isArrayAnyFilter f) then "" else join (byte_str (byte 0)) (ff_ArrayPath f).

(** ** Expressions and conditions *)

(** What a scalar condition reads. *)
Inductive extract :=
  | XField (field : string)
  | XPath (path : list string)
  | XColumn (column : string)
  | XElement (alias : string) (path : list string)
  | XBadgeType.

Inductive scalar_cond :=
  | SCmp (op : string) (ph : nat)
  | SLike (ph : nat)
  | SIsNull (isNull : bool)
  | SIn (first count : nat)
  | SNever.

Record scalar := mkScalar { sc_extract : extract; sc_numeric : bool; sc_cond : scalar_cond }.

Inductive cond :=
  | CScalar (s : scalar)
  | CArrayAny (path : list string) (alias : string) (inner : list scalar)
  | CCreated (op : string) (ph : nat)
  | CCreatedIn (first count : nat)
  | CContributor (first count : nat)
  | CNever.

(** A condition, its parameters and the placeholders it consumes. *)
Definition built (C : Type) : Type := C * list Value * nat.

(** [eq], [gt], ...: the operators that are one comparison. *)
Definition comparison (operator : string) : option string :=
  if (operator =? "eq")%string then Some "=" else if (operator =? "neq")%string then Some "!="
  else if (operator =? "gt")%string then Some ">" else if (operator =? "lt")%string then Some "<"
  else if (operator =? "gte")%string then Some ">=" else if (operator =? "lte")%string then Some "<="
  else None.

Definition buildScalarFilterCondition (x : extract) (f : FieldFilter) (placeholderIdx : nat)
    : outcome (built scalar) :=
  let isNumeric := (ff_FieldType f =? "integer")%string || (ff_FieldType f =? "number")%string in
  let s := mkScalar x isNumeric in
  match comparison (ff_Operator f) with
  | Some op => Ok (s (SCmp op placeholderIdx), [toDBValue (ff_Value f)], 1)
  | None =>
    if (ff_Operator f =? "contains")%string then
      Ok (s (SLike placeholderIdx), [TextValue ("%" +:+ escapeLIKE (print_v (ff_Value f)) +:+ "%")], 1)
    else if (ff_Operator f =? "startsWith")%string then
      Ok (s (SLike placeholderIdx), [TextValue (escapeLIKE (print_v (ff_Value f)) +:+ "%")], 1)
    else if (ff_Operator f =? "isNull")%string then
      match ff_Value f with
      | GBool b => Ok (s (SIsNull b), [], 0)
      | _ => Err ("isNull filter on field " +:+ ff_Field f +:+ " must be a boolean")
      end
    else if (ff_Operator f =? "in")%string then
      match ff_Value f with
      | GList [] => Ok (s SNever, [], 0)
      | GList vs =>
          if MaxINListSize <? length vs
          then Err ("IN filter on field " +:+ ff_Field f +:+ " exceeds maximum of 100 values")
          else Ok (s (SIn placeholderIdx (length vs)), toDBValue <$> vs, length vs)
      | _ => Err ("IN filter on field " +:+ ff_Field f +:+ " must be a list")
      end
    else Err ("unsupported filter operator " +:+ ff_Operator f +:+ " for field " +:+ ff_Field f)
  end.

Fixpoint strings_of (vs : list goval) : option (list string) :=
  match vs with
  | [] => Some []
  | GString s :: vs' => ss ← strings_of vs'; Some (s :: ss)
  | _ => None
  end.

Definition buildRecordCreatedAtFilterCondition (f : FieldFilter) (placeholderIdx : nat) : outcome (built cond) :=
  match comparison (ff_Operator f) with
  | Some op =>
      match ff_Value f with
      | GString v => Ok (CCreated op placeholderIdx, [TextValue v], 1)
      | _ => Err "record_created_at filter must be a normalized datetime string"
      end
  | None =>
      if (ff_Operator f =? "in")%string then
        match ff_Value f with
        | GList [] => Ok (CNever, [], 0)
        | GList vs =>
            if MaxINListSize <? length vs
            then Err ("IN filter on field " +:+ ff_Field f +:+ " exceeds maximum of 100 values")
            else match strings_of vs with
              | Some ss => Ok (CCreatedIn placeholderIdx (length ss), TextValue <$> ss, length ss)
              | None => Err "record_created_at in filter values must be normalized datetime strings"
              end
        | _ => Err "record_created_at in filter must be a list"
        end
      else Err ("unsupported record_created_at filter operator " +:+ ff_Operator f)
  end.

Definition contributorDIDFilterValues (f : FieldFilter) : outcome (list string) :=
  if (ff_Operator f =? "eq")%string then
    match ff_Value f with
    | GString v => Ok (if (v =? "")%string then [] else [v])
    | _ => Err "contributor DID eq filter must be a string"
    end
  else if (ff_Operator f =? "in")%string then
    match ff_Value f with
    | GList vs =>
        match strings_of vs with
        | Some ss => Ok (filter (λ s, s ≠ "") ss)
        | None => Err "contributor DID in filter values must be strings"
        end
    | _ => Err "contributor DID in filter must be a list"
    end
  else Err ("unsupported contributor DID filter operator " +:+ ff_Operator f).

Definition contributorDIDParams (values : list string) (copies : nat) : list Value :=
  concat (replicate copies (TextValue <$> values)).

Section builders.
Context `{Env}.

(** PostgreSQL names a placeholder several times, SQLite binds a copy each time. *)
Definition contributor_copies : nat := match dialect with PostgreSQL => 2 | SQLite => 5 end.

Definition buildContributorDIDFilterCondition (f : FieldFilter) (placeholderIdx : nat) : outcome (built cond) :=
  values ← contributorDIDFilterValues f;
  if decide (values = []) then Ok (CNever, [], 0)
  else if MaxINListSize <? length values then Err "contributor DID filter exceeds maximum of 100 values"
  else let params := contributorDIDParams values contributor_copies in
       Ok (CContributor placeholderIdx (length values), params, length params).

(** ** Text *)

Definition sqliteJSONPath (path : list string) : string :=
  if decide (path = []) then "$" else "$." +:+ join "." path.

Definition jsonTextPathExpr (column : string) (path : list string) : outcome string :=
  if decide (path = []) then
    Ok (match dialect with PostgreSQL => column +:+ " #>> '{}'" | SQLite => column end)
  else
    e ← JSONExtractPath column path;
    Ok (match dialect with
        | PostgreSQL => e
        | SQLite => "CASE WHEN json_valid(" +:+ column +:+ ") THEN " +:+ e +:+ " ELSE NULL END" end).

Definition sqliteJSONTypePathExpr (column : string) (path : list string) : outcome string :=
  JSONExtractPath column path;;
  Ok ("json_type(" +:+ column +:+ ", '" +:+ sqliteJSONPath path +:+ "')").

Definition jsonValuePathExpr (column : string) (path : list string) : outcome string :=
  if decide (path = []) then Ok column
  else
    e ← JSONExtractPath column path;
    Ok (match dialect with
        | SQLite => e
        | PostgreSQL => column +:+ String.concat "" ((λ segment, "->'" +:+ segment +:+ "'") <$> path) end).

Definition badgeAwardBadgeTypeExpr : outcome string :=
  badgeURIExpr ← jsonTextPathExpr "record.json" ["badge"; "uri"];
  badgeTypeExpr ← jsonTextPathExpr "badge_definition.json" ["badgeType"];
  Ok ("(
		SELECT " +:+ badgeTypeExpr +:+ "
		FROM record badge_definition
		WHERE badge_definition.uri = " +:+ badgeURIExpr +:+ "
			AND badge_definition.collection = 'app.certified.badge.definition'
		LIMIT 1
	)").

Definition render_extract (x : extract) : outcome string :=
  match x with
  | XField field => JSONExtract "json" field
  | XPath path => JSONExtractPath "json" path
  | XColumn column => Ok column
  | XElement alias path => jsonTextPathExpr (alias +:+ ".value") path
  | XBadgeType => badgeAwardBadgeTypeExpr
  end.

Definition likeOp : string := match dialect with PostgreSQL => "ILIKE" | SQLite => "LIKE" end.

Definition render_scalar (s : scalar) : outcome string :=
  extract ← render_extract (sc_extract s);
  let extract :=
    if sc_numeric s then
      match dialect with
      | PostgreSQL => "(" +:+ extract +:+ ")::numeric"
      | SQLite => "CAST(" +:+ extract +:+ " AS REAL)" end
    else extract in
  Ok match sc_cond s with
     | SCmp op ph => extract +:+ " " +:+ op +:+ " " +:+ Placeholder ph
     | SLike ph => extract +:+ " " +:+ likeOp +:+ " " +:+ Placeholder ph +:+ " ESCAPE '\'"
     | SIsNull b => extract +:+ (if b then " IS NULL" else " IS NOT NULL")
     | SIn first count => extract +:+ " IN (" +:+ Placeholders count first +:+ ")"
     | SNever => "1 = 0"
     end.

Fixpoint render_list {C} (render : C → outcome string) (cs : list C) : outcome (list string) :=
  match cs with
  | [] => Ok []
  | c :: cs' => t ← render c; ts ← render_list render cs'; mret (t :: ts)
  end.

Definition render_array_any (path : list string) (alias : string) (inner : list scalar) : outcome string :=
  arrayExpr ← jsonValuePathExpr "record.json" path;
  inner ← render_list render_scalar inner;
  let innerCondition := join " AND " inner in
  match dialect with
  | PostgreSQL =>
      let safeArrayExpr := "CASE WHEN jsonb_typeof(" +:+ arrayExpr +:+ ") = 'array' THEN " +:+ arrayExpr
        +:+ " ELSE '[]'::jsonb END" in
      Ok ("EXISTS (SELECT 1 FROM jsonb_array_elements(" +:+ safeArrayExpr +:+ ") AS " +:+ alias
        +:+ "(value) WHERE " +:+ innerCondition +:+ ")")
  | SQLite =>
      arrayTypeExpr ← sqliteJSONTypePathExpr "record.json" path;
      let safeArrayExpr := "CASE WHEN " +:+ arrayTypeExpr +:+ " = 'array' THEN " +:+ arrayExpr
        +:+ " ELSE '[]' END" in
      Ok (arrayTypeExpr +:+ " = 'array' AND EXISTS (SELECT 1 FROM json_each(" +:+ safeArrayExpr +:+ ") AS "
        +:+ alias +:+ " WHERE " +:+ innerCondition +:+ ")")
  end.

(** The placeholders of the [k]-th list of the contributor condition. *)
Definition contributor_group (first count k : nat) : nat :=
  match dialect with
  | PostgreSQL => if k <? 4 then first else first + count
  | SQLite => first + k * count
  end.

Definition render_contributor (first count : nat) : outcome string :=
  let group k := Placeholders count (contributor_group first count k) in
  match dialect with
  | PostgreSQL => Ok ("EXISTS (
			SELECT 1 FROM jsonb_array_elements(CASE WHEN jsonb_typeof(record.json->'contributors') = 'array' THEN record.json->'contributors' ELSE '[]'::jsonb END) AS contributor(value)
			WHERE contributor.value #>> '{}' IN (" +:+ group 0 +:+ ")
				OR contributor.value->>'identity' IN (" +:+ group 1 +:+ ")
				OR contributor.value->'contributorIdentity'->>'identity' IN (" +:+ group 2 +:+ ")
				OR contributor.value->'contributorIdentity'->>'did' IN (" +:+ group 3 +:+ ")
				OR EXISTS (
					SELECT 1 FROM record contributor_info
					WHERE contributor_info.uri = contributor.value->'contributorIdentity'->>'uri'
						AND contributor_info.collection = 'org.hypercerts.claim.contributorInformation'
						AND contributor_info.json->>'identifier' IN (" +:+ group 4 +:+ ")
				)
		)")
  | SQLite =>
      directIdentityExpr ← jsonTextPathExpr "contributor.value" ["identity"];
      identityExpr ← jsonTextPathExpr "contributor.value" ["contributorIdentity"; "identity"];
      didExpr ← jsonTextPathExpr "contributor.value" ["contributorIdentity"; "did"];
      contributorInfoURIExpr ← jsonTextPathExpr "contributor.value" ["contributorIdentity"; "uri"];
      contributorsExpr ← jsonValuePathExpr "record.json" ["contributors"];
      contributorsTypeExpr ← sqliteJSONTypePathExpr "record.json" ["contributors"];
      let safeContributorsExpr := "CASE WHEN " +:+ contributorsTypeExpr +:+ " = 'array' THEN "
        +:+ contributorsExpr +:+ " ELSE '[]' END" in
      Ok ("EXISTS (
			SELECT 1 FROM json_each(" +:+ safeContributorsExpr +:+ ") AS contributor
			WHERE contributor.value IN (" +:+ group 0 +:+ ")
				OR " +:+ directIdentityExpr +:+ " IN (" +:+ group 1 +:+ ")
				OR " +:+ identityExpr +:+ " IN (" +:+ group 2 +:+ ")
				OR " +:+ didExpr +:+ " IN (" +:+ group 3 +:+ ")
				OR EXISTS (
					SELECT 1 FROM record contributor_info
					WHERE contributor_info.uri = " +:+ contributorInfoURIExpr +:+ "
						AND contributor_info.collection = 'org.hypercerts.claim.contributorInformation'
						AND json_extract(contributor_info.json, '$.identifier') IN (" +:+ group 4 +:+ ")
				)
		)")
  end.

Definition render_cond (c : cond) : outcome string :=
  match c with
  | CScalar s => render_scalar s
  | CArrayAny path alias inner => render_array_any path alias inner
  | CCreated op ph => Ok ("record_created_at " +:+ op +:+ " " +:+ recordCreatedAtCursorValueExpr (Placeholder ph))
  | CCreatedIn first count =>
      Ok ("record_created_at IN (" +:+
        join ", " ((λ ph, recordCreatedAtCursorValueExpr (Placeholder ph)) <$> seq first count) +:+ ")")
  | CContributor first count => render_contributor first count
  | CNever => Ok "1 = 0"
  end.

(** ** Building *)

Fixpoint build_array_conditions (arrayPath : list string) (alias : string) (fs : list FieldFilter) (placeholderIdx : nat)
    : outcome (built (list scalar)) :=
  match fs with
  | [] => Ok ([], [], 0)
  | f :: rest =>
      if negb (isArrayAnyFilter f && bool_decide (ff_ArrayPath f = arrayPath))
      then Err "array any filters must share one JSON array path"
      else
        '(c, ps, n) ← buildScalarFilterCondition (XElement alias (ff_Path f)) f placeholderIdx;
        '(cs, pss, m) ← build_array_conditions arrayPath alias rest (placeholderIdx + n);
        Ok (c :: cs, ps ++ pss, n + m)
  end.

Definition buildArrayAnyFilterCondition (fs : list FieldFilter) (placeholderIdx filterIndex : nat) : outcome (built cond) :=
  match fs with
  | [] => Err "array any filter requires at least one condition"
  | first :: _ =>
      let alias := "nested_filter_" +:+ itoa (Z.of_nat filterIndex) in
      '(inner, params, consumed) ← build_array_conditions (ff_ArrayPath first) alias fs placeholderIdx;
      Ok (CArrayAny (ff_ArrayPath first) alias inner, params, consumed)
  end.

Definition filterFieldExpr (f : FieldFilter) : outcome extract :=
  if targets_json f then Ok (if decide (ff_Path f = []) then XField (ff_Field f) else XPath (ff_Path f))
  else if (ff_Target f =? FieldFilterTargetColumn)%string then
    if bool_decide (ff_Field f ∈ metadataFilterColumns) then Ok (XColumn (ff_Field f))
    else Err ("unsupported metadata filter column " +:+ ff_Field f)
  else Err ("unsupported filter target " +:+ ff_Target f).

Definition scalar_built (b : built scalar) : built cond := let '(s, ps, n) := b in (CScalar s, ps, n).

Definition buildFieldFilterCondition (f : FieldFilter) (placeholderIdx filterIndex : nat) : outcome (built cond) :=
  if (ff_Target f =? FieldFilterTargetContributorDID)%string then
    buildContributorDIDFilterCondition f placeholderIdx
  else if (ff_Target f =? FieldFilterTargetBadgeAwardBadgeType)%string then
    scalar_built <$> buildScalarFilterCondition XBadgeType f placeholderIdx
  else if isArrayAnyFilter f then buildArrayAnyFilterCondition [f] placeholderIdx filterIndex
  else if (ff_Target f =? FieldFilterTargetColumn)%string && (ff_Field f =? SortFieldRecordCreatedAt)%string then
    buildRecordCreatedAtFilterCondition f placeholderIdx
  else
    x ← filterFieldExpr f;
    scalar_built <$> buildScalarFilterCondition x f placeholderIdx.

(** The loop of [buildFilterClause]: the conditions of the filters from index [i] on.
    The first filter of an array path takes the later ones of that path with it. *)
Fixpoint build_filters (fs : list FieldFilter) (i : nat) (processedArrayGroups : list string) (placeholderIdx : nat)
    : outcome (list cond * list Value) :=
  match fs with
  | [] => Ok ([], [])
  | f :: rest =>
      if isArrayAnyFilter f && bool_decide (arrayFilterGroupKey f ∈ processedArrayGroups)
      then build_filters rest (S i) processedArrayGroups placeholderIdx
      else
        let groupKey := arrayFilterGroupKey f in
        '(c, ps, consumed) ←
          (if isArrayAnyFilter f
           then buildArrayAnyFilterCondition (filter (λ g, arrayFilterGroupKey g = groupKey) fs) placeholderIdx i
           else buildFieldFilterCondition f placeholderIdx i);
        '(cs, pss) ← build_filters rest (S i)
          (if isArrayAnyFilter f then groupKey :: processedArrayGroups else processedArrayGroups)
          (placeholderIdx + consumed);
        Ok (c :: cs, ps ++ pss)
  end.

(** ** Placeholders, in text order *)

Definition scalar_placeholders (s : scalar) : list nat :=
  match sc_cond s with
  | SCmp _ ph | SLike ph => [ph] | SIn first count => seq first count | SIsNull _ | SNever => []
  end.

Definition cond_placeholders (c : cond) : list nat :=
  match c with
  | CScalar s => scalar_placeholders s
  | CArrayAny _ _ inner => concat (scalar_placeholders <$> inner)
  | CCreated _ ph => [ph]
  | CCreatedIn first count => seq first count
  | CContributor first count => concat ((λ k, seq (contributor_group first count k) count) <$> seq 0 5)
  | CNever => []
  end.

Definition buildDIDFilterClause (f : DIDFilter) (startPlaceholder : nat) : outcome (option clause) :=
  if did_empty f then Ok None
  else if negb (did_EQ f =? "")%string then
    Ok (Some (mkClause ("did = " +:+ Placeholder startPlaceholder) [startPlaceholder] [TextValue (did_EQ f)]
      (λ _ args _ r, (row_did r =? arg_text args startPlaceholder)%string)))
  else if MaxINListSize <? length (did_IN f) then Err "DID filter IN list exceeds maximum of 100 values"
  else
    let phs := seq startPlaceholder (length (did_IN f)) in
    Ok (Some (mkClause ("did IN (" +:+ Placeholders (length (did_IN f)) startPlaceholder +:+ ")") phs
      (TextValue <$> did_IN f)
      (λ _ args _ r, existsb (λ ph, (row_did r =? arg_text args ph)%string) phs))).
End builders.

(** ** What conditions select *)

(** Functions of the SQL engines: a JSON value at a path of a document (NULL if there
    is none), the elements of an array at a path (none if it is not one) and a value at
    a path of an element, casts, comparisons ([None]: NULL), the text of a value for
    [LIKE], PostgreSQL's [lower], and the instant of a label's timestamp. *)
Class SqlFunctions := {
  json_at : string → list string → Value;
  json_array : string → list string → list string;
  element_at : string → list string → Value;
  cast_numeric : Value → Value;
  sql_compare : string → Value → Value → option bool;
  sql_text : Value → option string;
  pg_lower : string → string;
  label_time : string → option Z;
}.

Section eval.
Context `{Env} `{SqlFunctions}.

Definition arg (args : list Value) (ph : nat) : Value := nth (ph - 1) args NullValue.

Definition sql_true (b : option bool) : bool := match b with Some true => true | _ => false end.

(** [LIKE] and, on PostgreSQL, [ILIKE]: both sides in lower case. *)
Definition text_like (pattern text : string) : bool :=
  match dialect with
  | SQLite => like_match (like_tokens pattern) text
  | PostgreSQL => like_match (like_tokens (pg_lower pattern)) (pg_lower text)
  end.

Definition badge_type (d : db) (r : row) : Value :=
  match sql_text (json_at (row_json r) ["badge"; "uri"]) with
  | Some badge =>
      match db_records d !! badge with
      | Some b => if (row_collection b =? "app.certified.badge.definition")%string
                  then json_at (row_json b) ["badgeType"] else NullValue
      | None => NullValue
      end
  | None => NullValue
  end.

(** The creation time column. *)
Definition created_column (r : row) : Value :=
  match row_record_created_at r with
  | None => NullValue
  | Some c => match dialect with SQLite => TextValue c | PostgreSQL => TimestamptzValue c end
  end.
Definition extract_value (d : db) (u : string) (r : row) (element : string) (x : extract) : Value :=
  match x with
  | XField field => json_at (row_json r) [field]
  | XPath path => json_at (row_json r) path
  | XColumn column => if (column =? SortFieldRecordCreatedAt)%string then created_column r else TextValue u
  | XElement _ path => element_at element path
  | XBadgeType => badge_type d r
  end.

Definition like_value (v pattern : Value) : bool :=
  match sql_text v, column_text pattern with Some t, Some p => text_like p t | _, _ => false end.

Definition scalar_holds (d : db) (args : list Value) (u : string) (r : row) (element : string) (s : scalar) : bool :=
  let v := extract_value d u r element (sc_extract s) in
  let v := if sc_numeric s then cast_numeric v else v in
  match sc_cond s with
  | SCmp op ph => sql_true (sql_compare op v (arg args ph))
  | SLike ph => like_value v (arg args ph)
  | SIsNull b => Bool.eqb (bool_decide (v = NullValue)) b
  | SIn first count => existsb (λ ph, sql_true (sql_compare "=" v (arg args ph))) (seq first count)
  | SNever => false
  end.

(** A value compared with the creation time column. *)
Definition created_value (v : Value) : Value :=
  match dialect, v with PostgreSQL, TextValue s => TimestamptzValue s | _, v => v end.

Definition identity_paths : list (list string) :=
  [[]; ["identity"]; ["contributorIdentity"; "identity"]; ["contributorIdentity"; "did"]].

(** The identifier of the record a contributor refers to. *)
Definition contributor_info (d : db) (element : string) : Value :=
  match sql_text (element_at element ["contributorIdentity"; "uri"]) with
  | Some uri =>
      match db_records d !! uri with
      | Some i => if (row_collection i =? "org.hypercerts.claim.contributorInformation")%string
                  then json_at (row_json i) ["identifier"] else NullValue
      | None => NullValue
      end
  | None => NullValue
  end.

Definition contributor_values (d : db) (element : string) : list Value :=
  (element_at element <$> identity_paths) ++ [contributor_info d element].

Definition equals_arg (args : list Value) (v : Value) (first count : nat) : bool :=
  existsb (λ ph, sql_true (sql_compare "=" v (arg args ph))) (seq first count).

Definition cond_holds (d : db) (args : list Value) (u : string) (r : row) (c : cond) : bool :=
  match c with
  | CScalar s => scalar_holds d args u r "" s
  | CArrayAny path _ inner =>
      existsb (λ e, forallb (scalar_holds d args u r e) inner) (json_array (row_json r) path)
  | CCreated op ph => sql_true (sql_compare op (created_column r) (created_value (arg args ph)))
  | CCreatedIn first count =>
      existsb (λ ph, sql_true (sql_compare "=" (created_column r) (created_value (arg args ph)))) (seq first count)
  | CContributor first count =>
      existsb (λ e, existsb (λ kv : nat * Value, equals_arg args kv.2 (contributor_group first count kv.1) count)
        (imap pair (contributor_values d e))) (json_array (row_json r) ["contributors"])
  | CNever => false
  end.

(** [buildFilterClause], as the clause it returns. *)
Definition buildFilterClause (filters : list FieldFilter) (startPlaceholder : nat) : outcome (option clause) :=
  if decide (filters = []) then Ok None
  else
    '(conditions, params) ← build_filters filters 0 [] startPlaceholder;
    texts ← render_list render_cond conditions;
    Ok (Some (mkClause (join " AND " texts) (concat (cond_placeholders <$> conditions)) params
      (λ d args u r, forallb (cond_holds d args u r) conditions))).
End eval.
