(* ===== verification/KeysetProps.v ===== *)
(** * What keyset pages guarantee

    The sort of a page is a strict total order on rows; the conditions of a cursor
    select exactly the rows after it; following cursors visits every selected row
    once, in order, forwards and backwards; placeholders and arguments line up. *)
From S2P Require Import Prelude GoStrings Json Effects Database RecordStore RecordProps Keyset.

(** ** The order *)

Section order.
Context `{Env} `{TextOrder} `{SortKeys}.

Lemma key_lt_irrefl k : ¬ key_lt k k.
Proof. by intros []. Qed.

Lemma key_leq_trans a b c : key_leq a b → key_leq b c → key_leq a c.
Proof. destruct a, b, c; simpl; try done; [lia|]. intros. by etrans. Qed.

Lemma key_leq_antisym a b : key_leq a b → key_leq b a → a = b.
Proof.
  destruct a as [x|s], b as [y|t]; simpl; try done; intros.
  - f_equal. lia.
  - f_equal. by apply (anti_symm text_le).
Qed.

Lemma key_lt_trans a b c : key_lt a b → key_lt b c → key_lt a c.
Proof.
  intros [Hab Hn1] [Hbc Hn2]. split; [by eapply key_leq_trans|].
  intros ->. apply Hn2. by apply key_leq_antisym.
Qed.

Lemma key_leq_total a b : key_leq a b ∨ key_leq b a.
Proof.
  destruct a as [x|s], b as [y|t]; simpl; auto; [lia|]. apply (total text_le).
Qed.

Lemma key_lt_tri a b : key_lt a b ∨ a = b ∨ key_lt b a.
Proof.
  destruct (decide (a = b)); [by auto|].
  destruct (key_leq_total a b); [left|right; right]; split; auto.
Qed.

Lemma opt_key_lt_irrefl f k : ¬ opt_key_lt f k k.
Proof. destruct k; simpl; [apply key_lt_irrefl|by intros []]. Qed.

Lemma opt_key_lt_trans f a b c : opt_key_lt f a b → opt_key_lt f b c → opt_key_lt f a c.
Proof. destruct a, b, c; simpl; try congruence; try done. apply key_lt_trans. Qed.

Lemma opt_key_lt_tri f a b : opt_key_lt f a b ∨ a = b ∨ opt_key_lt f b a.
Proof.
  destruct a as [a|], b as [b|]; simpl; [|destruct (null_smallest f); auto|destruct (null_smallest f); auto|auto].
  destruct (key_lt_tri a b) as [?|[->|?]]; auto.
Qed.

Lemma asc_lt_irrefl f x : ¬ asc_lt f x x.
Proof. intros [Hk|[_ Ht]]; [by apply opt_key_lt_irrefl in Hk|by apply text_lt_irrefl in Ht]. Qed.

Lemma asc_lt_trans f x y z : asc_lt f x y → asc_lt f y z → asc_lt f x z.
Proof.
  intros [Hx|[E1 Hx]] [Hy|[E2 Hy]].
  - left. by eapply opt_key_lt_trans.
  - left. by rewrite <- E2.
  - left. by rewrite E1.
  - right. split; [congruence|by eapply text_lt_trans].
Qed.

Lemma asc_lt_tri f x y : asc_lt f x y ∨ (field_key f x = field_key f y ∧ x.1 = y.1) ∨ asc_lt f y x.
Proof.
  unfold asc_lt. destruct (opt_key_lt_tri f (field_key f x) (field_key f y)) as [?|[E|?]]; auto.
  destruct (text_lt_tri x.1 y.1) as [?|[?|?]]; auto.
Qed.

#[export] Instance row_lt_strict sort : StrictOrder (row_lt sort).
Proof.
  split.
  - intros x. unfold complement, row_lt. destruct (is_asc sort); apply asc_lt_irrefl.
  - intros x y z. unfold row_lt. destruct (is_asc sort); eauto using asc_lt_trans.
Qed.

Lemma row_lt_tri sort x y :
  row_lt sort x y ∨ (field_key (keysetSortFieldName sort) x = field_key (keysetSortFieldName sort) y ∧ x.1 = y.1)
  ∨ row_lt sort y x.
Proof.
  unfold row_lt. destruct (is_asc sort); destruct (asc_lt_tri (keysetSortFieldName sort) x y) as [?|[?|?]]; auto.
Qed.

Lemma row_le_cases sort x y :
  row_le sort x y → row_lt sort x y ∨
  (field_key (keysetSortFieldName sort) x = field_key (keysetSortFieldName sort) y ∧ x.1 = y.1).
Proof. unfold row_le. destruct (row_lt_tri sort x y) as [?|[?|?]]; auto. done. Qed.

Lemma row_lt_resp sort x x' y :
  field_key (keysetSortFieldName sort) x = field_key (keysetSortFieldName sort) x' → x.1 = x'.1 →
  row_lt sort x' y → row_lt sort x y.
Proof. unfold row_lt, asc_lt. destruct (is_asc sort); by intros -> ->. Qed.

Lemma row_lt_resp_r sort x y y' :
  field_key (keysetSortFieldName sort) y = field_key (keysetSortFieldName sort) y' → y.1 = y'.1 →
  row_lt sort x y' → row_lt sort x y.
Proof. unfold row_lt, asc_lt. destruct (is_asc sort); by intros -> ->. Qed.

#[export] Instance row_le_trans sort : Transitive (row_le sort).
Proof.
  intros x y z Hxy Hyz Hzx. apply row_le_cases in Hxy as [Hxy|[Ek Eu]].
  - apply Hyz. by etrans.
  - apply Hyz. eapply row_lt_resp_r; [by symmetry|by symmetry|done].
Qed.

#[export] Instance row_le_total sort : Total (row_le sort).
Proof.
  intros x y. unfold row_le. destruct (decide (row_lt sort y x)) as [Hl|]; [right|by left].
  intros Hl'. by apply (irreflexivity (row_lt sort) x); etrans.
Qed.

Lemma sorted_rows_nodup sort d : NoDup (sorted_rows sort d).*1.
Proof. unfold sorted_rows. rewrite merge_sort_Permutation. apply (NoDup_fst_map_to_list (M := gmap string)). Qed.

Lemma sorted_rows_increasing sort d : increasing id (row_lt sort) (sorted_rows sort d).
Proof.
  assert (Hs : StronglySorted (row_le sort) (sorted_rows sort d))
    by (apply StronglySorted_merge_sort; apply _).
  pose proof (sorted_rows_nodup sort d) as Hnd.
  revert Hs Hnd. generalize (sorted_rows sort d) as l.
  induction 1 as [|x l Hs IH Hall]; cbn; [constructor|].
  intros [Hx Hnd]%NoDup_cons. constructor; [by apply IH|].
  rewrite Forall_forall in *. intros y Hy. unfold id.
  destruct (row_le_cases _ _ _ (Hall y Hy)) as [?|[_ Eu]]; [done|].
  exfalso. apply Hx. rewrite Eu. by apply list_elem_of_fmap_2.
Qed.

Lemma elem_of_sorted_rows sort d u r : (u, r) ∈ sorted_rows sort d ↔ db_records d !! u = Some r.
Proof. unfold sorted_rows. rewrite merge_sort_Permutation. apply elem_of_map_to_list. Qed.
End order.

(** ** Building a page *)

Section pages.
Context `{Env} `{TextOrder} `{SortKeys}.

(** The parameters are the arguments from position [n] on. *)
Definition binds (args : list Value) (n : nat) (params : list Value) : Prop :=
  ∀ i v, params !! i = Some v → args !! (n - 1 + i) = Some v.

(** The placeholders of a clause with [count] parameters from [n] on: positional on
    SQLite, so in order; numbered on PostgreSQL, so any of them, any number of times. *)
Definition aligned (n count : nat) (phs : list nat) : Prop :=
  match dialect with
  | SQLite => phs = seq n count
  | PostgreSQL => Forall (λ p, n ≤ p < n + count) phs
  end.

(** What a clause builder promises: wherever its placeholders start, its clause
    selects the same rows once its parameters are bound there. *)
Definition builder_spec (b : clause_builder) (sel : db → string → row → bool) : Prop :=
  ∀ n, 1 ≤ n → ∃ oc, b n = Ok oc ∧
    match oc with
    | None => ∀ d u r, sel d u r = true
    | Some c => (∀ d args u r, binds args n (cl_params c) → cl_holds c d args u r = sel d u r) ∧
                aligned n (length (cl_params c)) (cl_placeholders c)
    end.

Definition all_hold (d : db) (args : list Value) (ws : list where_part) (kv : string * row) : Prop :=
  Forall (λ w, where_holds d args w kv) ws.

Lemma binds_app args n p1 p2 :
  1 ≤ n → binds args n (p1 ++ p2) → binds args n p1 ∧ binds args (n + length p1) p2.
Proof.
  intros Hn Hb. split; intros i v Hi.
  - apply Hb. by apply lookup_app_l_Some.
  - replace (n + length p1 - 1 + i) with (n - 1 + (length p1 + i)) by lia.
    apply Hb. rewrite lookup_app_r by lia. by replace (length p1 + i - length p1) with i by lia.
Qed.

Lemma binds_middle pre params post : binds (pre ++ params ++ post) (S (length pre)) params.
Proof.
  intros i v Hi. replace (S (length pre) - 1 + i) with (length pre + i) by lia.
  rewrite lookup_app_r by lia. replace (length pre + i - length pre) with i by lia. by apply lookup_app_l_Some.
Qed.

Lemma aligned_seq n count : aligned n count (seq n count).
Proof. unfold aligned. destruct dialect; [done|]. apply Forall_forall. intros p. rewrite elem_of_seq. lia. Qed.

Lemma aligned_app n a b p1 p2 : aligned n a p1 → aligned (n + a) b p2 → aligned n (a + b) (p1 ++ p2).
Proof.
  unfold aligned. destruct dialect; [by intros -> ->; rewrite seq_app|].
  rewrite !Forall_forall. intros Ha Hb p [Hp|Hp]%elem_of_app; [specialize (Ha p Hp)|specialize (Hb p Hp)]; lia.
Qed.

Definition placeholders (ws : list where_part) : list nat := concat (where_placeholders <$> ws).

Definition renders (ws : list where_part) : Prop := Forall (λ w, is_ok (render_where w) = true) ws.

Lemma add_clause_ok msg b sel ws args n :
  1 ≤ n → builder_spec b sel → ∃ ws' extra,
    add_clause msg b (ws, args, n) = Ok (ws ++ ws', args ++ extra, n + length extra) ∧
    (∀ d as_ kv, binds as_ n extra → all_hold d as_ ws' kv ↔ sel d kv.1 kv.2 = true) ∧
    aligned n (length extra) (placeholders ws') ∧ renders ws'.
Proof.
  intros Hn Hb. destruct (Hb n Hn) as (oc & Hoc & Hspec). unfold add_clause. rewrite Hoc. cbn.
  destruct oc as [c|].
  - destruct Hspec as [Hsel Hph]. exists [WClause c], (cl_params c). split_and!; [done| | |].
    + intros d as_ [u r] Hbind. unfold all_hold. rewrite Forall_singleton. cbn. by rewrite Hsel.
    + unfold placeholders. cbn. by rewrite app_nil_r.
    + by apply Forall_singleton.
  - exists [], []. rewrite !app_nil_r, Nat.add_0_r. split_and!; [done| |apply (aligned_seq n 0)|constructor].
    intros d as_ [u r] _. cbn. rewrite Hspec. by split; [|constructor].
Qed.

Context (collection : string) (filters didFilter labels : clause_builder)
  (fsel dsel lsel : db → string → row → bool)
  (Hf : builder_spec filters fsel) (Hd : builder_spec didFilter dsel) (Hl : builder_spec labels lsel)
  (validOnly : bool).

(** The rows a page's filters admit. *)
Definition selected (d : db) (kv : string * row) : Prop :=
  row_collection kv.2 = collection ∧ (validOnly = true → row_validation_status kv.2 = StatusValid) ∧
  fsel d kv.1 kv.2 = true ∧ dsel d kv.1 kv.2 = true ∧ lsel d kv.1 kv.2 = true.
#[export] Instance selected_dec d kv : Decision (selected d kv).
Proof. unfold selected. apply _. Defined.

(** The conditions before the cursor's. *)
Definition base_parts : list where_part := WCollection 1 :: (if validOnly then [WValid] else []).

(** The filters' part of a [WHERE] list. *)
Definition filters_part (n : nat) (ws' : list where_part) (extra : list Value) : Prop :=
  (∀ d as_ kv, binds as_ n extra → all_hold d as_ ws' kv ↔
     fsel d kv.1 kv.2 = true ∧ dsel d kv.1 kv.2 = true ∧ lsel d kv.1 kv.2 = true) ∧
  aligned n (length extra) (placeholders ws') ∧ renders ws'.

Lemma clauses_ok ws args n :
  1 ≤ n → ∃ ws' extra,
    (st ← add_clause "failed to build filter clause" filters (ws, args, n);
     st ← add_clause "failed to build DID filter clause" didFilter st;
     add_clause "failed to build external label filter clause" labels st)
    = Ok (ws ++ ws', args ++ extra, n + length extra) ∧ filters_part n ws' extra.
Proof.
  intros Hn. destruct (add_clause_ok "failed to build filter clause" _ _ ws args n Hn Hf) as (w1 & e1 & E1 & S1 & P1 & R1).
  destruct (add_clause_ok "failed to build DID filter clause" _ _ (ws ++ w1) (args ++ e1) (n + length e1) ltac:(lia) Hd)
    as (w2 & e2 & E2 & S2 & P2 & R2).
  destruct (add_clause_ok "failed to build external label filter clause" _ _ ((ws ++ w1) ++ w2)
    ((args ++ e1) ++ e2) (n + length e1 + length e2) ltac:(lia) Hl) as (w3 & e3 & E3 & S3 & P3 & R3).
  exists (w1 ++ w2 ++ w3), (e1 ++ e2 ++ e3). unfold filters_part. split_and!.
  - unfold mbind, outcome_bind in *. rewrite E1, E2, E3. rewrite !length_app, !app_assoc, !Nat.add_assoc. done.
  - intros d as_ kv Hb. apply binds_app in Hb as (B1 & Hb); [|lia]. apply binds_app in Hb as (B2 & B3); [|lia].
    specialize (S1 d as_ kv B1). specialize (S2 d as_ kv B2). specialize (S3 d as_ kv B3).
    unfold all_hold in *. rewrite !Forall_app, S1, S2, S3. tauto.
  - unfold placeholders in *. rewrite !fmap_app, !concat_app, !length_app. auto using aligned_app.
  - unfold renders in *. rewrite !Forall_app. done.
Qed.

(** ** Cursors *)

Definition cursor_cmp (sort : option SortOption) : cmp_op := if is_asc sort then Greater else Less.

(** The rows the conditions of a cursor [(v, u)] select, one predicate a segment. *)
Definition field_after (sort : option SortOption) (v u : string) (kv : string * row) : Prop :=
  let f := keysetSortFieldName sort in
  match field_key f kv with
  | None => False
  | Some k =>
      match field_cursor f v with
      | Some c => cmp_holds key_lt (cursor_cmp sort) k c | None => False end ∨
      (field_cursor f v = Some k ∧ cmp_holds text_lt (cursor_cmp sort) kv.1 u)
  end.

Definition cursor_preds (sort : option SortOption) (v u : string) : list (string * row → Prop) :=
  let cmp := cursor_cmp sort in
  let undated kv := row_record_created_at kv.2 = None in
  if negb (keysetSortFieldName sort =? SortFieldRecordCreatedAt)%string then [field_after sort v u]
  else if (v =? "")%string then
    (λ kv, undated kv ∧ cmp_holds text_lt cmp kv.1 u) ::
    (if is_asc sort then [λ kv, ¬ undated kv] else [])
  else field_after sort v u :: (if is_asc sort then [] else [undated]).

(** Directions the resolvers pass. *)
Definition valid_direction (sort : option SortOption) : Prop :=
  match sort with None => True | Some s => Direction s = "ASC" ∨ Direction s = "DESC" end.

(** A segment selects the rows of a predicate, and its placeholders are the
    positions of its arguments. *)
Definition segment_selects (seg : pageSegment) (P : string * row → Prop) : Prop :=
  (∀ d kv, all_hold d (ps_args seg) (ps_where seg) kv ↔ selected d kv ∧ P kv) ∧
  aligned 1 (length (ps_args seg)) (placeholders (ps_where seg)).

Lemma field_cmp sort :
  valid_direction sort →
  match sort with None => Less | Some s => if (Direction s =? "DESC")%string then Less else Greater end
  = cursor_cmp sort.
Proof. unfold cursor_cmp. destruct sort as [[f dir]|]; [|done]. by intros [E|E]; simpl in *; subst. Qed.

Lemma base_holds d args kv :
  all_hold d (TextValue collection :: args) base_parts kv ↔
  row_collection kv.2 = collection ∧ (validOnly = true → row_validation_status kv.2 = StatusValid).
Proof.
  unfold all_hold, base_parts. rewrite Forall_cons.
  change (where_holds d (TextValue collection :: args) (WCollection 1) kv) with (row_collection kv.2 = collection).
  destruct validOnly; [rewrite Forall_singleton|rewrite Forall_nil]; cbn [where_holds]; naive_solver.
Qed.

Lemma base_placeholders : placeholders base_parts = [1].
Proof. unfold base_parts. by destruct validOnly. Qed.

Lemma base_renders : renders base_parts.
Proof. unfold renders, base_parts. by destruct validOnly; repeat constructor. Qed.

Lemma renders_app ws1 ws2 : renders ws1 → renders ws2 → renders (ws1 ++ ws2).
Proof. unfold renders. rewrite Forall_app. done. Qed.

Lemma renders_nil : renders [].
Proof. constructor. Qed.

(** A page's [WHERE] list: the base conditions, a cursor condition before the
    filters, the filters, a cursor condition after them. *)
Lemma assemble pre ws post aks extra kargs (P Q : string * row → Prop) :
  filters_part (2 + length aks) ws extra →
  (∀ d kv, all_hold d (TextValue collection :: aks ++ extra ++ kargs) pre kv ↔ P kv) →
  (∀ d kv, all_hold d (TextValue collection :: aks ++ extra ++ kargs) post kv ↔ Q kv) →
  placeholders pre = seq 2 (length aks) →
  placeholders post = seq (2 + length aks + length extra) (length kargs) →
  segment_selects (mkPageSegment (((base_parts ++ pre) ++ ws) ++ post)
      (((TextValue collection :: aks) ++ extra) ++ kargs)) (λ kv, P kv ∧ Q kv).
Proof.
  intros (Hsel & Hph & _) HP HQ Hpre Hpost. split; cbn [ps_args ps_where].
  - intros d kv. rewrite <- (app_assoc _ extra kargs). unfold all_hold. rewrite !Forall_app.
    change ((((all_hold d (TextValue collection :: aks ++ extra ++ kargs) base_parts kv ∧
      all_hold d (TextValue collection :: aks ++ extra ++ kargs) pre kv) ∧
      all_hold d (TextValue collection :: aks ++ extra ++ kargs) ws kv) ∧
      all_hold d (TextValue collection :: aks ++ extra ++ kargs) post kv) ↔ selected d kv ∧ P kv ∧ Q kv).
    rewrite base_holds, HP, HQ, Hsel; [unfold selected; tauto|].
    apply (binds_middle (TextValue collection :: aks)).
  - unfold placeholders in *. rewrite !fmap_app, !concat_app, !length_app.
    change (length (TextValue collection :: aks)) with (1 + length aks).
    apply aligned_app; [apply aligned_app; [apply aligned_app|exact Hph]|].
    + fold (placeholders base_parts). rewrite base_placeholders. apply aligned_seq.
    + rewrite Hpre. apply aligned_seq.
    + rewrite Hpost. apply aligned_seq.
Qed.

Lemma page_clauses st ws args n :
  1 ≤ n → st = (ws, args, n) → ∃ ws' extra,
    (∀ {A} (k : list where_part * list Value * nat → outcome A),
      (st1 ← add_clause "failed to build filter clause" filters st;
       st2 ← add_clause "failed to build DID filter clause" didFilter st1;
       st3 ← add_clause "failed to build external label filter clause" labels st2; k st3)
      = k (ws ++ ws', args ++ extra, n + length extra)) ∧ filters_part n ws' extra.
Proof.
  intros Hn ->. destruct (clauses_ok ws args n Hn) as (ws' & extra & E & Hpart).
  exists ws', extra. split; [|done]. intros A k. revert E. unfold mbind, outcome_bind.
  destruct (add_clause "failed to build filter clause" _ _) as [st1|]; [|done].
  destruct (add_clause "failed to build DID filter clause" _ st1) as [st2|]; [|done].
  by intros ->.
Qed.

(** The page for a list of segments. *)
Definition page_of (sort : option SortOption) (segs : list pageSegment) : sortedPage :=
  mkPage sort (sortedRecordColumns sort) (buildSortExpr sort) segs.

Lemma all_hold_nil d args kv : all_hold d args [] kv ↔ True.
Proof. split; [done|constructor]. Qed.

Lemma segment_selects_ext seg P Q :
  (∀ kv, P kv ↔ Q kv) → segment_selects seg P → segment_selects seg Q.
Proof. intros HPQ [Ha Hb]. split; [|done]. intros d kv. by rewrite Ha, HPQ. Qed.

Lemma page_first sort :
  ∃ seg, sortedRecordsPage collection filters didFilter labels sort [] validOnly = Ok (page_of sort [seg]) ∧
    segment_selects seg (λ _, True) ∧ renders (ps_where seg).
Proof.
  destruct (page_clauses _ base_parts [TextValue collection] 2 ltac:(lia) eq_refl) as (ws & extra & E & Hpart).
  exists (mkPageSegment (((base_parts ++ []) ++ ws) ++ []) (([TextValue collection] ++ extra) ++ [])).
  split_and!.
  - unfold sortedRecordsPage. fold base_parts. cbn [length Nat.eqb andb]. rewrite E.
    unfold newSortedPage, page_of. destruct sort; cbn [fmap list_fmap condition seg_args];
      by rewrite !app_nil_r.
  - apply (segment_selects_ext _ (λ _, True ∧ True)); [tauto|].
    apply (assemble [] ws [] [] extra []); auto using all_hold_nil.
  - destruct Hpart as (_ & _ & Hr). cbn [ps_where]. auto using renders_app, renders_nil, base_renders.
Qed.

Lemma page_field sort v u :
  keysetSortFieldName sort ≠ SortFieldRecordCreatedAt → valid_direction sort →
  is_ok (keysetSortFieldExpr (keysetSortFieldName sort)) = true →
  ∃ seg, sortedRecordsPage collection filters didFilter labels sort [v; u] validOnly = Ok (page_of sort [seg]) ∧
    segment_selects seg (field_after sort v u) ∧ renders (ps_where seg).
Proof.
  intros Hfield Hdir Hok. set (f := keysetSortFieldName sort) in *.
  set (cond := WKeyset (FieldCursor f (cursor_cmp sort) 2 3 4)).
  set (aks := [TextValue v; TextValue v; TextValue u]).
  destruct (page_clauses _ (base_parts ++ [cond]) ([TextValue collection] ++ aks) 5 ltac:(lia) eq_refl)
    as (ws & extra & E & Hpart).
  exists (mkPageSegment (((base_parts ++ [cond]) ++ ws) ++ []) (((TextValue collection :: aks) ++ extra) ++ [])).
  split_and!.
  - unfold sortedRecordsPage. fold base_parts f. rewrite (proj2 (String.eqb_neq f _) Hfield).
    cbn [length Nat.eqb andb]. rewrite field_cmp by done. fold cond aks. rewrite E.
    unfold newSortedPage, page_of. destruct sort; cbn [fmap list_fmap condition seg_args]; by rewrite !app_nil_r.
  - apply (segment_selects_ext _ (λ kv, field_after sort v u kv ∧ True)); [tauto|].
    apply (assemble [cond] ws [] aks extra []); auto using all_hold_nil.
    intros d kv. unfold all_hold. by rewrite Forall_singleton.
  - destruct Hpart as (_ & _ & Hr). cbn [ps_where]. repeat apply renders_app; auto using renders_nil, base_renders.
    apply Forall_singleton. unfold cond. cbn. unfold mbind, outcome_bind.
    by destruct (keysetSortFieldExpr f).
Qed.

Lemma arg_text_at xs v ys : arg_text (xs ++ TextValue v :: ys) (S (length xs)) = v.
Proof.
  unfold arg_text. replace (S (length xs) - 1) with (length xs) by lia.
  rewrite (nth_lookup_Some _ _ _ (TextValue v)); [done|]. by rewrite list_lookup_middle.
Qed.

(** The segments of a creation-time cursor, after the filters. *)
Definition created_segment (ws : list where_part) (extra : list Value) (c : keyset_cond) (kargs : list Value)
    : pageSegment :=
  mkPageSegment ((base_parts ++ ws) ++ [WKeyset c]) (([TextValue collection] ++ extra) ++ kargs).

Definition segment_ok (seg : pageSegment) (P : string * row → Prop) : Prop :=
  segment_selects seg P ∧ renders (ps_where seg).

Lemma created_segment_ok ws extra c kargs (P : string * row → Prop) :
  filters_part 2 ws extra → is_ok (render_keyset c) = true →
  keyset_placeholders c = seq (2 + length extra) (length kargs) →
  (∀ kv, keyset_holds (([TextValue collection] ++ extra) ++ kargs) c kv ↔ P kv) →
  segment_ok (created_segment ws extra c kargs) P.
Proof.
  intros Hpart Hc Hpc HP. split.
  - apply (segment_selects_ext _ (λ kv, True ∧ P kv)); [tauto|].
    unfold created_segment. rewrite <- (app_nil_r base_parts).
    apply (assemble [] ws [WKeyset c] [] extra kargs); auto using all_hold_nil.
    + intros d kv. unfold all_hold. rewrite Forall_singleton. apply HP.
    + unfold placeholders. cbn. by rewrite app_nil_r.
  - destruct Hpart as (_ & _ & Hr). cbn [created_segment ps_where].
    repeat apply renders_app; auto using base_renders.
    by apply Forall_singleton.
Qed.

Lemma page_created s v u :
  Field s = SortFieldRecordCreatedAt →
  ∃ segs, sortedRecordsPage collection filters didFilter labels (Some s) [v; u] validOnly = Ok (page_of (Some s) segs) ∧
    Forall2 segment_ok segs (cursor_preds (Some s) v u).
Proof.
  intros Hfield. destruct (page_clauses _ base_parts [TextValue collection] 2 ltac:(lia) eq_refl) as (ws & extra & E & Hpart).
  set (n := 2 + length extra).
  assert (Hpage : sortedRecordsPage collection filters didFilter labels (Some s) [v; u] validOnly =
    Ok (newSortedPage (Some s) (base_parts ++ ws) ([TextValue collection] ++ extra)
      (recordCreatedAtKeysetSegments (Direction s) v u n))).
  { unfold sortedRecordsPage. fold base_parts. cbn [keysetSortFieldName]. rewrite Hfield, String.eqb_refl.
    cbn [length Nat.eqb andb]. by rewrite E. }
  rewrite Hpage. clear Hpage E.
  assert (Ha1 : ∀ x ys, arg_text (([TextValue collection] ++ extra) ++ TextValue x :: ys) n = x)
    by (intros; apply arg_text_at).
  assert (Ha2 : arg_text (([TextValue collection] ++ extra) ++ [TextValue v; TextValue u]) (n + 1) = u).
  { change [TextValue v; TextValue u] with ([TextValue v] ++ [TextValue u]). rewrite app_assoc.
    replace (n + 1) with (S (length (([TextValue collection] ++ extra) ++ [TextValue v])))
      by (unfold n; rewrite !length_app; simpl; lia).
    apply arg_text_at. }
  assert (Hun : ∀ cmp, segment_ok (created_segment ws extra (Undated cmp n) [TextValue u])
      (λ kv, row_record_created_at kv.2 = None ∧ cmp_holds text_lt cmp kv.1 u)).
  { intros cmp. apply created_segment_ok; auto. intros kv. cbn [keyset_holds]. by rewrite Ha1. }
  assert (Hall : ∀ c (P : string * row → Prop), is_ok (render_keyset c) = true → keyset_placeholders c = [] →
      (∀ as_ kv, keyset_holds as_ c kv ↔ P kv) → segment_ok (created_segment ws extra c []) P).
  { intros. apply created_segment_ok; auto. }
  assert (Hdated : segment_ok (created_segment ws extra (Dated (cursor_cmp (Some s)) n (n + 1))
      [TextValue v; TextValue u]) (field_after (Some s) v u)).
  { apply created_segment_ok; auto; [by rewrite Nat.add_1_r|].
    intros kv. cbn [keyset_holds]. rewrite Ha1, Ha2. unfold field_after. cbn [keysetSortFieldName]. rewrite Hfield.
    destruct (field_key SortFieldRecordCreatedAt kv), (field_cursor SortFieldRecordCreatedAt v); naive_solver. }
  unfold recordCreatedAtKeysetSegments, cursor_preds, newSortedPage, page_of.
  cbn [keysetSortFieldName]. rewrite Hfield, String.eqb_refl. cbn [negb].
  unfold cursor_cmp, is_asc in *.
  destruct (v =? "")%string, (Direction s =? "ASC")%string; cbn [negb fmap list_fmap condition seg_args];
    eexists; (split; [reflexivity|]);
    repeat first [apply List.Forall2_nil | apply List.Forall2_cons];
    first [apply Hun | exact Hdated | by apply Hall].
Qed.
End pages.
