(* ===== verification/FilterProps.v ===== *)
(** * Filters mean what they say

    A reference meaning of filters without placeholders, groups or aliases, and that
    the clauses of Filters.v select exactly by it wherever their placeholders start:
    they implement the contract [KeysetProps.builder_spec] of sorted pages. *)
From S2P Require Import Prelude GoStrings Json Effects Database Like RecordStore Keyset Filters KeysetProps.

(** PostgreSQL's [lower] works character by character and leaves LIKE's syntax alone. *)
Class SqlLaws `{SqlFunctions} := {
  pg_lower_contains v : pg_lower ("%" +:+ escapeLike v +:+ "%") = "%" +:+ escapeLike (pg_lower v) +:+ "%";
  pg_lower_starts v : pg_lower (escapeLike v +:+ "%") = escapeLike (pg_lower v) +:+ "%";
}.

(** ** The reference meaning *)

Section reference.
Context `{Env} `{SqlFunctions}.

(** Case as the dialect's [LIKE]/[ILIKE] ignores it. *)
Definition fold_text (s : string) : string :=
  match dialect with SQLite => fold_case s | PostgreSQL => pg_lower s end.

Definition text_starts (needle t : string) : bool := has_prefix (fold_text needle) (fold_text t).
Definition text_contains (needle t : string) : bool :=
  let t := fold_text t in
  existsb (λ n, has_prefix (fold_text needle) (sdrop n t)) (seq 0 (S (String.length t))).

Definition on_text (test : string → bool) (v : Value) : bool :=
  match sql_text v with Some t => test t | None => false end.

(** One operator on one value. *)
Definition value_matches (f : FieldFilter) (v : Value) : bool :=
  let v := if (ff_FieldType f =? "integer")%string || (ff_FieldType f =? "number")%string
           then cast_numeric v else v in
  match comparison (ff_Operator f) with
  | Some op => sql_true (sql_compare op v (toDBValue (ff_Value f)))
  | None =>
      if (ff_Operator f =? "contains")%string then on_text (text_contains (print_v (ff_Value f))) v
      else if (ff_Operator f =? "startsWith")%string then on_text (text_starts (print_v (ff_Value f))) v
      else match ff_Value f with
      | GBool b => Bool.eqb (bool_decide (v = NullValue)) b
      | GList vs => existsb (λ x, sql_true (sql_compare "=" v (toDBValue x))) vs
      | _ => false
      end
  end.

Definition created_matches (f : FieldFilter) (r : row) : bool :=
  let compare op s := sql_true (sql_compare op (created_column r) (created_value (TextValue s))) in
  match comparison (ff_Operator f), ff_Value f with
  | Some op, GString s => compare op s
  | None, GList vs => existsb (λ x, match x with GString s => compare "=" s | _ => false end) vs
  | _, _ => false
  end.

Definition contributor_matches (f : FieldFilter) (d : db) (r : row) : bool :=
  match contributorDIDFilterValues f with
  | Ok dids => existsb (λ e, existsb (λ v, existsb (λ s, sql_true (sql_compare "=" v (TextValue s))) dids)
      (contributor_values d e)) (json_array (row_json r) ["contributors"])
  | Err _ => false
  end.

(** A filter that is not on the elements of an array. *)
Definition field_matches (f : FieldFilter) (d : db) (u : string) (r : row) : bool :=
  if (ff_Target f =? FieldFilterTargetContributorDID)%string then contributor_matches f d r
  else if (ff_Target f =? FieldFilterTargetBadgeAwardBadgeType)%string then value_matches f (badge_type d r)
  else if (ff_Target f =? FieldFilterTargetColumn)%string then
    if (ff_Field f =? SortFieldRecordCreatedAt)%string then created_matches f r else value_matches f (TextValue u)
  else value_matches f (json_at (row_json r) (if decide (ff_Path f = []) then [ff_Field f] else ff_Path f)).

(** Filters on one array are about one element: some element meets all of them. *)
Definition array_matches (fs : list FieldFilter) (path : list string) (r : row) : bool :=
  existsb (λ e, forallb (λ g, value_matches g (element_at e (ff_Path g)))
    (filter (λ g, isArrayAnyFilter g = true ∧ ff_ArrayPath g = path) fs)) (json_array (row_json r) path).

Definition filters_match (fs : list FieldFilter) (d : db) (u : string) (r : row) : bool :=
  forallb (λ f, if isArrayAnyFilter f then array_matches fs (ff_ArrayPath f) r else field_matches f d u r) fs.

Definition did_matches (f : DIDFilter) (d : db) (u : string) (r : row) : bool :=
  did_empty f ||
  if (did_EQ f =? "")%string then bool_decide (row_did r ∈ did_IN f) else (row_did r =? did_EQ f)%string.
End reference.

(** ** Binding *)

Section binding.
Context `{Env} `{SqlFunctions}.

Lemma arg_binds args n ps i v : 1 ≤ n → binds args n ps → ps !! i = Some v → arg args (n + i) = v.
Proof.
  intros Hn Hb Hi. unfold arg. apply nth_lookup_Some. replace (n + i - 1) with (n - 1 + i) by lia. by apply Hb.
Qed.

Lemma existsb_args (P : Value → bool) args n ps :
  1 ≤ n → binds args n ps → existsb (λ ph, P (arg args ph)) (seq n (length ps)) = existsb P ps.
Proof.
  intros Hn. revert n Hn. induction ps as [|v ps IH]; intros n Hn Hb; [done|]. cbn [length seq existsb].
  rewrite (IH (S n)); [|lia|].
  - f_equal. f_equal. rewrite <- (Nat.add_0_r n). by apply (arg_binds args n (v :: ps)).
  - intros i w Hi. replace (S n - 1 + i) with (n - 1 + S i) by lia. by apply Hb.
Qed.

Lemma arg_text_binds args n s ps : 1 ≤ n → binds args n (TextValue s :: ps) → arg_text args n = s.
Proof.
  intros Hn Hb. pose proof (arg_binds args n _ 0 _ Hn Hb eq_refl) as Ha. rewrite Nat.add_0_r in Ha.
  unfold arg_text, arg in *. by rewrite Ha.
Qed.

Lemma binds_prefix args n ps qs : 1 ≤ n → binds args n (ps ++ qs) → binds args n ps.
Proof. intros Hn Hb. by apply binds_app in Hb as [? _]. Qed.

(** A builder fails whatever the position, or builds the same condition up to it. *)
Definition builds {C T} (render : C → outcome T) (b : nat → outcome (built C))
    (good : nat → list Value → C → Prop) : Prop :=
  (∃ e, ∀ n, 1 ≤ n → b n = Err e) ∨
  ∃ g ps, (∀ n, 1 ≤ n → b n = Ok (g n, ps, length ps) ∧ good n ps (g n)) ∧
          (∀ n, is_ok (render (g n)) = is_ok (render (g 1))).

Definition scalar_good (x : extract) (f : FieldFilter) (n : nat) (ps : list Value) (s : scalar) : Prop :=
  scalar_placeholders s = seq n (length ps) ∧
  ∀ d args u r e, binds args n ps → scalar_holds d args u r e s = value_matches f (extract_value d u r e x).

Lemma render_scalar_ok s : is_ok (render_scalar s) = is_ok (render_extract (sc_extract s)).
Proof. unfold render_scalar. by destruct (render_extract (sc_extract s)). Qed.

Context `{!SqlLaws}.

Lemma text_like_contains needle t : text_like ("%" +:+ escapeLIKE needle +:+ "%") t = text_contains needle t.
Proof.
  rewrite escapeLIKE_escapeLike. unfold text_like, text_contains, fold_text. destruct dialect eqn:Ed.
  - rewrite like_contains.
    assert (Hdrop : ∀ n s, fold_case (sdrop n s) = sdrop n (fold_case s)).
    { induction n as [|n IH]; intros [|c s]; cbn; auto. }
    assert (Hlen : ∀ s, String.length (fold_case s) = String.length s) by (induction s; cbn; auto).
    rewrite Hlen. generalize (seq 0 (S (String.length t))). induction l as [|n l IH]; [done|].
    cbn [existsb]. by rewrite Hdrop, IH.
  - rewrite pg_lower_contains, like_contains.
    assert (Hid : ∀ s, fold_case s = s) by (induction s as [|c s IH]; cbn; rewrite ?Ed; congruence).
    generalize (seq 0 (S (String.length (pg_lower t)))). induction l as [|n l IH]; [done|].
    cbn [existsb]. by rewrite IH, !Hid.
Qed.

Lemma text_like_starts needle t : text_like (escapeLIKE needle +:+ "%") t = text_starts needle t.
Proof.
  rewrite escapeLIKE_escapeLike. unfold text_like, text_starts, fold_text. destruct dialect eqn:Ed.
  - apply like_prefix.
  - rewrite pg_lower_starts, like_prefix.
    assert (Hid : ∀ s, fold_case s = s) by (induction s as [|c s IH]; cbn; rewrite ?Ed; congruence).
    by rewrite !Hid.
Qed.

Lemma scalar_builds x f :
  builds render_scalar (buildScalarFilterCondition x f) (scalar_good x f).
Proof.
  unfold buildScalarFilterCondition, builds.
  set (num := (ff_FieldType f =? "integer")%string || (ff_FieldType f =? "number")%string).
  destruct (comparison (ff_Operator f)) as [op|] eqn:Eop.
  - right. exists (λ n, mkScalar x num (SCmp op n)), [toDBValue (ff_Value f)]. split; [|intros; by rewrite !render_scalar_ok].
    intros n Hn. split; [reflexivity|]. split; [done|]. intros d args u r e Hb.
    unfold scalar_holds, value_matches. cbn [sc_cond sc_extract sc_numeric]. rewrite Eop.
    pose proof (arg_binds args n _ 0 _ Hn Hb eq_refl) as Ha. rewrite Nat.add_0_r in Ha. by rewrite Ha.
  - destruct (ff_Operator f =? "contains")%string eqn:Ec;
      [|destruct (ff_Operator f =? "startsWith")%string eqn:Es].
    1,2: right; eexists (λ n, mkScalar x num (SLike n)), [_]; (split; [|intros; by rewrite !render_scalar_ok]);
      intros n Hn; (split; [reflexivity|]); (split; [done|]); intros d args u r e Hb;
      unfold scalar_holds, value_matches, like_value, on_text; cbn [sc_cond sc_extract sc_numeric];
      rewrite Eop, ?Ec, ?Es;
      pose proof (arg_binds args n _ 0 _ Hn Hb eq_refl) as Ha; rewrite Nat.add_0_r in Ha; rewrite Ha;
      cbn [column_text]; (destruct (sql_text _); [|done]);
      by rewrite ?text_like_contains, ?text_like_starts.
    destruct (ff_Operator f =? "isNull")%string eqn:Ei.
    + destruct (ff_Value f) as [| | | |b| | |] eqn:Ev; try (left; eexists; done).
      right. exists (λ n, mkScalar x num (SIsNull b)), []. split; [|intros; by rewrite !render_scalar_ok].
      intros n Hn. split; [reflexivity|]. split; [done|]. intros d args u r e Hb.
      unfold scalar_holds, value_matches. cbn [sc_cond sc_extract sc_numeric]. by rewrite Eop, Ec, Es, Ev.
    + destruct (ff_Operator f =? "in")%string eqn:En; [|left; eexists; done].
      destruct (ff_Value f) as [| | | | |vs| |] eqn:Ev; try (left; eexists; done).
      destruct vs as [|v0 vs0].
      { right. exists (λ n, mkScalar x num SNever), []. split; [|intros; by rewrite !render_scalar_ok].
        intros n Hn. split; [reflexivity|]. split; [done|]. intros d args u r e Hb.
        unfold scalar_holds, value_matches. cbn [sc_cond sc_extract sc_numeric]. by rewrite Eop, Ec, Es, Ev. }
      set (vs := v0 :: vs0) in *. destruct (MaxINListSize <? length vs); [left; eexists; done|].
      right. exists (λ n, mkScalar x num (SIn n (length vs))), (toDBValue <$> vs). split; [|intros; by rewrite !render_scalar_ok].
      intros n Hn. rewrite length_fmap. split; [reflexivity|]. split; [by rewrite length_fmap|]. intros d args u r e Hb.
      unfold scalar_holds, value_matches. cbn [sc_cond sc_extract sc_numeric]. rewrite Eop, Ec, Es, Ev.
      set (w := if _ : bool then _ else _).
      rewrite <- (length_fmap toDBValue vs), (existsb_args (λ y, sql_true (sql_compare "=" w y)) args n _ Hn Hb).
      clear. induction vs as [|v vs IH]; [done|]. cbn. by rewrite IH.
Qed.

(** A condition that means [M]. *)
Definition cond_good (M : db → string → row → bool) (n : nat) (ps : list Value) (c : cond) : Prop :=
  aligned n (length ps) (cond_placeholders c) ∧
  ∀ d args u r, binds args n ps → cond_holds d args u r c = M d u r.

Lemma strings_of_values vs ss : strings_of vs = Some ss → vs = GString <$> ss.
Proof.
  revert ss. induction vs as [|v vs IH]; intros ss; cbn; [by intros [= <-]|].
  destruct v; try done. destruct (strings_of vs); cbn; [|done]. intros [= <-]. cbn. f_equal. by apply IH.
Qed.

Lemma created_builds f : builds render_cond (buildRecordCreatedAtFilterCondition f)
  (cond_good (λ _ _ r, created_matches f r)).
Proof.
  unfold buildRecordCreatedAtFilterCondition, builds, created_matches.
  destruct (comparison (ff_Operator f)) as [op|].
  - destruct (ff_Value f); try (left; eexists; done). right.
    exists (λ n, CCreated op n), [TextValue s]. split; [|done]. intros n Hn. split; [done|].
    split; [apply (aligned_seq n 1)|]. intros d args u r Hb.
    pose proof (arg_binds args n _ 0 _ Hn Hb eq_refl) as Ha. rewrite Nat.add_0_r in Ha. cbn. by rewrite Ha.
  - destruct (ff_Operator f =? "in")%string; [|left; eexists; done].
    destruct (ff_Value f) as [| | | | |vs| |]; try (left; eexists; done).
    destruct vs as [|v0 vs0].
    { right. exists (λ _, CNever), []. split; [|done]. intros n Hn. split; [done|]. split; [apply (aligned_seq n 0)|done]. }
    set (vs := v0 :: vs0) in *. destruct (MaxINListSize <? length vs); [left; eexists; done|].
    destruct (strings_of vs) as [ss|] eqn:Ess; [|left; eexists; done]. apply strings_of_values in Ess. right.
    exists (λ n, CCreatedIn n (length ss)), (TextValue <$> ss). split; [|done]. intros n Hn.
    rewrite length_fmap. split; [done|]. split; [rewrite length_fmap; apply aligned_seq|].
    intros d args u r Hb. cbn [cond_holds]. rewrite Ess, <- (length_fmap TextValue ss).
    rewrite (existsb_args (λ y, sql_true (sql_compare "=" (created_column r) (created_value y))) args n _ Hn Hb).
    clear. induction ss as [|v ss IH]; [done|]. cbn. by rewrite IH.
Qed.

(** The lists of contributor values, as the placeholders name them. *)
Lemma contributor_group_binds args n values k P :
  1 ≤ n → k < 5 → binds args n (contributorDIDParams values contributor_copies) →
  existsb (λ ph, P (arg args ph)) (seq (contributor_group n (length values) k) (length values))
  = existsb P (TextValue <$> values).
Proof.
  intros Hn Hk Hb. rewrite <- (length_fmap TextValue values) at 2.
  assert (Hrep : ∀ c j, j < c → binds args n (contributorDIDParams values c) →
    binds args (n + j * length values) (TextValue <$> values)).
  { clear -Hn. unfold contributorDIDParams. intros c j Hj Hb. revert n Hn Hb. revert j Hj.
    induction c as [|c IH]; intros j Hj n Hn Hb; [lia|]. cbn in Hb. apply binds_app in Hb as [H1b H2b]; [|done].
    rewrite length_fmap in H2b. destruct j as [|j]; [by rewrite Nat.add_0_r|].
    replace (n + S j * length values) with (n + length values + j * length values) by lia.
    apply IH; [lia|lia|done]. }
  unfold contributor_group, contributor_copies in *. destruct dialect.
  - apply existsb_args; [lia|]. by apply (Hrep 5).
  - destruct (k <? 4); apply existsb_args; try lia.
    + specialize (Hrep 2 0 ltac:(lia) Hb). by rewrite Nat.add_0_r in Hrep.
    + specialize (Hrep 2 1 ltac:(lia) Hb). by rewrite Nat.mul_1_l in Hrep.
Qed.

Lemma contributor_length values : length (contributorDIDParams values contributor_copies) = contributor_copies * length values.
Proof.
  unfold contributorDIDParams. induction contributor_copies as [|c IH]; [done|]. cbn. by rewrite length_app, length_fmap, IH.
Qed.

Lemma contributor_aligned n count :
  aligned n (contributor_copies * count) (cond_placeholders (CContributor n count)).
Proof.
  unfold aligned, contributor_copies, cond_placeholders, contributor_group. cbn. destruct dialect.
  - replace (5 * count) with (count + (count + (count + (count + count)))) by lia.
    rewrite !app_nil_r, !Nat.add_0_r, !seq_app, !Nat.add_assoc. done.
  - rewrite !Forall_app. split_and!; try (apply Forall_forall; intros p; rewrite elem_of_seq; lia). constructor.
Qed.

Lemma contributor_builds f : builds render_cond (buildContributorDIDFilterCondition f)
  (cond_good (λ d _ r, contributor_matches f d r)).
Proof.
  unfold buildContributorDIDFilterCondition, builds, contributor_matches, mbind, outcome_bind.
  destruct (contributorDIDFilterValues f) as [values|e]; [|left; eexists; done].
  destruct (decide (values = [])) as [->|Hne].
  { right. exists (λ _, CNever), []. split; [|done]. intros n Hn. split; [done|]. split; [apply (aligned_seq n 0)|].
    intros d args u r _. cbn [cond_holds]. symmetry. apply not_true_iff_false. rewrite existsb_exists.
    intros (e & _ & He). revert He. cbv beta. generalize (contributor_values d e). intros l He.
    apply existsb_exists in He as (v & _ & Hv). done. }
  destruct (MaxINListSize <? length values); [left; eexists; done|]. right.
  exists (λ n, CContributor n (length values)), (contributorDIDParams values contributor_copies). split.
  2:{ intros n. cbn. unfold render_contributor. destruct dialect; [|done].
      destruct (jsonTextPathExpr _ ["identity"]), (jsonTextPathExpr _ ["contributorIdentity"; "identity"]),
        (jsonTextPathExpr _ ["contributorIdentity"; "did"]), (jsonTextPathExpr _ ["contributorIdentity"; "uri"]),
        (jsonValuePathExpr _ _), (sqliteJSONTypePathExpr _ _); done. }
  intros n Hn. split; [done|]. split; [rewrite contributor_length; apply contributor_aligned|].
  intros d args u r Hb. cbn [cond_holds]. induction (json_array (row_json r) ["contributors"]) as [|e l IH]; [done|].
  cbn [existsb]. rewrite IH. f_equal.
  assert (Hk : Forall (λ kv : nat * Value, kv.1 < 5) (imap pair (contributor_values d e))).
  { apply Forall_forall. intros kv (k & v & -> & Hv)%elem_of_lookup_imap. apply lookup_lt_Some in Hv. exact Hv. }
  assert (Hsnd : contributor_values d e = (imap pair (contributor_values d e)).*2).
  { unfold contributor_values, identity_paths. done. }
  rewrite Hsnd at 2. clear Hsnd. induction Hk as [|[k v] kvs Hk _ IHk]; [done|]. cbn [existsb fmap list_fmap]. rewrite IHk. f_equal.
  unfold equals_arg. cbn [fst snd].
  rewrite (contributor_group_binds args n values k (λ y, sql_true (sql_compare "=" v y)) Hn Hk Hb).
  clear. induction values as [|s ss IH]; [done|]. cbn. by rewrite IH.
Qed.

Lemma render_list_ok {C} (render : C → outcome string) c cs :
  is_ok (render_list render (c :: cs)) = is_ok (render c) && is_ok (render_list render cs).
Proof. cbn. destruct (render c); [|done]. cbn. by destruct (render_list render cs). Qed.

(** Conditions on the element of one array. *)
Definition array_good (path : list string) (fs : list FieldFilter) (n : nat) (ps : list Value) (inner : list scalar) : Prop :=
  concat (scalar_placeholders <$> inner) = seq n (length ps) ∧
  Forall (λ g, isArrayAnyFilter g = true ∧ ff_ArrayPath g = path) fs ∧
  ∀ d args u r e, binds args n ps →
    forallb (scalar_holds d args u r e) inner = forallb (λ g, value_matches g (element_at e (ff_Path g))) fs.

Lemma array_conditions_build path alias fs :
  builds (render_list render_scalar) (build_array_conditions path alias fs) (array_good path fs).
Proof.
  induction fs as [|f fs IH].
  - right. exists (λ _, []), []. split; [|done]. intros n Hn. split; [done|]. split_and!; [done|constructor|done].
  - cbn [build_array_conditions]. unfold builds, mbind, outcome_bind.
    destruct (isArrayAnyFilter f) eqn:Ea; cbn [andb negb]; [|left; eexists; done].
    case_bool_decide as Ep; cbn [negb]; [|left; eexists; done].
    destruct (scalar_builds (XElement alias (ff_Path f)) f) as [[e He]|(g & ps & Hg & Hr)];
      [left; exists e; intros n Hn; by rewrite He|].
    destruct IH as [[e He]|(gs & pss & Hgs & Hrs)].
    { left. exists e. intros n Hn. destruct (Hg n Hn) as [Eb _]. rewrite Eb, He by lia. done. }
    right. exists (λ n, g n :: gs (n + length ps)), (ps ++ pss). split.
    + intros n Hn. destruct (Hg n Hn) as [Eb [Hph Hm]]. destruct (Hgs (n + length ps) ltac:(lia)) as [Ebs (Hphs & Hall & Hms)].
      rewrite Eb, Ebs, length_app. split; [done|]. split_and!.
      * cbn. by rewrite Hph, Hphs, length_app, seq_app.
      * by constructor.
      * intros d args u r e Hb. apply binds_app in Hb as [Hb1 Hb2]; [|done]. cbn [forallb].
        by rewrite (Hm d args u r e Hb1), (Hms d args u r e Hb2).
    + intros n. rewrite !render_list_ok, Hr. f_equal. by rewrite Hrs, (Hrs (1 + length ps)).
Qed.

(** What the array builder promises about a group of filters. *)
Definition group_good (path : list string) (fs : list FieldFilter) (n : nat) (ps : list Value) (c : cond) : Prop :=
  Forall (λ g, isArrayAnyFilter g = true ∧ ff_ArrayPath g = path) fs ∧
  cond_good (λ _ _ r, existsb (λ e, forallb (λ g, value_matches g (element_at e (ff_Path g))) fs)
    (json_array (row_json r) path)) n ps c.

Lemma render_array_any_ok path alias inner inner' :
  is_ok (render_list render_scalar inner) = is_ok (render_list render_scalar inner') →
  is_ok (render_array_any path alias inner) = is_ok (render_array_any path alias inner').
Proof.
  unfold render_array_any, mbind, outcome_bind. intros He.
  destruct (jsonValuePathExpr "record.json" path); [|done].
  destruct (render_list render_scalar inner), (render_list render_scalar inner'); try done.
  destruct dialect; [|done]. by destruct (sqliteJSONTypePathExpr "record.json" path).
Qed.

Lemma array_builds f fs i :
  builds render_cond (λ n, buildArrayAnyFilterCondition (f :: fs) n i) (group_good (ff_ArrayPath f) (f :: fs)).
Proof.
  unfold buildArrayAnyFilterCondition, mbind, outcome_bind.
  destruct (array_conditions_build (ff_ArrayPath f) ("nested_filter_" +:+ itoa (Z.of_nat i)) (f :: fs))
    as [[e He]|(g & ps & Hg & Hr)].
  { left. exists e. intros n Hn. by rewrite He. }
  right. exists (λ n, CArrayAny (ff_ArrayPath f) ("nested_filter_" +:+ itoa (Z.of_nat i)) (g n)), ps. split.
  - intros n Hn. destruct (Hg n Hn) as [Eb (Hph & Hall & Hm)]. rewrite Eb. split; [done|]. split; [done|].
    split; [cbn [cond_placeholders]; rewrite Hph; apply aligned_seq|].
    intros d args u r Hb. cbn [cond_holds]. induction (json_array (row_json r) (ff_ArrayPath f)) as [|e l IH]; [done|].
    cbn [existsb]. by rewrite IH, (Hm d args u r e Hb).
  - intros n. by apply render_array_any_ok.
Qed.

Lemma scalar_field_builds x f M :
  (∀ d u r, value_matches f (extract_value d u r "" x) = M d u r) →
  builds render_cond (λ n, scalar_built <$> buildScalarFilterCondition x f n) (cond_good M).
Proof.
  intros HM. destruct (scalar_builds x f) as [[e He]|(g & ps & Hg & Hr)].
  { left. exists e. intros n Hn. by rewrite He. }
  right. exists (λ n, CScalar (g n)), ps. split; [|done].
  intros n Hn. destruct (Hg n Hn) as [Eb (Hph & Hm)]. rewrite Eb. split; [done|].
  split; [cbn [cond_placeholders]; rewrite Hph; apply aligned_seq|].
  intros d args u r Hb. cbn [cond_holds]. by rewrite (Hm d args u r "" Hb), HM.
Qed.

Lemma field_builds f i :
  isArrayAnyFilter f = false →
  builds render_cond (λ n, buildFieldFilterCondition f n i) (cond_good (field_matches f)).
Proof.
  intros Ha. unfold buildFieldFilterCondition. rewrite Ha.
  assert (Hmatch : field_matches f = λ d u r,
    if (ff_Target f =? FieldFilterTargetContributorDID)%string then contributor_matches f d r
    else if (ff_Target f =? FieldFilterTargetBadgeAwardBadgeType)%string then value_matches f (badge_type d r)
    else if (ff_Target f =? FieldFilterTargetColumn)%string then
      if (ff_Field f =? SortFieldRecordCreatedAt)%string then created_matches f r else value_matches f (TextValue u)
    else value_matches f (json_at (row_json r) (if decide (ff_Path f = []) then [ff_Field f] else ff_Path f))) by done.
  rewrite Hmatch. clear Hmatch.
  destruct (ff_Target f =? FieldFilterTargetContributorDID)%string; [apply contributor_builds|].
  destruct (ff_Target f =? FieldFilterTargetBadgeAwardBadgeType)%string; [by apply scalar_field_builds|].
  destruct (ff_Target f =? FieldFilterTargetColumn)%string eqn:Ec; cbn [andb].
  - destruct (ff_Field f =? SortFieldRecordCreatedAt)%string eqn:Ef; [apply created_builds|].
    unfold filterFieldExpr, targets_json, mbind, outcome_bind. rewrite Ec. apply String.eqb_eq in Ec as ->. cbn [String.eqb orb].
    case_bool_decide; [|left; eexists; done]. apply scalar_field_builds. intros d u r. cbn [extract_value]. by rewrite Ef.
  - unfold filterFieldExpr, mbind, outcome_bind. rewrite Ec. destruct (targets_json f); [|left; eexists; done].
    apply scalar_field_builds. intros d u r. by destruct (decide (ff_Path f = [])).
Qed.

(** The filters still to come, when some groups are done. *)
Definition rest_match (all : list FieldFilter) (processed : list string) (fs : list FieldFilter)
    (d : db) (u : string) (r : row) : bool :=
  forallb (λ f, if isArrayAnyFilter f
    then bool_decide (arrayFilterGroupKey f ∈ processed) || array_matches all (ff_ArrayPath f) r
    else field_matches f d u r) fs.

Lemma array_path_key f g :
  isArrayAnyFilter f = true → isArrayAnyFilter g = true → ff_ArrayPath g = ff_ArrayPath f →
  arrayFilterGroupKey g = arrayFilterGroupKey f.
Proof. unfold arrayFilterGroupKey. by intros -> -> ->. Qed.

(** A group found at its first filter is all the filters of its path. *)
Lemma group_is_path pre f rest :
  isArrayAnyFilter f = true →
  (∀ g, g ∈ pre → isArrayAnyFilter g = true → arrayFilterGroupKey g ≠ arrayFilterGroupKey f) →
  Forall (λ g, isArrayAnyFilter g = true ∧ ff_ArrayPath g = ff_ArrayPath f)
    (filter (λ g, arrayFilterGroupKey g = arrayFilterGroupKey f) (f :: rest)) →
  filter (λ g, arrayFilterGroupKey g = arrayFilterGroupKey f) (f :: rest)
  = filter (λ g, isArrayAnyFilter g = true ∧ ff_ArrayPath g = ff_ArrayPath f) (pre ++ f :: rest).
Proof.
  intros Hf Hpre Hall. rewrite filter_app, (filter_none _ pre).
  - apply filter_ext_in. intros g Hg. rewrite Forall_forall in Hall. split.
    + intros Hk. apply Hall. by apply list_elem_of_filter.
    + intros [Hga Hgp]. by apply array_path_key.
  - apply Forall_forall. intros g Hg [Hga Hgp]. apply (Hpre g Hg Hga). by apply array_path_key.
Qed.

Lemma rest_match_more all processed f fs d u r :
  isArrayAnyFilter f = true → array_matches all (ff_ArrayPath f) r = true →
  (∀ g, g ∈ fs → isArrayAnyFilter g = true → arrayFilterGroupKey g = arrayFilterGroupKey f → ff_ArrayPath g = ff_ArrayPath f) →
  rest_match all processed fs d u r = rest_match all (arrayFilterGroupKey f :: processed) fs d u r.
Proof.
  intros Hf Hm Hpath. unfold rest_match. induction fs as [|g fs IH]; [done|]. cbn [forallb].
  rewrite IH by (intros; apply Hpath; [by right|done..]). f_equal.
  destruct (isArrayAnyFilter g) eqn:Eg; [|done].
  destruct (decide (arrayFilterGroupKey g = arrayFilterGroupKey f)) as [He|He].
  - rewrite (Hpath g), Hm by (done || by left). by rewrite !orb_true_r.
  - f_equal. apply bool_decide_ext. rewrite elem_of_cons. tauto.
Qed.

(** The same for lists of conditions. *)
Definition builds_list (b : nat → outcome (list cond * list Value)) (M : db → string → row → bool) : Prop :=
  (∃ e, ∀ n, 1 ≤ n → b n = Err e) ∨
  ∃ g ps, (∀ n, 1 ≤ n → b n = Ok (g n, ps) ∧
            aligned n (length ps) (concat (cond_placeholders <$> g n)) ∧
            ∀ d args u r, binds args n ps → forallb (cond_holds d args u r) (g n) = M d u r) ∧
          (∀ n, is_ok (render_list render_cond (g n)) = is_ok (render_list render_cond (g 1))).

Lemma builds_cons b1 b2 M1 M2 :
  builds render_cond b1 (cond_good M1) → builds_list b2 M2 →
  builds_list (λ n, '(c, ps, k) ← b1 n; '(cs, pss) ← b2 (n + k); Ok (c :: cs, ps ++ pss))
    (λ d u r, M1 d u r && M2 d u r).
Proof.
  unfold builds_list, mbind, outcome_bind.
  intros [[e He]|(g & ps & Hg & Hr)]; [left; exists e; intros n Hn; by rewrite He|].
  intros [[e He]|(gs & pss & Hgs & Hrs)].
  { left. exists e. intros n Hn. destruct (Hg n Hn) as [Eb _]. rewrite Eb, He by lia. done. }
  right. exists (λ n, g n :: gs (n + length ps)), (ps ++ pss). split.
  - intros n Hn. destruct (Hg n Hn) as [Eb [Hph Hm]]. destruct (Hgs (n + length ps) ltac:(lia)) as [Ebs (Hphs & Hms)].
    rewrite Eb, Ebs. split; [done|]. split.
    + cbn. rewrite length_app. by apply aligned_app.
    + intros d args u r Hb. apply binds_app in Hb as [Hb1 Hb2]; [|done]. cbn [forallb].
      by rewrite (Hm d args u r Hb1), (Hms d args u r Hb2).
  - intros n. rewrite !render_list_ok, Hr. f_equal. by rewrite Hrs, (Hrs (1 + length ps)).
Qed.

Lemma builds_list_ext b M1 M2 : (∀ d u r, M1 d u r = M2 d u r) → builds_list b M1 → builds_list b M2.
Proof.
  intros HM [?|(g & ps & Hg & Hr)]; [by left|]. right. exists g, ps. split; [|done].
  intros n Hn. destruct (Hg n Hn) as (? & ? & Hm). split_and!; [done..|]. intros. by rewrite Hm, HM.
Qed.

Lemma filters_build all fs : ∀ i pre processed,
  all = pre ++ fs →
  (∀ g, g ∈ pre → isArrayAnyFilter g = true → arrayFilterGroupKey g ∈ processed) →
  builds_list (build_filters fs i processed) (rest_match all processed fs).
Proof.
  induction fs as [|f fs IH]; intros i pre processed Hall Hpre.
  { right. exists (λ _, []), []. split; [|done]. intros n Hn. split_and!; [done|apply (aligned_seq n 0)|done]. }
  assert (Hsplit : all = (pre ++ [f]) ++ fs) by (by rewrite <- app_assoc).
  cbn [build_filters]. destruct (isArrayAnyFilter f) eqn:Ea; cbn [andb].
  - case_bool_decide as Hk.
    + eapply builds_list_ext; [|apply (IH (S i) (pre ++ [f]) processed Hsplit)].
      * intros d u r. unfold rest_match. cbn [forallb]. rewrite Ea. by rewrite bool_decide_true.
      * intros g [Hg| ->%list_elem_of_singleton]%elem_of_app; auto.
    + set (group := filter (λ g, arrayFilterGroupKey g = arrayFilterGroupKey f) (f :: fs)).
      assert (Hgroup : ∃ g', group = f :: g') by (unfold group; rewrite filter_cons_True by done; eauto).
      destruct Hgroup as [g' Hg']. rewrite Hg'.
      destruct (array_builds f g' i) as [[e He]|(gg & ps & Hgg & Hr)].
      { left. exists e. intros n Hn. unfold mbind, outcome_bind. by rewrite He. }
      assert (Hpath := proj1 (proj2 (Hgg 1 (le_n 1)))). rewrite <- Hg' in Hpath.
      assert (Heq : group = filter (λ g, isArrayAnyFilter g = true ∧ ff_ArrayPath g = ff_ArrayPath f) all).
      { rewrite Hall. apply group_is_path; [done| |done]. intros g Hg Hga He. apply Hk. rewrite <- He. auto. }
      eapply builds_list_ext; [|eapply (builds_cons _ _ (λ _ _ r, array_matches all (ff_ArrayPath f) r));
        [right; exists gg, ps; split; [|exact Hr]; intros n Hn; destruct (Hgg n Hn) as (Eb & _ & Hgood); split; [exact Eb|]
        |apply (IH (S i) (pre ++ [f]) (arrayFilterGroupKey f :: processed) Hsplit)]].
      * intros d u r. unfold rest_match at 2. cbn [forallb]. rewrite Ea, (bool_decide_false _ Hk). cbn [orb].
        fold (rest_match all processed fs d u r).
        destruct (array_matches all (ff_ArrayPath f) r) eqn:Em; cbn [andb]; [|done]. symmetry.
        apply rest_match_more; [done..|]. intros g Hg Hga Hgk.
        rewrite Forall_forall in Hpath. apply (Hpath g). unfold group. apply list_elem_of_filter. split; [done|by right].
      * unfold array_matches. rewrite <- Heq, Hg'. exact Hgood.
      * intros g [Hg| ->%list_elem_of_singleton]%elem_of_app ?; [right; auto|left].
  - eapply builds_list_ext; [|eapply builds_cons; [apply (field_builds f i Ea)|apply (IH (S i) (pre ++ [f]) processed Hsplit)]].
    + intros d u r. unfold rest_match at 2. cbn [forallb]. by rewrite Ea.
    + intros g [Hg| ->%list_elem_of_singleton]%elem_of_app ?; [auto|congruence].
Qed.

(** ** The contract *)

Lemma rest_match_all fs d u r : rest_match fs [] fs d u r = filters_match fs d u r.
Proof. done. Qed.

(** The clause of a list of field filters selects, wherever its placeholders start, the
    rows that match every filter. *)
Lemma filter_clause_spec fs :
  is_ok (buildFilterClause fs 1) = true → builder_spec (buildFilterClause fs) (filters_match fs).
Proof.
  unfold buildFilterClause, builder_spec. destruct (decide (fs = [])) as [->|Hne].
  { intros _ n Hn. exists None. done. }
  destruct (filters_build fs fs 0 [] [] eq_refl) as [[e He]|(g & ps & Hg & Hr)]; [set_solver| |].
  { by rewrite He by lia. }
  intros Hok n Hn. destruct (Hg n Hn) as (Eb & Hal & Hm). destruct (Hg 1 (le_n 1)) as (Eb1 & _).
  rewrite Eb1 in Hok. rewrite Eb. unfold mbind, outcome_bind in *. specialize (Hr n).
  destruct (render_list render_cond (g n)) as [ts|e] eqn:Et.
  - eexists. split; [reflexivity|]. split; [|done]. intros d args u r Hb. cbn [cl_holds cl_params] in *.
    by rewrite (Hm d args u r Hb).
  - cbn in Hr. destruct (render_list render_cond (g 1)); [done|]. done.
Qed.

Lemma did_clause_spec f :
  (did_EQ f = "" → length (did_IN f) ≤ MaxINListSize) → builder_spec (buildDIDFilterClause f) (did_matches f).
Proof.
  intros Hlen n Hn. unfold buildDIDFilterClause, did_matches. destruct (did_empty f) eqn:Ee; [by exists None|].
  destruct (did_EQ f =? "")%string eqn:Eeq; cbn [negb].
  - apply String.eqb_eq in Eeq. specialize (Hlen Eeq). rewrite (proj2 (Nat.ltb_ge _ _)) by done.
    eexists. split; [reflexivity|]. cbn [cl_holds cl_params cl_placeholders]. rewrite length_fmap.
    split; [|apply aligned_seq]. intros d args u r Hb. cbn [orb].
    rewrite <- (length_fmap TextValue (did_IN f)).
    etrans; [exact (existsb_args (λ v, (row_did r =? null_string (column_text v))%string) args n _ Hn Hb)|].
    clear. induction (did_IN f) as [|x l IH]; [done|]. cbn [fmap list_fmap existsb column_text null_string default].
    rewrite IH. change (default "" (Some x)) with x. apply eq_bool_prop_intro.
    rewrite orb_True, !bool_decide_spec, elem_of_cons, <- String.eqb_eq, Is_true_true. done.
  - eexists. split; [reflexivity|]. split; [|apply (aligned_seq n 1)].
    intros d args u r Hb. cbn [cl_holds orb]. by rewrite (arg_text_binds args n (did_EQ f) [] Hn Hb).
Qed.
End binding.
