(* ===== verification/LabelFilters.v ===== *)
(** * External-label filters

    The label clause of records.go: records that have, or lack, a label of an external
    labeler on themselves or on their author, with label values and sources filtered
    by text and only current labels on demand (external_labels.go
    [externalLabelActivePredicate]). The clause means what the filter says. *)
From S2P Require Import Prelude GoStrings Json Effects Database Like RecordStore Keyset Filters KeysetProps FilterProps.

Record ExternalLabelStringFilter := mkLabelString { lf_Operator : string; lf_Value : goval }.

Record ExternalLabelPredicate := mkLabelPredicate {
  lp_Sources : list ExternalLabelStringFilter;
  lp_Values : list ExternalLabelStringFilter;
  lp_ActiveOnly : bool;
}.

Record ExternalLabelRecordFilter := mkLabelFilter {
  lrf_Has : option ExternalLabelPredicate;
  lrf_None : option ExternalLabelPredicate;
}.

Definition label_filter_empty (f : ExternalLabelRecordFilter) : bool :=
  match lrf_Has f, lrf_None f with None, None => true | _, _ => false end.

Inductive externalLabelSubject := externalLabelSubjectRecord | externalLabelSubjectAuthor.

Record ExternalLabelFilterSet := mkLabelSet {
  lfs_Record : ExternalLabelRecordFilter;
  lfs_Author : ExternalLabelRecordFilter;
}.

Definition label_set_empty (f : ExternalLabelFilterSet) : bool :=
  label_filter_empty (lfs_Record f) && label_filter_empty (lfs_Author f).

(** A condition on a text column of a label. *)
Inductive label_cond :=
  | LCmp (op : string) (ph : nat)
  | LLike (ph : nat)
  | LIn (first count : nat)
  | LNever
  | LIsNull (isNull : bool).

Record label_exists := mkExists {
  le_negated : bool;
  le_subject : externalLabelSubject;
  le_alias : string;
  le_sources : list label_cond;
  le_values : list label_cond;
  le_active : bool;
}.

(** ** Building *)

Definition externalLabelStringFilterValue (v : goval) : outcome string :=
  match v with GString s => Ok s | _ => Err "external label string filter value must be a string" end.

Definition externalLabelStringFilterList (v : goval) : outcome (list string) :=
  match v with
  | GList vs =>
      match strings_of vs with
      | Some ss => Ok ss | None => Err "external label IN filter value must contain strings" end
  | GStrings ss => Ok ss
  | _ => Err "external label IN filter value must be a string list"
  end.

Definition build_label_condition (f : ExternalLabelStringFilter) (placeholderIdx : nat) : outcome (built label_cond) :=
  let compare op := v ← externalLabelStringFilterValue (lf_Value f);
    Ok (LCmp op placeholderIdx, [TextValue v], 1) in
  if (lf_Operator f =? "eq")%string then compare "="
  else if (lf_Operator f =? "neq")%string then compare "!="
  else if (lf_Operator f =? "in")%string then
    values ← externalLabelStringFilterList (lf_Value f);
    if decide (values = []) then Ok (LNever, [], 0)
    else if MaxINListSize <? length values then Err "external label filter IN list exceeds maximum of 100 values"
    else Ok (LIn placeholderIdx (length values), TextValue <$> values, length values)
  else if (lf_Operator f =? "contains")%string then
    v ← externalLabelStringFilterValue (lf_Value f);
    Ok (LLike placeholderIdx, [TextValue ("%" +:+ escapeLIKE v +:+ "%")], 1)
  else if (lf_Operator f =? "startsWith")%string then
    v ← externalLabelStringFilterValue (lf_Value f);
    Ok (LLike placeholderIdx, [TextValue (escapeLIKE v +:+ "%")], 1)
  else if (lf_Operator f =? "isNull")%string then
    Ok (LIsNull (match lf_Value f with GBool b => b | _ => false end), [], 0)
  else Err ("unsupported external label filter operator " +:+ lf_Operator f).

Fixpoint buildExternalLabelStringFilterConditions (fs : list ExternalLabelStringFilter) (startPlaceholder : nat)
    : outcome (built (list label_cond)) :=
  match fs with
  | [] => Ok ([], [], 0)
  | f :: rest =>
      '(c, ps, n) ← build_label_condition f startPlaceholder;
      '(cs, pss, m) ← buildExternalLabelStringFilterConditions rest (startPlaceholder + n);
      Ok (c :: cs, ps ++ pss, n + m)
  end.

Definition buildExternalLabelExistsSubquery (negated : bool) (alias : string) (subject : externalLabelSubject)
    (predicate : ExternalLabelPredicate) (startPlaceholder : nat) : outcome (built label_exists) :=
  '(sources, sourceParams, n) ← buildExternalLabelStringFilterConditions (lp_Sources predicate) startPlaceholder;
  '(values, valueParams, m) ← buildExternalLabelStringFilterConditions (lp_Values predicate) (startPlaceholder + n);
  Ok (mkExists negated subject alias sources values (lp_ActiveOnly predicate), sourceParams ++ valueParams, n + m).

Definition build_optional (negated : bool) (alias : string) (subject : externalLabelSubject)
    (predicate : option ExternalLabelPredicate) (startPlaceholder : nat) : outcome (built (list label_exists)) :=
  match predicate with
  | None => Ok ([], [], 0)
  | Some p =>
      '(e, ps, n) ← buildExternalLabelExistsSubquery negated alias subject p startPlaceholder; Ok ([e], ps, n)
  end.

(** [clauses = append(...); placeholderIdx += consumed], twice. *)
Definition build_both {C} (b1 b2 : nat → outcome (built (list C))) (n : nat) : outcome (built (list C)) :=
  '(cs, ps, k) ← b1 n; '(cs', ps', k') ← b2 (n + k); Ok (cs ++ cs', ps ++ ps', k + k').

Definition buildExternalLabelSubjectFilterClause (subject : externalLabelSubject) (aliasPrefix : string)
    (f : ExternalLabelRecordFilter) : nat → outcome (built (list label_exists)) :=
  build_both (build_optional false (aliasPrefix +:+ "_has") subject (lrf_Has f))
    (build_optional true (aliasPrefix +:+ "_none") subject (lrf_None f)).

Definition build_label_set (f : ExternalLabelFilterSet) : nat → outcome (built (list label_exists)) :=
  build_both (buildExternalLabelSubjectFilterClause externalLabelSubjectRecord "el_record" (lfs_Record f))
    (buildExternalLabelSubjectFilterClause externalLabelSubjectAuthor "el_author" (lfs_Author f)).

(** ** Text *)

Section text.
Context `{Env}.

Definition externalLabelTimestampExpr (expression : string) : string :=
  match dialect with
  | PostgreSQL => "(" +:+ expression +:+ ")::timestamptz"
  | SQLite => "julianday(" +:+ expression +:+ ")"
  end.

Definition externalLabelExpiryPredicate (alias : string) : string :=
  match dialect with
  | PostgreSQL => "(" +:+ alias +:+ ".exp)::timestamptz > NOW()"
  | SQLite => "julianday(" +:+ alias +:+ ".exp) > julianday('now')"
  end.

Definition externalLabelActivePredicate (alias : string) : string :=
  let negFalse := match dialect with PostgreSQL => "false" | SQLite => "0" end in
  let currentCts := externalLabelTimestampExpr (alias +:+ ".cts") in
  let newerCts := externalLabelTimestampExpr "newer.cts" in
  "(
			" +:+ alias +:+ ".neg = " +:+ negFalse +:+ "
			AND (" +:+ alias +:+ ".exp IS NULL OR " +:+ externalLabelExpiryPredicate alias +:+ ")
			AND NOT EXISTS (
				SELECT 1
				FROM external_label newer
				WHERE newer.src = " +:+ alias +:+ ".src
					AND newer.uri = " +:+ alias +:+ ".uri
					AND newer.val = " +:+ alias +:+ ".val
					AND (
						(newer.cid IS NULL AND " +:+ alias +:+ ".cid IS NULL)
						OR newer.cid = " +:+ alias +:+ ".cid
					)
					AND (
						" +:+ newerCts +:+ " > " +:+ currentCts +:+ "
						OR (" +:+ newerCts +:+ " = " +:+ currentCts +:+ " AND newer.id > " +:+ alias +:+ ".id)
					)
			)
		)".

Definition externalLabelSubjectConditions (alias : string) (subject : externalLabelSubject) : list string :=
  match subject with
  | externalLabelSubjectRecord =>
      [alias +:+ ".uri = record.uri"; "(" +:+ alias +:+ ".cid IS NULL OR " +:+ alias +:+ ".cid = record.cid)"]
  | externalLabelSubjectAuthor => [alias +:+ ".uri = record.did"; alias +:+ ".cid IS NULL"]
  end.

Definition render_label_cond (column : string) (c : label_cond) : string :=
  match c with
  | LCmp op ph => column +:+ " " +:+ op +:+ " " +:+ Placeholder ph
  | LLike ph => column +:+ " " +:+ likeOp +:+ " " +:+ Placeholder ph +:+ " ESCAPE '\'"
  | LIn first count => column +:+ " IN (" +:+ Placeholders count first +:+ ")"
  | LNever => "1 = 0"
  | LIsNull b => column +:+ (if b then " IS NULL" else " IS NOT NULL")
  end.

Definition render_exists (e : label_exists) : string :=
  let alias := le_alias e in
  let conditions := externalLabelSubjectConditions alias (le_subject e)
    ++ (render_label_cond (alias +:+ ".src") <$> le_sources e)
    ++ (render_label_cond (alias +:+ ".val") <$> le_values e)
    ++ (if le_active e then [externalLabelActivePredicate alias] else []) in
  (if le_negated e then "NOT EXISTS (" else "EXISTS (") +:+ "SELECT 1 FROM external_label " +:+ alias
  +:+ " WHERE " +:+ join " AND " conditions +:+ ")".

Definition label_placeholders (c : label_cond) : list nat :=
  match c with
  | LCmp _ ph | LLike ph => [ph] | LIn first count => seq first count | LNever | LIsNull _ => []
  end.

Definition exists_placeholders (e : label_exists) : list nat :=
  concat (label_placeholders <$> le_sources e) ++ concat (label_placeholders <$> le_values e).
End text.

(** ** What the clause selects *)

Section eval.
Context `{Env} `{SqlFunctions}.

(** [src] and [val] are [NOT NULL] text. *)
Definition label_cond_holds (args : list Value) (column : string) (c : label_cond) : bool :=
  match c with
  | LCmp op ph => sql_true (sql_compare op (TextValue column) (arg args ph))
  | LLike ph => text_like (arg_text args ph) column
  | LIn first count => existsb (λ ph, sql_true (sql_compare "=" (TextValue column) (arg args ph))) (seq first count)
  | LNever => false
  | LIsNull b => negb b
  end.

Definition time_after (x y : option Z) : bool :=
  match x, y with Some a, Some b => (b <? a)%Z | _, _ => false end.
Definition time_equal (x y : option Z) : bool :=
  match x, y with Some a, Some b => (a =? b)%Z | _, _ => false end.

(** [newer] replaces [l]. *)
Definition supersedes (newer l : label_row) : bool :=
  (lb_src newer =? lb_src l)%string && (lb_uri newer =? lb_uri l)%string && (lb_val newer =? lb_val l)%string
  && bool_decide (lb_cid newer = lb_cid l)
  && (time_after (label_time (lb_cts newer)) (label_time (lb_cts l))
      || time_equal (label_time (lb_cts newer)) (label_time (lb_cts l)) && (lb_id l <? lb_id newer)%Z).

Definition label_active (d : db) (l : label_row) : bool :=
  negb (lb_neg l)
  && match lb_exp l with None => true | Some e => time_after (label_time e) (Some (db_clock d)) end
  && negb (existsb (λ newer, supersedes newer l) (db_labels d)).

Definition subject_applies (subject : externalLabelSubject) (l : label_row) (u : string) (r : row) : bool :=
  match subject with
  | externalLabelSubjectRecord =>
      (lb_uri l =? u)%string && match lb_cid l with None => true | Some c => (c =? row_cid r)%string end
  | externalLabelSubjectAuthor => (lb_uri l =? row_did r)%string && bool_decide (lb_cid l = None)
  end.

Definition exists_holds (d : db) (args : list Value) (u : string) (r : row) (e : label_exists) : bool :=
  xorb (le_negated e) (existsb (λ l, subject_applies (le_subject e) l u r
    && forallb (label_cond_holds args (lb_src l)) (le_sources e)
    && forallb (label_cond_holds args (lb_val l)) (le_values e)
    && (negb (le_active e) || label_active d l)) (db_labels d)).

Definition buildExternalLabelFilterSetClause (f : ExternalLabelFilterSet) (startPlaceholder : nat)
    : outcome (option clause) :=
  if label_set_empty f then Ok None
  else
    '(es, params, _) ← build_label_set f startPlaceholder;
    Ok (Some (mkClause (join " AND " (render_exists <$> es)) (concat (exists_placeholders <$> es)) params
      (λ d args u r, forallb (exists_holds d args u r) es))).

(** ** The reference meaning *)

Definition label_text_matches (f : ExternalLabelStringFilter) (s : string) : bool :=
  let compare op := match lf_Value f with
    | GString v => sql_true (sql_compare op (TextValue s) (TextValue v)) | _ => false end in
  let member vs := existsb (λ v, sql_true (sql_compare "=" (TextValue s) (TextValue v))) vs in
  if (lf_Operator f =? "eq")%string then compare "="
  else if (lf_Operator f =? "neq")%string then compare "!="
  else if (lf_Operator f =? "in")%string then
    match externalLabelStringFilterList (lf_Value f) with Ok vs => member vs | Err _ => false end
  else match lf_Operator f, lf_Value f with
    | "contains", GString v => text_contains v s
    | "startsWith", GString v => text_starts v s
    | "isNull", GBool b => negb b
    | "isNull", _ => true
    | _, _ => false
    end.

(** Some label of the subject meets the predicate. *)
Definition has_label (subject : externalLabelSubject) (p : ExternalLabelPredicate) (d : db) (u : string) (r : row) : bool :=
  existsb (λ l, subject_applies subject l u r
    && forallb (λ f, label_text_matches f (lb_src l)) (lp_Sources p)
    && forallb (λ f, label_text_matches f (lb_val l)) (lp_Values p)
    && (negb (lp_ActiveOnly p) || label_active d l)) (db_labels d).

Definition label_filter_matches (subject : externalLabelSubject) (f : ExternalLabelRecordFilter)
    (d : db) (u : string) (r : row) : bool :=
  (match lrf_Has f with None => true | Some p => has_label subject p d u r end)
  && (match lrf_None f with None => true | Some p => negb (has_label subject p d u r) end).

Definition label_set_matches (f : ExternalLabelFilterSet) (d : db) (u : string) (r : row) : bool :=
  label_filter_matches externalLabelSubjectRecord (lfs_Record f) d u r
  && label_filter_matches externalLabelSubjectAuthor (lfs_Author f) d u r.
End eval.

(** ** The clause means the filter *)

Section correct.
Context `{Env} `{SqlFunctions} `{!SqlLaws}.

(** Label conditions always have a text. *)
Definition rendered {C} (c : C) : outcome unit := Ok tt.

Definition label_good (f : ExternalLabelStringFilter) (n : nat) (ps : list Value) (c : label_cond) : Prop :=
  label_placeholders c = seq n (length ps) ∧
  ∀ args s, binds args n ps → label_cond_holds args s c = label_text_matches f s.

Lemma arg_first args n v ps : 1 ≤ n → binds args n (v :: ps) → arg args n = v.
Proof. intros Hn Hb. pose proof (arg_binds args n _ 0 v Hn Hb eq_refl) as Ha. by rewrite Nat.add_0_r in Ha. Qed.

Lemma label_condition_builds f : builds rendered (build_label_condition f) (label_good f).
Proof.
  unfold build_label_condition, builds, mbind, outcome_bind, label_good, label_text_matches.
  set (op := lf_Operator f).
  destruct (op =? "eq")%string; [|destruct (op =? "neq")%string].
  1,2: destruct (lf_Value f); try (left; eexists; done); right; eexists (λ n, LCmp _ n), [TextValue s];
    (split; [|done]); intros n Hn; (split; [reflexivity|]); (split; [done|]); intros args t Hb;
    cbn [label_cond_holds]; by rewrite (arg_first _ _ _ _ Hn Hb).
  destruct (op =? "in")%string eqn:Ein.
  { destruct (externalLabelStringFilterList (lf_Value f)) as [vs|]; [|left; eexists; done].
    destruct (decide (vs = [])) as [->|Hne].
    { right. exists (λ _, LNever), []. split; [|done]. by intros n Hn. }
    destruct (MaxINListSize <? length vs); [left; eexists; done|]. right.
    exists (λ n, LIn n (length vs)), (TextValue <$> vs). split; [|done]. intros n Hn.
    rewrite length_fmap. split; [done|]. split; [done|]. intros args t Hb.
    cbn [label_cond_holds]. rewrite <- (length_fmap TextValue vs).
    rewrite (existsb_args (λ y, sql_true (sql_compare "=" (TextValue t) y)) args n _ Hn Hb).
    clear. induction vs as [|v vs IH]; [done|]. cbn. by rewrite IH. }
  destruct (op =? "contains")%string eqn:Ec; [|destruct (op =? "startsWith")%string eqn:Es].
  - apply String.eqb_eq in Ec. rewrite Ec. destruct (lf_Value f); try (left; eexists; done). right.
    exists (λ n, LLike n), [TextValue ("%" +:+ escapeLIKE s +:+ "%")]. split; [|done].
    intros n Hn. split; [done|]. split; [done|]. intros args t Hb. cbn [label_cond_holds].
    rewrite (arg_text_binds _ _ _ _ Hn Hb). apply text_like_contains.
  - apply String.eqb_eq in Es. rewrite Es. destruct (lf_Value f); try (left; eexists; done). right.
    exists (λ n, LLike n), [TextValue (escapeLIKE s +:+ "%")]. split; [|done].
    intros n Hn. split; [done|]. split; [done|]. intros args t Hb. cbn [label_cond_holds].
    rewrite (arg_text_binds _ _ _ _ Hn Hb). apply text_like_starts.
  - destruct (op =? "isNull")%string eqn:Ei; [|left; eexists; done].
    apply String.eqb_eq in Ei. rewrite Ei. right.
    exists (λ _, LIsNull (match lf_Value f with GBool b => b | _ => false end)), []. split; [|done].
    intros n Hn. split; [done|]. split; [done|]. intros args t Hb. by destruct (lf_Value f).
Qed.

Definition labels_good (fs : list ExternalLabelStringFilter) (n : nat) (ps : list Value) (cs : list label_cond) : Prop :=
  concat (label_placeholders <$> cs) = seq n (length ps) ∧
  ∀ args s, binds args n ps →
    forallb (label_cond_holds args s) cs = forallb (λ f, label_text_matches f s) fs.

(** Two builders in a row. *)
Lemma builds_seq {C1 C2 C} (b1 : nat → outcome (built C1)) (b2 : nat → outcome (built C2)) (join : C1 → C2 → C)
    good1 good2 (good : nat → list Value → C → Prop) :
  builds rendered b1 good1 → builds rendered b2 good2 →
  (∀ n ps ps' c c', 1 ≤ n → good1 n ps c → good2 (n + length ps) ps' c' → good n (ps ++ ps') (join c c')) →
  builds rendered (λ n, '(c, ps, k) ← b1 n; '(c', ps', k') ← b2 (n + k); Ok (join c c', ps ++ ps', k + k')) good.
Proof.
  unfold builds, mbind, outcome_bind.
  intros [[e He]|(g & ps & Hg & _)] H2b Hgood; [left; exists e; intros n Hn; by rewrite He|].
  destruct H2b as [[e He]|(g' & ps' & Hg' & _)].
  { left. exists e. intros n Hn. destruct (Hg n Hn) as [Eb _]. rewrite Eb, He by lia. done. }
  right. exists (λ n, join (g n) (g' (n + length ps))), (ps ++ ps'). split; [|done].
  intros n Hn. destruct (Hg n Hn) as [Eb Hgg]. destruct (Hg' (n + length ps) ltac:(lia)) as [Eb' Hgg'].
  rewrite Eb, Eb', length_app. auto.
Qed.

Lemma label_conditions_build fs :
  builds rendered (buildExternalLabelStringFilterConditions fs) (labels_good fs).
Proof.
  induction fs as [|f fs IH].
  - right. exists (λ _, []), []. split; [|done]. by intros n Hn.
  - apply (builds_seq (build_label_condition f) (buildExternalLabelStringFilterConditions fs) cons _ _ _
      (label_condition_builds f) IH).
    intros n ps ps' c cs Hn [Hph Hm] [Hphs Hms]. split.
    + cbn. by rewrite Hph, Hphs, length_app, seq_app.
    + intros args s Hb. apply binds_app in Hb as [Hb1 Hb2]; [|done]. cbn [forallb].
      by rewrite (Hm args s Hb1), (Hms args s Hb2).
Qed.

(** A list of existence conditions that means [M]. *)
Definition exists_good (M : db → string → row → bool) (n : nat) (ps : list Value) (es : list label_exists) : Prop :=
  concat (exists_placeholders <$> es) = seq n (length ps) ∧
  ∀ d args u r, binds args n ps → forallb (exists_holds d args u r) es = M d u r.

Lemma subquery_builds negated alias subject p :
  builds rendered (buildExternalLabelExistsSubquery negated alias subject p)
    (λ n ps e, exists_good (λ d u r, xorb negated (has_label subject p d u r)) n ps [e]).
Proof.
  apply (builds_seq (buildExternalLabelStringFilterConditions (lp_Sources p))
    (buildExternalLabelStringFilterConditions (lp_Values p))
    (λ ss vs, mkExists negated subject alias ss vs (lp_ActiveOnly p)) _ _ _
    (label_conditions_build _) (label_conditions_build _)).
  intros n ps ps' ss vs Hn [Hph Hm] [Hphs Hms]. split.
  - cbn. unfold exists_placeholders. cbn [le_sources le_values]. by rewrite app_nil_r, Hph, Hphs, length_app, seq_app.
  - intros d args u r Hb. apply binds_app in Hb as [Hb1 Hb2]; [|done]. cbn [forallb]. rewrite andb_true_r.
    unfold exists_holds, has_label. cbn [le_negated le_subject le_sources le_values le_active]. f_equal.
    apply existsb_pointwise. intros l. by rewrite (Hm args (lb_src l) Hb1), (Hms args (lb_val l) Hb2).
Qed.

Lemma optional_builds negated alias subject p :
  builds rendered (build_optional negated alias subject p)
    (exists_good (λ d u r, match p with None => true | Some p => xorb negated (has_label subject p d u r) end)).
Proof.
  destruct p as [p|].
  - destruct (subquery_builds negated alias subject p) as [[e He]|(g & ps & Hg & _)];
      unfold build_optional, mbind, outcome_bind.
    { left. exists e. intros n Hn. by rewrite He. }
    right. exists (λ n, [g n]), ps. split; [|done]. intros n Hn. destruct (Hg n Hn) as [Eb Hgood]. by rewrite Eb.
  - right. exists (λ _, []), []. split; [|done]. by intros n Hn.
Qed.

Lemma both_builds (b1 b2 : nat → outcome (built (list label_exists))) M1 M2 :
  builds rendered b1 (exists_good M1) → builds rendered b2 (exists_good M2) →
  builds rendered (build_both b1 b2) (exists_good (λ d u r, M1 d u r && M2 d u r)).
Proof.
  intros H1b H2b. apply (builds_seq b1 b2 app _ _ _ H1b H2b).
  intros n ps ps' es es' Hn [Hph Hm] [Hphs Hms]. split.
  - by rewrite fmap_app, concat_app, Hph, Hphs, length_app, seq_app.
  - intros d args u r Hb. apply binds_app in Hb as [Hb1 Hb2]; [|done].
    by rewrite forallb_app, (Hm d args u r Hb1), (Hms d args u r Hb2).
Qed.

Lemma label_clause_spec f :
  is_ok (buildExternalLabelFilterSetClause f 1) = true →
  builder_spec (buildExternalLabelFilterSetClause f) (label_set_matches f).
Proof.
  unfold buildExternalLabelFilterSetClause, builder_spec. destruct (label_set_empty f) eqn:Ee.
  { intros _ n Hn. exists None. split; [done|]. intros d u r. revert Ee.
    unfold label_set_empty, label_filter_empty, label_set_matches, label_filter_matches.
    by destruct (lrf_Has (lfs_Record f)), (lrf_None (lfs_Record f)), (lrf_Has (lfs_Author f)), (lrf_None (lfs_Author f)). }
  destruct (both_builds _ _ _ _
    (both_builds _ _ _ _ (optional_builds false ("el_record" +:+ "_has") externalLabelSubjectRecord (lrf_Has (lfs_Record f)))
      (optional_builds true ("el_record" +:+ "_none") externalLabelSubjectRecord (lrf_None (lfs_Record f))))
    (both_builds _ _ _ _ (optional_builds false ("el_author" +:+ "_has") externalLabelSubjectAuthor (lrf_Has (lfs_Author f)))
      (optional_builds true ("el_author" +:+ "_none") externalLabelSubjectAuthor (lrf_None (lfs_Author f)))))
    as [[e He]|(g & ps & Hg & _)]; fold (build_label_set f) in *; unfold mbind, outcome_bind.
  { specialize (He 1 (le_n 1)). unfold build_label_set, buildExternalLabelSubjectFilterClause. by rewrite He. }
  intros _ n Hn. destruct (Hg n Hn) as [Eb [Hph Hm]]. unfold build_label_set, buildExternalLabelSubjectFilterClause.
  rewrite Eb. eexists. split; [reflexivity|]. cbn [cl_holds cl_params cl_placeholders]. split.
  - intros d args u r Hb. rewrite (Hm d args u r Hb). unfold label_set_matches, label_filter_matches.
    by destruct (lrf_Has (lfs_Record f)), (lrf_None (lfs_Record f)), (lrf_Has (lfs_Author f)), (lrf_None (lfs_Author f)).
  - rewrite Hph. apply aligned_seq.
Qed.
End correct.
