(* ===== verification/Endorsements.v ===== *)
(** * Endorsement edges

    src/internal/database/repositories/records_endorsement.go: the edges of the endorsement
    graph, read from badge awards, their definitions and the responses to them, a batch of
    issuers per statement. They are the adjacency source of graph closures. *)
From S2P Require Import Prelude GoStrings Effects Database Closure ClosureProps Like RecordStore Filters.

Definition certifiedBadgeAwardCollection : string := "app.certified.badge.award".
Definition certifiedBadgeDefinitionCollection : string := "app.certified.badge.definition".
Definition certifiedBadgeResponseCollection : string := "app.certified.badge.response".
Definition certifiedEndorsementBadgeType : string := "endorsement".

(** More of the engines' JSON functions: the type of the value at a path ([None] if there
    is none) and whether a text is a JSON document; and Indigo's DID parser, which returns
    the DID's method. *)
Class EndorsementEnv := {
  json_type : string → list string → option string;
  json_document : string → bool;
  ParseDID : string → option string;
}.

(** internal/oauth/did.go *)
Definition IsValidDID `{EndorsementEnv} (raw : string) : bool :=
  match ParseDID raw with
  | Some method => (method =? "plc")%string || (method =? "web")%string
  | None => false
  end.

(** [Limit] is 0 for no limit. *)
Record endorsementAdjacencyQueryOptions := mkAdjacencyOptions { eo_Limit : Z; eo_AnyStatus : bool }.

Section rows.
Context `{Env} `{SqlFunctions} `{EndorsementEnv}.

(** A JSON value at a path, as text. *)
Definition text_at (r : row) (path : list string) : option string := sql_text (json_at (row_json r) path).

Definition has_text (t : option string) (s : string) : bool := bool_decide (t = Some s).

(** [badgeAwardSubjectDIDExpr] *)
Definition badgeAwardSubjectDID (award : row) : option string :=
  if bool_decide (json_type (row_json award) ["subject"] = Some "object")
     && has_text (text_at award ["subject"; "$type"]) "app.certified.defs#did"
  then text_at award ["subject"; "did"]
  else None.

(** [didSQLPredicate] *)
Definition didSQL (s : string) : bool :=
  (has_prefix "did:plc:" s || has_prefix "did:web:" s) && (8 <? String.length s) && negb (contains s " ").

(** SQLite's [json_extract] refuses an element that is no document; elements are tried until one matches. *)
Fixpoint any_issuer (elements : list string) (issuer : string) : outcome bool :=
  match elements with
  | [] => Ok false
  | e :: rest =>
      if bool_decide (dialect = SQLite) && negb (json_document e) then Err "malformed JSON"
      else if has_text (sql_text (element_at e ["did"])) issuer then Ok true
      else any_issuer rest issuer
  end.

(** [badgeDefinitionAllowsIssuerExpr] *)
Definition badgeDefinitionAllowsIssuer (definition : row) (issuer : string) : outcome bool :=
  match json_type (row_json definition) ["allowedIssuers"] with
  | None => Ok true
  | Some t => if (t =? "array")%string then any_issuer (json_array (row_json definition) ["allowedIssuers"]) issuer
              else Ok false
  end.

(** The predicate on [validation_status], or none. *)
Definition status_ok (anyStatus : bool) (r : row) : bool := anyStatus || (row_validation_status r =? StatusValid)%string.

Definition rejected (anyStatus : bool) (d : db) (award_uri subject : string) : bool :=
  existsb (λ response, (row_collection response =? certifiedBadgeResponseCollection)%string
      && status_ok anyStatus response && (row_did response =? subject)%string
      && has_text (text_at response ["badgeAward"; "uri"]) award_uri
      && has_text (text_at response ["response"]) "rejected")
    (map_to_list (db_records d)).*2.

(** An award of the common table expression, joined with its definition: its edge if the
    [WHERE] clause selects it. The conditions are tried in the order they are written;
    [json_type] refuses an award that is no document on SQLite. *)
Definition award_edge (anyStatus : bool) (d : db) (award_uri : string) (award : row) : outcome (option (string * string)) :=
  if bool_decide (dialect = SQLite) && negb (json_document (row_json award)) then Err "malformed JSON"
  else
    let issuer := row_did award in
    match badgeAwardSubjectDID award, text_at award ["badge"; "uri"] ≫= (db_records d !!.) with
    | Some subject, Some definition =>
        if (row_collection definition =? certifiedBadgeDefinitionCollection)%string
           && status_ok anyStatus definition
           && has_text (text_at definition ["badgeType"]) certifiedEndorsementBadgeType
           && negb (subject =? "")%string && didSQL subject
        then
          allowed ← badgeDefinitionAllowsIssuer definition issuer;
          mret (if allowed && negb (issuer =? subject)%string && negb (rejected anyStatus d award_uri subject)
                then Some (issuer, subject) else None)
        else Ok None
    | _, _ => Ok None
    end.

(** The awards the common table expression scans. *)
Definition awards (anyStatus : bool) (issuers : list string) (d : db) : list (string * row) :=
  map_to_list (filter (λ kv : string * row, row_collection kv.2 = certifiedBadgeAwardCollection ∧
    row_did kv.2 ∈ issuers ∧ status_ok anyStatus kv.2 = true) (db_records d)).

(** [ORDER BY issuer_did, subject_did] *)
Definition edge_le `{TextOrder} (x y : string * string) : Prop :=
  text_lt x.1 y.1 ∨ (x.1 = y.1 ∧ text_le x.2 y.2).
#[global] Instance edge_le_dec `{TextOrder} : RelDecision edge_le.
Proof. intros x y. unfold edge_le. apply _. Defined.

(** The rows of the query: distinct, in order, at most one more than the limit. *)
Definition endorsement_rows `{TextOrder} (options : endorsementAdjacencyQueryOptions) (issuers : list string) (d : db)
    : outcome (list (string * string)) :=
  found ← mapM (λ kv : string * row, award_edge (eo_AnyStatus options) d kv.1 kv.2)
    (awards (eo_AnyStatus options) issuers d);
  let rows := merge_sort edge_le (remove_dups (omap id found)) in
  mret (if (0 <? eo_Limit options)%Z then take (Z.to_nat (eo_Limit options + 1)) rows else rows).

(** ** The scan *)

Record scan := mkScan { sn_out : gmap string (list string); sn_valid : Z; sn_raw : Z; sn_truncated : bool }.

Definition scan_row (limit : Z) (st : scan) (found : string * string) : scan :=
  let '(issuer, subject) := found in
  let raw := (sn_raw st + 1)%Z in
  let truncated := sn_truncated st || ((0 <? limit)%Z && (limit <? raw)%Z) in
  if negb (IsValidDID subject) then mkScan (sn_out st) (sn_valid st) raw truncated
  else
    let valid := (sn_valid st + 1)%Z in
    if (0 <? limit)%Z && (limit <? valid)%Z then mkScan (sn_out st) valid raw true
    else mkScan (<[ issuer := default [] (sn_out st !! issuer) ++ [subject] ]> (sn_out st)) valid raw truncated.

Definition scan_rows (limit : Z) (rows : list (string * string)) : scan :=
  foldl (scan_row limit) (mkScan ∅ 0 0 false) rows.

Definition endorsementAdjacencyBatch `{TextOrder} (issuers : list string) (options : endorsementAdjacencyQueryOptions)
    : M db (gmap string (list string) * bool) :=
  rows ← wrap "query Certified endorsement adjacency"
    (stmt (λ d, rows ← endorsement_rows options issuers d; mret (rows, d)));
  let st := scan_rows (eo_Limit options) rows in
  mret (sn_out st, sn_truncated st).

(** The arguments bound by a batch: the issuers, the valid status for awards, definitions
    and responses, and the limit. *)
Definition batch_args (options : endorsementAdjacencyQueryOptions) (issuers : list string) : list Value :=
  (TextValue <$> issuers) ++ (if eo_AnyStatus options then [] else repeat (TextValue StatusValid) 3)
  ++ (if (0 <? eo_Limit options)%Z then [IntValue (eo_Limit options + 1)] else []).

(** ** Batches *)

Definition endorsement_batch_size (options : endorsementAdjacencyQueryOptions) (issuers : nat) : nat :=
  match dialect with
  | PostgreSQL => issuers
  | SQLite =>
      let max := SQLParamBatchSize - (if eo_AnyStatus options then 0 else 3)
        - (if (0 <? eo_Limit options)%Z then 1 else 0) in
      Nat.min issuers max
  end.

(** [out[issuer] = append(...); remainingLimit -= len(subjects)] for one issuer of a batch. *)
Definition merge_issuer (acc : gmap string (list string) * Z) (found : string * list string)
    : gmap string (list string) * Z :=
  (<[ found.1 := default [] (acc.1 !! found.1) ++ found.2 ]> acc.1,
   if (0 <? acc.2)%Z then (acc.2 - Z.of_nat (length found.2))%Z else acc.2).

Fixpoint adjacency_loop `{TextOrder} (options : endorsementAdjacencyQueryOptions) (batches : list (list string))
    (out : gmap string (list string)) (remainingLimit : Z) : M db (gmap string (list string) * bool) :=
  match batches with
  | [] => mret (out, false)
  | batch :: rest =>
      let batchOptions := if (0 <? remainingLimit)%Z then mkAdjacencyOptions remainingLimit (eo_AnyStatus options) else options in
      found ← endorsementAdjacencyBatch batch batchOptions;
      let '(out, remainingLimit) := foldl merge_issuer (out, remainingLimit) (map_to_list found.1) in
      if found.2 : bool then mret (out, true)
      else if (remainingLimit =? 0)%Z && (0 <? eo_Limit options)%Z && negb (bool_decide (rest = [])) then mret (out, true)
      else adjacency_loop options rest out remainingLimit
  end.

Definition endorsementAdjacencyFor `{TextOrder} (issuers : list string) (options : endorsementAdjacencyQueryOptions)
    : M db (gmap string (list string) * bool) :=
  if decide (issuers = []) then mret (∅, false)
  else adjacency_loop options (chunks (endorsement_batch_size options (length issuers)) issuers) ∅ (eo_Limit options).

Definition EndorsementAdjacencyFor `{TextOrder} (issuers : list string) : M db (gmap string (list string)) :=
  fst <$> endorsementAdjacencyFor issuers (mkAdjacencyOptions 0 false).

(** [EndorsementAdjacencyForLimit] and [EndorsementAdjacencyAnyStatusForLimit] *)
Definition EndorsementAdjacencyLimited `{TextOrder} (anyStatus : bool) (issuers : list string) (limit : Z)
    : M db (gmap string (list string) * bool) :=
  if (limit <=? 0)%Z then throw ("endorsement adjacency limit must be positive, got " +:+ itoa limit)
  else endorsementAdjacencyFor issuers (mkAdjacencyOptions limit anyStatus).

(** ** What an edge is *)

(** An issuer endorses an account: with an award, of a badge definition of the type
    [endorsement] that allows the issuer, not to itself and not rejected by the account. *)
Definition endorses (anyStatus : bool) (d : db) (issuer subject : string) : Prop :=
  ∃ award_uri award definition_uri definition,
    db_records d !! award_uri = Some award ∧
    row_collection award = certifiedBadgeAwardCollection ∧ row_did award = issuer ∧ status_ok anyStatus award = true ∧
    badgeAwardSubjectDID award = Some subject ∧ IsValidDID subject = true ∧ didSQL subject = true ∧ issuer ≠ subject ∧
    text_at award ["badge"; "uri"] = Some definition_uri ∧ db_records d !! definition_uri = Some definition ∧
    row_collection definition = certifiedBadgeDefinitionCollection ∧ status_ok anyStatus definition = true ∧
    text_at definition ["badgeType"] = Some certifiedEndorsementBadgeType ∧
    badgeDefinitionAllowsIssuer definition issuer = Ok true ∧
    ¬ ∃ response_uri response, db_records d !! response_uri = Some response ∧
      row_collection response = certifiedBadgeResponseCollection ∧ status_ok anyStatus response = true ∧
      row_did response = subject ∧ text_at response ["badgeAward"; "uri"] = Some award_uri ∧
      text_at response ["response"] = Some "rejected".

(** No award is malformed, nor an element of an issuer list the query reaches. *)
Definition awards_readable (anyStatus : bool) (d : db) : Prop :=
  ∀ u r, db_records d !! u = Some r → row_collection r = certifiedBadgeAwardCollection →
    status_ok anyStatus r = true → is_ok (award_edge anyStatus d u r) = true.
End rows.

(** ** Endorsement edges are the graph

    The statements of Endorsements.v answer for the graph [endorses]: they implement the
    interface [ClosureProps.AdjacencyLaws] of graph closures, and a batch never binds more
    arguments than SQLite takes. *)

Section edges.
Context `{Env} `{SqlFunctions} `{EndorsementEnv} `{TextOrder}.
Implicit Types (d : db) (issuer subject : string).

(** ** One award *)

Lemma has_text_spec t s : has_text t s = true ↔ t = Some s.
Proof. apply bool_decide_eq_true. Qed.

Lemma rejected_spec anyStatus d award_uri subject :
  rejected anyStatus d award_uri subject = true ↔
  ∃ response_uri response, db_records d !! response_uri = Some response ∧
    row_collection response = certifiedBadgeResponseCollection ∧ status_ok anyStatus response = true ∧
    row_did response = subject ∧ text_at response ["badgeAward"; "uri"] = Some award_uri ∧
    text_at response ["response"] = Some "rejected".
Proof.
  unfold rejected. rewrite existsb_exists. setoid_rewrite <- list_elem_of_In. split.
  - intros (r & ([u r'] & -> & Hu%elem_of_map_to_list)%list_elem_of_fmap & Hr).
    rewrite !andb_true_iff, !String.eqb_eq, !has_text_spec in Hr. exists u, r'. tauto.
  - intros (u & r & Hu & Hr). exists r. split.
    + apply list_elem_of_fmap. exists (u, r). split; [done|]. by apply elem_of_map_to_list.
    + rewrite !andb_true_iff, !String.eqb_eq, !has_text_spec. tauto.
Qed.

(** What an award's edge means, Go's check of the subject apart. *)
Definition awarded (anyStatus : bool) d (award_uri : string) (award : row) issuer subject : Prop :=
  row_did award = issuer ∧ badgeAwardSubjectDID award = Some subject ∧ didSQL subject = true ∧ issuer ≠ subject ∧
  (∃ definition_uri definition,
    text_at award ["badge"; "uri"] = Some definition_uri ∧ db_records d !! definition_uri = Some definition ∧
    row_collection definition = certifiedBadgeDefinitionCollection ∧ status_ok anyStatus definition = true ∧
    text_at definition ["badgeType"] = Some certifiedEndorsementBadgeType ∧
    badgeDefinitionAllowsIssuer definition issuer = Ok true) ∧
  rejected anyStatus d award_uri subject = false.

Lemma award_edge_spec anyStatus d u award issuer subject :
  is_ok (award_edge anyStatus d u award) = true →
  award_edge anyStatus d u award = Ok (Some (issuer, subject)) ↔ awarded anyStatus d u award issuer subject.
Proof.
  unfold award_edge, awarded. destruct (_ && negb (json_document _)); [done|].
  destruct (badgeAwardSubjectDID award) as [s|] eqn:Es; [|by split; [|intros (_ & ? & _)]].
  destruct (text_at award ["badge"; "uri"]) as [b|] eqn:Eb; cbn [mbind option_bind];
    [|intros _; split; [done|by intros (_ & _ & _ & _ & (? & ? & ? & _) & _)]].
  destruct (db_records d !! b) as [def|] eqn:Ed;
    [|intros _; split; [done|by intros (_ & _ & _ & _ & (? & ? & [= <-] & ? & _) & _); congruence]].
  match goal with |- context [if ?c then _ else _] => destruct c eqn:Ec end.
  - rewrite !andb_true_iff, String.eqb_eq, has_text_spec, negb_true_iff, String.eqb_neq in Ec.
    destruct Ec as ((((Hcol & Hst) & Hty) & Hne) & Hdid).
    destruct (badgeDefinitionAllowsIssuer def (row_did award)) as [allowed|] eqn:Ea; [|done]. intros _. cbn. split.
    + destruct (_ && _) eqn:Ef; [|done]. intros [= <- <-].
      rewrite !andb_true_iff, !negb_true_iff, String.eqb_neq in Ef. destruct Ef as ((-> & ?) & ?). eauto 20.
    + intros (<- & [= <-] & _ & Hneq & (? & ? & [= <-] & ? & _ & _ & _ & Hal) & Hrej). simplify_eq.
      rewrite Hal in Ea. injection Ea as <-. by rewrite Hrej, (proj2 (String.eqb_neq _ _) Hneq).
  - intros _. split; [done|]. intros (<- & [= <-] & Hdid & Hneq & (? & ? & [= <-] & ? & Hcol & Hst & Hty & Hal) & Hrej).
    simplify_eq. assert (s ≠ "") by by intros ->.
    rewrite Hcol, Hst, Hty, Hdid, String.eqb_refl, (proj2 (String.eqb_neq _ _)) in Ec by done.
    by rewrite (proj2 (has_text_spec _ _)) in Ec.
Qed.

(** ** The rows *)

Definition all_edges anyStatus (issuers : list string) d (rows : list (string * string)) : Prop :=
  ∀ issuer subject, (issuer, subject) ∈ rows ↔ issuer ∈ issuers ∧
    ∃ u award, db_records d !! u = Some award ∧ row_collection award = certifiedBadgeAwardCollection ∧
      status_ok anyStatus award = true ∧ awarded anyStatus d u award issuer subject.

Lemma mapM_ok {A B} (f : A → outcome B) l :
  Forall (λ x, is_ok (f x) = true) l → ∃ k, mapM f l = Ok k ∧ Forall2 (λ x y, f x = Ok y) l k.
Proof.
  induction 1 as [|x l Hx Hl (k & Hk & Hf)]; cbn; [by exists []|].
  destruct (f x) as [y|] eqn:E; [|done]. exists (y :: k). cbn. rewrite Hk. cbn. split; [done|]. by constructor.
Qed.

Lemma rows_spec options issuers d :
  awards_readable (eo_AnyStatus options) d →
  ∃ rows, all_edges (eo_AnyStatus options) issuers d rows ∧
    endorsement_rows options issuers d =
      Ok (if (0 <? eo_Limit options)%Z then take (Z.to_nat (eo_Limit options + 1)) rows else rows).
Proof.
  intros Hread. unfold endorsement_rows.
  destruct (mapM_ok (λ kv : string * row, award_edge (eo_AnyStatus options) d kv.1 kv.2) (awards (eo_AnyStatus options) issuers d))
    as (found & Hf & Hall).
  { apply Forall_forall. intros [u r] Hu%elem_of_map_to_list. apply map_lookup_filter_Some in Hu as (Hu & Hc & _ & Hs).
    by apply (Hread u). }
  exists (merge_sort edge_le (remove_dups (omap id found))). split; [|by setoid_rewrite Hf].
  intros i s. rewrite merge_sort_Permutation, elem_of_remove_dups, list_elem_of_omap. split.
  - intros ([e|] & He & [= ->]). apply list_elem_of_lookup in He as (k & Hk).
    destruct (Forall2_lookup_r _ _ _ _ _ Hall Hk) as ([u r] & Hu%list_elem_of_lookup_2 & Hr).
    apply elem_of_map_to_list, map_lookup_filter_Some in Hu as (Hu & Hc & Hi & Hs). cbn in *.
    apply award_edge_spec in Hr as Ha; [|by rewrite Hr]. destruct Ha as [<- Ha']. split; [done|].
    exists u, r. split_and!; [done..|]. by split.
  - intros (Hi & u & r & Hu & Hc & Hs & Ha).
    assert (Hin : (u, r) ∈ awards (eo_AnyStatus options) issuers d).
    { apply elem_of_map_to_list, map_lookup_filter_Some. split; [done|]. cbn. by destruct Ha as [-> _]. }
    apply list_elem_of_lookup in Hin as (k & Hk). destruct (Forall2_lookup_l _ _ _ _ _ Hall Hk) as (y & Hy & Hr).
    exists y. split; [by eapply list_elem_of_lookup_2|]. apply award_edge_spec in Ha; [|by apply (Hread u)].
    cbn in Hr. rewrite Ha in Hr. by injection Hr as <-.
Qed.

(** ** The scan *)

Lemma scan_app limit rows x : scan_rows limit (rows ++ [x]) = scan_row limit (scan_rows limit rows) x.
Proof. unfold scan_rows. by rewrite foldl_app. Qed.

Lemma scan_spec limit rows (st := scan_rows limit rows) :
  (0 < limit)%Z →
  sn_raw st = Z.of_nat (length rows) ∧ (sn_valid st <= sn_raw st)%Z ∧
  ((limit < sn_raw st)%Z → sn_truncated st = true) ∧
  (∀ i s, s ∈ default [] (sn_out st !! i) → (i, s) ∈ rows ∧ IsValidDID s = true) ∧
  (sn_truncated st = false → ∀ i s, (i, s) ∈ rows → IsValidDID s = true → s ∈ default [] (sn_out st !! i)).
Proof.
  intros Hl. subst st. induction rows as [|[i s] rows IH] using rev_ind; [split_and!; cbn; [lia|lia|intros; lia|set_solver|set_solver]|].
  rewrite scan_app. destruct IH as (Hraw & Hv & Htr & Hin & Hall). set (st := scan_rows limit rows) in *.
  unfold scan_row. rewrite (proj2 (Z.ltb_lt 0 limit)), !andb_true_l by done. rewrite length_app. cbn [length].
  destruct (IsValidDID s) eqn:Ev; cbn [negb].
  - destruct (Z.ltb_spec limit (sn_valid st + 1)); cbn [sn_raw sn_valid sn_truncated sn_out].
    + split_and!; [lia|lia|done| |done]. intros j t Ht. destruct (Hin j t Ht). set_solver.
    + assert (Hout : ∀ j t, t ∈ default [] (<[i := default [] (sn_out st !! i) ++ [s]]> (sn_out st) !! j) ↔
        t ∈ default [] (sn_out st !! j) ∨ (j = i ∧ t = s)).
      { intros j t. destruct (decide (j = i)) as [->|]; [rewrite lookup_insert_eq; cbn; set_solver|].
        rewrite lookup_insert_ne by done. naive_solver. }
      split_and!; [lia|lia| | |].
      * intros Hlt. apply orb_true_iff. right. by apply Z.ltb_lt.
      * intros j t [Ht|[-> ->]]%Hout; [destruct (Hin j t Ht)|]; set_solver.
      * intros [Ht _]%orb_false_iff j t [Hj|Hj]%elem_of_app Hd; apply Hout; [left; by apply Hall|].
        apply list_elem_of_singleton in Hj as [= -> ->]. by right.
  - cbn [sn_raw sn_valid sn_truncated sn_out]. split_and!; [lia|lia| | |].
    + intros Hlt. apply orb_true_iff. right. by apply Z.ltb_lt.
    + intros j t Ht. destruct (Hin j t Ht). set_solver.
    + intros [Ht _]%orb_false_iff j t [Hj|Hj]%elem_of_app Hd; [by apply Hall|].
      apply list_elem_of_singleton in Hj. congruence.
Qed.

(** ** A batch *)

(** An answer for some issuers: edges only, and all of them unless truncated. *)
Definition answers anyStatus d (issuers : list string) (found : gmap string (list string)) (truncated : bool) : Prop :=
  (∀ x y, y ∈ default [] (found !! x) → endorses anyStatus d x y) ∧
  (truncated = false → ∀ x y, x ∈ issuers → endorses anyStatus d x y → y ∈ default [] (found !! x)).

Lemma endorses_awarded anyStatus d issuer subject :
  endorses anyStatus d issuer subject ↔ IsValidDID subject = true ∧
    ∃ u award, db_records d !! u = Some award ∧ row_collection award = certifiedBadgeAwardCollection ∧
      status_ok anyStatus award = true ∧ awarded anyStatus d u award issuer subject.
Proof.
  assert (Hrej : ∀ u, rejected anyStatus d u subject = false ↔ ¬ rejected anyStatus d u subject = true)
    by (intros u; by rewrite not_true_iff_false).
  unfold endorses, awarded. setoid_rewrite Hrej. setoid_rewrite rejected_spec. split.
  - intros (u & a & b & def & ? & ? & ? & ? & ? & ? & ? & ? & ? & ? & ? & ? & ? & ? & ?). split; [done|].
    exists u, a. split_and!; [done..| |done]. by exists b, def.
  - intros (? & u & a & ? & ? & ? & ? & ? & ? & ? & (b & def & ? & ? & ? & ? & ? & ?) & ?). by exists u, a, b, def.
Qed.

Lemma reads_batch_endorsements batch options d :
  awards_readable (eo_AnyStatus options) d → (0 < eo_Limit options)%Z →
  ∃ found truncated, ReadsAs (endorsementAdjacencyBatch batch options) d (Ok (found, truncated)) ∧
    answers (eo_AnyStatus options) d batch found truncated.
Proof.
  intros Hread Hl. destruct (rows_spec options batch d Hread) as (rows & Hrows & Heq).
  rewrite (proj2 (Z.ltb_lt _ _)) in Heq by done. set (page := take _ rows) in *.
  destruct (scan_spec (eo_Limit options) page Hl) as (Hraw & _ & Htr & Hin & Hall).
  exists (sn_out (scan_rows (eo_Limit options) page)), (sn_truncated (scan_rows (eo_Limit options) page)). split.
  - unfold endorsementAdjacencyBatch. eapply reads_bind; [apply reads_wrap, reads_stmt_ok; by rewrite Heq| |done].
    intros a [= <-]. apply reads_ret.
  - split.
    + intros x y Hy. destruct (Hin x y Hy) as [Hxy Hv]. apply endorses_awarded. split; [done|].
      by apply Hrows, (elem_of_take_aux (Z.to_nat (eo_Limit options + 1))).
    + intros Hnt x y Hx [Hv Hxy]%endorses_awarded. apply Hall; [done| |done].
      assert (page = rows) as ->; [|by apply Hrows].
      apply take_ge. assert (Hlen : ¬ (eo_Limit options < Z.of_nat (length page))%Z) by (rewrite <- Hraw; intros ?%Htr; congruence).
      unfold page in Hlen. rewrite length_take in Hlen. lia.
Qed.

(** ** All batches *)

Lemma elem_of_merged (acc : gmap string (list string) * Z) l x y :
  y ∈ default [] ((foldl merge_issuer acc l).1 !! x) ↔
  y ∈ default [] (acc.1 !! x) ∨ ∃ ys, (x, ys) ∈ l ∧ y ∈ ys.
Proof.
  revert acc. induction l as [|[i ys] l IH]; intros acc; cbn [foldl]; [set_solver|].
  rewrite IH. unfold merge_issuer. cbn. destruct (decide (x = i)) as [->|].
  - rewrite lookup_insert_eq. cbn. set_solver.
  - rewrite lookup_insert_ne by done. set_solver.
Qed.

Lemma elem_of_merged_map (acc : gmap string (list string) * Z) (m : gmap string (list string)) x y :
  y ∈ default [] ((foldl merge_issuer acc (map_to_list m)).1 !! x) ↔ y ∈ default [] (acc.1 !! x) ∨ y ∈ default [] (m !! x).
Proof.
  rewrite elem_of_merged. setoid_rewrite elem_of_map_to_list. destruct (m !! x) as [ys|]; cbn; [naive_solver|set_solver].
Qed.

Lemma reads_adjacency_loop anyStatus limit d batches out remaining :
  awards_readable anyStatus d → (0 < limit)%Z →
  (∀ x y, y ∈ default [] (out !! x) → endorses anyStatus d x y) →
  ∃ found truncated, ReadsAs (adjacency_loop (mkAdjacencyOptions limit anyStatus) batches out remaining) d (Ok (found, truncated)) ∧
    answers anyStatus d (concat batches) found truncated ∧ ∀ x y, y ∈ default [] (out !! x) → y ∈ default [] (found !! x).
Proof.
  intros Hread Hl. revert out remaining. induction batches as [|b bs IH]; intros out rem Hout; cbn [adjacency_loop].
  { exists out, false. split_and!; [apply reads_ret|by split; [|set_solver]|done]. }
  set (options := if (0 <? rem)%Z then _ else _).
  destruct (reads_batch_endorsements b options d) as (m & t & Hm & Hin & Hall); [by unfold options; destruct (0 <? rem)%Z| |].
  { unfold options. destruct (Z.ltb_spec 0 rem); cbn; lia. }
  replace (eo_AnyStatus options) with anyStatus in * by (unfold options; by destruct (0 <? rem)%Z).
  destruct (foldl merge_issuer (out, rem) (map_to_list m)) as [out' rem'] eqn:Efold.
  assert (Hmerge : ∀ x y, y ∈ default [] (out' !! x) ↔ y ∈ default [] (out !! x) ∨ y ∈ default [] (m !! x)).
  { intros x y. rewrite <- (elem_of_merged_map (out, rem)). by rewrite Efold. }
  assert (Hout' : ∀ x y, y ∈ default [] (out' !! x) → endorses anyStatus d x y) by (intros x y [?|?]%Hmerge; auto).
  assert (Hstop : ∃ found truncated, ReadsAs (if t then mret (out', true)
      else if (rem' =? 0)%Z && (0 <? limit)%Z && negb (bool_decide (bs = [])) then mret (out', true)
      else adjacency_loop (mkAdjacencyOptions limit anyStatus) bs out' rem') d (Ok (found, truncated)) ∧
    answers anyStatus d (b ++ concat bs) found truncated ∧ ∀ x y, y ∈ default [] (out !! x) → y ∈ default [] (found !! x)).
  { assert (Hcut : answers anyStatus d (b ++ concat bs) out' true) by by split.
    assert (Hkeep : ∀ x y, y ∈ default [] (out !! x) → y ∈ default [] (out' !! x)) by (intros x y ?; apply Hmerge; by left).
    destruct t; [exists out', true; split_and!; [apply reads_ret|done|done]|].
    destruct (_ && negb _); [exists out', true; split_and!; [apply reads_ret|done|done]|].
    destruct (IH out' rem' Hout') as (f & t' & Hr & [Hf1 Hf2] & Hk). exists f, t'. split_and!; [done| |auto].
    split; [done|]. intros Ht x y [Hx|Hx]%elem_of_app Hxy; [|by apply Hf2]. apply Hk, Hmerge. right. by apply Hall. }
  destruct Hstop as (f & t' & Hr & Ha & Hk). exists f, t'. split_and!; [|done..].
  eapply reads_bind; [done|intros a [= <-]; cbn [fst snd]; rewrite Efold; exact Hr|done].
Qed.

Lemma batch_size_pos options n : 0 < n → 0 < endorsement_batch_size options n.
Proof. unfold endorsement_batch_size, SQLParamBatchSize. intros. destruct dialect, (eo_AnyStatus options), (0 <? eo_Limit options)%Z; lia. Qed.

(** A batch fits SQLite's parameters. *)
Lemma batch_args_bound options issuers batch :
  dialect = SQLite → batch ∈ chunks (endorsement_batch_size options (length issuers)) issuers →
  length (batch_args options batch) ≤ SQLParamBatchSize.
Proof.
  intros Hd Hb. assert (Hsz := chunks_size (endorsement_batch_size options (length issuers)) issuers).
  rewrite Forall_forall in Hsz. specialize (Hsz _ Hb). unfold endorsement_batch_size, SQLParamBatchSize in *. rewrite Hd in Hsz.
  unfold batch_args. rewrite !length_app, length_fmap.
  destruct (eo_AnyStatus options), (0 <? eo_Limit options)%Z; cbn [length repeat]; lia.
Qed.

(** ** The interface of closures *)

#[export] Instance endorsement_adjacency (anyStatus : bool) : Adjacency db := EndorsementAdjacencyLimited anyStatus.

#[export] Instance endorsement_laws anyStatus d :
  awards_readable anyStatus d → AdjacencyLaws (Adjacency0 := endorsement_adjacency anyStatus) d (endorses anyStatus d).
Proof.
  intros Hread. split. intros sources limit Hl. unfold AdjacentForLimit, endorsement_adjacency, EndorsementAdjacencyLimited.
  rewrite (proj2 (Z.leb_gt _ _)) by done. unfold endorsementAdjacencyFor. case_decide as Hnil.
  - exists ∅, false. subst sources. split_and!; [apply reads_ret|set_solver|set_solver].
  - destruct (reads_adjacency_loop anyStatus limit d
      (chunks (endorsement_batch_size (mkAdjacencyOptions limit anyStatus) (length sources)) sources) ∅ limit)
      as (f & t & Hr & [Hf Hall] & _); [done|done|set_solver|].
    exists f, t. rewrite chunks_concat in Hall by (apply batch_size_pos; destruct sources; [done|cbn; lia]). done.
Qed.
End edges.
