(* ===== verification/Labels.v ===== *)
(** * External labels

    src/internal/database/repositories/external_labels.go: the cursor state of label
    subscriptions, storing an event's labels with its cursor, and reading labels by
    subject. *)
From S2P Require Import Prelude GoStrings Json GoTime Effects Database Like RecordStore Filters LabelFilters.

Definition externalLabelLastErrorMaxLen : nat := 4096.
Definition externalLabelSubjectBatchSize : nat := 250.
Definition fatalCursorPrefix : string := "FATAL_CURSOR ".
Definition fatalCursorLikePattern : string := fatalCursorPrefix +:+ "%".

(** ** Status *)

Definition IsFatalCursorError (lastError : option string) : bool :=
  match lastError with None => false | Some e => has_prefix fatalCursorPrefix (trim_space e) end.

Definition colon : Ascii.ascii := Eval cbv in Ascii.ascii_of_N 58.

Definition FatalCursorCode (lastError : option string) : string :=
  match lastError with
  | Some e =>
      if negb (IsFatalCursorError lastError) then ""
      else
        let marker := trim_prefix fatalCursorPrefix (trim_space e) in
        let code := trim_space (match cut colon marker with Some (before, _) => before | None => marker end) in
        if (code =? "")%string then "FatalCursor" else code
  | None => ""
  end.

Definition StateStatus (s : label_state) : string :=
  if IsFatalCursorError (ls_last_error s) then "fatal"
  else if match ls_last_error s with Some e => negb (trim_space e =? "")%string | None => false end then "error"
  else if bool_decide (is_Some (ls_last_connected_at s)) || bool_decide (is_Some (ls_last_event_at s))
          || (0 <? ls_last_seq s)%Z then "connected"
  else "pending".

Definition normalizeLastError (errText : string) : string :=
  let errText := trim_space (to_valid_utf8 errText replacement) in
  if (errText =? "")%string then "unknown error"
  else if externalLabelLastErrorMaxLen <? String.length errText then stake externalLabelLastErrorMaxLen errText
  else errText.

Definition normalizeErrorCode (errorCode : string) : string :=
  let errorCode := trim_space (to_valid_utf8 errorCode replacement) in
  if (errorCode =? "")%string then "Unknown" else errorCode.

Definition formatFatalCursorLastError (errorCode errText : string) : string :=
  let code := normalizeErrorCode errorCode in
  let message := trim_space (to_valid_utf8 errText replacement) in
  let message := trim_space (trim_prefix fatalCursorPrefix message) in
  let message := if has_prefix (code +:+ ":") message
    then trim_space (trim_prefix (code +:+ ":") message) else message in
  normalizeLastError (fatalCursorPrefix +:+ code +:+ ": " +:+ normalizeLastError message).

(** ** Inputs *)

(** [ExternalLabelInput] *)
Record ExternalLabelInput := mkLabelInput {
  li_LabelIndex : Z;
  li_Src : string;
  li_URI : string;
  li_CID : option string;
  li_Val : string;
  li_Neg : bool;
  li_Cts : string;
  li_Exp : option string;
  li_Sig : option string;
  li_Ver : option Z;
  li_RawJSON : string;
}.

Definition blank (s : string) : bool := (trim_space s =? "")%string.

Definition validateSubscriptionURL (url : string) : outcome unit :=
  if blank url then Err "label subscription URL must not be empty" else Ok tt.

(** An error names the label's position; the quoted timestamp and the parser's message
    that follow it are left out. *)
Definition validate_label (i : nat) (l : ExternalLabelInput) : outcome unit :=
  let fail (what : string) := Err ("external label " +:+ itoa (Z.of_nat i) +:+ " " +:+ what) in
  if (li_LabelIndex l <? 0)%Z then fail ("has negative label_index " +:+ itoa (li_LabelIndex l))
  else if blank (li_Src l) then fail "missing src"
  else if blank (li_URI l) then fail "missing uri"
  else if blank (li_Val l) then fail "missing val"
  else if negb (rfc3339_valid (li_Cts l)) then fail "has invalid cts"
  else match li_Exp l with
       | Some e => if rfc3339_valid e then Ok tt else fail "has invalid exp"
       | None => Ok tt
       end.

(** A loop over a slice that stops at the first error. *)
Fixpoint validate_all {A} (f : nat → A → outcome unit) (i : nat) (xs : list A) : outcome unit :=
  match xs with [] => Ok tt | x :: xs' => f i x ;; validate_all f (S i) xs' end.

Definition validateExternalLabelInputs (labels : list ExternalLabelInput) : outcome unit :=
  validate_all validate_label 0 labels.

Definition nullableNonEmptyText (s : string) : Value := if (s =? "")%string then NullValue else TextValue s.

Section store.
Context `{Env}.

(** ** Subscription state *)

Definition new_state (now : Z) : label_state := mkLabelState None 0 None None None now now.

(** [INSERT ... ON CONFLICT(url) DO NOTHING] *)
Definition ensure_state (url : string) (d : db) : db :=
  set_label_states (λ m, match m !! url with Some _ => m | None => <[url := new_state (db_clock d)]> m end) d.

(** [last_error IS NULL OR last_error NOT LIKE 'FATAL_CURSOR %'] *)
Definition not_fatal (s : label_state) : bool :=
  match ls_last_error s with
  | None => true | Some e => negb (like_match (like_tokens fatalCursorLikePattern) e) end.

(** An [UPDATE] of one state row under a condition. *)
Definition update_state (url : string) (cond : label_state → bool) (f : label_state → label_state) (d : db) : db :=
  set_label_states (alter (λ s, if cond s then f s else s) url) d.

Definition GetState (url : string) : M db (string * label_state) :=
  stmt (λ d, match db_label_states d !! url with Some s => Ok ((url, s), d) | None => Err no_rows end).

Definition EnsureState (url : string) : M db (string * label_state) :=
  of_outcome (validateSubscriptionURL url) ;;
  exec (ensure_state url) ;;
  GetState url.

Fixpoint dedup_keep {A} `{EqDecision A} (seen xs : list A) : list A :=
  match xs with
  | [] => []
  | x :: xs' => if bool_decide (x ∈ seen) then dedup_keep seen xs' else x :: dedup_keep (x :: seen) xs'
  end.

(** A configured URL without a row is pending. *)
Definition absent_state : label_state := mkLabelState None 0 None None None 0 0.

Definition ListStates (urls : list string) : M db (list (string * label_state)) :=
  if decide (urls = []) then mret []
  else
    of_outcome (validate_all (λ _, validateSubscriptionURL) 0 urls) ;;
    wrap "list label subscription states" (query (λ d,
      (λ u, (u, default absent_state (db_label_states d !! u))) <$> dedup_keep [] urls)).

Definition UpdateConnected (url : string) : M db unit :=
  EnsureState url ;;
  exec (λ d, update_state url not_fatal (λ s, mkLabelState (ls_labeler_did s) (ls_last_seq s) (Some (db_clock d))
    (ls_last_event_at s) None (ls_created_at s) (db_clock d)) d).

Definition UpdateError (url errText : string) : M db unit :=
  EnsureState url ;;
  exec (λ d, update_state url not_fatal (λ s, mkLabelState (ls_labeler_did s) (ls_last_seq s)
    (ls_last_connected_at s) (ls_last_event_at s) (Some (normalizeLastError errText)) (ls_created_at s) (db_clock d)) d).

Definition MarkFatalCursor (url errorCode errText : string) : M db unit :=
  EnsureState url ;;
  exec (λ d, update_state url (λ _, true) (λ s, mkLabelState (ls_labeler_did s) (ls_last_seq s)
    (ls_last_connected_at s) (ls_last_event_at s) (Some (formatFatalCursorLastError errorCode errText))
    (ls_created_at s) (db_clock d)) d).

(** ** Events *)

Definition has_label_key (url : string) (seq index : Z) (ls : list label_row) : bool :=
  existsb (λ l, (lb_subscription_url l =? url)%string && (lb_seq l =? seq)%Z && (lb_label_index l =? index)%Z) ls.

(** [INSERT ... ON CONFLICT(subscription_url, seq, label_index) DO NOTHING]: a conflict
    uses up a number of PostgreSQL's sequence, but none of SQLite's. *)
Definition insert_label (mk : Z → label_row) (d : db) : db :=
  let l := mk (db_next_label d) in
  let next := (db_next_label d + 1)%Z in
  if has_label_key (lb_subscription_url l) (lb_seq l) (lb_label_index l) (db_labels d)
  then match dialect with
       | SQLite => d
       | PostgreSQL => mkDb (db_records d) (db_versions d) (db_next_version d) (db_actors d) (db_activity d)
           (db_next_activity d) (db_clock d) (db_labels d) next (db_label_states d)
       end
  else mkDb (db_records d) (db_versions d) (db_next_version d) (db_actors d) (db_activity d)
         (db_next_activity d) (db_clock d) (db_labels d ++ [l]) next (db_label_states d).

Definition label_of (url : string) (seq : Z) (l : ExternalLabelInput) (raw : option string) (now id : Z) : label_row :=
  mkLabel id url seq (li_LabelIndex l) (li_Src l) (li_URI l) (li_CID l) (li_Val l) (li_Neg l) (li_Cts l)
    (li_Exp l) (li_Sig l) (li_Ver l) raw now.

Definition store_raw_json (v : Value) : outcome (option string) :=
  match column_text v with None => Ok None | Some j => Some <$> store_json j end.

Definition insertExternalLabelTx (url : string) (seq : Z) (l : ExternalLabelInput) : M db unit :=
  wrap ("insert external label seq=" +:+ itoa seq +:+ " index=" +:+ itoa (li_LabelIndex l)) (stmt (λ d,
    raw ← store_raw_json (nullableNonEmptyText (li_RawJSON l));
    Ok (tt, insert_label (label_of url seq l raw (db_clock d)) d))).

Definition ensureStateTx (url : string) : M db unit :=
  wrap "ensure label subscription state" (exec (ensure_state url)).

(** The cursor moves forward only; an event is one that moves it. *)
Definition advance (now seq : Z) (s : label_state) : label_state :=
  let newer := (ls_last_seq s <? seq)%Z in
  mkLabelState (ls_labeler_did s) (if newer then seq else ls_last_seq s) (ls_last_connected_at s)
    (if newer then Some now else ls_last_event_at s) None (ls_created_at s) now.

Definition updateLastSeqTx (url : string) (seq : Z) : M db unit :=
  wrap "update external label cursor" (exec (λ d, update_state url not_fatal (advance (db_clock d) seq) d)).

Definition validate_seq (seq : Z) : outcome unit :=
  if (seq <? 0)%Z then Err ("external label event seq must be non-negative: " +:+ itoa seq) else Ok tt.

Definition PersistEvent (url : string) (seq : Z) (labels : list ExternalLabelInput) : M db unit :=
  of_outcome (validateSubscriptionURL url) ;;
  of_outcome (validate_seq seq) ;;
  of_outcome (validateExternalLabelInputs labels) ;;
  transaction (
    ensureStateTx url ;;
    for_each (insertExternalLabelTx url seq) labels ;;
    updateLastSeqTx url seq).

Definition UpdateLastSeq (url : string) (seq : Z) : M db unit :=
  of_outcome (validateSubscriptionURL url) ;;
  of_outcome (validate_seq seq) ;;
  transaction (ensureStateTx url ;; updateLastSeqTx url seq).

Definition index_le (a b : label_row) : Prop := (lb_label_index a <= lb_label_index b)%Z.
#[export] Instance index_le_dec : RelDecision index_le := λ a b, Z_le_dec _ _.

Definition ListLabelsByEvent (url : string) (seq : Z) : M db (list label_row) :=
  query (λ d, merge_sort index_le (filter (λ l, lb_subscription_url l = url ∧ lb_seq l = seq) (db_labels d))).

Definition CountLabels (url : string) : M db nat :=
  query (λ d, length (filter (λ l, lb_subscription_url l = url) (db_labels d))).
End store.

(** ** Labels of subjects *)

Record LabelSubject := mkSubject { su_URI : string; su_CID : string }.
#[export] Instance LabelSubject_eq_dec : EqDecision LabelSubject.
Proof. solve_decision. Defined.

Definition Key (s : LabelSubject) : string :=
  if (su_CID s =? "")%string then su_URI s else su_URI s +:+ String (byte 0) (su_CID s).

Record ExternalLabelFilter := mkLabelsFilter { elf_Sources : list string; elf_Values : list string; elf_ActiveOnly : bool }.

Definition validateExternalLabelString (name value : string) : outcome unit :=
  if blank value then Err (name +:+ " must not be empty")
  else if negb (value =? trim_space value)%string then Err (name +:+ " must not have leading or trailing whitespace")
  else if contains value (byte_str (byte 0)) then Err (name +:+ " must not contain NUL bytes")
  else Ok tt.

Definition validate_subject (i : nat) (s : LabelSubject) : outcome unit :=
  let name (what : string) := ("external label subject " +:+ itoa (Z.of_nat i) +:+ what)%string in
  validateExternalLabelString (name " URI") (su_URI s) ;;
  if (su_CID s =? "")%string then Ok tt else validateExternalLabelString (name " CID") (su_CID s).

(** The first subject of each key. *)
Fixpoint dedup_subjects (seen : list string) (subjects : list LabelSubject) : list LabelSubject :=
  match subjects with
  | [] => []
  | s :: rest => if bool_decide (Key s ∈ seen) then dedup_subjects seen rest
                 else s :: dedup_subjects (Key s :: seen) rest
  end.

Definition normalizeLabelSubjects (subjects : list LabelSubject) : outcome (list LabelSubject) :=
  validate_all validate_subject 0 subjects ;; Ok (dedup_subjects [] subjects).

Definition validateExternalLabelFilter (f : ExternalLabelFilter) : outcome unit :=
  if MaxINListSize <? length (elf_Sources f) then Err "external label source filter exceeds maximum of 100 values"
  else
    validate_all (λ i, validateExternalLabelString ("external label source filter " +:+ itoa (Z.of_nat i))) 0 (elf_Sources f) ;;
    if MaxINListSize <? length (elf_Values f) then Err "external label value filter exceeds maximum of 100 values"
    else validate_all (λ i, validateExternalLabelString ("external label value filter " +:+ itoa (Z.of_nat i))) 0 (elf_Values f).

Section read.
Context `{Env} `{SqlFunctions}.

(** [ORDER BY cts DESC, id DESC]; a timestamp SQLite cannot read comes last. *)
Definition newer_first (a b : label_row) : Prop :=
  match label_time (lb_cts a), label_time (lb_cts b) with
  | Some x, Some y => (y < x)%Z ∨ x = y ∧ (lb_id b <= lb_id a)%Z
  | Some _, None => True
  | None, Some _ => False
  | None, None => (lb_id b <= lb_id a)%Z
  end.
#[export] Instance newer_first_dec : RelDecision newer_first.
Proof. intros a b. unfold newer_first. destruct (label_time (lb_cts a)), (label_time (lb_cts b)); apply _. Defined.

Definition subject_label (f : ExternalLabelFilter) (d : db) (s : LabelSubject) (l : label_row) : Prop :=
  lb_uri l = su_URI s ∧ (su_CID s = "" ∨ lb_cid l = None ∨ lb_cid l = Some (su_CID s)) ∧
  (elf_Sources f = [] ∨ lb_src l ∈ elf_Sources f) ∧ (elf_Values f = [] ∨ lb_val l ∈ elf_Values f) ∧
  (elf_ActiveOnly f = true → label_active d l = true).
#[export] Instance subject_label_dec f d s l : Decision (subject_label f d s l).
Proof. unfold subject_label. apply _. Defined.

Definition labels_of (f : ExternalLabelFilter) (d : db) (s : LabelSubject) : list label_row :=
  merge_sort newer_first (filter (subject_label f d s) (db_labels d)).

Definition batch_params (subjects : list LabelSubject) (f : ExternalLabelFilter) : nat :=
  3 * length subjects + length (elf_Sources f) + length (elf_Values f).

(** The rows of the join, by subject index, into the map. SQLite refuses more than 999
    parameters. *)
Definition getBySubjectsBatch (subjects : list LabelSubject) (f : ExternalLabelFilter)
    : M db (gmap string (list label_row)) :=
  if decide (subjects = []) then mret ∅
  else wrap "get external labels by subjects" (stmt (λ d,
    if bool_decide (dialect = SQLite) && (SQLiteAggregateParameterLimit <? batch_params subjects f)
    then Err "too many SQL variables"
    else Ok (foldl (λ m s, <[Key s := default [] (m !! Key s) ++ labels_of f d s]> m) ∅ subjects, d))).

Definition merge_labels (m batch : gmap string (list label_row)) : gmap string (list label_row) :=
  map_fold (λ k ls m, <[k := default [] (m !! k) ++ ls]> m) m batch.

Fixpoint get_batches (batches : list (list LabelSubject)) (f : ExternalLabelFilter)
    (m : gmap string (list label_row)) : M db (gmap string (list label_row)) :=
  match batches with
  | [] => mret m
  | b :: rest => labels ← getBySubjectsBatch b f; get_batches rest f (merge_labels m labels)
  end.

Definition GetBySubjects (subjects : list LabelSubject) (f : ExternalLabelFilter) : M db (gmap string (list label_row)) :=
  subjects ← of_outcome (normalizeLabelSubjects subjects);
  of_outcome (validateExternalLabelFilter f) ;;
  get_batches (chunks externalLabelSubjectBatchSize subjects) f
    (foldl (λ m s, <[Key s := []]> m) ∅ subjects).
End read.
