(* ===== verification/FilterSafety.v ===== *)
(** * No value reaches the text of a statement

    The text of a filter clause is the text for the same filters with every value
    erased to its shape (its type, the length of a list, whether a text is empty, a
    boolean): what a user types is only ever a parameter. *)
From S2P Require Import Prelude GoStrings Json Effects Database Like RecordStore Keyset Filters KeysetProps FilterProps LabelFilters.

Definition erase_string (s : string) : string := if (s =? "")%string then "" else "x".

Fixpoint shape (v : goval) : goval :=
  match v with
  | GNil => GNil
  | GString s => GString (erase_string s)
  | GInt _ => GInt 0
  | GFloat _ => GFloat ""
  | GBool b => GBool b
  | GList l => GList (List.map shape l)
  | GStrings l => GStrings (List.map erase_string l)
  | GOther _ => GOther ""
  end.

Definition erase (f : FieldFilter) : FieldFilter :=
  mkFilter (ff_Field f) (ff_Path f) (ff_ArrayPath f) (ff_Operator f) (shape (ff_Value f)) (ff_FieldType f) (ff_Target f).

Definition erase_label (f : ExternalLabelStringFilter) : ExternalLabelStringFilter :=
  mkLabelString (lf_Operator f) (shape (lf_Value f)).
Definition erase_predicate (p : ExternalLabelPredicate) : ExternalLabelPredicate :=
  mkLabelPredicate (erase_label <$> lp_Sources p) (erase_label <$> lp_Values p) (lp_ActiveOnly p).
Definition erase_label_filter (f : ExternalLabelRecordFilter) : ExternalLabelRecordFilter :=
  mkLabelFilter (erase_predicate <$> lrf_Has f) (erase_predicate <$> lrf_None f).
Definition erase_label_set (f : ExternalLabelFilterSet) : ExternalLabelFilterSet :=
  mkLabelSet (erase_label_filter (lfs_Record f)) (erase_label_filter (lfs_Author f)).

(** What is left of a built condition without its parameters. *)
Definition skeleton {C} (b : outcome (built C)) : outcome (C * nat) :=
  match b with Ok (c, _, n) => Ok (c, n) | Err e => Err e end.

Section safety.
Context `{Env}.

Lemma skeleton_bind {C1 C2 C} (b b' : outcome (built C1)) (k k' : nat → outcome (built C2)) (join : C1 → C2 → C) :
  skeleton b = skeleton b' → (∀ n, skeleton (k n) = skeleton (k' n)) →
  skeleton ('(c, ps, n) ← b; '(c', ps', n') ← k n; Ok (join c c', ps ++ ps', n + n'))
  = skeleton ('(c, ps, n) ← b'; '(c', ps', n') ← k' n; Ok (join c c', ps ++ ps', n + n')).
Proof.
  unfold mbind, outcome_bind. destruct b as [[[c ps] n]|], b' as [[[c' ps'] n']|]; cbn; try congruence.
  intros [= -> ->] Hk. specialize (Hk n'). destruct (k n') as [[[d qs] m]|], (k' n') as [[[d' qs'] m']|]; cbn in *; congruence.
Qed.

Lemma erase_empty s : erase_string s = "" ↔ s = "".
Proof. unfold erase_string. destruct (String.eqb_spec s ""); by split. Qed.

Lemma length_map_shape l : length (List.map shape l) = length l.
Proof. apply List.length_map. Qed.

Lemma scalar_erase x f n :
  skeleton (buildScalarFilterCondition x (erase f) n) = skeleton (buildScalarFilterCondition x f n).
Proof.
  unfold buildScalarFilterCondition, erase. cbn [ff_FieldType ff_Operator ff_Value ff_Field].
  destruct (comparison (ff_Operator f)); [done|].
  destruct (ff_Operator f =? "contains")%string; [done|]. destruct (ff_Operator f =? "startsWith")%string; [done|].
  destruct (ff_Operator f =? "isNull")%string; [by destruct (ff_Value f)|].
  destruct (ff_Operator f =? "in")%string; [|done].
  destruct (ff_Value f) as [| | | | |[|v vs]| |]; try done. cbn [shape List.map]. cbn [length]. rewrite length_map_shape.
  by destruct (MaxINListSize <? S (length vs)).
Qed.

Lemma strings_of_shape vs : strings_of (List.map shape vs) = List.map erase_string <$> strings_of vs.
Proof.
  induction vs as [|v vs IH]; [done|]. destruct v; try done. cbn. rewrite IH. by destruct (strings_of vs).
Qed.

Lemma created_erase f n :
  skeleton (buildRecordCreatedAtFilterCondition (erase f) n) = skeleton (buildRecordCreatedAtFilterCondition f n).
Proof.
  unfold buildRecordCreatedAtFilterCondition, erase. cbn [ff_Operator ff_Value ff_Field].
  destruct (comparison (ff_Operator f)); [by destruct (ff_Value f)|].
  destruct (ff_Operator f =? "in")%string; [|done].
  destruct (ff_Value f) as [| | | | |[|v vs]| |]; try done. cbn [shape]. change (shape v :: List.map shape vs) with (List.map shape (v :: vs)).
  rewrite length_map_shape, strings_of_shape. cbn [List.map length].
  destruct (MaxINListSize <? S (length vs)); [done|]. destruct (strings_of (v :: vs)) as [ss|]; [|done].
  cbn. by rewrite List.length_map.
Qed.

Lemma contributor_erase f n :
  skeleton (buildContributorDIDFilterCondition (erase f) n) = skeleton (buildContributorDIDFilterCondition f n).
Proof.
  assert (Hv : match contributorDIDFilterValues (erase f), contributorDIDFilterValues f with
    | Ok vs, Ok ws => length vs = length ws | Err e, Err e' => e = e' | _, _ => False end).
  { unfold contributorDIDFilterValues, erase. cbn [ff_Operator ff_Value].
    destruct (ff_Operator f =? "eq")%string.
    { destruct (ff_Value f); try done. cbn. unfold erase_string. by destruct (s =? "")%string. }
    destruct (ff_Operator f =? "in")%string; [|done]. destruct (ff_Value f); try done. cbn [shape].
    rewrite strings_of_shape. destruct (strings_of l) as [ss|]; [|done]. cbn.
    induction ss as [|s ss IH]; [done|]. cbn [List.map]. destruct (decide (s ≠ "")) as [Hs|Hs].
    - rewrite !filter_cons_True by (done || by rewrite erase_empty). cbn. by rewrite IH.
    - rewrite !filter_cons_False by (done || by rewrite erase_empty). done. }
  unfold buildContributorDIDFilterCondition, mbind, outcome_bind.
  destruct (contributorDIDFilterValues (erase f)) as [vs|], (contributorDIDFilterValues f) as [ws|]; try (by subst || done).
  destruct (decide (vs = [])) as [->|Hne].
  { destruct ws; [done|discriminate]. }
  rewrite decide_False by (intros ->; by destruct vs). rewrite Hv. destruct (MaxINListSize <? length ws); [done|].
  cbn. by rewrite !contributor_length, Hv.
Qed.

Lemma array_conditions_erase path alias fs n :
  skeleton (build_array_conditions path alias (erase <$> fs) n) = skeleton (build_array_conditions path alias fs n).
Proof.
  revert n. induction fs as [|f fs IH]; intros n; [done|]. cbn [fmap list_fmap build_array_conditions].
  change (isArrayAnyFilter (erase f)) with (isArrayAnyFilter f). change (ff_ArrayPath (erase f)) with (ff_ArrayPath f).
  destruct (negb _); [done|]. apply (skeleton_bind _ _ _ _ cons); [apply scalar_erase|]. intros k. apply IH.
Qed.

Lemma array_erase fs n i :
  skeleton (buildArrayAnyFilterCondition (erase <$> fs) n i) = skeleton (buildArrayAnyFilterCondition fs n i).
Proof.
  destruct fs as [|f fs]; [done|]. unfold buildArrayAnyFilterCondition.
  pose proof (array_conditions_erase (ff_ArrayPath f) ("nested_filter_" +:+ itoa (Z.of_nat i)) (f :: fs) n) as He.
  cbn [fmap list_fmap] in *. change (ff_ArrayPath (erase f)) with (ff_ArrayPath f). revert He. unfold mbind, outcome_bind.
  destruct (build_array_conditions _ _ (erase f :: _) n) as [[[c ps] k]|],
    (build_array_conditions _ _ (f :: fs) n) as [[[c' ps'] k']|]; cbn; congruence.
Qed.

Lemma scalar_built_skeleton b b' : skeleton b = skeleton b' → skeleton (scalar_built <$> b) = skeleton (scalar_built <$> b').
Proof. destruct b as [[[]]|], b' as [[[]]|]; cbn; congruence. Qed.

Lemma field_erase f n i :
  skeleton (buildFieldFilterCondition (erase f) n i) = skeleton (buildFieldFilterCondition f n i).
Proof.
  unfold buildFieldFilterCondition. change (ff_Target (erase f)) with (ff_Target f).
  change (isArrayAnyFilter (erase f)) with (isArrayAnyFilter f). change (ff_Field (erase f)) with (ff_Field f).
  change (filterFieldExpr (erase f)) with (filterFieldExpr f).
  destruct (_ =? _)%string; [apply contributor_erase|].
  destruct (_ =? _)%string; [apply scalar_built_skeleton, scalar_erase|].
  destruct (isArrayAnyFilter f); [apply (array_erase [f])|].
  destruct (_ && _); [apply created_erase|]. unfold mbind, outcome_bind. destruct (filterFieldExpr f); [|done].
  apply scalar_built_skeleton, scalar_erase.
Qed.

Lemma skeleton_cons (b b' : outcome (built cond)) (k k' : nat → outcome (list cond * list Value)) :
  skeleton b = skeleton b' → (∀ n, fst <$> k n = fst <$> k' n) →
  fst <$> ('(c, ps, n) ← b; '(cs, pss) ← k n; Ok (c :: cs, ps ++ pss))
  = fst <$> ('(c, ps, n) ← b'; '(cs, pss) ← k' n; Ok (c :: cs, ps ++ pss)).
Proof.
  unfold mbind, outcome_bind. destruct b as [[[c ps] n]|], b' as [[[c' ps'] n']|]; cbn; try congruence.
  intros [= -> ->] Hk. specialize (Hk n'). destruct (k n') as [[cs pss]|], (k' n') as [[cs' pss']|]; cbn in *; congruence.
Qed.

Lemma filters_erase fs i processed n :
  fst <$> build_filters (erase <$> fs) i processed n = fst <$> build_filters fs i processed n.
Proof.
  revert i processed n. induction fs as [|f fs IH]; intros i processed n; [done|].
  cbn [fmap list_fmap build_filters].
  change (isArrayAnyFilter (erase f)) with (isArrayAnyFilter f).
  change (arrayFilterGroupKey (erase f)) with (arrayFilterGroupKey f).
  destruct (_ && _); [apply IH|].
  assert (Hgroup : filter (λ g, arrayFilterGroupKey g = arrayFilterGroupKey f) (erase f :: (erase <$> fs))
    = erase <$> filter (λ g, arrayFilterGroupKey g = arrayFilterGroupKey f) (f :: fs)).
  { change (erase f :: (erase <$> fs)) with (erase <$> (f :: fs)). generalize (f :: fs) as l.
    induction l as [|g l IHl]; [done|]. cbn [fmap list_fmap]. rewrite !filter_cons.
    change (arrayFilterGroupKey (erase g)) with (arrayFilterGroupKey g). by case_decide; cbn; rewrite <- IHl. }
  fold (@fmap list list_fmap _ _ erase fs) in *. rewrite Hgroup.
  apply skeleton_cons; [destruct (isArrayAnyFilter f); [apply array_erase|apply field_erase]|].
  intros k. apply IH.
Qed.

Lemma label_condition_erase f n :
  skeleton (build_label_condition (erase_label f) n) = skeleton (build_label_condition f n).
Proof.
  unfold build_label_condition, erase_label. cbn [lf_Operator lf_Value]. unfold mbind, outcome_bind.
  repeat (destruct (_ =? _)%string; [try by destruct (lf_Value f)|]); [|done].
  assert (Hv : match externalLabelStringFilterList (shape (lf_Value f)), externalLabelStringFilterList (lf_Value f) with
    | Ok vs, Ok ws => length vs = length ws | Err e, Err e' => e = e' | _, _ => False end).
  { destruct (lf_Value f); try done; cbn; [|apply List.length_map].
    rewrite strings_of_shape. destruct (strings_of l); [|done]. cbn. apply List.length_map. }
  destruct (externalLabelStringFilterList (shape _)) as [vs|], (externalLabelStringFilterList _) as [ws|]; try (by subst || done).
  destruct (decide (vs = [])) as [->|Hne]; [by destruct ws|].
  rewrite decide_False by (intros ->; by destruct vs). rewrite Hv. by destruct (MaxINListSize <? length ws).
Qed.

Lemma label_conditions_erase fs n :
  skeleton (buildExternalLabelStringFilterConditions (erase_label <$> fs) n)
  = skeleton (buildExternalLabelStringFilterConditions fs n).
Proof.
  revert n. induction fs as [|f fs IH]; intros n; [done|]. cbn [fmap list_fmap buildExternalLabelStringFilterConditions].
  apply (skeleton_bind _ _ _ _ cons); [apply label_condition_erase|]. intros k. apply IH.
Qed.

Lemma optional_erase negated alias subject p n :
  skeleton (build_optional negated alias subject (erase_predicate <$> p) n)
  = skeleton (build_optional negated alias subject p n).
Proof.
  destruct p as [p|]; [|done]. cbn [fmap option_fmap option_map build_optional].
  assert (He : skeleton (buildExternalLabelExistsSubquery negated alias subject (erase_predicate p) n)
    = skeleton (buildExternalLabelExistsSubquery negated alias subject p n)).
  { apply (skeleton_bind _ _ _ _ (λ ss vs, mkExists negated subject alias ss vs (lp_ActiveOnly p)));
      [apply label_conditions_erase|]. intros k. apply label_conditions_erase. }
  revert He. unfold mbind, outcome_bind.
  destruct (buildExternalLabelExistsSubquery _ _ _ (erase_predicate p) n) as [[[e ps] k]|],
    (buildExternalLabelExistsSubquery _ _ _ p n) as [[[e' ps'] k']|]; cbn; congruence.
Qed.

Lemma both_erase {C} (b1 b1' b2 b2' : nat → outcome (built (list C))) n :
  (∀ n, skeleton (b1 n) = skeleton (b1' n)) → (∀ n, skeleton (b2 n) = skeleton (b2' n)) →
  skeleton (build_both b1 b2 n) = skeleton (build_both b1' b2' n).
Proof. intros H1b H2b. apply (skeleton_bind _ _ _ _ app); [apply H1b|]. intros k. apply H2b. Qed.

Context `{SqlFunctions}.

(** The text of a built clause. *)
Definition clause_text (o : outcome (option clause)) : outcome (option string) :=
  match o with Ok c => Ok (option_map cl_sql c) | Err e => Err e end.

(** C28. No value of a filter reaches the text of a statement: the texts of the field,
    author and label clauses, and whether they can be built, are those for the filters
    with every value erased to its shape. *)
Theorem sql_text_value_free fs did labels n :
  clause_text (buildFilterClause fs n) = clause_text (buildFilterClause (erase <$> fs) n) ∧
  clause_text (buildExternalLabelFilterSetClause labels n)
  = clause_text (buildExternalLabelFilterSetClause (erase_label_set labels) n) ∧
  clause_text (buildDIDFilterClause did n)
  = clause_text (buildDIDFilterClause (mkDID (erase_string (did_EQ did)) (erase_string <$> did_IN did)) n).
Proof.
  split_and!.
  - unfold buildFilterClause, clause_text. pose proof (filters_erase fs 0 [] n) as He. revert He.
    destruct (decide (fs = [])) as [->|Hne]; [done|]. rewrite (decide_False (P := erase <$> fs = [])) by (by destruct fs).
    unfold mbind, outcome_bind.
    destruct (build_filters (erase <$> fs) 0 [] n) as [[cs ps]|], (build_filters fs 0 [] n) as [[cs' ps']|]; cbn; try congruence.
    intros [= ->]. by destruct (render_list render_cond cs').
  - unfold buildExternalLabelFilterSetClause, clause_text.
    assert (Hempty : label_set_empty (erase_label_set labels) = label_set_empty labels).
    { destruct labels as [[[] []] [[] []]]; done. }
    rewrite Hempty. destruct (label_set_empty labels); [done|].
    assert (He : skeleton (build_label_set (erase_label_set labels) n) = skeleton (build_label_set labels n)).
    { unfold build_label_set, buildExternalLabelSubjectFilterClause. apply both_erase; intros k; apply both_erase; intros m;
        apply optional_erase. }
    revert He. unfold mbind, outcome_bind.
    destruct (build_label_set (erase_label_set labels) n) as [[[cs ps] k]|], (build_label_set labels n) as [[[cs' ps'] k']|];
      cbn; congruence.
  - unfold buildDIDFilterClause, did_empty, clause_text. cbn [did_EQ did_IN]. rewrite length_fmap.
    assert (He : (erase_string (did_EQ did) =? "")%string = (did_EQ did =? "")%string)
      by (unfold erase_string; by destruct (did_EQ did =? "")%string eqn:E).
    rewrite He. assert (Hin : bool_decide (erase_string <$> did_IN did = []) = bool_decide (did_IN did = [])).
    { apply bool_decide_ext. by destruct (did_IN did). }
    rewrite Hin. destruct (did_EQ did =? "")%string; cbn [negb andb]; [|reflexivity].
    destruct (bool_decide (did_IN did = [])); [reflexivity|]. by destruct (MaxINListSize <? length (did_IN did)).
Qed.
End safety.
