(* ===== verification/KeysetForward.v ===== *)
(** * Pages and cursors

    The rows of a page after a cursor, of a page before one, and of a client that
    follows cursors to the end. *)
From S2P Require Import Prelude GoStrings Json AtprotoTime Effects Database RecordStore RecordProps Keyset KeysetProps.

(** ** Reading a sorted connection

    What the segments of a page return together, what a page after a cursor is, and
    that a client following cursors sees every selected row once, in order; backward
    pages as the rows before a cursor. *)

(** ** Filling a page from segments *)

Section segments.
Context {Seg A B : Type} (read : Seg → nat → M db (list B)) (rows : Seg → list A)
  (scan : list A → outcome (list B)) (s : db).
Context (scan_app : ∀ l k, scan (l ++ k) = (xs ← scan l; ys ← scan k; Ok (xs ++ ys)))
  (scan_nil : scan [] = Ok [])
  (scan_length : ∀ l xs, scan l = Ok xs → length xs = length l).

Lemma readSegments_loop_spec limit segs first pre xs :
  Forall (λ seg, ∀ n, ReadsAs (read seg n) s (scan (take n (rows seg)))) segs →
  scan pre = Ok xs → length pre ≤ limit →
  ReadsAs (readSegments_loop read limit segs first xs) s (scan (take limit (pre ++ concat (rows <$> segs)))).
Proof.
  intros Hread. revert first pre xs.
  induction Hread as [|seg segs Hseg Hsegs IH]; intros first pre xs Hpre Hlen; cbn [readSegments_loop].
  - cbn. rewrite app_nil_r, take_ge by done. rewrite Hpre. apply reads_ret.
  - pose proof (scan_length _ _ Hpre) as Hxs. destruct (negb first && (limit <=? length xs)) eqn:Hstop.
    + apply andb_prop in Hstop as [_ Hfull%Nat.leb_le].
      rewrite take_app_le by lia. rewrite take_ge by lia. rewrite Hpre. apply reads_ret.
    + cbn [fmap list_fmap concat]. rewrite take_app, (take_ge pre) by done.
      rewrite take_app. set (page := take (limit - length pre) (rows seg)).
      eapply reads_bind; [apply Hseg| |].
      * intros ys Hys. rewrite Hxs in Hys. fold page in Hys.
        replace (pre ++ page ++ take (limit - length pre - length (rows seg)) (concat (rows <$> segs)))
          with (take limit ((pre ++ page) ++ concat (rows <$> segs))).
        { apply IH; [by rewrite scan_app, Hpre; cbn; rewrite Hys|].
          unfold page. rewrite length_app, length_take. lia. }
        rewrite <- app_assoc, take_app, (take_ge pre) by done. f_equal.
        rewrite take_app. unfold page. rewrite take_take, length_take. f_equal; [f_equal; lia|].
        destruct (decide (limit - length pre ≤ length (rows seg))).
        { rewrite Nat.min_l by done. by rewrite Nat.sub_diag, (proj2 (Nat.sub_0_le _ _)). }
        by rewrite Nat.min_r by lia.
      * intros e He. rewrite Hxs in He. fold page in He. rewrite scan_app, Hpre. cbn. by rewrite scan_app, He.
Qed.
End segments.

Section scans.
Context `{Env} `{TextOrder} `{SortKeys}.

Lemma scanSorted_app sort l k :
  scanSortedRecords sort (l ++ k) =
  (xs ← scanSortedRecords sort l; ys ← scanSortedRecords sort k; Ok (xs ++ ys)).
Proof.
  induction l as [|x l IH]; cbn.
  - by destruct (scanSortedRecords sort k).
  - rewrite IH. destruct (scan_sorted sort x); cbn; [|done].
    destruct (scanSortedRecords sort l); cbn; [|done]. by destruct (scanSortedRecords sort k).
Qed.

Lemma scanSorted_Forall2 sort l xs :
  scanSortedRecords sort l = Ok xs ↔ Forall2 (λ kv x, scan_sorted sort kv = Ok x) l xs.
Proof.
  revert xs. induction l as [|kv l IH]; intros xs; cbn.
  - split; [by intros [= <-]|by inversion 1].
  - split.
    + destruct (scan_sorted sort kv) as [x|] eqn:E; cbn; [|done].
      destruct (scanSortedRecords sort l) as [ys|] eqn:E2; cbn; [|done].
      intros [= <-]. constructor; [done|by apply IH].
    + inversion 1 as [|? x ? ys Hx Hys]; subst. rewrite Hx. cbn. apply IH in Hys. by rewrite Hys.
Qed.

Lemma scanSorted_length sort l xs : scanSortedRecords sort l = Ok xs → length xs = length l.
Proof. intros Hl%scanSorted_Forall2. symmetry. by eapply Forall2_length. Qed.

Lemma render_all_ok ws : renders ws → is_ok (render_all ws) = true.
Proof.
  induction 1 as [|w ws Hw _ IH]; [done|]. cbn.
  destruct (render_where w); [|done]. cbn. by destruct (render_all ws).
Qed.

(** The statement of a segment exists and SQLite accepts its arguments. *)
Definition fits (seg : pageSegment) : Prop :=
  is_ok (validateSQLiteAggregateParameterCount (length (ps_args seg))) = true.

Lemma querySegment_spec page seg n label d :
  fits seg → renders (ps_where seg) → is_ok (orderBy page) = true →
  ReadsAs (querySegment page seg n label) d
    (scanSortedRecords (page_sort page) (take n (segment_rows page seg d))).
Proof.
  intros Hfit Hr Ho. unfold querySegment, fits in *. apply render_all_ok in Hr.
  eapply reads_bind; [apply reads_of_outcome|intros [] _|by destruct (validateSQLiteAggregateParameterCount _)].
  assert (Hsql : is_ok (page_sql page seg n) = true).
  { unfold page_sql. destruct (render_all (ps_where seg)); [|done]. by destruct (orderBy page). }
  eapply reads_bind; [apply reads_of_outcome|intros sql _|by destruct (page_sql page seg n)].
  eapply reads_bind; [apply reads_wrap, reads_query| |done].
  intros rows [= <-]. apply reads_of_outcome.
Qed.

Lemma readSortedPage_spec page limit label d :
  Forall (λ seg, fits seg ∧ renders (ps_where seg)) (segments page) → is_ok (orderBy page) = true →
  ReadsAs (readSortedPage page limit label) d
    (scanSortedRecords (page_sort page) (take limit (concat ((λ seg, segment_rows page seg d) <$> segments page)))).
Proof.
  intros Hsegs Ho. unfold readSortedPage, readSegments.
  apply (readSegments_loop_spec _ (λ seg, segment_rows page seg d) (scanSortedRecords (page_sort page)) d)
    with (pre := []); eauto using scanSorted_app, scanSorted_length; [|simpl; lia].
  eapply Forall_impl; [done|]. intros seg [Hfit Hr] n. by apply querySegment_spec.
Qed.

Definition sort_field_ok (sort : option SortOption) : Prop :=
  keysetSortFieldName sort = SortFieldRecordCreatedAt ∨ is_ok (keysetSortFieldExpr (keysetSortFieldName sort)) = true.

Lemma buildSortExpr_ok sort : sort_field_ok sort → is_ok (buildSortExpr sort) = true.
Proof.
  destruct sort as [[f dir]|]; [|done]. unfold sort_field_ok, keysetSortFieldExpr. cbn.
  intros Hok. destruct (f =? SortFieldRecordCreatedAt)%string eqn:E; [done|].
  destruct Hok as [->|Hok]; [by rewrite String.eqb_refl in E|].
  destruct (f =? "indexed_at")%string; [done|].
  case_bool_decide; [done|]. by destruct (JSONExtract "json" f).
Qed.
End scans.

(** ** Pages and cursors *)

(** What the code relies on from the database: the cursor of a timestamp it was read
    from compares equal to the column. *)
Class SortLaws `{Env} `{SortKeys} := {
  format_time_law z : timestamp_cursor (format_time z) = Some (indexed_key z);
  created_text_law c : normal_datetime c → created_text c ≠ "";
  created_cursor_law c : normal_datetime c → field_cursor SortFieldRecordCreatedAt (created_text c) = Some (created_key c);
}.

(** Disjunctions of comparisons up to symmetry of equality. *)
Ltac by_facts := first [assumption | congruence | split; [congruence|assumption] | split; congruence].
Ltac solve_after :=
  split; intros Hx;
  repeat match goal with
  | H : _ ∨ _ |- _ => destruct H as [H|H]
  | H : _ ∧ _ |- _ => let H' := fresh "Hy" in destruct H as [H' H]
  end; try congruence; try contradiction;
  first [by_facts | left; by_facts | right; by_facts | left; left; by_facts | left; right; by_facts].

Section forward.
Context `{Env} `{TextOrder} `{SortKeys}.
Context (collection : string) (filters didFilter labels : clause_builder)
  (fsel dsel lsel : db → string → row → bool)
  (Hf : builder_spec filters fsel) (Hd : builder_spec didFilter dsel) (Hl : builder_spec labels lsel)
  (validOnly : bool).

Definition candidates (sort : option SortOption) (d : db) : list (string * row) :=
  filter (selected collection fsel dsel lsel validOnly d) (sorted_rows sort d).

(** Every row of a page sorted by a field has the field. *)
Definition field_present (sort : option SortOption) (d : db) : Prop :=
  keysetSortFieldName sort ≠ SortFieldRecordCreatedAt →
  ∀ kv, kv ∈ candidates sort d → is_Some (field_key (keysetSortFieldName sort) kv).

(** The cursor [(v, u)] stands for the row [x]. *)
Definition cursor_at (sort : option SortOption) (v u : string) (x : string * row) : Prop :=
  let f := keysetSortFieldName sort in
  x.1 = u ∧
  if (f =? SortFieldRecordCreatedAt)%string then
    match row_record_created_at x.2 with
    | None => v = "" | Some c => v ≠ "" ∧ field_cursor f v = Some (created_key c) end
  else ∃ k, field_key f x = Some k ∧ field_cursor f v = Some k.

Lemma candidates_increasing sort d : increasing id (row_lt sort) (candidates sort d).
Proof. apply increasing_filter. apply sorted_rows_increasing. Qed.

#[export] Instance field_after_dec sort v u kv : Decision (field_after sort v u kv).
Proof.
  unfold field_after. cbv zeta. destruct (field_key _ kv); [|apply _]. apply or_dec; [|apply _].
  destruct (field_cursor _ v); apply _.
Defined.

Lemma segment_rows_spec sort segs seg d (P : string * row → Prop) `{∀ kv, Decision (P kv)} :
  segment_selects collection fsel dsel lsel validOnly seg P →
  segment_rows (page_of sort segs) seg d = filter P (candidates sort d).
Proof.
  intros [Hsel _]. unfold segment_rows, candidates. rewrite list_filter_filter.
  apply list_filter_iff. intros kv. specialize (Hsel d kv). unfold all_hold in Hsel. rewrite Hsel. tauto.
Qed.

Lemma field_key_created kv : field_key SortFieldRecordCreatedAt kv = created_key <$> row_record_created_at kv.2.
Proof. by destruct kv. Qed.

Lemma fmap_created_None (c : option string) : created_key <$> c = None ↔ c = None.
Proof. by destruct c. Qed.

(** Where a field has a value, its cursor condition selects what is after the row. *)
Lemma field_after_lt sort x y v u :
  cursor_at sort v u x → keysetSortFieldName sort ≠ SortFieldRecordCreatedAt →
  is_Some (field_key (keysetSortFieldName sort) y) → field_after sort v u y ↔ row_lt sort x y.
Proof.
  intros [<- Hk] Hne [k' Hk']. cbv zeta in Hk. rewrite (proj2 (String.eqb_neq _ _) Hne) in Hk.
  destruct Hk as (k & Hk & Hv). unfold field_after, row_lt, asc_lt, cursor_cmp.
  cbv zeta. rewrite Hk', Hv, Hk. destruct (is_asc sort); cbn; solve_after.
Qed.

Lemma created_after_lt s x y v u :
  cursor_at (Some s) v u x → Field s = SortFieldRecordCreatedAt → v ≠ "" →
  row_lt (Some s) x y ↔
    field_after (Some s) v u y ∨ (is_asc (Some s) = false ∧ row_record_created_at y.2 = None).
Proof.
  intros [<- Hk] Hs Hv. cbv zeta in Hk. unfold field_after, row_lt, asc_lt, cursor_cmp.
  cbn [keysetSortFieldName] in *. cbv zeta. rewrite Hs in *. cbn [String.eqb] in Hk. rewrite String.eqb_refl in Hk.
  destruct (row_record_created_at x.2) as [c|] eqn:Ex; [|done]. destruct Hk as [_ Hc].
  rewrite Hc, !field_key_created, Ex. destruct (row_record_created_at y.2) as [cy|]; cbn.
  - destruct (Direction s =? "ASC")%string; cbn; solve_after.
  - destruct (Direction s =? "ASC")%string; cbn; unfold null_smallest; rewrite ?String.eqb_refl, ?orb_true_r; solve_after.
Qed.

Lemma undated_after_lt s x y u :
  cursor_at (Some s) "" u x → Field s = SortFieldRecordCreatedAt →
  row_lt (Some s) x y ↔
    (row_record_created_at y.2 = None ∧ cmp_holds text_lt (cursor_cmp (Some s)) y.1 u) ∨
    (is_asc (Some s) = true ∧ row_record_created_at y.2 ≠ None).
Proof.
  intros [<- Hk] Hs. cbv zeta in Hk. unfold row_lt, asc_lt, cursor_cmp.
  cbn [keysetSortFieldName] in *. cbv zeta. rewrite Hs in *. rewrite String.eqb_refl in Hk.
  destruct (row_record_created_at x.2) as [c|] eqn:Ex; [by destruct Hk|].
  rewrite !field_key_created, Ex. destruct (row_record_created_at y.2) as [cy|]; cbn;
    destruct (Direction s =? "ASC")%string; cbn; unfold null_smallest; rewrite ?String.eqb_refl, ?orb_true_r; solve_after.
Qed.
(** The segments of a cursor hold, one after the other, the rows after it. *)
Lemma created_rows s segs page_segs x v u d :
  cursor_at (Some s) v u x → Field s = SortFieldRecordCreatedAt →
  Forall2 (segment_ok collection fsel dsel lsel validOnly) segs (cursor_preds (Some s) v u) →
  concat ((λ seg, segment_rows (page_of (Some s) page_segs) seg d) <$> segs)
  = filter (row_lt (Some s) x) (candidates (Some s) d).
Proof.
  intros Hc Hs. unfold cursor_preds. cbn [keysetSortFieldName]. rewrite Hs, String.eqb_refl. cbn [negb].
  assert (Hsplit : ∀ P Q : string * row → Prop, ∀ `{∀ kv, Decision (P kv), ∀ kv, Decision (Q kv)},
    (∀ y, row_lt (Some s) x y ↔ P y ∨ Q y) → (∀ y z, P y → Q z → row_lt (Some s) y z) →
    filter P (candidates (Some s) d) ++ filter Q (candidates (Some s) d)
    = filter (row_lt (Some s) x) (candidates (Some s) d)).
  { intros P Q ? ? HR HPQ. apply (filter_split id (row_lt (Some s))); auto using candidates_increasing. }
  assert (Hdated : ∀ y z, row_record_created_at y.2 = None → row_record_created_at z.2 ≠ None →
    if is_asc (Some s) then row_lt (Some s) y z else row_lt (Some s) z y).
  { intros y z Hy Hz. unfold row_lt, asc_lt. cbn [keysetSortFieldName]. rewrite Hs, !field_key_created, Hy.
    destruct (row_record_created_at z.2); [|done]. destruct (is_asc (Some s)); cbn; left;
      unfold null_smallest; by rewrite String.eqb_refl, orb_true_r. }
  destruct (v =? "")%string eqn:Hv; [apply String.eqb_eq in Hv as ->|apply String.eqb_neq in Hv].
  - pose proof (λ y, undated_after_lt s x y u Hc Hs) as Hlt. destruct (is_asc (Some s)) eqn:Hasc.
    + intros (s1 & ? & [H1s _] & (s2 & ? & [H2s _] & ->%Forall2_nil_inv_r & ->)%Forall2_cons_inv_r & ->)%Forall2_cons_inv_r.
      cbn. rewrite app_nil_r, (segment_rows_spec _ _ _ _ _ H1s), (segment_rows_spec _ _ _ _ _ H2s).
      apply Hsplit; [intros y; rewrite Hlt; naive_solver|]. intros y z [Hy _] Hz. by apply Hdated.
    + intros (s1 & ? & [H1s _] & ->%Forall2_nil_inv_r & ->)%Forall2_cons_inv_r.
      cbn. rewrite app_nil_r, (segment_rows_spec _ _ _ _ _ H1s).
      apply list_filter_iff. intros y. rewrite Hlt. naive_solver.
  - pose proof (λ y, created_after_lt s x y v u Hc Hs Hv) as Hlt. destruct (is_asc (Some s)) eqn:Hasc.
    + intros (s1 & ? & [H1s _] & ->%Forall2_nil_inv_r & ->)%Forall2_cons_inv_r.
      cbn. rewrite app_nil_r, (segment_rows_spec _ _ _ _ _ H1s).
      apply list_filter_iff. intros y. rewrite Hlt. naive_solver.
    + intros (s1 & ? & [H1s _] & (s2 & ? & [H2s _] & ->%Forall2_nil_inv_r & ->)%Forall2_cons_inv_r & ->)%Forall2_cons_inv_r.
      cbn. rewrite app_nil_r, (segment_rows_spec _ _ _ _ _ H1s), (segment_rows_spec _ _ _ _ _ H2s).
      apply Hsplit; [intros y; rewrite Hlt; naive_solver|]. intros y z Hy Hz. apply (Hdated z y Hz).
      intros Hn. unfold field_after in Hy. cbv zeta in Hy. cbn [keysetSortFieldName] in Hy.
      by rewrite Hs, field_key_created, Hn in Hy.
Qed.

Lemma field_rows sort seg page_segs x v u d :
  cursor_at sort v u x → keysetSortFieldName sort ≠ SortFieldRecordCreatedAt → field_present sort d →
  segment_selects collection fsel dsel lsel validOnly seg (field_after sort v u) →
  segment_rows (page_of sort page_segs) seg d = filter (row_lt sort x) (candidates sort d).
Proof.
  intros Hc Hne Hp Hseg. rewrite (segment_rows_spec _ _ _ _ _ Hseg).
  apply filter_ext_in. intros y Hy. by apply field_after_lt; [| |apply Hp].
Qed.

(** The cursor values of a page's start. *)
Definition starts_at (sort : option SortOption) (cursor : list string) (start : option (string * row)) : Prop :=
  match start with
  | None => cursor = []
  | Some x => ∃ v u, cursor = [v; u] ∧ cursor_at sort v u x
  end.

Definition after_start (sort : option SortOption) (start : option (string * row)) (d : db)
    : list (string * row) :=
  match start with
  | None => candidates sort d
  | Some x => filter (row_lt sort x) (candidates sort d)
  end.

(** SQLite takes the arguments of every page of the connection. *)
Definition page_fits (sort : option SortOption) : Prop :=
  ∀ cursor page, sortedRecordsPage collection filters didFilter labels sort cursor validOnly = Ok page →
    Forall fits (segments page).

(** Clauses with few parameters fit. *)
Definition few_params (b : clause_builder) (k : nat) : Prop :=
  ∀ n c, b n = Ok (Some c) → length (cl_params c) ≤ k.

Lemma add_clause_args msg b k ws args n ws' args' n' :
  few_params b k → add_clause msg b (ws, args, n) = Ok (ws', args', n') → length args' ≤ length args + k.
Proof.
  intros Hb. unfold add_clause, mbind, outcome_bind. destruct (b n) as [[c|]|] eqn:E; [| |done]; cbn; intros [= <- <- <-].
  - rewrite length_app. specialize (Hb n c E). lia.
  - lia.
Qed.

Lemma few_params_fit sort k1 k2 k3 :
  few_params filters k1 → few_params didFilter k2 → few_params labels k3 → 6 + k1 + k2 + k3 ≤ 999 → page_fits sort.
Proof.
  intros H1f H2f H3f Hk cursor page. unfold sortedRecordsPage.
  set (st := match cursor with [] => _ | _ => _ end).
  assert (Hst : length st.1.2 ≤ 4).
  { unfold st. destruct cursor as [|v [|u [|]]]; try (cbn; lia). destruct (_ && _); cbn; lia. }
  clearbody st. destruct st as [[ws args] n]. cbn [fst snd] in Hst. unfold mbind, outcome_bind.
  destruct (add_clause _ filters _) as [[[ws1 args1] n1]|] eqn:E1; [|done].
  destruct (add_clause _ didFilter _) as [[[ws2 args2] n2]|] eqn:E2; [|done].
  destruct (add_clause _ labels _) as [[[ws3 args3] n3]|] eqn:E3; [|done]. intros [= <-].
  apply (add_clause_args _ _ k1) in E1; [|done]. apply (add_clause_args _ _ k2) in E2; [|done].
  apply (add_clause_args _ _ k3) in E3; [|done].
  assert (Hfit : ∀ ws kargs, length kargs ≤ 2 → fits (mkPageSegment ws (args3 ++ kargs))).
  { intros ws' kargs Hlen. unfold fits, validateSQLiteAggregateParameterCount. cbn [ps_args]. rewrite length_app.
    destruct dialect; [|done]. unfold SQLiteAggregateParameterLimit.
    destruct (999 <? length args3 + length kargs) eqn:Elt; [apply Nat.ltb_lt in Elt; lia|done]. }
  cbn [newSortedPage segments]. apply Forall_fmap. unfold compose.
  set (keyset := match sort with Some _ => _ | None => _ end).
  assert (Hseg : Forall (λ k, length (seg_args k) ≤ 2) keyset).
  { unfold keyset. destruct sort as [s|]; [|constructor]. destruct cursor as [|v [|u [|]]]; try constructor.
    destruct (_ && _); [|constructor]. unfold recordCreatedAtKeysetSegments.
    destruct (v =? "")%string, (Direction s =? "ASC")%string; repeat constructor. }
  clearbody keyset. destruct keyset as [|k ks]; [apply Forall_singleton, Hfit; cbn; lia|].
  eapply Forall_impl; [exact Hseg|]. intros seg Hlen. by apply Hfit.
Qed.

(** The page's rows are the first [limit] after its start. *)
Lemma page_rows sort cursor start d :
  starts_at sort cursor start → valid_direction sort → sort_field_ok sort → field_present sort d →
  ∃ segs, sortedRecordsPage collection filters didFilter labels sort cursor validOnly = Ok (page_of sort segs) ∧
    Forall (λ seg, renders (ps_where seg)) segs ∧
    concat ((λ seg, segment_rows (page_of sort segs) seg d) <$> segs) = after_start sort start d.
Proof.
  intros Hst Hdir Hok Hp. destruct start as [x|]; cbn in Hst |- *.
  - destruct Hst as (v & u & -> & Hc).
    destruct (decide (keysetSortFieldName sort = SortFieldRecordCreatedAt)) as [He|Hne].
    + destruct sort as [s|]; [|done].
      destruct (page_created collection filters didFilter labels fsel dsel lsel Hf Hd Hl validOnly s v u He)
        as (segs & Hpage & Hsegs).
      exists segs. split_and!; [done| |by eapply created_rows].
      clear Hpage. by induction Hsegs as [|? ? ? ? [_ ?]]; constructor.
    + destruct Hok as [|Hok]; [done|].
      destruct (page_field collection filters didFilter labels fsel dsel lsel Hf Hd Hl validOnly sort v u Hne Hdir Hok)
        as (seg & Hpage & Hseg & Hr).
      exists [seg]. split_and!; [done|by apply Forall_singleton|]. cbn. rewrite app_nil_r. by eapply field_rows.
  - subst cursor.
    destruct (page_first collection filters didFilter labels fsel dsel lsel Hf Hd Hl validOnly sort)
      as (seg & Hpage & Hseg & Hr).
    exists [seg]. split_and!; [done|by apply Forall_singleton|]. cbn. rewrite app_nil_r.
    rewrite (segment_rows_spec _ _ _ _ _ Hseg). apply filter_all. by apply Forall_true.
Qed.

Lemma page_reads sort cursor start limit d :
  starts_at sort cursor start → valid_direction sort → sort_field_ok sort → field_present sort d →
  page_fits sort →
  ReadsAs (getByCollectionSortedWithKeysetCursor collection filters didFilter labels sort limit cursor validOnly) d
    (scanSortedRecords sort (take limit (after_start sort start d))).
Proof.
  intros Hst Hdir Hok Hp Hfit. destruct (page_rows sort cursor start d) as (segs & Hpage & Hr & Hrows); [done..|].
  specialize (Hfit _ _ Hpage). unfold getByCollectionSortedWithKeysetCursor. rewrite Hpage.
  eapply reads_bind; [apply reads_of_outcome| |done]. intros page [= <-].
  rewrite <- Hrows. apply readSortedPage_spec; [|by apply buildSortExpr_ok].
  rewrite Forall_forall in *. intros seg Hseg. split; auto.
Qed.
(** A client: it asks for [limit] records, then for those after the last one it got,
    until a page is empty. *)
Fixpoint follow (fuel : nat) (sort : option SortOption) (limit : nat) (cursor : list string)
    : M db (list SortedRecord) :=
  match fuel with
  | O => throw "out of fuel"
  | S f =>
      page ← getByCollectionSortedWithKeysetCursor collection filters didFilter labels sort limit cursor validOnly;
      match last page with
      | None => mret []
      | Some r => rest ← follow f sort limit (cursor_values sort r); mret (page ++ rest)
      end
  end.

(** The cursor of a record stands for the record's row. *)
Definition faithful (sort : option SortOption) (d : db) : Prop :=
  ∀ kv r, kv ∈ candidates sort d → scan_sorted sort kv = Ok r →
    starts_at sort (cursor_values sort r) (Some kv).

Lemma after_start_suffix sort start d limit x :
  last (take limit (after_start sort start d)) = Some x →
  filter (row_lt sort x) (candidates sort d) = drop limit (after_start sort start d).
Proof.
  intros Hla. assert (∃ pre, candidates sort d = pre ++ after_start sort start d) as [pre Hpre].
  { destruct start as [y|]; cbn in *; [|by exists []].
    pose proof (candidates_increasing sort d) as Hs. revert Hs. generalize (candidates sort d) as l.
    intros l Hs. exists (filter (λ z, ¬ row_lt sort y z) l). symmetry.
    rewrite <- (filter_all (λ _, True) l) at 3 by by apply Forall_true.
    apply (filter_split id (row_lt sort)); [done| |].
    - intros z _. destruct (decide (row_lt sort y z)); tauto.
    - intros z w _ _ Hz Hw. unfold id. destruct (row_lt_tri sort z w) as [?|[[Ek Eu]|Hwz]]; [done| |].
      + destruct Hz. by eapply row_lt_resp_r.
      + destruct Hz. by etrans. }
  apply (filter_after_last id (row_lt sort)) with (pre := pre ++ take limit (after_start sort start d)).
  - apply candidates_increasing.
  - by rewrite <- app_assoc, take_drop.
  - destruct (last_snoc_split _ _ Hla) as [k ->]. by rewrite app_assoc, last_snoc.
Qed.

Lemma follow_reads sort limit d fuel cursor start :
  valid_direction sort → sort_field_ok sort → field_present sort d → page_fits sort → faithful sort d →
  0 < limit → starts_at sort cursor start → length (after_start sort start d) < fuel →
  ReadsAs (follow fuel sort limit cursor) d (scanSortedRecords sort (after_start sort start d)).
Proof.
  intros Hdir Hok Hp Hfit Hfaith Hlim. revert cursor start.
  induction fuel as [|f IH]; intros cursor start Hst Hfuel; [lia|]. cbn [follow].
  eapply reads_bind; [by apply page_reads| |].
  - intros page Hpage. pose proof (scanSorted_length _ _ _ Hpage) as Hlen.
    destruct (last page) as [r|] eqn:Hlast.
    + apply scanSorted_Forall2 in Hpage as Hall.
      destruct (last_snoc_split _ _ Hlast) as [k ->].
      apply Forall2_app_inv_r in Hall as (pre & suf & _ & (x & ? & Hx & ->%Forall2_nil_inv_r & ->)%Forall2_cons_inv_r & Htake).
      assert (Hlx : last (take limit (after_start sort start d)) = Some x) by (rewrite Htake; apply last_snoc).
      pose proof (after_start_suffix _ _ _ _ _ Hlx) as Hsuf.
      rewrite <- (take_drop limit (after_start sort start d)), scanSorted_app, Hpage. cbn.
      rewrite <- Hsuf. eapply reads_bind.
      * apply (IH _ (Some x)).
        -- apply Hfaith; [|done]. assert (x ∈ after_start sort start d) as Hin.
           { eapply elem_of_take_aux. rewrite Htake. apply elem_of_app. right. by left. }
           destruct start; cbn in Hin; [by apply list_elem_of_filter in Hin as [_ ?]|done].
        -- cbn. rewrite Hsuf, length_drop. assert (length (take limit (after_start sort start d)) ≠ 0).
           { rewrite Htake, length_app. simpl. lia. }
           rewrite length_take in *. lia.
      * intros rest Hrest. cbn in Hrest. rewrite Hrest. apply reads_ret.
      * intros e He. cbn in He. by rewrite He.
    + apply last_None in Hlast as ->. symmetry in Hlen. apply nil_length_inv, take_nil_inv in Hlen as [?|Hnil]; [lia|].
      rewrite Hnil. apply reads_ret.
  - intros e He. rewrite <- (take_drop limit (after_start sort start d)), scanSorted_app, He. done.
Qed.

(** ** Why cursors are faithful *)

Context `{!SortLaws}.

Definition json_sort (sort : option SortOption) : Prop :=
  let f := keysetSortFieldName sort in
  f ≠ SortFieldRecordCreatedAt ∧ f ∉ directSortColumns.

(** A JSON field of the collection's rows is the text the cursor carries. *)
Definition json_text_faithful (sort : option SortOption) (d : db) : Prop :=
  json_sort sort → ∀ kv, kv ∈ candidates sort d →
    json_field (row_json kv.2) (keysetSortFieldName sort)
    = Some (KText (json_field_text (row_json kv.2) (keysetSortFieldName sort))).

(** The creation times sorted by are datetimes in the column's form. *)
Definition created_normal (sort : option SortOption) (d : db) : Prop :=
  keysetSortFieldName sort = SortFieldRecordCreatedAt →
  ∀ kv c, kv ∈ candidates sort d → row_record_created_at kv.2 = Some c → normal_datetime c.

Lemma scan_sorted_inv sort kv r :
  scan_sorted sort kv = Ok r → ∃ rkey, rkey_column kv.1 = Some rkey ∧
    rec_uri (so_record r) = kv.1 ∧ rec_did (so_record r) = row_did kv.2 ∧ rec_cid (so_record r) = row_cid kv.2 ∧
    rec_collection (so_record r) = row_collection kv.2 ∧ rec_json (so_record r) = row_json kv.2 ∧
    rec_indexed_at (so_record r) = row_indexed_at kv.2 ∧ rec_rkey (so_record r) = rkey ∧
    so_created_at r = if (keysetSortFieldName sort =? SortFieldRecordCreatedAt)%string
                      then null_string (created_text <$> row_record_created_at kv.2) else "".
Proof.
  unfold scan_sorted, scan_record. destruct (rkey_column kv.1) as [rkey|]; [|done].
  cbn. intros [= <-]. by exists rkey.
Qed.

Lemma cursors_faithful sort d : json_text_faithful sort d → created_normal sort d → faithful sort d.
Proof.
  intros Hjson Hnormal [u r] rec Hin Hscan. apply scan_sorted_inv in Hscan as (rkey & Erk & Eu & Ed & Ec & Eco & Ej & Ei & Er & Ecr).
  unfold cursor_values, starts_at. rewrite Eu. exists (sortFieldValueForRecord rec sort), u. split; [done|].
  split; [done|]. cbv zeta. destruct sort as [[f dir]|]; cbn [keysetSortFieldName Field] in *.
  2:{ cbn. rewrite Ei. eauto using format_time_law. }
  destruct (f =? SortFieldRecordCreatedAt)%string eqn:Ef.
  - apply String.eqb_eq in Ef as ->. unfold sortFieldValueForRecord. cbn [Field].
    rewrite String.eqb_refl, Ecr. cbn [fst snd]. destruct (row_record_created_at r) as [c|] eqn:Erc; cbn [fmap option_fmap option_map null_string default]; [|done].
    assert (normal_datetime c) by (eapply (Hnormal eq_refl (u, r)); [exact Hin|done]).
    eauto using created_text_law, created_cursor_law.
  - unfold sortFieldValueForRecord, field_key, field_cursor. cbn [Field]. rewrite Ef, Ei, Eu, Ed, Eco, Ec, Er, Ej.
    cbn [fst snd] in *. repeat case_match; try (eexists; split; [|reflexivity]; by rewrite ?Erk).
    + eauto using format_time_law.
    + exists (KText (json_field_text (row_json r) f)). split; [|done].
      apply (Hjson) in Hin; [done|]. split; cbn; [by apply String.eqb_neq|].
      unfold directSortColumns. rewrite !not_elem_of_cons. rewrite <- !String.eqb_neq. split_and!; try done. apply not_elem_of_nil.
Qed.
End forward.
