(* ===== verification/KeysetSpec.v ===== *)
(** * The contract of sorted connections

    The properties of records_created_at_keyset.go that its clients rely on. *)
From S2P Require Import Prelude GoStrings Json AtprotoTime Effects Database RecordStore RecordProps Keyset KeysetProps KeysetForward.

Section contract.
Context `{Env} `{TextOrder} `{SortKeys} `{!SortLaws}.
Context (collection : string) (filters didFilter labels : clause_builder)
  (fsel dsel lsel : db → string → row → bool)
  (Hf : builder_spec filters fsel) (Hd : builder_spec didFilter dsel) (Hl : builder_spec labels lsel)
  (validOnly : bool).

Notation rows_of := (candidates collection fsel dsel lsel validOnly).

(** What a connection needs: a direction the resolvers pass, a sort field that names
    a column or a JSON field the rows have as text, and statements SQLite accepts. *)
Record sortable (sort : option SortOption) (d : db) : Prop := {
  sortable_direction : valid_direction sort;
  sortable_field : sort_field_ok sort;
  sortable_present : field_present collection fsel dsel lsel validOnly sort d;
  sortable_text : json_text_faithful collection fsel dsel lsel validOnly sort d;
  sortable_created : created_normal collection fsel dsel lsel validOnly sort d;
  sortable_fits : page_fits collection filters didFilter labels validOnly sort;
}.


(** One page: after the cursor of a row it holds the first [limit] selected rows
    that follow the row in the connection's order, from however many segments the
    page is filled; without a cursor the first [limit] of all. *)
Theorem page_after_cursor sort limit d start cursor :
  sortable sort d →
  starts_at sort cursor start →
  ReadsAs (getByCollectionSortedWithKeysetCursor collection filters didFilter labels sort limit cursor validOnly) d
    (scanSortedRecords sort (take limit
      (match start with None => rows_of sort d | Some x => filter (row_lt sort x) (rows_of sort d) end))).
Proof.
  intros [Hdir Hok Hp Hj Hc Hfit] Hst.
  exact (page_reads collection filters didFilter labels fsel dsel lsel Hf Hd Hl validOnly
    sort cursor start limit d Hst Hdir Hok Hp Hfit).
Qed.

(** ** Backward pages *)

Lemma valid_reversed sort : valid_direction sort → valid_direction (Some (reversed_sort sort)).
Proof. destruct sort as [[f dir]|]; cbn; [|auto]. intros [->| ->]; cbn; auto. Qed.

Lemma reversed_field sort : keysetSortFieldName (Some (reversed_sort sort)) = keysetSortFieldName sort.
Proof. by destruct sort as [[]|]. Qed.

Lemma reversed_asc sort : valid_direction sort → is_asc (Some (reversed_sort sort)) = negb (is_asc sort).
Proof. destruct sort as [[f dir]|]; cbn; [|done]. by intros [->| ->]. Qed.

Lemma row_lt_reversed sort x y :
  valid_direction sort → row_lt (Some (reversed_sort sort)) x y ↔ row_lt sort y x.
Proof.
  intros Hdir. unfold row_lt. rewrite reversed_asc by done. cbn [keysetSortFieldName].
  change (Field (reversed_sort sort)) with (keysetSortFieldName (Some (reversed_sort sort))).
  rewrite reversed_field. by destruct (is_asc sort).
Qed.

Lemma increasing_reverse (lt1 lt2 : relation (string * row)) (l : list (string * row)) :
  (∀ x y, lt1 x y → lt2 y x) → increasing id lt1 l → increasing id lt2 (reverse l).
Proof.
  intros Hlt. unfold increasing, id. induction 1 as [|x l Hs IH Hall]; [constructor|].
  rewrite reverse_cons. clear Hs. revert IH Hall. rewrite <- (reverse_involutive l) at 2.
  generalize (reverse l) as k. intros k Hk. rewrite Forall_reverse. intros Hall.
  induction Hk as [|y k Hk IH Hy]; cbn; [repeat constructor|].
  apply Forall_cons in Hall as [Hxy Hall]. constructor; [by apply IH|].
  apply Forall_app. split; [done|]. apply Forall_singleton. by apply Hlt.
Qed.

(** Two lists with the same elements, both in a strict order, are the same. *)
Lemma increasing_unique (lt : relation (string * row)) `{!StrictOrder lt} (l k : list (string * row)) :
  increasing id lt l → increasing id lt k → (∀ x, x ∈ l ↔ x ∈ k) → l = k.
Proof.
  unfold increasing, id. intros Hll. revert k. induction Hll as [|x l Hll IH Hx]; intros k Hk Hin.
  - destruct k as [|y k]; [done|]. assert (y ∈ []) as []%elem_of_nil. apply Hin. left.
  - destruct Hk as [|y k Hk Hy]; [assert (x ∈ []) as []%elem_of_nil; apply Hin; left|].
    rewrite Forall_forall in Hx, Hy.
    assert (x = y) as ->.
    { assert (x ∈ y :: k) as [|Hxk]%elem_of_cons by (apply Hin; left); [done|].
      assert (y ∈ x :: l) as [|Hyl]%elem_of_cons by (apply Hin; left); [done|].
      exfalso. apply (irreflexivity lt x). etrans; [by apply Hx|by apply Hy]. }
    f_equal. apply IH; [done|]. intros z. split; intros Hz.
    + assert (z ∈ y :: k) as [->|]%elem_of_cons by (apply Hin; by right); [|done].
      exfalso. by apply (irreflexivity lt y), Hx.
    + assert (z ∈ y :: l) as [->|]%elem_of_cons by (apply Hin; by right); [|done].
      exfalso. by apply (irreflexivity lt y), Hy.
Qed.

Lemma candidates_reversed sort d :
  valid_direction sort → rows_of (Some (reversed_sort sort)) d = reverse (rows_of sort d).
Proof.
  intros Hdir. apply (increasing_unique (row_lt (Some (reversed_sort sort)))).
  - apply candidates_increasing.
  - apply (increasing_reverse (row_lt sort)); [|apply candidates_increasing].
    intros x y. by rewrite row_lt_reversed.
  - intros [u r]. rewrite elem_of_reverse. unfold candidates.
    by rewrite !list_elem_of_filter, !elem_of_sorted_rows.
Qed.

Lemma filter_reverse (P : string * row → Prop) `{∀ x, Decision (P x)} l : filter P (reverse l) = reverse (filter P l).
Proof.
  induction l as [|x l IH]; [done|]. rewrite reverse_cons, filter_app, IH. destruct (decide (P x)).
  - rewrite !filter_cons_True by done. by rewrite reverse_cons.
  - rewrite !filter_cons_False by done. apply app_nil_r.
Qed.

Lemma scanSorted_same_field s1 s2 l :
  keysetSortFieldName s1 = keysetSortFieldName s2 → scanSortedRecords s1 l = scanSortedRecords s2 l.
Proof. intros He. induction l as [|x l IH]; cbn; [done|]. unfold scan_sorted. by rewrite He, IH. Qed.

Lemma scanSorted_reverse sort l : scanSortedRecords sort (reverse l) = reverse <$> scanSortedRecords sort l.
Proof.
  induction l as [|x l IH]; [done|]. rewrite reverse_cons, scanSorted_app, IH. cbn.
  unfold scan_sorted, scan_record. destruct (rkey_column x.1); cbn.
  - destruct (scanSortedRecords sort l) as [ys|]; cbn -[reverse]; [|done].
    f_equal. symmetry. apply reverse_cons.
  - clear IH. induction l as [|y l IHl]; cbn; [done|]. unfold scan_sorted, scan_record in *.
    destruct (rkey_column y.1); cbn; [|done]. by destruct (scanSortedRecords sort l).
Qed.

(** A backward page holds the last [limit] selected rows before the cursor's row,
    in the connection's own order; without a cursor, the last [limit] of all. *)
Theorem page_before_cursor sort limit d start cursor :
  sortable (Some (reversed_sort sort)) d → valid_direction sort →
  starts_at (Some (reversed_sort sort)) cursor start →
  ReadsAs (getByCollectionReversedWithKeysetCursor collection filters didFilter labels sort limit cursor validOnly) d
    (let before := match start with
                   | None => rows_of sort d | Some x => filter (λ y, row_lt sort y x) (rows_of sort d) end in
     scanSortedRecords sort (drop (length before - limit) before)).
Proof.
  intros [Hrdir Hok Hp Hj Hcn Hfit] Hdir Hst. cbv zeta.
  destruct (page_rows collection filters didFilter labels fsel dsel lsel Hf Hd Hl validOnly
    (Some (reversed_sort sort)) cursor start d) as (segs & Hpage & Hr & Hrows); [done..|].
  specialize (Hfit _ _ Hpage). unfold getByCollectionReversedWithKeysetCursor. rewrite Hpage.
  set (before := match start with None => _ | Some x => _ end).
  assert (Hafter : after_start collection fsel dsel lsel validOnly (Some (reversed_sort sort)) start d = reverse before).
  { unfold after_start, before. destruct start as [x|]; rewrite candidates_reversed by done; [|done].
    rewrite filter_reverse. f_equal. apply list_filter_iff. intros y. by apply row_lt_reversed. }
  assert (Hlast : drop (length before - limit) before = reverse (take limit (reverse before))).
  { rewrite take_reverse, reverse_involutive. done. }
  eapply reads_bind; [apply reads_of_outcome| |done]. intros page [= <-].
  eapply reads_bind; [apply readSortedPage_spec; [|by apply buildSortExpr_ok]| |].
  - rewrite Forall_forall in *. intros seg Hseg. split; auto.
  - cbn [page_sort page_of segments]. rewrite Hrows, Hafter, Hlast.
    rewrite (scanSorted_same_field _ sort) by apply reversed_field. intros records Hrec.
    rewrite scanSorted_reverse, Hrec. apply reads_ret.
  - cbn [page_sort page_of segments]. rewrite Hrows, Hafter, Hlast.
    rewrite (scanSorted_same_field _ sort) by apply reversed_field. intros e He.
    by rewrite scanSorted_reverse, He.
Qed.

(** Placeholders and arguments of every statement of a page line up: on SQLite,
    where they are positional, the placeholders in text order are those of the
    arguments, one each; on PostgreSQL, where they are numbered, every number has an
    argument. *)
Theorem page_placeholders sort cursor page :
  valid_direction sort → sort_field_ok sort →
  cursor = [] ∨ (∃ v u, cursor = [v; u]) →
  sortedRecordsPage collection filters didFilter labels sort cursor validOnly = Ok page →
  Forall (λ seg, aligned 1 (length (ps_args seg)) (placeholders (ps_where seg)) ∧ is_ok (page_sql page seg 1) = true)
    (segments page).
Proof.
  intros Hdir Hok Hcur Hpage.
  assert (∃ segs, page = page_of sort segs ∧ Forall (λ seg, ∃ P, segment_ok collection fsel dsel lsel validOnly seg P) segs)
    as (segs & -> & Hsegs).
  { destruct Hcur as [->|(v & u & ->)].
    - destruct (page_first collection filters didFilter labels fsel dsel lsel Hf Hd Hl validOnly sort)
        as (seg & Hpage' & Hseg & Hr). rewrite Hpage in Hpage'. injection Hpage' as ->.
      exists [seg]. split; [done|]. apply Forall_singleton. by exists (λ _, True).
    - destruct (decide (keysetSortFieldName sort = SortFieldRecordCreatedAt)) as [He|Hne].
      + destruct sort as [s|]; [|done].
        destruct (page_created collection filters didFilter labels fsel dsel lsel Hf Hd Hl validOnly s v u He)
          as (segs & Hpage' & Hsegs). rewrite Hpage in Hpage'. injection Hpage' as ->.
        exists segs. split; [done|]. clear Hpage. induction Hsegs; constructor; eauto.
      + destruct Hok as [|Hok]; [done|].
        destruct (page_field collection filters didFilter labels fsel dsel lsel Hf Hd Hl validOnly sort v u Hne Hdir Hok)
          as (seg & Hpage' & Hseg & Hr). rewrite Hpage in Hpage'. injection Hpage' as ->.
        exists [seg]. split; [done|]. apply Forall_singleton. by exists (field_after sort v u). }
  cbn [page_of segments]. eapply Forall_impl; [done|]. intros seg (P & [_ Hph] & Hr). split; [done|].
  apply render_all_ok in Hr. apply buildSortExpr_ok in Hok. unfold page_sql, page_of; cbn.
  destruct (render_all (ps_where seg)); [|done]. by destruct (buildSortExpr sort).
Qed.
End contract.

(** ** A concrete connection *)
Section example.
#[local] Existing Instance byte_order.

#[local] Instance ex_env : Env := example_env SQLite.

Definition json_title (j : string) : string :=
  match json_parse j with Some (JObject [(_, (_, JString s))]) => s | _ => "" end.

#[local] Instance ex_keys : SortKeys := {|
  indexed_key z := KText (itoa z);
  created_key := KText;
  created_text c := c;
  timestamp_cursor s := Some (KText s);
  json_field j f := let t := json_title j in if (t =? "")%string then None else Some (KText t);
  format_time := itoa;
  format_value _ := "";
|}.

#[local] Instance ex_laws : SortLaws.
Proof. split; [done|apply normal_nonempty|done]. Defined.

Definition ex_time (k : string) : string := "2024-01-0" +:+ k +:+ "T00:00:00.000Z".

Definition ex_row (created : option string) (json : string) : row :=
  mkRow "c" "did:x" "app.post" json 0 created StatusValid None None None.
Definition ex_uri (k : string) : string := at_uri "did:x" "app.post" k.
Definition ex_sorted_db : db := mkDb
  (list_to_map [(ex_uri "a", ex_row (Some (ex_time "2")) (quoted "{'title':'x'}")); (ex_uri "b", ex_row None "{}");
    (ex_uri "c", ex_row (Some (ex_time "2")) (quoted "{'title':'x'}")); (ex_uri "d", ex_row (Some (ex_time "1")) (quoted "{'title':'y'}"))])
  [] 1 ∅ ∅ 1 0 [] 1 ∅.

Definition no_clause : clause_builder := λ _, Ok None.
Definition any_row (d : db) (u : string) (r : row) : bool := true.
Lemma no_clause_spec : builder_spec no_clause any_row.
Proof. intros n _. by exists None. Qed.

Definition created_ok (r : row) : bool :=
  match row_record_created_at r with Some c => bool_decide (NormalizeRecordDatetime c = Some c) | None => true end.

Lemma ex_created_normal u r c :
  db_records ex_sorted_db !! u = Some r → row_record_created_at r = Some c → normal_datetime c.
Proof.
  intros Hr Hc. assert (Hall : forallb (λ kv : string * row, created_ok kv.2) (map_to_list (db_records ex_sorted_db)) = true)
    by by vm_compute.
  rewrite forallb_forall in Hall. apply elem_of_map_to_list, list_elem_of_In, Hall in Hr. cbn in Hr. unfold created_ok in Hr.
  rewrite Hc in Hr. apply bool_decide_eq_true in Hr. by eapply normalized_normal.
Qed.

Lemma ex_candidates_normal collection fsel dsel lsel validOnly sort :
  created_normal collection fsel dsel lsel validOnly sort ex_sorted_db.
Proof.
  intros _ [u r] c [_ Hin%elem_of_sorted_rows]%list_elem_of_filter Hc. by apply (ex_created_normal u r).
Qed.

Definition by_created : option SortOption := Some (mkSort SortFieldRecordCreatedAt "DESC").

Lemma by_created_sortable dir :
  dir = "ASC" ∨ dir = "DESC" →
  sortable "app.post" no_clause no_clause no_clause any_row any_row any_row false
    (Some (mkSort SortFieldRecordCreatedAt dir)) ex_sorted_db.
Proof.
  intros Hdir. split; [done|by left|by intros []|by intros [[]]|apply ex_candidates_normal|].
  intros cursor page. destruct cursor as [|v [|u [|]]]; intros [= <-]; try by repeat constructor.
  unfold recordCreatedAtKeysetSegments.
  destruct Hdir as [->| ->], (v =? "")%string; repeat constructor.
Qed.

Definition uris_of (o : outcome (list SortedRecord)) : list string :=
  match o with Ok l => (λ r, rec_uri (so_record r)) <$> l | Err _ => [] end.


Lemma page_after_cursor_witness :
  uris_of (run (getByCollectionSortedWithKeysetCursor "app.post" no_clause no_clause no_clause by_created 2
    [ex_time "1"; ex_uri "d"] false) ex_sorted_db).1 = [ex_uri "b"].
Proof.
  rewrite (reads_run _ _ _ (page_after_cursor "app.post" no_clause no_clause no_clause any_row any_row any_row
    no_clause_spec no_clause_spec no_clause_spec false by_created 2 ex_sorted_db
    (Some (ex_uri "d", ex_row (Some (ex_time "1")) (quoted "{'title':'y'}"))) [ex_time "1"; ex_uri "d"]
    (by_created_sortable "DESC" (or_intror eq_refl))
    ltac:(by exists (ex_time "1"), (ex_uri "d")))).
  vm_compute. reflexivity.
Defined.

Lemma page_before_cursor_witness :
  uris_of (run (getByCollectionReversedWithKeysetCursor "app.post" no_clause no_clause no_clause by_created 2
    [ex_time "1"; ex_uri "d"] false) ex_sorted_db).1 = [ex_uri "c"; ex_uri "a"].
Proof.
  rewrite (reads_run _ _ _ (page_before_cursor "app.post" no_clause no_clause no_clause any_row any_row any_row
    no_clause_spec no_clause_spec no_clause_spec false by_created 2 ex_sorted_db
    (Some (ex_uri "d", ex_row (Some (ex_time "1")) (quoted "{'title':'y'}"))) [ex_time "1"; ex_uri "d"]
    (by_created_sortable "ASC" (or_introl eq_refl)) (or_intror eq_refl)
    ltac:(by exists (ex_time "1"), (ex_uri "d")))).
  vm_compute. reflexivity.
Defined.

Lemma page_placeholders_witness :
  match sortedRecordsPage "app.post" no_clause no_clause no_clause by_created [ex_time "1"; ex_uri "d"] false with
  | Ok page => Forall (λ seg, aligned 1 (length (ps_args seg)) (placeholders (ps_where seg)) ∧
      is_ok (page_sql page seg 1) = true) (segments page) ∧ length (segments page) = 2
  | Err _ => False
  end.
Proof.
  split; [|done].
  apply (page_placeholders "app.post" no_clause no_clause no_clause any_row any_row any_row
    no_clause_spec no_clause_spec no_clause_spec false by_created [ex_time "1"; ex_uri "d"]); [by right|by left| |done].
  right. by exists (ex_time "1"), (ex_uri "d").
Defined.

(** ** JSON fields that are missing

    A record whose JSON lacks the sort field has [NULL] there. The cursor condition
    is never true of a [NULL], so a client that sorts descending loses those records
    behind any cursor. *)
Definition by_title : option SortOption := Some (mkSort "title" "DESC").

(** Sorting by a JSON field loses the records that lack it: the connection below
    selects four records, and a client that follows its cursors gets three. *)
Theorem json_sort_loses_missing_fields :
  length (candidates "app.post" any_row any_row any_row false by_title ex_sorted_db) = 4 ∧
  uris_of (run (follow "app.post" no_clause no_clause no_clause false 5 by_title 1 []) ex_sorted_db).1
  = [ex_uri "d"; ex_uri "c"; ex_uri "a"].
Proof. split; vm_compute; reflexivity. Qed.

(** *** JSON fields that are numbers

    On SQLite [json_extract] gives a number, a cursor is bound as text, and every number is
    less than every text. *)
Definition json_number (j field : string) : option Z :=
  match json_parse j with
  | Some (JObject ms) => match filter (λ m : member, m.1 = field) ms with [(_, (_, JNumber n))] => digits_val n 0 | _ => None end
  | _ => None
  end.

#[local] Instance number_keys : SortKeys := {|
  indexed_key z := KText (itoa z);
  created_key := KText;
  created_text c := c;
  timestamp_cursor s := Some (KText s);
  Keyset.json_field j f := KNumber <$> json_number j f;
  format_time := itoa;
  format_value v := match v with JNumber n => n | _ => "" end;
|}.

Definition numbered_db : db := mkDb
  (list_to_map [(ex_uri "a", ex_row None (quoted "{'n':1}")); (ex_uri "b", ex_row None (quoted "{'n':2}")); (ex_uri "c", ex_row None (quoted "{'n':3}"))])
  [] 1 ∅ ∅ 1 0 [] 1 ∅.

Definition by_number (direction : string) (fuel : nat) : outcome (list SortedRecord) :=
  (run (@follow _ _ number_keys "app.post" no_clause no_clause no_clause false fuel (Some (mkSort "n" direction)) 1 []) numbered_db).1.

(** Descending, the first page comes again and again; ascending, all but the first are lost. *)
Example integer_sort_repeats :
  by_number "DESC" 50 = Err "out of fuel" ∧ uris_of (by_number "ASC" 50) = [ex_uri "a"].
Proof. split; vm_compute; reflexivity. Qed.
End example.
