(* ===== verification/FilteredPages.v ===== *)
(** * Filtered connections

    The connections the resolvers read: sorted pages with field, author and label
    filters, and their total count. The three clause builders meet the contract of
    pages, so pages and count are about the same rows. *)
From S2P Require Import Prelude GoStrings Json AtprotoTime Effects Database Like RecordStore RecordProps Keyset Filters KeysetProps FilterProps LabelFilters KeysetForward KeysetSpec.

Section connection.
Context `{Env} `{TextOrder} `{SortKeys} `{SqlFunctions}.

Definition GetByCollectionSorted (collection : string) (filters : list FieldFilter) (didFilter : DIDFilter)
    (labels : ExternalLabelFilterSet) (sort : option SortOption) (limit : nat) (afterCursorValues : list string)
    (validOnly : bool) : M db (list SortedRecord) :=
  getByCollectionSortedWithKeysetCursor collection (buildFilterClause filters) (buildDIDFilterClause didFilter)
    (buildExternalLabelFilterSetClause labels) sort limit afterCursorValues validOnly.

(** [validation_status = $2], bound to [valid]. *)
Definition valid_clause (ph : nat) : clause :=
  mkClause ("validation_status = " +:+ Placeholder ph) [ph] [TextValue StatusValid]
    (λ _ args _ r, (row_validation_status r =? arg_text args ph)%string).

(** The conditions of the count before its filters. *)
Definition count_base (collection : string) (validOnly : bool) : list where_part * list Value * nat :=
  if validOnly
  then ([WCollection 1; WClause (valid_clause 2)], [TextValue collection; TextValue StatusValid], 3)
  else ([WCollection 1], [TextValue collection], 2).

Definition getCollectionCountFiltered (collection : string) (filters : list FieldFilter) (didFilter : DIDFilter)
    (labels : ExternalLabelFilterSet) (validOnly : bool) : M db nat :=
  '(whereParts, params, _) ← of_outcome (
    st ← add_clause "failed to build filter clause" (buildFilterClause filters) (count_base collection validOnly);
    st ← add_clause "failed to build DID filter clause" (buildDIDFilterClause didFilter) st;
    add_clause "failed to build external label filter clause" (buildExternalLabelFilterSetClause labels) st);
  of_outcome (validateSQLiteAggregateParameterCount (length params)) ;;
  query (λ d, length (filter (λ kv, Forall (λ w, where_holds d params w kv) whereParts) (map_to_list (db_records d)))).

Context `{!SqlLaws} `{!SortLaws}.

(** Filters the builders accept. *)
Record accepted (filters : list FieldFilter) (didFilter : DIDFilter) (labels : ExternalLabelFilterSet) : Prop := {
  accepted_fields : is_ok (buildFilterClause filters 1) = true;
  accepted_dids : did_EQ didFilter = "" → length (did_IN didFilter) ≤ MaxINListSize;
  accepted_labels : is_ok (buildExternalLabelFilterSetClause labels 1) = true;
}.

(** C25. Filter clauses mean what the filters say: wherever its placeholders start and
    once its parameters are bound there, a clause of field filters selects the rows
    that match every filter (operators by meaning, lists by membership, text operators
    by containment up to case without wildcards, filters on one array by a single
    element that meets them all); the author filter the rows of the author, or of a
    listed one; the label filter the records that have a label meeting the one
    predicate and none meeting the other, on the record and on its author. *)
Theorem filter_clauses_correct filters didFilter labels :
  accepted filters didFilter labels →
  builder_spec (buildFilterClause filters) (filters_match filters) ∧
  builder_spec (buildDIDFilterClause didFilter) (did_matches didFilter) ∧
  builder_spec (buildExternalLabelFilterSetClause labels) (label_set_matches labels).
Proof.
  intros [Hf Hd Hl]. split_and!; [by apply filter_clause_spec|by apply did_clause_spec|by apply label_clause_spec].
Qed.

(** The rows of a filtered connection. *)
Definition admits (collection : string) (filters : list FieldFilter) (didFilter : DIDFilter)
    (labels : ExternalLabelFilterSet) (validOnly : bool) (d : db) (u : string) (r : row) : Prop :=
  row_collection r = collection ∧ (validOnly = true → row_validation_status r = StatusValid) ∧
  filters_match filters d u r = true ∧ did_matches didFilter d u r = true ∧ label_set_matches labels d u r = true.

Lemma where_count collection filters didFilter labels validOnly :
  accepted filters didFilter labels →
  ∃ ws params n, (
    st ← add_clause "failed to build filter clause" (buildFilterClause filters) (count_base collection validOnly);
    st ← add_clause "failed to build DID filter clause" (buildDIDFilterClause didFilter) st;
    add_clause "failed to build external label filter clause" (buildExternalLabelFilterSetClause labels) st)
  = Ok (ws, params, n) ∧
  ∀ d kv, Forall (λ w, where_holds d params w kv) ws ↔
    selected collection (filters_match filters) (did_matches didFilter) (label_set_matches labels) validOnly d kv.
Proof.
  intros [Hf%filter_clause_spec Hd%did_clause_spec Hl%label_clause_spec].
  assert (∃ ws0 ps0, count_base collection validOnly = (ws0, TextValue collection :: ps0, S (S (length ps0))) ∧
    ∀ d rest kv, Forall (λ w, where_holds d (TextValue collection :: ps0 ++ rest) w kv) ws0 ↔
      row_collection kv.2 = collection ∧ (validOnly = true → row_validation_status kv.2 = StatusValid))
    as (ws0 & ps0 & Hst & Hws0).
  { unfold count_base. destruct validOnly; [exists [WCollection 1; WClause (valid_clause 2)], [TextValue StatusValid]
      |exists [WCollection 1], []]; (split; [done|]); intros d rest kv.
    - rewrite !Forall_cons, Forall_nil. cbn [where_holds valid_clause cl_holds].
      change (arg_text (TextValue collection :: [TextValue StatusValid] ++ rest) 1) with collection.
      change (arg_text (TextValue collection :: [TextValue StatusValid] ++ rest) 2) with StatusValid.
      rewrite String.eqb_eq. naive_solver.
    - rewrite !Forall_cons, Forall_nil. cbn [where_holds].
      change (arg_text (TextValue collection :: [] ++ rest) 1) with collection. naive_solver. }
  rewrite Hst.
  destruct (clauses_ok _ _ _ _ _ _ Hf Hd Hl ws0 (TextValue collection :: ps0) (S (S (length ps0))) ltac:(lia))
    as (ws & extra & E & Hsel & _).
  exists (ws0 ++ ws), ((TextValue collection :: ps0) ++ extra), (S (S (length ps0)) + length extra). split; [exact E|].
  intros d kv. rewrite Forall_app. unfold all_hold in Hsel. rewrite Hsel.
  - rewrite <- app_comm_cons, Hws0. unfold selected. tauto.
  - rewrite <- (app_nil_r ((TextValue collection :: ps0) ++ extra)), <- app_assoc.
    apply (binds_middle (TextValue collection :: ps0)).
Qed.

Lemma scan_total sort rows :
  Forall (λ kv : string * row, is_Some (rkey_column kv.1)) rows → ∃ records, scanSortedRecords sort rows = Ok records.
Proof.
  induction 1 as [|kv l [rkey Hkv] _ [rs IH]]; [by exists []|]. cbn. unfold scan_sorted, scan_record.
  rewrite Hkv. cbn. rewrite IH. by eexists.
Qed.

(** The records of a connection are those of the admitted rows, each once. *)
Lemma connection_records collection filters didFilter labels validOnly sort d records :
  let rows := candidates collection (filters_match filters) (did_matches didFilter) (label_set_matches labels) validOnly in
  scanSortedRecords sort (rows sort d) = Ok records →
  (∀ u, u ∈ (rec_uri ∘ so_record) <$> records ↔
    ∃ r, db_records d !! u = Some r ∧ admits collection filters didFilter labels validOnly d u r) ∧
  NoDup ((rec_uri ∘ so_record) <$> records).
Proof.
  intros rows Hscan%scanSorted_Forall2.
  assert (Huris : (rec_uri ∘ so_record) <$> records = (rows sort d).*1).
  { clear -Hscan. revert Hscan. generalize (rows sort d) as l0. intros l0 Hscan.
    induction Hscan as [|kv r l rs Hkv _ IH]; [done|]. cbn.
    apply scan_sorted_inv in Hkv as (? & _ & Eu & _). rewrite Eu. f_equal. exact IH. }
  assert (Hrows : ∀ u r, (u, r) ∈ rows sort d ↔ db_records d !! u = Some r ∧ admits collection filters didFilter labels validOnly d u r).
  { intros u r. unfold rows, candidates. rewrite list_elem_of_filter, elem_of_sorted_rows. unfold admits, selected. cbn. tauto. }
  rewrite Huris. split.
  - intros u. rewrite list_elem_of_fmap. split.
    + intros ([u' r] & -> & Hin). exists r. by apply Hrows.
    + intros (r & Hr). exists (u, r). split; [done|]. by apply Hrows.
  - unfold rows, candidates. apply nodup_fmap_filter, sorted_rows_nodup.
Qed.

(** Total count and pages agree: whatever the filters, sort and page size, the
    count of a connection is the number of records a client gets that follows its
    cursors to the end, and those are exactly the admitted ones. *)
Theorem count_is_number_of_records collection filters didFilter labels sort limit validOnly d fuel :
  accepted filters didFilter labels → valid_direction sort → sort_field_ok sort →
  let rows := candidates collection (filters_match filters) (did_matches didFilter) (label_set_matches labels) validOnly in
  field_present collection (filters_match filters) (did_matches didFilter) (label_set_matches labels) validOnly sort d →
  json_text_faithful collection (filters_match filters) (did_matches didFilter) (label_set_matches labels) validOnly sort d →
  created_normal collection (filters_match filters) (did_matches didFilter) (label_set_matches labels) validOnly sort d →
  page_fits collection (buildFilterClause filters) (buildDIDFilterClause didFilter)
    (buildExternalLabelFilterSetClause labels) validOnly sort →
  0 < limit → length (rows sort d) < fuel → Forall (λ kv, is_Some (rkey_column kv.1)) (rows sort d) →
  ∃ records,
  run (follow collection (buildFilterClause filters) (buildDIDFilterClause didFilter)
    (buildExternalLabelFilterSetClause labels) validOnly fuel sort limit []) d = (Ok records, d) ∧
  (∀ u, u ∈ (rec_uri ∘ so_record) <$> records ↔
    ∃ r, db_records d !! u = Some r ∧ admits collection filters didFilter labels validOnly d u r) ∧
  NoDup ((rec_uri ∘ so_record) <$> records) ∧
  ∃ o, run (getCollectionCountFiltered collection filters didFilter labels validOnly) d = (o, d) ∧
       (∀ n, o = Ok n → n = length records) ∧ (dialect = PostgreSQL → o = Ok (length records)).
Proof.
  intros Hacc Hdir Hok rows Hp Hj Hc Hfit Hlim Hfuel Hrkey.
  pose proof Hacc as [Hf%filter_clause_spec Hd%did_clause_spec Hl%label_clause_spec].
  assert (Hreads := follow_reads collection _ _ _ _ _ _ Hf Hd Hl validOnly sort limit d fuel [] None
    Hdir Hok Hp Hfit (cursors_faithful _ _ _ _ _ _ _ Hj Hc) Hlim eq_refl Hfuel).
  apply reads_run in Hreads. destruct (scan_total sort _ Hrkey) as [records Hscan].
  change (after_start _ _ _ _ _ sort None d) with (rows sort d) in Hreads. rewrite Hscan in Hreads.
  exists records. split; [exact Hreads|].
  destruct (connection_records collection filters didFilter labels validOnly sort d records Hscan) as [Hin Hnd].
  split_and!; [done|done|].
  - destruct (where_count collection filters didFilter labels validOnly Hacc) as (ws & params & n & Ews & Hws).
    unfold getCollectionCountFiltered. rewrite Ews. exists (
      _ ← validateSQLiteAggregateParameterCount (length params); Ok (length records)).
    assert (Hcount : length (filter (λ kv, Forall (λ w, where_holds d params w kv) ws) (map_to_list (db_records d)))
      = length records).
    { rewrite (scanSorted_length _ _ _ Hscan). unfold rows, candidates.
      apply Permutation_length. rewrite <- (merge_sort_Permutation (row_le sort) (map_to_list (db_records d))).
      fold (sorted_rows sort d). erewrite list_filter_iff; [reflexivity|]. intros kv. apply Hws. }
    split_and!.
    + unfold run, mbind, M_bind, of_outcome, outcome_bind. cbn.
      destruct (validateSQLiteAggregateParameterCount (length params)); [|done]. cbn. by rewrite Hcount.
    + intros m. unfold mbind, outcome_bind. destruct (validateSQLiteAggregateParameterCount _); congruence.
    + intros Hpg. unfold validateSQLiteAggregateParameterCount. rewrite Hpg. done.
Qed.
End connection.

(** ** A filtered connection, evaluated

    The filters and the count of FilteredPages.v on a concrete database. *)

#[local] Existing Instance byte_order.
#[local] Existing Instance ex_env.
#[local] Existing Instance ex_keys.
#[local] Existing Instance ex_laws.

Fixpoint json_get (j : json) (path : list string) : json :=
  match path with
  | [] => j
  | p :: path' =>
      match j with
      | JObject ms =>
          match last (filter (λ m : member, (m.1 =? p)%string = true) ms) with
          | Some (_, (_, v)) => json_get v path' | None => JNull end
      | _ => JNull
      end
  end.

Definition json_value (j : json) : Value :=
  match j with JString s => TextValue s | JBool b => BoolValue b | JNumber n => FloatValue n | _ => NullValue end.

Definition value_eqb (a b : Value) : bool := bool_decide (a = b).

#[local] Instance ex_sql : SqlFunctions := {|
  json_at doc path := match json_parse doc with Some j => json_value (json_get j path) | None => NullValue end;
  json_array doc path := match json_get (default JNull (json_parse doc)) path with
    | JArray items => omap (λ j, match j with JString s => Some s | _ => None end) items | _ => [] end;
  element_at e path := if decide (path = []) then TextValue e else NullValue;
  cast_numeric v := v;
  sql_compare op a b := match a, b with NullValue, _ | _, NullValue => None
    | a, b => if (op =? "=")%string then Some (value_eqb a b)
              else if (op =? "!=")%string then Some (negb (value_eqb a b)) else None end;
  sql_text v := match v with TextValue s => Some s | _ => None end;
  pg_lower s := s;
  label_time s := Some (Z.of_nat (String.length s));
|}.

#[local] Instance ex_sql_laws : SqlLaws.
Proof. by split. Defined.

Definition title_is (v : string) : FieldFilter := mkFilter "title" [] [] "eq" (GString v) "string" "".
Definition title_contains (v : string) : FieldFilter := mkFilter "title" [] [] "contains" (GString v) "string" "".
Definition tagged (v : string) : FieldFilter := mkFilter "tags" [] ["tags"] "in" (GList [GString v]) "string" "".
Definition no_label : ExternalLabelRecordFilter := mkLabelFilter None (Some (mkLabelPredicate []
  [mkLabelString "eq" (GString "spam")] true)).

Definition ex_filters : list FieldFilter := [title_contains "X"; title_is "x"].
Definition ex_dids : DIDFilter := mkDID "" ["did:x"; "did:y"].
Definition ex_labels : ExternalLabelFilterSet := mkLabelSet no_label (mkLabelFilter None None).

Lemma ex_accepted : accepted ex_filters ex_dids ex_labels.
Proof. split; [vm_compute; reflexivity|intros _; vm_compute; lia|vm_compute; reflexivity]. Qed.

(** A filter on two elements of one array is about one element. *)
Example array_filters_share_an_element :
  filters_match [tagged "a"; tagged "b"] ex_sorted_db "u" (ex_row None (quoted "{'tags':['a','b']}")) = false ∧
  filters_match [tagged "a"; tagged "a"] ex_sorted_db "u" (ex_row None (quoted "{'tags':['a','b']}")) = true.
Proof. split; vm_compute; reflexivity. Qed.

Lemma filter_clauses_correct_witness :
  filters_match ex_filters ex_sorted_db (ex_uri "a") (ex_row None (quoted "{'title':'x'}")) = true ∧
  builder_spec (buildFilterClause ex_filters) (filters_match ex_filters) ∧
  builder_spec (buildDIDFilterClause ex_dids) (did_matches ex_dids) ∧
  builder_spec (buildExternalLabelFilterSetClause ex_labels) (label_set_matches ex_labels).
Proof. split; [vm_compute; reflexivity|apply filter_clauses_correct, ex_accepted]. Defined.

Lemma ex_page_fits : page_fits "app.post" (buildFilterClause ex_filters) (buildDIDFilterClause ex_dids)
  (buildExternalLabelFilterSetClause ex_labels) false by_created.
Proof.
  apply (few_params_fit _ _ _ _ _ _ 2 2 1); [| | |lia]; intros n c.
  - unfold buildFilterClause, ex_filters. cbn [decide_rel decide list_eq_dec]. cbn.
    destruct (render_scalar _); [|done]. cbn. destruct (render_scalar _); [|done]. by intros [= <-].
  - by intros [= <-].
  - by intros [= <-].
Qed.

Lemma count_is_number_of_records_witness :
  ∃ records,
    run (follow "app.post" (buildFilterClause ex_filters) (buildDIDFilterClause ex_dids)
      (buildExternalLabelFilterSetClause ex_labels) false 5 by_created 1 []) ex_sorted_db = (Ok records, ex_sorted_db) ∧
    (rec_uri ∘ so_record) <$> records = [ex_uri "c"; ex_uri "a"] ∧
    (run (getCollectionCountFiltered "app.post" ex_filters ex_dids ex_labels false) ex_sorted_db).1 = Ok 2.
Proof.
  destruct (count_is_number_of_records "app.post" ex_filters ex_dids ex_labels by_created 1 false ex_sorted_db 5)
    as (records & Hrun & _ & _ & o & Hcount & Hn & _).
  - apply ex_accepted.
  - by right.
  - by left.
  - by intros [].
  - by intros [[]].
  - apply ex_candidates_normal.
  - apply ex_page_fits.
  - lia.
  - vm_compute. lia.
  - vm_compute. repeat constructor; by eexists.
  - exists records. split; [exact Hrun|].
    assert (Hr : Ok records = (run (follow "app.post" (buildFilterClause ex_filters) (buildDIDFilterClause ex_dids)
      (buildExternalLabelFilterSetClause ex_labels) false 5 by_created 1 []) ex_sorted_db).1) by by rewrite Hrun.
    split; [vm_compute in Hr; injection Hr as ->; reflexivity|]. rewrite Hcount. cbn.
    assert (Ho : o = (run (getCollectionCountFiltered "app.post" ex_filters ex_dids ex_labels false) ex_sorted_db).1)
      by by rewrite Hcount. rewrite Ho. vm_compute. reflexivity.
Defined.
