(* ===== verification/LabelText.v ===== *)
(** * Fatal cursor markers

    external_labels.go keeps a non-retryable cursor error as a text in [last_error].
    The marker written is recognised when read, by the Go code and by the SQL pattern,
    and gives back the error code it was written with. *)
From S2P Require Import Prelude GoStrings Json GoTime Effects Database Like RecordStore Filters LabelFilters Labels.

(** ** Trimming stops at a visible ASCII byte *)

Definition visible (c : Ascii.ascii) : Prop := (32 < byte_val c < 127)%N.

Fixpoint all_high (s : string) : Prop :=
  match s with EmptyString => True | String c s' => (128 <= byte_val c)%N ∧ all_high s' end.

Lemma all_high_append s t : all_high (s +:+ t) ↔ all_high s ∧ all_high t.
Proof. induction s as [|c s IH]; [cbn; tauto|]. rewrite append_cons. cbn. rewrite IH. tauto. Qed.

(** Multi-byte white space has no ASCII byte. *)
Lemma space_len_cases s :
  space_len s = 0 ∨ (space_len s = 1 ∧ ∃ c s', s = String c s' ∧ is_space_ascii (byte_val c) = true) ∨
  (1 < space_len s ∧ all_high (stake (space_len s) s)).
Proof.
  destruct s as [|a r]; [by left|]. cbn [space_len].
  destruct (is_space_ascii (byte_val a)) eqn:Ea; [right; left; eauto|].
  destruct r as [|b r]; [by left|].
  case_match eqn:E1.
  - right; right. split; [lia|]. cbn. apply andb_prop in E1 as [H1%N.eqb_eq H2]. apply orb_prop in H2.
    rewrite !N.eqb_eq in H2. lia.
  - destruct r as [|c r]; [by left|]. case_match eqn:E2; [|by left].
    right; right. split; [lia|]. cbn. rewrite !orb_true_iff, !andb_true_iff, ?orb_true_iff, !N.eqb_eq, !N.leb_le in E2. lia.
Qed.

Lemma visible_not_space c s : visible c → space_len (String c s) = 0.
Proof.
  intros Hc. unfold visible in Hc. destruct (space_len_cases (String c s)) as [H|[(_ & ? & ? & [= <- <-] & H)|[Hn H]]]; [done| |].
  - unfold is_space_ascii in H. rewrite orb_true_iff, andb_true_iff, !N.leb_le, N.eqb_eq in H. lia.
  - destruct (space_len (String c s)); [done|]. cbn in H. lia.
Qed.

Lemma stake_append_le n x y : n ≤ String.length x → stake n (x +:+ y) = stake n x.
Proof.
  revert x. induction n as [|n IH]; intros x Hn; [done|]. destruct x as [|c x]; cbn in Hn; [lia|].
  rewrite append_cons. cbn. f_equal. apply IH. lia.
Qed.

Lemma stake_append_gt n x c y :
  String.length x < n → ∃ y', stake n (x +:+ String c y) = x +:+ String c y'.
Proof.
  revert x. induction n as [|n IH]; intros x Hn; [lia|]. destruct x as [|d x].
  - eexists. by rewrite !append_nil_l.
  - cbn in Hn. destruct (IH x ltac:(lia)) as [y' Hy]. exists y'. rewrite !append_cons. cbn. by rewrite Hy.
Qed.

Lemma length_srev s : String.length (srev s) = String.length s.
Proof. induction s as [|c s IH]; [done|]. rewrite srev_cons, length_append, IH. cbn. lia. Qed.

Lemma length_stake n s : String.length (stake n s) = min n (String.length s).
Proof. revert s. induction n as [|n IH]; intros [|c s]; cbn; [done..|]. by rewrite IH. Qed.

Lemma stake_all n s : String.length s ≤ n → stake n s = s.
Proof. revert s. induction n as [|n IH]; intros [|c s] Hl; cbn in *; [done|lia|done|]. by rewrite IH by lia. Qed.

(** White space at the end of a text lies behind any visible byte. *)
Lemma space_len_rev_visible x c y :
  visible c → space_len_rev (x +:+ String c y) ≤ String.length x.
Proof.
  intros Hc.
  assert (Hlast : ∀ k, k ≠ 0 → space_len (srev (stake k (x +:+ String c y))) = k → k ≤ String.length x).
  { intros k Hk0 Hk. destruct (decide (k ≤ String.length x)) as [|Hgt]; [done|exfalso].
    destruct (stake_append_gt k x c y ltac:(lia)) as [y' Hy]. rewrite Hy in Hk.
    destruct (space_len_cases (srev (x +:+ String c y'))) as [H|[(H1 & d & s' & Hs & H)|[Hn H]]]; [lia| |].
    - assert (k = 1) by lia. assert (String.length x = 0) by lia. destruct x; [|done].
      assert (y' = "") as ->.
      { apply (f_equal String.length) in Hy. rewrite length_stake, !append_nil_l in Hy.
        destruct y'; [done|]. cbn [String.length] in Hy. lia. }
      rewrite append_nil_l in Hs. cbn in Hs. injection Hs as <- <-.
      unfold visible in Hc. unfold is_space_ascii in H.
      rewrite orb_true_iff, andb_true_iff, !N.leb_le, N.eqb_eq in H. lia.
    - assert (Hlen : String.length (x +:+ String c y') ≤ k) by (rewrite <- Hy, length_stake; lia).
      rewrite stake_all in H by (rewrite length_srev; lia).
      rewrite srev_append, srev_cons, !all_high_append in H. cbn in H. unfold visible in Hc. lia. }
  unfold space_len_rev. repeat case_decide; try lia; [|by eapply Hlast..].
  apply Hlast; [done|]. rewrite <- H at 2. f_equal.
  by destruct (x +:+ String c y).
Qed.

Lemma sdrop_append_le n x y : n ≤ String.length x → sdrop n (x +:+ y) = sdrop n x +:+ y.
Proof.
  revert x. induction n as [|n IH]; intros x Hn; [done|]. destruct x as [|c x]; cbn in Hn; [lia|].
  rewrite append_cons. cbn. apply IH. lia.
Qed.

Lemma trim_rev_visible fuel x c y :
  visible c → ∃ x', trim_with space_len_rev fuel (x +:+ String c y) = x' +:+ String c y.
Proof.
  intros Hc. revert x. induction fuel as [|f IH]; intros x; [by exists x|]. cbn [trim_with].
  destruct (space_len_rev (x +:+ String c y)) as [|n] eqn:E; [by exists x|].
  pose proof (space_len_rev_visible x c y Hc). rewrite sdrop_append_le by lia. apply IH.
Qed.

(** A text that starts with a visible byte keeps all up to its last visible byte. *)
Lemma trim_space_keep s c r :
  visible c → space_len (s +:+ String c r) = 0 → ∃ r', trim_space (s +:+ String c r) = s +:+ String c r'.
Proof.
  intros Hc Hs. unfold trim_space.
  assert (Hl : trim_with space_len (String.length (s +:+ String c r)) (s +:+ String c r) = s +:+ String c r).
  { destruct (String.length (s +:+ String c r)); [done|]. cbn [trim_with]. by rewrite Hs. }
  rewrite Hl, srev_append, srev_cons, append_byte.
  destruct (trim_rev_visible (String.length (s +:+ String c r)) (srev r) c (srev s) Hc) as [x' ->].
  exists (srev x'). by rewrite srev_append, srev_cons, srev_involutive, append_byte.
Qed.

(** ** Valid UTF-8 up to an ASCII byte *)

(** An ASCII byte ends whatever character precedes it. *)
Lemma utf8_len_before s c r :
  (byte_val c < 128)%N → s ≠ "" →
  utf8_len (s +:+ String c r) = utf8_len s ∧ utf8_len s ≤ String.length s.
Proof.
  intros Hc Hs. destruct s as [|a s]; [done|]. rewrite append_cons. cbn [utf8_len String.length].
  assert (Hcont : cont (byte_val c) = false) by (unfold cont; apply andb_false_intro1, N.leb_gt; lia).
  destruct (_ <? _)%N; [by split; [|lia]|].
  destruct s as [|b s]; [rewrite append_nil_l; rewrite !Hcont, ?andb_false_r; cbn|].
  { destruct r as [|? [|? ?]]; rewrite ?andb_false_r; split; lia || done. }
  rewrite append_cons. cbn [String.length]. destruct (_ && cont (byte_val b))%N; [split; lia|].
  destruct s as [|d s]; [rewrite append_nil_l; rewrite !Hcont, ?andb_false_r; cbn|].
  { destruct r as [|? ?]; rewrite ?andb_false_r; split; lia || done. }
  rewrite append_cons. cbn [String.length]. destruct (_ && cont (byte_val d))%N; [split; lia|].
  destruct s as [|e s]; [rewrite append_nil_l; rewrite !Hcont, ?andb_false_r; split; lia|].
  rewrite append_cons. cbn [String.length]. destruct (_ && cont (byte_val e))%N; split; lia.
Qed.

Lemma utf8_len_le s : s ≠ "" → utf8_len s ≤ String.length s.
Proof. intros Hs. by apply (utf8_len_before s (byte 0) ""). Qed.

Lemma length_sdrop n s : String.length (sdrop n s) = String.length s - n.
Proof. revert s. induction n as [|n IH]; intros [|c s]; cbn; [done..|]. apply IH. Qed.

Lemma to_valid_go_fuel rep f g s b :
  String.length s ≤ f → String.length s ≤ g → to_valid_go f s rep b = to_valid_go g s rep b.
Proof.
  revert g s b. induction f as [|f IH]; intros g s b Hf Hg.
  - destruct s; [by destruct g|cbn in Hf; lia].
  - destruct s as [|c s]; [by destruct g|]. destruct g as [|g]; [cbn in Hg; lia|].
    cbn [to_valid_go]. pose proof (utf8_len_le (String c s) ltac:(done)). cbn in Hf, Hg.
    destruct (utf8_len (String c s)) as [|n]; [f_equal; apply IH; lia|].
    f_equal. apply IH; rewrite length_sdrop; cbn; lia.
Qed.

Lemma to_valid_go_split rep f s c r b :
  (byte_val c < 128)%N → String.length s ≤ f →
  to_valid_go (String.length (s +:+ String c r)) (s +:+ String c r) rep b
  = to_valid_go f s rep b +:+ String c (to_valid_utf8 r rep).
Proof.
  intros Hc. revert s b. induction f as [|f IH]; intros s b Hf.
  - destruct s; [|cbn in Hf; lia]. rewrite !append_nil_l. cbn [String.length to_valid_go].
    assert (utf8_len (String c r) = 1) as ->; [|done].
    cbn [utf8_len]. apply N.ltb_lt in Hc. by rewrite Hc.
  - destruct s as [|a s]; [rewrite (IH "" b) by (cbn; lia); by destruct f|].
    assert (Ha : String a s ≠ "") by done. destruct (utf8_len_before _ c r Hc Ha) as [Hlen Hle].
    cbn [String.length] in Hf. rewrite append_cons. cbn [String.length to_valid_go].
    rewrite <- append_cons, Hlen. destruct (utf8_len (String a s)) as [|n].
    + rewrite (IH s true) by lia. by rewrite append_assoc.
    + rewrite stake_append_le, sdrop_append_le by done. rewrite append_assoc. f_equal.
      rewrite <- (IH (sdrop (S n) (String a s)) false) by (rewrite length_sdrop; cbn; lia).
      apply to_valid_go_fuel; rewrite !length_append, ?length_sdrop; cbn; lia.
Qed.

(** An ASCII byte splits a text: [strings.ToValidUTF8] works on either side. *)
Lemma to_valid_split rep s c r :
  (byte_val c < 128)%N → to_valid_utf8 (s +:+ String c r) rep = to_valid_utf8 s rep +:+ String c (to_valid_utf8 r rep).
Proof. intros Hc. by apply to_valid_go_split. Qed.

(** ** The marker *)

Section marker.
Context `{Env}.

(** A code as labelers send it: valid text without spaces around it or a colon. *)
Definition plain_code (code : string) : Prop :=
  to_valid_utf8 code replacement = code ∧ trim_space code = code ∧ code ≠ "" ∧ no_byte colon code = true ∧
  String.length code ≤ 4000.

Lemma colon_visible : visible colon.
Proof. done. Qed.

(** What is written starts with the prefix, the code and a colon. *)
Lemma format_shape errorCode errText :
  String.length (normalizeErrorCode errorCode) ≤ 4000 →
  to_valid_utf8 (normalizeErrorCode errorCode) replacement = normalizeErrorCode errorCode →
  ∃ t, formatFatalCursorLastError errorCode errText
       = fatalCursorPrefix +:+ normalizeErrorCode errorCode +:+ String colon t.
Proof.
  intros Hlen Hval. unfold formatFatalCursorLastError. set (code := normalizeErrorCode errorCode) in *.
  set (m := if has_prefix _ _ then _ else _). generalize (normalizeLastError m). intros msg. unfold normalizeLastError.
  change (": " +:+ msg) with (String colon (String space msg)).
  rewrite <- append_assoc, to_valid_split by done.
  assert (Hp : to_valid_utf8 (fatalCursorPrefix +:+ code) replacement = fatalCursorPrefix +:+ code).
  { change (fatalCursorPrefix +:+ code) with ("FATAL_CURSOR" +:+ String space code). rewrite to_valid_split by done. by rewrite Hval. }
  rewrite Hp. destruct (trim_space_keep (fatalCursorPrefix +:+ code) colon (to_valid_utf8 (String space msg) replacement)
    colon_visible) as [r ->]; [done|].
  destruct (_ =? "")%string eqn:E; [by apply String.eqb_eq in E|].
  destruct (_ <? _) eqn:El; [|exists r; by rewrite append_assoc].
  destruct (stake_append_gt externalLabelLastErrorMaxLen (fatalCursorPrefix +:+ code) colon r) as [t ->].
  - rewrite length_append. unfold externalLabelLastErrorMaxLen. change (String.length fatalCursorPrefix) with 13. lia.
  - exists t. by rewrite append_assoc.
Qed.

Lemma like_byte_step c ts s : like_match (LikeByte c :: ts) (String c s) = like_match ts s.
Proof. cbn [like_match]. unfold like_byte_eq. by destruct dialect; rewrite Ascii.eqb_refl. Qed.

Lemma marker_like u : like_match (like_tokens fatalCursorLikePattern) (fatalCursorPrefix +:+ u) = true.
Proof.
  assert (Hone : ∀ ts s, like_match (LikeOne :: ts) (String underscore s) = like_match ts s) by done.
  let ts := eval vm_compute in (like_tokens fatalCursorLikePattern) in change (like_tokens fatalCursorLikePattern) with ts.
  unfold fatalCursorPrefix. rewrite !append_cons, append_nil_l.
  rewrite !like_byte_step, Hone, !like_byte_step. apply like_many.
Qed.

(** Both readers of the marker, in Go and in SQL, see a text of that shape. *)
Lemma marker_seen code t :
  let e := fatalCursorPrefix +:+ code +:+ String colon t in
  IsFatalCursorError (Some e) = true ∧ like_match (like_tokens fatalCursorLikePattern) e = true.
Proof.
  cbn zeta. split.
  - cbn [IsFatalCursorError]. rewrite <- append_assoc.
    destruct (trim_space_keep (fatalCursorPrefix +:+ code) colon t colon_visible) as [r ->]; [done|].
    rewrite append_assoc. apply prefix_append.
  - apply marker_like.
Qed.

(** Whatever the code and the message, the marker starts with the prefix. *)
Lemma format_prefix errorCode errText :
  ∃ t, formatFatalCursorLastError errorCode errText = fatalCursorPrefix +:+ t.
Proof.
  unfold formatFatalCursorLastError. set (code := normalizeErrorCode errorCode).
  set (m := if has_prefix _ _ then _ else _). generalize (normalizeLastError m). intros msg. unfold normalizeLastError.
  change (": " +:+ msg) with (String colon (String space msg)).
  change (fatalCursorPrefix +:+ code +:+ String colon (String space msg))
    with ("FATAL_CURSOR" +:+ String space (code +:+ String colon (String space msg))).
  rewrite !to_valid_split by done. generalize (to_valid_utf8 code replacement). intros c.
  change (to_valid_utf8 "FATAL_CURSOR" replacement) with "FATAL_CURSOR". rewrite <- append_cons, <- append_assoc.
  destruct (trim_space_keep ("FATAL_CURSOR" +:+ String space c) colon (to_valid_utf8 (String space msg) replacement)
    colon_visible) as [r ->]; [done|].
  change ("FATAL_CURSOR" +:+ String space c) with (fatalCursorPrefix +:+ c). rewrite append_assoc.
  destruct (_ =? "")%string eqn:E; [by apply String.eqb_eq in E|].
  destruct (_ <? _) eqn:El; [|by eexists]. unfold fatalCursorPrefix. rewrite !append_cons, append_nil_l.
  change externalLabelLastErrorMaxLen with (13 + 4083). generalize 4083. intros k. cbn [Nat.add stake].
  generalize (stake k (c +:+ String colon r)). intros t. by exists t.
Qed.

(** A fatal cursor marker is recognised wherever it is read, by the diagnostics and by
    the SQL pattern that keeps it from being overwritten, and gives back its error code:
    for any message, even one cut off at 4096 bytes, and any plain code. *)
Theorem fatal_marker_roundtrip errorCode errText :
  plain_code errorCode →
  let e := formatFatalCursorLastError errorCode errText in
  FatalCursorCode (Some e) = errorCode ∧ IsFatalCursorError (Some e) = true ∧
  like_match (like_tokens fatalCursorLikePattern) e = true.
Proof.
  intros (Hval & Htrim & Hne & Hcolon & Hlen). cbn zeta.
  assert (Hcode : normalizeErrorCode errorCode = errorCode).
  { unfold normalizeErrorCode. rewrite Hval, Htrim. by apply String.eqb_neq in Hne as ->. }
  destruct (format_shape errorCode errText) as [t ->]; rewrite ?Hcode; [done..|].
  destruct (marker_seen errorCode t) as [Hgo Hsql]. split; [|done].
  unfold FatalCursorCode. rewrite Hgo. cbn [negb].
  rewrite <- append_assoc. destruct (trim_space_keep (fatalCursorPrefix +:+ errorCode) colon t colon_visible) as [r ->]; [done|].
  rewrite append_assoc, trim_prefix_append, cut_append by done. cbn. rewrite Htrim.
  by apply String.eqb_neq in Hne as ->.
Qed.
End marker.

Lemma fatal_marker_roundtrip_witness :
  plain_code "FutureCursor" ∧
  FatalCursorCode (Some (formatFatalCursorLastError "FutureCursor" "FutureCursor: cursor 12 is ahead of 10")) = "FutureCursor" ∧
  formatFatalCursorLastError "FutureCursor" "FutureCursor: cursor 12 is ahead of 10"
    = "FATAL_CURSOR FutureCursor: cursor 12 is ahead of 10".
Proof.
  split; [|split].
  - split_and!; try by vm_compute. apply leb_complete. by vm_compute.
  - eapply (fatal_marker_roundtrip (H := example_env SQLite)). split_and!; try by vm_compute.
    apply leb_complete. by vm_compute.
  - by vm_compute.
Defined.
