(* ===== verification/LabelProps.v ===== *)
(** * Label ingestion

    An event's labels are stored with its cursor or not at all; over any history of
    operations labels are only added, cursors only move forward, a subscription that is
    not stopped by a fatal marker has a cursor no label is ahead of, and a fatal marker
    stays. *)
From S2P Require Import Prelude GoStrings Json GoTime Effects Database Like RecordStore RecordProps DeleteProps Filters LabelFilters Labels LabelText.

Lemma of_outcome_ok_inv {S A} (o : outcome A) (s : S) fs a s' fs' :
  of_outcome o s fs = (Ok a, s', fs') → o = Ok a ∧ s' = s ∧ fs' = fs.
Proof. unfold of_outcome. naive_solver. Qed.

Section ingest.
Context `{Env}.
Implicit Types (d : db) (fs : faults) (url : string) (seq : Z) (l : ExternalLabelInput) (s : label_state).

(** What label ingestion leaves alone. *)
Definition label_frame d d' : Prop :=
  db_records d' = db_records d ∧ db_versions d' = db_versions d ∧ db_next_version d' = db_next_version d ∧
  db_actors d' = db_actors d ∧ db_activity d' = db_activity d ∧ db_next_activity d' = db_next_activity d ∧
  db_clock d' = db_clock d.

#[export] Instance label_frame_preorder : PreOrder label_frame.
Proof. unfold label_frame. split; [intros d|intros d1 d2 d3]; naive_solver congruence. Qed.

Definition label_key (r : label_row) : string * Z * Z := (lb_subscription_url r, lb_seq r, lb_label_index r).

(** The indexes stored for an event. *)
Definition stored_indexes url seq d : list Z :=
  lb_label_index <$> filter (λ r, lb_subscription_url r = url ∧ lb_seq r = seq) (db_labels d).

(** The labels of an event that are not stored yet: of each index the first. *)
Fixpoint new_labels (seen : list Z) (ls : list ExternalLabelInput) : list ExternalLabelInput :=
  match ls with
  | [] => []
  | l :: ls' =>
      if bool_decide (li_LabelIndex l ∈ seen) then new_labels seen ls'
      else l :: new_labels (li_LabelIndex l :: seen) ls'
  end.

Lemma new_labels_ext seen seen' ls : (∀ i, i ∈ seen ↔ i ∈ seen') → new_labels seen ls = new_labels seen' ls.
Proof.
  revert seen seen'. induction ls as [|l ls IH]; intros seen seen' Hs; [done|]. cbn.
  rewrite (bool_decide_ext _ _ (Hs _)). case_bool_decide; [by auto|]. f_equal. apply IH. set_solver.
Qed.

(** The row stored for a label. *)
Definition stores (now : Z) url seq l (r : label_row) : Prop :=
  ∃ raw, store_raw_json (nullableNonEmptyText (li_RawJSON l)) = Ok raw ∧ r = label_of url seq l raw now (lb_id r).

(** Ids grow in the order of insertion, below the next one. *)
Definition ids_ok d : Prop :=
  increasing lb_id Z.lt (db_labels d) ∧ Forall (λ r, (lb_id r < db_next_label d)%Z) (db_labels d).

Lemma has_label_key_true url seq i d :
  has_label_key url seq i (db_labels d) = true ↔ i ∈ stored_indexes url seq d.
Proof.
  unfold has_label_key, stored_indexes. rewrite existsb_exists, list_elem_of_fmap. split.
  - intros (r & Hr & [[Hu Hs]%andb_prop Hi]%andb_prop). exists r.
    apply String.eqb_eq in Hu. apply Z.eqb_eq in Hs, Hi. split; [done|].
    apply list_elem_of_filter. split; [done|]. by apply list_elem_of_In.
  - intros (r & -> & [[<- <-] Hr]%list_elem_of_filter). exists r. split; [by apply list_elem_of_In|].
    by rewrite String.eqb_refl, !Z.eqb_refl.
Qed.

(** One label: added if its index is new, left out otherwise. *)
Lemma insert_label_spec url seq l d fs d' fs' :
  insertExternalLabelTx url seq l d fs = (Ok tt, d', fs') →
  label_frame d d' ∧ db_label_states d' = db_label_states d ∧ (ids_ok d → ids_ok d') ∧
  if bool_decide (li_LabelIndex l ∈ stored_indexes url seq d) then db_labels d' = db_labels d
  else ∃ r, stores (db_clock d) url seq l r ∧ db_labels d' = db_labels d ++ [r].
Proof.
  unfold insertExternalLabelTx. intros (o & E & Ho)%wrap_inv. symmetry in Ho. apply wrap_err_inv in Ho as ->.
  apply stmt_ok_inv in E. unfold mbind, outcome_bind in E.
  destruct (store_raw_json _) as [raw|] eqn:Eraw; [|done]. injection E as <-.
  unfold insert_label. cbn [lb_subscription_url lb_seq lb_label_index label_of].
  destruct (has_label_key url seq (li_LabelIndex l) (db_labels d)) eqn:Ekey.
  - apply has_label_key_true in Ekey. rewrite bool_decide_true by done.
    destruct dialect; (split_and!; [repeat split..| |]); try done.
    intros [Hinc Hall]. split; [done|]. eapply Forall_impl; [done|]. cbn. lia.
  - rewrite bool_decide_false by (rewrite <- has_label_key_true; by rewrite Ekey).
    split_and!; [repeat split..| |].
    + intros [Hinc Hall]. split; cbn.
      * apply increasing_snoc; [done|]. eapply Forall_impl; [done|]. cbn. lia.
      * apply Forall_app. split; [|by constructor; [cbn; lia|]]. eapply Forall_impl; [done|]. cbn. lia.
    + eexists. split; [|done]. by exists raw.
Qed.

(** The whole batch. *)
Lemma insert_labels_spec url seq ls d fs d' fs' :
  for_each (insertExternalLabelTx url seq) ls d fs = (Ok tt, d', fs') →
  label_frame d d' ∧ db_label_states d' = db_label_states d ∧ (ids_ok d → ids_ok d') ∧
  ∃ rs, db_labels d' = db_labels d ++ rs ∧
    Forall2 (stores (db_clock d) url seq) (new_labels (stored_indexes url seq d) ls) rs.
Proof.
  revert d fs. induction ls as [|l ls IH]; intros d fs E.
  - injection E as <- <-. split_and!; try done. exists []. by rewrite app_nil_r.
  - cbn [for_each] in E. apply bind_ok_inv in E as ([] & d1 & fs1 & E1 & E2).
    apply insert_label_spec in E1 as (Hfr1 & Hst1 & Hids1 & Hrow).
    apply IH in E2 as (Hfr2 & Hst2 & Hids2 & rs & Hrs & Hall).
    split_and!; [by etrans|by rewrite Hst2|by auto|].
    assert (Hclock : db_clock d1 = db_clock d) by apply Hfr1. rewrite Hclock in Hall.
    cbn [new_labels]. case_bool_decide as Hin.
    + exists rs. rewrite Hrow in Hrs. split; [done|].
      assert (stored_indexes url seq d1 = stored_indexes url seq d) as Heq by (unfold stored_indexes; by rewrite Hrow).
      by rewrite Heq in Hall.
    + destruct Hrow as (r & Hr & Hlab). exists (r :: rs). split; [by rewrite Hrs, Hlab, <- app_assoc|].
      constructor; [done|]. erewrite new_labels_ext; [done|]. intros i. unfold stored_indexes.
      rewrite Hlab, filter_app, fmap_app, elem_of_app. destruct Hr as (raw & _ & Hr).
      rewrite filter_cons_True by (by rewrite Hr). cbn. rewrite Hr at 1. cbn. set_solver.
Qed.

(** ** One event *)

(** The state of a subscription an event with cursor [seq] leaves. *)
Definition after_event url seq d : gmap string label_state :=
  let s := default (new_state (db_clock d)) (db_label_states d !! url) in
  <[url := if not_fatal s then advance (db_clock d) seq s else s]> (db_label_states d).

Lemma update_ensured url f d :
  db_label_states (update_state url not_fatal f (ensure_state url d))
  = let s := default (new_state (db_clock d)) (db_label_states d !! url) in
    <[url := if not_fatal s then f s else s]> (db_label_states d).
Proof.
  unfold update_state, ensure_state, set_label_states. cbn.
  apply map_eq. intros u. destruct (decide (u = url)) as [->|Hne].
  - rewrite lookup_alter_eq, lookup_insert_eq. destruct (db_label_states d !! url) as [s|] eqn:E; cbn.
    + by rewrite E.
    + by rewrite lookup_insert_eq.
  - rewrite lookup_alter_ne, lookup_insert_ne by done. destruct (db_label_states d !! url); [done|].
    by rewrite lookup_insert_ne.
Qed.

Lemma ensure_frame url d :
  label_frame d (ensure_state url d) ∧ db_labels (ensure_state url d) = db_labels d ∧
  db_next_label (ensure_state url d) = db_next_label d.
Proof. repeat split. Qed.

Definition event_ok url seq ls : Prop :=
  blank url = false ∧ (0 <= seq)%Z ∧ validateExternalLabelInputs ls = Ok tt.

Lemma validate_event url seq :
  validateSubscriptionURL url = Ok tt → validate_seq seq = Ok tt → blank url = false ∧ (0 <= seq)%Z.
Proof.
  unfold validateSubscriptionURL, validate_seq. destruct (blank url); [done|].
  destruct (Z.ltb_spec seq 0); [done|]. done.
Qed.

Lemma persist_event_ok url seq ls d fs d' fs' :
  PersistEvent url seq ls d fs = (Ok tt, d', fs') →
  event_ok url seq ls ∧ label_frame d d' ∧ (ids_ok d → ids_ok d') ∧
  db_label_states d' = after_event url seq d ∧
  ∃ rs, db_labels d' = db_labels d ++ rs ∧
    Forall2 (stores (db_clock d) url seq) (new_labels (stored_indexes url seq d) ls) rs.
Proof.
  intros E. unfold PersistEvent in E.
  apply bind_ok_inv in E as ([] & d1 & fs1 & (Hu & -> & ->)%of_outcome_ok_inv & E).
  apply bind_ok_inv in E as ([] & d1 & fs1 & (Hs & -> & ->)%of_outcome_ok_inv & E).
  apply bind_ok_inv in E as ([] & d1 & fs1 & (Hl & -> & ->)%of_outcome_ok_inv & E).
  destruct (validate_event _ _ Hu Hs). apply transaction_ok in E as [fs2 E].
  apply bind_ok_inv in E as ([] & d1 & fs3 & ->%wrap_exec_ok & E).
  apply bind_ok_inv in E as ([] & d2 & fs4 & (Hfr & Hst & Hids & rs & Hrs & Hall)%insert_labels_spec & E).
  apply wrap_exec_ok in E as ->.
  assert (Hclock : db_clock d2 = db_clock d) by apply Hfr.
  split; [done|]. split; [apply Hfr|]. split; [intros Hd; by apply Hids|]. split; [|by exists rs].
  unfold after_event. rewrite <- update_ensured. unfold update_state, set_label_states. cbn. by rewrite Hst, Hclock.
Qed.

(** A delivery whose indexes are all stored adds nothing. *)
Lemma new_labels_stored seen ls :
  Forall (λ l, li_LabelIndex l ∈ seen) ls → new_labels seen ls = [].
Proof. induction 1 as [|l ls Hl Hls IH]; [done|]. cbn. by rewrite bool_decide_true. Qed.

Lemma new_labels_cover seen ls l : l ∈ ls → li_LabelIndex l ∈ seen ∨ li_LabelIndex l ∈ li_LabelIndex <$> new_labels seen ls.
Proof.
  revert seen. induction ls as [|l' ls IH]; intros seen; [by intros ?%not_elem_of_nil|].
  rewrite elem_of_cons. cbn. intros [->|Hl].
  - case_bool_decide; [by left|]. right. cbn. by left.
  - case_bool_decide; [by apply IH|]. destruct (IH (li_LabelIndex l' :: seen) Hl) as [[->|?]%elem_of_cons|]; cbn; set_solver.
Qed.

Lemma event_indexes url seq ls d d' rs :
  db_labels d' = db_labels d ++ rs →
  Forall2 (stores (db_clock d) url seq) (new_labels (stored_indexes url seq d) ls) rs →
  Forall (λ l, li_LabelIndex l ∈ stored_indexes url seq d') ls.
Proof.
  intros Hrs Hall. apply Forall_forall. intros l Hl.
  unfold stored_indexes at 1. rewrite Hrs, filter_app, fmap_app, elem_of_app.
  destruct (new_labels_cover (stored_indexes url seq d) ls l Hl) as [|Hin]; [by left|right].
  revert Hin. generalize (new_labels (stored_indexes url seq d) ls) rs Hall. clear.
  induction 1 as [|l' r ls rs (raw & _ & Hr) Hall IH]; [done|].
  rewrite filter_cons_True by (by rewrite Hr). cbn. rewrite !elem_of_cons, Hr at 1. cbn. naive_solver.
Qed.

Lemma persist_event_err url seq ls d fs e d' fs' :
  PersistEvent url seq ls d fs = (Err e, d', fs') → d' = d.
Proof.
  unfold PersistEvent, mbind, M_bind, of_outcome. intros E. repeat case_match; simplify_eq; try done.
  by apply transaction_err in E.
Qed.

(** The labels' JSON is storable: any text on SQLite, JSON on PostgreSQL. *)
Definition storable ls : Prop := Forall (λ l, is_ok (store_raw_json (nullableNonEmptyText (li_RawJSON l))) = true) ls.

Lemma insert_labels_run url seq ls d :
  storable ls → ∃ d', for_each (insertExternalLabelTx url seq) ls d [] = (Ok tt, d', []).
Proof.
  intros Hls. revert d. induction Hls as [|l ls Hl Hls IH]; intros d; [by exists d|]. cbn [for_each].
  unfold mbind, M_bind, insertExternalLabelTx at 1, wrap, stmt. unfold mbind, outcome_bind.
  destruct (store_raw_json _) as [raw|] eqn:Eraw; [|done]. cbn. apply IH.
Qed.

Lemma persist_event_run url seq ls d :
  event_ok url seq ls → storable ls → ∃ d', PersistEvent url seq ls d [] = (Ok tt, d', []).
Proof.
  intros (Hu & Hs & Hl) Hls. unfold PersistEvent, mbind, M_bind, of_outcome.
  unfold validateSubscriptionURL. rewrite Hu. unfold validate_seq.
  rewrite (proj2 (Z.ltb_ge _ _)), Hl by done. unfold transaction. cbn.
  destruct (insert_labels_run url seq ls (ensure_state url d) Hls) as [d' ->]. by eexists.
Qed.

(** C29. A well-formed event is stored when no statement fails, and storing one is all or
    nothing. When it fails, nothing has changed. When it
    succeeds the event was well formed; of each label index not stored before, exactly the
    first label of the event has been added; the cursor of the subscription is the larger of
    the old one and the event's, unless the subscription is stopped by a fatal marker; and
    nothing else has changed. Delivering the event again, at any later time, adds no label
    and does not move the cursor. *)
Theorem PersistEvent_atomic url seq ls d fs :
  (event_ok url seq ls → storable ls → (run (PersistEvent url seq ls) d).1 = Ok tt) ∧
  match PersistEvent url seq ls d fs with
  | (Err _, d', _) => d' = d
  | (Ok _, d', _) =>
      event_ok url seq ls ∧ label_frame d d' ∧
      (∃ rs, db_labels d' = db_labels d ++ rs ∧
        Forall2 (stores (db_clock d) url seq) (new_labels (stored_indexes url seq d) ls) rs) ∧
      db_label_states d' = after_event url seq d ∧
      ∀ now fs2 d2 fs3, PersistEvent url seq ls (at_time now d') fs2 = (Ok tt, d2, fs3) →
        db_labels d2 = db_labels d' ∧
        ls_last_seq <$> db_label_states d2 !! url = ls_last_seq <$> db_label_states d' !! url
  end.
Proof.
  split.
  { intros Hev Hls. unfold run. by destruct (persist_event_run url seq ls d Hev Hls) as [d' ->]. }
  destruct (PersistEvent url seq ls d fs) as [[[[]|e] d'] fs'] eqn:E; [|by eapply persist_event_err].
  apply persist_event_ok in E as (Hev & Hfr & _ & Hst & rs & Hrs & Hall).
  split; [done|]. split; [done|]. split; [by exists rs|]. split; [done|].
  intros now fs2 d2 fs3 (_ & _ & _ & Hst2 & rs2 & Hrs2 & Hall2)%persist_event_ok.
  pose proof (event_indexes _ _ _ _ _ _ Hrs Hall) as Hseen.
  rewrite (new_labels_stored (stored_indexes url seq (at_time now d')) ls) in Hall2 by apply Hseen.
  inv Hall2. rewrite app_nil_r in Hrs2. split; [done|].
  rewrite Hst2. unfold after_event. cbn. rewrite lookup_insert_eq, Hst. unfold after_event. rewrite lookup_insert_eq. cbn.
  f_equal. destruct (not_fatal (default _ _)) eqn:Hnf; [|by rewrite Hnf].
  cbn. unfold advance. destruct (Z.ltb_spec (ls_last_seq (default (new_state (db_clock d)) (db_label_states d !! url))) seq); cbn.
  - by rewrite Z.ltb_irrefl.
  - by rewrite (proj2 (Z.ltb_ge _ _)).
Qed.

(** ** Histories *)

Inductive label_op :=
  | OpEnsure (url : string)
  | OpConnected (url : string)
  | OpError (url text : string)
  | OpFatal (url code text : string)
  | OpEvent (url : string) (seq : Z) (ls : list ExternalLabelInput)
  | OpCursor (url : string) (seq : Z).

Definition run_label_op (op : label_op) : M db unit :=
  match op with
  | OpEnsure url => EnsureState url ;; mret tt
  | OpConnected url => UpdateConnected url
  | OpError url text => UpdateError url text
  | OpFatal url code text => MarkFatalCursor url code text
  | OpEvent url seq ls => PersistEvent url seq ls
  | OpCursor url seq => UpdateLastSeq url seq
  end.

(** An operation at some time under some faults. *)
Definition label_step d (op : label_op) d' : Prop :=
  ∃ now fs o fs', run_label_op op (at_time now d) fs = (o, d', fs').

(** What no operation may do to a subscription: lose it, move its cursor back, or lift a
    fatal marker or move the cursor behind it. *)
Definition state_forward s s' : Prop :=
  (ls_last_seq s <= ls_last_seq s')%Z ∧
  (not_fatal s = false → not_fatal s' = false ∧ ls_last_seq s' = ls_last_seq s).

#[export] Instance state_forward_preorder : PreOrder state_forward.
Proof.
  unfold state_forward. split; [intros s; split; [lia|done]|]. intros s1 s2 s3 [H1 F1] [H2 F2].
  split; [lia|]. intros Hf. destruct (F1 Hf) as [Hf2 E2]. destruct (F2 Hf2). split; [done|congruence].
Qed.

Definition states_forward (m m' : gmap string label_state) : Prop :=
  ∀ url s, m !! url = Some s → ∃ s', m' !! url = Some s' ∧ state_forward s s'.

#[export] Instance states_forward_preorder : PreOrder states_forward.
Proof.
  split; [intros m url s Hs; by exists s|]. intros m1 m2 m3 H12 H23 url s Hs.
  destruct (H12 url s Hs) as (s' & Hs' & ?). destruct (H23 url s' Hs') as (s'' & ? & ?).
  exists s''. split; [done|]. by etrans.
Qed.

Definition label_covered d (r : label_row) : Prop :=
  ∃ s, db_label_states d !! lb_subscription_url r = Some s ∧
    (not_fatal s = true → (lb_seq r <= ls_last_seq s)%Z).

Record labels_ok d : Prop := {
  lo_ids : ids_ok d;
  lo_keys : NoDup (label_key <$> db_labels d);
  lo_covered : Forall (label_covered d) (db_labels d);
  lo_cursors : map_Forall (λ _ s, (0 <= ls_last_seq s)%Z) (db_label_states d);
}.

(** Changing states forward keeps the invariant. *)
Lemma labels_ok_states d d' :
  labels_ok d → db_labels d' = db_labels d → db_next_label d' = db_next_label d →
  states_forward (db_label_states d) (db_label_states d') →
  map_Forall (λ _ s, (0 <= ls_last_seq s)%Z) (db_label_states d') → labels_ok d'.
Proof.
  intros [Hids Hkeys Hcov Hcur] Hl Hn Hst Hcur'. split; [|by rewrite Hl| |done].
  - unfold ids_ok in *. by rewrite Hl, Hn.
  - rewrite Hl. eapply Forall_impl; [done|]. intros r (s & Hs & Hr).
    destruct (Hst _ _ Hs) as (s' & Hs' & Hle & Hfat). exists s'. split; [done|]. intros Hnf.
    destruct (not_fatal s) eqn:E; [specialize (Hr eq_refl); lia|].
    destruct (Hfat eq_refl) as [Hf _]. congruence.
Qed.

(** From [d0] on: the invariant holds, labels were only added, states only moved forward. *)
Definition history d0 d : Prop :=
  labels_ok d ∧ (∃ rs, db_labels d = db_labels d0 ++ rs) ∧ states_forward (db_label_states d0) (db_label_states d).

Lemma history_states d0 d d' :
  history d0 d → db_labels d' = db_labels d → db_next_label d' = db_next_label d →
  states_forward (db_label_states d) (db_label_states d') →
  map_Forall (λ _ s, (0 <= ls_last_seq s)%Z) (db_label_states d') → history d0 d'.
Proof.
  intros (Hok & Hl & Hst) El En Hfw Hcur. split; [by eapply labels_ok_states|].
  split; [by rewrite El|]. by etrans.
Qed.

Lemma ensure_forward url d : states_forward (db_label_states d) (db_label_states (ensure_state url d)).
Proof.
  intros u s Hs. exists s. split; [|done]. unfold ensure_state, set_label_states. cbn.
  destruct (db_label_states d !! url) eqn:E; [done|]. rewrite lookup_insert_ne; congruence.
Qed.

Lemma ensure_cursors url d :
  map_Forall (λ _ s, (0 <= ls_last_seq s)%Z) (db_label_states d) →
  map_Forall (λ _ s, (0 <= ls_last_seq s)%Z) (db_label_states (ensure_state url d)).
Proof.
  intros Hm. unfold ensure_state, set_label_states. cbn. destruct (db_label_states d !! url); [done|].
  apply map_Forall_insert_2; [cbn; lia|done].
Qed.

Lemma preserves_ensure d0 url : Preserves (history d0) (exec (ensure_state url)).
Proof.
  apply preserves_exec. intros d Hd. eapply history_states; try done; [apply ensure_forward|].
  apply ensure_cursors, Hd.
Qed.

Lemma preserves_update d0 url cond (f : db → label_state → label_state) :
  (∀ d s, cond s = true → state_forward s (f d s)) →
  Preserves (history d0) (exec (λ d, update_state url cond (f d) d)).
Proof.
  intros Hf. apply preserves_exec. intros d Hd.
  assert (Hfw : ∀ s, state_forward s (if cond s then f d s else s)).
  { intros s. destruct (cond s) eqn:E; [by apply Hf|done]. }
  eapply history_states; try done.
  - intros u s Hs. unfold update_state, set_label_states. cbn. destruct (decide (u = url)) as [->|Hne].
    + rewrite lookup_alter_eq, Hs. by eexists.
    + rewrite lookup_alter_ne by done. by exists s.
  - intros u s. unfold update_state, set_label_states. cbn. destruct Hd as [[_ _ _ Hcur] _].
    destruct (decide (u = url)) as [->|Hne].
    + rewrite lookup_alter_eq. intros (s0 & Hs0 & ->)%fmap_Some. specialize (Hcur _ _ Hs0). cbn in Hcur.
      destruct (Hfw s0). lia.
    + rewrite lookup_alter_ne by done. apply Hcur.
Qed.

Lemma preserves_GetState d0 url : Preserves (history d0) (GetState url).
Proof. apply preserves_stmt. intros d a d' Hd. destruct (_ !! url); by intros [= <- <-]. Qed.

Lemma preserves_EnsureState d0 url : Preserves (history d0) (EnsureState url).
Proof.
  apply preserves_bind; [apply preserves_of_outcome|intros _].
  apply preserves_bind; [apply preserves_ensure|intros _]. apply preserves_GetState.
Qed.

Lemma not_fatal_forward s s' :
  not_fatal s = true → (ls_last_seq s <= ls_last_seq s')%Z → state_forward s s'.
Proof. intros Hs Hle. split; [done|]. by rewrite Hs. Qed.

Lemma advance_le now seq s : (ls_last_seq s <= ls_last_seq (advance now seq s))%Z ∧ (seq <= ls_last_seq (advance now seq s))%Z.
Proof. unfold advance. cbn. destruct (Z.ltb_spec (ls_last_seq s) seq); lia. Qed.

(** ** Events keep the invariant *)

Lemma new_labels_fresh seen ls :
  NoDup (li_LabelIndex <$> new_labels seen ls) ∧ Forall (λ l, li_LabelIndex l ∉ seen) (new_labels seen ls).
Proof.
  revert seen. induction ls as [|l ls IH]; intros seen; [split; constructor|]. cbn. case_bool_decide as Hin; [apply IH|].
  destruct (IH (li_LabelIndex l :: seen)) as [Hnd Hall]. cbn. split.
  - constructor; [|done]. intros (l' & Heq & Hl')%list_elem_of_fmap. rewrite Forall_forall in Hall.
    apply (Hall _ Hl'). rewrite Heq. by left.
  - constructor; [done|]. eapply Forall_impl; [done|]. cbn. set_solver.
Qed.

Lemma stores_keys now url seq ls rs :
  Forall2 (stores now url seq) ls rs → label_key <$> rs = (λ l, (url, seq, li_LabelIndex l)) <$> ls.
Proof. induction 1 as [|l r ls rs (raw & _ & Hr) Hall IH]; [done|]. cbn. rewrite IH. f_equal. by rewrite Hr. Qed.

Lemma event_keys url seq ls d rs :
  NoDup (label_key <$> db_labels d) →
  Forall2 (stores (db_clock d) url seq) (new_labels (stored_indexes url seq d) ls) rs →
  NoDup (label_key <$> (db_labels d ++ rs)).
Proof.
  intros Hnd Hall. rewrite fmap_app, (stores_keys _ _ _ _ _ Hall).
  destruct (new_labels_fresh (stored_indexes url seq d) ls) as [Hnew Hfresh].
  apply NoDup_app. split_and!; [done| |].
  - intros k (r & -> & Hr)%list_elem_of_fmap (l & Heq & Hl)%list_elem_of_fmap.
    rewrite Forall_forall in Hfresh. apply (Hfresh l Hl). unfold label_key in Heq. injection Heq as Hu Hs Hi.
    rewrite <- Hi. apply list_elem_of_fmap_2. by apply list_elem_of_filter.
  - revert Hnew. generalize (new_labels (stored_indexes url seq d) ls). clear. intros ls.
    induction ls as [|l ls IH]; [constructor|]. cbn. intros [Hl Hnd]%NoDup_cons. constructor; [|by apply IH].
    intros (l' & Heq & Hl')%list_elem_of_fmap. apply Hl. injection Heq as ->. by apply list_elem_of_fmap_2.
Qed.

Lemma after_event_forward url seq d :
  states_forward (db_label_states d) (after_event url seq d).
Proof.
  intros u s Hs. unfold after_event. destruct (decide (u = url)) as [->|Hne].
  - rewrite lookup_insert_eq, Hs. eexists. split; [done|]. cbn.
    destruct (not_fatal s) eqn:E; [|done]. apply not_fatal_forward; [done|]. apply advance_le.
  - rewrite lookup_insert_ne by done. by exists s.
Qed.

Lemma after_event_cursors url seq d :
  map_Forall (λ _ s, (0 <= ls_last_seq s)%Z) (db_label_states d) →
  map_Forall (λ _ s, (0 <= ls_last_seq s)%Z) (after_event url seq d).
Proof.
  intros Hm. apply map_Forall_insert_2; [|done].
  assert (0 <= ls_last_seq (default (new_state (db_clock d)) (db_label_states d !! url)))%Z.
  { destruct (db_label_states d !! url) eqn:E; [by apply (Hm _ _ E)|cbn; lia]. }
  destruct (not_fatal _); [|done]. etrans; [done|]. apply advance_le.
Qed.

Lemma event_covered url seq ls d d' rs :
  db_label_states d' = after_event url seq d →
  Forall2 (stores (db_clock d) url seq) ls rs → Forall (label_covered d') rs.
Proof.
  intros Hst. induction 1 as [|l r ls rs (raw & _ & Hr) Hall IH]; constructor; [|done].
  unfold label_covered. rewrite Hst, Hr. cbn. unfold after_event. rewrite lookup_insert_eq. eexists. split; [done|].
  destruct (not_fatal (default _ _)) eqn:E; [intros _; apply advance_le|congruence].
Qed.

Lemma preserves_PersistEvent d0 url seq ls : Preserves (history d0) (PersistEvent url seq ls).
Proof.
  intros d fs [[]|e] d' fs' Hd E; [|by apply persist_event_err in E as ->].
  apply persist_event_ok in E as (_ & Hfr & Hids & Hst & rs & Hrs & Hall).
  destruct Hd as (Hok & (rs0 & Hrs0) & Hfw). pose proof (after_event_forward url seq d) as Hae.
  split; [|split].
  - set (d1 := set_label_states (λ _, after_event url seq d) d).
    assert (Hok1 : labels_ok d1).
    { apply (labels_ok_states d); try done. apply after_event_cursors, Hok. }
    split.
    + apply Hids, Hok.
    + rewrite Hrs. eapply event_keys; [apply Hok|done].
    + rewrite Hrs. apply Forall_app. split; [|by eapply event_covered].
      eapply Forall_impl; [apply (lo_covered _ Hok1)|]. intros r. unfold label_covered. by rewrite Hst.
    + rewrite Hst. apply after_event_cursors, Hok.
  - exists (rs0 ++ rs). by rewrite Hrs, Hrs0, app_assoc.
  - rewrite Hst. by etrans.
Qed.

Lemma preserves_label_op d0 op : Preserves (history d0) (run_label_op op).
Proof.
  destruct op; cbn [run_label_op].
  - apply preserves_bind; [apply preserves_EnsureState|intros; apply preserves_ret].
  - apply preserves_bind; [apply preserves_EnsureState|intros _]. apply (preserves_update d0 url not_fatal
      (λ d s, mkLabelState (ls_labeler_did s) (ls_last_seq s) (Some (db_clock d)) (ls_last_event_at s) None (ls_created_at s) (db_clock d))).
    intros d s Hs. by apply not_fatal_forward.
  - apply preserves_bind; [apply preserves_EnsureState|intros _]. apply (preserves_update d0 url not_fatal
      (λ d s, mkLabelState (ls_labeler_did s) (ls_last_seq s) (ls_last_connected_at s) (ls_last_event_at s)
        (Some (normalizeLastError text)) (ls_created_at s) (db_clock d))).
    intros d s Hs. by apply not_fatal_forward.
  - apply preserves_bind; [apply preserves_EnsureState|intros _]. apply (preserves_update d0 url (λ _, true)
      (λ d s, mkLabelState (ls_labeler_did s) (ls_last_seq s) (ls_last_connected_at s) (ls_last_event_at s)
        (Some (formatFatalCursorLastError code text)) (ls_created_at s) (db_clock d))).
    intros d s _. split; [done|]. intros _. split; [|done].
    unfold not_fatal. cbn. destruct (format_prefix code text) as [t ->]. by rewrite marker_like.
  - apply preserves_PersistEvent.
  - apply preserves_bind; [apply preserves_of_outcome|intros _]. apply preserves_bind; [apply preserves_of_outcome|intros _].
    apply preserves_transaction, preserves_bind; [apply preserves_wrap, preserves_ensure|intros _].
    apply preserves_wrap, (preserves_update d0 url not_fatal (λ d, advance (db_clock d) seq)).
    intros d s Hs. apply not_fatal_forward; [done|]. apply advance_le.
Qed.

Lemma history_label_step d0 d op d' : history d0 d → label_step d op d' → history d0 d'.
Proof.
  intros ([H1 H2 H3 H4] & Hd) (now & fs & o & fs' & E).
  eapply (preserves_label_op d0 op); [|exact E]. split; [by constructor|done].
Qed.

(** Over any sequence of label operations, each at its own time and under any faults:
    ids grow in the order of insertion and a label is stored once per subscription, cursor
    and index; every label's subscription has a state and, unless it is stopped, a cursor
    at or past the label; cursors are never negative. Labels are only added; no
    subscription is lost, no cursor moves back, and a fatal marker stays and freezes its
    cursor. *)
Theorem label_history_invariant d ops d' :
  labels_ok d → star label_step d ops d' →
  labels_ok d' ∧ (∃ rs, db_labels d' = db_labels d ++ rs) ∧
  states_forward (db_label_states d) (db_label_states d').
Proof.
  intros Hd Hs. eapply (star_invariant label_step (history d)); [apply history_label_step| |done].
  split; [done|]. split; [by exists []; rewrite app_nil_r|done].
Qed.
End ingest.

(** ** Labels of subjects

    [GetBySubjects] asks for 250 subjects at a time and merges the answers; the result is
    that of one question per subject, and no batch is larger than SQLite allows. *)

(** ** Keys *)

Definition NUL : Ascii.ascii := byte 0.

Lemma index_cons_none c d s :
  String.index 0 (byte_str c) (String d s) = None → d ≠ c ∧ String.index 0 (byte_str c) s = None.
Proof.
  cbn. destruct (Ascii.ascii_dec c d) as [->|Hne]; [by destruct s|].
  destruct (String.index 0 (byte_str c) s); [done|]. intros _. split; [congruence|done].
Qed.

Lemma contains_byte c s : contains s (byte_str c) = false → no_byte c s = true.
Proof.
  unfold contains. induction s as [|d s IH]; [done|].
  destruct (String.index 0 (byte_str c) (String d s)) eqn:E; [done|].
  apply index_cons_none in E as [Hne E]. intros _. cbn. apply Ascii.eqb_neq in Hne as ->. apply IH. by rewrite E.
Qed.

Definition subject_ok (s : LabelSubject) : Prop := no_byte NUL (su_URI s) = true.

Lemma validate_string_nul name v : validateExternalLabelString name v = Ok tt → no_byte NUL v = true.
Proof.
  unfold validateExternalLabelString. destruct (blank v); [done|]. destruct (negb _); [done|].
  destruct (contains v (byte_str (byte 0))) eqn:E; [done|]. intros _. by apply contains_byte.
Qed.

Lemma validate_all_inv {A} (f : nat → A → outcome unit) i xs :
  validate_all f i xs = Ok tt → Forall (λ x, ∃ j, f j x = Ok tt) xs.
Proof.
  revert i. induction xs as [|x xs IH]; intros i; [constructor|]. cbn. unfold mbind, outcome_bind.
  destruct (f i x) as [[]|] eqn:E; [|done]. intros Hxs. constructor; eauto.
Qed.

Lemma validate_subjects_ok subjects : validate_all validate_subject 0 subjects = Ok tt → Forall subject_ok subjects.
Proof.
  intros Hv%validate_all_inv. eapply Forall_impl; [done|]. intros s (j & Hj). unfold validate_subject in Hj.
  unfold mbind, outcome_bind in Hj. destruct (validateExternalLabelString _ (su_URI s)) as [[]|] eqn:E; [|done].
  by apply validate_string_nul in E.
Qed.

(** Subjects without NUL bytes in their URI have the same key only when they are equal. *)
Lemma key_inj s t : subject_ok s → subject_ok t → Key s = Key t → s = t.
Proof.
  unfold subject_ok, Key. destruct s as [u c], t as [u' c']. cbn. intros Hu Hu'.
  destruct (String.eqb_spec c "") as [->|], (String.eqb_spec c' "") as [->|]; intros Heq.
  - by subst.
  - exfalso. rewrite Heq in Hu. clear -Hu. induction u' as [|d u' IH]; [done|].
    rewrite append_cons in Hu. cbn in Hu. by apply andb_prop in Hu as [_ ?%IH].
  - exfalso. rewrite <- Heq in Hu'. clear -Hu'. induction u as [|d u IH]; [done|].
    rewrite append_cons in Hu'. cbn in Hu'. by apply andb_prop in Hu' as [_ ?%IH].
  - change (u +:+ String NUL c = u' +:+ String NUL c') in Heq.
    pose proof (cut_append NUL u c Hu) as H1. rewrite Heq, cut_append in H1 by done.
    by injection H1 as -> ->.
Qed.

(** ** Removing duplicates *)

Lemma dedup_subjects_keys seen subjects :
  NoDup (Key <$> dedup_subjects seen subjects) ∧ Forall (λ s, Key s ∉ seen) (dedup_subjects seen subjects).
Proof.
  revert seen. induction subjects as [|s subjects IH]; intros seen; [split; constructor|]. cbn. case_bool_decide as Hin; [apply IH|].
  destruct (IH (Key s :: seen)) as [Hnd Hall]. cbn. split.
  - constructor; [|done]. intros (t & Heq & Ht)%list_elem_of_fmap. rewrite Forall_forall in Hall.
    apply (Hall _ Ht). rewrite Heq. by left.
  - constructor; [done|]. eapply Forall_impl; [done|]. cbn. set_solver.
Qed.

Lemma dedup_subjects_sub seen subjects s : s ∈ dedup_subjects seen subjects → s ∈ subjects.
Proof.
  revert seen. induction subjects as [|t subjects IH]; intros seen; [done|]. cbn. case_bool_decide.
  - intros ?%IH. by right.
  - intros [->|?%IH]%elem_of_cons; [by left|by right].
Qed.

Lemma dedup_subjects_cover seen subjects s :
  s ∈ subjects → Key s ∈ seen ∨ ∃ t, t ∈ dedup_subjects seen subjects ∧ Key t = Key s.
Proof.
  revert seen. induction subjects as [|t subjects IH]; intros seen; [by intros ?%not_elem_of_nil|].
  rewrite elem_of_cons. cbn. intros [->|Hs].
  - case_bool_decide; [by left|]. right. exists t. split; [by left|done].
  - case_bool_decide; [by apply IH|]. destruct (IH (Key t :: seen) Hs) as [[->|?]%elem_of_cons|(t' & ? & ?)].
    + right. exists t. split; [by left|done].
    + by left.
    + right. exists t'. split; [by right|done].
Qed.

Section reads.
Context `{Env} `{SqlFunctions}.
Implicit Types (d : db) (f : ExternalLabelFilter) (m : gmap string (list label_row)).

(** ** One batch *)

Definition batch_map f d (subjects : list LabelSubject) m : gmap string (list label_row) :=
  foldl (λ m s, <[Key s := default [] (m !! Key s) ++ labels_of f d s]> m) m subjects.

Lemma batch_map_lookup f d subjects m k :
  NoDup (Key <$> subjects) →
  batch_map f d subjects m !! k =
    match list_find (λ s, Key s = k) subjects with
    | Some (_, s) => Some (default [] (m !! k) ++ labels_of f d s)
    | None => m !! k
    end.
Proof.
  unfold batch_map. revert m. induction subjects as [|s subjects IH]; intros m Hnd; [done|].
  rewrite fmap_cons in Hnd. apply NoDup_cons in Hnd as [Hs Hnd]. cbn [foldl list_find]. rewrite IH by done.
  destruct (decide (Key s = k)) as [<-|Hne].
  - destruct (list_find (λ t, Key t = Key s) subjects) as [[i t]|] eqn:E.
    + apply list_find_Some in E as (Hi & Hk & _). exfalso. apply Hs. rewrite <- Hk.
      apply list_elem_of_fmap_2. by eapply list_elem_of_lookup_2.
    + by rewrite lookup_insert_eq.
  - rewrite lookup_insert_ne by done. by destruct (list_find _ subjects) as [[i t]|].
Qed.

Lemma merge_labels_lookup m batch k :
  merge_labels m batch !! k =
    match batch !! k with Some ls => Some (default [] (m !! k) ++ ls) | None => m !! k end.
Proof.
  unfold merge_labels. revert k.
  apply (map_fold_weak_ind (λ r b, ∀ k, r !! k = match b !! k with Some ls => Some (default [] (m !! k) ++ ls) | None => m !! k end)).
  - intros k. by rewrite lookup_empty.
  - intros i ls b r Hi IH k. destruct (decide (k = i)) as [->|Hne].
    + rewrite !lookup_insert_eq. rewrite IH, Hi. done.
    + rewrite !lookup_insert_ne by done. apply IH.
Qed.

(** ** All batches *)

Definition filter_fits f : Prop := length (elf_Sources f) ≤ MaxINListSize ∧ length (elf_Values f) ≤ MaxINListSize.

Lemma batch_fits subjects f :
  length subjects ≤ externalLabelSubjectBatchSize → filter_fits f → batch_params subjects f ≤ SQLiteAggregateParameterLimit.
Proof. unfold batch_params, filter_fits, externalLabelSubjectBatchSize, MaxINListSize, SQLiteAggregateParameterLimit. lia. Qed.

Lemma reads_batch subjects f d :
  length subjects ≤ externalLabelSubjectBatchSize → filter_fits f →
  ReadsAs (getBySubjectsBatch subjects f) d (Ok (batch_map f d subjects ∅)).
Proof.
  intros Hlen Hf. unfold getBySubjectsBatch. case_decide as Hs; [rewrite Hs; apply reads_ret|].
  apply reads_wrap. pose proof (batch_fits subjects f Hlen Hf) as Hfit.
  intros fs. unfold stmt. rewrite (proj2 (Nat.ltb_ge _ _) Hfit), andb_false_r.
  destruct fs as [|[] fs]; eexists _, _; naive_solver.
Qed.

Lemma reads_batches batches f d m :
  Forall (λ b, length b ≤ externalLabelSubjectBatchSize) batches → filter_fits f →
  ReadsAs (get_batches batches f m) d (Ok (foldl (λ m b, merge_labels m (batch_map f d b ∅)) m batches)).
Proof.
  intros Hall Hf. revert m. induction Hall as [|b batches Hb Hall IH]; intros m; cbn [get_batches foldl]; [apply reads_ret|].
  eapply reads_bind; [by apply reads_batch| |done]. intros ? [= <-]. apply IH.
Qed.

Lemma merge_batch subjects f d m k :
  NoDup (Key <$> subjects) → merge_labels m (batch_map f d subjects ∅) !! k = batch_map f d subjects m !! k.
Proof.
  intros Hnd. rewrite merge_labels_lookup, !batch_map_lookup by done. rewrite lookup_empty.
  by destruct (list_find _ subjects) as [[i s]|].
Qed.

(** Batch by batch is subject by subject. *)
Lemma merge_batches batches f d m :
  NoDup (Key <$> concat batches) →
  foldl (λ m b, merge_labels m (batch_map f d b ∅)) m batches = batch_map f d (concat batches) m.
Proof.
  revert m. induction batches as [|b batches IH]; intros m Hnd; [done|]. cbn [concat foldl] in *.
  rewrite fmap_app in Hnd. apply NoDup_app in Hnd as (Hb & _ & Hnd). rewrite IH by done.
  transitivity (batch_map f d (concat batches) (batch_map f d b m)); [|unfold batch_map; by rewrite foldl_app].
  f_equal. apply map_eq. intros k. by apply merge_batch.
Qed.

Definition no_labels (subjects : list LabelSubject) : gmap string (list label_row) :=
  foldl (λ m s, <[Key s := []]> m) ∅ subjects.

Lemma no_labels_lookup_go subjects m k :
  foldl (λ m s, <[Key s := []]> m) m subjects !! k =
  if bool_decide (k ∈ Key <$> subjects) then Some ([] : list label_row) else m !! k.
Proof.
  revert m. induction subjects as [|s subjects IH]; intros m; [done|]. cbn [foldl]. rewrite IH, fmap_cons.
  case_bool_decide as Hin.
  - rewrite bool_decide_true; [done|by right].
  - destruct (decide (k = Key s)) as [->|Hne].
    + rewrite lookup_insert_eq, bool_decide_true; [done|by left].
    + rewrite lookup_insert_ne, bool_decide_false by (rewrite ?elem_of_cons; naive_solver). done.
Qed.

Lemma subject_labels_lookup f d subjects k :
  NoDup (Key <$> subjects) →
  batch_map f d subjects (no_labels subjects) !! k = labels_of f d <$> (list_find (λ s, Key s = k) subjects ≫= λ r, Some r.2).
Proof.
  intros Hnd. rewrite batch_map_lookup by done. unfold no_labels. rewrite no_labels_lookup_go, lookup_empty.
  destruct (list_find (λ s, Key s = k) subjects) as [[i s]|] eqn:E; cbn.
  - by case_bool_decide.
  - rewrite bool_decide_false; [done|]. intros (s & -> & Hs)%list_elem_of_fmap.
    apply list_find_None in E. rewrite Forall_forall in E. by apply (E s).
Qed.

Lemma validate_filter_fits f : validateExternalLabelFilter f = Ok tt → filter_fits f.
Proof.
  unfold validateExternalLabelFilter, filter_fits. destruct (Nat.ltb_spec MaxINListSize (length (elf_Sources f))); [done|].
  unfold mbind, outcome_bind. destruct (validate_all _ 0 (elf_Sources f)) as [[]|]; [|done].
  destruct (Nat.ltb_spec MaxINListSize (length (elf_Values f))); [done|]. auto.
Qed.

(** The map [GetBySubjects] promises: for each subject its labels, and nothing else. *)
Definition answers f d (subjects : list LabelSubject) m : Prop :=
  (∀ s, s ∈ subjects → m !! Key s = Some (labels_of f d s)) ∧
  ∀ k, is_Some (m !! k) → ∃ s, s ∈ subjects ∧ k = Key s.

(** For well-formed subjects and filters, and however many subjects there are, the
    answer has for each subject the labels one question about it alone would give, newest
    first, and nothing for any other key: duplicates, CIDs of the same URI and the borders of the
    batches of 250 make no difference, and no batch exceeds the parameters SQLite allows.
    Malformed subjects or filters are refused; nothing is ever written, and under faults
    the answer is that one or an error. *)
Theorem GetBySubjects_batching subjects f d :
  ∃ out, ReadsAs (GetBySubjects subjects f) d out ∧
    match out with
    | Ok m => answers f d subjects m
    | Err _ => is_ok (normalizeLabelSubjects subjects) = false ∨ is_ok (validateExternalLabelFilter f) = false
    end.
Proof.
  unfold GetBySubjects. destruct (normalizeLabelSubjects subjects) as [ss|e] eqn:En.
  2: { exists (Err e). split; [|by left]. eapply reads_bind; [apply reads_of_outcome|done|by intros ? [= ->]]. }
  destruct (validateExternalLabelFilter f) as [[]|e] eqn:Ef.
  2: { exists (Err e). split; [|by right]. eapply reads_bind; [apply reads_of_outcome| |done].
       intros ? [= <-]. eapply reads_bind; [apply reads_of_outcome|done|by intros ? [= ->]]. }
  unfold normalizeLabelSubjects, mbind, outcome_bind in En.
  destruct (validate_all validate_subject 0 subjects) as [[]|] eqn:Ev; [|done]. injection En as <-.
  pose proof (validate_subjects_ok _ Ev) as Hok. destruct (dedup_subjects_keys [] subjects) as [Hnd _].
  set (ss := dedup_subjects [] subjects) in *. exists (Ok (batch_map f d ss (no_labels ss))). split.
  - eapply reads_bind; [apply reads_of_outcome| |done]. intros ? [= <-].
    eapply reads_bind; [apply reads_of_outcome| |done]. intros ? _.
    assert (Hc : concat (chunks externalLabelSubjectBatchSize ss) = ss) by (apply chunks_concat; unfold externalLabelSubjectBatchSize; lia).
    rewrite <- Hc at 3. rewrite <- merge_batches by by rewrite Hc.
    apply reads_batches; [apply chunks_size|by apply validate_filter_fits].
  - rewrite Forall_forall in Hok. split.
    + intros s Hs. rewrite subject_labels_lookup by done.
      destruct (dedup_subjects_cover [] subjects s Hs) as [[]%not_elem_of_nil|(t & Ht & Hk)].
      destruct (list_find (λ u, Key u = Key s) ss) as [[i u]|] eqn:E; cbn.
      * apply list_find_Some in E as (Hi & Hu & _). apply list_elem_of_lookup_2, dedup_subjects_sub in Hi.
        do 2 f_equal. apply key_inj; auto.
      * apply list_find_None in E. rewrite Forall_forall in E. by apply E in Ht.
    + intros k [ls Hk]. rewrite subject_labels_lookup in Hk by done.
      destruct (list_find (λ u, Key u = k) ss) as [[i u]|] eqn:E; [|done].
      apply list_find_Some in E as (Hi & <- & _). apply list_elem_of_lookup_2, dedup_subjects_sub in Hi. by exists u.
Qed.
End reads.

(** ** External labels on concrete inputs

    The theorems of this file applied to small databases, and what the
    fatal-marker pattern does on SQLite, where [LIKE] ignores case and [_] is a wildcard. *)

Definition label_example (index : Z) (val : string) : ExternalLabelInput :=
  mkLabelInput index "did:plc:labeler" "at://did:plc:a/app.bsky.feed.post/1" None val false
    "2024-05-01T12:00:00Z" None None (Some 1%Z) "".

Definition labeler_url : string := "wss://labeler.example".

Lemma labels_ok_empty `{Env} now : labels_ok (empty_db now).
Proof. split; cbn; [repeat constructor|constructor|constructor|apply map_Forall_empty]. Qed.

Lemma PersistEvent_atomic_witness :
  let env := example_env SQLite in
  event_ok labeler_url 7 [label_example 0 "spam"; label_example 1 "nsfw"] ∧
  storable [label_example 0 "spam"; label_example 1 "nsfw"] ∧
  (run (PersistEvent labeler_url 7 [label_example 0 "spam"; label_example 1 "nsfw"]) (empty_db 5)).1 = Ok tt.
Proof.
  cbn zeta. pose (env := example_env SQLite).
  assert (Hev : event_ok labeler_url 7 [label_example 0 "spam"; label_example 1 "nsfw"]).
  { split_and!; [by vm_compute|lia|by vm_compute]. }
  assert (Hst : storable [label_example 0 "spam"; label_example 1 "nsfw"]) by (repeat constructor).
  split_and!; [done|done|]. by apply (PersistEvent_atomic _ _ _ (empty_db 5) []).
Defined.

Definition label_ops : list label_op :=
  [OpEvent labeler_url 7 [label_example 0 "spam"]; OpError labeler_url "read timeout";
   OpEvent labeler_url 8 [label_example 0 "nsfw"]; OpFatal labeler_url "FutureCursor" "ahead"].

Definition run_ops `{Env} (ops : list label_op) (d : db) : db := foldl (λ d op, (run (run_label_op op) (at_time 5 d)).2) d ops.

Lemma run_ops_star `{Env} ops d : star label_step d ops (run_ops ops d).
Proof.
  revert d. induction ops as [|op ops IH]; intros d; [constructor|]. cbn. econstructor; [|apply IH].
  exists 5%Z, []. unfold run. destruct (run_label_op op (at_time 5 d) []) as [[o d'] fs']. by exists o, fs'.
Qed.

Lemma label_history_invariant_witness :
  let env := example_env SQLite in
  labels_ok (run_ops label_ops (empty_db 5)) ∧ length (db_labels (run_ops label_ops (empty_db 5))) = 2 ∧
  ls_last_seq <$> db_label_states (run_ops label_ops (empty_db 5)) !! labeler_url = Some 8%Z.
Proof.
  cbn zeta. pose (env := example_env SQLite). split_and!; [|by vm_compute..].
  eapply (label_history_invariant (empty_db 5) label_ops _ (labels_ok_empty 5)). apply run_ops_star.
Defined.

(** A retryable error whose text begins with the marker's letters in any case cannot be
    cleared again on SQLite: its state is not fatal, but no connection or event resets it. *)
Example retryable_error_sticks :
  let env := example_env SQLite in
  let d1 := (run (UpdateError labeler_url "fatal-cursor mismatch") (empty_db 5)).2 in
  let d2 := (run (UpdateConnected labeler_url) d1).2 in
  let d3 := (run (PersistEvent labeler_url 9 [label_example 0 "spam"]) d2).2 in
  StateStatus <$> db_label_states d3 !! labeler_url = Some "error" ∧
  ls_last_seq <$> db_label_states d3 !! labeler_url = Some 0%Z ∧ length (db_labels d3) = 1.
Proof. by vm_compute. Qed.
