(* ===== verification/Base64.v ===== *)
(** * Base64

    Go's [encoding/base64] as the cursors and tokens use it: the URL alphabet with and
    without padding. [DecodeString] skips line breaks and, not being strict, ignores the
    unused bits of the last character. Decoding undoes encoding. *)
From S2P Require Import Prelude GoStrings.

(** ** The alphabet *)

Definition b64_char (n : N) : Ascii.ascii :=
  Ascii.ascii_of_N
    (if (n <? 26)%N then 65 + n else if (n <? 52)%N then 71 + n else if (n <? 62)%N then n - 4
     else if (n =? 62)%N then 45 else 95)%N.

Definition b64_val (c : Ascii.ascii) : option N :=
  let n := byte_val c in
  if ((65 <=? n) && (n <=? 90))%N then Some (n - 65)%N
  else if ((97 <=? n) && (n <=? 122))%N then Some (n - 71)%N
  else if ((48 <=? n) && (n <=? 57))%N then Some (n + 4)%N
  else if (n =? 45)%N then Some 62%N else if (n =? 95)%N then Some 63%N else None.

Definition pad_char : Ascii.ascii := Eval cbv in Ascii.ascii_of_N 61.

(** ** Encoding *)

(** Three bytes are four groups of six bits. *)
Definition sextets (a b c : N) : N * N * N * N :=
  (a / 4, (a mod 4) * 16 + b / 16, (b mod 16) * 4 + c / 64, c mod 64)%N.

Definition octets (w x y z : N) : N * N * N :=
  (w * 4 + x / 16, (x mod 16) * 16 + y / 4, (y mod 4) * 64 + z)%N.

Definition padding (pad : bool) (n : nat) : string :=
  if pad then match n with 1 => "=" | 2 => "==" | _ => "" end else "".

Fixpoint b64_encode (pad : bool) (s : string) : string :=
  match s with
  | String a (String b (String c r)) =>
      let '(w, x, y, z) := sextets (byte_val a) (byte_val b) (byte_val c) in
      String (b64_char w) (String (b64_char x) (String (b64_char y) (String (b64_char z) (b64_encode pad r))))
  | String a (String b EmptyString) =>
      let '(w, x, y, _) := sextets (byte_val a) (byte_val b) 0 in
      String (b64_char w) (String (b64_char x) (String (b64_char y) (padding pad 1)))
  | String a EmptyString =>
      let '(w, x, _, _) := sextets (byte_val a) 0 0 in
      String (b64_char w) (String (b64_char x) (padding pad 2))
  | EmptyString => ""
  end.

(** ** Decoding *)

Fixpoint skip_newlines (s : string) : string :=
  match s with
  | EmptyString => ""
  | String c r => let n := byte_val c in
      if ((n =? 10) || (n =? 13))%N then skip_newlines r else String c (skip_newlines r)
  end.

Definition chr (n : N) : Ascii.ascii := Ascii.ascii_of_N (n mod 256).

Fixpoint b64_decode_go (pad : bool) (s : string) : option string :=
  match s with
  | EmptyString => Some ""
  | String c1 (String c2 r) =>
      w ← b64_val c1; x ← b64_val c2;
      let '(o1, _, _) := octets w x 0 0 in
      if (r =? padding pad 2)%string then Some (byte_str (chr o1))
      else match r with
      | String c3 r =>
          y ← b64_val c3;
          let '(o1, o2, _) := octets w x y 0 in
          if (r =? padding pad 1)%string then Some (String (chr o1) (byte_str (chr o2)))
          else match r with
          | String c4 r =>
              z ← b64_val c4;
              let '(o1, o2, o3) := octets w x y z in
              t ← b64_decode_go pad r; Some (String (chr o1) (String (chr o2) (String (chr o3) t)))
          | EmptyString => None
          end
      | EmptyString => None
      end
  | String _ EmptyString => None
  end.

Definition b64_decode (pad : bool) (s : string) : option string := b64_decode_go pad (skip_newlines s).

(** [base64.URLEncoding] and [base64.RawURLEncoding] *)
Definition URLEncoding : bool := true.
Definition RawURLEncoding : bool := false.

(** [base64.StdEncoding]: plus and slash where the URL alphabet has minus and underscore. *)
Fixpoint map_bytes (f : N → N) (s : string) : string :=
  match s with
  | EmptyString => ""
  | String c r => String (chr (f (byte_val c))) (map_bytes f r)
  end.
Definition std_of_url (n : N) : N := if (n =? 45)%N then 43%N else if (n =? 95)%N then 47%N else n.
Definition url_of_std (n : N) : N := if (n =? 43)%N then 45%N else if (n =? 47)%N then 95%N else if (n =? 45)%N then 43%N else if (n =? 95)%N then 47%N else n.
Definition StdEncode (s : string) : string := map_bytes std_of_url (b64_encode true s).
Definition StdDecode (s : string) : option string := b64_decode true (map_bytes url_of_std s).

(** ** Round trip *)

Lemma byte_val_lt c : (byte_val c < 256)%N.
Proof. apply Ascii.N_ascii_bounded. Qed.

Lemma chr_byte_val c : chr (byte_val c) = c.
Proof. unfold chr. rewrite N.mod_small by apply byte_val_lt. apply Ascii.ascii_N_embedding. Qed.

(** A check of the 64 characters. *)
Definition b64_char_ok (n : N) : bool :=
  bool_decide (b64_val (b64_char n) = Some n) && negb (Ascii.eqb (b64_char n) pad_char) &&
  negb ((byte_val (b64_char n) =? 10) || (byte_val (b64_char n) =? 13))%N.

Lemma b64_chars_ok n : (n < 64)%N → b64_char_ok n = true.
Proof.
  intros Hn. assert (Hall : forallb b64_char_ok (N.of_nat <$> seq 0 64) = true) by by vm_compute.
  rewrite forallb_forall in Hall. apply Hall, list_elem_of_In, list_elem_of_fmap.
  exists (N.to_nat n). split; [lia|]. apply elem_of_seq. lia.
Qed.

Lemma b64_val_char n : (n < 64)%N → b64_val (b64_char n) = Some n.
Proof. intros [[?%bool_decide_eq_true _]%andb_prop _]%b64_chars_ok%andb_prop. done. Qed.

Lemma b64_char_newline n r : (n < 64)%N → skip_newlines (String (b64_char n) r) = String (b64_char n) (skip_newlines r).
Proof. intros [_ Hn%negb_true_iff]%b64_chars_ok%andb_prop. cbn. by rewrite Hn. Qed.

Lemma b64_char_padding n r pad k : (n < 64)%N → (String (b64_char n) r =? padding pad k)%string = false.
Proof.
  intros [[_ Hp%negb_true_iff]%andb_prop _]%b64_chars_ok%andb_prop.
  destruct pad; [|done]. destruct k as [|[|[|k]]]; try done; cbn [padding]; apply String.eqb_neq;
    intros [= Heq _]; rewrite Heq in Hp; done.
Qed.

Lemma sextets_lt a b c : (a < 256)%N → (b < 256)%N → (c < 256)%N →
  let '(w, x, y, z) := sextets a b c in ((w < 64) ∧ (x < 64) ∧ (y < 64) ∧ (z < 64))%N.
Proof.
  intros Ha Hb Hc. unfold sextets.
  pose proof (N.mod_lt a 4). pose proof (N.mod_lt b 16). pose proof (N.mod_lt c 64).
  pose proof (N.Div0.div_lt_upper_bound a 4 64). pose proof (N.Div0.div_lt_upper_bound b 16 16).
  pose proof (N.Div0.div_lt_upper_bound c 64 4). lia.
Qed.

Lemma octets_sextets a b c : (b < 256)%N → (c < 256)%N →
  let '(w, x, y, z) := sextets a b c in octets w x y z = (a, b, c).
Proof.
  intros Hb Hc. unfold sextets, octets.
  pose proof (N.div_mod a 4). pose proof (N.div_mod b 16). pose proof (N.div_mod c 64).
  pose proof (N.Div0.div_lt_upper_bound b 16 16). pose proof (N.Div0.div_lt_upper_bound c 64 4).
  pose proof (N.mod_lt a 4). pose proof (N.mod_lt b 16). pose proof (N.mod_lt c 64).
  assert ((a mod 4 * 16 + b / 16) / 16 = a mod 4)%N as ->.
  { rewrite N.div_add_l by lia. rewrite (N.div_small (b / 16)) by lia. lia. }
  assert ((a mod 4 * 16 + b / 16) mod 16 = b / 16)%N as ->.
  { rewrite N.add_comm, N.Div0.mod_add. apply N.mod_small. lia. }
  assert ((b mod 16 * 4 + c / 64) / 4 = b mod 16)%N as ->.
  { rewrite N.div_add_l by lia. rewrite (N.div_small (c / 64)) by lia. lia. }
  assert ((b mod 16 * 4 + c / 64) mod 4 = c / 64)%N as ->.
  { rewrite N.add_comm, N.Div0.mod_add. apply N.mod_small. lia. }
  f_equal; [f_equal|]; lia.
Qed.

Lemma b64_encode_newlines pad s : skip_newlines (b64_encode pad s) = b64_encode pad s.
Proof.
  assert (Hgo : ∀ n s, String.length s ≤ n → skip_newlines (b64_encode pad s) = b64_encode pad s); [|by eapply Hgo].
  clear s. induction n as [|n IH]; intros s Hn; [by destruct s; [|cbn in Hn; lia]|].
  destruct s as [|a [|b [|c r]]]; cbn in Hn; [done|..].
  - pose proof (sextets_lt (byte_val a) 0 0 (byte_val_lt a) eq_refl eq_refl) as Hs. cbn [b64_encode].
    destruct (sextets _ _ _) as [[[w x] y] z]. rewrite !b64_char_newline by tauto. by destruct pad.
  - pose proof (sextets_lt (byte_val a) (byte_val b) 0 (byte_val_lt a) (byte_val_lt b) eq_refl) as Hs. cbn [b64_encode].
    destruct (sextets _ _ _) as [[[w x] y] z]. rewrite !b64_char_newline by tauto. by destruct pad.
  - pose proof (sextets_lt (byte_val a) (byte_val b) (byte_val c) (byte_val_lt a) (byte_val_lt b) (byte_val_lt c)) as Hs.
    cbn [b64_encode]. destruct (sextets _ _ _) as [[[w x] y] z]. rewrite !b64_char_newline by tauto. rewrite IH by lia. done.
Qed.

Lemma b64_decode_encode_go pad n s : String.length s ≤ n → b64_decode_go pad (b64_encode pad s) = Some s.
Proof.
  revert s. induction n as [|n IH]; intros s Hn; [by destruct s; [|cbn in Hn; lia]|].
  destruct s as [|a [|b [|c r]]]; cbn in Hn; [done|..].
  - pose proof (sextets_lt (byte_val a) 0 0 (byte_val_lt a) eq_refl eq_refl) as Hs.
    pose proof (octets_sextets (byte_val a) 0 0 eq_refl eq_refl) as Ho. cbn [b64_encode].
    assert (Hyz : (sextets (byte_val a) 0 0).1.2 = 0%N ∧ (sextets (byte_val a) 0 0).2 = 0%N) by done.
    destruct (sextets _ _ _) as [[[w x] y] z]. cbn in Hyz. destruct Hyz as [-> ->]. cbn [b64_decode_go].
    rewrite !b64_val_char by tauto. cbn [mbind option_bind]. rewrite Ho, String.eqb_refl, chr_byte_val. done.
  - pose proof (sextets_lt (byte_val a) (byte_val b) 0 (byte_val_lt a) (byte_val_lt b) eq_refl) as Hs.
    pose proof (octets_sextets (byte_val a) (byte_val b) 0 (byte_val_lt b) eq_refl) as Ho. cbn [b64_encode].
    assert (Hz : (sextets (byte_val a) (byte_val b) 0).2 = 0%N) by done.
    destruct (sextets _ _ _) as [[[w x] y] z]. cbn in Hz. subst z. cbn [b64_decode_go].
    rewrite !b64_val_char by tauto. cbn [mbind option_bind].
    destruct (octets w x 0 0) as [[o1 ?] ?]. rewrite b64_char_padding by tauto.
    cbn [mbind option_bind]. rewrite Ho, String.eqb_refl, !chr_byte_val. done.
  - pose proof (sextets_lt (byte_val a) (byte_val b) (byte_val c) (byte_val_lt a) (byte_val_lt b) (byte_val_lt c)) as Hs.
    pose proof (octets_sextets (byte_val a) (byte_val b) (byte_val c) (byte_val_lt b) (byte_val_lt c)) as Ho. cbn [b64_encode].
    destruct (sextets _ _ _) as [[[w x] y] z]. cbn [b64_decode_go].
    rewrite !b64_val_char by tauto. cbn [mbind option_bind].
    destruct (octets w x 0 0) as [[o1 ?] ?]. rewrite b64_char_padding by tauto.
    cbn [mbind option_bind].
    destruct (octets w x y 0) as [[o1' o2'] ?]. rewrite b64_char_padding by tauto.
    cbn [mbind option_bind]. rewrite Ho, IH by lia. cbn [mbind option_bind].
    by rewrite !chr_byte_val.
Qed.

Lemma b64_decode_encode pad s : b64_decode pad (b64_encode pad s) = Some s.
Proof. unfold b64_decode. rewrite b64_encode_newlines. by eapply b64_decode_encode_go. Qed.
