(* ===== verification/Cursors.v ===== *)
(** * Cursors

    src/internal/graphql/schema/builder.go [encodeCursorValues], [decodeCursorValues] and
    their two-value forms: a cursor is the JSON array of its values in URL-safe base64; a
    cursor from before that encoding is its values separated by bars. Decoding undoes
    encoding. *)
From S2P Require Import Prelude GoStrings Json GoTime LabelText Base64.

(** ** json.Marshal of strings *)

Definition hex_digit (n : N) : Ascii.ascii := byte (if (n <? 10)%N then 48 + n else 87 + n).

(** The escapes of an ASCII byte; the three characters special to HTML are escaped too. *)
Definition escape_ascii (c : Ascii.ascii) : string :=
  let n := byte_val c in
  let short e := String (byte 92) (byte_str (byte e)) in
  if ((n =? 34) || (n =? 92))%N then short n
  else if (n =? 8)%N then short 98%N
  else if (n =? 12)%N then short 102%N
  else if (n =? 10)%N then short 110%N
  else if (n =? 13)%N then short 114%N
  else if (n =? 9)%N then short 116%N
  else if ((n <? 32) || (n =? 60) || (n =? 62) || (n =? 38))%N then
    "\u00" +:+ String (hex_digit (n / 16)) (byte_str (hex_digit (n mod 16)))
  else byte_str c.

(** One step of the encoder: what it writes and how many bytes it has read. A byte that is
    not UTF-8 becomes U+FFFD; the line and paragraph separators are escaped. *)
Definition escape_step (s : string) : string * nat :=
  match s with
  | EmptyString => ("", 0)
  | String c _ =>
      if (byte_val c <? 128)%N then (escape_ascii c, 1)
      else match utf8_len s with
      | O => ("\ufffd", 1)
      | n =>
          let r := stake n s in
          if (r =? utf8_encode 8232)%string then ("\u2028", n)
          else if (r =? utf8_encode 8233)%string then ("\u2029", n)
          else (r, n)
      end
  end.

Fixpoint escape_go (fuel : nat) (s : string) : string :=
  match fuel, s with
  | O, _ | _, EmptyString => ""
  | S f, _ => (escape_step s).1 +:+ escape_go f (sdrop (escape_step s).2 s)
  end.

Definition quote_byte : Ascii.ascii := byte 34.
Definition marshal_string (s : string) : string :=
  String quote_byte (escape_go (String.length s) s +:+ byte_str quote_byte).

Definition marshal_strings (values : list string) : string :=
  "[" +:+ join "," (marshal_string <$> values) +:+ "]".

(** [json.Unmarshal] into a [[]string]: [null] is the empty string, and the nil slice. *)
Definition string_element (j : json) : option string :=
  match j with JString s => Some s | JNull => Some "" | _ => None end.
Definition unmarshal_strings (text : string) : option (list string) :=
  match json_parse text with
  | Some (JArray items) => mapM string_element items
  | Some JNull => Some []
  | _ => None
  end.

(** ** Cursors *)

Definition encodeCursorValues (values : list string) : string := b64_encode URLEncoding (marshal_strings values).

Definition bar : Ascii.ascii := byte 124.

Definition decodeCursorValues (cursor : string) : outcome (list string) :=
  match b64_decode URLEncoding cursor with
  | None => Err "invalid cursor"
  | Some data =>
      match unmarshal_strings data with
      | Some parts => Ok parts
      | None =>
          let parts := split bar data in
          if length parts <? 2 then Err "invalid cursor format" else Ok parts
      end
  end.

Definition encodeCursor (indexedAt uri : string) : string := encodeCursorValues [indexedAt; uri].

Definition decodeCursor (cursor : string) : outcome (string * string) :=
  parts ← decodeCursorValues cursor;
  match parts with
  | [a; b] => Ok (a, b)
  | _ => Err "malformed cursor: expected 'timestamp|uri'"
  end.

(** ** Round trip *)

(** The text with every byte that is not UTF-8 replaced. *)
Definition clean_step (s : string) : string * nat :=
  match utf8_len s with O => (replacement, 1) | n => (stake n s, n) end.
Fixpoint clean_go (fuel : nat) (s : string) : string :=
  match fuel, s with
  | O, _ | _, EmptyString => ""
  | S f, _ => (clean_step s).1 +:+ clean_go f (sdrop (clean_step s).2 s)
  end.
Definition clean (s : string) : string := clean_go (String.length s) s.

(** A check of the 128 bytes: an escape is read back as the byte, in one step. *)
Definition escape_ok (c : Ascii.ascii) : Prop := ∀ f w acc,
  parse_string (S f) (escape_ascii c +:+ w) acc = parse_string f w (acc +:+ byte_str c).

Lemma escape_ascii_ok c : (byte_val c <? 128)%N = true → escape_ok c.
Proof.
  intros Hc f w acc. destruct c as [[] [] [] [] [] [] [] []]; try discriminate Hc; clear Hc; reflexivity.
Qed.

Lemma escape_ascii_length c : 1 ≤ String.length (escape_ascii c).
Proof. destruct c as [[] [] [] [] [] [] [] []]; vm_compute; lia. Qed.

(** A complete character is one whatever follows. *)
Lemma utf8_len_stake s w n : utf8_len s = n → n ≠ 0 → utf8_len (stake n s +:+ w) = n ∧ String.length (stake n s) = n.
Proof.
  intros <- Hn. destruct s as [|a s]; [done|]. cbn [utf8_len] in *.
  destruct (byte_val a <? 128)%N eqn:Ea; [cbn [stake]; rewrite !append_cons; cbn [utf8_len String.length]; by rewrite Ea|].
  destruct s as [|b s]; [done|]. destruct (_ && cont (byte_val b))%N eqn:Eb; [cbn [stake]; rewrite !append_cons; cbn [utf8_len String.length]; by rewrite Ea, Eb|].
  destruct s as [|d s]; [done|]. destruct (_ && cont (byte_val d))%N eqn:Ed; [cbn [stake]; rewrite !append_cons; cbn [utf8_len String.length]; by rewrite Ea, Eb, Ed|].
  destruct s as [|e s]; [done|]. destruct (_ && cont (byte_val e))%N eqn:Ee; [|done].
  cbn [stake]; rewrite !append_cons; cbn [utf8_len String.length]. by rewrite Ea, Eb, Ed, Ee.
Qed.

Lemma parse_char s f w acc c s0 :
  s = String c s0 → (byte_val c <? 128)%N = false → utf8_len s ≠ 0 →
  parse_string (S f) (stake (utf8_len s) s +:+ w) acc = parse_string f w (acc +:+ stake (utf8_len s) s).
Proof.
  intros Hs Hc Hn. destruct (utf8_len_stake s w _ eq_refl Hn) as [Hl Hlen].
  assert (Hhd : stake (utf8_len s) s = String c (stake (utf8_len s - 1) s0)).
  { rewrite Hs at 2. destruct (utf8_len s) as [|m]; [done|]. cbn. by rewrite Nat.sub_0_r. }
  apply N.ltb_ge in Hc. rewrite Hhd at 1. rewrite append_cons. cbn [parse_string].
  replace (is_byte 34 c) with false by (symmetry; apply N.eqb_neq; lia).
  replace (byte_val c <? 32)%N with false by (symmetry; apply N.ltb_ge; lia).
  replace (is_byte 92 c) with false by (symmetry; apply N.eqb_neq; lia).
  rewrite <- append_cons, <- Hhd, Hl. destruct (utf8_len s) as [|m] eqn:E; [done|].
  revert Hlen. generalize (stake (S m) s) as r. intros r <-. by rewrite sdrop_append, stake_append_le, stake_all.
Qed.

(** One step of the encoder is one step of the parser. *)
Lemma escape_step_ok s f w acc :
  s ≠ "" →
  parse_string (S f) ((escape_step s).1 +:+ w) acc = parse_string f w (acc +:+ (clean_step s).1) ∧
  (escape_step s).2 = (clean_step s).2 ∧ 1 ≤ (clean_step s).2 ≤ String.length (escape_step s).1.
Proof.
  intros Hs. destruct s as [|c s0]; [done|]. unfold escape_step, clean_step.
  destruct (byte_val c <? 128)%N eqn:Hc.
  - assert (utf8_len (String c s0) = 1) as -> by (cbn [utf8_len]; by rewrite Hc).
    split_and!; [by apply escape_ascii_ok|done|done|apply escape_ascii_length].
  - destruct (utf8_len (String c s0)) as [|n] eqn:E; [by split_and!; [|..|cbn; lia]|].
    pose proof (parse_char (String c s0) f w acc c s0 eq_refl Hc ltac:(by rewrite E)) as Hp. rewrite E in Hp.
    destruct (utf8_len_stake (String c s0) "" _ E ltac:(done)) as [_ Hlen].
    destruct (String.eqb_spec (stake (S n) (String c s0)) (utf8_encode 8232)) as [He|_].
    { rewrite He in Hlen |- *. injection Hlen as <-. split_and!; [done..|cbn; lia|cbn; lia]. }
    destruct (String.eqb_spec (stake (S n) (String c s0)) (utf8_encode 8233)) as [He|_].
    { rewrite He in Hlen |- *. injection Hlen as <-. split_and!; [done..|cbn; lia|cbn; lia]. }
    split_and!; [exact Hp|done|cbn [snd]; lia|cbn [fst snd]; lia].
Qed.

Lemma parse_escaped n s g h f rest acc :
  String.length s ≤ n → n ≤ g → n ≤ h → n < f →
  parse_string f (escape_go g s +:+ String quote_byte rest) acc = Some (acc +:+ clean_go h s, rest).
Proof.
  revert s g h f acc. induction n as [|n IH]; intros s g h f acc Hs Hg Hh Hf.
  - destruct s; [|cbn in Hs; lia]. destruct f as [|f]; [lia|].
    assert (escape_go g "" = "" ∧ clean_go h "" = "") as [-> ->] by (by destruct g, h). by rewrite append_nil_r.
  - destruct s as [|c s]; [by apply (IH "" g h f acc); cbn; lia|].
    destruct g as [|g]; [lia|]. destruct h as [|h]; [lia|]. destruct f as [|f]; [lia|].
    cbn [escape_go clean_go]. destruct (escape_step_ok (String c s) f (escape_go g (sdrop (escape_step (String c s)).2 (String c s))
      +:+ String quote_byte rest) acc ltac:(done)) as (Hp & Hn & Hle & _).
    rewrite append_assoc, Hp, Hn, (IH _ g h f), append_assoc; [done| |lia..].
    rewrite length_sdrop. cbn [String.length] in *. lia.
Qed.

Lemma escaped_length g s : String.length s ≤ g → String.length s ≤ String.length (escape_go g s).
Proof.
  revert s. induction g as [|g IH]; intros s Hs; [lia|]. destruct s as [|c s]; [cbn; lia|]. cbn [escape_go].
  destruct (escape_step_ok (String c s) 0 "" "" ltac:(done)) as (_ & Hn & Hle & Hl). rewrite length_append.
  set (k := (escape_step (String c s)).2) in *. pose proof (length_sdrop k (String c s)) as Hd.
  specialize (IH (sdrop k (String c s))). lia.
Qed.

Lemma parse_value_quote f dep x :
  parse_value (S f) dep (String quote_byte x) = ('(t, rest) ← parse_string f x ""; Some (JString t, rest)).
Proof. reflexivity. Qed.

Lemma parse_marshalled s f dep rest :
  String.length s + 2 ≤ f → parse_value f dep (marshal_string s +:+ rest) = Some (JString (clean s), rest).
Proof.
  intros Hf. destruct f as [|f]; [lia|]. unfold marshal_string. rewrite append_cons, parse_value_quote, append_assoc.
  change (byte_str quote_byte +:+ rest) with (String quote_byte rest).
  rewrite (parse_escaped (String.length s) s _ (String.length s)) by lia. by rewrite append_nil_l.
Qed.

Lemma marshalled_length s : String.length s + 2 ≤ String.length (marshal_string s).
Proof.
  unfold marshal_string. cbn [String.length]. rewrite length_append.
  pose proof (escaped_length (String.length s) s ltac:(lia)). cbn. lia.
Qed.

Lemma parse_items_step f dep x :
  parse_items (S f) dep x = ('(v, s1) ← parse_value f dep x;
    match skip_space s1 with
    | String c rest =>
        if is_byte 44 c then '(vs, s2) ← parse_items f dep rest; Some (v :: vs, s2)
        else if is_byte 93 c then Some ([v], rest) else None
    | EmptyString => None
    end).
Proof. reflexivity. Qed.

(** The elements of a marshalled array, up to its end. *)
Lemma parse_marshalled_items v vs f dep rest :
  let text := join "," (marshal_string <$> v :: vs) in
  String.length text + 1 ≤ f →
  parse_items f dep (text +:+ String (byte 93) rest) = Some (JString ∘ clean <$> v :: vs, rest).
Proof.
  cbv zeta. revert v f. induction vs as [|v' vs IH]; intros v f Hf; destruct f as [|f]; try lia;
    rewrite parse_items_step; pose proof (marshalled_length v) as Hl.
  - cbn [fmap list_fmap join] in *. rewrite parse_marshalled by lia. reflexivity.
  - change (join "," (marshal_string <$> v :: v' :: vs))
      with (marshal_string v +:+ "," +:+ join "," (marshal_string <$> v' :: vs)) in *.
    rewrite !length_append in Hf. rewrite append_assoc, parse_marshalled by lia. cbn [mbind option_bind].
    rewrite append_assoc. change ("," +:+ ?x) with (String (byte 44) x).
    change (skip_space (String (byte 44) ?x)) with (String (byte 44) x). cbn [is_byte].
    change (is_byte 44 (byte 44)) with true. cbv iota. change (String.length ",") with 1 in Hf. rewrite IH by lia. reflexivity.
Qed.

Lemma json_parse_strings v vs : json_parse (marshal_strings (v :: vs)) = Some (JArray (JString ∘ clean <$> v :: vs)).
Proof.
  unfold json_parse, marshal_strings. destruct max_depth as [|dep] eqn:Ed; [by vm_compute in Ed|]. clear Ed.
  set (text := join "," (marshal_string <$> v :: vs)).
  assert (Hh : ∃ x, text +:+ "]" = String quote_byte x).
  { unfold text. destruct vs; cbn [fmap list_fmap join]; unfold marshal_string at 1; rewrite !append_cons; by eexists. }
  assert (Hp : ∀ f, parse_value (S f) (S dep) ("[" +:+ text +:+ "]") =
    ('(xs, rest) ← parse_items f dep (text +:+ "]"); Some (JArray xs, rest))).
  { intros f. destruct Hh as [x ->]. reflexivity. }
  replace (2 * String.length ("[" +:+ text +:+ "]") + 2) with (S (2 * String.length ("[" +:+ text +:+ "]") + 1)) by lia.
  rewrite Hp. change "]" with (String (byte 93) ""). unfold text.
  rewrite parse_marshalled_items; [done|]. rewrite !length_append. cbn [String.length]. lia.
Qed.

Lemma mapM_strings (vs : list string) : mapM string_element (JString ∘ clean <$> vs) = Some (clean <$> vs).
Proof. induction vs as [|v vs IH]; [done|]. cbn in *. by rewrite IH. Qed.

(** Decoding a cursor gives the values it was made of, with every byte that is not UTF-8
    replaced. *)
Lemma decode_encode_values v vs : decodeCursorValues (encodeCursorValues (v :: vs)) = Ok (clean <$> v :: vs).
Proof.
  unfold decodeCursorValues, encodeCursorValues. rewrite b64_decode_encode. unfold unmarshal_strings.
  by rewrite json_parse_strings, mapM_strings.
Qed.

Lemma stake_sdrop n s : stake n s +:+ sdrop n s = s.
Proof. revert s. induction n as [|n IH]; intros [|c s]; try done. cbn [stake sdrop]. by rewrite append_cons, IH. Qed.

Lemma clean_go_valid f s : String.length s ≤ f → valid_utf8_go f s = true → clean_go f s = s.
Proof.
  revert s. induction f as [|f IH]; intros s Hs Hv; [by destruct s; [|cbn in Hs; lia]|].
  destruct s as [|c s]; [done|]. cbn [clean_go valid_utf8_go] in *. unfold clean_step.
  destruct (utf8_len (String c s)) as [|n] eqn:E; [done|]. cbn [fst snd].
  rewrite IH; [apply stake_sdrop| |done]. rewrite length_sdrop. cbn [String.length] in *. lia.
Qed.

Lemma clean_valid s : valid_utf8 s = true → clean s = s.
Proof. by apply clean_go_valid. Qed.

Lemma decode_encode_valid v vs :
  Forall (λ s, valid_utf8 s = true) (v :: vs) → decodeCursorValues (encodeCursorValues (v :: vs)) = Ok (v :: vs).
Proof.
  intros Hv. rewrite decode_encode_values. f_equal. rewrite <- (list_fmap_id (v :: vs)) at 2.
  apply list_fmap_ext. intros i s Hs%list_elem_of_lookup_2. rewrite Forall_forall in Hv. apply clean_valid, Hv, Hs.
Qed.

(** C39. Cursors round trip: any values give them back, each byte that is not UTF-8 replaced
    by U+FFFD and so exactly when they are UTF-8, bars, quotes, control and HTML characters
    included; and a cursor of the old form, two values joined by a bar, is still read unless
    it happens to be a JSON array of strings. *)
Theorem cursor_roundtrip v u :
  decodeCursorValues (encodeCursorValues [v; u]) = Ok [clean v; clean u] ∧
  (valid_utf8 v = true → valid_utf8 u = true → decodeCursor (encodeCursor v u) = Ok (v, u)) ∧
  (no_byte bar v = true → no_byte bar u = true → unmarshal_strings (v +:+ String bar u) = None →
   decodeCursor (b64_encode URLEncoding (v +:+ String bar u)) = Ok (v, u)).
Proof.
  split_and!.
  - apply decode_encode_values.
  - intros Hv Hu. unfold decodeCursor, encodeCursor. by rewrite decode_encode_valid by by repeat constructor.
  - intros Hv Hu Hj. unfold decodeCursor, decodeCursorValues. rewrite b64_decode_encode, Hj.
    assert (split bar (v +:+ String bar u) = [v; u]) as ->; [|done].
    unfold split. rewrite split_go_app by done. unfold split. by rewrite split_go_last.
Qed.

Lemma cursor_roundtrip_witness :
  decodeCursor (encodeCursor (quoted "a|b'<>") "at://did:plc:é/app.x/1") = Ok (quoted "a|b'<>", "at://did:plc:é/app.x/1") ∧
  decodeCursor (b64_encode URLEncoding "2024-01-02T00:00:00Z|at://did:plc:a/app.x/1") = Ok ("2024-01-02T00:00:00Z", "at://did:plc:a/app.x/1").
Proof.
  split.
  - apply (proj1 (proj2 (cursor_roundtrip _ _))); by vm_compute.
  - apply (proj2 (proj2 (cursor_roundtrip "2024-01-02T00:00:00Z" "at://did:plc:a/app.x/1"))); by vm_compute.
Defined.
