(* ===== verification/Connection.v ===== *)
(** * Record connections

    src/internal/graphql/schema/builder.go [resolveRecordConnection] and what it calls: page
    sizes (query/connection.go), the mapping of [createdAt] sorts, filters and cursors to
    their column (schema/created_at_column.go), decoding a record's JSON, building its node,
    and the edges and page information of a page.

    Go maps are shared: the node of a typed connection is the decoded record itself, changed
    in place, so the cursor of its edge is read from the changed map.

    Parameters: the registry's properties of a collection, which numbers fit a float64, the
    [time.RFC3339] format, and what the labels, authors and certified profiles attach to the
    nodes of a page ([Hydration]). The [where] argument comes as what the code extracts from
    it. *)
From S2P Require Import Prelude GoStrings Json AtprotoTime Effects Database Like RecordStore RecordProps Keyset Filters KeysetProps FilterProps LabelFilters KeysetForward FilteredPages Cursors.

(** ** Lexicon properties *)

Record Property := mkProperty { pr_Name : string; pr_Type : string; pr_Format : string; pr_Required : bool }.

(** [GetProperty]: the first of that name. *)
Definition GetProperty (props : list Property) (name : string) : option Property :=
  head (filter (λ p, pr_Name p = name) props).

Definition RequiredProperties (props : list Property) : list Property := filter (λ p, pr_Required p = true) props.

Definition ZeroValueForType (propType : string) : option json :=
  if (propType =? "string")%string then Some (JString "")
  else if (propType =? "integer")%string then Some (JNumber "0")
  else if (propType =? "boolean")%string then Some (JBool false)
  else if (propType =? "array")%string then Some (JArray [])
  else None.

(** ** Decoded records *)

(** A [map[string]interface{}]; the last member of a name counts. *)
Notation object := (gmap string json).
Definition to_object (ms : list member) : object := foldl (λ o m, <[m.1 := m.2.2]> o) ∅ ms.

Inductive govalue := GObject (o : object) | GScalar (j : json).

(** An edge of a page, and the page. *)
Record Edge := mkEdge { ed_cursor : string; ed_node : object }.

Record RecordConnection := mkConnection {
  co_edges : list Edge;
  co_hasNextPage : bool;
  co_hasPreviousPage : bool;
  co_startCursor : option string;
  co_endCursor : option string;
  co_totalCount : option nat;
}.

Definition emptyConnection : RecordConnection := mkConnection [] false false None None (Some 0).

(** The arguments of a query; [ca_where] is what [extractFiltersWithExternalLabels] returns,
    [ca_totalCount] whether the count is selected. *)
Record ConnectionQuery := mkQuery {
  ca_first : option Z;
  ca_after : string;
  ca_last : option Z;
  ca_before : string;
  ca_where : outcome (list FieldFilter * DIDFilter * ExternalLabelFilterSet);
  ca_sortBy : string;
  ca_sortDirection : string;
  ca_totalCount : bool;
}.

(** ** Page sizes *)

Definition DefaultPageSize : Z := 20.
Definition MaxPageSize : Z := 1000.

Definition ClampPageSize (first : Z) : Z :=
  if (first <=? 0)%Z then DefaultPageSize
  else if (MaxPageSize <? first)%Z then MaxPageSize
  else first.

(** What the hydration of a page attaches to the node of each of its records. *)
Definition attachment := RecordStruct → object → object.

Class Hydration := {
  hydrateExternalLabels : list RecordStruct → M db attachment;
  hydrateAuthors : list RecordStruct → M db attachment;
  hydrateCertifiedProfiles : list RecordStruct → M db attachment;
}.

Section mapping.
Context `{DatetimeParser}.

(** ** createdAt and its column *)

Definition createdAtDatetimeProperty (registry : string → option (list Property)) (collection : string) : option Property :=
  match registry collection with
  | None => None
  | Some props =>
      match GetProperty props "createdAt" with
      | None => None
      | Some p => if negb (pr_Type p =? "string")%string || negb (pr_Format p =? "datetime")%string then None else Some p
      end
  end.

Definition sortsByRecordCreatedAtColumn registry collection : bool :=
  bool_decide (is_Some (createdAtDatetimeProperty registry collection)).

Definition filtersByRecordCreatedAtColumn registry collection (validOnly : bool) : bool :=
  match createdAtDatetimeProperty registry collection with
  | Some p => validOnly && pr_Required p
  | None => false
  end.

Definition mapCreatedAtSortToColumn (sortOpt : option SortOption) : option SortOption :=
  match sortOpt with
  | Some s => if (Field s =? "createdAt")%string then Some (mkSort SortFieldRecordCreatedAt (Direction s)) else sortOpt
  | None => None
  end.

Definition normalize_goval (v : goval) : option goval :=
  match v with GString s => GString <$> NormalizeRecordDatetime s | _ => None end.

(** [None]: the filter stays as it is. *)
Definition createdAtColumnFilter (f : FieldFilter) : option FieldFilter :=
  if negb (ff_Field f =? "createdAt")%string || negb (bool_decide (ff_Path f = [])) || negb (bool_decide (ff_ArrayPath f = []))
     || (negb (ff_Target f =? "")%string && negb (ff_Target f =? FieldFilterTargetJSON)%string)
  then None
  else
    value ← (if bool_decide (ff_Operator f ∈ ["eq"; "neq"; "gt"; "lt"; "gte"; "lte"]) then normalize_goval (ff_Value f)
             else if (ff_Operator f =? "in")%string then
               match ff_Value f with GList l => GList <$> mapM normalize_goval l | _ => None end
             else None);
    Some (mkFilter SortFieldRecordCreatedAt [] [] (ff_Operator f) value "datetime" FieldFilterTargetColumn).

Definition mapCreatedAtFiltersToColumn (filters : list FieldFilter) : list FieldFilter :=
  (λ f, default f (createdAtColumnFilter f)) <$> filters.

Definition normalizeCreatedAtCursor (sortOpt : option SortOption) (cursorValues : list string) : outcome (list string) :=
  match sortOpt, cursorValues with
  | Some s, [v; u] =>
      if negb (Field s =? SortFieldRecordCreatedAt)%string || (v =? "")%string then Ok cursorValues
      else match NormalizeRecordDatetime v with
           | Some n => Ok [n; u]
           | None => Err "invalid cursor: createdAt value is not a valid datetime; restart pagination without a cursor"
           end
  | _, _ => Ok cursorValues
  end.
End mapping.

Section connection.
Context `{Env} `{TextOrder} `{SortKeys} `{SqlFunctions} `{Hydration}.
Context (registry : string → option (list Property)) (float64_ok : string → bool) (format_rfc3339 : Z → string).

(** ** Decoding *)

Definition decodeConnectionRecordValue (rec : RecordStruct) (objectOnly : bool) : outcome govalue :=
  match json_parse (rec_json rec) with
  | None => Err "invalid JSON"
  | Some j =>
      if negb (numbers_ok float64_ok j) then Err "json: cannot unmarshal number"
      else match j with
      | JObject ms => Ok (GObject (to_object ms))
      | JNull => if objectOnly then Err "typed record JSON must be an object" else Ok (GScalar JNull)
      | _ => if objectOnly then Err "json: cannot unmarshal into Go value of type map[string]interface {}" else Ok (GScalar j)
      end
  end.

(** ** Nodes *)

(** A node and whether it is the decoded value itself. *)
Definition nodeBuilder := RecordStruct → govalue → option (object * bool).

Definition json_of (v : govalue) : json :=
  match v with GScalar j => j | GObject o => JObject ((λ kv : string * json, (kv.1, ("", kv.2))) <$> map_to_list o) end.

Definition genericRecordNode (rec : RecordStruct) (value : govalue) : object :=
  let node := list_to_map [("uri", JString (rec_uri rec)); ("cid", JString (rec_cid rec)); ("did", JString (rec_did rec));
    ("collection", JString (rec_collection rec)); ("rkey", JString (rec_rkey rec)); ("value", json_of value);
    ("validationStatus", JString (rec_validation_status rec)); ("validationError", JString (rec_validation_error rec));
    ("lexiconHash", JString (rec_lexicon_hash rec))] in
  match rec_validated_at rec with
  | Some t => <["validatedAt" := JString (format_rfc3339 t)]> node
  | None => node
  end.

Definition genericBuilder : nodeBuilder := λ rec value, Some (genericRecordNode rec value, false).

Definition attachValidationMetadata (data : object) (rec : RecordStruct) : object :=
  let data := <["validationStatus" := JString (rec_validation_status rec)]> data in
  <["validationError" := if (rec_validation_error rec =? "")%string then JNull else JString (rec_validation_error rec)]> data.

Definition coerceRequiredFields (data : object) (collection : string) : object :=
  match registry collection with
  | None => data
  | Some props =>
      foldl (λ data p,
        match data !! pr_Name p with
        | Some JNull | None =>
            match ZeroValueForType (pr_Type p) with Some zero => <[pr_Name p := zero]> data | None => data end
        | Some _ => data
        end) data (RequiredProperties props)
  end.

(** The builder of [createCollectionResolver]. *)
Definition typedBuilder (lexiconID : string) : nodeBuilder := λ rec value,
  match value with
  | GScalar _ => None
  | GObject data =>
      let data := <["uri" := JString (rec_uri rec)]> data in
      let data := <["cid" := JString (rec_cid rec)]> data in
      let data := <["did" := JString (rec_did rec)]> data in
      let data := <["rkey" := JString (rec_rkey rec)]> data in
      Some (coerceRequiredFields (attachValidationMetadata data rec) lexiconID, true)
  end.

(** ** The sort value of an edge *)

(** [fmt.Sprintf("%v", v)] *)
Definition print_value (j : json) : string :=
  match j with
  | JString s => s
  | JBool b => if b then "true" else "false"
  | _ => format_value j
  end.

Definition sortFieldValueFor (rec : SortedRecord) (value : govalue) (sortOpt : option SortOption) : string :=
  let r := so_record rec in
  match sortOpt with
  | None => format_time (rec_indexed_at r)
  | Some s =>
      let f := Field s in
      if (f =? SortFieldRecordCreatedAt)%string then so_created_at rec
      else if (f =? "indexed_at")%string then format_time (rec_indexed_at r)
      else if (f =? "uri")%string then rec_uri r
      else if (f =? "did")%string then rec_did r
      else if (f =? "collection")%string then rec_collection r
      else if (f =? "cid")%string then rec_cid r
      else if (f =? "rkey")%string then rec_rkey r
      else match value with
      | GObject object =>
          match object !! f with
          | None | Some JNull => ""
          | Some v => print_value v
          end
      | GScalar _ => ""
      end
  end.

(** ** A page *)

Context (collection : string) (typed typedRecordsRequireValid : bool) (buildNode : nodeBuilder).

Definition valid_only : bool := typed && typedRecordsRequireValid.

(** One turn of the loop over a page's records: [None] for a skipped record. *)
Definition build_edge (attach : attachment) (sortOpt : option SortOption) (rec : SortedRecord) : option Edge :=
  let r := so_record rec in
  match decodeConnectionRecordValue r typed with
  | Err _ => None
  | Ok value =>
      match buildNode r value with
      | None => None
      | Some (node, shared) =>
          let node := attach r node in
          let value := if shared then GObject node else value in
          Some (mkEdge (encodeCursorValues [sortFieldValueFor rec value sortOpt; rec_uri r]) node)
      end
  end.

Fixpoint start_cursor (edges : list Edge) (startCursor : string) : string :=
  match edges with
  | [] => startCursor
  | e :: es => start_cursor es (if (startCursor =? "")%string then ed_cursor e else startCursor)
  end.
Definition end_cursor (edges : list Edge) : string := foldl (λ _ e, ed_cursor e) "" edges.

Definition GetByCollectionReversed (filters : list FieldFilter) (didFilter : DIDFilter)
    (labels : ExternalLabelFilterSet) (sort : option SortOption) (limit : nat) (beforeCursorValues : list string)
    : M db (list SortedRecord) :=
  getByCollectionReversedWithKeysetCursor collection (buildFilterClause filters) (buildDIDFilterClause didFilter)
    (buildExternalLabelFilterSetClause labels) sort limit beforeCursorValues valid_only.

(** The three hydrations of a page, in order. *)
Definition hydrate_page (records : list SortedRecord) : M db attachment :=
  let rs := so_record <$> records in
  labels ← hydrateExternalLabels rs;
  authors ← hydrateAuthors rs;
  profiles ← hydrateCertifiedProfiles rs;
  mret (λ r node, profiles r (authors r (labels r node))).

Definition total_count (q : ConnectionQuery) (filters : list FieldFilter) (didFilter : DIDFilter)
    (labels : ExternalLabelFilterSet) : M db (option nat) :=
  if negb (ca_totalCount q) then mret None
  else
    o ← attempt (getCollectionCountFiltered collection filters didFilter labels valid_only);
    mret (match o with Ok n => Some n | Err _ => None end).

(** The values of a page's cursor; no cursor is the empty string. *)
Definition decode_page_cursor (sortOpt : option SortOption) (cursor : string) : outcome (list string) :=
  if (cursor =? "")%string then Ok []
  else
    parts ← match decodeCursorValues cursor with Ok p => Ok p | Err e => Err ("invalid cursor: " +:+ e) end;
    if negb (length parts =? 2) then Err "invalid cursor: expected 2 components"
    else normalizeCreatedAtCursor sortOpt parts.

Definition query_sort (q : ConnectionQuery) : option SortOption :=
  let sortOpt :=
    if (ca_sortBy q =? "")%string then None
    else Some (mkSort (ca_sortBy q) (if (ca_sortDirection q =? "")%string then "DESC" else ca_sortDirection q)) in
  if sortsByRecordCreatedAtColumn registry collection then mapCreatedAtSortToColumn sortOpt else sortOpt.

Definition query_filters (filters : list FieldFilter) : list FieldFilter :=
  if filtersByRecordCreatedAtColumn registry collection valid_only then mapCreatedAtFiltersToColumn filters else filters.

Definition page_size (n : option Z) : nat := Z.to_nat (ClampPageSize (default 0%Z n)).

(** [hasRepos]: the request carries the repositories. *)
Definition resolveRecordConnection (hasRepos : bool) (q : ConnectionQuery) : M db RecordConnection :=
  if negb hasRepos then mret emptyConnection
  else
  let hasFirst := bool_decide (is_Some (ca_first q)) in
  let hasLast := bool_decide (is_Some (ca_last q)) in
  let after := ca_after q in
  let before := ca_before q in
  if (hasFirst || negb (after =? "")%string) && (hasLast || negb (before =? "")%string)
  then throw "cannot use both first/after and last/before"
  else
  '(filters, didFilter, labels) ← of_outcome (ca_where q);
  let sortOpt := query_sort q in
  let filters := query_filters filters in
  if hasLast || negb (before =? "")%string then
    let last := page_size (ca_last q) in
    beforeCursorValues ← of_outcome (decode_page_cursor sortOpt before);
    records ← wrap "failed to query records"
      (GetByCollectionReversed filters didFilter labels sortOpt (last + 1) beforeCursorValues);
    let hasPreviousPage := last <? length records in
    let records := if hasPreviousPage then drop 1 records else records in
    attach ← hydrate_page records;
    let edges := omap (build_edge attach sortOpt) records in
    count ← total_count q filters didFilter labels;
    mret (mkConnection edges (negb (before =? "")%string) hasPreviousPage
      (Some (start_cursor edges "")) (Some (end_cursor edges)) count)
  else
    let first := page_size (ca_first q) in
    afterCursorValues ← of_outcome (decode_page_cursor sortOpt after);
    records ← wrap "failed to query records"
      (GetByCollectionSorted collection filters didFilter labels sortOpt (first + 1) afterCursorValues valid_only);
    let hasNextPage := first <? length records in
    let records := if hasNextPage then take first records else records in
    attach ← hydrate_page records;
    let edges := omap (build_edge attach sortOpt) records in
    count ← total_count q filters didFilter labels;
    mret (mkConnection edges hasNextPage (negb (after =? "")%string)
      (Some (start_cursor edges "")) (Some (end_cursor edges)) count).
End connection.
