(* ===== verification/ConnectionProps.v ===== *)
(** * Walking a connection

    A client that reads a connection page by page, passing each page's end cursor back,
    gets the edge of every record that can be shown, once and in order, as long as no page
    is filled with records that cannot. *)
From S2P Require Import Prelude GoStrings Json GoTime AtprotoTime Effects Database Like RecordStore RecordProps Keyset Filters KeysetProps FilterProps LabelFilters KeysetForward KeysetSpec FilteredPages LabelText Base64 Cursors Connection.

(** ** Page sizes and cursors *)

Lemma clamp_bounds n : (1 <= ClampPageSize n <= MaxPageSize)%Z.
Proof.
  unfold ClampPageSize, DefaultPageSize, MaxPageSize.
  destruct (Z.leb_spec n 0); [lia|]. destruct (Z.ltb_spec 1000 n); lia.
Qed.

Lemma page_size_bounds n : 1 ≤ page_size n ≤ 1000.
Proof. unfold page_size. pose proof (clamp_bounds (default 0%Z n)) as Hc. unfold MaxPageSize in Hc. lia. Qed.

Lemma encoded_nonempty vs : encodeCursorValues vs ≠ "".
Proof.
  intros He. pose proof (b64_decode_encode URLEncoding (marshal_strings vs)) as Hd.
  fold (encodeCursorValues vs) in Hd. rewrite He in Hd. cbv [b64_decode b64_decode_go skip_newlines] in Hd.
  by injection Hd.
Qed.

Lemma end_cursor_snoc es e : end_cursor (es ++ [e]) = ed_cursor e.
Proof. unfold end_cursor. by rewrite foldl_app. Qed.

Lemma omap_cons_eq {A B} (f : A → option B) a l :
  omap f (a :: l) = match f a with Some b => b :: omap f l | None => omap f l end.
Proof. done. Qed.

(** The last element a function keeps splits the list. *)
Lemma omap_last {A B} (f : A → option B) (l : list A) :
  Exists (λ x, is_Some (f x)) l →
  ∃ w1 x y w2, l = w1 ++ x :: w2 ∧ f x = Some y ∧ omap f w2 = [] ∧ omap f l = omap f w1 ++ [y].
Proof.
  induction l as [|a l IH]; intros Hex; [by apply Exists_nil in Hex|]. rewrite omap_cons_eq.
  destruct (decide (Exists (λ x, is_Some (f x)) l)) as [Hl|Hl].
  - destruct (IH Hl) as (w1 & x & y & w2 & -> & Hx & Hw2 & ->). exists (a :: w1), x, y, w2.
    split_and!; [done..|]. rewrite omap_cons_eq. by destruct (f a).
  - apply Exists_cons in Hex as [[y Hy]|Hex]; [|done]. exists [], a, y, l.
    assert (El : omap f l = []).
    { clear -Hl. induction l as [|c l IH]; [done|]. rewrite Exists_cons in Hl. rewrite omap_cons_eq.
      destruct (f c) eqn:E; [destruct Hl; left; by eexists|]. apply IH. tauto. }
    split_and!; [done..|]. by rewrite Hy, El.
Qed.

(** ** The sort value of an edge is that of its record *)

Section sort_values.
Context `{Env} `{TextOrder} `{SortKeys} `{SqlFunctions}.
Context (registry : string → option (list Property)) (float64_ok : string → bool) (format_rfc3339 : Z → string).

Lemma to_object_lookup ms f :
  to_object ms !! f = (λ m : member, m.2.2) <$> last (filter (λ m : member, (m.1 =? f)%string = true) ms).
Proof.
  unfold to_object. induction ms as [|m ms IH] using rev_ind; [done|].
  rewrite foldl_app, filter_app. cbn [foldl]. destruct (String.eqb_spec m.1 f) as [Heq|Hne].
  - rewrite filter_cons_True by by apply String.eqb_eq. rewrite filter_nil, last_snoc, Heq. by rewrite lookup_insert_eq.
  - rewrite lookup_insert_ne, filter_cons_False by (done || by intros ?%String.eqb_eq). by rewrite filter_nil, app_nil_r.
Qed.

Definition value_text (value : govalue) (f : string) : string :=
  match value with
  | GObject o => match o !! f with None | Some JNull => "" | Some v => print_value v end
  | GScalar _ => ""
  end.

Lemma decoded_text rec typed value f :
  decodeConnectionRecordValue float64_ok rec typed = Ok value → json_field_text (rec_json rec) f = value_text value f.
Proof.
  unfold decodeConnectionRecordValue, json_field_text. destruct (json_parse (rec_json rec)) as [j|]; [|done].
  destruct (numbers_ok float64_ok j); [|done]. cbn [negb].
  destruct j; try (destruct typed; [done|]); try (intros [= <-]; done); try done.
  intros [= <-]. cbn. rewrite to_object_lookup.
  destruct (last _) as [[k [t v]]|]; [|done]. cbn. by destruct v.
Qed.

(** Sorting by a column, or by a JSON field the built value still has. *)
Lemma sort_value_kept rec value value' typed sort :
  decodeConnectionRecordValue float64_ok (so_record rec) typed = Ok value →
  (json_sort sort → value_text value' (keysetSortFieldName sort) = value_text value (keysetSortFieldName sort)) →
  sortFieldValueFor rec value' sort = sortFieldValueForRecord rec sort.
Proof.
  intros Hdec Hkept. unfold sortFieldValueFor, sortFieldValueForRecord. destruct sort as [[f dir]|]; [|done]. cbn [Field].
  destruct (String.eqb_spec f SortFieldRecordCreatedAt) as [|Hc]; [done|].
  repeat match goal with |- (if ?b then _ else _) = _ => destruct b eqn:?; [done|] end.
  cbn [keysetSortFieldName Field] in Hkept. rewrite (decoded_text _ _ _ f Hdec), <- Hkept; [by destruct value'|].
  split; [done|]. cbn [keysetSortFieldName Field]. unfold directSortColumns.
  rewrite !not_elem_of_cons, <- !String.eqb_neq. split_and!; try done. apply not_elem_of_nil.
Qed.

(** A generic node is not the decoded value. *)
Lemma generic_sort_value typed att sort rec e :
  build_edge float64_ok typed (genericBuilder format_rfc3339) att sort rec = Some e →
  ed_cursor e = encodeCursorValues (cursor_values sort rec).
Proof.
  unfold build_edge, genericBuilder. destruct (decodeConnectionRecordValue _ _ _) as [value|] eqn:Ed; [|done].
  intros [= <-]. cbn. unfold cursor_values. by rewrite (sort_value_kept rec value value typed sort Ed).
Qed.

Lemma coerce_present props (data : object) f v :
  data !! f = Some v → v ≠ JNull →
  foldl (λ data p,
    match data !! pr_Name p with
    | Some JNull | None => match ZeroValueForType (pr_Type p) with Some zero => <[pr_Name p := zero]> data | None => data end
    | Some _ => data
    end) data props !! f = Some v.
Proof.
  intros Hf Hv. revert data Hf. induction props as [|p props IH]; intros data Hf; [done|]. cbn [foldl]. apply IH.
  destruct (data !! pr_Name p) as [x|] eqn:Ep.
  - destruct x; try done. destruct (ZeroValueForType _); [|done]. rewrite lookup_insert_ne; [done|].
    intros Heq. rewrite Heq, Hf in Ep. by injection Ep.
  - destruct (ZeroValueForType _); [|done]. rewrite lookup_insert_ne; [done|]. intros Heq. by rewrite Heq, Hf in Ep.
Qed.

(** A typed node is the decoded value, with metadata written over it: a JSON field the
    record has keeps its value unless it is named like the validation metadata. *)
Lemma typed_sort_value lexiconID att sort rec e :
  (json_sort sort →
    keysetSortFieldName sort ∉ ["validationStatus"; "validationError"] ∧
    (∀ r o, att r o !! keysetSortFieldName sort = o !! keysetSortFieldName sort) ∧
    ∀ o, decodeConnectionRecordValue float64_ok (so_record rec) true = Ok (GObject o) →
      ∃ v, o !! keysetSortFieldName sort = Some v ∧ v ≠ JNull) →
  build_edge float64_ok true (typedBuilder registry lexiconID) att sort rec = Some e →
  ed_cursor e = encodeCursorValues (cursor_values sort rec).
Proof.
  intros Hfield. unfold build_edge, typedBuilder.
  destruct (decodeConnectionRecordValue _ _ _) as [[o|]|] eqn:Ed; [|done..].
  intros [= <-]. cbn [ed_cursor]. unfold cursor_values.
  rewrite (sort_value_kept rec (GObject o) _ true sort Ed); [done|]. intros Hj.
  destruct (Hfield Hj) as (Hm & Hatt & Hp). destruct (Hp o eq_refl) as (v & Hv & Hn).
  destruct Hj as [_ Hd]. unfold value_text. rewrite Hatt, Hv.
  rewrite !not_elem_of_cons in Hm. unfold directSortColumns in Hd. rewrite !not_elem_of_cons in Hd.
  assert (Hkept : coerceRequiredFields registry (attachValidationMetadata
    (<["rkey" := JString (rec_rkey (so_record rec))]> (<["did" := JString (rec_did (so_record rec))]>
      (<["cid" := JString (rec_cid (so_record rec))]> (<["uri" := JString (rec_uri (so_record rec))]> o)))) (so_record rec))
    lexiconID !! keysetSortFieldName sort = Some v).
  { unfold coerceRequiredFields, attachValidationMetadata.
    assert (Hdata : <["validationError" := if (rec_validation_error (so_record rec) =? "")%string then JNull
        else JString (rec_validation_error (so_record rec))]>
      (<["validationStatus" := JString (rec_validation_status (so_record rec))]>
      (<["rkey" := JString (rec_rkey (so_record rec))]> (<["did" := JString (rec_did (so_record rec))]>
      (<["cid" := JString (rec_cid (so_record rec))]> (<["uri" := JString (rec_uri (so_record rec))]> o))))) !! keysetSortFieldName sort = Some v).
    { rewrite !lookup_insert_ne by (intros Heq; rewrite <- Heq in *; tauto). exact Hv. }
    destruct (registry lexiconID); [by apply coerce_present|exact Hdata]. }
  by rewrite Hkept.
Qed.
End sort_values.

Section walking.
Context `{Env} `{TextOrder} `{SortKeys} `{SqlFunctions} `{Hydration} `{!SqlLaws} `{!SortLaws}.
Context (registry : string → option (list Property)) (float64_ok : string → bool) (format_rfc3339 : Z → string).
Context (collection : string) (typed typedRecordsRequireValid : bool) (buildNode : nodeBuilder).
Context (q : ConnectionQuery) (filters : list FieldFilter) (didFilter : DIDFilter) (labels : ExternalLabelFilterSet).

Notation validOnly := (valid_only typed typedRecordsRequireValid).
Notation sort := (query_sort registry collection q).
Notation qf := (query_filters registry collection typed typedRecordsRequireValid filters).
Notation rows_of := (candidates collection (filters_match qf) (did_matches didFilter) (label_set_matches labels) validOnly).
Notation start_of := (after_start collection (filters_match qf) (did_matches didFilter) (label_set_matches labels) validOnly).
Notation build := (build_edge float64_ok typed buildNode).
Notation resolve := (resolveRecordConnection registry float64_ok collection typed typedRecordsRequireValid buildNode true).

Definition with_after (after : string) : ConnectionQuery :=
  mkQuery (ca_first q) after (ca_last q) (ca_before q) (ca_where q) (ca_sortBy q) (ca_sortDirection q) (ca_totalCount q).

(** The client: it passes on the end cursor as long as there is a next page. *)
Fixpoint walk (fuel : nat) (after : string) : M db (list Edge) :=
  match fuel with
  | O => throw "out of fuel"
  | S f =>
      c ← resolve (with_after after);
      if co_hasNextPage c then rest ← walk f (default "" (co_endCursor c)); mret (co_edges c ++ rest)
      else mret (co_edges c)
  end.

(** What the walk needs: a forward query without a count, filters the builders accept, a
    sortable connection; hydrations that read and attach to a record the same whatever page
    it is on; records whose cursors are UTF-8 and, for creation times, in the column's form;
    and edges whose sort value is that of the record. *)
Record walkable (d : db) (att : attachment) (records : list SortedRecord) : Prop := {
  wk_forward : ca_last q = None ∧ ca_before q = "" ∧ ca_totalCount q = false;
  wk_where : ca_where q = Ok (filters, didFilter, labels);
  wk_accepted : accepted qf didFilter labels;
  wk_sortable : sortable collection (buildFilterClause qf) (buildDIDFilterClause didFilter)
    (buildExternalLabelFilterSetClause labels) (filters_match qf) (did_matches didFilter) (label_set_matches labels)
    validOnly sort d;
  wk_records : scanSortedRecords sort (rows_of sort d) = Ok records;
  wk_hydrated : ∀ rs, ∃ f, ReadsAs (hydrate_page rs) d (Ok f) ∧ ∀ r, r ∈ rs → f (so_record r) = att (so_record r);
  wk_cursors : ∀ r, r ∈ records →
    Forall (λ s, valid_utf8 s = true) (cursor_values sort r) ∧ normalizeCreatedAtCursor sort (cursor_values sort r) = Ok (cursor_values sort r);
  wk_sort_value : ∀ r e, r ∈ records → build att sort r = Some e → ed_cursor e = encodeCursorValues (cursor_values sort r);
}.

(** No page's worth of records that all cannot be shown, before the last page. *)
Definition no_dead_page (att : attachment) (records : list SortedRecord) : Prop :=
  ∀ pre page post, records = pre ++ page ++ post → length page = page_size (ca_first q) → post ≠ [] →
    Exists (λ r, is_Some (build att sort r)) page.

Lemma build_ext f att r : f (so_record r) = att (so_record r) → build f sort r = build att sort r.
Proof. unfold build_edge. by intros ->. Qed.

Lemma decode_record_cursor d att records r :
  walkable d att records → r ∈ records →
  decode_page_cursor sort (encodeCursorValues (cursor_values sort r)) = Ok (cursor_values sort r).
Proof.
  intros Hw Hr. destruct (wk_cursors _ _ _ Hw r Hr) as [Hv Hn]. unfold decode_page_cursor.
  rewrite (proj2 (String.eqb_neq _ _) (encoded_nonempty _)). unfold cursor_values in Hv, Hn |- *.
  rewrite decode_encode_valid by done. exact Hn.
Qed.

(** One page from a start: its first records, built, and whether there are more. *)
Lemma forward_page d att records after cursor start rest :
  walkable d att records → decode_page_cursor sort after = Ok cursor → starts_at sort cursor start →
  scanSortedRecords sort (start_of sort start d) = Ok rest →
  let n := page_size (ca_first q) in
  let edges := omap (build att sort) (take n rest) in
  ReadsAs (resolve (with_after after)) d (Ok (mkConnection edges (n <? length rest) (negb (after =? "")%string)
    (Some (start_cursor edges "")) (Some (end_cursor edges)) None)).
Proof.
  intros Hw Hcur Hst Hrest n edges. destruct (wk_forward _ _ _ Hw) as (Hl & Hb & Ht).
  unfold resolveRecordConnection. change (query_sort registry collection (with_after after)) with sort.
  change (ca_where (with_after after)) with (ca_where q). change (ca_after (with_after after)) with after.
  change (ca_first (with_after after)) with (ca_first q). change (ca_before (with_after after)) with (ca_before q).
  change (ca_last (with_after after)) with (ca_last q).
  rewrite Hl, Hb, (wk_where _ _ _ Hw), Hcur. cbn [negb String.eqb orb bool_decide].
  rewrite (bool_decide_eq_false_2 (is_Some None)) by by intros []. rewrite andb_false_r. cbn [orb].
  eapply reads_bind; [apply reads_of_outcome| |done]. intros [[fs df] ls] [= <- <- <-]. cbv zeta.
  eapply reads_bind; [apply reads_of_outcome| |done]. intros vs [= <-].
  assert (Hpage : ReadsAs (GetByCollectionSorted collection qf didFilter labels sort (n + 1) cursor validOnly) d
    (Ok (take (n + 1) rest))).
  { pose proof (wk_accepted _ _ _ Hw) as [Hf%filter_clause_spec Hd%did_clause_spec Hla%label_clause_spec].
    destruct (wk_sortable _ _ _ Hw) as [Hdir Hok Hp Hj Hc Hfit].
    pose proof (page_reads collection _ _ _ _ _ _ Hf Hd Hla validOnly sort cursor start (n + 1) d Hst Hdir Hok Hp Hfit) as Hr.
    unfold GetByCollectionSorted. rewrite <- (take_drop (n + 1) (start_of sort start d)), scanSorted_app in Hrest.
    destruct (scanSortedRecords sort (take (n + 1) (start_of sort start d))) as [xs|] eqn:Exs; [|done]. cbn in Hrest.
    destruct (scanSortedRecords sort (drop (n + 1) (start_of sort start d))) as [ys|] eqn:Eys; [|done]. injection Hrest as <-.
    pose proof (scanSorted_length _ _ _ Exs) as Hlx. pose proof (scanSorted_length _ _ _ Eys) as Hly.
    assert (take (n + 1) (xs ++ ys) = xs) as ->; [|exact Hr].
    rewrite length_take in Hlx. rewrite length_drop in Hly.
    destruct (decide (length xs = n + 1)) as [He|Hne]; [by rewrite take_app_length'|].
    destruct ys; [|cbn in Hly; lia]. rewrite app_nil_r. apply take_ge. lia. }
  eapply reads_bind; [eapply reads_wrap, Hpage| |done]. intros page [= <-].
  assert (Hmore : (n <? length (take (n + 1) rest)) = (n <? length rest)).
  { rewrite length_take. destruct (Nat.ltb_spec n (length rest)), (Nat.ltb_spec n (Nat.min (n + 1) (length rest))); done || lia. }
  assert (Htake : (if n <? length rest then take n (take (n + 1) rest) else take (n + 1) rest) = take n rest).
  { destruct (Nat.ltb_spec n (length rest)); [rewrite take_take; f_equal; lia|]. by rewrite !take_ge by lia. }
  fold n. rewrite Hmore, Htake. destruct (wk_hydrated _ _ _ Hw (take n rest)) as (f & Hf & Hatt).
  eapply reads_bind; [exact Hf| |done]. intros f' [= <-].
  assert (omap (build f sort) (take n rest) = edges) as ->.
  { unfold edges. apply list_omap_ext. apply Forall_Forall2_diag, Forall_forall. intros r Hr. by apply build_ext, Hatt. }
  unfold total_count, with_after. cbn [ca_totalCount]. rewrite Ht. cbn [negb]. apply reads_ret.
Qed.

(** The rows behind the records of a start, cut after one of them. *)
Lemma rest_after d start w1 x w2 :
  scanSortedRecords sort (start_of sort start d) = Ok (w1 ++ x :: w2) →
  ∃ kv, kv ∈ rows_of sort d ∧ scan_sorted sort kv = Ok x ∧ scanSortedRecords sort (start_of sort (Some kv) d) = Ok w2.
Proof.
  intros Hs%scanSorted_Forall2.
  apply Forall2_app_inv_r in Hs as (k1 & k2' & _ & (kv & k2 & Hx & Hk2 & ->)%Forall2_cons_inv_r & Hrows).
  assert (Hin : kv ∈ start_of sort start d) by (rewrite Hrows; apply elem_of_app; right; left).
  exists kv. split_and!; [|done|].
  - destruct start; cbn [after_start] in Hin; [by apply list_elem_of_filter in Hin as [_ ?]|done].
  - apply scanSorted_Forall2. cbn [after_start].
    rewrite (after_start_suffix _ _ _ _ _ sort start d (length k1 + 1) kv), Hrows, drop_app_add; [done|].
    rewrite Hrows, take_app_add. cbn. apply last_snoc.
Qed.

Lemma walk_reads d att records fuel after cursor start pre rest :
  walkable d att records → no_dead_page att records →
  decode_page_cursor sort after = Ok cursor → starts_at sort cursor start →
  records = pre ++ rest → scanSortedRecords sort (start_of sort start d) = Ok rest → length rest < fuel →
  ReadsAs (walk fuel after) d (Ok (omap (build att sort) rest)).
Proof.
  intros Hw Hdead. revert after cursor start pre rest.
  induction fuel as [|f IH]; intros after cursor start pre rest Hcur Hst Hpre Hrest Hfuel; [lia|]. cbn [walk].
  eapply reads_bind; [by eapply forward_page| |done]. intros c [= <-]. cbn [co_hasNextPage co_endCursor co_edges default].
  set (n := page_size (ca_first q)). destruct (Nat.ltb_spec n (length rest)) as [Hmore|Hlast].
  2:{ rewrite take_ge by done. apply reads_ret. }
  destruct (omap_last (build att sort) (take n rest)) as (w1 & x & e & w2 & Htake & Hx & Hw2 & Hedges).
  { apply (Hdead pre _ (drop n rest)); [by rewrite Hpre, take_drop|rewrite length_take; fold n; lia|].
    intros Hnil. apply (f_equal length) in Hnil. rewrite length_drop in Hnil. cbn in Hnil. lia. }
  rewrite Hedges, end_cursor_snoc. rewrite <- Hedges.
  assert (Hsplit : rest = w1 ++ x :: (w2 ++ drop n rest)).
  { rewrite <- (take_drop n rest) at 1. by rewrite Htake, <- app_assoc. }
  assert (Hxr : x ∈ records) by (rewrite Hpre, Hsplit; set_solver).
  rewrite (wk_sort_value _ _ _ Hw x e Hxr Hx).
  rewrite Hsplit in Hrest. destruct (rest_after _ _ _ _ _ Hrest) as (kv & Hkv & Hscan & Hnext).
  pose proof (wk_sortable _ _ _ Hw) as [_ _ _ Hj Hc _].
  eapply reads_bind.
  - eapply (IH _ _ (Some kv) (pre ++ w1 ++ [x])); [by eapply decode_record_cursor|by eapply cursors_faithful| |exact Hnext|].
    + rewrite Hpre, Hsplit at 1. by rewrite <- !app_assoc.
    + apply (f_equal length) in Hsplit. rewrite length_app in Hsplit. cbn in Hsplit. lia.
  - intros es [= <-].
    assert (omap (build att sort) rest = omap (build att sort) (take n rest) ++ omap (build att sort) (w2 ++ drop n rest))
      as ->; [|apply reads_ret].
    rewrite omap_app, Hw2, app_nil_l, <- omap_app, take_drop. done.
  - done.
Qed.

End walking.

(** ** Connections, evaluated

    The walk of ConnectionProps on a concrete typed connection, and what happens when a page
    is filled with records that cannot be shown. *)

#[local] Existing Instance byte_order.
#[local] Existing Instance ex_env.
#[local] Existing Instance ex_keys.
#[local] Existing Instance ex_laws.
#[local] Existing Instance ex_sql.
#[local] Existing Instance ex_sql_laws.

Definition bare : attachment := λ _ node, node.

#[local] Instance no_hydration : Hydration := {|
  hydrateExternalLabels _ := mret bare;
  hydrateAuthors _ := mret bare;
  hydrateCertifiedProfiles _ := mret bare;
|}.

Definition ex_registry (collection : string) : option (list Property) :=
  if (collection =? "app.post")%string
  then Some [mkProperty "createdAt" "string" "datetime" true; mkProperty "title" "string" "" false] else None.

Definition any_number (literal : string) : bool := true.
Definition no_labels : ExternalLabelFilterSet := mkLabelSet (mkLabelFilter None None) (mkLabelFilter None None).

Definition ex_query (first : Z) : ConnectionQuery :=
  mkQuery (Some first) "" None "" (Ok ([], mkDID "" [], no_labels)) "createdAt" "" false.

Definition ex_builder : nodeBuilder := typedBuilder ex_registry "app.post".
Definition ex_walk (first : Z) (fuel : nat) : M db (list Edge) :=
  walk ex_registry any_number "app.post" true false ex_builder (ex_query first) fuel "".

Definition ex_rows (d : db) : list (string * row) :=
  candidates "app.post" (filters_match []) (did_matches (mkDID "" [])) (label_set_matches no_labels) false by_created d.
Definition ex_records (d : db) : list SortedRecord :=
  match scanSortedRecords by_created (ex_rows d) with Ok l => l | Err _ => [] end.

Lemma ex_accepted_all : accepted [] (mkDID "" []) no_labels.
Proof. split; [vm_compute; reflexivity|intros _; vm_compute; lia|vm_compute; reflexivity]. Qed.

Lemma ex_all_sortable :
  sortable "app.post" (buildFilterClause []) (buildDIDFilterClause (mkDID "" [])) (buildExternalLabelFilterSetClause no_labels)
    (filters_match []) (did_matches (mkDID "" [])) (label_set_matches no_labels) false by_created ex_sorted_db.
Proof.
  split; [by right|by left|by intros []|by intros [[]]|apply ex_candidates_normal|].
  apply (few_params_fit _ _ _ _ _ _ 0 0 0); [| | |lia]; intros n c; vm_compute; done.
Qed.

Lemma ex_walkable :
  walkable ex_registry any_number "app.post" true false ex_builder (ex_query 1) [] (mkDID "" []) no_labels
    ex_sorted_db bare (ex_records ex_sorted_db).
Proof.
  split.
  - done.
  - done.
  - apply ex_accepted_all.
  - apply ex_all_sortable.
  - by vm_compute.
  - intros rs. exists (λ _ node, node). split; [|done]. repeat (eapply reads_bind; [apply reads_ret| |done]; intros ? [= <-]).
    apply reads_ret.
  - intros r Hr. assert (Hall : forallb (λ r, forallb valid_utf8 (cursor_values by_created r) &&
      bool_decide (normalizeCreatedAtCursor by_created (cursor_values by_created r) = Ok (cursor_values by_created r)))
      (ex_records ex_sorted_db) = true) by by vm_compute.
    rewrite forallb_forall in Hall. apply list_elem_of_In, Hall, andb_prop in Hr as [Hv Hn%bool_decide_eq_true].
    split; [|done]. rewrite forallb_forall in Hv. apply Forall_forall. intros s Hs. by apply Hv, list_elem_of_In.
  - intros r e _ He. eapply typed_sort_value; [|exact He]. by intros [[] _].
Qed.


(** A record whose JSON is not an object fills a page of one: the page is empty, says there
    is more, and its end cursor is empty, so the client starts over. *)
Definition dead_db : db := set_records (<[ex_uri "e" := ex_row (Some (ex_time "3")) "[]"]>) ex_sorted_db.

Example dead_page_restarts :
  match run (resolveRecordConnection ex_registry any_number "app.post" true false ex_builder true (ex_query 1)) dead_db with
  | (Ok c, _) => co_edges c = [] ∧ co_hasNextPage c = true ∧ co_endCursor c = Some ""
  | _ => False
  end ∧ (run (ex_walk 1 50) dead_db).1 = Err "out of fuel".
Proof. split; vm_compute; [split_and!|]; reflexivity. Qed.
