(* ===== verification/EndorsementClosure.v ===== *)
(** * The endorsement closure query

    src/internal/graphql/schema/endorsement_closure.go: the [where] argument, the closure
    of its root, the filter on degrees, and pages with cursors made of a degree and a DID.
    Error texts leave out the quoted DID. What certified profiles attach is a parameter. *)
From S2P Require Import Prelude GoStrings Json Effects Database Closure ClosureProps Like RecordStore Filters Endorsements Cursors Connection.

(** A value of a GraphQL argument. The members of a map come in the order Go ranges over them. *)
Inductive argument :=
  | ArgNil
  | ArgInt (z : Z)
  | ArgString (s : string)
  | ArgList (items : list argument)
  | ArgStrings (items : list string)
  | ArgMap (members : list (string * argument))
  | ArgOther.

(** [m[name]], with the comma-ok form's flag. *)
Fixpoint arg_get (members : list (string * argument)) (name : string) : option argument :=
  match members with
  | [] => None
  | (n, a) :: rest => if (n =? name)%string then Some a else arg_get rest name
  end.

Record endorsementClosureWhere := mkWhere { wh_RootDID : string; wh_MinDegree : Z; wh_MaxDegree : Z }.

Record endorsementClosurePage := mkPage {
  pg_Accounts : list Account;
  pg_TotalCount : nat;
  pg_HasNextPage : bool;
  pg_HasPreviousPage : bool;
}.

(** strconv [Atoi]: a sign and decimal digits that fit 64 bits. *)
Fixpoint digits_value (s : string) (acc : Z) : option Z :=
  match s with
  | EmptyString => Some acc
  | String c r =>
      if (48 <=? byte_val c)%N && (byte_val c <=? 57)%N
      then digits_value r (acc * 10 + (Z.of_N (byte_val c) - 48)) else None
  end.

Definition Atoi (s : string) : option Z :=
  let '(negative, digits) := match s with
    | String c r => if (byte_val c =? 45)%N then (true, r) else if (byte_val c =? 43)%N then (false, r) else (false, s)
    | EmptyString => (false, s) end in
  if (digits =? "")%string then None
  else
    v ← digits_value digits 0;
    let v := (if negative : bool then - v else v)%Z in
    if (- 2 ^ 63 <=? v)%Z && (v <? 2 ^ 63)%Z then Some v else None.

Section query.
Context `{EndorsementEnv}.

(** ** The where argument *)

Definition endorsementClosureDegreeValue (op : string) (raw : argument) : outcome Z :=
  match raw with
  | ArgInt degree =>
      if (degree <? 1)%Z || (MaxDegree <? degree)%Z
      then Err ("where.degree." +:+ op +:+ " must be between 1 and " +:+ itoa MaxDegree +:+ ", got " +:+ itoa degree)
      else Ok degree
  | _ => Err ("where.degree." +:+ op +:+ " must be an integer from 1 through " +:+ itoa MaxDegree)
  end.

Definition applyEndorsementClosureDegreeFilter (wh : endorsementClosureWhere) (degreeFilter : list (string * argument))
    : outcome endorsementClosureWhere :=
  match head (filter (λ op, op ≠ "eq") degreeFilter.*1) with
  | Some op => Err ("where.degree." +:+ op +:+ " is not supported by endorsementClosure; use where.degree.eq")
  | None =>
      match arg_get degreeFilter "eq" with
      | None | Some ArgNil => Ok wh
      | Some value =>
          degree ← endorsementClosureDegreeValue "eq" value;
          mret (mkWhere (wh_RootDID wh) degree degree)
      end
  end.

Definition where_missing : string :=
  "endorsementClosure requires where.did.eq with a valid did:plc: or did:web: identifier".

Definition parseEndorsementClosureWhere (raw : argument) : outcome endorsementClosureWhere :=
  match raw with
  | ArgMap whereMap =>
      match arg_get whereMap "did" with
      | Some (ArgMap didFilter) =>
          if bool_decide (is_Some (arg_get didFilter "in"))
          then Err "endorsementClosure supports one root DID per request; use where.did.eq instead of where.did.in"
          else
            let rootDID := match arg_get didFilter "eq" with Some (ArgString s) => s | _ => "" end in
            if negb (IsValidDID rootDID) then Err "where.did.eq is not a valid DID; use a did:plc: or did:web: identifier"
            else
              let wh := mkWhere rootDID 1 MaxDegree in
              wh ← match arg_get whereMap "degree" with
                   | None | Some ArgNil => Ok wh
                   | Some (ArgMap degreeFilter) => applyEndorsementClosureDegreeFilter wh degreeFilter
                   | Some _ => Err "where.degree must be an object with supported operator eq"
                   end;
              if (wh_MaxDegree wh <? wh_MinDegree wh)%Z
              then Err ("where.degree selects no valid endorsement degrees; use values from 1 through " +:+ itoa MaxDegree)
              else Ok wh
      | _ => Err where_missing
      end
  | _ => Err where_missing
  end.

Definition filterEndorsementClosureAccounts (accounts : list Account) (wh : endorsementClosureWhere) : list Account :=
  filter (λ a, (wh_MinDegree wh <= Z.of_nat (ac_Degree a) <= wh_MaxDegree wh)%Z) accounts.

(** ** Cursors and pages *)

Definition encodeEndorsementClosureCursor (account : Account) : string :=
  encodeCursorValues [itoa (Z.of_nat (ac_Degree account)); ac_DID account].

Definition decodeEndorsementClosureCursor (cursor : string) : outcome (Z * string) :=
  parts ← decodeCursorValues cursor;
  match parts with
  | [part; did] =>
      match Atoi part with
      | None => Err "degree component must be an integer"
      | Some degree =>
          if (degree <? 1)%Z || (MaxDegree <? degree)%Z
          then Err ("degree component must be between 1 and " +:+ itoa MaxDegree)
          else if negb (IsValidDID did) then Err "DID component must be a did:plc: or did:web: identifier"
          else Ok (degree, did)
      end
  | _ => Err "expected degree and DID components"
  end.

Definition after_cursor (degree : Z) (did : string) (a : Account) : bool :=
  (degree <? Z.of_nat (ac_Degree a))%Z
  || ((Z.of_nat (ac_Degree a) =? degree)%Z && negb (bool_decide (String.le (ac_DID a) did))).

Fixpoint endorsementClosureStartOffset (accounts : list Account) (cursorDegree : Z) (cursorDID : string) : nat :=
  match accounts with
  | [] => 0
  | a :: rest => if after_cursor cursorDegree cursorDID a then 0
                 else S (endorsementClosureStartOffset rest cursorDegree cursorDID)
  end.

(** [first] is 0 and [after] empty when absent. *)
Definition endorsementClosurePageForArgs (accounts : list Account) (first : Z) (after : string)
    : outcome endorsementClosurePage :=
  let pageSize := Z.to_nat (ClampPageSize first) in
  start ← (if (after =? "")%string then Ok 0
           else c ← wrap_err "invalid endorsementClosure cursor" (decodeEndorsementClosureCursor after);
                mret (endorsementClosureStartOffset accounts c.1 c.2));
  let last := Nat.min (start + pageSize) (length accounts) in
  mret (mkPage (take (last - start) (drop start accounts)) (length accounts) (last <? length accounts) (0 <? start)).
End query.

(** ** The connection *)

Section connection.
Context {Profile : Type}.

(** [None]: profiles are not asked for; else the profile of an account, or null. *)
Definition hydration := option (gmap string Profile).

Definition profile_data (did : string) (h : hydration) : option (option Profile) :=
  byDID ← h; Some (byDID !! did).

Record ViaNode := mkVia { vn_did : string; vn_profile : option (option Profile) }.
Record AccountNode := mkAccountNode {
  an_did : string;
  an_degree : nat;
  an_via : list ViaNode;
  an_profile : option (option Profile);
}.

Record ClosureConnection := mkClosureConnection {
  cc_edges : list (string * AccountNode);
  cc_hasNextPage : bool;
  cc_hasPreviousPage : bool;
  cc_startCursor : option string;
  cc_endCursor : option string;
  cc_totalCount : nat;
  cc_truncated : bool;
}.

Definition endorsementViaAccountNodes (dids : list string) (h : hydration) : list ViaNode :=
  (λ did, mkVia did (profile_data did h)) <$> dids.

Definition account_node (h : hydration) (a : Account) : AccountNode :=
  mkAccountNode (ac_DID a) (ac_Degree a) (endorsementViaAccountNodes (ac_Via a) h) (profile_data (ac_DID a) h).

Definition buildEndorsementClosureConnection (page : endorsementClosurePage) (truncated : bool) (h : hydration)
    : ClosureConnection :=
  let cursors := encodeEndorsementClosureCursor <$> pg_Accounts page in
  mkClosureConnection (zip cursors (account_node h <$> pg_Accounts page)) (pg_HasNextPage page)
    (pg_HasPreviousPage page) (head cursors) (last cursors) (pg_TotalCount page) truncated.

Context `{Env} `{SqlFunctions} `{EndorsementEnv} `{TextOrder}.
Context (typedRecordsRequireValid : bool) (hydrateCertifiedProfiles : list string → M db hydration).

(** The accounts of a page whose profiles are asked for. *)
Definition profile_dids (accounts : list Account) : list string := accounts ≫= λ a, ac_DID a :: ac_Via a.

Definition endorsementClosureResolver (hasRepos : bool) (wh : argument) (first : Z) (after : string)
    : M db ClosureConnection :=
  wh ← of_outcome (parseEndorsementClosureWhere wh);
  if negb hasRepos then
    throw "endorsement closure cannot run because record repositories are unavailable; retry after the request context is initialised"
  else
    result ← wrap "compute endorsement closure"
      (Compute (Adjacency0 := endorsement_adjacency (negb typedRecordsRequireValid)) (wh_RootDID wh) (wh_MaxDegree wh) DefaultClosureCap);
    page ← of_outcome (endorsementClosurePageForArgs (filterEndorsementClosureAccounts (re_Accounts result) wh) first after);
    profileHydration ← wrap "failed to hydrate endorsement closure certified profiles"
      (hydrateCertifiedProfiles (profile_dids (pg_Accounts page)));
    mret (buildEndorsementClosureConnection page (re_Truncated result) profileHydration).

(** A client that passes each page's end cursor back. *)
Fixpoint closure_walk (fuel : nat) (wh : argument) (first : Z) (after : string) : M db (list AccountNode) :=
  match fuel with
  | O => mret []
  | S f =>
      c ← endorsementClosureResolver true wh first after;
      if cc_hasNextPage c then
        rest ← closure_walk f wh first (default "" (cc_endCursor c)); mret ((cc_edges c).*2 ++ rest)
      else mret (cc_edges c).*2
  end.
End connection.
