(* ===== verification/EndorsementClosureProps.v ===== *)
(** * The endorsement closure, page by page

    A client that walks the pages of an endorsement closure by their end cursors gets the
    accounts of the closure of the endorsement graph, of the degrees it asked for, once
    each and in order. *)
From S2P Require Import Prelude GoStrings Json GoTime AtprotoTime Effects Database Closure ClosureProps Like RecordStore Keyset Filters Endorsements KeysetSpec FilteredPages Cursors Connection ConnectionProps EndorsementClosure.

(** Identifiers the parser takes are not empty and UTF-8 (in fact ASCII). *)
Class DidLaws `{EndorsementEnv} := {
  did_not_empty s : IsValidDID s = true → s ≠ "";
  did_utf8 s : IsValidDID s = true → valid_utf8 s = true;
}.

Section pages.
Context `{DidLaws}.
Implicit Types (a : Account) (accounts : list Account).

(** ** The where argument *)

Lemma apply_degree_ok wh ops wh' :
  applyEndorsementClosureDegreeFilter wh ops = Ok wh' →
  wh' = wh ∨ ∃ n, wh' = mkWhere (wh_RootDID wh) n n ∧ (1 <= n <= MaxDegree)%Z.
Proof.
  unfold applyEndorsementClosureDegreeFilter, endorsementClosureDegreeValue. destruct (head _); [done|].
  destruct (arg_get ops "eq") as [[| |s|l|l|m|]|]; cbn; try (intros [= <-]; by left); [|done..].
  destruct (_ || _) eqn:E; cbn; [done|]. intros [= <-]. right. apply orb_false_iff in E as [?%Z.ltb_ge ?%Z.ltb_ge].
  by exists z.
Qed.

Lemma parse_where_ok raw wh :
  parseEndorsementClosureWhere raw = Ok wh →
  IsValidDID (wh_RootDID wh) = true ∧ (1 <= wh_MinDegree wh)%Z ∧ (wh_MinDegree wh <= wh_MaxDegree wh <= MaxDegree)%Z.
Proof.
  unfold parseEndorsementClosureWhere. destruct raw as [| | | | |m|]; [done..| |done].
  destruct (arg_get m "did") as [[| | | | |f|]|]; [done..| |done|done].
  case_bool_decide; [done|]. set (root := match arg_get f "eq" with Some (ArgString s) => s | _ => "" end).
  destruct (IsValidDID root) eqn:Ev; [|done]. cbn [negb]. cbv zeta.
  intros Hwh. match type of Hwh with (?m ≫= _) = _ => destruct m as [wh0|] eqn:E; [|done] end. cbn in Hwh.
  destruct (Z.ltb_spec (wh_MaxDegree wh0) (wh_MinDegree wh0)); [done|]. injection Hwh as <-.
  assert (Hcase : wh0 = mkWhere root 1 MaxDegree ∨ ∃ n, wh0 = mkWhere root n n ∧ (1 <= n <= MaxDegree)%Z).
  { destruct (arg_get m "degree") as [[| | | | |ops|]|]; try done; [left; congruence| |left; congruence].
    by apply apply_degree_ok in E. }
  destruct Hcase as [->|(n & -> & ?)]; cbn; unfold MaxDegree in *; split_and!; (done || lia).
Qed.

(** ** Cursors *)

Definition shown a : Prop := (1 <= Z.of_nat (ac_Degree a) <= MaxDegree)%Z ∧ IsValidDID (ac_DID a) = true.

Lemma decode_encode_account a :
  shown a → decodeEndorsementClosureCursor (encodeEndorsementClosureCursor a) = Ok (Z.of_nat (ac_Degree a), ac_DID a).
Proof.
  intros [Hd Hv]. unfold decodeEndorsementClosureCursor, encodeEndorsementClosureCursor.
  assert (Ha : Atoi (itoa (Z.of_nat (ac_Degree a))) = Some (Z.of_nat (ac_Degree a)) ∧
    valid_utf8 (itoa (Z.of_nat (ac_Degree a))) = true).
  { unfold MaxDegree in Hd. assert (Z.of_nat (ac_Degree a) = 1 ∨ Z.of_nat (ac_Degree a) = 2 ∨ Z.of_nat (ac_Degree a) = 3)%Z
      as [-> | [-> | ->]] by lia; by vm_compute. }
  rewrite decode_encode_valid by (repeat constructor; [apply Ha|by apply did_utf8]). cbn [mbind outcome_bind].
  rewrite (proj1 Ha), !(proj2 (Z.ltb_ge _ _)) by lia. cbn [orb]. by rewrite Hv.
Qed.

Lemma account_cursor_not_empty a : encodeEndorsementClosureCursor a ≠ "".
Proof. unfold encodeEndorsementClosureCursor. apply encoded_nonempty. Qed.

(** ** Offsets *)

Lemma offset_split pre a suf :
  StronglySorted by_degree (pre ++ a :: suf) → NoDup (ac_DID <$> pre ++ a :: suf) →
  endorsementClosureStartOffset (pre ++ a :: suf) (Z.of_nat (ac_Degree a)) (ac_DID a) = S (length pre).
Proof.
  intros Hs Hnd.
  assert (Hself : after_cursor (Z.of_nat (ac_Degree a)) (ac_DID a) a = false).
  { unfold after_cursor. rewrite Z.ltb_irrefl, bool_decide_true by reflexivity. cbn. by rewrite andb_false_r. }
  induction pre as [|x pre IH]; cbn [app endorsementClosureStartOffset length].
  - rewrite Hself. f_equal. cbn in Hs, Hnd. inversion Hs as [|? ? Hs' Hall]; subst. apply NoDup_cons in Hnd as [Hnot _].
    destruct suf as [|y suf]; [done|]. cbn [endorsementClosureStartOffset].
    inversion Hall as [|? ? Hay _]; subst. assert (after_cursor (Z.of_nat (ac_Degree a)) (ac_DID a) y = true) as ->; [|done].
    unfold after_cursor. destruct Hay as [?|[Heq Hle]]; [by rewrite (proj2 (Z.ltb_lt _ _)) by lia|].
    rewrite Heq, Z.eqb_refl, bool_decide_false; [by rewrite orb_true_r|]. intros Hle'. apply Hnot. rewrite fmap_cons.
    rewrite (anti_symm String.le _ _ Hle Hle'). left.
  - cbn in Hs, Hnd. inversion Hs as [|? ? Hs' Hall]; subst. apply NoDup_cons in Hnd as [_ Hnd].
    assert (Hxa : by_degree x a) by (rewrite Forall_forall in Hall; apply Hall; set_solver).
    assert (after_cursor (Z.of_nat (ac_Degree a)) (ac_DID a) x = false) as ->; [|f_equal; by apply IH].
    unfold after_cursor. destruct Hxa as [?|[Heq Hle]].
    + rewrite (proj2 (Z.ltb_ge _ _)) by lia. by rewrite (proj2 (Z.eqb_neq _ _)) by lia.
    + rewrite (proj2 (Z.ltb_ge _ _)) by lia. rewrite bool_decide_true by done. by rewrite andb_false_r.
Qed.

(** A page at an offset. *)
Definition page_at accounts (size offset : nat) : endorsementClosurePage :=
  let last := Nat.min (offset + size) (length accounts) in
  mkPage (take (last - offset) (drop offset accounts)) (length accounts) (last <? length accounts) (0 <? offset).

(** The cursors that lead to an offset: none to the first, that of an account to the next. *)
Definition leads_to accounts (after : string) (offset : nat) : Prop :=
  (after = "" ∧ offset = 0) ∨
  ∃ pre a suf, accounts = pre ++ a :: suf ∧ shown a ∧ after = encodeEndorsementClosureCursor a ∧ offset = S (length pre).

Lemma page_leads accounts first after offset :
  StronglySorted by_degree accounts → NoDup (ac_DID <$> accounts) → leads_to accounts after offset →
  endorsementClosurePageForArgs accounts first after = Ok (page_at accounts (Z.to_nat (ClampPageSize first)) offset).
Proof.
  intros Hs Hnd [[-> ->]|(pre & a & suf & -> & Ha & -> & ->)]; unfold endorsementClosurePageForArgs; [done|].
  rewrite (proj2 (String.eqb_neq _ _)) by apply account_cursor_not_empty. rewrite decode_encode_account by done.
  cbn [wrap_err mbind outcome_bind mret outcome_ret fst snd]. by rewrite offset_split.
Qed.

(** The page's last account leads to the next offset. *)
Lemma page_next accounts size offset :
  Forall shown accounts → 0 < size → offset + size < length accounts →
  ∃ a, last (pg_Accounts (page_at accounts size offset)) = Some a ∧
    leads_to accounts (encodeEndorsementClosureCursor a) (offset + size).
Proof.
  intros Hsh Hsz Hlt. unfold page_at. cbn. rewrite Nat.min_l by lia. replace (offset + size - offset) with size by lia.
  destruct (lookup_lt_is_Some_2 accounts (offset + size - 1)) as [a Ha]; [lia|].
  exists a. split.
  - rewrite last_lookup, length_take, length_drop, Nat.min_l by lia.
    rewrite lookup_take_lt by lia. rewrite lookup_drop. rewrite <- Ha. f_equal. lia.
  - right. exists (take (offset + size - 1) accounts), a, (drop (S (offset + size - 1)) accounts). split_and!.
    + by rewrite take_drop_middle.
    + rewrite Forall_forall in Hsh. apply Hsh. by eapply list_elem_of_lookup_2.
    + done.
    + rewrite length_take. lia.
Qed.
End pages.

(** ** The walk *)

Section walk.
Context `{Env} `{SqlFunctions} `{DidLaws} `{TextOrder} {Profile : Type}.
Context (requireValid : bool) (hydrate : list string → M db (hydration (Profile:=Profile))) (d : db).
Notation walk := (closure_walk requireValid hydrate).

(** The account a node shows. *)
Definition node_account (n : AccountNode (Profile:=Profile)) : Account :=
  mkAccount (an_did n) (an_degree n) (vn_did <$> an_via n).

Lemma node_of_account h a : node_account (account_node h a) = a.
Proof.
  destruct a as [did degree via]. unfold node_account, account_node, endorsementViaAccountNodes. cbn. f_equal.
  rewrite <- list_fmap_compose. rewrite <- (list_fmap_id via) at 2. by apply list_fmap_ext.
Qed.

Hypothesis Hread : awards_readable (negb requireValid) d.
Hypothesis Hhydrate : ∀ dids, ∃ h, ReadsAs (hydrate dids) d (Ok h).

Lemma edges_nodes page truncated h :
  node_account <$> (cc_edges (buildEndorsementClosureConnection page truncated h)).*2 = pg_Accounts page.
Proof.
  cbn. rewrite snd_zip by (by rewrite !length_fmap). rewrite <- list_fmap_compose.
  rewrite <- (list_fmap_id (pg_Accounts page)) at 2. apply list_fmap_ext. intros. apply node_of_account.
Qed.

Context (arg : argument) (wh : endorsementClosureWhere) (first : Z) (r : Result).
Hypothesis Hwhere : parseEndorsementClosureWhere arg = Ok wh.
Hypothesis Hcompute : ReadsAs (Compute (Adjacency0 := endorsement_adjacency (negb requireValid))
  (wh_RootDID wh) (wh_MaxDegree wh) DefaultClosureCap) d (Ok r).
Let accounts := filterEndorsementClosureAccounts (re_Accounts r) wh.
Hypothesis Hsorted : StronglySorted by_degree accounts.
Hypothesis Hnodup : NoDup (ac_DID <$> accounts).
Hypothesis Hshown : Forall shown accounts.

Lemma resolver_page after offset :
  leads_to accounts after offset →
  let page := page_at accounts (Z.to_nat (ClampPageSize first)) offset in
  ∃ h, ReadsAs (endorsementClosureResolver requireValid hydrate true arg first after) d
    (Ok (buildEndorsementClosureConnection page (re_Truncated r) h)).
Proof.
  intros Hl page. destruct (Hhydrate (profile_dids (pg_Accounts page))) as [h Hh]. exists h.
  unfold endorsementClosureResolver. rewrite Hwhere. eapply reads_bind; [apply reads_of_outcome| |done].
  intros w [= <-]. cbn [negb]. eapply reads_bind; [by apply reads_wrap| |done].
  intros r' [= <-]. fold accounts. rewrite (page_leads _ _ _ _ Hsorted Hnodup Hl). fold page.
  eapply reads_bind; [apply reads_of_outcome| |done]. intros p [= <-].
  eapply reads_bind; [by apply reads_wrap| |done]. intros h' [= <-]. apply reads_ret.
Qed.

Lemma walk_from fuel after offset :
  leads_to accounts after offset → length accounts - offset < fuel →
  ∃ nodes, ReadsAs (walk fuel arg first after) d (Ok nodes) ∧ node_account <$> nodes = drop offset accounts.
Proof.
  revert after offset. induction fuel as [|fuel IH]; intros after offset Hl Hf; [lia|]. cbn [closure_walk].
  set (size := Z.to_nat (ClampPageSize first)).
  assert (Hsize : 0 < size) by (assert (Hc := clamp_bounds first); lia).
  destruct (resolver_page after offset Hl) as [h Hh]. fold size in Hh.
  set (page := page_at accounts size offset) in *.
  set (c := buildEndorsementClosureConnection page (re_Truncated r) h) in *.
  assert (Hnodes : node_account <$> (cc_edges c).*2 = pg_Accounts page) by apply edges_nodes.
  destruct (Nat.ltb_spec (offset + size) (length accounts)) as [Hlt|Hge].
  - destruct (page_next accounts size offset Hshown Hsize Hlt) as (a & Ha & Hlead). fold page in Ha.
    destruct (IH _ _ Hlead) as (rest & Hr & Hrest); [lia|].
    exists ((cc_edges c).*2 ++ rest). split.
    + eapply reads_bind; [exact Hh| |done]. intros c' [= <-].
      assert (cc_hasNextPage c = true) as -> by (apply Nat.ltb_lt; lia).
      assert (default "" (cc_endCursor c) = encodeEndorsementClosureCursor a) as -> by (cbn [c cc_endCursor buildEndorsementClosureConnection]; by rewrite fmap_last, Ha).
      eapply reads_bind; [exact Hr| |done]. intros rest' [= <-]. apply reads_ret.
    + rewrite fmap_app, Hnodes, Hrest. cbn. rewrite Nat.min_l by lia. replace (offset + size - offset) with size by lia.
      rewrite <- (take_drop size (drop offset accounts)) at 2. by rewrite drop_drop.
  - exists (cc_edges c).*2. split.
    + eapply reads_bind; [exact Hh| |done]. intros c' [= <-].
      assert (cc_hasNextPage c = false) as -> by (apply Nat.ltb_ge; lia). apply reads_ret.
    + rewrite Hnodes. cbn. rewrite Nat.min_r by lia. by rewrite take_ge by (rewrite length_drop; lia).
Qed.
End walk.

(** C9. A client that reads the endorsement closure of a root page by page, whatever the
    page size, gets every account of the closure with a degree it asked for, once each and
    in order of degree and DID, and stops: the accounts are those of the graph in which an
    issuer endorses a subject by an award of an endorsement badge that allows it and that
    the subject has not rejected, at their distance from the root. *)
Theorem endorsement_walk_complete `{Env} `{SqlFunctions} `{DidLaws} `{TextOrder} {Profile}
    requireValid (hydrate : list string → M db (hydration (Profile:=Profile))) d arg wh first fuel :
  awards_readable (negb requireValid) d → (∀ dids, ∃ h, ReadsAs (hydrate dids) d (Ok h)) →
  parseEndorsementClosureWhere arg = Ok wh → Z.to_nat DefaultClosureCap < fuel →
  ∃ r nodes,
    closure_of (endorses (negb requireValid) d) (wh_RootDID wh) (Z.to_nat (wh_MaxDegree wh)) DefaultClosureCap r ∧
    ReadsAs (closure_walk requireValid hydrate fuel arg first "") d (Ok nodes) ∧
    node_account <$> nodes = filterEndorsementClosureAccounts (re_Accounts r) wh.
Proof.
  intros Hread Hhyd Hwh Hfuel. destruct (parse_where_ok _ _ Hwh) as (Hv & Hmin & Hmax).
  destruct (@compute_closure _ (endorsement_adjacency (negb requireValid)) d (endorses (negb requireValid) d)
    (endorsement_laws _ d Hread) (wh_RootDID wh) (wh_MaxDegree wh) DefaultClosureCap)
    as (r & Hr & Hc).
  { split_and!; [by apply did_not_empty|lia|lia|done|done]. }
  set (accounts := filterEndorsementClosureAccounts (re_Accounts r) wh).
  assert (Hin : ∀ a, a ∈ accounts → a ∈ re_Accounts r) by (intros a [_ ?]%list_elem_of_filter; done).
  destruct (walk_from requireValid hydrate d Hhyd arg wh first r Hwh Hr) with (fuel := fuel) (after := "") (offset := 0)
    as (nodes & Hn & Heq); [| | |by left| |].
  - apply strongly_sorted_filter, Hc.
  - apply nodup_fmap_filter, Hc.
  - apply Forall_forall. intros a Ha%Hin. apply (closure_sound _ _ _ _ _ Hc) in Ha. split.
    + destruct (account_degree _ _ _ _ Ha). unfold MaxDegree in *. lia.
    + destruct (account_degree _ _ _ _ Ha), (ac_Degree a) as [|n] eqn:E; [lia|].
      destruct (distance_step (endorses (negb requireValid) d) (wh_RootDID wh) (ac_DID a) n) as (p & _ & He & _).
      { rewrite <- E. apply Ha. }
      by apply endorses_awarded in He as [? _].
  - assert (length accounts ≤ length (re_Accounts r)) by apply length_filter.
    assert (Hcap := closure_cap _ _ _ _ _ Hc). fold accounts. unfold DefaultClosureCap in *. lia.
  - exists r, nodes. split_and!; [done|done|]. exact Heq.
Qed.

(** ** Endorsement closures on a concrete database

    Three accounts, two endorsements: the theorems of closures applied to them, and the
    query that a definition with an issuer that is no JSON document breaks on SQLite. *)

#[local] Existing Instance byte_order.
#[local] Instance ex_sqlite : Env := example_env SQLite.
#[local] Existing Instance ex_sql.

(** The value at a path, if there is one. *)
Fixpoint json_lookup (j : json) (path : list string) : option json :=
  match path with
  | [] => Some j
  | p :: path' =>
      match j with
      | JObject ms =>
          match last (filter (λ m : member, (m.1 =? p)%string = true) ms) with
          | Some (_, (_, v)) => json_lookup v path' | None => None end
      | _ => None
      end
  end.

Definition json_kind (j : json) : string :=
  match j with
  | JObject _ => "object" | JArray _ => "array" | JString _ => "text"
  | JNumber _ => "real" | JBool _ => "true" | JNull => "null"
  end.

#[local] Instance ex_endorsement_env : EndorsementEnv := {|
  json_type doc path := j ← json_parse doc; json_kind <$> json_lookup j path;
  json_document s := bool_decide (is_Some (json_parse s));
  ParseDID s := if has_prefix "did:plc:" s && valid_utf8 s then Some "plc" else None;
|}.

#[local] Instance ex_did_laws : DidLaws.
Proof.
  split; intros s; unfold IsValidDID; cbn; destruct (_ && _) eqn:E; try done.
  - by intros _ ->.
  - intros _. by apply andb_prop in E as [_ ?].
Qed.

Definition award_of (issuer subject badge : string) : row :=
  mkRow "cid" issuer certifiedBadgeAwardCollection
    (quoted "{'subject':{'$type':'app.certified.defs#did','did':'" +:+ subject +:+ quoted "'},'badge':{'uri':'" +:+ badge +:+ quoted "'}}")
    0 None "valid" None None None.

Definition definition_with (body : string) : row :=
  mkRow "cid" "did:plc:z" certifiedBadgeDefinitionCollection (quoted body) 0 None "valid" None None None.

Definition alice : string := "did:plc:alice".
Definition bob : string := "did:plc:bob".
Definition carol : string := "did:plc:carol".

Definition endorsed_db : db :=
  set_records (λ _, {[ "at://1" := award_of alice bob "at://d"; "at://2" := award_of bob carol "at://d";
    "at://3" := award_of carol alice "at://e"; "at://d" := definition_with "{'badgeType':'endorsement'}";
    "at://e" := definition_with "{'badgeType':'other'}" ]}) (empty_db 0).

Lemma endorsed_readable : awards_readable false endorsed_db.
Proof.
  intros u r Hu%elem_of_map_to_list Hc Hs.
  assert (Hall : Forall (λ kv : string * row, row_collection kv.2 = certifiedBadgeAwardCollection →
    is_ok (award_edge false endorsed_db kv.1 kv.2) = true) (map_to_list (db_records endorsed_db))).
  { apply (bool_decide_unpack _). vm_compute. exact I. }
  rewrite Forall_forall in Hall. by apply (Hall (u, r)).
Qed.

Definition closure_from_alice : Result :=
  Closure.mkResult [mkAccount bob 1 []; mkAccount carol 2 [bob]] false.

Lemma closure_correct_witness :
  run (Compute (Adjacency0 := endorsement_adjacency false) alice 3 10) endorsed_db = (Ok closure_from_alice, endorsed_db) ∧
  distance (endorses false endorsed_db) alice carol 2.
Proof.
  destruct (@closure_correct _ (endorsement_adjacency false) endorsed_db (endorses false endorsed_db)
    (endorsement_laws _ _ endorsed_readable) alice 3 10) as [(r & Hr & Hc) _]; [by split_and!|].
  assert (Hrun : run (Compute (Adjacency0 := endorsement_adjacency false) alice 3 10) endorsed_db = (Ok closure_from_alice, endorsed_db))
    by (vm_compute; reflexivity).
  split; [exact Hrun|]. assert (Heq := reads_run _ _ _ Hr). rewrite Hrun in Heq. injection Heq as <-.
  apply (account_distance _ _ _ _ (closure_sound _ _ _ _ _ Hc (mkAccount carol 2 [bob]) ltac:(right; left))).
Defined.

Definition no_profiles : list string → M db (hydration (Profile:=unit)) := λ _, mret None.

Definition from_alice : argument := ArgMap [("did", ArgMap [("eq", ArgString alice)])].

Lemma endorsement_walk_complete_witness :
  (fmap (M:=outcome) (fmap (M:=list) node_account) (run (closure_walk true no_profiles 3001 from_alice 1 "") endorsed_db).1) = Ok (re_Accounts closure_from_alice) ∧
  ∃ r, closure_of (endorses false endorsed_db) alice 3 DefaultClosureCap r.
Proof.
  destruct (endorsement_walk_complete true no_profiles endorsed_db from_alice (mkWhere alice 1 3) 1 3001)
    as (r & nodes & Hc & Hn & Heq).
  - apply endorsed_readable.
  - intros dids. exists None. apply reads_ret.
  - vm_compute. reflexivity.
  - unfold DefaultClosureCap. lia.
  - split; [|by exists r]. vm_compute. reflexivity.
Defined.

(** An award of a definition whose list of issuers holds a plain text. *)
Definition plain_issuer_db : db :=
  set_records (λ _, {[ "at://1" := award_of alice bob "at://d";
    "at://d" := definition_with "{'badgeType':'endorsement','allowedIssuers':['did:plc:alice']}" ]}) (empty_db 0).

Example plain_issuer_breaks_sqlite :
  (run (Compute (Adjacency0 := endorsement_adjacency true) alice 1 10) plain_issuer_db).1 =
  Err "load graph edges for degree 1: query Certified endorsement adjacency: malformed JSON".
Proof. vm_compute. reflexivity. Qed.
