(* ===== verification/ValidatorExamples.v ===== *)
(** * A startup set at work

    Two Lexicons, one referring to the other, and a validator of a few lines in Indigo's
    place: the registry, the fingerprint, the verdicts and a refresh run over two records. *)
From S2P Require Import Prelude GoStrings Json AtprotoTime Effects Database RecordStore RecordProps Refresh RefreshProps Lexicons LexiconProps Validator ValidatorProps FilteredPages Cursors.

#[local] Existing Instance byte_order.

(** A digest in hexadecimal. *)
Fixpoint hex_text (s : string) : string :=
  match s with
  | EmptyString => ""
  | String c s' => String (hex_digit (Ascii.N_of_ascii c / 16)) (String (hex_digit (Ascii.N_of_ascii c mod 16)) (hex_text s'))
  end.

#[local] Instance hex_env : Env := {|
  dialect := SQLite; jsonb := Some; sha256_hex s := "sha256-" +:+ hex_text s;
  datetime_parser := {| ParseDatetimeTime := parse_millis |};
|}.

Definition hex_pair (c : Ascii.ascii) : Ascii.ascii * Ascii.ascii := (hex_digit (Ascii.N_of_ascii c / 16), hex_digit (Ascii.N_of_ascii c mod 16)).

Definition hex_pair_back (p : Ascii.ascii * Ascii.ascii) : option Ascii.ascii :=
  a ← hex_val p.1; b ← hex_val p.2; Some (byte (16 * a + b)).

Lemma hex_pair_inv c : hex_pair_back (hex_pair c) = Some c.
Proof. destruct c as [[][][][][][][][]]; vm_compute; reflexivity. Qed.

Lemma hex_text_injective s t : hex_text s = hex_text t → s = t.
Proof.
  revert t. induction s as [|c s IH]; intros [|c' t]; [done..|]. cbn [hex_text]. intros [= Ha Hb Ht].
  assert (Hp : Some c = Some c') by (rewrite <- !hex_pair_inv; unfold hex_pair; by rewrite Ha, Hb).
  injection Hp as ->. by rewrite (IH _ Ht).
Qed.

Lemma hex_text_line s : no_byte newline (hex_text s) = true.
Proof.
  assert (Hd : ∀ c, no_byte newline (byte_str (hex_pair c).1) && no_byte newline (byte_str (hex_pair c).2) = true).
  { intros c. by destruct c as [[][][][][][][][]]; vm_compute. }
  induction s as [|c s IH]; [done|]. cbn [hex_text].
  change (String ?a (String ?b ?r)) with (byte_str a +:+ (byte_str b +:+ r)). rewrite !no_byte_app, IH.
  specialize (Hd c). apply andb_prop in Hd as [H1 H2]. cbn in H1, H2 |- *. by rewrite H1, H2.
Qed.

(** ** Documents *)

Definition post_lexicon : string := quoted
  "{'lexicon':1,'id':'app.post','defs':{'main':{'type':'record','key':'tid','record':{'type':'object','properties':{'style':{'type':'ref','ref':'app.style#look'}}}}}}".
Definition style_lexicon : string := quoted
  "{'lexicon':1,'id':'app.style','defs':{'look':{'type':'object','properties':{'colour':{'type':'string'}}}}}".
Definition other_lexicon : string := quoted
  "{'lexicon':1,'id':'app.other','defs':{'main':{'type':'record','key':'any','record':{'type':'object'}}}}".

Definition small_set : gmap string string := {[ "app.post" := post_lexicon; "app.style" := style_lexicon ]}.
Definition large_set : gmap string string := <[ "app.other" := other_lexicon ]> small_set.

(** Indigo's part: a definition is its key rule, data is JSON, and a record conforms when
    it is an object of a collection in the catalog. *)
Definition schema_def (j : json) : option string :=
  match j with
  | JObject ms => match member_value "key" ms with Some (JString k) => Some k | _ => None end
  | _ => None
  end.

#[local] Instance small_indigo : Indigo := {|
  SchemaDef := option string;
  Catalog := list string;
  AtData := json;
  NewBaseCatalog := [];
  record_key := λ k, k;
  with_record_key := λ k _, Some k;
  unmarshal_schema := λ raw, (λ e : string * gmap string json, (e.1, schema_def <$> e.2)) <$> reference_document raw;
  AddSchemaFile := λ c f, Ok (f.1 :: c);
  UnmarshalJSON := λ raw, decoded (json_parse raw);
  indigo_ValidateRecord := λ c j collection,
    if negb (bool_decide (collection ∈ c)) then Err "schema not found in catalog"
    else match j with JObject _ => Ok tt | _ => Err "expected an object" end;
  ParseRecordKey := λ k, if (k =? "")%string then Err "empty" else Ok tt;
  ParseTID := λ k, if (String.length k =? 13) then Ok tt else Err "not a TID";
  ParseNSID := λ k, Ok tt;
|}.

Definition any_number (_ : string) : bool := true.
Definition the_validator (o : outcome Validator) : Validator :=
  match o with Ok v => v | Err _ => mkValidator NewRegistry [] ∅ ∅ end.
Definition small_validator : Validator := the_validator (NewValidatorFromLexiconBytes any_number small_set).
Definition large_validator : Validator := the_validator (NewValidatorFromLexiconBytes any_number large_set).

Lemma built o : is_ok o = true → o = Ok (the_validator o).
Proof. by destruct o. Qed.

Example startup_sets_load :
  is_ok (NewValidatorFromLexiconBytes any_number small_set) = true ∧
  is_ok (NewValidatorFromLexiconBytes any_number large_set) = true ∧
  CheckLexiconSet any_number {[ "app.post" := post_lexicon ]} =
    Err "startup Lexicon set has unresolved references: app.post references app.style#look, which is not present in the saved Lexicon set".
Proof. split_and!; by vm_compute. Qed.

(** ** The registry *)

Definition parsed_small : list Lexicon :=
  omap (λ raw, match ParseBytes any_number raw with Ok l => Some l | Err _ => None end) [post_lexicon; style_lexicon].

Lemma small_named : ∀ l, l ∈ parsed_small → well_named l.
Proof.
  assert (Hall : Forall (λ l, no_byte hash (lx_ID l) = true ∧ bool_decide (lx_Others l !! "" = None) = true) parsed_small).
  { repeat constructor; by vm_compute. }
  intros l Hl. rewrite Forall_forall in Hall. destruct (Hall l Hl) as [? ?%bool_decide_eq_true]. by split.
Qed.

Lemma small_distinct : NoDup (lx_ID <$> parsed_small).
Proof. apply (bool_decide_unpack _). by vm_compute. Qed.

Lemma registry_resolves_witness :
  let r := NewRegistryFromLexicons parsed_small in
  (∃ o, ResolveRef r "#look" "app.style" = Some (inl o) ∧ ResolveRef r "app.style#look" "app.post" = Some (inl o)) ∧
  (∃ d, GetRecordDef r "app.post" = Some d ∧ rd_Key d = "tid").
Proof.
  destruct (registry_resolves parsed_small small_named small_distinct "#look" "app.style") as (Hobj & _ & Hmain).
  intros r. destruct (ResolveRef r "#look" "app.style") as [[o|d]|] eqn:E; [|by vm_compute in E..].
  split.
  - exists o. split; [done|]. apply Hobj in E as (l & Hl & Hin).
    destruct (registry_resolves parsed_small small_named small_distinct "app.style#look" "app.post") as (Hobj2 & _).
    apply Hobj2. by exists l.
  - destruct (GetRecordDef r "app.post") as [d|] eqn:Ed; [|by vm_compute in Ed].
    exists d. split; [done|]. vm_compute in Ed. by injection Ed as <-.
Defined.

(** ** Fingerprints *)

Lemma small_ids saved :
  bool_decide (Forall (λ id, id ∈ ["app.post"; "app.style"; "app.other"]) (map_to_list saved).*1) = true → ordinary_ids saved.
Proof.
  intros Hall%bool_decide_eq_true id raw Hid. rewrite Forall_forall in Hall.
  assert (Hin : id ∈ ["app.post"; "app.style"; "app.other"]).
  { apply Hall, list_elem_of_fmap. exists (id, raw). split; [done|]. by apply elem_of_map_to_list. }
  repeat (apply elem_of_cons in Hin as [->|Hin]; [by vm_compute|]). by apply elem_of_nil in Hin.
Qed.

(** A set with a further document gives the collection the same fingerprint. *)
Lemma fingerprint_covers_references_witness :
  ∃ h, validator_LexiconHash small_validator "app.post" = Some h ∧ validator_LexiconHash large_validator "app.post" = Some h ∧
    depends_on small_set "app.post" "app.post" ∧ ¬ depends_on small_set "app.post" "app.other".
Proof.
  destruct (validator_LexiconHash small_validator "app.post") as [h|] eqn:E1; [|by vm_compute in E1].
  assert (E2 : validator_LexiconHash large_validator "app.post" = Some h) by (rewrite <- E1; by vm_compute).
  destruct (fingerprint_covers_references any_number small_set large_set small_validator large_validator "app.post" h)
    as [(Hdep & Hself & Hdocs)|Hcol]; [| | | | |done|done| |].
  - intros s. unfold sha256_hex, hex_env. rewrite no_byte_app. by rewrite hex_text_line.
  - apply small_ids. by vm_compute.
  - apply small_ids. by vm_compute.
  - apply built. by vm_compute.
  - apply built. by vm_compute.
  - exists h. split_and!; [done..|]. intros Hother. destruct (Hdocs _ Hother) as [Hs _]. by vm_compute in Hs; destruct Hs.
  - exfalso. assert (Hinj : ∀ s t, ¬ collide s t).
    { intros s t [Hne Heq]. apply Hne. apply (inj (String.append "sha256-")) in Heq. by apply hex_text_injective. }
    destruct Hcol as [Hcol|(id & raw1 & raw2 & _ & _ & _ & Hcol)]; by apply Hinj in Hcol.
Defined.

(** ** Refreshing records *)

Definition stored_row (collection raw : string) : row :=
  mkRow "cid" "did:plc:a" collection raw 0 None StatusUnvalidated None None None.

Definition stored_db : db := set_records (λ _, {[
  "at://did:plc:a/app.post/3jzfcijpj2z2a" := stored_row "app.post" "{}";
  "at://did:plc:a/app.post/short" := stored_row "app.post" "{}";
  "at://did:plc:a/app.gone/self" := stored_row "app.gone" "{}" ]}) (empty_db 7).

Lemma stored_plain : rows_plain stored_db.
Proof. split; [done|]. intros u r _. unfold store_json. cbn. done. Qed.

Lemma validator_hashes_not_empty v : hash_not_empty (record_validator v).
Proof. intros c h. cbn. unfold validator_LexiconHash. destruct (v_hashes v !! c); [|done]. by intros [= <-]. Qed.

Lemma stored_readable : rows_readable stored_db.
Proof.
  intros u [r Hu]. unfold stored_db in Hu. cbn in Hu.
  repeat (apply lookup_insert_Some in Hu as [[<- _]|[_ Hu]]; [by vm_compute; eexists|]).
  apply lookup_singleton_Some in Hu as [<- _]. by vm_compute; eexists.
Qed.

Lemma refresh_settles_witness :
  ∃ o d' fs', RefreshCollections (record_validator small_validator) ["app.post"] stored_db [] = (o, d', fs') ∧ is_ok o = true ∧
  row_validation_status <$> db_records d' !! "at://did:plc:a/app.post/3jzfcijpj2z2a" = Some StatusValid ∧
  row_validation_status <$> db_records d' !! "at://did:plc:a/app.post/short" = Some StatusInvalid ∧
  row_validation_status <$> db_records d' !! "at://did:plc:a/app.gone/self" = Some StatusUnknownSchema.
Proof.
  destruct (RefreshCollections (record_validator small_validator) ["app.post"] stored_db []) as [[o d'] fs'] eqn:E.
  destruct (refresh_settles (record_validator small_validator) ["app.post"] (validator_hashes_not_empty _) stored_db [] o d' fs'
    stored_plain E) as (_ & Hall & Hok & _).
  assert (Ho : is_ok o = true) by (apply Hok; [reflexivity|exact stored_readable]).
  exists o, d', fs'. split; [reflexivity|]. split; [exact Ho|]. rewrite !(Hall Ho). clear.
  split_and!; vm_compute; reflexivity.
Defined.
