(* ===== verification/OAuthProof.v ===== *)
(** * Proofs of possession

    src/internal/oauth/dpop.go [VerifyDPoPProof] and its helpers: the header of the proof is
    decoded and checked, its key put together, the token handed to the jwt library, and the
    claims compared with the request. The parameters ([Jose]) are what the code takes from the
    crypto and jwt libraries: SHA-256, the check that a point is on the curve, a token's
    claims when its signature is good, and the library's check of [exp] and [nbf]. *)
From S2P Require Import Prelude GoStrings Json Base64.

(** The claims the code reads. *)
Record DPoPClaims := mkClaims { cm_HTM : string; cm_HTU : string; cm_ID : string; cm_IssuedAt : option Z }.

Record JWK := mkJWK { jw_Kty : string; jw_Crv : string; jw_X : string; jw_Y : string; jw_D : string }.

Class Jose := {
  sha256_sum : string → string;
  ParseUncompressedPublicKey : string → outcome string;
  (** [jwt.ParseWithClaims] up to the signature; the function gives the key for a method. *)
  jwt_parse : string → (string → outcome string) → outcome DPoPClaims;
  (** The registered claims at a time. *)
  jwt_validate : Z → string → outcome unit;
}.

Definition or_error {A} (e : string) (o : option A) : outcome A :=
  match o with Some a => Ok a | None => Err e end.

(** ** Keys *)

Definition p256CoordinateSize : nat := (256 + 7) / 8.

Fixpoint allZero (b : string) : bool :=
  match b with EmptyString => true | String c r => (byte_val c =? 0)%N && allZero r end.

Fixpoint zeros (n : nat) : string := match n with O => "" | S n' => String (byte 0) (zeros n') end.

(** [make([]byte, n)] with [b] at its end. *)
Definition left_pad (n : nat) (b : string) : string := zeros (n - String.length b) +:+ b.

Definition normalizeCoordinate (b : string) : outcome string :=
  let len := String.length b in
  let coordLen := p256CoordinateSize in
  if len =? 0 then Err "empty coordinate"
  else if (coordLen <? len) && negb (allZero (stake (len - coordLen) b)) then
    Err ("coordinate too large: " +:+ itoa (Z.of_nat len) +:+ " bytes")
  else
    let b := if coordLen <? len then sdrop (len - coordLen) b else b in
    Ok (if String.length b =? coordLen then b else left_pad coordLen b).

Section proofs.
Context `{Jose}.

(** RFC 7638: the members in alphabetical order. *)
Definition CalculateJKTFromJWK (jwk : JWK) : string :=
  let canonical := quoted "{'crv':'" +:+ jw_Crv jwk +:+ quoted "','kty':'" +:+ jw_Kty jwk +:+ quoted "','x':'"
    +:+ jw_X jwk +:+ quoted "','y':'" +:+ jw_Y jwk +:+ quoted "'}" in
  b64_encode RawURLEncoding (sha256_sum canonical).

(** ** The header *)

Definition jwk_members (ms : list member) : option JWK :=
  kty ← string_field "kty" ms; crv ← string_field "crv" ms; x ← string_field "x" ms; y ← string_field "y" ms;
  d ← string_field "d" ms; Some (mkJWK kty crv x y d).

(** [json.Unmarshal] into the header struct: [typ], [alg] and [jwk]. *)
Definition unmarshal_header (text : string) : option (string * string * option JWK) :=
  ms ← struct_members text;
  typ ← string_field "typ" ms; alg ← string_field "alg" ms; jwk ← struct_ptr_field "jwk" ms;
  match jwk with
  | None => Some (typ, alg, None)
  | Some ks => k ← jwk_members ks; Some (typ, alg, Some k)
  end.

Definition check_header (typ alg : string) (jwk : option JWK) : outcome JWK :=
  if negb (typ =? "dpop+jwt")%string then Err "invalid typ: expected dpop+jwt"
  else if negb (alg =? "ES256")%string then Err "invalid alg: expected ES256"
  else match jwk with
  | None => Err "missing jwk in header"
  | Some k => if negb (jw_Kty k =? "EC")%string || negb (jw_Crv k =? "P-256")%string
              then Err "invalid jwk: expected EC P-256" else Ok k
  end.

Definition public_key (k : JWK) : outcome string :=
  xBytesRaw ← or_error "failed to decode X" (b64_decode RawURLEncoding (jw_X k));
  yBytesRaw ← or_error "failed to decode Y" (b64_decode RawURLEncoding (jw_Y k));
  xBytes ← wrap_err "failed to normalize X" (normalizeCoordinate xBytesRaw);
  yBytes ← wrap_err "failed to normalize Y" (normalizeCoordinate yBytesRaw);
  wrap_err "failed to parse public key" (ParseUncompressedPublicKey (String (byte 4) (xBytes +:+ yBytes))).

(** The key function: ECDSA methods only. *)
Definition key_for (publicKey alg : string) : outcome string :=
  if bool_decide (alg ∈ ["ES256"; "ES384"; "ES512"]) then Ok publicKey
  else Err ("unexpected signing method: " +:+ alg).

(** The thumbprint of the key in a proof's header and the claims signed with it. *)
Definition open_proof (proof : string) : outcome (string * DPoPClaims) :=
  match split dot proof with
  | [h; _; _] =>
      headerBytes ← or_error "failed to decode header" (b64_decode RawURLEncoding h);
      '(typ, alg, jwk) ← or_error "failed to parse header" (unmarshal_header headerBytes);
      k ← check_header typ alg jwk;
      publicKey ← public_key k;
      claims ← wrap_err "failed to verify token" (jwt_parse proof (key_for publicKey));
      Ok (CalculateJKTFromJWK k, claims)
  | _ => Err "invalid JWT format"
  end.

(** ** The proof *)

Definition DefaultMaxDPoPAge : Z := 300.

Record DPoPValidationResult := mkProof { pf_JKT : string; pf_JTI : string; pf_IAT : Z }.

Definition VerifyDPoPProof (proof method url : string) (maxAgeSeconds now : Z) : outcome DPoPValidationResult :=
  '(jkt, claims) ← open_proof proof;
  wrap_err "failed to verify token" (jwt_validate now proof) ;;
  if negb (cm_HTM claims =? method)%string then Err ("method mismatch: expected " +:+ method +:+ ", got " +:+ cm_HTM claims)
  else if negb (cm_HTU claims =? url)%string then Err ("url mismatch: expected " +:+ url +:+ ", got " +:+ cm_HTU claims)
  else if (cm_ID claims =? "")%string then Err "missing jti claim"
  else match cm_IssuedAt claims with
       | None => Err "missing iat claim"
       | Some iat =>
           if (maxAgeSeconds <? now - iat)%Z then Err ("proof too old: " +:+ itoa (now - iat) +:+ " seconds")
           else if (now + 60 <? iat)%Z then Err "proof issued in the future"
           else Ok (mkProof jkt (cm_ID claims) iat)
       end.

(** What an accepted proof is: its key's thumbprint and its claims, for this request, young
    enough and not from the future. *)
Lemma verify_proof_inv p method url age now pf :
  VerifyDPoPProof p method url age now = Ok pf →
  ∃ jkt cm, open_proof p = Ok (jkt, cm) ∧ pf_JTI pf = cm_ID cm ∧ pf_JKT pf = jkt ∧ cm_IssuedAt cm = Some (pf_IAT pf) ∧
    cm_HTM cm = method ∧ cm_HTU cm = url ∧ (now - pf_IAT pf <= age)%Z ∧ (pf_IAT pf <= now + 60)%Z.
Proof.
  unfold VerifyDPoPProof, mbind, outcome_bind. destruct (open_proof p) as [[jkt cm]|]; [|done].
  destruct (wrap_err _ _); [|done].
  destruct (String.eqb_spec (cm_HTM cm) method); [|done]. destruct (String.eqb_spec (cm_HTU cm) url); [|done].
  destruct (cm_ID cm =? "")%string; [done|]. destruct (cm_IssuedAt cm) as [iat|] eqn:Ei; [|done].
  destruct (Z.ltb_spec age (now - iat)); [done|]. destruct (Z.ltb_spec (now + 60) iat); [done|].
  intros [= <-]. exists jkt, cm. cbn. by split_and!.
Qed.

End proofs.
