(* ===== verification/OAuthStore.v ===== *)
(** * OAuth tables

    src/internal/oauth/types.go and the repositories of
    src/internal/database/repositories/oauth_*.go: clients, authorization requests and
    codes, access and refresh tokens, upstream requests and sessions, and the used ids of
    DPoP proofs.

    The boolean columns [used] and [revoked] (and [require_redirect_exact]) are INTEGER on
    SQLite and BOOLEAN on PostgreSQL, but the statements write and read them as
    integers: PostgreSQL refuses [SET used = 1] and the driver refuses to bind an integer to
    a boolean column or to scan a boolean into an [int]. Foreign keys are enforced. *)
From S2P Require Import Prelude GoStrings Effects Database.

(** ** Rows *)

Record Client := mkClient {
  cl_ClientID : string;
  cl_ClientSecret : option string;
  cl_ClientName : string;
  cl_RedirectURIs : list string;
  cl_GrantTypes : list string;
  cl_ResponseTypes : list string;
  cl_Scope : option string;
  cl_TokenEndpointAuthMethod : string;
  cl_ClientType : string;
  cl_CreatedAt : Z;
  cl_UpdatedAt : Z;
  cl_Metadata : string;
  cl_AccessTokenExpiration : Z;
  cl_RefreshTokenExpiration : Z;
  cl_RequireRedirectExact : bool;
  cl_RegistrationAccessToken : option string;
  cl_JWKS : option string;
}.

Record AccessToken := mkAccess {
  at_Token : string;
  at_TokenType : string;
  at_ClientID : string;
  at_UserID : option string;
  at_SessionID : option string;
  at_SessionIteration : option Z;
  at_Scope : option string;
  at_CreatedAt : Z;
  at_ExpiresAt : Z;
  at_Revoked : bool;
  at_DPoPJKT : option string;
}.

Record RefreshToken := mkRefresh {
  rt_Token : string;
  rt_AccessToken : string;
  rt_ClientID : string;
  rt_UserID : string;
  rt_SessionID : option string;
  rt_SessionIteration : option Z;
  rt_Scope : option string;
  rt_CreatedAt : Z;
  rt_ExpiresAt : option Z;
  rt_Revoked : bool;
}.

Record AuthorizationCode := mkCode {
  ac_Code : string;
  ac_ClientID : string;
  ac_UserID : string;
  ac_SessionID : option string;
  ac_SessionIteration : option Z;
  ac_RedirectURI : string;
  ac_Scope : option string;
  ac_CodeChallenge : option string;
  ac_CodeChallengeMethod : option string;
  ac_Nonce : option string;
  ac_CreatedAt : Z;
  ac_ExpiresAt : Z;
  ac_Used : bool;
}.

Record AuthRequest := mkAuthRequest {
  ar_SessionID : string;
  ar_ClientID : string;
  ar_RedirectURI : string;
  ar_Scope : option string;
  ar_State : option string;
  ar_CodeChallenge : option string;
  ar_CodeChallengeMethod : option string;
  ar_ResponseType : string;
  ar_Nonce : option string;
  ar_LoginHint : option string;
  ar_CreatedAt : Z;
  ar_ExpiresAt : Z;
}.

Record ATPRequest := mkATPRequest {
  aq_OAuthState : string;
  aq_AuthorizationServer : string;
  aq_Nonce : string;
  aq_PKCEVerifier : string;
  aq_SigningPublicKey : string;
  aq_DPoPPrivateKey : string;
  aq_CreatedAt : Z;
  aq_ExpiresAt : Z;
}.

Record ATPSession := mkATPSession {
  se_SessionID : string;
  se_Iteration : Z;
  se_DID : option string;
  se_SessionCreatedAt : Z;
  se_ATPOAuthState : string;
  se_SigningKeyJKT : string;
  se_DPoPKey : string;
  se_AccessToken : option string;
  se_RefreshToken : option string;
  se_AccessTokenCreatedAt : option Z;
  se_AccessTokenExpiresAt : option Z;
  se_AccessTokenScopes : option string;
  se_SessionExchangedAt : option Z;
  se_ExchangeError : option string;
}.

Record DPoPJTI := mkJTI { jti_JTI : string; jti_CreatedAt : Z }.

(** The tables, the clock ([time.Now().Unix()]) and the operating system's random bytes
    ([crypto/rand]) still to be drawn. *)
Record odb := mkOdb {
  o_clients : gmap string Client;
  o_access : gmap string AccessToken;
  o_refresh : gmap string RefreshToken;
  o_codes : gmap string AuthorizationCode;
  o_auth_requests : gmap string AuthRequest;
  o_atp_requests : gmap string ATPRequest;
  o_sessions : gmap (string * Z) ATPSession;
  o_jtis : gmap string Z;
  o_clock : Z;
  o_random : string;
}.

Definition set_clients f d := mkOdb (f (o_clients d)) (o_access d) (o_refresh d) (o_codes d) (o_auth_requests d) (o_atp_requests d) (o_sessions d) (o_jtis d) (o_clock d) (o_random d).
Definition set_access f d := mkOdb (o_clients d) (f (o_access d)) (o_refresh d) (o_codes d) (o_auth_requests d) (o_atp_requests d) (o_sessions d) (o_jtis d) (o_clock d) (o_random d).
Definition set_refresh f d := mkOdb (o_clients d) (o_access d) (f (o_refresh d)) (o_codes d) (o_auth_requests d) (o_atp_requests d) (o_sessions d) (o_jtis d) (o_clock d) (o_random d).
Definition set_codes f d := mkOdb (o_clients d) (o_access d) (o_refresh d) (f (o_codes d)) (o_auth_requests d) (o_atp_requests d) (o_sessions d) (o_jtis d) (o_clock d) (o_random d).
Definition set_auth_requests f d := mkOdb (o_clients d) (o_access d) (o_refresh d) (o_codes d) (f (o_auth_requests d)) (o_atp_requests d) (o_sessions d) (o_jtis d) (o_clock d) (o_random d).
Definition set_atp_requests f d := mkOdb (o_clients d) (o_access d) (o_refresh d) (o_codes d) (o_auth_requests d) (f (o_atp_requests d)) (o_sessions d) (o_jtis d) (o_clock d) (o_random d).
Definition set_sessions f d := mkOdb (o_clients d) (o_access d) (o_refresh d) (o_codes d) (o_auth_requests d) (o_atp_requests d) (f (o_sessions d)) (o_jtis d) (o_clock d) (o_random d).
Definition set_jtis f d := mkOdb (o_clients d) (o_access d) (o_refresh d) (o_codes d) (o_auth_requests d) (o_atp_requests d) (o_sessions d) (f (o_jtis d)) (o_clock d) (o_random d).
Definition set_clock (t : Z) d := mkOdb (o_clients d) (o_access d) (o_refresh d) (o_codes d) (o_auth_requests d) (o_atp_requests d) (o_sessions d) (o_jtis d) t (o_random d).
Definition set_random (r : string) d := mkOdb (o_clients d) (o_access d) (o_refresh d) (o_codes d) (o_auth_requests d) (o_atp_requests d) (o_sessions d) (o_jtis d) (o_clock d) r.

(** ** Expiry *)

(** [time.Now().Unix() > t.ExpiresAt] *)
Definition AccessToken_IsExpired (now : Z) (t : AccessToken) : bool := (at_ExpiresAt t <? now)%Z.
Definition RefreshToken_IsExpired (now : Z) (t : RefreshToken) : bool :=
  match rt_ExpiresAt t with None => false | Some e => (e <? now)%Z end.
Definition AuthorizationCode_IsExpired (now : Z) (c : AuthorizationCode) : bool := (ac_ExpiresAt c <? now)%Z.
Definition AuthRequest_IsExpired (now : Z) (r : AuthRequest) : bool := (ar_ExpiresAt r <? now)%Z.
Definition ATPRequest_IsExpired (now : Z) (r : ATPRequest) : bool := (aq_ExpiresAt r <? now)%Z.

Section store.
Context `{Env}.

(** ** Statements *)

(** An integer for, or from, a BOOLEAN column. *)
Definition int_as_bool : outcome unit :=
  match dialect with SQLite => Ok tt | PostgreSQL => Err "type boolean does not match integer" end.

Definition insert_key {K A} `{Countable K} (k : K) (a : A) (m : gmap K A) : outcome (gmap K A) :=
  match m !! k with None => Ok (<[k := a]> m) | Some _ => Err "UNIQUE constraint failed" end.

(** [REFERENCES oauth_client(client_id)] *)
Definition client_exists (d : odb) (id : string) : outcome unit :=
  match o_clients d !! id with Some _ => Ok tt | None => Err "FOREIGN KEY constraint failed" end.

(** [QueryRow], with [sql.ErrNoRows] read as nil. *)
Definition get_row {K A} `{Countable K} (table : odb → gmap K A) (scan : outcome unit) (k : K) : M odb (option A) :=
  stmt (λ d, match table d !! k with None => Ok (None, d) | Some a => scan ;; Ok (Some a, d) end).

Definition before_time (before : Z) (e : option Z) : bool := match e with Some e => (e <? before)%Z | None => false end.

(** [DELETE ... WHERE expires_at < ?] *)
Definition drop_expired {K A} `{Countable K} (expires : A → option Z) (before : Z) (m : gmap K A) : gmap K A :=
  filter (λ kv : K * A, before_time before (expires kv.2) = false) m.

(** ** Authorization codes *)

Definition Codes_Insert (c : AuthorizationCode) : M odb unit :=
  stmt (λ d, int_as_bool ;; m ← insert_key (ac_Code c) c (o_codes d); Ok (tt, set_codes (λ _, m) d)).

Definition Codes_Get (codeStr : string) : M odb (option AuthorizationCode) := get_row o_codes int_as_bool codeStr.

Definition use_code (c : AuthorizationCode) : AuthorizationCode :=
  mkCode (ac_Code c) (ac_ClientID c) (ac_UserID c) (ac_SessionID c) (ac_SessionIteration c) (ac_RedirectURI c)
    (ac_Scope c) (ac_CodeChallenge c) (ac_CodeChallengeMethod c) (ac_Nonce c) (ac_CreatedAt c) (ac_ExpiresAt c) true.

Definition MarkUsed (codeStr : string) : M odb unit :=
  stmt (λ d, int_as_bool ;; Ok (tt, set_codes (alter use_code codeStr) d)).

Definition Codes_Delete (codeStr : string) : M odb unit := exec (set_codes (delete codeStr)).

Definition Codes_DeleteExpired (before : Z) : M odb unit :=
  exec (set_codes (drop_expired (λ c, Some (ac_ExpiresAt c)) before)).

(** ** Access tokens *)

Definition Access_Insert (t : AccessToken) : M odb unit :=
  stmt (λ d, int_as_bool ;; client_exists d (at_ClientID t) ;; m ← insert_key (at_Token t) t (o_access d);
    Ok (tt, set_access (λ _, m) d)).

Definition Access_Get (tokenStr : string) : M odb (option AccessToken) := get_row o_access int_as_bool tokenStr.

Definition revoke_access (t : AccessToken) : AccessToken :=
  mkAccess (at_Token t) (at_TokenType t) (at_ClientID t) (at_UserID t) (at_SessionID t) (at_SessionIteration t)
    (at_Scope t) (at_CreatedAt t) (at_ExpiresAt t) true (at_DPoPJKT t).

Definition Access_Revoke (tokenStr : string) : M odb unit :=
  stmt (λ d, int_as_bool ;; Ok (tt, set_access (alter revoke_access tokenStr) d)).

Definition Access_RevokeByUserID (userID : string) : M odb unit :=
  stmt (λ d, int_as_bool ;;
    Ok (tt, set_access (fmap (λ t, if bool_decide (at_UserID t = Some userID) then revoke_access t else t)) d)).

Definition Access_Delete (tokenStr : string) : M odb unit := exec (set_access (delete tokenStr)).

Definition Access_DeleteExpired (before : Z) : M odb unit :=
  exec (set_access (drop_expired (λ t, Some (at_ExpiresAt t)) before)).

(** ** Refresh tokens *)

Definition Refresh_Insert (t : RefreshToken) : M odb unit :=
  stmt (λ d, int_as_bool ;; client_exists d (rt_ClientID t) ;; m ← insert_key (rt_Token t) t (o_refresh d);
    Ok (tt, set_refresh (λ _, m) d)).

Definition Refresh_Get (tokenStr : string) : M odb (option RefreshToken) := get_row o_refresh int_as_bool tokenStr.

Definition revoke_refresh (t : RefreshToken) : RefreshToken :=
  mkRefresh (rt_Token t) (rt_AccessToken t) (rt_ClientID t) (rt_UserID t) (rt_SessionID t) (rt_SessionIteration t)
    (rt_Scope t) (rt_CreatedAt t) (rt_ExpiresAt t) true.

Definition Refresh_Revoke (tokenStr : string) : M odb unit :=
  stmt (λ d, int_as_bool ;; Ok (tt, set_refresh (alter revoke_refresh tokenStr) d)).

Definition Refresh_RevokeByUserID (userID : string) : M odb unit :=
  stmt (λ d, int_as_bool ;;
    Ok (tt, set_refresh (fmap (λ t, if (rt_UserID t =? userID)%string then revoke_refresh t else t)) d)).

Definition Refresh_Delete (tokenStr : string) : M odb unit := exec (set_refresh (delete tokenStr)).

(** [expires_at IS NOT NULL AND expires_at < ?] *)
Definition Refresh_DeleteExpired (before : Z) : M odb unit := exec (set_refresh (drop_expired rt_ExpiresAt before)).

(** ** Authorization requests *)

Definition AuthRequests_Insert (r : AuthRequest) : M odb unit :=
  stmt (λ d, client_exists d (ar_ClientID r) ;; m ← insert_key (ar_SessionID r) r (o_auth_requests d);
    Ok (tt, set_auth_requests (λ _, m) d)).

Definition AuthRequests_Get (sessionID : string) : M odb (option AuthRequest) := get_row o_auth_requests (Ok tt) sessionID.

Definition AuthRequests_Delete (sessionID : string) : M odb unit := exec (set_auth_requests (delete sessionID)).

Definition AuthRequests_DeleteExpired (before : Z) : M odb unit :=
  exec (set_auth_requests (drop_expired (λ r, Some (ar_ExpiresAt r)) before)).

(** ** Upstream requests and sessions *)

Definition ATPRequests_Insert (r : ATPRequest) : M odb unit :=
  stmt (λ d, m ← insert_key (aq_OAuthState r) r (o_atp_requests d); Ok (tt, set_atp_requests (λ _, m) d)).

Definition ATPRequests_Get (oauthState : string) : M odb (option ATPRequest) := get_row o_atp_requests (Ok tt) oauthState.

Definition ATPRequests_Delete (oauthState : string) : M odb unit := exec (set_atp_requests (delete oauthState)).

Definition ATPRequests_DeleteExpired (before : Z) : M odb unit :=
  exec (set_atp_requests (drop_expired (λ r, Some (aq_ExpiresAt r)) before)).

Definition Sessions_Insert (s : ATPSession) : M odb unit :=
  stmt (λ d, m ← insert_key (se_SessionID s, se_Iteration s) s (o_sessions d); Ok (tt, set_sessions (λ _, m) d)).

(** [ORDER BY iteration DESC LIMIT 1] *)
Definition latest_session (sessionID : string) (m : gmap (string * Z) ATPSession) : option ATPSession :=
  map_fold (λ k s best, if negb (k.1 =? sessionID)%string then best
    else match best with
         | Some b => if (se_Iteration b <? k.2)%Z then Some s else best
         | None => Some s
         end) None m.

Definition Sessions_GetLatest (sessionID : string) : M odb (option ATPSession) :=
  query (λ d, latest_session sessionID (o_sessions d)).

(** The columns [Update] sets. *)
Definition update_session (s old : ATPSession) : ATPSession :=
  mkATPSession (se_SessionID old) (se_Iteration old) (se_DID s) (se_SessionCreatedAt old) (se_ATPOAuthState old)
    (se_SigningKeyJKT old) (se_DPoPKey old) (se_AccessToken s) (se_RefreshToken s) (se_AccessTokenCreatedAt s)
    (se_AccessTokenExpiresAt s) (se_AccessTokenScopes s) (se_SessionExchangedAt s) (se_ExchangeError s).

Definition Sessions_Update (s : ATPSession) : M odb unit :=
  exec (set_sessions (alter (update_session s) (se_SessionID s, se_Iteration s))).

(** ** Used proof ids *)

Definition JTI_Insert (j : DPoPJTI) : M odb unit :=
  stmt (λ d, m ← insert_key (jti_JTI j) (jti_CreatedAt j) (o_jtis d); Ok (tt, set_jtis (λ _, m) d)).

Definition JTI_Exists (jtiStr : string) : M odb bool := query (λ d, bool_decide (is_Some (o_jtis d !! jtiStr))).

Definition JTI_DeleteOlderThan (before : Z) : M odb unit := exec (set_jtis (drop_expired Some before)).

(** ** Clients *)

Definition Clients_Get (clientID : string) : M odb (option Client) := get_row o_clients (Ok tt) clientID.

(** [metadata] is [::jsonb] on PostgreSQL, and so is [jwks]. *)
Definition Clients_Insert (c : Client) : M odb unit :=
  stmt (λ d, int_as_bool ;; store_json (cl_Metadata c) ;;
    match cl_JWKS c with Some j => store_json j ;; Ok tt | None => Ok tt end ;;
    m ← insert_key (cl_ClientID c) c (o_clients d); Ok (tt, set_clients (λ _, m) d)).

(** What [Update] leaves alone: the type, the creation time and the registration token. *)
Definition update_client (c old : Client) : Client :=
  mkClient (cl_ClientID old) (cl_ClientSecret c) (cl_ClientName c) (cl_RedirectURIs c) (cl_GrantTypes c) (cl_ResponseTypes c) (cl_Scope c)
    (cl_TokenEndpointAuthMethod c) (cl_ClientType old) (cl_CreatedAt old) (cl_UpdatedAt c) (cl_Metadata c) (cl_AccessTokenExpiration c)
    (cl_RefreshTokenExpiration c) (cl_RequireRedirectExact c) (cl_RegistrationAccessToken old) (cl_JWKS c).

Definition Clients_Update (c : Client) : M odb unit :=
  stmt (λ d, int_as_bool ;; store_json (cl_Metadata c) ;;
    match cl_JWKS c with Some j => store_json j ;; Ok tt | None => Ok tt end ;;
    Ok (tt, set_clients (alter (update_client c) (cl_ClientID c)) d)).

(** Newest first; equal times come in an order of the database's choice. *)
Definition client_newer (x y : Client) : Prop := (cl_CreatedAt y <= cl_CreatedAt x)%Z.
#[local] Instance client_newer_dec : RelDecision client_newer.
Proof. unfold client_newer. intros x y. apply _. Defined.

Definition Clients_GetAll : M odb (list Client) :=
  query (λ d, merge_sort client_newer (filter (λ c, cl_ClientID c ≠ "admin") (map_to_list (o_clients d)).*2)).
Definition Clients_GetCount : M odb nat :=
  query (λ d, size (filter (λ kv : string * Client, kv.1 ≠ "admin") (o_clients d))).

Definition admin_client_row (now : Z) : Client :=
  mkClient "admin" None "Admin UI" [] [] [] None "none" "confidential" now now "{}" (86400 * 7) (86400 * 30) false None None.
Definition EnsureAdminClient : M odb unit :=
  existing ← Clients_Get "admin";
  match existing with
  | Some _ => mret tt
  | None => now ← gets o_clock; Clients_Insert (admin_client_row now)
  end.

(** [ON DELETE CASCADE] *)
Definition Clients_Delete (clientID : string) : M odb unit :=
  exec (λ d,
    set_clients (delete clientID) (set_access (filter (λ kv : string * AccessToken, at_ClientID kv.2 ≠ clientID))
      (set_refresh (filter (λ kv : string * RefreshToken, rt_ClientID kv.2 ≠ clientID))
        (set_auth_requests (filter (λ kv : string * AuthRequest, ar_ClientID kv.2 ≠ clientID)) d)))).
End store.
