(* ===== verification/OAuthServer.v ===== *)
(** * OAuth server

    src/internal/server/oauth_handlers.go (authorize, callback, token, revoke, the cleanup
    worker), src/internal/oauth/pkce.go and token_generator.go. A handler runs on the tables
    of OAuthStore and returns the response it writes; a redirect is its target and the query
    parameters added to it.

    Not under the model's control, hence parameters ([OAuthWorld]): the cryptography (that of
    OAuthProof and the upstream keys), what the network answers (handle resolution and the
    upstream authorization server) and whether [net/url] can parse a redirect URI. *)
From S2P Require Import Prelude GoStrings Effects Database Base64 OAuthProof OAuthStore.

(** ** The world outside *)

Record AuthServer := mkAuthServer { as_Issuer : string; as_AuthorizationEndpoint : string }.

Record PDSTokens := mkPDSTokens {
  pt_AccessToken : string;
  pt_ExpiresIn : Z;
  pt_RefreshToken : string;
  pt_Scope : option string;
  pt_Sub : string;
}.

Record ExchangeCodeRequest := mkExchange {
  ex_TokenEndpoint : string;
  ex_Issuer : string;
  ex_Code : string;
  ex_CodeVerifier : string;
  ex_RedirectURI : string;
  ex_DPoPKey : string;
}.

Class OAuthWorld := {
  #[global] oauth_jose :: Jose;
  (** A fresh key pair: its private JSON and its thumbprint. *)
  GenerateDPoPKeyPair : outcome (string * string);
  ParseDPoPKeyPair : string → outcome string;
  ResolveHandleToDID : string → outcome string;
  ResolveAuthServer : string → outcome AuthServer;
  ExchangeCode : ExchangeCodeRequest → outcome PDSTokens;
  url_parses : string → bool;
}.

(** ** Requests and responses *)

Record Request := mkRequest {
  rq_Method : string;
  rq_Form : option (list (string * string));  (** [None]: [ParseForm] fails *)
  rq_Query : list (string * string);
  rq_DPoP : string;
  rq_Authorization : string;
  rq_Path : string;
  rq_RawQuery : string;
}.

(** [url.Values.Get]: the first value, or the empty string. *)
Fixpoint values_get (key : string) (vs : list (string * string)) : string :=
  match vs with
  | [] => ""
  | (k, v) :: rest => if (k =? key)%string then v else values_get key rest
  end.

Record TokenResponse := mkTokenResponse {
  tr_AccessToken : string;
  tr_TokenType : string;
  tr_ExpiresIn : Z;
  tr_RefreshToken : option string;
  tr_Scope : option string;
  tr_Sub : option string;
}.

Inductive Response :=
  | OAuthError (status : Z) (errorCode description : string)
  | MethodNotAllowed (allowed : list string)
  | TokenIssued (r : TokenResponse)
  | RedirectTo (target : string) (params : list (string * string))
  | StatusOK
  | Panic.  (** a nil dereference, recovered by net/http *)

Record Config := mkConfig {
  cf_ExternalBaseURL : string;
  cf_ClientID : string;
  cf_CallbackURL : string;
  cf_AccessTokenExpiration : Z;
  cf_RefreshTokenExpiration : Z;
  cf_AuthorizationCodeExpiration : Z;
}.

(** [NewOAuthHandlers] fills in the defaults. *)
Definition with_defaults (c : Config) : Config :=
  mkConfig (cf_ExternalBaseURL c) (cf_ClientID c) (cf_CallbackURL c)
    (if (cf_AccessTokenExpiration c =? 0)%Z then 3600 else cf_AccessTokenExpiration c)
    (if (cf_RefreshTokenExpiration c =? 0)%Z then 1209600 else cf_RefreshTokenExpiration c)
    (if (cf_AuthorizationCodeExpiration c =? 0)%Z then 600 else cf_AuthorizationCodeExpiration c).

Definition ptrString (s : string) : option string := if (s =? "")%string then None else Some s.

(** [if err != nil { respond; return }] *)
Definition or_respond {S A} (m : M S A) (on_err : string → Response) (k : A → M S Response) : M S Response :=
  o ← attempt m; match o with Ok a => k a | Err e => mret (on_err e) end.

(** [_ = m]: the error is dropped. *)
Definition ignore {S A} (m : M S A) : M S unit := attempt m ;; mret tt.

Definition bad_request (code desc : string) {S} : M S Response := mret (OAuthError 400 code desc).
Definition server_error (desc : string) (_ : string) : Response := OAuthError 500 "server_error" desc.

Section server.
Context `{Env} `{OAuthWorld} (cfg : Config).

(** ** Random tokens *)

Definition CurrentTimestamp : M odb Z := gets o_clock.
Definition ExpirationTimestamp (lifetimeSeconds : Z) : M odb Z := gets (λ d, (o_clock d + lifetimeSeconds)%Z).

Definition generateRandomToken (numBytes : nat) : M odb string := λ d fs,
  if String.length (o_random d) <? numBytes then (Err "no random bytes", d, fs)
  else (Ok (b64_encode RawURLEncoding (stake numBytes (o_random d))), set_random (sdrop numBytes (o_random d)) d, fs).

Definition GenerateAccessToken : M odb string := generateRandomToken 32.
Definition GenerateRefreshToken : M odb string := generateRandomToken 32.
Definition GenerateAuthorizationCode : M odb string := generateRandomToken 32.
Definition GenerateSessionID : M odb string := generateRandomToken 16.
Definition GenerateState : M odb string := generateRandomToken 16.
Definition GenerateCodeVerifier : M odb string := generateRandomToken 32.

(** ** PKCE *)

Definition GenerateCodeChallenge (verifier : string) : string := b64_encode RawURLEncoding (sha256_sum verifier).

Definition VerifyCodeChallenge (verifier challenge method : string) : bool :=
  if (method =? "S256")%string then (GenerateCodeChallenge verifier =? challenge)%string
  else if (method =? "plain")%string then (verifier =? challenge)%string
  else false.

(** ** DPoP proofs *)

Definition ErrDPoPReplay : string := "invalid_dpop_proof: DPoP proof replay detected".

(** [validateDPoP]: the thumbprint of a valid, unused proof; none without a proof. *)
Definition validateDPoP (r : Request) : M odb (option string) :=
  if (rq_DPoP r =? "")%string then mret None
  else
    let tokenURL := cf_ExternalBaseURL cfg +:+ "/oauth/token" in
    now ← CurrentTimestamp;
    result ← of_outcome (VerifyDPoPProof (rq_DPoP r) "POST" tokenURL DefaultMaxDPoPAge now);
    used ← JTI_Exists (pf_JTI result);
    if (used : bool) then throw ErrDPoPReplay
    else JTI_Insert (mkJTI (pf_JTI result) (pf_IAT result)) ;; mret (Some (pf_JKT result)).

(** ** Redirects *)

Definition isValidRedirectURI (uri : string) (registeredURIs : list string) (requireExact : bool) : bool :=
  existsb (λ registered, if requireExact then (uri =? registered)%string else has_prefix registered uri) registeredURIs.

Definition redirectWithError (redirectURI errorCode description state : string) : Response :=
  if negb (url_parses redirectURI) then OAuthError 400 "invalid_request" "Invalid redirect_uri"
  else RedirectTo redirectURI ([("error", errorCode); ("error_description", description)]
         ++ (if (state =? "")%string then [] else [("state", state)])).

(** ** Tokens *)

(** The end of both grants: draw the tokens, store them, answer. *)
Definition issue_tokens (clientID userID : string) (sessionID scope dpopJKT : option string) : M odb Response :=
  or_respond GenerateAccessToken (server_error "Failed to generate access token") (λ accessTokenStr,
  or_respond GenerateRefreshToken (server_error "Failed to generate refresh token") (λ refreshTokenStr,
  now ← CurrentTimestamp;
  let accessExpiresAt := (now + cf_AccessTokenExpiration cfg)%Z in
  let tokenType := match dpopJKT with Some _ => "DPoP" | None => "Bearer" end in
  let accessToken := mkAccess accessTokenStr tokenType clientID (Some userID) sessionID (Some 0%Z) scope now
    accessExpiresAt false dpopJKT in
  or_respond (Access_Insert accessToken) (server_error "Failed to store access token") (λ _,
  let refreshExpiresAt :=
    if (0 <? cf_RefreshTokenExpiration cfg)%Z then Some (now + cf_RefreshTokenExpiration cfg)%Z else None in
  let refreshToken := mkRefresh refreshTokenStr accessTokenStr clientID userID sessionID (Some 0%Z) scope now
    refreshExpiresAt false in
  or_respond (Refresh_Insert refreshToken) (server_error "Failed to store refresh token") (λ _,
  mret (TokenIssued (mkTokenResponse accessTokenStr tokenType (cf_AccessTokenExpiration cfg) (Some refreshTokenStr)
    scope (Some userID))))))).

(** What the code grant checks of a code, before it touches the database again. *)
Definition check_code (now : Z) (authCode : AuthorizationCode) (clientID redirectURI codeVerifier : string) : option Response :=
  let invalid desc := Some (OAuthError 400 "invalid_grant" desc) in
  if ac_Used authCode then invalid "Authorization code already used"
  else if AuthorizationCode_IsExpired now authCode then invalid "Authorization code expired"
  else if negb (ac_ClientID authCode =? clientID)%string then invalid "Client ID mismatch"
  else if negb (ac_RedirectURI authCode =? redirectURI)%string then invalid "Redirect URI mismatch"
  else match ac_CodeChallenge authCode with
       | Some challenge =>
           if (challenge =? "")%string then None
           else if (codeVerifier =? "")%string then
             Some (OAuthError 400 "invalid_request" "code_verifier required for PKCE")
           else if negb (VerifyCodeChallenge codeVerifier challenge (default "S256" (ac_CodeChallengeMethod authCode)))
           then invalid "Invalid code verifier"
           else None
       | None => None
       end.

(** The code grant up to the proof: the code to exchange and the key it gets bound to. *)
Definition code_grant_checks (r : Request) (form : list (string * string))
    (k : AuthorizationCode → option string → M odb Response) : M odb Response :=
  let codeStr := values_get "code" form in
  let clientID := values_get "client_id" form in
  let redirectURI := values_get "redirect_uri" form in
  let codeVerifier := values_get "code_verifier" form in
  if (codeStr =? "")%string then bad_request "invalid_request" "code is required"
  else if (clientID =? "")%string then bad_request "invalid_request" "client_id is required"
  else if (redirectURI =? "")%string then bad_request "invalid_request" "redirect_uri is required"
  else
  or_respond (Clients_Get clientID) (server_error "Database error") (λ client, match client with
  | None => mret (OAuthError 401 "invalid_client" "Client not found")
  | Some client =>
  or_respond (Codes_Get codeStr) (server_error "Database error") (λ authCode, match authCode with
  | None => bad_request "invalid_grant" "Invalid authorization code"
  | Some authCode =>
  now ← CurrentTimestamp;
  match check_code now authCode clientID redirectURI codeVerifier with
  | Some resp => mret resp
  | None =>
  or_respond (validateDPoP r) (λ e, OAuthError 400 "invalid_dpop_proof" e) (k authCode)
  end end) end).

(** Mark the code, then issue. *)
Definition code_grant_issue (codeStr clientID : string) (authCode : AuthorizationCode) (dpopJKT : option string)
    : M odb Response :=
  or_respond (MarkUsed codeStr) (server_error "Database error") (λ _,
    issue_tokens clientID (ac_UserID authCode) (ac_SessionID authCode) (ac_Scope authCode) dpopJKT).

Definition handleAuthorizationCodeGrant (r : Request) (form : list (string * string)) : M odb Response :=
  code_grant_checks r form (code_grant_issue (values_get "code" form) (values_get "client_id" form)).

Definition check_refresh (now : Z) (t : RefreshToken) (clientID : string) : option Response :=
  let invalid desc := Some (OAuthError 400 "invalid_grant" desc) in
  if rt_Revoked t then invalid "Refresh token revoked"
  else if RefreshToken_IsExpired now t then invalid "Refresh token expired"
  else if negb (rt_ClientID t =? clientID)%string then invalid "Client ID mismatch"
  else None.

Definition handleRefreshTokenGrant (r : Request) (form : list (string * string)) : M odb Response :=
  let refreshTokenStr := values_get "refresh_token" form in
  let clientID := values_get "client_id" form in
  if (refreshTokenStr =? "")%string then bad_request "invalid_request" "refresh_token is required"
  else if (clientID =? "")%string then bad_request "invalid_request" "client_id is required"
  else
  or_respond (Clients_Get clientID) (server_error "Database error") (λ client, match client with
  | None => mret (OAuthError 401 "invalid_client" "Client not found")
  | Some client =>
  or_respond (Refresh_Get refreshTokenStr) (server_error "Database error") (λ old, match old with
  | None => bad_request "invalid_grant" "Invalid refresh token"
  | Some old =>
  now ← CurrentTimestamp;
  match check_refresh now old clientID with
  | Some resp => mret resp
  | None =>
  or_respond (validateDPoP r) (λ e, OAuthError 400 "invalid_dpop_proof" e) (λ dpopJKT,
  or_respond (Refresh_Revoke refreshTokenStr) (server_error "Database error") (λ _,
  issue_tokens clientID (rt_UserID old) (rt_SessionID old) (rt_Scope old) dpopJKT))
  end end) end).

Definition HandleToken (r : Request) : M odb Response :=
  if negb (rq_Method r =? "POST")%string then mret (MethodNotAllowed ["POST"])
  else match rq_Form r with
  | None => bad_request "invalid_request" "Failed to parse form data"
  | Some form =>
      let grantType := values_get "grant_type" form in
      if (grantType =? "authorization_code")%string then handleAuthorizationCodeGrant r form
      else if (grantType =? "refresh_token")%string then handleRefreshTokenGrant r form
      else bad_request "unsupported_grant_type" ("Unsupported grant_type: " +:+ grantType)
  end.

Definition HandleRevoke (r : Request) : M odb Response :=
  if negb (rq_Method r =? "POST")%string then mret (MethodNotAllowed ["POST"])
  else match rq_Form r with
  | None => bad_request "invalid_request" "Failed to parse form data"
  | Some form =>
      let token := values_get "token" form in
      if (token =? "")%string then bad_request "invalid_request" "token is required"
      else ignore (Access_Revoke token) ;; ignore (Refresh_Revoke token) ;; mret StatusOK
  end.
End server.
