(* ===== verification/OAuthFlow.v ===== *)
(** * The authorization flow

    oauth_handlers.go [HandleAuthorize], [HandleCallback] and the cleanup worker: a client's
    request is parked under a session id while the user logs in upstream, and the callback
    turns it into an authorization code. *)
From S2P Require Import Prelude GoStrings Effects Database Base64 OAuthProof OAuthStore OAuthServer.

Section flow.
Context `{Env} `{OAuthWorld} (cfg : Config).

Definition supported_method (m : string) : bool := (m =? "GET")%string || (m =? "POST")%string.

(** The checks before anything is looked up upstream: the validated redirect URI's error,
    or the identity the login hint names. *)
Definition resolve_login (loginHint : string) : outcome string :=
  if has_prefix "did:" loginHint then Ok loginHint
  else match ResolveHandleToDID loginHint with
       | Ok did => Ok did
       | Err e => Err ("Failed to resolve handle: " +:+ e)
       end.

(** Store the request, its upstream counterpart and the session; send the user upstream. *)
Definition start_flow (client : Client) (params : list (string * string)) (did : string) (authServer : AuthServer)
    : M odb Response :=
  let clientID := values_get "client_id" params in
  let redirectURI := values_get "redirect_uri" params in
  let state := values_get "state" params in
  let scope := values_get "scope" params in
  let method := values_get "code_challenge_method" params in
  let failure desc (_ : string) := redirectWithError redirectURI "server_error" desc state in
  or_respond GenerateSessionID (failure "Failed to generate session") (λ sessionID,
  now ← CurrentTimestamp;
  expiresAt ← ExpirationTimestamp (cf_AuthorizationCodeExpiration cfg);
  let authReq := mkAuthRequest sessionID clientID redirectURI (ptrString scope) (ptrString state)
    (ptrString (values_get "code_challenge" params)) (ptrString (if (method =? "")%string then "S256" else method))
    (values_get "response_type" params) (ptrString (values_get "nonce" params))
    (ptrString (values_get "login_hint" params)) now expiresAt in
  or_respond (AuthRequests_Insert authReq) (failure "Failed to store authorization request") (λ _,
  or_respond GenerateState (failure "Failed to generate state") (λ atpOAuthState,
  or_respond (of_outcome GenerateDPoPKeyPair) (failure "Failed to generate DPoP key") (λ '(dpopKeyJSON, signingJKT),
  or_respond GenerateCodeVerifier (failure "Failed to generate PKCE verifier") (λ pkceVerifier,
  let atpReq := mkATPRequest atpOAuthState (as_Issuer authServer) sessionID pkceVerifier signingJKT dpopKeyJSON now expiresAt in
  or_respond (ATPRequests_Insert atpReq) (failure "Failed to store ATP request") (λ _,
  let atpSession := mkATPSession sessionID 0 (Some did) now atpOAuthState signingJKT dpopKeyJSON
    None None None None None None None in
  or_respond (Sessions_Insert atpSession) (failure "Failed to store ATP session") (λ _,
  let atpScope := if (scope =? "")%string then default "" (cl_Scope client) else scope in
  let atpScope := if (atpScope =? "")%string then "atproto" else atpScope in
  mret (RedirectTo (as_AuthorizationEndpoint authServer)
    [("client_id", cf_ClientID cfg); ("redirect_uri", cf_CallbackURL cfg); ("response_type", "code");
     ("code_challenge", GenerateCodeChallenge pkceVerifier); ("code_challenge_method", "S256");
     ("state", atpOAuthState); ("scope", atpScope); ("login_hint", did)])))))))).

Definition HandleAuthorize (r : Request) : M odb Response :=
  if negb (supported_method (rq_Method r)) then mret (MethodNotAllowed ["GET"; "POST"])
  else match (if (rq_Method r =? "GET")%string then Some (rq_Query r) else rq_Form r) with
  | None => bad_request "invalid_request" "Failed to parse form data"
  | Some params =>
  let clientID := values_get "client_id" params in
  let redirectURI := values_get "redirect_uri" params in
  let state := values_get "state" params in
  if (clientID =? "")%string then bad_request "invalid_request" "client_id is required"
  else if (redirectURI =? "")%string then bad_request "invalid_request" "redirect_uri is required"
  else
  or_respond (Clients_Get clientID) (server_error "Database error") (λ client, match client with
  | None => bad_request "invalid_client" "Client not found"
  | Some client =>
  let fail code desc := mret (redirectWithError redirectURI code desc state) in
  let method := values_get "code_challenge_method" params in
  let loginHint := values_get "login_hint" params in
  if negb (isValidRedirectURI redirectURI (cl_RedirectURIs client) (cl_RequireRedirectExact client))
  then bad_request "invalid_request" "redirect_uri not registered for client"
  else if negb (values_get "response_type" params =? "code")%string
  then fail "unsupported_response_type" "Only 'code' response_type is supported"
  else if (values_get "code_challenge" params =? "")%string then fail "invalid_request" "code_challenge is required"
  else if negb (method =? "S256")%string && negb (method =? "")%string
  then fail "invalid_request" "Only S256 code_challenge_method is supported"
  else if (loginHint =? "")%string then fail "invalid_request" "login_hint (DID or handle) is required"
  else match resolve_login loginHint with
  | Err e => fail "invalid_request" e
  | Ok did =>
  match ResolveAuthServer did with
  | Err e => fail "server_error" ("Failed to resolve authorization server: " +:+ e)
  | Ok authServer => start_flow client params did authServer
  end end end) end.

(** The upstream tokens go into the session; failures are ignored. *)
Definition record_session (sessionID : string) (now : Z) (t : PDSTokens) : M odb unit :=
  o ← attempt (Sessions_GetLatest sessionID);
  match o with
  | Ok (Some s) =>
      let s' := mkATPSession (se_SessionID s) (se_Iteration s) (Some (pt_Sub t)) (se_SessionCreatedAt s)
        (se_ATPOAuthState s) (se_SigningKeyJKT s) (se_DPoPKey s) (Some (pt_AccessToken t)) (Some (pt_RefreshToken t))
        (Some now) (Some (now + pt_ExpiresIn t)%Z)
        (match pt_Scope t with Some sc => Some sc | None => se_AccessTokenScopes s end) (Some now) (se_ExchangeError s) in
      ignore (Sessions_Update s')
  | _ => mret tt
  end.

(** The code for the client. *)
Definition grant_code (authReq : AuthRequest) (sessionID atpState clientState : string) (t : PDSTokens) (now : Z)
    : M odb Response :=
  let failure desc (_ : string) := redirectWithError (ar_RedirectURI authReq) "server_error" desc clientState in
  or_respond GenerateAuthorizationCode (failure "Failed to generate authorization code") (λ clientCode,
  codeExpiresAt ← ExpirationTimestamp (cf_AuthorizationCodeExpiration cfg);
  let authCode := mkCode clientCode (ar_ClientID authReq) (pt_Sub t) (Some sessionID) (Some 0%Z)
    (ar_RedirectURI authReq) (ar_Scope authReq) (ar_CodeChallenge authReq) (ar_CodeChallengeMethod authReq)
    (ar_Nonce authReq) now codeExpiresAt false in
  or_respond (Codes_Insert authCode) (failure "Failed to store authorization code") (λ _,
  ignore (ATPRequests_Delete atpState) ;;
  ignore (AuthRequests_Delete sessionID) ;;
  if negb (url_parses (ar_RedirectURI authReq)) then mret Panic
  else mret (RedirectTo (ar_RedirectURI authReq)
    (("code", clientCode) :: (if (clientState =? "")%string then [] else [("state", clientState)]))))).

Definition HandleCallback (r : Request) : M odb Response :=
  if negb (rq_Method r =? "GET")%string then mret (MethodNotAllowed ["GET"])
  else
  let code := values_get "code" (rq_Query r) in
  let atpState := values_get "state" (rq_Query r) in
  let errorCode := values_get "error" (rq_Query r) in
  let errorDescription := values_get "error_description" (rq_Query r) in
  or_respond (ATPRequests_Get atpState) (server_error "Database error") (λ atpReq, match atpReq with
  | None => bad_request "invalid_request" "Invalid or expired state"
  | Some atpReq =>
  now ← CurrentTimestamp;
  if ATPRequest_IsExpired now atpReq then
    ignore (ATPRequests_Delete atpState) ;; bad_request "invalid_request" "Authorization request expired"
  else
  let sessionID := aq_Nonce atpReq in
  or_respond (AuthRequests_Get sessionID) (server_error "Database error") (λ authReq, match authReq with
  | None => bad_request "invalid_request" "Session not found"
  | Some authReq =>
  let clientState := default "" (ar_State authReq) in
  let fail code desc := mret (redirectWithError (ar_RedirectURI authReq) code desc clientState) in
  if negb (errorCode =? "")%string then fail errorCode errorDescription
  else if (code =? "")%string then fail "invalid_request" "Missing authorization code"
  else match ParseDPoPKeyPair (aq_DPoPPrivateKey atpReq) with
  | Err _ => fail "server_error" "Failed to parse DPoP key"
  | Ok dpopKey =>
  match ExchangeCode (mkExchange (aq_AuthorizationServer atpReq +:+ "/oauth/token") (aq_AuthorizationServer atpReq) code
          (aq_PKCEVerifier atpReq) (cf_CallbackURL cfg) dpopKey) with
  | Err e => fail "server_error" ("Token exchange failed: " +:+ e)
  | Ok tokenResp =>
      record_session sessionID now tokenResp ;; grant_code authReq sessionID atpState clientState tokenResp now
  end end end) end).

(** One tick of [StartCleanupWorker]; refresh tokens are not cleaned up. *)
Definition cleanup_tick : M odb unit :=
  now ← CurrentTimestamp;
  ignore (AuthRequests_DeleteExpired now) ;;
  ignore (ATPRequests_DeleteExpired now) ;;
  ignore (Codes_DeleteExpired now) ;;
  ignore (Access_DeleteExpired now) ;;
  ignore (JTI_DeleteOlderThan (now - 3600)).
End flow.
