(* ===== verification/OAuthMiddleware.v ===== *)
(** * Authentication of requests

    src/internal/oauth/middleware.go: the Authorization header of a request is checked
    against the stored access tokens, with a proof of possession for bound tokens, and the
    scopes of the token against those a resource requires. *)
From S2P Require Import Prelude GoStrings Json Effects Database OAuthProof OAuthStore OAuthServer.

(** ** Scopes

    src/internal/oauth/scopes.go: parsing, joining, checking and filtering of
    space-separated scopes. *)

Definition ParseScopes (scopeString : string) : list string :=
  if (scopeString =? "")%string then []
  else filter (λ p, p ≠ "") (trim_space <$> fields scopeString).

Definition JoinScopes (scopes : list string) : string := join " " scopes.

(** Other characters are refused: a byte of a longer character is never one of these. *)
Definition isValidScopeChar (c : Ascii.ascii) : bool :=
  let n := byte_val c in
  ((97 <=? n) && (n <=? 122) || (65 <=? n) && (n <=? 90) || (48 <=? n) && (n <=? 57)
   || (n =? 46) || (n =? 58) || (n =? 95) || (n =? 45))%N.

Definition is_separator (c : Ascii.ascii) : bool :=
  let n := byte_val c in ((n =? 46) || (n =? 58) || (n =? 95) || (n =? 45))%N.

Fixpoint all_scope_chars (s : string) : bool :=
  match s with EmptyString => true | String c r => isValidScopeChar c && all_scope_chars r end.

Definition first_byte (P : Ascii.ascii → bool) (s : string) : bool :=
  match s with String c _ => P c | EmptyString => false end.

(** The message for a bad character leaves the character out. *)
Definition validateSingleScope (scope : string) : outcome unit :=
  if (scope =? "")%string then Err "empty scope value"
  else if negb (all_scope_chars scope) then Err "invalid character in scope"
  else if first_byte is_separator scope then Err ("scope cannot start with separator: " +:+ quoted "'" +:+ scope +:+ quoted "'")
  else if first_byte is_separator (srev scope) then Err ("scope cannot end with separator: " +:+ quoted "'" +:+ scope +:+ quoted "'")
  else Ok tt.

Fixpoint validate_scopes (scopes : list string) : outcome unit :=
  match scopes with [] => Ok tt | s :: rest => validateSingleScope s ;; validate_scopes rest end.

Definition ValidateScopeFormat (scopeString : string) : outcome unit :=
  if (scopeString =? "")%string then Ok tt else validate_scopes (ParseScopes scopeString).

Definition ContainsScope (scopeString target : string) : bool :=
  existsb (λ s, (s =? target)%string) (ParseScopes scopeString).

Definition IsScopeSubset (requestedScopes grantedScopes : string) : bool :=
  let grantedSet : gset string := list_to_set (ParseScopes grantedScopes) in
  forallb (λ s, bool_decide (s ∈ grantedSet)) (ParseScopes requestedScopes).

Definition FilterScopes (scopeString : string) (allowedScopes : list string) : string :=
  if (scopeString =? "")%string then ""
  else
    let allowedSet : gset string := list_to_set allowedScopes in
    JoinScopes (filter (λ s, s ∈ allowedSet) (ParseScopes scopeString)).

(** ** Authentication of requests *)

(** [AuthError]: its code and description. *)
Record AuthError := mkAuthError { ae_Code : string; ae_Description : string }.

Definition ErrMissingAuth := mkAuthError "missing_authorization" "Missing Authorization header".
Definition ErrInvalidAuthFormat := mkAuthError "invalid_request" "Invalid Authorization header format".
Definition ErrInvalidAuthScheme := mkAuthError "invalid_request" "Unsupported authorization scheme".
Definition ErrMissingDPoPProof := mkAuthError "invalid_dpop_proof" "Missing DPoP proof for DPoP-bound token".
Definition ErrReplay := mkAuthError "invalid_dpop_proof" "DPoP proof replay detected".
Definition ErrDPoPKeyMismatch := mkAuthError "invalid_dpop_proof" "DPoP key mismatch".
Definition ErrTokenNotDPoPBound := mkAuthError "invalid_token" "Token is not DPoP-bound".
Definition ErrDPoPRequired := mkAuthError "invalid_token" "DPoP-bound token requires DPoP authorization".
Definition ErrInvalidToken := mkAuthError "invalid_token" "Invalid access token".
Definition ErrTokenExpired := mkAuthError "invalid_token" "Access token has expired".
Definition ErrTokenRevoked := mkAuthError "invalid_token" "Access token has been revoked".
Definition ErrTokenNoUser := mkAuthError "invalid_token" "Token has no user".
Definition ErrServerError := mkAuthError "server_error" "Internal server error".
Definition ErrInsufficientScope := mkAuthError "insufficient_scope" "Insufficient scope for this resource".

Definition HTTPStatus (e : AuthError) : Z :=
  if (ae_Code e =? "insufficient_scope")%string then 403
  else if (ae_Code e =? "server_error")%string then 500 else 401.

Record AuthResult := mkAuthResult { au_UserID : string; au_AccessToken : AccessToken; au_Scopes : list string }.

Section middleware.
Context `{Env} `{OAuthWorld} (resourceURL : string) (maxDPoPAge : Z).

Definition accept {A} (a : A) : M odb (A + AuthError) := mret (inl a).
Definition refuse {A} (e : AuthError) : M odb (A + AuthError) := mret (inr e).

(** [if err != nil { return nil, fail }] *)
Definition or_refuse {A B} (m : M odb A) (fail : AuthError) (k : A → M odb (B + AuthError)) : M odb (B + AuthError) :=
  o ← attempt m; match o with Ok a => k a | Err _ => refuse fail end.

(** The checks both schemes share, around the one on the token's key. *)
Definition check_token (now : Z) (t : AccessToken) (binding : option AuthError) : AuthResult + AuthError :=
  if AccessToken_IsExpired now t then inr ErrTokenExpired
  else if at_Revoked t then inr ErrTokenRevoked
  else match binding with
  | Some e => inr e
  | None =>
      match at_UserID t with
      | None => inr ErrTokenNoUser
      | Some u => inl (mkAuthResult u t (match at_Scope t with Some s => ParseScopes s | None => [] end))
      end
  end.

Definition validateBearerToken (token : string) : M odb (AuthResult + AuthError) :=
  or_refuse (Access_Get token) ErrServerError (λ t, match t with
  | None => refuse ErrInvalidToken
  | Some t =>
      now ← CurrentTimestamp;
      mret (check_token now t (match at_DPoPJKT t with Some _ => Some ErrDPoPRequired | None => None end))
  end).

Definition resource_url (r : Request) : string :=
  let url := trim_suffix "/" resourceURL +:+ rq_Path r in
  if (rq_RawQuery r =? "")%string then url else url +:+ "?" +:+ rq_RawQuery r.

Definition check_binding (jkt : string) (t : AccessToken) : option AuthError :=
  match at_DPoPJKT t with
  | None => Some ErrTokenNotDPoPBound
  | Some k => if (k =? jkt)%string then None else Some ErrDPoPKeyMismatch
  end.

Definition validateDPoPToken (r : Request) (token : string) : M odb (AuthResult + AuthError) :=
  if (rq_DPoP r =? "")%string then refuse ErrMissingDPoPProof
  else
    now ← CurrentTimestamp;
    match VerifyDPoPProof (rq_DPoP r) (rq_Method r) (resource_url r) maxDPoPAge now with
    | Err e => refuse (mkAuthError "invalid_dpop_proof" e)
    | Ok result =>
        or_refuse (JTI_Exists (pf_JTI result)) ErrServerError (λ used : bool,
        if used then refuse ErrReplay
        else or_refuse (JTI_Insert (mkJTI (pf_JTI result) (pf_IAT result))) ErrReplay (λ _,
        or_refuse (Access_Get token) ErrServerError (λ t, match t with
        | None => refuse ErrInvalidToken
        | Some t => mret (check_token now t (check_binding (pf_JKT result) t))
        end)))
    end.

Definition ValidateRequest (r : Request) : M odb (AuthResult + AuthError) :=
  if (rq_Authorization r =? "")%string then refuse ErrMissingAuth
  else match cut space (rq_Authorization r) with
  | None => refuse ErrInvalidAuthFormat
  | Some (scheme, token) =>
      if (scheme =? "DPoP")%string then validateDPoPToken r token
      else if (scheme =? "Bearer")%string then validateBearerToken token
      else refuse ErrInvalidAuthScheme
  end.

(** [RequireAuth], [OptionalAuth] and [RequireScope]: the wrapped handler runs with the
    identity, if any, or the error is written. *)
Definition RequireAuth {A} (r : Request) (next : AuthResult → M odb A) (write_error : AuthError → M odb A) : M odb A :=
  result ← ValidateRequest r;
  match result with inl u => next u | inr e => write_error e end.

Definition OptionalAuth {A} (r : Request) (next : option AuthResult → M odb A) (write_error : AuthError → M odb A) : M odb A :=
  if (rq_Authorization r =? "")%string then next None
  else
    result ← ValidateRequest r;
    match result with inl u => next (Some u) | inr e => write_error e end.

(** [scopes]: those of the request's context, if there are any. *)
Definition RequireScope {A} (requiredScopes : list string) (scopes : option (list string))
    (next : M odb A) (write_error : AuthError → M odb A) : M odb A :=
  match scopes with
  | None => write_error ErrInsufficientScope
  | Some scopes =>
      let scopeSet : gset string := list_to_set scopes in
      if forallb (λ s, bool_decide (s ∈ scopeSet)) requiredScopes then next else write_error ErrInsufficientScope
  end.

(** [UseJTI]: false on a replay. *)
Definition UseJTI (jti : string) (iat : Z) : M odb bool :=
  exists_ ← JTI_Exists jti;
  if (exists_ : bool) then mret false else JTI_Insert (mkJTI jti iat) ;; mret true.

Definition CleanupExpiredJTIs (maxAge : Z) : M odb unit :=
  now ← CurrentTimestamp; JTI_DeleteOlderThan (now - maxAge).
End middleware.
