(* ===== verification/OAuthProps.v ===== *)
(** * Grants

    What a token response means: the code or refresh token it was given for, the checks it
    passed, and the tokens stored. On PostgreSQL there are none. *)
From S2P Require Import Prelude GoStrings Effects Database Base64 OAuthProof OAuthStore OAuthServer.

(** ** Running handlers *)

Lemma or_respond_inv {S A} (m : M S A) f (k : A → M S Response) s fs o s' fs' :
  or_respond m f k s fs = (o, s', fs') →
  (∃ a s1 fs1, m s fs = (Ok a, s1, fs1) ∧ k a s1 fs1 = (o, s', fs')) ∨
  (∃ e, m s fs = (Err e, s', fs') ∧ o = Ok (f e)).
Proof.
  unfold or_respond, attempt, mbind, M_bind. destruct (m s fs) as [[[a|e] s1] fs1].
  - intros Hk. left. by exists a, s1, fs1.
  - intros [= <- <- <-]. right. by exists e.
Qed.

Lemma or_respond_ok {S A} (m : M S A) f (k : A → M S Response) s fs a s1 fs1 :
  m s fs = (Ok a, s1, fs1) → or_respond m f k s fs = k a s1 fs1.
Proof. intros E. unfold or_respond, attempt, mbind, M_bind. by rewrite E. Qed.

Lemma gets_bind {S A B} (f : S → A) (k : A → M S B) s fs : (gets f ≫= k) s fs = k (f s) s fs.
Proof. done. Qed.

Lemma preserves_or_respond {S A} (I : S → Prop) (m : M S A) f (k : A → M S Response) :
  Preserves I m → (∀ a, Preserves I (k a)) → Preserves I (or_respond m f k).
Proof.
  intros Hm Hk. unfold or_respond. apply preserves_bind; [by apply preserves_attempt|].
  intros [a|e]; [apply Hk|apply preserves_ret].
Qed.

Lemma preserves_ignore {S A} (I : S → Prop) (m : M S A) : Preserves I m → Preserves I (ignore m).
Proof. intros Hm. apply preserves_bind; [by apply preserves_attempt|]. intros _. apply preserves_ret. Qed.

#[export] Hint Resolve preserves_or_respond preserves_ignore : preserves.

Section grants.
Context `{Env} `{OAuthWorld} (cfg : Config).
Implicit Types (s : odb) (fs : faults) (r : Request).

(** A token response stops every alternative but success. *)
Definition is_token (resp : Response) : bool := match resp with TokenIssued _ => true | _ => false end.

Lemma or_respond_token {A} (m : M odb A) f (k : A → M odb Response) s fs resp s' fs' :
  or_respond m f k s fs = (Ok resp, s', fs') → is_token resp = true → (∀ e, is_token (f e) = false) →
  ∃ a s1 fs1, m s fs = (Ok a, s1, fs1) ∧ k a s1 fs1 = (Ok resp, s', fs').
Proof.
  intros [(a & s1 & fs1 & E1 & E2)|(e & E & [= ->])]%or_respond_inv Ht Hf; [by exists a, s1, fs1|].
  by rewrite Hf in Ht.
Qed.

(** ** Statements *)

Lemma get_row_inv {K A} `{Countable K} (table : odb → gmap K A) scan (k : K) s fs (a : option A) s' fs' :
  get_row table scan k s fs = (Ok a, s', fs') → s' = s ∧ a = table s !! k ∧ (is_Some a → scan = Ok tt).
Proof.
  intros E%stmt_ok_inv. destruct (table s !! k) as [x|] eqn:Ek.
  - unfold mbind, outcome_bind in E. destruct scan as [[]|]; [|done]. injection E as <- <-. naive_solver.
  - injection E as <- <-. split_and!; [done..|]. by intros [].
Qed.

Lemma int_as_bool_sqlite : int_as_bool = Ok tt → dialect = SQLite.
Proof. unfold int_as_bool. by destruct dialect. Qed.

Lemma insert_key_inv {K A} `{Countable K} (k : K) (a : A) m m' :
  insert_key k a m = Ok m' → m !! k = None ∧ m' = <[k := a]> m.
Proof. unfold insert_key. destruct (m !! k); [done|]. by intros [= <-]. Qed.

Lemma client_exists_inv s id : client_exists s id = Ok tt → is_Some (o_clients s !! id).
Proof. unfold client_exists. destruct (o_clients s !! id); [|done]. by eexists. Qed.

Lemma code_insert_inv c s fs s' fs' :
  Codes_Insert c s fs = (Ok tt, s', fs') →
  dialect = SQLite ∧ o_codes s !! ac_Code c = None ∧ s' = set_codes (<[ac_Code c := c]>) s.
Proof.
  intros E%stmt_ok_inv. unfold mbind, outcome_bind in E. destruct int_as_bool as [[]|] eqn:Eb; [|done].
  destruct (insert_key _ _ _) as [m|] eqn:Em; [|done]. injection E as <-. apply insert_key_inv in Em as [Hn ->].
  split_and!; [by apply int_as_bool_sqlite|done..].
Qed.

Lemma mark_used_inv c s fs s' fs' :
  MarkUsed c s fs = (Ok tt, s', fs') → dialect = SQLite ∧ s' = set_codes (alter use_code c) s.
Proof.
  intros E%stmt_ok_inv. unfold mbind, outcome_bind in E. destruct int_as_bool as [[]|] eqn:Eb; [|done].
  injection E as <-. split; [by apply int_as_bool_sqlite|done].
Qed.

Lemma refresh_revoke_inv t s fs s' fs' :
  Refresh_Revoke t s fs = (Ok tt, s', fs') → dialect = SQLite ∧ s' = set_refresh (alter revoke_refresh t) s.
Proof.
  intros E%stmt_ok_inv. unfold mbind, outcome_bind in E. destruct int_as_bool as [[]|] eqn:Eb; [|done].
  injection E as <-. split; [by apply int_as_bool_sqlite|done].
Qed.

Lemma access_insert_inv t s fs s' fs' :
  Access_Insert t s fs = (Ok tt, s', fs') →
  is_Some (o_clients s !! at_ClientID t) ∧ o_access s !! at_Token t = None ∧ s' = set_access (<[at_Token t := t]>) s.
Proof.
  intros E%stmt_ok_inv. unfold mbind, outcome_bind in E. destruct int_as_bool as [[]|]; [|done].
  destruct (client_exists _ _) as [[]|] eqn:Ec; [|done]. destruct (insert_key _ _ _) as [m|] eqn:Em; [|done].
  injection E as <-. apply insert_key_inv in Em as [Hn ->]. split_and!; [by apply client_exists_inv|done..].
Qed.

Lemma refresh_insert_inv t s fs s' fs' :
  Refresh_Insert t s fs = (Ok tt, s', fs') →
  is_Some (o_clients s !! rt_ClientID t) ∧ o_refresh s !! rt_Token t = None ∧ s' = set_refresh (<[rt_Token t := t]>) s.
Proof.
  intros E%stmt_ok_inv. unfold mbind, outcome_bind in E. destruct int_as_bool as [[]|]; [|done].
  destruct (client_exists _ _) as [[]|] eqn:Ec; [|done]. destruct (insert_key _ _ _) as [m|] eqn:Em; [|done].
  injection E as <-. apply insert_key_inv in Em as [Hn ->]. split_and!; [by apply client_exists_inv|done..].
Qed.

Lemma random_token_inv n s fs t s' fs' :
  generateRandomToken n s fs = (Ok t, s', fs') →
  n ≤ String.length (o_random s) ∧ t = b64_encode RawURLEncoding (stake n (o_random s)) ∧
  s' = set_random (sdrop n (o_random s)) s ∧ fs' = fs.
Proof.
  unfold generateRandomToken. destruct (Nat.ltb_spec (String.length (o_random s)) n); [done|].
  intros [= <- <- <-]. split_and!; done || lia.
Qed.

(** ** Proofs of possession *)

(** The proof of a request to the token endpoint, checked at a time. *)
Definition token_proof r (now : Z) : outcome DPoPValidationResult :=
  VerifyDPoPProof (rq_DPoP r) "POST" (cf_ExternalBaseURL cfg +:+ "/oauth/token") DefaultMaxDPoPAge now.

(** The key a grant is bound to, and the state after the check. *)
Definition bound_to r s (jkt : option string) s' : Prop :=
  (rq_DPoP r = "" ∧ jkt = None ∧ s' = s) ∨
  ∃ p, rq_DPoP r ≠ "" ∧ token_proof r (o_clock s) = Ok p ∧ jkt = Some (pf_JKT p) ∧ o_jtis s !! pf_JTI p = None ∧
    s' = set_jtis (<[pf_JTI p := pf_IAT p]>) s.

Lemma jti_exists_inv j s fs b s' fs' :
  JTI_Exists j s fs = (Ok b, s', fs') → s' = s ∧ b = bool_decide (is_Some (o_jtis s !! j)).
Proof. intros [-> Hb]%query_state. split; [done|]. by apply Hb. Qed.

Lemma jti_insert_inv j s fs s' fs' :
  JTI_Insert j s fs = (Ok tt, s', fs') →
  o_jtis s !! jti_JTI j = None ∧ s' = set_jtis (<[jti_JTI j := jti_CreatedAt j]>) s.
Proof.
  intros E%stmt_ok_inv. unfold mbind, outcome_bind in E. destruct (insert_key _ _ _) as [m|] eqn:Em; [|done].
  injection E as <-. by apply insert_key_inv in Em as [Hn ->].
Qed.

Lemma validate_dpop_inv r s fs jkt s' fs' :
  validateDPoP cfg r s fs = (Ok jkt, s', fs') → bound_to r s jkt s'.
Proof.
  unfold validateDPoP. destruct (String.eqb_spec (rq_DPoP r) "") as [Hr|Hr].
  { intros [= <- <- <-]. by left. }
  intros E. unfold CurrentTimestamp in E. rewrite gets_bind in E.
  apply bind_ok_inv in E as (p & s1 & fs1 & E1 & E). unfold of_outcome in E1. injection E1 as Ep <- <-.
  apply bind_ok_inv in E as (used & s2 & fs2 & (-> & ->)%jti_exists_inv & E).
  case_bool_decide as Hu; [done|].
  apply bind_ok_inv in E as ([] & s3 & fs3 & (Hn & ->)%jti_insert_inv & E). injection E as <- <- <-.
  right. by exists p.
Qed.

(** ** Issued tokens *)

Definition new_access (a clientID userID : string) (sessionID scope jkt : option string) (now : Z) : AccessToken :=
  mkAccess a (match jkt with Some _ => "DPoP" | None => "Bearer" end) clientID (Some userID) sessionID (Some 0%Z) scope
    now (now + cf_AccessTokenExpiration cfg) false jkt.

Definition new_refresh (t a clientID userID : string) (sessionID scope : option string) (now : Z) : RefreshToken :=
  mkRefresh t a clientID userID sessionID (Some 0%Z) scope now
    (if (0 <? cf_RefreshTokenExpiration cfg)%Z then Some (now + cf_RefreshTokenExpiration cfg)%Z else None) false.

Definition token_response (a t : string) (jkt scope : option string) (userID : string) : TokenResponse :=
  mkTokenResponse a (match jkt with Some _ => "DPoP" | None => "Bearer" end) (cf_AccessTokenExpiration cfg) (Some t)
    scope (Some userID).

(** The tables after two fresh tokens were stored. *)
Definition issued (clientID userID : string) (sessionID scope jkt : option string) s (a t : string) s' : Prop :=
  o_access s !! a = None ∧ o_refresh s !! t = None ∧
  s' = set_refresh (<[t := new_refresh t a clientID userID sessionID scope (o_clock s)]>)
         (set_access (<[a := new_access a clientID userID sessionID scope jkt (o_clock s)]>)
           (set_random (sdrop 64 (o_random s)) s)).

Lemma issue_tokens_inv clientID userID sessionID scope jkt s fs resp s' fs' :
  issue_tokens cfg clientID userID sessionID scope jkt s fs = (Ok resp, s', fs') → is_token resp = true →
  ∃ a t, issued clientID userID sessionID scope jkt s a t s' ∧ resp = TokenIssued (token_response a t jkt scope userID).
Proof.
  intros E Ht. unfold issue_tokens in E.
  apply or_respond_token in E as (a & s1 & fs1 & (_ & Ha & -> & _)%random_token_inv & E); [|done..].
  apply or_respond_token in E as (t & s2 & fs2 & (_ & Ht2 & -> & _)%random_token_inv & E); [|done..].
  unfold CurrentTimestamp in E. rewrite gets_bind in E.
  apply or_respond_token in E as ([] & s3 & fs3 & (_ & Hna & ->)%access_insert_inv & E); [|done..].
  apply or_respond_token in E as ([] & s4 & fs4 & (_ & Hnt & ->)%refresh_insert_inv & E); [|done..].
  injection E as <- <- <-. exists a, t. split; [|done]. split_and!; [done..|].
  change 64 with (32 + 32). by rewrite sdrop_add.
Qed.

(** ** The code grant *)

Definition pkce_ok (k : AuthorizationCode) (codeVerifier : string) : Prop :=
  ∀ challenge, ac_CodeChallenge k = Some challenge → challenge ≠ "" →
    codeVerifier ≠ "" ∧ VerifyCodeChallenge codeVerifier challenge (default "S256" (ac_CodeChallengeMethod k)) = true.

Record redeemable (now : Z) (k : AuthorizationCode) (clientID redirectURI codeVerifier : string) : Prop := {
  rd_unused : ac_Used k = false;
  rd_fresh : (now <= ac_ExpiresAt k)%Z;
  rd_client : ac_ClientID k = clientID;
  rd_redirect : ac_RedirectURI k = redirectURI;
  rd_pkce : pkce_ok k codeVerifier;
}.

Lemma check_code_spec now k clientID redirectURI codeVerifier :
  check_code now k clientID redirectURI codeVerifier = None ↔ redeemable now k clientID redirectURI codeVerifier.
Proof.
  unfold check_code. split.
  - destruct (ac_Used k) eqn:Eu; [done|]. unfold AuthorizationCode_IsExpired.
    destruct (Z.ltb_spec (ac_ExpiresAt k) now) as [|Hexp]; [done|].
    destruct (String.eqb_spec (ac_ClientID k) clientID) as [Hc|]; [|done].
    destruct (String.eqb_spec (ac_RedirectURI k) redirectURI) as [Hr|]; [|done].
    intros Hp. split; [done..|]. intros ch Hch Hne. rewrite Hch in Hp. cbn in Hp.
    apply String.eqb_neq in Hne. rewrite Hne in Hp.
    destruct (String.eqb_spec codeVerifier "") as [|Hv]; [done|]. split; [done|]. by destruct (VerifyCodeChallenge _ _ _).
  - intros [Hu Hf Hc Hr Hp]. rewrite Hu. unfold AuthorizationCode_IsExpired.
    rewrite (proj2 (Z.ltb_ge _ _)), Hc, Hr, !String.eqb_refl by done. cbn.
    destruct (ac_CodeChallenge k) as [ch|] eqn:Ech; [|done].
    destruct (String.eqb_spec ch "") as [|Hne]; [done|]. destruct (Hp ch Ech Hne) as [Hv Hok].
    apply String.eqb_neq in Hv as ->. by rewrite Hok.
Qed.

Notation field := values_get.

(** What a token response to a code means. *)
Definition code_redeemed r (form : list (string * string)) s (resp : Response) s' : Prop :=
  ∃ k jkt s1 a t,
    o_codes s !! field "code" form = Some k ∧
    redeemable (o_clock s) k (field "client_id" form) (field "redirect_uri" form) (field "code_verifier" form) ∧
    is_Some (o_clients s !! field "client_id" form) ∧
    bound_to r s jkt s1 ∧
    issued (field "client_id" form) (ac_UserID k) (ac_SessionID k) (ac_Scope k) jkt
      (set_codes (alter use_code (field "code" form)) s1) a t s' ∧
    resp = TokenIssued (token_response a t jkt (ac_Scope k) (ac_UserID k)).

Lemma bad_request_token (P : Prop) code desc s fs resp s' fs' :
  bad_request code desc s fs = (Ok resp, s', fs') → is_token resp = true → P.
Proof. by intros [= <- <- <-]. Qed.

Lemma code_grant_inv r form s fs resp s' fs' :
  handleAuthorizationCodeGrant cfg r form s fs = (Ok resp, s', fs') → is_token resp = true →
  dialect = SQLite ∧ code_redeemed r form s resp s'.
Proof.
  intros E Ht. unfold handleAuthorizationCodeGrant, code_grant_checks in E.
  repeat (case_match; [by eapply bad_request_token in E|]).
  apply or_respond_token in E as ([cl|] & s1 & fs1 & (-> & Hcl & _)%get_row_inv & E); [| |done..]; [|by injection E as <-].
  apply or_respond_token in E as ([k|] & s2 & fs2 & (-> & Hk & _)%get_row_inv & E); [| |done..]; [|by injection E as <-].
  unfold CurrentTimestamp in E. rewrite gets_bind in E.
  destruct (check_code _ _ _ _ _) as [resp'|] eqn:Ec.
  { injection E as <- <- <-. exfalso. revert Ec Ht. unfold check_code. repeat case_match; by intros [= <-]. }
  apply check_code_spec in Ec.
  apply or_respond_token in E as (jkt & s3 & fs3 & Hb%validate_dpop_inv & E); [|done..].
  apply or_respond_token in E as ([] & s4 & fs4 & (Hsql & ->)%mark_used_inv & E); [|done..].
  apply issue_tokens_inv in E as (a & t & Hi & ->); [|done].
  split; [done|]. exists k, jkt, s3, a, t. by split_and!.
Qed.

(** ** The refresh grant *)

Record refreshable (now : Z) (k : RefreshToken) (clientID : string) : Prop := {
  rf_live : rt_Revoked k = false;
  rf_fresh : ∀ e, rt_ExpiresAt k = Some e → (now <= e)%Z;
  rf_client : rt_ClientID k = clientID;
}.

Lemma check_refresh_spec now k clientID : check_refresh now k clientID = None ↔ refreshable now k clientID.
Proof.
  unfold check_refresh, RefreshToken_IsExpired. split.
  - destruct (rt_Revoked k) eqn:Er; [done|]. intros Hc. split; [done| |].
    + intros e He. rewrite He in Hc. by destruct (Z.ltb_spec e now).
    + destruct (match rt_ExpiresAt k with Some e => _ | None => _ end); [done|].
      by destruct (String.eqb_spec (rt_ClientID k) clientID).
  - intros [Hl Hf Hc]. rewrite Hl, Hc, String.eqb_refl. destruct (rt_ExpiresAt k) as [e|]; [|done].
    specialize (Hf e eq_refl). by rewrite (proj2 (Z.ltb_ge _ _)).
Qed.

Definition refresh_redeemed r (form : list (string * string)) s (resp : Response) s' : Prop :=
  ∃ k jkt s1 a t,
    o_refresh s !! field "refresh_token" form = Some k ∧
    refreshable (o_clock s) k (field "client_id" form) ∧
    is_Some (o_clients s !! field "client_id" form) ∧
    bound_to r s jkt s1 ∧
    issued (field "client_id" form) (rt_UserID k) (rt_SessionID k) (rt_Scope k) jkt
      (set_refresh (alter revoke_refresh (field "refresh_token" form)) s1) a t s' ∧
    resp = TokenIssued (token_response a t jkt (rt_Scope k) (rt_UserID k)).

Lemma refresh_grant_inv r form s fs resp s' fs' :
  handleRefreshTokenGrant cfg r form s fs = (Ok resp, s', fs') → is_token resp = true →
  dialect = SQLite ∧ refresh_redeemed r form s resp s'.
Proof.
  intros E Ht. unfold handleRefreshTokenGrant in E.
  repeat (case_match; [by eapply bad_request_token in E|]).
  apply or_respond_token in E as ([cl|] & s1 & fs1 & (-> & Hcl & _)%get_row_inv & E); [| |done..]; [|by injection E as <-].
  apply or_respond_token in E as ([k|] & s2 & fs2 & (-> & Hk & _)%get_row_inv & E); [| |done..]; [|by injection E as <-].
  unfold CurrentTimestamp in E. rewrite gets_bind in E.
  destruct (check_refresh _ _ _) as [resp'|] eqn:Ec.
  { injection E as <- <- <-. exfalso. revert Ec Ht. unfold check_refresh. repeat case_match; by intros [= <-]. }
  apply check_refresh_spec in Ec.
  apply or_respond_token in E as (jkt & s3 & fs3 & Hb%validate_dpop_inv & E); [|done..].
  apply or_respond_token in E as ([] & s4 & fs4 & (Hsql & ->)%refresh_revoke_inv & E); [|done..].
  apply issue_tokens_inv in E as (a & t & Hi & ->); [|done].
  split; [done|]. exists k, jkt, s3, a, t. by split_and!.
Qed.

(** The two kinds of grant of the token endpoint. *)
Lemma handle_token_inv r s fs resp s' fs' :
  HandleToken cfg r s fs = (Ok resp, s', fs') → is_token resp = true →
  dialect = SQLite ∧ ∃ form, rq_Form r = Some form ∧
    (field "grant_type" form = "authorization_code" ∧ code_redeemed r form s resp s' ∨
     field "grant_type" form = "refresh_token" ∧ refresh_redeemed r form s resp s').
Proof.
  intros E Ht. unfold HandleToken in E. case_match; [by injection E as <-|].
  destruct (rq_Form r) as [form|]; [|by eapply bad_request_token in E].
  destruct (String.eqb_spec (field "grant_type" form) "authorization_code") as [Hg|].
  { apply code_grant_inv in E as [Hsql E]; [|done]. split; [done|]. exists form. auto. }
  destruct (String.eqb_spec (field "grant_type" form) "refresh_token") as [Hg|].
  { apply refresh_grant_inv in E as [Hsql E]; [|done]. split; [done|]. exists form. auto. }
  by eapply bad_request_token in E.
Qed.

(** ** Success *)

Lemma get_row_run {K A} `{Countable K} (table : odb → gmap K A) scan (k : K) s :
  scan = Ok tt → get_row table scan k s [] = (Ok (table s !! k), s, []).
Proof. intros ->. unfold get_row, stmt. by destruct (table s !! k). Qed.

Lemma int_as_bool_ok : dialect = SQLite → int_as_bool = Ok tt.
Proof. unfold int_as_bool. by intros ->. Qed.

Lemma validate_dpop_run r s jkt s1 : bound_to r s jkt s1 → validateDPoP cfg r s [] = (Ok jkt, s1, []).
Proof.
  intros [(Hr & -> & ->)|(p & Hr & Hp & -> & Hj & ->)]; unfold validateDPoP; [by rewrite Hr|].
  apply String.eqb_neq in Hr as ->.
  unfold mbind, M_bind, CurrentTimestamp, gets, of_outcome. unfold token_proof in Hp. rewrite Hp.
  unfold JTI_Exists, query, stmt. cbn. rewrite Hj. cbn. unfold JTI_Insert, stmt, insert_key. cbn. by rewrite Hj.
Qed.

(** The tokens the random source gives next. *)
Definition next_access s : string := b64_encode RawURLEncoding (stake 32 (o_random s)).
Definition next_refresh s : string := b64_encode RawURLEncoding (stake 32 (sdrop 32 (o_random s))).

(** Enough random bytes, and tokens that are not taken. *)
Record can_issue s : Prop := {
  ci_random : 64 ≤ String.length (o_random s);
  ci_access : o_access s !! next_access s = None;
  ci_refresh : o_refresh s !! next_refresh s = None;
}.

Lemma random_token_run n s : n ≤ String.length (o_random s) →
  generateRandomToken n s [] = (Ok (b64_encode RawURLEncoding (stake n (o_random s))), set_random (sdrop n (o_random s)) s, []).
Proof. intros Hn. unfold generateRandomToken. by rewrite (proj2 (Nat.ltb_ge _ _)). Qed.

Lemma length_sdrop' n t : String.length (sdrop n t) = String.length t - n.
Proof. revert t. induction n as [|n IH]; intros [|c t]; cbn; [done..|]. apply IH. Qed.

Lemma issue_tokens_run clientID userID sessionID scope jkt s :
  dialect = SQLite → is_Some (o_clients s !! clientID) → can_issue s →
  ∃ s', issue_tokens cfg clientID userID sessionID scope jkt s []
        = (Ok (TokenIssued (token_response (next_access s) (next_refresh s) jkt scope userID)), s', []).
Proof.
  intros Hsql [cl Hcl] [Hlen Ha Ht]. unfold issue_tokens.
  rewrite (or_respond_ok GenerateAccessToken _ _ _ _ _ _ _ (random_token_run 32 s ltac:(lia))).
  rewrite (or_respond_ok GenerateRefreshToken _ _ _ _ _ _ _
    (random_token_run 32 (set_random (sdrop 32 (o_random s)) s) ltac:(cbn [o_random set_random]; rewrite length_sdrop'; lia))).
  cbn [o_random set_random]. unfold CurrentTimestamp. rewrite gets_bind.
  unfold or_respond at 1, attempt, mbind, M_bind, Access_Insert, stmt, client_exists, insert_key.
  rewrite (int_as_bool_ok Hsql). cbn [o_clients o_access at_ClientID at_Token mbind outcome_bind].
  cbn -[sdrop stake b64_encode]. rewrite Hcl. fold (next_access s) (next_refresh s). rewrite Ha. cbn -[sdrop stake b64_encode next_access next_refresh].
  unfold or_respond, attempt, mbind, M_bind, Refresh_Insert, stmt, client_exists, insert_key.
  rewrite (int_as_bool_ok Hsql). cbn -[sdrop stake b64_encode next_access next_refresh]. rewrite Hcl, Ht.
  by eexists.
Qed.

(** A code request in order: the code is there and redeemable, the client known, and the
    proof, if there is one, good. *)
Record code_ready r (form : list (string * string)) s (jkt : option string) s1 : Prop := {
  cr_method : rq_Method r = "POST";
  cr_form : rq_Form r = Some form;
  cr_grant : field "grant_type" form = "authorization_code";
  cr_code : field "code" form ≠ "";
  cr_client : field "client_id" form ≠ "";
  cr_redirect : field "redirect_uri" form ≠ "";
  cr_row : ∃ k, o_codes s !! field "code" form = Some k ∧
    redeemable (o_clock s) k (field "client_id" form) (field "redirect_uri" form) (field "code_verifier" form);
  cr_known : is_Some (o_clients s !! field "client_id" form);
  cr_proof : bound_to r s jkt s1;
}.

Lemma handle_token_run r form s jkt s1 :
  dialect = SQLite → code_ready r form s jkt s1 → can_issue s →
  ∃ resp s', HandleToken cfg r s [] = (Ok resp, s', []) ∧ is_token resp = true.
Proof.
  intros Hsql [Hm Hform Hg Hc Hcl Hru (k & Hk & Hrd) [cl Hkn] Hb] Hci. unfold HandleToken.
  rewrite Hm, Hform, Hg. cbn [negb String.eqb Ascii.eqb Bool.eqb]. unfold handleAuthorizationCodeGrant, code_grant_checks.
  apply String.eqb_neq in Hc, Hcl, Hru. rewrite Hc, Hcl, Hru.
  rewrite (or_respond_ok (Clients_Get _) _ _ _ _ _ _ _ (get_row_run o_clients (Ok tt) _ s eq_refl)), Hkn.
  rewrite (or_respond_ok (Codes_Get _) _ _ _ _ _ _ _ (get_row_run o_codes int_as_bool _ s (int_as_bool_ok Hsql))), Hk.
  unfold CurrentTimestamp. rewrite gets_bind. apply check_code_spec in Hrd. rewrite Hrd.
  rewrite (or_respond_ok (validateDPoP cfg r) _ _ _ _ _ _ _ (validate_dpop_run r s jkt s1 Hb)).
  unfold code_grant_issue.
  assert (Hmark : MarkUsed (field "code" form) s1 [] = (Ok tt, set_codes (alter use_code (field "code" form)) s1, [])).
  { unfold MarkUsed, stmt. by rewrite (int_as_bool_ok Hsql). }
  rewrite (or_respond_ok (MarkUsed _) _ _ _ _ _ _ _ Hmark).
  set (s2 := set_codes _ s1).
  assert (Hs1 : o_random s1 = o_random s ∧ o_access s1 = o_access s ∧ o_refresh s1 = o_refresh s ∧ o_clients s1 = o_clients s).
  { by destruct Hb as [(_ & _ & ->)|(p & _ & _ & _ & _ & ->)]. }
  destruct Hs1 as (Er & Ea & Et & Ecl). destruct Hci as [Hlen Ha Ht].
  destruct (issue_tokens_run (field "client_id" form) (ac_UserID k) (ac_SessionID k) (ac_Scope k) jkt s2) as [s' E].
  - done.
  - unfold s2. cbn. rewrite Ecl. by exists cl.
  - unfold s2. split; unfold next_access, next_refresh; cbn [o_random o_access o_refresh set_codes];
      rewrite Er, ?Ea, ?Et; done.
  - rewrite E. by eexists _, s'.
Qed.

(** C31. The code grant. A token response is given exactly for a stored, unused, unexpired
    code of that client and redirect URI, with a verifier that answers the code's challenge
    and, if there is a proof, a valid one not seen before; then the code is marked used, both
    tokens are stored under names not taken before, for the user, session and scope of the
    code and bound to the proof's key, and nothing else but the proof's id and the random
    bytes has changed. Conversely such a request gets its tokens when no statement fails. *)
Theorem code_grant_correct r form s :
  rq_Form r = Some form → field "grant_type" form = "authorization_code" →
  (∀ fs resp s' fs', HandleToken cfg r s fs = (Ok resp, s', fs') → is_token resp = true →
    code_redeemed r form s resp s') ∧
  (∀ jkt s1, dialect = SQLite → code_ready r form s jkt s1 → can_issue s →
    ∃ resp s', HandleToken cfg r s [] = (Ok resp, s', []) ∧ is_token resp = true).
Proof.
  intros Hform Hg. split.
  - intros fs resp s' fs' E Ht. apply handle_token_inv in E as (_ & form' & Hform' & Hr); [|done].
    rewrite Hform in Hform'. injection Hform' as <-. destruct Hr as [[_ Hr]|[Hg' _]]; [done|]. by rewrite Hg in Hg'.
  - intros jkt s1. by apply handle_token_run.
Qed.

(** On PostgreSQL no request is ever answered with tokens. *)
Lemma postgres_no_tokens r s fs resp s' fs' :
  dialect = PostgreSQL → HandleToken cfg r s fs = (Ok resp, s', fs') → is_token resp = false.
Proof.
  intros Hpg E. destruct (is_token resp) eqn:Et; [|done].
  apply handle_token_inv in E as [Hsql _]; [congruence|done].
Qed.

Lemma stmt_postgres {A} (f : odb → outcome (A * odb)) s fs o s' fs' :
  dialect = PostgreSQL → stmt (λ d, int_as_bool ;; f d) s fs = (o, s', fs') → s' = s ∧ ∃ e, o = Err e.
Proof.
  intros Hpg. unfold stmt, int_as_bool. rewrite Hpg. destruct fs as [|[] fs]; cbn; intros [= <- <- <-]; eauto.
Qed.

(** Against PostgreSQL the token endpoint issues nothing, whatever the request and the
    tables, and the revocation endpoint answers 200 although the token it was asked to revoke
    is as valid as before: the boolean columns are written as integers. *)
Theorem postgres_revocation_has_no_effect r form s fs :
  dialect = PostgreSQL → rq_Method r = "POST" → rq_Form r = Some form → field "token" form ≠ "" →
  (∀ fs resp s' fs', HandleToken cfg r s fs = (Ok resp, s', fs') → is_token resp = false) ∧
  ∃ fs', HandleRevoke r s fs = (Ok StatusOK, s, fs').
Proof.
  intros Hpg Hm Hform Htok. split; [intros; by eapply postgres_no_tokens|].
  unfold HandleRevoke. rewrite Hm, Hform. cbn [negb String.eqb Ascii.eqb Bool.eqb].
  apply String.eqb_neq in Htok as ->. unfold ignore, attempt, mbind, M_bind.
  destruct (Access_Revoke _ s fs) as [[o1 s1] fs1] eqn:E1. apply stmt_postgres in E1 as [-> _]; [|done]. cbn.
  destruct (Refresh_Revoke _ s fs1) as [[o2 s2] fs2] eqn:E2. apply stmt_postgres in E2 as [-> _]; [|done].
  by eexists.
Qed.
End grants.
