(* ===== verification/OAuthSafety.v ===== *)
(** * Single use

    Over any history of requests to the OAuth endpoints, resource requests, cleanups and
    client changes, handled one after the other at growing times and under any faults: an
    authorization code and a refresh token are redeemed at most once per issue, and a proof
    of possession is accepted at most once, although its id is forgotten after an hour.
    [HandleToken] is also modelled statement by statement ([token_proc]), so that token
    requests overlap: one begun after a code or token was spent gets nothing for it. *)
From S2P Require Import Prelude GoStrings Effects Processes Database Base64 OAuthProof OAuthStore OAuthServer OAuthFlow OAuthMiddleware OAuthProps.

(** ** At most once

    A hit spends something that no later step gives back. *)
Lemma at_most_once {S L} (step : S → L → S → Prop) (ok : L → Prop) (hit : L → Prop) `{∀ l, Decision (hit l)} (spent : S → Prop) :
  (∀ s l s', step s l s' → ok l → spent s → spent s' ∧ ¬ hit l) →
  (∀ s l s', step s l s' → ok l → hit l → spent s') →
  ∀ s ls s', star step s ls s' → Forall ok ls → length (filter hit ls) ≤ 1.
Proof.
  intros Hspent Hhit s ls s' Hs.
  assert (Hnone : ∀ s ls s', star step s ls s' → Forall ok ls → spent s → filter hit ls = []).
  { clear s ls s' Hs. induction 1 as [s|s l s1 ls s2 Hstep Hs IH]; intros Hok Hsp; [done|]. inv Hok.
    destruct (Hspent s l s1) as [Hsp1 Hn]; [done..|]. rewrite filter_cons_False by done. by apply IH. }
  induction Hs as [s|s l s1 ls s2 Hstep Hs IH]; intros Hok; [cbn; lia|]. inv Hok.
  rewrite filter_cons. case_decide; [|by apply IH]. cbn. rewrite (Hnone _ _ _ Hs); [done..|]. by eapply Hhit.
Qed.

(** ** What statements keep *)

Section keeps.
Context `{Env} `{OAuthWorld} (cfg : Config) (I : odb → Prop).

Lemma keep_get_row {K A} `{Countable K} (table : odb → gmap K A) scan (k : K) : Preserves I (get_row table scan k).
Proof.
  apply preserves_stmt. intros s a s' Hs. destruct (table s !! k); unfold mbind, outcome_bind.
  - destruct scan as [[]|]; by intros [= <- <-].
  - by intros [= <- <-].
Qed.

Lemma keep_random n : (∀ s x, I s → I (set_random x s)) → Preserves I (generateRandomToken n).
Proof. intros Hr s fs o s' fs' Hs. unfold generateRandomToken. destruct (_ <? n); intros [= <- <- <-]; auto. Qed.

Ltac keep_stmt :=
  apply preserves_stmt; intros s ? s' Hs; unfold mbind, outcome_bind, int_as_bool, client_exists, insert_key;
  repeat case_match; intros; simplify_eq; auto.

Lemma keep_Access_Insert t : (∀ s f, I s → I (set_access f s)) → Preserves I (Access_Insert t).
Proof. intros Hf. unfold Access_Insert. keep_stmt. Qed.
Lemma keep_Access_Revoke t : (∀ s f, I s → I (set_access f s)) → Preserves I (Access_Revoke t).
Proof. intros Hf. unfold Access_Revoke. keep_stmt. Qed.
Lemma keep_Access_DeleteExpired t : (∀ s f, I s → I (set_access f s)) → Preserves I (Access_DeleteExpired t).
Proof. intros Hf. apply preserves_exec. auto. Qed.
Lemma keep_Refresh_Insert t : (∀ s, I s → I (set_refresh (<[rt_Token t := t]>) s)) → Preserves I (Refresh_Insert t).
Proof. intros Hf. unfold Refresh_Insert. keep_stmt. by apply (Hf _ Hs). Qed.
Lemma keep_Refresh_Revoke t : (∀ s, I s → I (set_refresh (alter revoke_refresh t) s)) → Preserves I (Refresh_Revoke t).
Proof. intros Hf. unfold Refresh_Revoke. keep_stmt. Qed.
Lemma keep_MarkUsed c : (∀ s, I s → I (set_codes (alter use_code c) s)) → Preserves I (MarkUsed c).
Proof. intros Hf. unfold MarkUsed. keep_stmt. Qed.
Lemma keep_Codes_DeleteExpired t :
  (∀ s, I s → I (set_codes (drop_expired (λ c, Some (ac_ExpiresAt c)) t) s)) → Preserves I (Codes_DeleteExpired t).
Proof. intros Hf. by apply preserves_exec. Qed.
Lemma keep_AuthRequests_Insert r : (∀ s f, I s → I (set_auth_requests f s)) → Preserves I (AuthRequests_Insert r).
Proof. intros Hf. unfold AuthRequests_Insert. keep_stmt. Qed.
Lemma keep_AuthRequests_Delete r : (∀ s f, I s → I (set_auth_requests f s)) → Preserves I (AuthRequests_Delete r).
Proof. intros Hf. apply preserves_exec. auto. Qed.
Lemma keep_AuthRequests_DeleteExpired r : (∀ s f, I s → I (set_auth_requests f s)) → Preserves I (AuthRequests_DeleteExpired r).
Proof. intros Hf. apply preserves_exec. auto. Qed.
Lemma keep_ATPRequests_Insert r : (∀ s f, I s → I (set_atp_requests f s)) → Preserves I (ATPRequests_Insert r).
Proof. intros Hf. unfold ATPRequests_Insert. keep_stmt. Qed.
Lemma keep_ATPRequests_Delete r : (∀ s f, I s → I (set_atp_requests f s)) → Preserves I (ATPRequests_Delete r).
Proof. intros Hf. apply preserves_exec. auto. Qed.
Lemma keep_ATPRequests_DeleteExpired r : (∀ s f, I s → I (set_atp_requests f s)) → Preserves I (ATPRequests_DeleteExpired r).
Proof. intros Hf. apply preserves_exec. auto. Qed.
Lemma keep_Sessions_Insert r : (∀ s f, I s → I (set_sessions f s)) → Preserves I (Sessions_Insert r).
Proof. intros Hf. unfold Sessions_Insert. keep_stmt. Qed.
Lemma keep_Sessions_Update r : (∀ s f, I s → I (set_sessions f s)) → Preserves I (Sessions_Update r).
Proof. intros Hf. apply preserves_exec. auto. Qed.
Lemma keep_JTI_Insert j :
  (∀ s, o_jtis s !! jti_JTI j = None → I s → I (set_jtis (<[jti_JTI j := jti_CreatedAt j]>) s)) → Preserves I (JTI_Insert j).
Proof. intros Hf. unfold JTI_Insert. keep_stmt. by apply (Hf s). Qed.
Lemma keep_JTI_Exists j : Preserves I (JTI_Exists j).
Proof. apply preserves_query. Qed.
Lemma keep_Sessions_GetLatest j : Preserves I (Sessions_GetLatest j).
Proof. apply preserves_query. Qed.
Lemma keep_Clients_Insert c : (∀ s f, I s → I (set_clients f s)) → Preserves I (Clients_Insert c).
Proof. intros Hf. unfold Clients_Insert. keep_stmt. Qed.
End keeps.

Create HintDb oauth.
#[export] Hint Resolve keep_get_row keep_random keep_Access_Insert keep_Access_Revoke keep_Access_DeleteExpired
  keep_Refresh_Insert keep_Refresh_Revoke keep_MarkUsed keep_Codes_DeleteExpired keep_AuthRequests_Insert
  keep_AuthRequests_Delete keep_AuthRequests_DeleteExpired keep_ATPRequests_Insert keep_ATPRequests_Delete
  keep_ATPRequests_DeleteExpired keep_Sessions_Insert keep_Sessions_Update keep_JTI_Insert keep_JTI_Exists
  keep_Sessions_GetLatest keep_Clients_Insert : oauth.

(** ** Properties kept unless a certain answer is given *)

Definition PreservesBut {S A} (I : S → Prop) (but : outcome A → Prop) (m : M S A) : Prop :=
  ∀ s fs o s' fs', I s → m s fs = (o, s', fs') → ¬ but o → I s'.

Section but.
Context {S A : Type} (I : S → Prop) (but : outcome A → Prop).

Lemma but_weaken (m : M S A) : Preserves I m → PreservesBut I but m.
Proof. intros Hm s fs o s' fs' Hs E _. by eapply Hm. Qed.

Lemma but_bind {B} (m : M S B) (f : B → M S A) :
  Preserves I m → (∀ b, PreservesBut I but (f b)) → PreservesBut I but (m ≫= f).
Proof.
  intros Hm Hf s fs o s' fs' Hs. unfold mbind, M_bind. destruct (m s fs) as [[[b|e] s1] fs1] eqn:E.
  - intros E2 Hb. eapply Hf; [|done..]. by eapply Hm.
  - intros [= <- <- <-] _. by eapply Hm.
Qed.

Lemma but_always (m : M S A) : (∀ s fs o s' fs', m s fs = (o, s', fs') → but o) → PreservesBut I but m.
Proof. intros Hm s fs o s' fs' _ E Hb. exfalso. by eapply Hb, Hm. Qed.
End but.

Lemma but_or_respond {S A} (I : S → Prop) but (m : M S A) f (k : A → M S Response) :
  Preserves I m → (∀ a, PreservesBut I but (k a)) → PreservesBut I but (or_respond m f k).
Proof.
  intros Hm Hk. unfold or_respond. apply but_bind; [by apply preserves_attempt|].
  intros [a|e]; [apply Hk|apply but_weaken, preserves_ret].
Qed.

Lemma ignore_bind {S A B} (m : M S A) (k : unit → M S B) s fs :
  ∃ s1 fs1, (ignore m ≫= k) s fs = k tt s1 fs1.
Proof. unfold ignore, attempt, mbind, M_bind. destruct (m s fs) as [[o s1] fs1]. by exists s1, fs1. Qed.

(** ** What handlers keep *)

(** A property of the tables no handler breaks, new codes and refresh tokens apart. *)
Record kept (I : odb → Prop) : Prop := {
  kp_access : ∀ s f, I s → I (set_access f s);
  kp_auth : ∀ s f, I s → I (set_auth_requests f s);
  kp_atp : ∀ s f, I s → I (set_atp_requests f s);
  kp_sessions : ∀ s f, I s → I (set_sessions f s);
  kp_clients : ∀ s f, I s → I (set_clients f s);
  kp_random : ∀ s x, I s → I (set_random x s);
  kp_jti : ∀ s j x, o_jtis s !! j = None → I s → I (set_jtis (<[j := x]>) s);
  kp_use : ∀ s c, I s → I (set_codes (alter use_code c) s);
  kp_revoke : ∀ s t, I s → I (set_refresh (alter revoke_refresh t) s);
}.

Section handlers.
Context `{Env} `{OAuthWorld} (cfg : Config) (I : odb → Prop) (HI : kept I).

Lemma keep_validateDPoP r : Preserves I (validateDPoP cfg r).
Proof.
  unfold validateDPoP. case_match; [apply preserves_ret|].
  apply preserves_bind; [apply preserves_gets|intros now].
  apply preserves_bind; [apply preserves_of_outcome|intros p].
  apply preserves_bind; [apply keep_JTI_Exists|intros [|]]; [apply preserves_throw|].
  apply preserves_bind; [|intros; apply preserves_ret]. apply keep_JTI_Insert. intros s. apply (kp_jti I HI).
Qed.

(** The refresh token of an answer. *)
Definition answers_refresh (t : string) (o : outcome Response) : Prop :=
  ∃ r, o = Ok (TokenIssued r) ∧ tr_RefreshToken r = Some t.

(** Storing another refresh token than [t] keeps [I]. *)
Definition refresh_kept (t : option string) : Prop :=
  ∀ s x, Some (rt_Token x) ≠ t → I s → I (set_refresh (<[rt_Token x := x]>) s).

Definition but_refresh (t : option string) (o : outcome Response) : Prop :=
  match t with Some t => answers_refresh t o | None => False end.

Lemma keep_issue t clientID userID sessionID scope jkt :
  refresh_kept t → PreservesBut I (but_refresh t) (issue_tokens cfg clientID userID sessionID scope jkt).
Proof.
  intros Ht. unfold issue_tokens. apply but_or_respond; [apply keep_random, HI|intros a].
  apply but_or_respond; [apply keep_random, HI|intros x]. apply but_bind; [apply preserves_gets|intros now].
  apply but_or_respond; [apply keep_Access_Insert, HI|intros _].
  destruct (decide (Some x = t)) as [<-|Hne].
  - intros s fs o s' fs' Hs E Hb.
    apply or_respond_inv in E as [([] & s1 & fs1 & _ & E)|(e & E & ->)].
    + injection E as <- <- <-. exfalso. apply Hb. by eexists.
    + by apply stmt_err_inv in E as ->.
  - apply but_or_respond; [|intros _; apply but_weaken, preserves_ret]. apply keep_Refresh_Insert.
    intros s Hs. by apply (Ht s).
Qed.

Lemma keep_code_grant t r form : refresh_kept t → PreservesBut I (but_refresh t) (handleAuthorizationCodeGrant cfg r form).
Proof.
  intros Ht. unfold handleAuthorizationCodeGrant, code_grant_checks.
  repeat (case_match; [apply but_weaken, preserves_ret|]).
  apply but_or_respond; [apply keep_get_row|intros [cl|]; [|apply but_weaken, preserves_ret]].
  apply but_or_respond; [apply keep_get_row|intros [k|]; [|apply but_weaken, preserves_ret]].
  apply but_bind; [apply preserves_gets|intros now]. case_match; [apply but_weaken, preserves_ret|].
  apply but_or_respond; [apply keep_validateDPoP|intros jkt].
  apply but_or_respond; [apply keep_MarkUsed; intros; by apply HI|intros _]. by apply keep_issue.
Qed.

Lemma keep_refresh_grant t r form : refresh_kept t → PreservesBut I (but_refresh t) (handleRefreshTokenGrant cfg r form).
Proof.
  intros Ht. unfold handleRefreshTokenGrant.
  repeat (case_match; [apply but_weaken, preserves_ret|]).
  apply but_or_respond; [apply keep_get_row|intros [cl|]; [|apply but_weaken, preserves_ret]].
  apply but_or_respond; [apply keep_get_row|intros [k|]; [|apply but_weaken, preserves_ret]].
  apply but_bind; [apply preserves_gets|intros now]. case_match; [apply but_weaken, preserves_ret|].
  apply but_or_respond; [apply keep_validateDPoP|intros jkt].
  apply but_or_respond; [apply keep_Refresh_Revoke; intros; by apply HI|intros _]. by apply keep_issue.
Qed.

Lemma keep_HandleToken t r : refresh_kept t → PreservesBut I (but_refresh t) (HandleToken cfg r).
Proof.
  intros Ht. unfold HandleToken. case_match; [apply but_weaken, preserves_ret|].
  case_match; [|apply but_weaken, preserves_ret].
  case_match; [by apply keep_code_grant|]. case_match; [by apply keep_refresh_grant|].
  apply but_weaken, preserves_ret.
Qed.

Lemma keep_HandleRevoke r : Preserves I (HandleRevoke r).
Proof.
  unfold HandleRevoke. case_match; [apply preserves_ret|]. case_match; [|apply preserves_ret].
  case_match; [apply preserves_ret|].
  apply preserves_bind; [apply preserves_ignore, keep_Access_Revoke, HI|intros _].
  apply preserves_bind; [apply preserves_ignore, keep_Refresh_Revoke; intros; by apply HI|intros _]. apply preserves_ret.
Qed.

Lemma keep_start_flow client params did a : Preserves I (start_flow cfg client params did a).
Proof.
  unfold start_flow. apply preserves_or_respond; [apply keep_random, HI|intros sid].
  apply preserves_bind; [apply preserves_gets|intros now]. apply preserves_bind; [apply preserves_gets|intros exp].
  apply preserves_or_respond; [apply keep_AuthRequests_Insert, HI|intros _].
  apply preserves_or_respond; [apply keep_random, HI|intros st].
  apply preserves_or_respond; [apply preserves_of_outcome|intros [key jkt]].
  apply preserves_or_respond; [apply keep_random, HI|intros v].
  apply preserves_or_respond; [apply keep_ATPRequests_Insert, HI|intros _].
  apply preserves_or_respond; [apply keep_Sessions_Insert, HI|intros _]. apply preserves_ret.
Qed.

Lemma keep_HandleAuthorize r : Preserves I (HandleAuthorize cfg r).
Proof.
  unfold HandleAuthorize. case_match; [apply preserves_ret|].
  destruct (if (rq_Method r =? "GET")%string then Some (rq_Query r) else rq_Form r) as [params|]; [|apply preserves_ret].
  repeat (case_match; [apply preserves_ret|]).
  apply preserves_or_respond; [apply keep_get_row|intros [cl|]; [|apply preserves_ret]].
  repeat (case_match; [apply preserves_ret|]).
  destruct (resolve_login _); [|apply preserves_ret]. destruct (ResolveAuthServer _); [|apply preserves_ret].
  apply keep_start_flow.
Qed.

Lemma keep_record_session sid now t : Preserves I (record_session sid now t).
Proof.
  unfold record_session. apply preserves_bind; [apply preserves_attempt, keep_Sessions_GetLatest|].
  intros [[se|]|e]; [|apply preserves_ret..]. apply preserves_ignore, keep_Sessions_Update, HI.
Qed.

(** The callback answers with the code it stored, or panics having stored one. *)
Definition answers_code (c : string) (o : outcome Response) : Prop :=
  o = Ok Panic ∨ ∃ target ps, o = Ok (RedirectTo target (("code", c) :: ps)).

Definition but_code (c : option string) (o : outcome Response) : Prop :=
  match c with Some c => answers_code c o | None => False end.

Definition codes_kept (c : option string) : Prop :=
  ∀ s k, Some (ac_Code k) ≠ c → I s → I (set_codes (<[ac_Code k := k]>) s).

Lemma keep_grant_code c q sid st cst t now :
  codes_kept c → PreservesBut I (but_code c) (grant_code cfg q sid st cst t now).
Proof.
  intros Hc. unfold grant_code. apply but_or_respond; [apply keep_random, HI|intros x].
  apply but_bind; [apply preserves_gets|intros exp].
  assert (Hrest : ∀ code : list (string * string), Preserves I (ignore (ATPRequests_Delete st) ;; ignore (AuthRequests_Delete sid) ;;
    if negb (url_parses (ar_RedirectURI q)) then mret Panic else mret (RedirectTo (ar_RedirectURI q) code))).
  { intros code. apply preserves_bind; [apply preserves_ignore, keep_ATPRequests_Delete, HI|intros _].
    apply preserves_bind; [apply preserves_ignore, keep_AuthRequests_Delete, HI|intros _]. case_match; apply preserves_ret. }
  destruct (decide (Some x = c)) as [<-|Hne].
  - intros s fs o s' fs' Hs E Hb.
    apply or_respond_inv in E as [([] & s1 & fs1 & _ & E)|(e & E & ->)]; [|by apply stmt_err_inv in E as ->].
    exfalso. apply Hb.
    match type of E with (?a ≫= ?k) ?s0 ?f0 = _ => destruct (ignore_bind (ATPRequests_Delete st) k s0 f0) as (s2 & fs2 & E2) end.
    rewrite E2 in E. clear E2.
    match type of E with _ = _ => match type of E with (?a ≫= ?k) ?s0 ?f0 = _ =>
      destruct (ignore_bind (AuthRequests_Delete sid) k s0 f0) as (s3 & fs3 & E3) end end.
    rewrite E3 in E. clear E3. case_match; injection E as <- <- <-; [by left|right]. by eexists _, _.
  - apply but_or_respond; [|intros _; by apply but_weaken].
    apply preserves_stmt. intros s a s' Hs. unfold mbind, outcome_bind, int_as_bool, insert_key.
    repeat case_match; intros; simplify_eq. all: by eapply (Hc s).
Qed.

Lemma keep_HandleCallback c r : codes_kept c → PreservesBut I (but_code c) (HandleCallback cfg r).
Proof.
  intros Hc. unfold HandleCallback. case_match; [apply but_weaken, preserves_ret|].
  apply but_or_respond; [apply keep_get_row|intros [q|]; [|apply but_weaken, preserves_ret]].
  apply but_bind; [apply preserves_gets|intros now]. case_match.
  { apply but_weaken, preserves_bind; [apply preserves_ignore, keep_ATPRequests_Delete, HI|intros _; apply preserves_ret]. }
  apply but_or_respond; [apply keep_get_row|intros [ar|]; [|apply but_weaken, preserves_ret]].
  repeat (case_match; [apply but_weaken, preserves_ret|]).
  destruct (ParseDPoPKeyPair _); [|apply but_weaken, preserves_ret].
  destruct (ExchangeCode _); [|apply but_weaken, preserves_ret].
  apply but_bind; [apply keep_record_session|intros _]. by apply keep_grant_code.
Qed.

Lemma keep_validate_token r url age token : Preserves I (validateDPoPToken url age r token).
Proof.
  unfold validateDPoPToken, or_refuse, refuse. case_match; [apply preserves_ret|].
  apply preserves_bind; [apply preserves_gets|intros now]. case_match; [|apply preserves_ret].
  apply preserves_bind; [apply preserves_attempt, keep_JTI_Exists|intros [[|]|]]; [apply preserves_ret| |apply preserves_ret].
  apply preserves_bind; [apply preserves_attempt, keep_JTI_Insert; intros s; apply (kp_jti I HI)|intros [u|]; [|apply preserves_ret]].
  apply preserves_bind; [apply preserves_attempt, keep_get_row|intros [[x|]|]]; apply preserves_ret.
Qed.

Lemma keep_ValidateRequest r url age : Preserves I (ValidateRequest url age r).
Proof.
  unfold ValidateRequest. case_match; [apply preserves_ret|]. destruct (cut _ _) as [[scheme token]|]; [|apply preserves_ret].
  case_match; [apply keep_validate_token|]. case_match; [|apply preserves_ret].
  unfold validateBearerToken, or_refuse. apply preserves_bind; [apply preserves_attempt, keep_get_row|].
  intros [[t|]|]; [|apply preserves_ret..]. apply preserves_bind; [apply preserves_gets|intros now]. apply preserves_ret.
Qed.
End handlers.

(** ** Histories *)

Inductive oauth_event :=
  | EvAuthorize (r : Request)
  | EvCallback (r : Request)
  | EvToken (r : Request)
  | EvRevoke (r : Request)
  | EvResource (resourceURL : string) (maxDPoPAge : Z) (r : Request)
  | EvCleanup
  | EvRegister (c : Client)
  | EvDeleteClient (clientID : string).

Inductive answer :=
  | Answered (o : outcome Response)
  | Authenticated (o : outcome (AuthResult + AuthError))
  | Done (o : outcome unit).

Section histories.
Context `{Env} `{OAuthWorld} (cfg : Config).

Definition answered {A} (wrap : outcome A → answer) (m : M odb A) : odb → faults → answer * odb :=
  λ s fs, match m s fs with (o, s', _) => (wrap o, s') end.

Definition run_event (ev : oauth_event) : odb → faults → answer * odb :=
  match ev with
  | EvAuthorize r => answered Answered (HandleAuthorize cfg r)
  | EvCallback r => answered Answered (HandleCallback cfg r)
  | EvToken r => answered Answered (HandleToken cfg r)
  | EvRevoke r => answered Answered (HandleRevoke r)
  | EvResource url age r => answered Authenticated (ValidateRequest url age r)
  | EvCleanup => answered Done cleanup_tick
  | EvRegister c => answered Done (Clients_Insert c)
  | EvDeleteClient id => answered Done (Clients_Delete id)
  end.

(** One event from start to end - no other comes between its statements - at a time not before the last one's. *)
Definition oauth_step (s : odb) (l : oauth_event * answer) (s' : odb) : Prop :=
  ∃ now fs, (o_clock s <= now)%Z ∧ run_event l.1 (set_clock now s) fs = (l.2, s').

(** The answers that put a code or a refresh token into the hands of a client. *)
Definition issues_code (c : string) (l : oauth_event * answer) : Prop :=
  match l with (EvCallback _, Answered o) => answers_code c o | _ => False end.
Definition issues_refresh (t : string) (l : oauth_event * answer) : Prop :=
  match l with (EvToken _, Answered o) => answers_refresh t o | _ => False end.

(** The requests that redeem one. *)
Definition redeems (grant name value : string) (l : oauth_event * answer) : bool :=
  match l with
  | (EvToken r, Answered (Ok resp)) =>
      match rq_Form r with
      | Some form => is_token resp && (values_get "grant_type" form =? grant)%string && (values_get name form =? value)%string
      | None => false
      end
  | _ => false
  end.

Definition redeems_code (c : string) := redeems "authorization_code" "code" c.
Definition redeems_refresh (t : string) := redeems "refresh_token" "refresh_token" t.

(** The code, if it is stored, is used up; the refresh token, if it is stored, revoked. *)
Definition code_spent (c : string) (s : odb) : Prop := ∀ k, o_codes s !! c = Some k → ac_Used k = true.
Definition refresh_spent (t : string) (s : odb) : Prop := ∀ k, o_refresh s !! t = Some k → rt_Revoked k = true.

Lemma lookup_drop_expired {K A} `{Countable K} (f : A → option Z) t (m : gmap K A) k a :
  drop_expired f t m !! k = Some a → m !! k = Some a.
Proof. unfold drop_expired. by intros [? _]%map_lookup_filter_Some. Qed.

Lemma lookup_alter_flag {A} (f : A → A) (flag : A → bool) c k (m : gmap string A) a :
  (∀ x, flag (f x) = true) → (∀ x, m !! k = Some x → flag x = true) → alter f c m !! k = Some a → flag a = true.
Proof.
  intros Hf Hm. destruct (decide (k = c)) as [->|Hne].
  - rewrite lookup_alter_eq. destruct (m !! c); [|done]. intros [= <-]. apply Hf.
  - rewrite lookup_alter_ne by done. apply Hm.
Qed.

Lemma code_spent_kept c : kept (code_spent c).
Proof.
  split; try done. intros s c' Hs k. cbn. intros Hk. by eapply (lookup_alter_flag use_code ac_Used) in Hk.
Qed.

Lemma refresh_spent_kept t : kept (refresh_spent t).
Proof.
  split; try done. intros s t' Hs k. cbn. intros Hk. by eapply (lookup_alter_flag revoke_refresh rt_Revoked) in Hk.
Qed.

Lemma keep_cleanup (I : odb → Prop) :
  (∀ s f, I s → I (set_auth_requests f s)) → (∀ s f, I s → I (set_atp_requests f s)) → (∀ s f, I s → I (set_access f s)) →
  (∀ s t, I s → I (set_codes (drop_expired (λ c, Some (ac_ExpiresAt c)) t) s)) →
  (∀ s, I s → I (set_jtis (drop_expired Some (o_clock s - 3600)) s)) →
  Preserves I cleanup_tick.
Proof.
  intros H1 H2 H3 H4 H5 s fs o s' fs' Hs E. revert E. unfold cleanup_tick, CurrentTimestamp. rewrite gets_bind.
  assert (Hclock : Preserves (λ s1, I s1 ∧ o_clock s1 = o_clock s)
    (ignore (AuthRequests_DeleteExpired (o_clock s)) ;; ignore (ATPRequests_DeleteExpired (o_clock s)) ;;
     ignore (Codes_DeleteExpired (o_clock s)) ;; ignore (Access_DeleteExpired (o_clock s)) ;;
     ignore (JTI_DeleteOlderThan (o_clock s - 3600)))).
  { repeat (apply preserves_bind; [apply preserves_ignore, preserves_exec; intros s1 [Hs1 Hc]; split; [by auto|done]|intros _]).
    apply preserves_ignore, preserves_exec. intros s1 [Hs1 Hc]. split; [|done]. rewrite <- Hc. by apply H5. }
  intros E. by apply (Hclock s fs o s' fs' (conj Hs eq_refl) E).
Qed.

(** Events keep a property of codes and refresh tokens, up to answers that issue one. *)
Lemma keep_event (I : odb → Prop) c t ev s fs a s' :
  kept I → codes_kept I c → refresh_kept I t →
  (∀ s t, I s → I (set_codes (drop_expired (λ c, Some (ac_ExpiresAt c)) t) s)) →
  (∀ s, I s → I (set_jtis (drop_expired Some (o_clock s - 3600)) s)) →
  (∀ s id, I s → I (set_refresh (filter (λ kv : string * RefreshToken, rt_ClientID kv.2 ≠ id)) s)) →
  I s → run_event ev s fs = (a, s') →
  (∀ c', c = Some c' → ¬ issues_code c' (ev, a)) → (∀ t', t = Some t' → ¬ issues_refresh t' (ev, a)) → I s'.
Proof.
  intros HI Hc Ht Hdrop Hj Hdel Hs E Hnc Hnt.
  destruct ev; cbn [run_event] in E; unfold answered in E;
    match type of E with context [match ?m s fs with _ => _ end] => destruct (m s fs) as [[o s1] fs1] eqn:Em end;
    injection E as <- <-.
  - by eapply (keep_HandleAuthorize cfg I HI).
  - eapply (keep_HandleCallback cfg I HI c); [done..|]. destruct c as [c|]; [by apply (Hnc c)|by intros []].
  - eapply (keep_HandleToken cfg I HI t); [done..|]. destruct t as [t|]; [by apply (Hnt t)|by intros []].
  - by eapply (keep_HandleRevoke I HI).
  - by eapply (keep_ValidateRequest I HI).
  - eapply (keep_cleanup I); [..|done|done]; try done; intros; by apply HI.
  - eapply (keep_Clients_Insert I); [|done|done]. apply HI.
  - eapply (preserves_exec I); [|done|exact Em]. intros s2 Hs2. cbn. apply (kp_clients I HI), (kp_access I HI).
    change (I (set_refresh (filter (λ kv : string * RefreshToken, rt_ClientID kv.2 ≠ clientID))
      (set_auth_requests (filter (λ kv : string * AuthRequest, ar_ClientID kv.2 ≠ clientID)) s2))).
    apply Hdel, (kp_auth I HI), Hs2.
Qed.

Lemma redeems_inv grant name value ev a s fs s' :
  redeems grant name value (ev, a) = true → run_event ev s fs = (a, s') →
  ∃ r form resp, ev = EvToken r ∧ rq_Form r = Some form ∧ values_get "grant_type" form = grant ∧
    values_get name form = value ∧ is_token resp = true ∧
    ∃ fs', HandleToken cfg r s fs = (Ok resp, s', fs').
Proof.
  intros Hr E. destruct ev; try done. cbn in Hr, E. unfold answered in E.
  destruct (HandleToken cfg r s fs) as [[o s1] fs1] eqn:Em. injection E as <- <-.
  destruct o as [resp|]; [|done]. destruct (rq_Form r) as [form|] eqn:Hform; [|done].
  apply andb_prop in Hr as [[Ht Hg%String.eqb_eq]%andb_prop Hv%String.eqb_eq].
  exists r, form, resp. split_and!; try done. by exists fs1.
Qed.

Lemma redeem_code_spends c ev a s fs s' :
  redeems_code c (ev, a) = true → run_event ev s fs = (a, s') → ¬ code_spent c s ∧ code_spent c s'.
Proof.
  intros Hr E. destruct (redeems_inv _ _ _ _ _ _ _ _ Hr E) as (r & form & resp & -> & Hform & Hg & Hc & Ht & fs' & Em).
  apply handle_token_inv in Em as (_ & form' & Hform' & [[_ Hk]|[Hg' _]]); [| |done]; [|congruence].
  rewrite Hform in Hform'. injection Hform' as <-. destruct Hk as (k & jkt & s1 & x & t & Hk & [Hu _ _ _ _] & _ & Hb & Hi & _).
  rewrite Hc in *. split; [intros Hs; by rewrite (Hs k Hk) in Hu|].
  assert (Ec : o_codes s' = alter use_code c (o_codes s)).
  { destruct Hi as (_ & _ & ->). cbn. by destruct Hb as [(_ & _ & ->)|(p & _ & _ & _ & _ & ->)]. }
  intros k'. rewrite Ec, lookup_alter_eq, Hk. by intros [= <-].
Qed.

Lemma redeem_refresh_spends t ev a s fs s' :
  redeems_refresh t (ev, a) = true → run_event ev s fs = (a, s') → ¬ refresh_spent t s ∧ refresh_spent t s'.
Proof.
  intros Hr E. destruct (redeems_inv _ _ _ _ _ _ _ _ Hr E) as (r & form & resp & -> & Hform & Hg & Hc & Ht & fs' & Em).
  apply handle_token_inv in Em as (_ & form' & Hform' & [[Hg' _]|[_ Hk]]); [| |done]; [congruence|].
  rewrite Hform in Hform'. injection Hform' as <-. destruct Hk as (k & jkt & s1 & x & t' & Hk & [Hl _ _] & _ & Hb & Hi & _).
  rewrite Hc in *. split; [intros Hs; by rewrite (Hs k Hk) in Hl|].
  assert (Er : o_refresh s1 = o_refresh s) by by destruct Hb as [(_ & _ & ->)|(p & _ & _ & _ & _ & ->)].
  destruct Hi as (_ & Hn & ->). cbn in Hn. rewrite Er in Hn.
  assert (Hne : t' ≠ t) by (intros ->; by rewrite lookup_alter_eq, Hk in Hn).
  intros k'. cbn. rewrite lookup_insert_ne, Er, lookup_alter_eq, Hk by done. by intros [= <-].
Qed.

(** ** Exchanges that overlap

    [HandleToken] statement by statement, so that several requests and the rest of the server may take turns. *)

(** [if err != nil { respond; return }] *)
Definition respond_proc {A} (p : proc odb (outcome A)) (on_err : string → Response) (k : A → proc odb Response) : proc odb Response :=
  o ← p; match o with Ok a => k a | Err e => Ret (on_err e) end.

Definition validate_proc (r : Request) : proc odb (outcome (option string)) :=
  if (rq_DPoP r =? "")%string then Ret (Ok None)
  else
    now ← reads o_clock;
    match VerifyDPoPProof (rq_DPoP r) "POST" (cf_ExternalBaseURL cfg +:+ "/oauth/token") DefaultMaxDPoPAge now with
    | Err e => Ret (Err e)
    | Ok result =>
        used ← atomically (JTI_Exists (pf_JTI result));
        match used with
        | Err e => Ret (Err e)
        | Ok true => Ret (Err ErrDPoPReplay)
        | Ok false => o ← atomically (JTI_Insert (mkJTI (pf_JTI result) (pf_IAT result)));
            Ret (match o with Ok _ => Ok (Some (pf_JKT result)) | Err e => Err e end)
        end
    end.

Definition issue_proc (clientID userID : string) (sessionID scope dpopJKT : option string) : proc odb Response :=
  respond_proc (atomically GenerateAccessToken) (server_error "Failed to generate access token") (λ accessTokenStr,
  respond_proc (atomically GenerateRefreshToken) (server_error "Failed to generate refresh token") (λ refreshTokenStr,
  now ← reads o_clock;
  let accessExpiresAt := (now + cf_AccessTokenExpiration cfg)%Z in
  let tokenType := match dpopJKT with Some _ => "DPoP" | None => "Bearer" end in
  respond_proc (atomically (Access_Insert (mkAccess accessTokenStr tokenType clientID (Some userID) sessionID (Some 0%Z) scope now
    accessExpiresAt false dpopJKT))) (server_error "Failed to store access token") (λ _,
  let refreshExpiresAt :=
    if (0 <? cf_RefreshTokenExpiration cfg)%Z then Some (now + cf_RefreshTokenExpiration cfg)%Z else None in
  respond_proc (atomically (Refresh_Insert (mkRefresh refreshTokenStr accessTokenStr clientID userID sessionID (Some 0%Z) scope now
    refreshExpiresAt false))) (server_error "Failed to store refresh token") (λ _,
  Ret (TokenIssued (mkTokenResponse accessTokenStr tokenType (cf_AccessTokenExpiration cfg) (Some refreshTokenStr)
    scope (Some userID))))))).

Definition mark_and_issue (codeStr clientID : string) (authCode : AuthorizationCode) (dpopJKT : option string) : proc odb Response :=
  respond_proc (atomically (MarkUsed codeStr)) (server_error "Database error") (λ _,
  issue_proc clientID (ac_UserID authCode) (ac_SessionID authCode) (ac_Scope authCode) dpopJKT).

Definition revoke_and_issue (refreshTokenStr clientID : string) (old : RefreshToken) (dpopJKT : option string) : proc odb Response :=
  respond_proc (atomically (Refresh_Revoke refreshTokenStr)) (server_error "Database error") (λ _,
  issue_proc clientID (rt_UserID old) (rt_SessionID old) (rt_Scope old) dpopJKT).

Definition code_proc (r : Request) (form : list (string * string)) : proc odb Response :=
  let codeStr := values_get "code" form in
  let clientID := values_get "client_id" form in
  let redirectURI := values_get "redirect_uri" form in
  if (codeStr =? "")%string then Ret (OAuthError 400 "invalid_request" "code is required")
  else if (clientID =? "")%string then Ret (OAuthError 400 "invalid_request" "client_id is required")
  else if (redirectURI =? "")%string then Ret (OAuthError 400 "invalid_request" "redirect_uri is required")
  else
  respond_proc (atomically (Clients_Get clientID)) (server_error "Database error") (λ client, match client with
  | None => Ret (OAuthError 401 "invalid_client" "Client not found")
  | Some _ =>
  respond_proc (atomically (Codes_Get codeStr)) (server_error "Database error") (λ authCode, match authCode with
  | None => Ret (OAuthError 400 "invalid_grant" "Invalid authorization code")
  | Some authCode =>
  now ← reads o_clock;
  match check_code now authCode clientID redirectURI (values_get "code_verifier" form) with
  | Some resp => Ret resp
  | None =>
  respond_proc (validate_proc r) (λ e, OAuthError 400 "invalid_dpop_proof" e) (λ dpopJKT,
  mark_and_issue codeStr clientID authCode dpopJKT)
  end end) end).

Definition refresh_proc (r : Request) (form : list (string * string)) : proc odb Response :=
  let refreshTokenStr := values_get "refresh_token" form in
  let clientID := values_get "client_id" form in
  if (refreshTokenStr =? "")%string then Ret (OAuthError 400 "invalid_request" "refresh_token is required")
  else if (clientID =? "")%string then Ret (OAuthError 400 "invalid_request" "client_id is required")
  else
  respond_proc (atomically (Clients_Get clientID)) (server_error "Database error") (λ client, match client with
  | None => Ret (OAuthError 401 "invalid_client" "Client not found")
  | Some _ =>
  respond_proc (atomically (Refresh_Get refreshTokenStr)) (server_error "Database error") (λ old, match old with
  | None => Ret (OAuthError 400 "invalid_grant" "Invalid refresh token")
  | Some old =>
  now ← reads o_clock;
  match check_refresh now old clientID with
  | Some resp => Ret resp
  | None =>
  respond_proc (validate_proc r) (λ e, OAuthError 400 "invalid_dpop_proof" e) (λ dpopJKT,
  revoke_and_issue refreshTokenStr clientID old dpopJKT)
  end end) end).

Definition token_proc (r : Request) : proc odb Response :=
  if negb (rq_Method r =? "POST")%string then Ret (MethodNotAllowed ["POST"])
  else match rq_Form r with
  | None => Ret (OAuthError 400 "invalid_request" "Failed to parse form data")
  | Some form =>
      let grantType := values_get "grant_type" form in
      if (grantType =? "authorization_code")%string then code_proc r form
      else if (grantType =? "refresh_token")%string then refresh_proc r form
      else Ret (OAuthError 400 "unsupported_grant_type" ("Unsupported grant_type: " +:+ grantType))
  end.

(** *** Alone, it is the handler *)

Fixpoint alone {A} (p : proc odb A) (s : odb) (fs : faults) : A * odb * faults :=
  match p with Ret a => (a, s, fs) | Act m => let '(p', s', fs') := m s fs in alone p' s' fs' end.

Definition runs_as {A} (p : proc odb A) (m : M odb A) : Prop :=
  ∀ s fs, m s fs = (Ok (alone p s fs).1.1, (alone p s fs).1.2, (alone p s fs).2).

Lemma alone_bind {A B} (p : proc odb A) (f : A → proc odb B) s fs :
  alone (p ≫= f) s fs = alone (f (alone p s fs).1.1) (alone p s fs).1.2 (alone p s fs).2.
Proof.
  change (p ≫= f) with (proc_bind f p). revert s fs. induction p as [a|m IH] using proc_induction; intros s fs; cbn; [done|].
  specialize (IH s fs). destruct (m s fs) as [[p' s'] fs']. cbn in *. apply IH.
Qed.

Lemma runs_ret {A} (a : A) : runs_as (Ret a) (mret a).
Proof. done. Qed.

Lemma runs_reads {A} (f : odb → Z) (k : Z → proc odb A) K : (∀ a, runs_as (k a) (K a)) → runs_as (reads f ≫= k) (gets f ≫= K).
Proof. intros Hk s fs. rewrite alone_bind. cbn. unfold gets, mbind, M_bind. apply Hk. Qed.

Lemma runs_respond {A} (p : proc odb (outcome A)) (m : M odb A) f k K :
  runs_as p (attempt m) → (∀ a, runs_as (k a) (K a)) → runs_as (respond_proc p f k) (or_respond m f K).
Proof.
  intros Hp Hk s fs. unfold respond_proc, or_respond. rewrite alone_bind. unfold mbind, M_bind. rewrite Hp.
  destruct (alone p s fs) as [[[a|e] s'] fs']; cbn; [apply Hk|done].
Qed.

Lemma runs_atomically {A} (m : M odb A) : runs_as (atomically m) (attempt m).
Proof. intros s fs. unfold attempt, atomically. cbn. by destruct (m s fs) as [[[a|e] s'] fs']. Qed.

Lemma runs_validate r : runs_as (validate_proc r) (attempt (validateDPoP cfg r)).
Proof.
  intros s fs. unfold validate_proc, validateDPoP. case_match; [done|]. unfold CurrentTimestamp. rewrite alone_bind. cbn [alone reads fst snd].
  unfold attempt at 1. rewrite gets_bind. destruct (VerifyDPoPProof _ _ _ _ _) as [pf|]; [|done]. rewrite alone_bind.
  unfold of_outcome, mbind, M_bind. cbn [alone atomically].
  destruct (JTI_Exists _ s fs) as [[[[]|e] s1] fs1]; cbn; [done| |done]. by destruct (JTI_Insert _ s1 fs1) as [[[[]|e] s2] fs2].
Qed.

Lemma runs_issue clientID userID sessionID scope jkt :
  runs_as (issue_proc clientID userID sessionID scope jkt) (issue_tokens cfg clientID userID sessionID scope jkt).
Proof.
  unfold issue_proc, issue_tokens, CurrentTimestamp. apply runs_respond; [apply runs_atomically|intros a].
  apply runs_respond; [apply runs_atomically|intros x]. apply runs_reads; intros now. cbv zeta.
  apply runs_respond; [apply runs_atomically|intros _]. apply runs_respond; [apply runs_atomically|intros _]. apply runs_ret.
Qed.

(** When nothing comes between its statements, [token_proc] is [HandleToken], under any faults. *)
Lemma token_proc_alone r : runs_as (token_proc r) (HandleToken cfg r).
Proof.
  unfold token_proc, HandleToken. case_match; [done|]. case_match; [|done]. cbv zeta.
  unfold code_proc, refresh_proc, handleAuthorizationCodeGrant, handleRefreshTokenGrant, code_grant_checks, code_grant_issue, CurrentTimestamp.
  repeat (case_match; [done|]). destruct (_ =? "authorization_code")%string; [|destruct (_ =? "refresh_token")%string; [|done]].
  - repeat (case_match; [done|]). apply runs_respond; [apply runs_atomically|intros [cl|]; [|done]].
    apply runs_respond; [apply runs_atomically|intros [k|]; [|done]]. apply runs_reads; intros now. case_match; [done|].
    apply runs_respond; [apply runs_validate|intros jkt]. apply runs_respond; [apply runs_atomically|intros _; apply runs_issue].
  - repeat (case_match; [done|]). apply runs_respond; [apply runs_atomically|intros [cl|]; [|done]].
    apply runs_respond; [apply runs_atomically|intros [k|]; [|done]]. apply runs_reads; intros now. case_match; [done|].
    apply runs_respond; [apply runs_validate|intros jkt]. apply runs_respond; [apply runs_atomically|intros _; apply runs_issue].
Qed.

(** *** Among others *)

(** What every statement of an exchange keeps. *)
Record exchange_kept (I : odb → Prop) : Prop := {
  ek_access : ∀ s f, I s → I (set_access f s);
  ek_random : ∀ s x, I s → I (set_random x s);
  ek_jti : ∀ s j x, o_jtis s !! j = None → I s → I (set_jtis (<[j := x]>) s);
  ek_use : ∀ s c, I s → I (set_codes (alter use_code c) s);
  ek_revoke : ∀ s t, I s → I (set_refresh (alter revoke_refresh t) s);
  ek_refresh : ∀ s x, o_refresh s !! rt_Token x = None → I s → I (set_refresh (<[rt_Token x := x]>) s);
}.

Section interference.
Context (E P : odb → Prop) (HE : exchange_kept E) (HP : exchange_kept P).

(** What an exchange relies on and guarantees. *)
Definition undisturbed (s s' : odb) : Prop := (E s → E s') ∧ (P s → P s').

#[export] Instance undisturbed_preorder : PreOrder undisturbed.
Proof. split; [by split|]. intros s1 s2 s3 [] []. split; auto. Qed.

Definition quiet {A} (m : M odb A) : Prop := ∀ s fs o s' fs', m s fs = (o, s', fs') → undisturbed s s'.

Lemma quiet_both {A} (m : M odb A) : (∀ I, exchange_kept I → Preserves I m) → quiet m.
Proof. intros Hm s fs o s' fs' Hr. split; intros Hs; by eapply Hm. Qed.

Lemma quiet_get {K A} `{Countable K} (table : odb → gmap K A) scan (k : K) : quiet (get_row table scan k).
Proof. apply quiet_both. intros I _. apply keep_get_row. Qed.
Lemma quiet_random n : quiet (generateRandomToken n).
Proof. apply quiet_both. intros I HI. apply keep_random, HI. Qed.
Lemma quiet_access t : quiet (Access_Insert t).
Proof. apply quiet_both. intros I HI. apply keep_Access_Insert, HI. Qed.
Lemma quiet_jti j : quiet (JTI_Insert j).
Proof. apply quiet_both. intros I HI. apply keep_JTI_Insert. intros s. apply (ek_jti I HI). Qed.
Lemma quiet_jti_exists j : quiet (JTI_Exists j).
Proof. apply quiet_both. intros I HI. apply keep_JTI_Exists. Qed.
Lemma quiet_use c : quiet (MarkUsed c).
Proof. apply quiet_both. intros I HI. apply keep_MarkUsed. intros s. apply (ek_use I HI). Qed.
Lemma quiet_revoke t : quiet (Refresh_Revoke t).
Proof. apply quiet_both. intros I HI. apply keep_Refresh_Revoke. intros s. apply (ek_revoke I HI). Qed.
Lemma quiet_refresh t : quiet (Refresh_Insert t).
Proof.
  apply quiet_both. intros I HI s fs [[]|e] s' fs' Hs Hr; [|by apply stmt_err_inv in Hr as ->].
  apply refresh_insert_inv in Hr as (_ & Hn & ->). by apply (ek_refresh I HI).
Qed.

Notation runs_to Ψ p s := (safe undisturbed undisturbed Ψ p s).

(** A statement: what it returns is known of the state it ran in, and what both sides keep still holds. *)
Lemma runs_statement {A} (I : odb → Prop) (Ψ : Response → odb → Prop) (m : M odb A) f k s :
  (∀ s s', undisturbed s s' → I s → I s') → quiet m → I s → (∀ e s', Ψ (f e) s') →
  (∀ a s0 fs s1 fs1, I s0 → m s0 fs = (Ok a, s1, fs1) → I s1 → runs_to Ψ (k a) s1) →
  runs_to Ψ (respond_proc (atomically m) f k) s.
Proof.
  intros HI Hm Hs Hf Hk. unfold respond_proc.
  apply (safe_bind _ _ (λ o s', match o with Ok a => runs_to Ψ (k a) s' | Err _ => True end)).
  - apply safe_atomically. intros s0 fs o s1 fs1 Hw0 Hr. assert (Hq := Hm _ _ _ _ _ Hr). split; [done|]. intros s2 Hw2. destruct o as [a|]; [|done].
    eapply safe_stable; [apply _|exact Hw2|]. assert (HI0 := HI _ _ Hw0 Hs). eapply Hk; [exact HI0|exact Hr|]. by eapply HI.
  - intros [a|e] s' Hs'; [done|]. intros s2 _. apply Hf.
Qed.

Lemma runs_time {B} (Ψ : B → odb → Prop) (I : odb → Prop) k s :
  (∀ s s', undisturbed s s' → I s → I s') → I s → (∀ now s1, I s1 → runs_to Ψ (k now) s1) → runs_to Ψ (reads o_clock ≫= k) s.
Proof.
  intros HI Hs Hk. apply (safe_bind _ _ (λ now s1, I s1)).
  - apply safe_reads. intros s0 Hw0. split; [reflexivity|]. intros s2 Hw2. by eapply HI, HI.
  - auto.
Qed.

Lemma runs_proof (I : odb → Prop) (Ψ : Response → odb → Prop) r f k s :
  (∀ s s', undisturbed s s' → I s → I s') → I s → (∀ e s', Ψ (f e) s') → (∀ a s1, I s1 → runs_to Ψ (k a) s1) →
  runs_to Ψ (respond_proc (validate_proc r) f k) s.
Proof.
  intros HI Hs Hf Hk. unfold respond_proc. apply (safe_bind _ _ (λ _ s', True ∧ I s')).
  - apply (safe_keep undisturbed undisturbed I (λ _ _, True)); [done..|]. unfold validate_proc. case_match; [by intros s' _|].
    apply (runs_time (λ _ _, True) (λ _, True)); [done..|]. intros now s1 _. destruct (VerifyDPoPProof _ _ _ _ _); [|by intros s' _].
    apply (safe_bind _ _ (λ _ _, True)); [apply safe_atomically; intros s0 fs o s2 fs' _ Hr; split; [by eapply quiet_jti_exists|done]|].
    intros [[]|] s2 _; [by intros s' _| |by intros s' _].
    apply (safe_bind _ _ (λ _ _, True)); [apply safe_atomically; intros s0 fs o s3 fs' _ Hr; split; [by eapply quiet_jti|done]|].
    by intros o s3 _ s' _.
  - intros [a|e] s' [_ Hs']; [by apply Hk|]. intros s2 _. apply Hf.
Qed.

Lemma runs_issuing (I : odb → Prop) (Ψ : Response → odb → Prop) clientID userID sessionID scope jkt s :
  (∀ s s', undisturbed s s' → I s → I s') → I s → (∀ resp s', is_token resp = false → Ψ resp s') → (∀ resp s', I s' → Ψ resp s') →
  runs_to Ψ (issue_proc clientID userID sessionID scope jkt) s.
Proof.
  intros HI Hs Hf Ht. unfold issue_proc.
  apply (runs_statement I); [done|apply quiet_random|done|by intros; apply Hf|]. intros a _ _ s1 _ _ _ Hs1.
  apply (runs_statement I); [done|apply quiet_random|done|by intros; apply Hf|]. intros x _ _ s2 _ _ _ Hs2.
  apply (runs_time _ I); [done..|]. intros now s3 Hs3. cbv zeta.
  apply (runs_statement I); [done|apply quiet_access|done|by intros; apply Hf|]. intros _ _ _ s4 _ _ _ Hs4.
  apply (runs_statement I); [done|apply quiet_refresh|done|by intros; apply Hf|]. intros _ _ _ s5 _ _ _ Hs5.
  intros s6 Hw6. apply Ht. by eapply HI.
Qed.

Lemma check_code_response now k clientID redirectURI codeVerifier resp :
  check_code now k clientID redirectURI codeVerifier = Some resp → is_token resp = false.
Proof. unfold check_code. intros Hc. repeat case_match; by simplify_eq. Qed.

Lemma check_refresh_response now k clientID resp : check_refresh now k clientID = Some resp → is_token resp = false.
Proof. unfold check_refresh. intros Hc. repeat case_match; by simplify_eq. Qed.

(** A request answers without tokens, or it has read a row that is not spent and goes on from there. *)
Lemma runs_token (I : odb → Prop) (Ψ : Response → odb → Prop) r s :
  (∀ s s', undisturbed s s' → I s → I s') → I s → (∀ resp s', is_token resp = false → Ψ resp s') →
  (∀ form k s0 jkt s', rq_Form r = Some form → values_get "grant_type" form = "authorization_code" → I s0 →
    o_codes s0 !! values_get "code" form = Some k → ac_Used k = false → undisturbed s0 s' →
    runs_to Ψ (mark_and_issue (values_get "code" form) (values_get "client_id" form) k jkt) s') →
  (∀ form k s0 jkt s', rq_Form r = Some form → values_get "grant_type" form = "refresh_token" → I s0 →
    o_refresh s0 !! values_get "refresh_token" form = Some k → rt_Revoked k = false → undisturbed s0 s' →
    runs_to Ψ (revoke_and_issue (values_get "refresh_token" form) (values_get "client_id" form) k jkt) s') →
  runs_to Ψ (token_proc r) s.
Proof.
  intros HI Hs Hf Hcode Hrefresh.
  assert (Hret : ∀ resp s', is_token resp = false → runs_to Ψ (Ret resp) s') by (intros resp s' Ht s2 _; by apply Hf).
  assert (Htrans : ∀ s0 s1 s2, undisturbed s1 s2 → undisturbed s0 s1 → undisturbed s0 s2) by (intros; by etrans).
  unfold token_proc. case_match; [by apply Hret|]. case_match eqn:Eform; [|by apply Hret]. cbv zeta.
  destruct (String.eqb_spec (values_get "grant_type" l) "authorization_code") as [Hg|_];
    [|destruct (String.eqb_spec (values_get "grant_type" l) "refresh_token") as [Hg|_]; [|by apply Hret]].
  - unfold code_proc. repeat (case_match; [by apply Hret|]). cbv zeta.
    apply (runs_statement I); [done|apply quiet_get|done|by intros; apply Hf|]. intros [cl|] _ _ s1 _ _ _ Hs1; [|by apply Hret].
    apply (runs_statement I); [done|apply quiet_get|done|by intros; apply Hf|]. intros ok s0 fs s2 fs2 Hs0 (-> & -> & _)%get_row_inv _.
    destruct (o_codes s0 !! values_get "code" l) as [k|] eqn:Ek; [|by apply Hret].
    apply (runs_time _ (undisturbed s0)); [apply Htrans|reflexivity|]. intros now s3 Hs3.
    destruct (check_code _ _ _ _ _) as [resp|] eqn:Ec; [apply Hret; by eapply check_code_response|].
    apply (runs_proof (undisturbed s0)); [apply Htrans|done|by intros; apply Hf|]. intros jkt s4 Hs4.
    apply (Hcode l k s0); try done. by apply check_code_spec in Ec as [].
  - unfold refresh_proc. repeat (case_match; [by apply Hret|]). cbv zeta.
    apply (runs_statement I); [done|apply quiet_get|done|by intros; apply Hf|]. intros [cl|] _ _ s1 _ _ _ Hs1; [|by apply Hret].
    apply (runs_statement I); [done|apply quiet_get|done|by intros; apply Hf|]. intros ok s0 fs s2 fs2 Hs0 (-> & -> & _)%get_row_inv _.
    destruct (o_refresh s0 !! values_get "refresh_token" l) as [k|] eqn:Ek; [|by apply Hret].
    apply (runs_time _ (undisturbed s0)); [apply Htrans|reflexivity|]. intros now s3 Hs3.
    destruct (check_refresh _ _ _) as [resp|] eqn:Ec; [apply Hret; by eapply check_refresh_response|].
    apply (runs_proof (undisturbed s0)); [apply Htrans|done|by intros; apply Hf|]. intros jkt s4 Hs4.
    apply (Hrefresh l k s0); try done. by apply check_refresh_spec in Ec as [].
Qed.

(** What a request gets that does not redeem, or that redeems and so leaves [P]. *)
Lemma runs_rest (I : odb → Prop) (Ψ : Response → odb → Prop) (m : M odb unit) clientID userID sessionID scope jkt s :
  (∀ s s', undisturbed s s' → I s → I s') → quiet m → I s → (∀ resp s', is_token resp = false → Ψ resp s') →
  (∀ s0 fs s1 fs1, I s0 → m s0 fs = (Ok tt, s1, fs1) → P s1) → (∀ resp s', P s' → Ψ resp s') →
  runs_to Ψ (respond_proc (atomically m) (server_error "Database error") (λ _, issue_proc clientID userID sessionID scope jkt)) s.
Proof.
  intros HI Hm Hs Hf HPm Ht. apply (runs_statement I); [done|done|done|by intros; apply Hf|]. intros [] s0 fs s1 fs1 Hs0 Hr _.
  apply (runs_issuing P); [by intros s2 s3 [_ ?]|by eapply HPm|done|done].
Qed.

Lemma runs_other (Ψ : Response → odb → Prop) (m : M odb unit) clientID userID sessionID scope jkt s :
  quiet m → (∀ resp s', Ψ resp s') →
  runs_to Ψ (respond_proc (atomically m) (server_error "Database error") (λ _, issue_proc clientID userID sessionID scope jkt)) s.
Proof.
  intros Hm Ht. apply (runs_statement (λ _, True)); [done..|]. intros [] s0 fs s1 fs1 _ _ _. by apply (runs_issuing (λ _, True)).
Qed.
End interference.

(** A refresh token that is stored, and one that is stored and revoked. *)
Definition stored (t : string) (s : odb) : Prop := is_Some (o_refresh s !! t).
Definition revoked (t : string) (s : odb) : Prop := ∃ k, o_refresh s !! t = Some k ∧ rt_Revoked k = true.

Lemma exchange_keeps_code c : exchange_kept (code_spent c).
Proof. split; try done. apply (kp_use _ (code_spent_kept c)). Qed.

Lemma exchange_keeps_stored t : exchange_kept (stored t).
Proof.
  split; try done; unfold stored; cbn.
  - intros s t' Hs. by apply lookup_alter_is_Some.
  - intros s x _ Hs. apply lookup_insert_is_Some'. by right.
Qed.

Lemma exchange_keeps_revoked t : exchange_kept (revoked t).
Proof.
  split; try done; unfold revoked; cbn.
  - intros s t' (k & Hk & Hr). destruct (decide (t = t')) as [->|Hne].
    + rewrite lookup_alter_eq, Hk. by eexists.
    + rewrite lookup_alter_ne by done. by exists k.
  - intros s x Hn (k & Hk & Hr). rewrite lookup_insert_ne by congruence. by exists k.
Qed.

Lemma exchange_keeps_any : exchange_kept (λ _, True).
Proof. by split. Qed.

Definition answers_token (r : Request) (resp : Response) : oauth_event * answer := (EvToken r, Answered (Ok resp)).

Lemma not_token_redeems grant name value r resp : is_token resp = false → redeems grant name value (answers_token r resp) = false.
Proof. intros Ht. cbn. destruct (rq_Form r); [|done]. by rewrite Ht. Qed.

Lemma other_redeems grant name value r form resp :
  rq_Form r = Some form → values_get "grant_type" form ≠ grant ∨ values_get name form ≠ value →
  redeems grant name value (answers_token r resp) = false.
Proof.
  intros Hf Hne. cbn. rewrite Hf. destruct (String.eqb_spec (values_get "grant_type" form) grant), (String.eqb_spec (values_get name form) value);
    rewrite ?andb_false_r; try done. by destruct Hne.
Qed.

Notation code_ruled c := (undisturbed (λ _, True) (code_spent c)).
Notation refresh_ruled t := (undisturbed (stored t) (revoked t)).

(** An exchange of a code leaves it used up, and one begun after that gets nothing. *)
Lemma code_runs c r s :
  safe (code_ruled c) (code_ruled c) (λ resp s', redeems_code c (answers_token r resp) = true → code_spent c s') (token_proc r) s ∧
  (code_spent c s → safe (code_ruled c) (code_ruled c) (λ resp _, redeems_code c (answers_token r resp) = false) (token_proc r) s).
Proof.
  assert (HE := exchange_keeps_any). assert (HP := exchange_keeps_code c).
  split; [|intros Hs]; [eapply (runs_token _ _ HE HP (λ _, True))|eapply (runs_token _ _ HE HP (code_spent c))]; try done.
  1,5: intros resp s' Ht; unfold redeems_code; by rewrite not_token_redeems.
  2,5: intros form k s0 jkt s' Hform Hg _ _ _ _; apply (runs_other _ _ HE HP); [by apply quiet_revoke|];
    intros resp s2; unfold redeems_code; rewrite (other_redeems _ _ _ _ form); [done|done|left; by rewrite Hg].
  - intros form k s0 jkt s' Hform Hg _ Hk Hu _. destruct (decide (values_get "code" form = c)) as [Hc|Hne].
    + apply (runs_rest _ _ HE HP (λ _, True)); [done|by apply quiet_use|done|intros resp s2 Ht; unfold redeems_code; by rewrite not_token_redeems| |done].
      rewrite Hc. intros s2 fs s3 fs3 _ (_ & ->)%mark_used_inv k'. cbn. rewrite lookup_alter_eq. destruct (o_codes s2 !! c); [|done]. by intros [= <-].
    + apply (runs_other _ _ HE HP); [by apply quiet_use|]. intros resp s2. unfold redeems_code. rewrite (other_redeems _ _ _ _ form); [done|done|by right].
  - by intros s1 s2 [_ ?].
  - intros form k s0 jkt s' Hform Hg Hs0 Hk Hu _. destruct (decide (values_get "code" form = c)) as [Hc|Hne].
    + rewrite Hc in Hk. by rewrite (Hs0 k Hk) in Hu.
    + apply (runs_other _ _ HE HP); [by apply quiet_use|]. intros resp s2. apply (other_redeems _ _ _ _ form); [done|by right].
Qed.

Lemma refresh_runs t r s :
  safe (refresh_ruled t) (refresh_ruled t) (λ resp s', redeems_refresh t (answers_token r resp) = true → revoked t s') (token_proc r) s ∧
  (revoked t s → safe (refresh_ruled t) (refresh_ruled t) (λ resp _, redeems_refresh t (answers_token r resp) = false) (token_proc r) s).
Proof.
  assert (HE := exchange_keeps_stored t). assert (HP := exchange_keeps_revoked t).
  split; [|intros Hs]; [eapply (runs_token _ _ HE HP (λ _, True))|eapply (runs_token _ _ HE HP (revoked t))]; try done.
  1,5: intros resp s' Ht; unfold redeems_refresh; by rewrite not_token_redeems.
  1,4: intros form k s0 jkt s' Hform Hg _ _ _ _; apply (runs_other _ _ HE HP); [by apply quiet_use|];
    intros resp s2; unfold redeems_refresh; rewrite (other_redeems _ _ _ _ form); [done|done|left; by rewrite Hg].
  - intros form k s0 jkt s' Hform Hg _ Hk Hu Hs'. destruct (decide (values_get "refresh_token" form = t)) as [Ht|Hne].
    + apply (runs_rest _ _ HE HP (stored t)); [by intros s1 s2 [? _]|by apply quiet_revoke| |intros resp s2 Htok; unfold redeems_refresh; by rewrite not_token_redeems| |done].
      * apply Hs'. rewrite <- Ht. by exists k.
      * rewrite Ht. intros s2 fs s3 fs3 [k2 Hk2] (_ & ->)%refresh_revoke_inv. exists (revoke_refresh k2). cbn. by rewrite lookup_alter_eq, Hk2.
    + apply (runs_other _ _ HE HP); [by apply quiet_revoke|]. intros resp s2. unfold redeems_refresh. rewrite (other_redeems _ _ _ _ form); [done|done|by right].
  - by intros s1 s2 [_ ?].
  - intros form k s0 jkt s' Hform Hg (k2 & Hk2 & Hr2) Hk Hu _. destruct (decide (values_get "refresh_token" form = t)) as [Ht|Hne].
    + rewrite Ht in Hk. congruence.
    + apply (runs_other _ _ HE HP); [by apply quiet_revoke|]. intros resp s2. apply (other_redeems _ _ _ _ form); [done|by right].
Qed.

(** Requests running at once. *)
Lemma requests_run (R env : odb → odb → Prop) `{!PreOrder R} (Φ : Request → Response → odb → Prop) rs s os s' :
  (∀ s s', env s s' → R s s') → par env (token_proc <$> rs) s os s' → (∀ r, r ∈ rs → safe R R (Φ r) (token_proc r) s) →
  ∀ i r resp, rs !! i = Some r → os !! i = Some resp → Φ r resp s'.
Proof.
  intros Henv Hpar Hs. destruct (par_safe rs env R (λ _, R) (λ _, R) Φ) with (token_proc <$> rs) s os s' as (HΦ & _); [auto|auto|auto|auto|done| |].
  - intros i p Hp. rewrite list_lookup_fmap in Hp. destruct (rs !! i) as [r|] eqn:Er; [|done]. injection Hp as <-.
    exists r. split; [done|]. apply Hs. by eapply list_elem_of_lookup_2.
  - intros i r resp Hr Ho. destruct (HΦ i resp Ho) as (r' & Hr' & ?). by simplify_eq.
Qed.

(** C32. Codes and refresh tokens are spent. First, requests handled one after the other (each a whole [HandleToken], among any others): in a
    history with no new issue of it, an authorization code is redeemed for tokens at most once, and so is a refresh token,
    whatever the clients and the upstream server do, whichever statements fail, and although expired codes are deleted. Second, token requests
    whose statements interleave, with each other and with anything that does not issue or unspend it: once a code or token is
    spent none of those begun after is answered with tokens for it, and after an answer with tokens it is spent; so only exchanges
    that overlap one another can redeem it twice ([overlapping_exchanges]: these can). *)
Theorem grants_redeemed_once :
  (∀ s ls s', star oauth_step s ls s' →
    (∀ c, Forall (λ l, ¬ issues_code c l) ls → length (filter (λ l, redeems_code c l = true) ls) ≤ 1) ∧
    (∀ t, Forall (λ l, ¬ issues_refresh t l) ls → length (filter (λ l, redeems_refresh t l = true) ls) ≤ 1)) ∧
  (∀ env rs s os s', par env (token_proc <$> rs) s os s' →
    (∀ c, (∀ s s', env s s' → code_spent c s → code_spent c s') → ∀ i r resp, rs !! i = Some r → os !! i = Some resp →
      redeems_code c (answers_token r resp) = true → ¬ code_spent c s ∧ code_spent c s') ∧
    (∀ t, (∀ s s', env s s' → (stored t s → stored t s') ∧ (revoked t s → revoked t s')) →
      ∀ i r resp, rs !! i = Some r → os !! i = Some resp →
      redeems_refresh t (answers_token r resp) = true → ¬ revoked t s ∧ revoked t s')).
Proof.
  split; [intros s ls s' Hs; split; intros x Hx|intros env rs s os s' Hpar; split; intros x Henv i r resp Hr Ho Hred].
  - eapply (at_most_once oauth_step (λ l, ¬ issues_code x l) _ (code_spent x)); [..|done|done]; clear.
    + intros s [ev a] s' (now & fs & _ & E) Hni Hsp. cbn in E. split.
      * eapply (keep_event (code_spent x) (Some x) None ev (set_clock now s) fs a s'); [apply code_spent_kept|..|exact Hsp|exact E|by intros ? [= <-]|done];
          try by (unfold codes_kept, refresh_kept; intros; match goal with Hx : code_spent x _ |- _ => exact Hx end).
        -- intros s1 k Hne Hs1 k'. cbn. rewrite lookup_insert_ne by congruence. apply Hs1.
        -- intros s1 t Hs1 k. cbn. intros Hk%lookup_drop_expired. by apply Hs1.
      * intros Hr. by destruct (redeem_code_spends _ _ _ _ _ _ Hr E) as [Hn _].
    + intros s [ev a] s' (now & fs & _ & E) _ Hr. by destruct (redeem_code_spends _ _ _ _ _ _ Hr E).
  - eapply (at_most_once oauth_step (λ l, ¬ issues_refresh x l) _ (refresh_spent x)); [..|done|done]; clear.
    + intros s [ev a] s' (now & fs & _ & E) Hni Hsp. cbn in E. split.
      * eapply (keep_event (refresh_spent x) None (Some x) ev (set_clock now s) fs a s'); [apply refresh_spent_kept|..|exact Hsp|exact E|done|by intros ? [= <-]];
          try by (unfold codes_kept, refresh_kept; intros; match goal with Hx : refresh_spent x _ |- _ => exact Hx end).
        -- intros s1 k Hne Hs1 k'. cbn. rewrite lookup_insert_ne by congruence. apply Hs1.
        -- intros s1 id Hs1 k. cbn. intros [Hk _]%map_lookup_filter_Some. by apply Hs1.
      * intros Hr. by destruct (redeem_refresh_spends _ _ _ _ _ _ Hr E) as [Hn _].
    + intros s [ev a] s' (now & fs & _ & E) _ Hr. by destruct (redeem_refresh_spends _ _ _ _ _ _ Hr E).
  - assert (Hcode : ∀ s1 s2, env s1 s2 → code_ruled x s1 s2) by (intros s1 s2 He; split; [done|by apply Henv]). split.
    + intros Hsp. assert (Hno := requests_run (code_ruled x) env _ rs s os s' Hcode Hpar (λ r _, proj2 (code_runs x r s) Hsp) i r resp Hr Ho). cbn beta in Hno. congruence.
    + exact (requests_run (code_ruled x) env _ rs s os s' Hcode Hpar (λ r _, proj1 (code_runs x r s)) i r resp Hr Ho Hred).
  - split.
    + intros Hsp. assert (Hno := requests_run (refresh_ruled x) env _ rs s os s' Henv Hpar (λ r _, proj2 (refresh_runs x r s) Hsp) i r resp Hr Ho). cbn beta in Hno. congruence.
    + exact (requests_run (refresh_ruled x) env _ rs s os s' Henv Hpar (λ r _, proj1 (refresh_runs x r s)) i r resp Hr Ho Hred).
Qed.

(** ** Proofs of possession *)

(** A request whose proof was accepted: it got bound tokens, or a bound token was honoured. *)
Definition accepts_proof (p : string) (l : oauth_event * answer) : bool :=
  match l with
  | (EvToken r, Answered (Ok resp)) => is_token resp && (rq_DPoP r =? p)%string
  | (EvResource _ _ r, Authenticated (Ok (inl _))) => has_prefix "DPoP " (rq_Authorization r) && (rq_DPoP r =? p)%string
  | _ => false
  end.

(** Resources accept proofs no older than an hour, the time their ids are kept. *)
Definition short_lived (l : oauth_event * answer) : Prop :=
  match l.1 with EvResource _ age _ => (age <= 3600)%Z | _ => True end.

(** The proof's id is on record with its time of issue, or the proof has become too old. *)
Definition proof_spent (jti : string) (iat : Z) (s : odb) : Prop :=
  o_jtis s !! jti = Some iat ∨ (iat + 3600 < o_clock s)%Z.

Lemma proof_spent_kept jti iat : kept (proof_spent jti iat).
Proof.
  split; try done. intros s j x Hj [Hs|Hs]; [left|by right]. cbn.
  rewrite lookup_insert_ne; [done|]. intros ->. congruence.
Qed.

Lemma or_refuse_inl {A B} (m : M odb A) fail (k : A → M odb (B + AuthError)) s fs b s' fs' :
  or_refuse m fail k s fs = (Ok (inl b), s', fs') →
  ∃ a s1 fs1, m s fs = (Ok a, s1, fs1) ∧ k a s1 fs1 = (Ok (inl b), s', fs').
Proof.
  unfold or_refuse, attempt, refuse, mbind, M_bind. destruct (m s fs) as [[[a|e] s1] fs1]; [|done].
  intros E. by exists a, s1, fs1.
Qed.

Lemma validate_token_inv r url age token s fs u s' fs' :
  validateDPoPToken url age r token s fs = (Ok (inl u), s', fs') →
  ∃ pf t, rq_DPoP r ≠ "" ∧ VerifyDPoPProof (rq_DPoP r) (rq_Method r) (resource_url url r) age (o_clock s) = Ok pf ∧
    o_jtis s !! pf_JTI pf = None ∧ s' = set_jtis (<[pf_JTI pf := pf_IAT pf]>) s ∧
    o_access s !! token = Some t ∧ check_token (o_clock s) t (check_binding (pf_JKT pf) t) = inl u.
Proof.
  unfold validateDPoPToken. destruct (String.eqb_spec (rq_DPoP r) "") as [|Hne]; [done|].
  unfold CurrentTimestamp. rewrite gets_bind. destruct (VerifyDPoPProof _ _ _ _ _) as [pf|] eqn:Ep; [|done].
  intros (used & s1 & fs1 & (-> & ->)%jti_exists_inv & E)%or_refuse_inl. case_bool_decide; [done|].
  apply or_refuse_inl in E as ([] & s2 & fs2 & (Hn & ->)%jti_insert_inv & E).
  apply or_refuse_inl in E as ([t|] & s3 & fs3 & (-> & Ht & _)%get_row_inv & E); [|done].
  injection E as Ec <- <-. exists pf, t. by split_and!.
Qed.

(** An accepted proof was young enough, its id not on record, and is from then on. *)
Lemma accept_spends p ev a s fs s' :
  p ≠ "" → accepts_proof p (ev, a) = true → short_lived (ev, a) → run_event ev s fs = (a, s') →
  ∃ jkt cm iat, open_proof p = Ok (jkt, cm) ∧ cm_IssuedAt cm = Some iat ∧
    ¬ proof_spent (cm_ID cm) iat s ∧ proof_spent (cm_ID cm) iat s'.
Proof.
  intros Hp Ha Hshort E. destruct ev; cbn in Ha; try done; cbn in E; unfold answered in E.
  - destruct (HandleToken cfg r s fs) as [[o s1] fs1] eqn:Em. injection E as <- <-.
    destruct o as [resp|]; [|done]. apply andb_prop in Ha as [Ht Hrp%String.eqb_eq].
    apply handle_token_inv in Em as (_ & form & _ & Hred); [|done].
    assert (Hb : ∃ jkt s2, bound_to cfg r s jkt s2 ∧ o_jtis s1 = o_jtis s2).
    { destruct Hred as [[_ (k & jkt & s2 & x & t & _ & _ & _ & Hb & (_ & _ & ->) & _)]|
        [_ (k & jkt & s2 & x & t & _ & _ & _ & Hb & (_ & _ & ->) & _)]]; by exists jkt, s2. }
    destruct Hb as (jkt & s2 & [(Hr & _)|(pf & _ & Hv & _ & Hj & ->)] & Ej); [congruence|].
    unfold token_proof in Hv. rewrite Hrp in Hv. apply verify_proof_inv in Hv as (jkt' & cm & Ho & Hid & _ & Hiat & _ & _ & Hage & _).
    exists jkt', cm, (pf_IAT pf). rewrite Hid in *. split_and!; [done..| |].
    + intros [Hs|Hs]; [congruence|]. unfold DefaultMaxDPoPAge in Hage. lia.
    + left. rewrite Ej. cbn. by rewrite lookup_insert_eq.
  - destruct (ValidateRequest resourceURL maxDPoPAge r s fs) as [[o s1] fs1] eqn:Em. injection E as <- <-.
    destruct o as [[u|]|]; [|done..]. apply andb_prop in Ha as [Hpre Hrp%String.eqb_eq].
    unfold ValidateRequest in Em. apply prefix_true in Hpre as [token Hauth]. rewrite Hauth in Em.
    change ("DPoP " +:+ token) with ("DPoP" +:+ String space token) in Em. rewrite cut_append in Em by done. cbn in Em.
    apply validate_token_inv in Em as (pf & t & _ & Hv & Hj & -> & _ & _).
    rewrite Hrp in Hv. apply verify_proof_inv in Hv as (jkt' & cm & Ho & Hid & _ & Hiat & _ & _ & Hage & _).
    exists jkt', cm, (pf_IAT pf). rewrite Hid in *. split_and!; [done..| |].
    + intros [Hs|Hs]; [congruence|]. unfold short_lived in Hshort. cbn in Hshort. lia.
    + left. cbn. by rewrite lookup_insert_eq.
Qed.

(** C33. A proof of possession is accepted at most once in any history, at the token endpoint
    and by protected resources together, although the cleanup worker forgets the ids of
    proofs issued more than an hour ago: by then the proof is too old. *)
Theorem proof_accepted_once p s ls s' :
  p ≠ "" → star oauth_step s ls s' → Forall short_lived ls →
  length (filter (λ l, accepts_proof p l = true) ls) ≤ 1.
Proof.
  intros Hp Hs Hshort.
  assert (Hhit : ∀ s1 l s2, oauth_step s1 l s2 → short_lived l → accepts_proof p l = true →
    ∃ jkt cm iat, open_proof p = Ok (jkt, cm) ∧ cm_IssuedAt cm = Some iat ∧
      (proof_spent (cm_ID cm) iat s1 → False) ∧ proof_spent (cm_ID cm) iat s2).
  { intros s1 [ev a] s2 (now & fs & Hle & E) Hsl Hacc. cbn in E.
    destruct (accept_spends p ev a _ _ _ Hp Hacc Hsl E) as (jkt & cm & iat & Ho & Ei & Hns & Hsp).
    exists jkt, cm, iat. split_and!; try done. intros Hs1. apply Hns.
    destruct Hs1 as [?|?]; [by left|right; cbn; lia]. }
  pose (spent s := ∃ jkt cm iat, open_proof p = Ok (jkt, cm) ∧ cm_IssuedAt cm = Some iat ∧ proof_spent (cm_ID cm) iat s).
  eapply (at_most_once oauth_step short_lived _ spent); [..|done|done].
  - intros s1 [ev a] s2 Hstep Hsl (jkt & cm & iat & Ho & Ei & Hsp). split.
    + exists jkt, cm, iat. split_and!; try done. destruct Hstep as (now & fs & Hle & E). cbn in E.
      eapply (keep_event (proof_spent (cm_ID cm) iat) None None ev (set_clock now s1) fs a s2);
        [apply proof_spent_kept|..|exact E|done|done];
        try by (unfold codes_kept, refresh_kept; intros; match goal with Hx : proof_spent _ _ _ |- _ => exact Hx end).
      * intros s3 [Hs3|Hs3]; [|by right]. destruct (Z.ltb_spec (iat + 3600) (o_clock s3)); [by right|].
        left. cbn. apply map_lookup_filter_Some. split; [done|]. cbn. apply Z.ltb_ge. lia.
      * destruct Hsp as [?|?]; [by left|right; cbn; lia].
    + intros Hacc. destruct (Hhit _ _ _ Hstep Hsl Hacc) as (jkt' & cm' & iat' & Ho' & Ei' & Hns & _).
      apply Hns. rewrite Ho in Ho'. injection Ho' as <- <-. rewrite Ei in Ei'. by injection Ei' as <-.
  - intros s1 l s2 Hstep Hsl Hacc. destruct (Hhit _ _ _ Hstep Hsl Hacc) as (jkt & cm & iat & Ho & Ei & _ & Hsp).
    by exists jkt, cm, iat.
Qed.
End histories.
