(* ===== verification/OAuthLogin.v ===== *)
(** * Authentication and login

    Which requests the middleware lets through, and that a login that goes through upstream
    ends with a token the middleware accepts for that user. *)
From S2P Require Import Prelude GoStrings Json Effects Processes Database Base64 OAuthProof OAuthStore OAuthServer OAuthFlow OAuthMiddleware OAuthProps OAuthSafety.

Section login.
Context `{Env} `{OAuthWorld} (cfg : Config).
Implicit Types (s : odb) (fs : faults) (r : Request).

(** ** Who is let in *)

(** A stored token that is neither expired nor revoked and has a user, and the identity it
    gives. *)
Definition live_token (now : Z) (t : AccessToken) (u : AuthResult) : Prop :=
  (now <= at_ExpiresAt t)%Z ∧ at_Revoked t = false ∧ at_UserID t = Some (au_UserID u) ∧ au_AccessToken u = t ∧
  au_Scopes u = match at_Scope t with Some sc => ParseScopes sc | None => [] end.

Lemma check_token_inl now t b u : check_token now t b = inl u ↔ b = None ∧ live_token now t u.
Proof.
  unfold check_token, live_token, AccessToken_IsExpired. split.
  - destruct (Z.ltb_spec (at_ExpiresAt t) now); [done|]. destruct (at_Revoked t); [done|]. destruct b; [done|].
    destruct (at_UserID t) as [id|]; [|done]. intros [= <-]. by split_and!.
  - intros (-> & Hexp & -> & Hu & Ht & Hs). rewrite (proj2 (Z.ltb_ge _ _)), Hu by done. f_equal.
    destruct u. cbn in *. by subst.
Qed.

(** A proof made for this request: its method and address, young, its id not on record, and
    with the key the token is bound to. *)
Definition good_proof (url : string) (age : Z) r s (t : AccessToken) (pf : DPoPValidationResult) : Prop :=
  rq_DPoP r ≠ "" ∧ VerifyDPoPProof (rq_DPoP r) (rq_Method r) (resource_url url r) age (o_clock s) = Ok pf ∧
  o_jtis s !! pf_JTI pf = None ∧ at_DPoPJKT t = Some (pf_JKT pf).

(** A bearer token must be unbound; a bound token needs a proof, whose id is recorded. *)
Definition let_in (url : string) (age : Z) r s (u : AuthResult) s' : Prop :=
  ∃ token t, o_access s !! token = Some t ∧ live_token (o_clock s) t u ∧
    ((cut space (rq_Authorization r) = Some ("Bearer", token) ∧ at_DPoPJKT t = None ∧ s' = s) ∨
     (cut space (rq_Authorization r) = Some ("DPoP", token) ∧ ∃ pf, good_proof url age r s t pf ∧
        s' = set_jtis (<[pf_JTI pf := pf_IAT pf]>) s)).

Lemma check_binding_none jkt t : check_binding jkt t = None ↔ at_DPoPJKT t = Some jkt.
Proof.
  unfold check_binding. destruct (at_DPoPJKT t) as [k|]; [|by split].
  destruct (String.eqb_spec k jkt) as [->|]; split; congruence.
Qed.

Lemma validate_request_inv url age r s fs u s' fs' :
  ValidateRequest url age r s fs = (Ok (inl u), s', fs') → let_in url age r s u s'.
Proof.
  unfold ValidateRequest. case_match; [done|]. destruct (cut space _) as [[scheme token]|] eqn:Ec; [|done].
  destruct (String.eqb_spec scheme "DPoP") as [->|]; [|destruct (String.eqb_spec scheme "Bearer") as [->|]; [|done]].
  - intros (pf & t & Hne & Hv & Hj & -> & Ht & [Hb Hl]%check_token_inl)%validate_token_inv.
    apply check_binding_none in Hb. exists token, t. split_and!; [done..|]. right. split; [done|]. by exists pf.
  - intros E. apply or_refuse_inl in E as ([t|] & s1 & fs1 & (-> & Ht & _)%get_row_inv & E); [|done].
    injection E as [Hb Hl]%check_token_inl <- <-. exists token, t. split_and!; [done..|]. left.
    split_and!; [done| |done]. by destruct (at_DPoPJKT t).
Qed.

Lemma validate_request_run url age r s u s' :
  dialect = SQLite → let_in url age r s u s' → ValidateRequest url age r s [] = (Ok (inl u), s', []).
Proof.
  intros Hsql (token & t & Ht & Hl & Hcase). unfold ValidateRequest.
  destruct (String.eqb_spec (rq_Authorization r) "") as [He|_].
  { rewrite He in Hcase. by destruct Hcase as [(Hc & _)|(Hc & _)]. }
  assert (Hget : Access_Get token = get_row o_access int_as_bool token) by done.
  destruct Hcase as [(-> & Hb & ->)|(-> & pf & (Hne & Hv & Hj & Hb) & ->)]; cbn [String.eqb Ascii.eqb Bool.eqb].
  - unfold validateBearerToken, or_refuse, attempt, mbind, M_bind. rewrite Hget, get_row_run by by apply int_as_bool_ok.
    rewrite Ht. unfold CurrentTimestamp, gets. rewrite Hb. by rewrite (proj2 (check_token_inl _ _ _ u)).
  - unfold validateDPoPToken. apply String.eqb_neq in Hne as ->. unfold CurrentTimestamp. rewrite gets_bind, Hv.
    unfold or_refuse at 1, attempt, mbind, M_bind. unfold JTI_Exists, query, stmt. cbn. rewrite Hj. cbn.
    unfold or_refuse at 1, attempt, mbind, M_bind, JTI_Insert, stmt, insert_key. cbn. rewrite Hj. cbn.
    unfold or_refuse, attempt, mbind, M_bind. rewrite Hget, get_row_run by by apply int_as_bool_ok. cbn. rewrite Ht. cbn.
    apply check_binding_none in Hb. rewrite Hb. by rewrite (proj2 (check_token_inl _ _ _ u)).
Qed.

(** C30. The middleware lets a request in exactly when its Authorization header names a stored
    access token that is unexpired, unrevoked and has a user, either as an unbound bearer token
    or with a proof of possession for this request by the key the token is bound to, not seen
    before; the identity is that of the token, the proof's id is put on record and nothing
    else changes. Under faults nobody else is let in. *)
Theorem authentication_exact url age r s :
  (∀ fs u s' fs', ValidateRequest url age r s fs = (Ok (inl u), s', fs') → let_in url age r s u s') ∧
  (∀ u s', dialect = SQLite → let_in url age r s u s' → ValidateRequest url age r s [] = (Ok (inl u), s', [])).
Proof.
  split; [intros fs u s' fs'; apply validate_request_inv|]. intros u s'. apply validate_request_run.
Qed.

(** ** The callback *)

Definition next_code s : string := b64_encode RawURLEncoding (stake 32 (o_random s)).

(** The code a callback stores for a parked request. *)
Definition granted_code s (c : string) (ar : AuthRequest) (sessionID user : string) : AuthorizationCode :=
  mkCode c (ar_ClientID ar) user (Some sessionID) (Some 0%Z) (ar_RedirectURI ar) (ar_Scope ar) (ar_CodeChallenge ar)
    (ar_CodeChallengeMethod ar) (ar_Nonce ar) (o_clock s) (o_clock s + cf_AuthorizationCodeExpiration cfg) false.

(** The callback for a parked request whose code the upstream server exchanges for [pds]. *)
Record callback_ready r s (aq : ATPRequest) (ar : AuthRequest) (pds : PDSTokens) : Prop := {
  cb_method : rq_Method r = "GET";
  cb_atp : o_atp_requests s !! values_get "state" (rq_Query r) = Some aq;
  cb_fresh : (o_clock s <= aq_ExpiresAt aq)%Z;
  cb_auth : o_auth_requests s !! aq_Nonce aq = Some ar;
  cb_error : values_get "error" (rq_Query r) = "";
  cb_code : values_get "code" (rq_Query r) ≠ "";
  cb_exchange : ∃ key, ParseDPoPKeyPair (aq_DPoPPrivateKey aq) = Ok key ∧
    ExchangeCode (mkExchange (aq_AuthorizationServer aq +:+ "/oauth/token") (aq_AuthorizationServer aq)
      (values_get "code" (rq_Query r)) (aq_PKCEVerifier aq) (cf_CallbackURL cfg) key) = Ok pds;
  cb_redirect : url_parses (ar_RedirectURI ar) = true;
  cb_random : 32 ≤ String.length (o_random s);
  cb_new : o_codes s !! next_code s = None;
}.

(** The tables the rest of the login reads are those from before, but for the new code. *)
Definition code_granted s (ar : AuthRequest) (sessionID user : string) s' : Prop :=
  o_codes s' = <[next_code s := granted_code s (next_code s) ar sessionID user]> (o_codes s) ∧
  o_clients s' = o_clients s ∧ o_access s' = o_access s ∧ o_refresh s' = o_refresh s ∧ o_jtis s' = o_jtis s ∧
  o_clock s' = o_clock s ∧ o_random s' = sdrop 32 (o_random s).

Lemma record_session_run sid now t s : ∃ f, record_session sid now t s [] = (Ok tt, set_sessions f s, []).
Proof.
  unfold record_session, attempt, mbind, M_bind, Sessions_GetLatest, query, stmt. cbn.
  destruct (latest_session sid (o_sessions s)) as [x|].
  - eexists (alter _ _). reflexivity.
  - exists id. by destruct s.
Qed.

Lemma handle_callback_run r s aq ar pds :
  dialect = SQLite → callback_ready r s aq ar pds →
  ∃ s' ps, HandleCallback cfg r s [] = (Ok (RedirectTo (ar_RedirectURI ar) (("code", next_code s) :: ps)), s', []) ∧
    code_granted s ar (aq_Nonce aq) (pt_Sub pds) s'.
Proof.
  intros Hsql [Hm Haq Hfresh Har He Hc (key & Hkey & Hex) Hurl Hrand Hnew]. unfold HandleCallback.
  rewrite Hm. cbn [negb String.eqb Ascii.eqb Bool.eqb].
  rewrite (or_respond_ok (ATPRequests_Get _) _ _ _ _ _ _ _ (get_row_run o_atp_requests (Ok tt) _ s eq_refl)), Haq.
  unfold CurrentTimestamp at 1. rewrite gets_bind. unfold ATPRequest_IsExpired. rewrite (proj2 (Z.ltb_ge _ _)) by done.
  rewrite (or_respond_ok (AuthRequests_Get _) _ _ _ _ _ _ _ (get_row_run o_auth_requests (Ok tt) _ s eq_refl)), Har.
  rewrite He. cbn [negb String.eqb]. apply String.eqb_neq in Hc. rewrite Hc, Hkey, Hex.
  destruct (record_session_run (aq_Nonce aq) (o_clock s) pds s) as [f Hf].
  erewrite bind_ok by exact Hf. unfold grant_code.
  rewrite (or_respond_ok GenerateAuthorizationCode _ _ _ _ _ _ _ (random_token_run 32 (set_sessions f s) Hrand)).
  unfold ExpirationTimestamp. rewrite gets_bind.
  fold (next_code s). change (b64_encode RawURLEncoding (stake 32 (o_random (set_sessions f s)))) with (next_code s).
  unfold or_respond, ignore, attempt, mbind, M_bind, Codes_Insert, stmt, insert_key. unfold mbind, outcome_bind.
  rewrite (int_as_bool_ok Hsql). cbn -[sdrop next_code granted_code]. rewrite Hnew. cbn -[sdrop next_code granted_code].
  rewrite Hurl. cbn -[sdrop next_code granted_code]. by eexists _, _.
Qed.

(** ** The whole login *)

(** A token request for a code, without a proof. *)
Record token_request r (form : list (string * string)) (code clientID redirectURI codeVerifier : string) : Prop := {
  tq_method : rq_Method r = "POST";
  tq_form : rq_Form r = Some form;
  tq_grant : values_get "grant_type" form = "authorization_code";
  tq_code : values_get "code" form = code ∧ code ≠ "";
  tq_client : values_get "client_id" form = clientID ∧ clientID ≠ "";
  tq_redirect : values_get "redirect_uri" form = redirectURI ∧ redirectURI ≠ "";
  tq_verifier : values_get "code_verifier" form = codeVerifier;
  tq_proof : rq_DPoP r = "";
}.

Lemma random_code_nonempty s : 32 ≤ String.length (o_random s) → next_code s ≠ "".
Proof.
  intros Hlen Heq. unfold next_code in Heq.
  assert (Hd : b64_decode RawURLEncoding "" = Some (stake 32 (o_random s))) by (rewrite <- Heq; apply b64_decode_encode).
  cbv [b64_decode b64_decode_go skip_newlines] in Hd. injection Hd as Hd.
  destruct (o_random s); [cbn in Hlen; lia|done].
Qed.

(** C34. On SQLite, a login that goes through upstream completes (on PostgreSQL none does, since no code can be stored). When the upstream server vouches for a
    user, the callback sends the client a new code; the client's token request for it, with
    its redirect URI and the verifier of its challenge, is answered with an access token
    within the life of the code; and at any time in the life of the token a request
    with it is let in as that user, with the scopes the client asked for: provided no
    statement fails, the random source gives new tokens, and nobody revokes them meanwhile. *)
Theorem login_completes r1 r2 r3 form s aq ar pds verifier url age t2 t3 :
  dialect = SQLite → callback_ready r1 s aq ar pds → is_Some (o_clients s !! ar_ClientID ar) →
  pkce_ok (granted_code s (next_code s) ar (aq_Nonce aq) (pt_Sub pds)) verifier →
  token_request r2 form (next_code s) (ar_ClientID ar) (ar_RedirectURI ar) verifier →
  can_issue (set_random (sdrop 32 (o_random s)) s) →
  (t2 <= o_clock s + cf_AuthorizationCodeExpiration cfg)%Z →
  (t3 <= t2 + cf_AccessTokenExpiration cfg)%Z →
  ∃ s1 ps s2 resp,
    HandleCallback cfg r1 s [] = (Ok (RedirectTo (ar_RedirectURI ar) (("code", next_code s) :: ps)), s1, []) ∧
    HandleToken cfg r2 (set_clock t2 s1) [] = (Ok (TokenIssued resp), s2, []) ∧
    (rq_Authorization r3 = "Bearer " +:+ tr_AccessToken resp →
     ∃ u, ValidateRequest url age r3 (set_clock t3 s2) [] = (Ok (inl u), set_clock t3 s2, []) ∧
       au_UserID u = pt_Sub pds ∧ au_Scopes u = match ar_Scope ar with Some sc => ParseScopes sc | None => [] end).
Proof.
  intros Hsql Hcb Hclient Hpkce Htq [Hr Ha Ht] Ht2 Ht3.
  destruct (handle_callback_run r1 s aq ar pds Hsql Hcb) as (s1 & ps & E1 & Hc & Hcl & Hac & Hre & Hj & Hclk & Hrnd).
  pose proof (random_code_nonempty s (cb_random _ _ _ _ _ Hcb)) as Hne.
  destruct Htq as [Hm Hform Hg [Hcode _] [Hcid Hcne] [Hru Hrne] Hver Hp].
  assert (Hready : code_ready cfg r2 form (set_clock t2 s1) None (set_clock t2 s1)).
  { split; rewrite ?Hcode, ?Hcid, ?Hru, ?Hver; try done.
    - exists (granted_code s (next_code s) ar (aq_Nonce aq) (pt_Sub pds)). cbn. rewrite Hc, lookup_insert_eq.
      split; [done|]. by split.
    - cbn. by rewrite Hcl.
    - by left. }
  destruct (handle_token_run cfg r2 form (set_clock t2 s1) None (set_clock t2 s1) Hsql Hready) as (resp & s2 & E2 & Htok).
  { split; unfold next_access, next_refresh; cbn [o_random o_access o_refresh set_clock]; by rewrite Hrnd, ?Hac, ?Hre. }
  destruct (handle_token_inv cfg _ _ _ _ _ _ E2 Htok) as (_ & form' & Hform' & [[_ Hred]|[Hg' _]]).
  2: { rewrite Hform in Hform'. injection Hform' as <-. by rewrite Hg in Hg'. }
  rewrite Hform in Hform'. injection Hform' as <-.
  destruct Hred as (k & jkt & s3 & a & t & Hk & _ & _ & Hb & (Hna & _ & Hs2) & ->).
  destruct Hb as [(_ & -> & ->)|(pf & Hne2 & _)]; [|done].
  rewrite Hcode in *. cbn in Hk. rewrite Hc, lookup_insert_eq in Hk. injection Hk as <-.
  exists s1, ps, s2, (token_response cfg a t None (ar_Scope ar) (pt_Sub pds)). split_and!; [done..|].
  intros Hauth. cbn [tr_AccessToken token_response] in Hauth.
  assert (Hrow : o_access s2 !! a = Some (new_access cfg a (ar_ClientID ar) (pt_Sub pds) (Some (aq_Nonce aq)) (ar_Scope ar) None t2)).
  { rewrite Hs2, <- Hcid. cbn. by rewrite lookup_insert_eq. }
  eexists (mkAuthResult (pt_Sub pds) _ _). split; [|split; reflexivity].
  apply validate_request_run; [done|]. exists a. eexists. split; [exact Hrow|].
  split; [by split_and!|]. left. split_and!; [|done..].
  rewrite Hauth. change ("Bearer " +:+ a) with ("Bearer" +:+ String space a). by rewrite cut_append.
Qed.
End login.

(** ** OAuth on concrete requests

    A small world and a parked login: the theorems of OAuthProps, OAuthSafety and OAuthLogin
    applied to it, and what happens when two exchanges of one code overlap. *)

Definition example_base : string := "https://idx.example".

(** A proof is its own id, made at time 100 for the token endpoint. *)
Definition example_jose : Jose := {|
  sha256_sum s := s;
  ParseUncompressedPublicKey b := if String.length b =? 65 then Ok b else Err "invalid length";
  jwt_parse p key := key "ES256" ;; Ok (mkClaims "POST" (example_base +:+ "/oauth/token") p (Some 100%Z));
  jwt_validate now p := Ok tt;
|}.

(** A coordinate of one byte is padded. *)
Definition example_proof (id : string) : string :=
  b64_encode RawURLEncoding (quoted "{'typ':'dpop+jwt','alg':'ES256','jwk':{'kty':'EC','crv':'P-256','x':'AQ','y':'Ag'}}")
  +:+ ".claims." +:+ id.

Definition example_world : OAuthWorld := {|
  oauth_jose := example_jose;
  GenerateDPoPKeyPair := Ok ("{}", "jkt");
  ParseDPoPKeyPair k := Ok k;
  ResolveHandleToDID h := Err "not found";
  ResolveAuthServer did := Ok (mkAuthServer "https://pds.example" "https://pds.example/authorize");
  ExchangeCode r := Ok (mkPDSTokens "up-access" 3600 "up-refresh" None "did:plc:alice");
  url_parses u := true;
|}.

Definition example_config : Config := with_defaults (mkConfig example_base "id" "https://idx.example/oauth/callback" 0 0 0).

Definition example_client : Client :=
  mkClient "app" None "App" ["https://app.example/cb"] [] [] (Some "atproto") "none" "public" 0 0 "{}" 3600 2592000 true None None.

Definition verifier : string := "a verifier only the client knows".
Definition challenge : string := b64_encode RawURLEncoding verifier.

Definition parked_request : AuthRequest :=
  mkAuthRequest "sid" "app" "https://app.example/cb" (Some "atproto transition:generic") (Some "st") (Some challenge) (Some "S256")
    "code" None (Some "did:plc:alice") 90 690.
Definition parked_upstream : ATPRequest :=
  mkATPRequest "up-state" "https://pds.example" "sid" "v" "jkt" "{}" 90 690.

(** Random bytes: the alphabet over and over. *)
Fixpoint letters (n : nat) : string :=
  match n with O => "" | S n' => String (byte (97 + N.of_nat n' mod 26)) (letters n') end.

Definition example_state : odb :=
  mkOdb {["app" := example_client]} ∅ ∅ ∅ {["sid" := parked_request]} {["up-state" := parked_upstream]} ∅ ∅ 100 (letters 400).

Definition callback_request : Request := mkRequest "GET" None [("code", "up-code"); ("state", "up-state")] "" "" "" "".
Definition example_code : string := next_code example_state.
Definition token_form : list (string * string) :=
  [("grant_type", "authorization_code"); ("code", example_code); ("client_id", "app");
   ("redirect_uri", "https://app.example/cb"); ("code_verifier", verifier)].
Definition token_req (dpop : string) : Request := mkRequest "POST" (Some token_form) [] dpop "" "" "".

Section sqlite.
#[local] Instance sqlite_env : Env := example_env SQLite.
#[local] Instance sqlite_world : OAuthWorld := example_world.

Definition after_callback : odb := (run (HandleCallback example_config callback_request) example_state).2.

Lemma code_grant_correct_witness :
  ∃ resp s', HandleToken example_config (token_req "") after_callback [] = (Ok resp, s', []) ∧ is_token resp = true.
Proof.
  destruct (code_grant_correct example_config (token_req "") token_form after_callback) as [_ Hrun]; [done..|].
  apply (Hrun None after_callback); [done| |].
  - split; try done.
    + eexists. split; [by vm_compute|]. split; [done|by vm_compute|done|done|].
      intros ch [= <-] _. split; [done|by vm_compute].
    + by left.
  - split; [apply leb_complete; by vm_compute|by vm_compute..].
Defined.

Lemma login_completes_witness :
  ∃ s1 ps s2 resp,
    HandleCallback example_config callback_request example_state [] =
      (Ok (RedirectTo "https://app.example/cb" (("code", example_code) :: ps)), s1, []) ∧
    HandleToken example_config (token_req "") (set_clock 200 s1) [] = (Ok (TokenIssued resp), s2, []).
Proof.
  destruct (login_completes example_config callback_request (token_req "") (token_req "") token_form example_state
    parked_upstream parked_request (mkPDSTokens "up-access" 3600 "up-refresh" None "did:plc:alice") verifier "" 300 200 300)
    as (s1 & ps & s2 & resp & E1 & E2 & _).
  - done.
  - split; try done; [by exists "{}"|apply leb_complete; by vm_compute].
  - by eexists.
  - intros ch [= <-] _. split; [done|by vm_compute].
  - by split.
  - split; [apply leb_complete; by vm_compute|by vm_compute..].
  - by vm_compute.
  - by vm_compute.
  - by exists s1, ps, s2, resp.
Defined.

(** ** A history *)

Definition example_events : list oauth_event :=
  [EvToken (token_req (example_proof "1")); EvToken (token_req ""); EvToken (token_req (example_proof "1")); EvCleanup].

Fixpoint replay (evs : list oauth_event) (s : odb) : list (oauth_event * answer) * odb :=
  match evs with
  | [] => ([], s)
  | ev :: rest => let '(a, s1) := run_event example_config ev s [] in let '(ls, s2) := replay rest s1 in ((ev, a) :: ls, s2)
  end.

Lemma replay_star evs s : star (oauth_step example_config) s (replay evs s).1 (replay evs s).2.
Proof.
  revert s. induction evs as [|ev evs IH]; intros s; [constructor|]. cbn.
  destruct (run_event example_config ev s []) as [a s1] eqn:E. specialize (IH s1). destruct (replay evs s1) as [ls s2].
  cbn in *. econstructor; [|exact IH]. exists (o_clock s), []. split; [done|]. cbn. by destruct s.
Qed.

Definition example_history : list (oauth_event * answer) := (replay example_events after_callback).1.

(** Two exchanges of the code at once, of which one happens to come first. *)
Definition both_exchanges : list Response * odb :=
  run_all (token_proc example_config <$> [token_req ""; token_req (example_proof "1")]) after_callback.

Lemma grants_redeemed_once_witness :
  (length (filter (λ l, redeems_code example_code l = true) example_history) = 1 ∧
   length (filter (λ l, redeems_code example_code l = true) example_history) ≤ 1) ∧
  (is_token <$> both_exchanges.1 = [true; false] ∧ ¬ code_spent example_code after_callback ∧ code_spent example_code both_exchanges.2).
Proof.
  destruct (grants_redeemed_once example_config) as [Hseq Hpar]. split.
  - split; [by vm_compute|]. apply (Hseq after_callback example_history (replay example_events after_callback).2).
    + apply replay_star.
    + vm_compute example_history. repeat constructor; intros [].
  - split; [by vm_compute|].
    assert (Hrun : par eq (token_proc example_config <$> [token_req ""; token_req (example_proof "1")]) after_callback both_exchanges.1 both_exchanges.2).
    { unfold both_exchanges. exact (run_all_par eq _ _). }
    destruct (Hpar eq [token_req ""; token_req (example_proof "1")] after_callback _ _ Hrun) as [Hcode _].
    assert (Hfirst : ∃ resp, both_exchanges.1 !! 0 = Some resp ∧ redeems_code example_code (answers_token (token_req "") resp) = true).
    { eexists. split; [vm_compute; reflexivity|by vm_compute]. }
    destruct Hfirst as (resp & Ho & Hr). exact (Hcode example_code (λ s s' E, eq_ind s (λ s, _ s → _ s) id s' E) 0 (token_req "") resp eq_refl Ho Hr).
Defined.

Lemma proof_accepted_once_witness :
  length (filter (λ l, accepts_proof (example_proof "1") l = true) example_history) = 1 ∧
  length (filter (λ l, accepts_proof (example_proof "1") l = true) example_history) ≤ 1.
Proof.
  split; [by vm_compute|].
  apply (proof_accepted_once example_config (example_proof "1") after_callback example_history (replay example_events after_callback).2).
  - done.
  - apply replay_star.
  - vm_compute example_history. repeat constructor.
Defined.

(** Two exchanges of one code that overlap both succeed: the second reads the code before the
    first marks it, and [MarkUsed] does not check that the code is still unused. *)
Example overlapping_exchanges :
  let first := HandleToken example_config (token_req "") after_callback [] in
  let second := code_grant_issue example_config example_code "app" in
  match o_codes after_callback !! example_code with
  | Some k =>
      match run (code_grant_checks example_config (token_req "") token_form (λ _ _, mret StatusOK)) after_callback with
      | (Ok StatusOK, _) =>
          match first with
          | (Ok r1, s1, _) => match run (second k None) s1 with (Ok r2, _) => is_token r1 && is_token r2 | _ => false end
          | _ => false
          end
      | _ => false
      end
  | None => false
  end = true.
Proof. by vm_compute. Qed.

(** A refresh without a proof turns a bound session into a bearer token: the key of the
    session is not on the refresh token. *)
Example refresh_drops_binding :
  match run (HandleToken example_config (token_req (example_proof "1"))) after_callback with
  | (Ok (TokenIssued r1), s1) =>
      let form := [("grant_type", "refresh_token"); ("refresh_token", default "" (tr_RefreshToken r1)); ("client_id", "app")] in
      match run (HandleToken example_config (mkRequest "POST" (Some form) [] "" "" "" "")) s1 with
      | (Ok (TokenIssued r2), _) => (tr_TokenType r1, tr_TokenType r2)
      | _ => ("", "")
      end
  | _ => ("", "")
  end = ("DPoP", "Bearer").
Proof. by vm_compute. Qed.
End sqlite.

Lemma postgres_revocation_has_no_effect_witness :
  let env := example_env PostgreSQL in
  let s := mkOdb ∅ {["tok" := mkAccess "tok" "Bearer" "app" (Some "u") None None None 0 900 false None]} ∅ ∅ ∅ ∅ ∅ ∅ 100 "" in
  ∃ fs', HandleRevoke (mkRequest "POST" (Some [("token", "tok")]) [] "" "" "" "") s [] = (Ok StatusOK, s, fs').
Proof.
  cbn zeta. eapply (postgres_revocation_has_no_effect (H := example_env PostgreSQL) (H0 := example_world) example_config _
    [("token", "tok")]); done.
Defined.
