(* ===== verification/DidDocuments.v ===== *)
(** * DID documents

    src/internal/oauth/did.go and did_cache.go: resolving a DID to its document and the cache in
    front of it. Requests go through [Http]: the reply to the n-th request a loop makes, which
    may also depend on the state of the caller's context; a request is its URL and its query. *)
From S2P Require Import Prelude GoStrings Json Effects Processes.

Record request := mkGet { get_url : string; get_query : list (string * string) }.

(** A failed request, perhaps by a timeout; or a status and a body, whose reading may fail. *)
Inductive reply := NoReply (timeout : bool) (message : string) | Response (status : Z) (body : outcome string).

Class Http := {
  http_get : option string → nat → request → reply;
  url_parses : string → bool;
}.

(** A [[]struct] field: elements decoded one by one, [null] as the zero value. *)
Definition structs_field {A} (decode : list member → option A) (name : string) (ms : list member) : option (list A) :=
  store_all (λ _ v, match v.2 with
    | JNull => Some []
    | JArray items => mapM (λ j, members_of j ≫= decode) items
    | _ => None end) [] (field_values name ms).

(** ** Documents (did.go) *)

Definition DefaultPLCDirectoryURL : string := "https://plc.directory".

Record Service := mkService { sv_ID : string; sv_Type : string; sv_ServiceEndpoint : string }.
Record DIDDocument := mkDIDDocument { dd_ID : string; dd_AlsoKnownAs : list string; dd_Service : list Service }.

Definition unmarshal_service (ms : list member) : option Service :=
  id ← string_field "id" ms; type ← string_field "type" ms; endpoint ← string_field "serviceEndpoint" ms;
  Some (mkService id type endpoint).

Definition unmarshal_did_document (ms : list member) : option DIDDocument :=
  id ← string_field "id" ms; aka ← strings_field "alsoKnownAs" ms; services ← structs_field unmarshal_service "service" ms;
  Some (mkDIDDocument id aka services).

Definition parseDIDDocument (data : string) : outcome DIDDocument :=
  match struct_members data ≫= unmarshal_did_document with
  | None => Err "failed to parse DID document"
  | Some doc => if (dd_ID doc =? "")%string then Err "invalid DID document: missing id" else Ok doc
  end.

Definition GetPDSEndpoint (doc : DIDDocument) : string :=
  default "" (sv_ServiceEndpoint <$> head (filter (λ s, sv_Type s = "AtprotoPersonalDataServer") (dd_Service doc))).

Definition GetHandle (doc : DIDDocument) : string :=
  default "" (trim_prefix "at://" <$> head (filter (λ a, has_prefix "at://" a = true) (dd_AlsoKnownAs doc))).

Definition IsDIDPLC (did : string) : bool := has_prefix "did:plc:" did.
Definition IsDIDWeb (did : string) : bool := has_prefix "did:web:" did.

(** [url.PathUnescape] *)
Fixpoint PathUnescape (s : string) : option string :=
  match s with
  | EmptyString => Some ""
  | String c r =>
      if is_byte 37 c then
        match r with
        | String a (String b r') =>
            x ← hex_val a; y ← hex_val b;
            rest ← PathUnescape r'; Some (String (byte (x * 16 + y)) rest)
        | _ => None
        end
      else rest ← PathUnescape r; Some (String c rest)
  end.

Section resolver.
Context `{Http} (plcDirectoryURL : string).

(** [kind]: how the errors name the request. The resolver makes its requests without a context;
    [n] counts them. *)
Definition fetch_document (kind : string) (n : nat) (url : string) : outcome DIDDocument :=
  match http_get None n (mkGet url []) with
  | NoReply _ e => Err (kind +:+ " request failed: " +:+ e)
  | Response status body =>
      if (status =? 404)%Z then Err "DID not found"
      else if negb (status =? 200)%Z then Err (kind +:+ " resolution failed with status " +:+ itoa status)
      else data ← wrap_err "failed to read response" body; parseDIDDocument data
  end.

Definition resolvePLCDID (n : nat) (did : string) : outcome DIDDocument := fetch_document "PLC" n (plcDirectoryURL +:+ "/" +:+ did).

Definition resolveWebDID (n : nat) (did : string) : outcome DIDDocument :=
  match PathUnescape (trim_prefix "did:web:" did) with
  | None => Err "invalid did:web encoding"
  | Some domain => fetch_document "web DID" n ("https://" +:+ domain +:+ "/.well-known/did.json")
  end.

Definition ResolveDID (n : nat) (did : string) : outcome DIDDocument :=
  if IsDIDPLC did then resolvePLCDID n did
  else if IsDIDWeb did then resolveWebDID n did
  else Err ("unsupported DID method: " +:+ did).

Definition ResolveHandleToDID (n : nat) (handle : string) : outcome string :=
  match http_get None n (mkGet "https://bsky.social/xrpc/com.atproto.identity.resolveHandle" [("handle", handle)]) with
  | NoReply _ e => Err ("handle resolution request failed: " +:+ e)
  | Response status body =>
      if negb (status =? 200)%Z then Err ("handle resolution failed with status " +:+ itoa status)
      else
        data ← wrap_err "failed to read response" body;
        match struct_members data ≫= string_field "did" with
        | None => Err "failed to parse response"
        | Some did => if (did =? "")%string then Err "no DID in response" else Ok did
        end
  end.
End resolver.

(** ** The cache (did_cache.go) *)

Record CachedDIDDocument := mkCached { cd_Document : DIDDocument; cd_ExpiresAt : Z }.

Definition IsExpired (now : Z) (c : CachedDIDDocument) : bool := (cd_ExpiresAt c <? now)%Z.

Record DIDCache := mkDIDCache { dc_cache : gmap string CachedDIDDocument; dc_ttl : Z; dc_plcDirectoryURL : string }.

Definition set_cache (f : gmap string CachedDIDDocument → gmap string CachedDIDDocument) (c : DIDCache) : DIDCache :=
  mkDIDCache (f (dc_cache c)) (dc_ttl c) (dc_plcDirectoryURL c).

Definition NewDIDCache (ttl : option Z) (plcDirectoryURL : option string) : DIDCache :=
  mkDIDCache ∅ (default 3600 ttl)%Z (default DefaultPLCDirectoryURL plcDirectoryURL).

Definition PutWithTTL (did : string) (doc : DIDDocument) (ttl now : Z) : DIDCache → DIDCache :=
  set_cache (<[did := mkCached doc (now + ttl)]>).
Definition Put (did : string) (doc : DIDDocument) (now : Z) (c : DIDCache) : DIDCache := PutWithTTL did doc (dc_ttl c) now c.
Definition Invalidate (did : string) : DIDCache → DIDCache := set_cache (delete did).
Definition Delete (did : string) : DIDCache → DIDCache := Invalidate did.
Definition Clear : DIDCache → DIDCache := set_cache (λ _, ∅).
Definition cache_expired (now : Z) (m : gmap string CachedDIDDocument) : gmap string CachedDIDDocument :=
  filter (λ kv : string * CachedDIDDocument, IsExpired now kv.2 = true) m.
Definition Cleanup (now : Z) (c : DIDCache) : nat * DIDCache :=
  (size (cache_expired now (dc_cache c)), set_cache (filter (λ kv : string * CachedDIDDocument, IsExpired now kv.2 = false)) c).
Definition Size (c : DIDCache) : nat := size (dc_cache c).
Definition Contains (did : string) (c : DIDCache) : bool := bool_decide (is_Some (dc_cache c !! did)).

(** What the cache holds of a DID at a time. *)
Definition cached (did : string) (now : Z) (c : DIDCache) : option DIDDocument :=
  e ← dc_cache c !! did; if IsExpired now e then None else Some (cd_Document e).

(** Each use of the mutex, and the request between two of them, is a step on the state [W] of a client. *)
Section cache.
Context `{Http} {W : Type} (cache : W → DIDCache) (set : (DIDCache → DIDCache) → W → W) (now : W → Z).

Definition resolveFresh (n : nat) (did : string) : proc W (outcome DIDDocument) :=
  plc ← reads (λ w, dc_plcDirectoryURL (cache w));
  match ResolveDID plc n did with
  | Err e => mret (Err e)
  | Ok doc =>
      t ← reads now;
      updates (set (Put did doc t)) ;; mret (Ok doc)
  end.

Definition GetWithInvalidate (n : nat) (did : string) (invalidateFirst : bool) : proc W (outcome DIDDocument) :=
  (if invalidateFirst then updates (set (Invalidate did)) else mret tt) ;;
  found ← reads (λ w, cached did (now w) (cache w));
  match found with
  | Some doc => mret (Ok doc)
  | None => resolveFresh n did
  end.

Definition Get (n : nat) (did : string) : proc W (outcome DIDDocument) := GetWithInvalidate n did false.
End cache.
