(* ===== verification/BackfillClient.v ===== *)
(** * The backfill's client

    src/internal/backfill/client.go: repositories of a collection from the relay, records of a
    repository from its server, page by page or as one CAR file. Reading CAR files and
    decoding CBOR are Indigo's, parameters ([CarReader]). *)
From S2P Require Import Prelude GoStrings Json Effects Processes DidDocuments.

Definition DefaultRelayURL : string := "https://relay1.us-west.bsky.network".
Definition DefaultPLCURL : string := "https://plc.directory".

Definition clamp (lo hi n : Z) : Z := Z.min hi (Z.max lo n).

(** [newTransport]: idle connections, idle connections per host, connections per host. *)
Definition newTransport (maxConcurrent : Z) : Z * Z * Z :=
  (clamp 10 200 (maxConcurrent * 2), clamp 2 20 (Z.quot maxConcurrent 5), clamp 4 30 (Z.quot maxConcurrent 3))%Z.

(** Whether to try again. *)
Definition retryPolicy (ctx_err : option string) (r : reply) : bool :=
  match ctx_err with
  | Some _ => false
  | None => match r with NoReply _ _ => true | Response status _ => bool_decide (status ∈ [429; 503; 504]%Z) end
  end.

Record Client := mkClient { relayURL : string; plcURL : string }.

Definition NewClient (relay plc : string) : Client :=
  mkClient (if (relay =? "")%string then DefaultRelayURL else relay) (if (plc =? "")%string then DefaultPLCURL else plc).

(** ** Errors *)

Definition maxBackfillErrorDetails : nat := 20.

(** [boundedErrorCollector] and [boundedCARFailures]. *)
Record collector := mkCollector { co_total : nat; co_errs : list string }.
Definition no_errors : collector := mkCollector 0 [].

Definition add_issue (e : string) (c : collector) : collector :=
  mkCollector (S (co_total c)) (if length (co_errs c) <? maxBackfillErrorDetails then co_errs c ++ [e] else co_errs c).

Definition summary (total : nat) (errs : list string) : string :=
  join "; " errs +:+ (if length errs <? total then "; and " +:+ itoa (Z.of_nat (total - length errs)) +:+ " more" else "").

(** [boundedErrorCollector.err] *)
Definition collector_err (c : collector) : option string :=
  match co_total c with
  | O => None
  | _ => Some ("backfill incomplete with " +:+ itoa (Z.of_nat (co_total c)) +:+ " error(s): " +:+ summary (co_total c) (co_errs c))
  end.

Inductive CARFailureKind := CARFailureAvailability | CARFailureUnsupported | CARFailureIntegrity.
#[export] Instance CARFailureKind_eq_dec : EqDecision CARFailureKind.
Proof. solve_decision. Defined.

(** The errors of [GetRepo]: the context's own, a classified one, another. *)
Inductive car_error := CtxError (e : string) | CARFailure (kind : CARFailureKind) (errors : collector) | OtherError (e : string).

Definition kind_text (k : CARFailureKind) : string :=
  match k with CARFailureAvailability => "availability" | CARFailureUnsupported => "unsupported" | CARFailureIntegrity => "integrity" end.

(** [Error] *)
Definition car_error_text (e : car_error) : string :=
  match e with
  | CtxError e | OtherError e => e
  | CARFailure kind c =>
      "CAR " +:+ kind_text kind +:+ " failure (" +:+ itoa (Z.of_nat (co_total c)) +:+ "): " +:+ summary (co_total c) (co_errs c)
  end.

Definition maxCARErrorBodyBytes : nat := N.to_nat 4096.

Definition newCARFailure (kind : CARFailureKind) (e : string) : car_error := CARFailure kind (mkCollector 1 [e]).

Definition carFailureKind (e : car_error) : option CARFailureKind := match e with CARFailure kind _ => Some kind | _ => None end.

Definition isCARFallbackFailure (e : car_error) : bool :=
  bool_decide (carFailureKind e = Some CARFailureAvailability ∨ carFailureKind e = Some CARFailureUnsupported).
Definition isCARIntegrityFailure (e : car_error) : bool := bool_decide (carFailureKind e = Some CARFailureIntegrity).

(** [boundedCARFailures.err] *)
Definition failures_err (c : collector) : option car_error :=
  match co_total c with O => None | _ => Some (CARFailure CARFailureIntegrity c) end.

Definition add_detail (errs : list string) (detail : string) : list string :=
  if length errs <? maxBackfillErrorDetails then errs ++ [detail] else errs.

Definition combine_failure (combined : collector) (e : car_error) : collector :=
  match e with
  | CARFailure CARFailureIntegrity c => mkCollector (co_total combined + co_total c) (foldl add_detail (co_errs combined) (co_errs c))
  | _ => mkCollector (S (co_total combined)) (add_detail (co_errs combined) (car_error_text e))
  end.

Definition combineCARIntegrityFailures (errs : list (option car_error)) : option car_error :=
  failures_err (foldl combine_failure no_errors (omap id errs)).

(** ** Requests *)

Record AtprotoData := mkAtprotoData { ad_DID : string; ad_Handle : string; ad_PDS : string }.

Record ListRecordsRecord := mkListed { lr_URI : string; lr_CID : string; lr_Value : string }.
Record CARRecord := mkCARRecord { cr_URI : string; cr_CID : string; cr_Collection : string; cr_RKey : string; cr_Value : string }.

(** [json.NewDecoder(body).Decode] into a struct: the first value of the text. *)
Definition decode_struct {A} (decode : list member → option A) (body : outcome string) : outcome A :=
  match body with
  | Err e => Err ("failed to decode response: " +:+ e)
  | Ok text =>
      match ('(j, _) ← parse_value (2 * String.length text + 2) max_depth text; ms ← members_of j; decode ms) with
      | Some a => Ok a
      | None => Err "failed to decode response"
      end
  end.

Definition unmarshal_page {A} (rows : list member → option (list A)) (ms : list member) : option (list A * string) :=
  l ← rows ms; cursor ← string_field "cursor" ms; Some (l, cursor).

Definition unmarshal_listed (ms : list member) : option ListRecordsRecord :=
  uri ← string_field "uri" ms; cid ← string_field "cid" ms; Some (mkListed uri cid (raw_field "value" ms)).

(** The document of the PLC directory. *)
Record PLCDocument := mkPLC { plc_Service : list Service; plc_AlsoKnownAs : list string }.
Definition unmarshal_plc (ms : list member) : option PLCDocument :=
  services ← structs_field unmarshal_service "service" ms; aka ← strings_field "alsoKnownAs" ms; Some (mkPLC services aka).

Definition ToAtprotoData (did : string) (d : PLCDocument) : AtprotoData :=
  mkAtprotoData did
    (default "" (sdrop 5 <$> head (filter (λ a, (5 <? String.length a) && has_prefix "at://" a = true) (plc_AlsoKnownAs d))))
    (default "https://bsky.social" (sv_ServiceEndpoint <$> head (filter (λ s, sv_Type s = "AtprotoPersonalDataServer") (plc_Service d)))).

Section client.
Context `{Http} (c : Client).

(** The reply to a request with status 200, decoded. *)
Definition fetch {A} (ctx : option string) (n : nat) (rq : request) (decode : list member → option A) : outcome A :=
  match http_get ctx n rq with
  | NoReply _ e => Err ("request failed: " +:+ e)
  | Response status body =>
      if negb (status =? 200)%Z then Err ("unexpected status " +:+ itoa status +:+ ": " +:+ match body with Ok b => b | Err _ => "" end)
      else decode_struct decode body
  end.

Definition page_params (cursor : string) (params : list (string * string)) : list (string * string) :=
  params ++ (if (cursor =? "")%string then [] else [("cursor", cursor)]).

Definition fetch_page {A} (ctx : option string) (n : nat) (url : string) (params : list (string * string)) (cursor : string)
    (rows : list member → option (list A)) : outcome (list A * string) :=
  if negb (url_parses url) then Err "invalid URL"
  else fetch ctx n (mkGet url (page_params cursor params)) (unmarshal_page rows).

Definition listReposByCollectionPage (ctx : option string) (collection : string) (n : nat) (cursor : string) : outcome (list string * string) :=
  fetch_page ctx n (relayURL c +:+ "/xrpc/com.atproto.sync.listReposByCollection")
    [("collection", collection); ("limit", "1000")] cursor (structs_field (string_field "did") "repos").

Definition listRecordsPage (ctx : option string) (pdsURL repoDID collection : string) (n : nat) (cursor : string)
    : outcome (list ListRecordsRecord * string) :=
  fetch_page ctx n (pdsURL +:+ "/xrpc/com.atproto.repo.listRecords")
    [("repo", repoDID); ("collection", collection); ("limit", "100")] cursor (structs_field unmarshal_listed "records").

(** The loop over pages until there is no next cursor; [fuel] bounds the pages, a listing with more is
    an error here, though the code goes on. *)
Fixpoint all_pages {A} (page : nat → string → outcome (list A * string)) (fuel n : nat) (cursor : string) (acc : list A) : outcome (list A) :=
  match fuel with
  | O => Err "more pages than followed"
  | S fuel =>
      '(rows, nextCursor) ← page n cursor;
      if (nextCursor =? "")%string then Ok (acc ++ rows) else all_pages page fuel (S n) nextCursor (acc ++ rows)
  end.

Definition ListReposByCollection (fuel : nat) (ctx : option string) (collection : string) : outcome (list string) :=
  all_pages (listReposByCollectionPage ctx collection) fuel 0 "" [].

Definition ListRecords (fuel : nat) (ctx : option string) (pdsURL repoDID collection : string) : outcome (list ListRecordsRecord) :=
  all_pages (listRecordsPage ctx pdsURL repoDID collection) fuel 0 "" [].

(** [Client.ResolveDID] *)
Definition client_ResolveDID (ctx : option string) (did : string) : outcome AtprotoData :=
  ToAtprotoData did <$> fetch ctx 0 (mkGet (plcURL c +:+ "/" +:+ did) []) unmarshal_plc.
End client.

(** ** CAR files *)

(** An error that may be a timeout. *)
Record failure := mkFailure { fl_timeout : bool; fl_text : string }.

(** A repository read from a CAR: [car_entries], the paths and CIDs of its tree as far as they can be
    walked, [car_end] how the walk ends. [repo_ctx_err]: whether the deadline of the request has passed when
    its reply, its body or the walk is looked at. *)
Class CarReader := {
  Car : Type;
  ReadRepoFromCar : string → failure + Car;
  car_entries : Car → list (string * string);
  car_end : Car → option failure;
  GetRecordBytes : Car → string → outcome (string * option string);
  repo_ctx_err : request → nat → option string;
  AtData : Type;
  UnmarshalCBOR : string → outcome AtData;
  MarshalData : AtData → outcome string;
}.

Definition CBORToJSON `{CarReader} (data : string) : outcome string :=
  record ← wrap_err "failed to decode AT Protocol CBOR" (UnmarshalCBOR data);
  wrap_err "failed to encode JSON" (MarshalData record).

Definition classifyRepoContextFailure (parentErr repoErr : option string) (operation : string) (e : failure) : option car_error :=
  match parentErr with
  | Some p => Some (CtxError p)
  | None => match repoErr with
    | Some r => Some (newCARFailure CARFailureAvailability (operation +:+ " timed out: " +:+ r))
    | None => if fl_timeout e then Some (newCARFailure CARFailureAvailability (operation +:+ " timed out: " +:+ fl_text e)) else None
    end
  end.

Section car.
Context `{Http} `{CarReader}.

(** One entry of the tree: a record, a failure, or nothing for another collection. *)
Definition read_entry (did : string) (collections : list string) (r : Car) (acc : list CARRecord * collector) (entry : string * string)
    : list CARRecord * collector :=
  let '(records, failures) := acc in
  let '(path, recordCID) := entry in
  let fail e := (records, add_issue e failures) in
  match cut slash path with
  | None => fail "invalid record path"
  | Some (collection, rkey) =>
      if (collection =? "")%string || (rkey =? "")%string then fail "invalid record path"
      else if negb (bool_decide (collections = [])) && negb (bool_decide (collection ∈ collections)) then acc
      else match GetRecordBytes r path with
      | Err e => fail ("read record block " +:+ path +:+ ": " +:+ e)
      | Ok (_, None) => fail ("record block " +:+ path +:+ " has no bytes")
      | Ok (recCID, Some recordBytes) =>
          if negb (recordCID =? recCID)%string
          then fail ("record block CID mismatch for " +:+ path +:+ ": tree=" +:+ recordCID +:+ " block=" +:+ recCID)
          else (records ++ [mkCARRecord ("at://" +:+ did +:+ "/" +:+ collection +:+ "/" +:+ rkey) recCID collection rkey recordBytes], failures)
      end
  end.

Definition read_entries (did : string) (collections : list string) (r : Car) : list CARRecord * collector :=
  foldl (read_entry did collections r) ([], no_errors) (car_entries r).

Definition GetRepo (ctx : option string) (pdsURL did : string) (collections : list string) : list CARRecord * option car_error :=
  let url := pdsURL +:+ "/xrpc/com.atproto.sync.getRepo" in
  let rq := mkGet url [("did", did)] in
  if negb (url_parses url) then ([], Some (OtherError "failed to create request"))
  else match http_get ctx 0 rq with
  | NoReply timeout e =>
      ([], Some (match classifyRepoContextFailure ctx (repo_ctx_err rq 0) "fetch CAR" (mkFailure timeout e) with
        | Some ce => ce
        | None => newCARFailure CARFailureAvailability ("request failed: " +:+ e) end))
  | Response status body =>
      if negb (status =? 200)%Z then
        ([], Some (newCARFailure (if bool_decide (status ∈ [400; 404; 405; 501]%Z) then CARFailureUnsupported else CARFailureAvailability)
          ("unexpected status " +:+ itoa status +:+ ": " +:+ match body with Ok b => stake maxCARErrorBodyBytes b | Err _ => "" end)))
      else match (match body with Ok b => ReadRepoFromCar b | Err e => inl (mkFailure false e) end) with
      | inl e =>
          ([], Some (match classifyRepoContextFailure ctx (repo_ctx_err rq 1) "read CAR body" e with
            | Some ce => ce
            | None => newCARFailure CARFailureIntegrity ("failed to parse CAR: " +:+ fl_text e) end))
      | inr r =>
          let '(records, failures) := read_entries did collections r in
          match car_end r with
          | None => (records, failures_err failures)
          | Some e => match classifyRepoContextFailure ctx (repo_ctx_err rq 2) "iterate CAR" e with
            | Some ce => (records, Some ce)
            | None => (records, failures_err (add_issue ("failed to iterate repo: " +:+ fl_text e) failures)) end
          end
      end
  end.
End car.
