(* ===== verification/Backfill.v ===== *)
(** * Backfill

    src/internal/backfill/backfill.go: filling the database from the network. Repositories are
    discovered for every collection, their DIDs resolved, and every repository processed by a
    goroutine of its own, from its CAR file or, when there is none, from listings. An error is
    its text; [is_cancellation] is what [errors.Is] finds of the context's errors in one. *)
From S2P Require Import Prelude GoStrings Json AtprotoTime Effects Database RecordStore Actors Processes DidDocuments BackfillClient.

Record Config := mkConfig {
  cfg_RelayURL : string;
  cfg_PLCURL : string;
  cfg_Collections : list string;
  cfg_MaxHTTPConcurrent : Z;
  cfg_MaxPDSWorkers : Z;
  cfg_MaxConcurrentPerPDS : Z;
  cfg_MaxConcurrentRepos : Z;
}.

Definition DefaultConfig : Config := mkConfig DefaultRelayURL DefaultPLCURL [] 50 10 6 50.

(** collections.go [ParseCollections] *)
Definition ParseCollections (s : string) : list string :=
  if (s =? "")%string then [] else filter (λ p, p ≠ "") (trim_space <$> split comma s).

(** [NewConfigFromApp], of the settings of the application it reads. *)
Definition NewConfigFromApp (relay plc collections : string) (http pds perPDS repos : Z) : Config :=
  let text v d := if (v =? "")%string then d else v in
  let positive v d := if (0 <? v)%Z then v else d in
  mkConfig (text relay (cfg_RelayURL DefaultConfig)) (text plc (cfg_PLCURL DefaultConfig)) (ParseCollections collections)
    (positive http (cfg_MaxHTTPConcurrent DefaultConfig)) (positive pds (cfg_MaxPDSWorkers DefaultConfig))
    (positive perPDS (cfg_MaxConcurrentPerPDS DefaultConfig)) (positive repos (cfg_MaxConcurrentRepos DefaultConfig)).

Record Stats := mkStats {
  st_ReposDiscovered : Z;
  st_ReposProcessed : Z;
  st_RecordsInserted : Z;
  st_RecordsSkipped : Z;
  st_Errors : Z;
  st_StartTime : Z;
  st_EndTime : option Z;
}.

Definition Duration (now : Z) (s : Stats) : Z := (default now (st_EndTime s) - st_StartTime s)%Z.

Definition set_discovered (n : Z) (s : Stats) : Stats :=
  mkStats n (st_ReposProcessed s) (st_RecordsInserted s) (st_RecordsSkipped s) (st_Errors s) (st_StartTime s) (st_EndTime s).
Definition add_processed (s : Stats) : Stats :=
  mkStats (st_ReposDiscovered s) (st_ReposProcessed s + 1) (st_RecordsInserted s) (st_RecordsSkipped s) (st_Errors s) (st_StartTime s) (st_EndTime s).
Definition add_records (inserted skipped : nat) (s : Stats) : Stats :=
  mkStats (st_ReposDiscovered s) (st_ReposProcessed s) (st_RecordsInserted s + Z.of_nat inserted) (st_RecordsSkipped s + Z.of_nat skipped) (st_Errors s)
    (st_StartTime s) (st_EndTime s).
Definition add_error (s : Stats) : Stats :=
  mkStats (st_ReposDiscovered s) (st_ReposProcessed s) (st_RecordsInserted s) (st_RecordsSkipped s) (st_Errors s + 1) (st_StartTime s) (st_EndTime s).
Definition set_ended (t : Z) (s : Stats) : Stats :=
  mkStats (st_ReposDiscovered s) (st_ReposProcessed s) (st_RecordsInserted s) (st_RecordsSkipped s) (st_Errors s) (st_StartTime s) (Some t).

(** What the goroutines share: the database, the statistics, the issues of the run, the cache, and
    the error of the context once it is cancelled. *)
Record world := mkWorld {
  w_db : db;
  w_stats : Stats;
  w_issues : collector;
  w_cache : DIDCache;
  w_ctx : option string;
}.

Definition on_stats (f : Stats → Stats) (w : world) : world := mkWorld (w_db w) (f (w_stats w)) (w_issues w) (w_cache w) (w_ctx w).
Definition on_issues (f : collector → collector) (w : world) : world := mkWorld (w_db w) (w_stats w) (f (w_issues w)) (w_cache w) (w_ctx w).
Definition on_cache (f : DIDCache → DIDCache) (w : world) : world := mkWorld (w_db w) (w_stats w) (w_issues w) (f (w_cache w)) (w_ctx w).
Definition put_db (d : db) (w : world) : world := mkWorld d (w_stats w) (w_issues w) (w_cache w) (w_ctx w).
Definition now (w : world) : Z := db_clock (w_db w).

(** A call of a repository, as one step: its statements are one transaction or one statement. *)
Definition on_db {A} (m : M db A) : proc world (outcome A) := atomically (zoom w_db put_db m).

Definition extractRKeyFromURI (uri : string) : string :=
  let parts := split slash uri in if 5 <=? length parts then default "" (last parts) else "".

Section backfill.
Context `{Env} `{Http} `{CarReader}.
Context (cfg : Config) (validator : option RecordValidator) (activity : bool).
Context (float64_ok : string → bool) (is_cancellation : string → bool) (page_fuel : nat).

Definition client : Client := NewClient (cfg_RelayURL cfg) (cfg_PLCURL cfg).

(** ** One repository *)

Definition backfill_record (did uri cid collection rkey json : string) : RecordStruct :=
  mkRecord uri cid did collection json 0 rkey "" "" None "".

(** The records that convert, and the failures of the others. *)
Definition convert_record (did : string) (acc : list RecordStruct * collector) (rec : CARRecord) : list RecordStruct * collector :=
  match CBORToJSON (cr_Value rec) with
  | Err e => (acc.1, add_issue ("convert CAR record " +:+ cr_URI rec +:+ " to JSON: " +:+ e) acc.2)
  | Ok json => (acc.1 ++ [backfill_record did (cr_URI rec) (cr_CID rec) (cr_Collection rec) (cr_RKey rec) json], acc.2)
  end.
Definition convertCARRecords (did : string) (records : list CARRecord) : list RecordStruct * option car_error :=
  let '(dbRecords, failures) := foldl (convert_record did) ([], no_errors) records in (dbRecords, failures_err failures).

Definition listed_record (did collection : string) (rec : ListRecordsRecord) : RecordStruct :=
  backfill_record did (lr_URI rec) (lr_CID rec) collection (extractRKeyFromURI (lr_URI rec)) (lr_Value rec).

Definition validation_write (rec : RecordStruct) : RecordWrite :=
  let result := ClassifyRecord validator (rec_collection rec) (rec_rkey rec) (rec_json rec) in
  mkWrite (rec_uri rec) (rec_cid rec) (rec_did rec) (rec_collection rec) (rec_rkey rec) (rec_json rec)
    (res_status result) (res_error result) (res_lexicon_hash result).
Definition validationWrites (records : list RecordStruct) : list RecordWrite := validation_write <$> records.

Fixpoint logChangedRecordActivity (records : list RecordStruct) : proc world unit :=
  match records with
  | [] => mret tt
  | rec :: rest =>
      if activity then
        t ← reads now;
        on_db (LogActivityWithStatus (ExtractCreatedAt float64_ok (rec_json rec) (t * 1000000000) / 1000000000) "create"
          (rec_collection rec) (rec_did rec) (rec_rkey rec) (rec_json rec) "success") ;;
        logChangedRecordActivity rest
      else mret tt
  end.

(** How many records were inserted and skipped. *)
Definition persistBackfillBatch (did : string) (records : list RecordStruct) : proc world (outcome (nat * nat)) :=
  if bool_decide (records = []) then mret (Ok (0, 0))
  else
    committed ← on_db (BatchUpsertWithValidationForBackfill did (validationWrites records));
    match committed with
    | Err e => mret (Err e)
    | Ok result =>
        let changed := omap (λ i, records !! i) (ChangedIndices result) in
        logChangedRecordActivity changed ;;
        mret (Ok (length changed, SkippedCount result))
    end.

Definition persistRecordBatch (did : string) (records : list RecordStruct) : proc world (outcome nat) :=
  result ← persistBackfillBatch did records;
  match result with
  | Err e => mret (Err e)
  | Ok (inserted, skipped) => updates (on_stats (add_records inserted skipped)) ;; mret (Ok inserted)
  end.

(** The loop of [processRepoLegacy] and [backfillActorLegacy] over the collections; [persist] stores a
    batch. The error of the context ends it; others are collected. *)
Fixpoint legacy_loop (persist : string → list RecordStruct → proc world (outcome nat)) (data : AtprotoData) (pdsURL : string)
    (collections : list string) (total : nat) (issues : collector) : proc world (nat * (string + collector)) :=
  match collections with
  | [] => mret (total, inr issues)
  | collection :: rest =>
      ctx ← reads w_ctx;
      let listed := ListRecords page_fuel ctx pdsURL (ad_DID data) collection in
      done ← reads w_ctx;
      match done with
      | Some e => mret (total, inl e)
      | None =>
          match listed with
          | Err e =>
              legacy_loop persist data pdsURL rest total
                (add_issue ("list records for " +:+ ad_DID data +:+ " in collection " +:+ collection +:+ ": " +:+ e) issues)
          | Ok records =>
              inserted ← persist (ad_DID data) (listed_record (ad_DID data) collection <$> records);
              match inserted with
              | Err e => legacy_loop persist data pdsURL rest total (add_issue ("collection " +:+ collection +:+ ": " +:+ e) issues)
              | Ok n => legacy_loop persist data pdsURL rest (total + n) issues
              end
          end
      end
  end.

Definition processRepoLegacy (pdsURL : string) (data : AtprotoData) : proc world (nat * option string) :=
  '(total, out) ← legacy_loop persistRecordBatch data pdsURL (cfg_Collections cfg) 0 no_errors;
  match out with
  | inl e => mret (total, Some e)
  | inr issues =>
      match collector_err issues with
      | Some e => mret (total, Some e)
      | None => updates (on_stats add_processed) ;; mret (total, None)
      end
  end.

Definition processRepo (pdsURL : string) (data : AtprotoData) : proc world (nat * option string) :=
  ctx ← reads w_ctx;
  let '(carRecords, carErr) := GetRepo ctx pdsURL (ad_DID data) (cfg_Collections cfg) in
  done ← reads w_ctx;
  match done with
  | Some e => mret (0, Some e)
  | None =>
      if from_option isCARFallbackFailure false carErr then processRepoLegacy pdsURL data
      else if from_option (negb ∘ isCARIntegrityFailure) false carErr then mret (0, car_error_text <$> carErr)
      else
        let '(dbRecords, conversionErr) := convertCARRecords (ad_DID data) carRecords in
        let integrityErr := combineCARIntegrityFailures [carErr; conversionErr] in
        inserted ← persistRecordBatch (ad_DID data) dbRecords;
        match inserted with
        | Err e => mret (0, Some e)
        | Ok n =>
            match integrityErr with
            | Some e => mret (n, Some (car_error_text e))
            | None => updates (on_stats add_processed) ;; mret (n, None)
            end
        end
  end.

(** No step of the model panics, so only the counter is left of the deferred function. *)
Definition safeProcessRepo (pdsURL : string) (data : AtprotoData) : proc world (nat * option string) :=
  result ← processRepo pdsURL data;
  (if from_option (negb ∘ is_cancellation) false result.2 then updates (on_stats add_error) else mret tt) ;;
  mret result.

(** The goroutine of [processPDS]: what it adds to the total. *)
Definition repo_worker (pdsURL : string) (data : AtprotoData) : proc world nat :=
  '(count, err) ← safeProcessRepo pdsURL data;
  match err with
  | Some e => updates (on_issues (add_issue ("repo " +:+ ad_DID data +:+ ": " +:+ e)))
  | None => mret tt
  end ;;
  mret count.

(** ** One actor *)

Definition storeResolvedActor (data : AtprotoData) : proc world (outcome unit) :=
  if (trim_space (ad_Handle data) =? "")%string then on_db (Ensure (ad_DID data))
  else on_db (UpsertIdentity (ad_DID data) (ad_Handle data)).

Definition persist_inserted (did : string) (records : list RecordStruct) : proc world (outcome nat) :=
  result ← persistBackfillBatch did records;
  mret (match result with Ok (inserted, _) => Ok inserted | Err e => Err e end).

Definition backfillActorLegacy (data : AtprotoData) : proc world (nat * option string) :=
  '(total, out) ← legacy_loop persist_inserted data (ad_PDS data) (cfg_Collections cfg) 0 no_errors;
  mret (total, match out with inl e => Some e | inr issues => collector_err issues end).

Definition BackfillActor (did : string) : proc world (nat * option string) :=
  ctx ← reads w_ctx;
  match client_ResolveDID client ctx did with
  | Err e => mret (0, Some e)
  | Ok data =>
      storeResolvedActor data ;;
      ctx ← reads w_ctx;
      let '(carRecords, carErr) := GetRepo ctx (ad_PDS data) (ad_DID data) (cfg_Collections cfg) in
      done ← reads w_ctx;
      match done with
      | Some e => mret (0, Some e)
      | None =>
          if from_option isCARFallbackFailure false carErr then backfillActorLegacy data
          else if from_option (negb ∘ isCARIntegrityFailure) false carErr then mret (0, car_error_text <$> carErr)
          else
            let '(dbRecords, conversionErr) := convertCARRecords (ad_DID data) carRecords in
            let integrityErr := combineCARIntegrityFailures [carErr; conversionErr] in
            if bool_decide (dbRecords = []) then mret (0, car_error_text <$> integrityErr)
            else
              inserted ← persist_inserted (ad_DID data) dbRecords;
              match inserted with
              | Err e => mret (0, Some e)
              | Ok n => mret (n, car_error_text <$> integrityErr)
              end
      end
  end.

(** ** A run *)

(** The repositories of one collection, added to those known. *)
Definition discover_collection (known : gset string) (collection : string) : proc world (gset string) :=
  ctx ← reads w_ctx;
  match ListReposByCollection client page_fuel ctx collection with
  | Err e =>
      updates (on_stats add_error) ;;
      updates (on_issues (add_issue ("discover collection " +:+ collection +:+ ": " +:+ e))) ;;
      mret known
  | Ok repos => mret (known ∪ list_to_set repos)
  end.

Definition start_run : proc world unit :=
  t ← reads now;
  updates (on_stats (λ _, mkStats 0 0 0 0 0 t None)) ;; updates (on_issues (λ _, no_errors)).

Definition discover : proc world (gset string) :=
  start_run ;;
  repos ← fold_proc discover_collection ∅ (cfg_Collections cfg);
  updates (on_stats (set_discovered (Z.of_nat (size repos)))) ;; mret repos.

(** With the default server when the document names none. *)
Definition account (did : string) (doc : DIDDocument) : AtprotoData :=
  let pds := GetPDSEndpoint doc in mkAtprotoData did (GetHandle doc) (if (pds =? "")%string then "https://bsky.social" else pds).

(** The goroutine of [resolveAndGroupByPDS]: the account, if it resolves. *)
Definition resolve_worker (did : string) : proc world (option AtprotoData) :=
  found ← Get w_cache on_cache now 0 did;
  doc ← match found with
    | Ok doc => mret (Ok doc)
    | Err _ => GetWithInvalidate w_cache on_cache now 1 did true
    end;
  match doc with
  | Err e =>
      updates (on_stats add_error) ;; updates (on_issues (add_issue ("resolve DID " +:+ did +:+ ": " +:+ e))) ;; mret None
  | Ok doc => mret (Some (account did doc))
  end.

(** [result[data.PDS] = append(result[data.PDS], data)] *)
Definition add_to_pds (m : gmap string (list AtprotoData)) (data : AtprotoData) : gmap string (list AtprotoData) :=
  <[ad_PDS data := default [] (m !! ad_PDS data) ++ [data]]> m.
Definition group_by_pds (resolved : list AtprotoData) : gmap string (list AtprotoData) := foldl add_to_pds ∅ resolved.

(** An error is only logged. *)
Definition store_actors (resolved : list AtprotoData) : proc world unit :=
  if bool_decide (resolved = []) then mret tt
  else on_db (BatchUpsert ((λ data, mkActorData (ad_DID data) (ad_Handle data)) <$> resolved)) ;; mret tt.

(** The goroutines of [processReposByPDS], one per account; the semaphores only bound how
    many make progress at a time. *)
Definition repo_workers (reposByPDS : gmap string (list AtprotoData)) : list (proc world nat) :=
  e ← map_to_list reposByPDS; repo_worker e.1 <$> e.2.

Definition finish_run : proc world (option string) :=
  t ← reads now;
  updates (on_stats (set_ended t)) ;;
  ctx ← reads w_ctx;
  match ctx with
  | Some e => mret (Some e)
  | None => reads (λ w, collector_err (w_issues w))
  end.

(** Time passes, the cache is cleaned up, and the caller may cancel. *)
Definition set_db_clock (t : Z) (d : db) : db :=
  mkDb (db_records d) (db_versions d) (db_next_version d) (db_actors d) (db_activity d) (db_next_activity d) t
    (db_labels d) (db_next_label d) (db_label_states d).

Inductive environment (w : world) : world → Prop :=
  | env_clock t : (now w <= t)%Z → environment w (put_db (set_db_clock t (w_db w)) w)
  | env_cleanup : environment w (on_cache (λ c, (Cleanup (now w) c).2) w)
  | env_cancel e : w_ctx w = None → environment w (mkWorld (w_db w) (w_stats w) (w_issues w) (w_cache w) (Some e)).

(** [Run]: the order in which repositories are resolved, in which they become known and in which they
    are processed is any; the result is the error returned. *)
Definition runs {A} (p : proc world A) (w : world) (a : A) (w' : world) : Prop := par environment [p] w [a] w'.

Inductive Run (w : world) : option string → world → Prop :=
  | run_empty w1 err w' : runs discover w ∅ w1 → runs finish_run w1 err w' → Run w err w'
  | run_repos repos w1 repoList found w2 resolved w3 workers counts w4 err w' :
      runs discover w repos w1 → repos ≠ ∅ →
      repoList ≡ₚ elements repos → par environment (resolve_worker <$> repoList) w1 found w2 →
      resolved ≡ₚ omap id found → runs (store_actors resolved) w2 tt w3 →
      workers ≡ₚ repo_workers (group_by_pds resolved) → par environment workers w3 counts w4 →
      runs finish_run w4 err w' → Run w err w'.
End backfill.
