(* ===== verification/BackfillProps.v ===== *)
(** * One repository's backfill

    Each goroutine only touches rows of its own repository and leaves alone what the others
    have stored; one that ends without an error has stored every record it was served. *)
From S2P Require Import Prelude GoStrings Json AtprotoTime Effects Database RecordStore RecordProps BatchProps Actors Processes DidDocuments BackfillClient Backfill.

(** The account a URI belongs to, and its collection. *)
Definition uri_authority (uri : string) : string := default "" (split slash uri !! 2).
Definition uri_collection (uri : string) : string := default "" (split slash uri !! 3).

Lemma uri_authority_at did rest : no_byte slash did = true → uri_authority ("at://" +:+ did +:+ "/" +:+ rest) = did.
Proof.
  intros Hd. unfold uri_authority, split. change ("at://" +:+ did +:+ "/" +:+ rest) with ("at:" +:+ String slash ("" +:+ String slash (did +:+ String slash rest))).
  rewrite split_go_app by done. unfold split. rewrite split_go_app by done. unfold split. by rewrite split_go_app.
Qed.

Definition stored (w : world) (uri cid : string) : Prop := ∃ r, db_records (w_db w) !! uri = Some r ∧ row_cid r = cid.

(** What a goroutine working on [did] may count on, and what it does. *)
Definition rely (did : string) (w w' : world) : Prop :=
  (w_ctx w' = None → w_ctx w = None) ∧ co_total (w_issues w) ≤ co_total (w_issues w') ∧
  ∀ u, uri_authority u = did → db_records (w_db w') !! u = db_records (w_db w) !! u.
Definition guarantee (did : string) (w w' : world) : Prop :=
  w_ctx w' = w_ctx w ∧ co_total (w_issues w) ≤ co_total (w_issues w') ∧
  ∀ u, uri_authority u ≠ did → db_records (w_db w') !! u = db_records (w_db w) !! u.

#[export] Instance rely_preorder did : PreOrder (rely did).
Proof.
  split; [by intros w|]. intros w1 w2 w3 (Hc1 & Ht1 & Hr1) (Hc2 & Ht2 & Hr2). split_and!; [auto|lia|].
  intros u Hu. by rewrite Hr2, Hr1.
Qed.

Lemma guarantee_refl did w : guarantee did w w.
Proof. by split_and!. Qed.

(** Steps that leave the records alone. *)
Lemma guarantee_records did w w' :
  w_ctx w' = w_ctx w → co_total (w_issues w) ≤ co_total (w_issues w') → db_records (w_db w') = db_records (w_db w) → guarantee did w w'.
Proof. intros Hc Ht Hr. split_and!; [done|done|]. by rewrite Hr. Qed.

Lemma interfere did did' w w' : did ≠ did' → guarantee did' w w' → rely did w w'.
Proof. intros Hne (Hc & Ht & Hr). split_and!; [by rewrite Hc|done|]. intros u <-. by apply Hr. Qed.

Lemma environment_rely did w w' : environment w w' → rely did w w'.
Proof. intros []; split_and!; done. Qed.

Lemma stored_rely did w w' u c : rely did w w' → uri_authority u = did → stored w u c → stored w' u c.
Proof. intros (_ & _ & Hr) Hu (r & Hlk & Hc). exists r. by rewrite Hr. Qed.

Lemma stored_records w w' u c : db_records (w_db w') = db_records (w_db w) → stored w u c → stored w' u c.
Proof. unfold stored. by intros ->. Qed.

(** A set of stored records of one account. *)
Definition all_stored (did : string) (l : list (string * string)) (w : world) : Prop :=
  Forall (λ x, uri_authority x.1 = did ∧ stored w x.1 x.2) l.

Lemma all_stored_rely did l w w' : rely did w w' → all_stored did l w → all_stored did l w'.
Proof. intros Hr Hl. eapply Forall_impl; [exact Hl|]. intros x [Hu Hs]. split; [done|]. by eapply stored_rely. Qed.

Lemma all_stored_records did l w w' : db_records (w_db w') = db_records (w_db w) → all_stored did l w → all_stored did l w'.
Proof. intros Hr Hl. eapply Forall_impl; [exact Hl|]. intros x [Hu Hs]. split; [done|]. by eapply stored_records. Qed.

Definition record_keys (records : list RecordStruct) : list (string * string) := (λ r, (rec_uri r, rec_cid r)) <$> records.

Lemma same_cid a b : backfillDuplicateConflict a b = "" → rw_cid a = rw_cid b.
Proof.
  unfold backfillDuplicateConflict. destruct (_ || _); [done|]. destruct (String.eqb_spec (rw_cid a) (rw_cid b)); [done|]. done.
Qed.

Section backfill.
Context `{Env} `{Http} `{CarReader}.
Context (cfg : Config) (validator : option RecordValidator) (activity : bool).
Context (float64_ok : string → bool) (is_cancellation : string → bool) (page_fuel : nat).
Context (did : string).

Notation persistBackfillBatch := (persistBackfillBatch validator activity float64_ok).
Notation persistRecordBatch := (persistRecordBatch validator activity float64_ok).
Notation safe_here := (safe (rely did) (guarantee did)).

(** ** Storing a batch *)

Lemma safe_records {A} (Φ : A → world → Prop) f w :
  (∀ w, w_ctx (f w) = w_ctx w ∧ co_total (w_issues w) ≤ co_total (w_issues (f w)) ∧ db_records (w_db (f w)) = db_records (w_db w)) →
  ∀ k : proc world A, (∀ w', rely did w w' → safe_here Φ k (f w')) → safe_here Φ (updates f ;; k) w.
Proof.
  intros Hf k Hk. apply (safe_bind _ _ (λ _ w2, safe_here Φ k w2)); [|done].
  apply safe_updates. intros w0 Hw0. destruct (Hf w0) as (Hc & Ht & Hr). split; [by apply guarantee_records|].
  intros w2 Hw2. eapply safe_stable; [apply _|exact Hw2|]. auto.
Qed.

Lemma log_safe l records w : all_stored did l w → safe_here (λ _ w', all_stored did l w') (logChangedRecordActivity activity float64_ok records) w.
Proof.
  revert w. induction records as [|rec records IH]; intros w Hw; cbn [logChangedRecordActivity].
  { apply safe_ret. intros w' Hr. by eapply all_stored_rely. }
  destruct activity; [|apply safe_ret; intros w' Hr; by eapply all_stored_rely].
  apply (safe_bind _ _ (λ _ w', all_stored did l w')); [|].
  { apply safe_reads. intros w0 Hr0. split; [apply guarantee_refl|]. intros w2 Hr2. eapply all_stored_rely; [|exact Hw]. by etrans. }
  intros t w1 Hw1. apply (safe_bind _ _ (λ _ w', all_stored did l w')); [|intros _ w2 Hw2; by apply IH].
  apply safe_atomically. intros w0 fs o w2 fs' Hr0 Hrun. unfold zoom in Hrun.
  destruct (LogActivityWithStatus _ _ _ _ _ _ _ (w_db w0) fs) as [[o1 d1] fs1] eqn:E. injection Hrun as <- <- <-.
  assert (Hrec : db_records d1 = db_records (w_db w0)).
  { unfold LogActivityWithStatus in E. destruct (normalizeActivityEventJSON _) as [n|]; [|by injection E as _ <- _].
    unfold mbind, M_bind, of_outcome in E. destruct o1; [apply stmt_ok_inv in E; by injection E as _ <-|by apply stmt_err_inv in E as ->]. }
  split; [by apply guarantee_records|]. intros w3 Hr3. eapply all_stored_rely; [exact Hr3|].
  eapply (all_stored_records _ _ w0); [done|]. by eapply all_stored_rely.
Qed.

(** What a batch leaves: what was stored before under other URIs, and, if it succeeds, its records. *)
Definition batch_post (l : list (string * string)) (records : list RecordStruct) (ok : bool) (w : world) : Prop :=
  all_stored did l w ∧ (ok = true → all_stored did (record_keys records) w).

Lemma batch_post_rely l records ok w w' : rely did w w' → batch_post l records ok w → batch_post l records ok w'.
Proof. intros Hr [Hl1 Hl2]. split; [by eapply all_stored_rely|]. intros E. eapply all_stored_rely; [exact Hr|auto]. Qed.

Lemma write_uris records : rw_uri <$> validationWrites validator records = rec_uri <$> records.
Proof. unfold validationWrites. rewrite <- list_fmap_compose. by apply list_fmap_ext. Qed.

Lemma batch_step l records w fs o d' fs' :
  Forall (λ r, uri_authority (rec_uri r) = did) records → Forall (λ x, x.1 ∉ (rec_uri <$> records)) l → all_stored did l w →
  BatchUpsertWithValidationForBackfill did (validationWrites validator records) (w_db w) fs = (o, d', fs') →
  guarantee did w (put_db d' w) ∧ batch_post l records (is_ok o) (put_db d' w).
Proof.
  intros Hown Hl Hst Hrun. apply backfill_contract in Hrun. destruct o as [res|]; cbn [is_ok].
  2: { subst d'. split; [by apply guarantee_records|]. split; [by eapply all_stored_records|done]. }
  destruct Hrun as [Hf Hrows Hothers _]. rewrite write_uris in Hothers. split.
  - split_and!; [done|done|]. intros u Hu. apply Hothers. intros (r & -> & Hin)%list_elem_of_fmap.
    rewrite Forall_forall in Hown. by apply Hu, Hown.
  - split.
    + apply Forall_forall. intros x Hx. unfold all_stored in Hst. rewrite Forall_forall in Hst, Hl. destruct (Hst x Hx) as [Hu (r & Hlk & Hc)].
      split; [done|]. exists r. split; [|done]. rewrite <- Hlk. by apply Hothers, Hl.
    + intros _. apply Forall_fmap, Forall_forall. intros rec Hin. cbn. rewrite Forall_forall in Hown. split; [by apply Hown|].
      apply list_elem_of_lookup in Hin as [i Hi].
      destruct (Hrows i (validation_write validator rec)) as (j & w0 & r & _ & _ & Huri & Hsame & Hlk & Hup).
      { unfold validationWrites. by rewrite list_lookup_fmap, Hi. }
      exists r. split; [exact Hlk|]. rewrite (up_cid _ _ _ _ Hup). by destruct Hsame as [-> |Hc%same_cid].
Qed.

Lemma persist_safe l records w :
  Forall (λ r, uri_authority (rec_uri r) = did) records → Forall (λ x, x.1 ∉ (rec_uri <$> records)) l → all_stored did l w →
  safe_here (λ o w', batch_post l records (is_ok o) w') (persistBackfillBatch did records) w.
Proof.
  intros Hown Hl Hst. unfold Backfill.persistBackfillBatch. case_bool_decide as Hnil.
  { subst. apply safe_ret. intros w' Hr. split; [by eapply all_stored_rely|constructor]. }
  apply (safe_bind _ _ (λ o w', batch_post l records (is_ok o) w')); [|].
  - apply safe_atomically. intros w0 fs o w1 fs' Hr0 Hrun. unfold zoom in Hrun.
    destruct (BatchUpsertWithValidationForBackfill _ _ (w_db w0) fs) as [[o1 d1] fs1] eqn:E. injection Hrun as <- <- <-.
    destruct (batch_step l records w0 fs o1 d1 fs1) as [HG HP]; [done|done|by eapply all_stored_rely|done|].
    split; [done|]. intros w2 Hr2. by eapply batch_post_rely.
  - intros [res|e] w1 Hw1; [|apply safe_ret; intros w2 Hr2; by eapply batch_post_rely].
    apply (safe_bind _ _ (λ _ w', batch_post l records true w')); [|].
    + eapply safe_mono; [|apply (log_safe (l ++ record_keys records))].
      * intros _ w2 [Hl2 Hl3]%Forall_app. by split.
      * destruct Hw1 as [Hl1 Hl2]. apply Forall_app. split; [exact Hl1|exact (Hl2 eq_refl)].
    + intros _ w2 Hw2. apply safe_ret. intros w3 Hr3. by eapply batch_post_rely.
Qed.

Lemma persist_record_safe l records w :
  Forall (λ r, uri_authority (rec_uri r) = did) records → Forall (λ x, x.1 ∉ (rec_uri <$> records)) l → all_stored did l w →
  safe_here (λ o w', batch_post l records (is_ok o) w') (persistRecordBatch did records) w.
Proof.
  intros Hown Hl Hst. unfold Backfill.persistRecordBatch.
  eapply safe_bind; [apply _|by apply (persist_safe l records)|]. intros [[ins sk]|e] w1 Hw1; cbn beta iota.
  - apply safe_records; [done|]. intros w' Hr. apply safe_ret. intros w2 Hr2. eapply batch_post_rely; [exact Hr2|].
    assert (Hl2 : batch_post l records true w') by by eapply batch_post_rely. exact Hl2.
  - apply safe_ret. intros w2 Hr2. by eapply batch_post_rely.
Qed.

Lemma persist_inserted_safe l records w :
  Forall (λ r, uri_authority (rec_uri r) = did) records → Forall (λ x, x.1 ∉ (rec_uri <$> records)) l → all_stored did l w →
  safe_here (λ o w', batch_post l records (is_ok o) w') (persist_inserted validator activity float64_ok did records) w.
Proof.
  intros Hown Hl Hst. unfold persist_inserted.
  eapply safe_bind; [apply _|by apply (persist_safe l records)|]. intros [[ins sk]|e] w1 Hw1; cbn beta iota;
    apply safe_ret; intros w2 Hr2; by eapply batch_post_rely.
Qed.

(** ** What a repository serves *)

Lemma add_issue_total e c : co_total (add_issue e c) = S (co_total c).
Proof. done. Qed.

Definition real_failure (e : car_error) : Prop := match e with CARFailure _ c => co_total c ≠ 0 | _ => True end.

Lemma failures_real c e : failures_err c = Some e → real_failure e.
Proof. unfold failures_err. destruct (co_total c) eqn:E; [done|]. intros [= <-]. cbn. lia. Qed.

Lemma classify_real p r o f e : classifyRepoContextFailure p r o f = Some e → real_failure e.
Proof. unfold classifyRepoContextFailure. destruct p; [by intros [= <-]|]. destruct r; [by intros [= <-]|]. destruct (fl_timeout f); [by intros [= <-]|done]. Qed.

(** The URIs of a CAR are those of the repository asked for. *)
Definition car_uri (r : CARRecord) : Prop := cr_URI r = "at://" +:+ did +:+ "/" +:+ cr_Collection r +:+ "/" +:+ cr_RKey r.

Lemma read_entry_uris cols r acc entry : Forall car_uri acc.1 → Forall car_uri (read_entry did cols r acc entry).1.
Proof.
  destruct acc as [recs fails], entry as [path cid]. cbn. intros Hacc. unfold read_entry.
  repeat case_match; try done. cbn. apply Forall_app. split; [done|]. by repeat constructor.
Qed.

Lemma read_entries_uris cols r : Forall car_uri (read_entries did cols r).1.
Proof.
  unfold read_entries. assert (Hgo : ∀ es acc, Forall car_uri acc.1 → Forall car_uri (foldl (read_entry did cols r) acc es).1).
  { induction es as [|e es IH]; intros acc Hacc; [done|]. cbn [foldl]. by apply IH, read_entry_uris. }
  by apply Hgo.
Qed.

Lemma GetRepo_spec ctx pds cols recs e : GetRepo ctx pds did cols = (recs, e) → Forall car_uri recs ∧ (∀ e', e = Some e' → real_failure e').
Proof.
  unfold GetRepo. destruct (negb _); [by intros [= <- <-]; split; [|intros ? [= <-]]|].
  destruct (http_get ctx 0 _) as [timeout err|status body].
  { intros [= <- <-]. split; [done|]. intros e' [= <-]. destruct (classifyRepoContextFailure _ _ _ _) eqn:E; [by apply classify_real in E|done]. }
  destruct (negb _); [by intros [= <- <-]; split; [|intros ? [= <-]]|].
  destruct (match body with Ok _ => _ | Err _ => _ end) as [f|r].
  { intros [= <- <-]. split; [done|]. intros e' [= <-]. destruct (classifyRepoContextFailure _ _ _ _) eqn:E; [by apply classify_real in E|done]. }
  assert (Huris := read_entries_uris cols r). destruct (read_entries did cols r) as [records fails]. cbn in Huris.
  destruct (car_end r) as [f|]; [|intros [= <- <-]; split; [done|intros e'; apply failures_real]].
  destruct (classifyRepoContextFailure _ _ _ _) eqn:E; intros [= <- <-]; (split; [done|]); intros e'.
  - intros [= <-]. by apply classify_real in E.
  - apply failures_real.
Qed.

(** What a conversion without a failure gives. *)
Lemma convert_spec records dbRecords :
  convertCARRecords did records = (dbRecords, None) → record_keys dbRecords = (λ r, (cr_URI r, cr_CID r)) <$> records.
Proof.
  unfold convertCARRecords. destruct (foldl (convert_record did) _ records) as [db fails] eqn:E. intros [= <- Hf].
  assert (Ht : co_total fails = 0) by (unfold failures_err in Hf; by destruct (co_total fails)).
  assert (Hgo : ∀ recs acc, co_total (foldl (convert_record did) acc recs).2 = 0 →
    co_total acc.2 = 0 ∧ record_keys (foldl (convert_record did) acc recs).1 = record_keys acc.1 ++ ((λ r, (cr_URI r, cr_CID r)) <$> recs)).
  { induction recs as [|rec recs IH]; intros acc Hacc; cbn [foldl fmap list_fmap] in *; [by rewrite app_nil_r|].
    apply IH in Hacc as [H1' H2']. rewrite H2'. unfold convert_record in H1' |- *. destruct (CBORToJSON (cr_Value rec)) as [j|e].
    - cbn in H1' |- *. split; [done|]. unfold record_keys. rewrite fmap_app, <- app_assoc. done.
    - cbn in H1'. done. }
  destruct (Hgo records ([], no_errors)) as [_ Hk]; [by rewrite E|]. rewrite E in Hk. exact Hk.
Qed.

(** In any case, only records of the repository come out. *)
Lemma convert_uris records :
  Forall car_uri records → no_byte slash did = true → Forall (λ r, uri_authority (rec_uri r) = did) (convertCARRecords did records).1.
Proof.
  intros Hrecs Hd. unfold convertCARRecords. destruct (foldl (convert_record did) _ records) as [db fails] eqn:E. cbn.
  assert (Hgo : ∀ recs acc, Forall car_uri recs → Forall (λ r, uri_authority (rec_uri r) = did) acc.1 →
    Forall (λ r, uri_authority (rec_uri r) = did) (foldl (convert_record did) acc recs).1).
  { induction recs as [|rec recs IH]; intros acc Hall Hacc; [done|]. inversion Hall as [|? ? Hrec Hrest]; subst. cbn [foldl]. apply IH; [done|].
    unfold convert_record. destruct (CBORToJSON (cr_Value rec)); [|done]. cbn. apply Forall_app. split; [done|]. constructor; [|done].
    cbn. unfold car_uri in Hrec. rewrite Hrec. by apply uri_authority_at. }
  specialize (Hgo records ([], no_errors) Hrecs). rewrite E in Hgo. by apply Hgo.
Qed.

Lemma combine_none carErr conv :
  (∀ e, carErr = Some e → real_failure e) → (∀ e, conv = Some e → real_failure e) →
  combineCARIntegrityFailures [carErr; conv] = None → carErr = None ∧ conv = None.
Proof.
  intros Hc1 Hc2. assert (Hgrow : ∀ e c, real_failure e → co_total c < co_total (combine_failure c e)).
  { intros e c He. unfold combine_failure. destruct e as [?|[] d|?]; cbn in *; lia. }
  unfold combineCARIntegrityFailures, failures_err. destruct carErr as [a|], conv as [b|]; cbn; try done.
  - assert (Ha := Hgrow a no_errors (Hc1 _ eq_refl)). assert (Hb := Hgrow b (combine_failure no_errors a) (Hc2 _ eq_refl)).
    destruct (co_total (combine_failure (combine_failure no_errors a) b)); [lia|done].
  - assert (Ha := Hgrow a no_errors (Hc1 _ eq_refl)). destruct (co_total (combine_failure no_errors a)); [lia|done].
  - assert (Hb := Hgrow b no_errors (Hc2 _ eq_refl)). destruct (co_total (combine_failure no_errors b)); [lia|done].
Qed.

Lemma convert_real records e : (convertCARRecords did records).2 = Some e → real_failure e.
Proof. unfold convertCARRecords. destruct (foldl _ _ records). apply failures_real. Qed.

(** ** The listings *)

(** Listings name records of the repository and collection asked for. *)
Definition well_named : Prop := ∀ pds c recs, ListRecords page_fuel None pds did c = Ok recs →
  Forall (λ r, uri_authority (lr_URI r) = did ∧ uri_collection (lr_URI r) = c) recs.

Definition listed_keys (recs : list ListRecordsRecord) : list (string * string) := (λ r, (lr_URI r, lr_CID r)) <$> recs.

(** Collections listed and stored. *)
Definition listed_stored (pds : string) (cols : list string) (w : world) : Prop :=
  Forall (λ c, ∃ recs, ListRecords page_fuel None pds did c = Ok recs ∧ all_stored did (listed_keys recs) w) cols.

Lemma listed_stored_rely pds cols w w' : rely did w w' → listed_stored pds cols w → listed_stored pds cols w'.
Proof. intros Hr Hl. eapply Forall_impl; [exact Hl|]. intros c (recs & Hrec & Hst). exists recs. split; [done|]. by eapply all_stored_rely. Qed.

(** The keys listed under some collections. *)
Definition listing (pds : string) (cols : list string) : list (string * string) :=
  c ← cols; match ListRecords page_fuel None pds did c with Ok recs => listed_keys recs | Err _ => [] end.

Lemma listed_stored_all pds cols w :
  listed_stored pds cols w ↔ Forall (λ c, is_ok (ListRecords page_fuel None pds did c) = true) cols ∧ all_stored did (listing pds cols) w.
Proof.
  unfold listed_stored, listing, all_stored. rewrite !Forall_forall. split.
  - intros Hall. split.
    + intros c Hc. destruct (Hall c Hc) as (recs & -> & _). done.
    + intros x (c & Hx & Hc)%list_elem_of_bind. destruct (Hall c Hc) as (recs & Hrecs & Hst). rewrite Hrecs in Hx.
      unfold all_stored in Hst. rewrite Forall_forall in Hst. by apply Hst.
  - intros [Hok Hst] c Hc. specialize (Hok c Hc). destruct (ListRecords page_fuel None pds did c) as [recs|] eqn:E; [|done].
    exists recs. split; [done|]. apply Forall_forall. intros x Hx. apply Hst, list_elem_of_bind. exists c. by rewrite E.
Qed.

Lemma listing_collection pds cols x : well_named → x ∈ listing pds cols → uri_collection x.1 ∈ cols.
Proof.
  intros Hn (c & Hx & Hc)%list_elem_of_bind. destruct (ListRecords page_fuel None pds did c) as [recs|] eqn:E; [|by apply elem_of_nil in Hx].
  apply list_elem_of_fmap in Hx as (r & -> & Hr). specialize (Hn pds c recs E). rewrite Forall_forall in Hn. cbn. by destruct (Hn r Hr) as [_ ->].
Qed.

(** What is known of the collections done, should the run end well. *)
Definition progress (pds : string) (dn : list string) (issues : collector) (w : world) : Prop :=
  w_ctx w = None → co_total issues = 0 → listed_stored pds dn w.

Lemma progress_rely pds dn issues w w' : rely did w w' → progress pds dn issues w → progress pds dn issues w'.
Proof. intros Hr Hp Hc Ht. eapply listed_stored_rely; [exact Hr|]. apply Hp; [|done]. by apply Hr. Qed.

(** [persist] as the loop uses it. *)
Definition persists (persist : string → list RecordStruct → proc world (outcome nat)) : Prop := ∀ l records w,
  Forall (λ r, uri_authority (rec_uri r) = did) records → Forall (λ x, x.1 ∉ (rec_uri <$> records)) l → all_stored did l w →
  safe_here (λ o w', batch_post l records (is_ok o) w') (persist did records) w.

Lemma listed_record_keys c recs : record_keys (listed_record did c <$> recs) = listed_keys recs.
Proof. unfold record_keys, listed_keys. rewrite <- list_fmap_compose. by apply list_fmap_ext. Qed.

Lemma safe_read_ctx {A} (Φ : A → world → Prop) (k : option string → proc world A) w :
  (∀ c w', rely did w w' → (w_ctx w' = None → c = None) → (c = None → w_ctx w = None) → safe_here Φ (k c) w') → safe_here Φ (c ← reads w_ctx; k c) w.
Proof.
  intros Hk. apply (safe_bind _ _ (λ c w', rely did w w' ∧ (w_ctx w' = None → c = None) ∧ (c = None → w_ctx w = None))).
  - apply safe_reads. intros w0 Hr. split; [apply guarantee_refl|]. intros w2 Hr2. split_and!; [by etrans|apply Hr2|apply Hr].
  - intros c w' (Hr & Hc1 & Hc2). by apply Hk.
Qed.

Lemma persist_batch_progress persist pds dn c recs issues w :
  persists persist → well_named → c ∉ dn → ListRecords page_fuel None pds did c = Ok recs → progress pds dn issues w →
  safe_here (λ o w', progress pds dn issues w' ∧ (is_ok o = true → all_stored did (listed_keys recs) w'))
    (persist did (listed_record did c <$> recs)) w.
Proof.
  intros Hpers Hn Hc E Hp. assert (Hnames := Hn pds c recs E). rewrite Forall_forall in Hnames.
  assert (Hown : Forall (λ r, uri_authority (rec_uri r) = did) (listed_record did c <$> recs)).
  { apply Forall_fmap, Forall_forall. intros r Hr. cbn. by apply Hnames. }
  destruct (decide (w_ctx w = None ∧ co_total issues = 0)) as [[Hctx Ht]|Hnot].
  - destruct (proj1 (listed_stored_all pds dn w) (Hp Hctx Ht)) as [Hok Hst].
    eapply safe_mono; [|apply (Hpers (listing pds dn)); [done| |done]].
    + intros o w' [Hl1 Hl2]. rewrite listed_record_keys in Hl2. split; [|done]. intros _ _. by apply listed_stored_all.
    + apply Forall_forall. intros x Hx Hin. apply Hc. apply list_elem_of_fmap in Hin as (r0 & Hx1 & (r & -> & Hr)%list_elem_of_fmap). cbn in Hx1.
      destruct (Hnames r Hr) as [_ <-]. rewrite <- Hx1. by eapply listing_collection.
  - eapply safe_mono; [|apply (safe_keep _ _ (λ w, ¬ (w_ctx w = None ∧ co_total issues = 0))); [| |exact Hnot|
      apply (Hpers []); [done|constructor|constructor]]].
    + intros o w' [[_ Hl2] Hn']. rewrite listed_record_keys in Hl2. split; [|done]. intros Hctx Ht. by destruct Hn'.
    + intros w1 w2 Hr Hn1 [Hctx Ht]. apply Hn1. split; [by apply Hr|done].
    + intros w1 w2 (Hctx & _) Hn1. by rewrite Hctx.
Qed.

Lemma legacy_safe persist pds data cols : persists persist → well_named → ad_DID data = did → NoDup cols →
  ∀ total w, safe_here (λ r w', w_ctx w' = None → ∀ issues, r.2 = inr issues → co_total issues = 0 → listed_stored pds cols w')
    (legacy_loop page_fuel persist data pds cols total no_errors) w.
Proof.
  intros Hpers Hn Hdid Hnd. assert (Hgo : ∀ todo dn total issues w, dn ++ todo = cols → progress pds dn issues w →
    safe_here (λ r w', w_ctx w' = None → ∀ issues, r.2 = inr issues → co_total issues = 0 → listed_stored pds cols w')
      (legacy_loop page_fuel persist data pds todo total issues) w).
  2: { intros total w. apply (Hgo cols [] total no_errors w eq_refl). intros _ _. constructor. }
  induction todo as [|c todo IH]; intros dn total issues w Hcols Hp; cbn [legacy_loop].
  { rewrite app_nil_r in Hcols. subst dn. apply safe_ret. intros w' Hr Hctx issues' [= <-] Ht.
    eapply progress_rely; [exact Hr|exact Hp|exact Hctx|exact Ht]. }
  assert (Hc : c ∉ dn) by (subst cols; apply NoDup_app in Hnd as (_ & Hnd & _); set_solver).
  assert (Hcols' : (dn ++ [c]) ++ todo = cols) by by rewrite <- app_assoc.
  apply safe_read_ctx. intros ctx w1 Hr1 Hctx1 _. apply safe_read_ctx. intros [e|] w2 Hr2 _ Hctx2.
  { apply safe_ret. intros w3 _ _ issues' [=]. }
  assert (ctx = None) as -> by auto. rewrite Hdid.
  destruct (ListRecords page_fuel None pds did c) as [recs|e] eqn:E; [|apply (IH (dn ++ [c])); [done|by intros ? [=]]].
  apply (safe_bind _ _ (λ o w', progress pds dn issues w' ∧ (is_ok o = true → all_stored did (listed_keys recs) w'))).
  - apply persist_batch_progress; [done..|]. eapply progress_rely; [|exact Hp]. by etrans.
  - intros [n|e] w3 [Hp3 Hst3]; apply (IH (dn ++ [c])); [done| |done|by intros ? [=]].
    intros Hctx Ht. apply Forall_app. split; [by apply Hp3|]. constructor; [|constructor]. exists recs. auto.
Qed.

(** ** One repository *)

(** A repository that could be read, and whose records are stored. *)
Definition served_stored (pds : string) (w : world) : Prop :=
  match GetRepo None pds did (cfg_Collections cfg) with
  | (recs, None) => all_stored did ((λ r, (cr_URI r, cr_CID r)) <$> recs) w
  | (_, Some e) => isCARFallbackFailure e = true ∧ listed_stored pds (cfg_Collections cfg) w
  end.

Lemma served_stored_records pds w w' : db_records (w_db w') = db_records (w_db w) → served_stored pds w → served_stored pds w'.
Proof.
  intros Hr. unfold served_stored. destruct (GetRepo _ _ _ _) as [recs [e|]]; [|by apply all_stored_records].
  intros [Hf Hl]. split; [done|]. eapply Forall_impl; [exact Hl|]. intros c (rs & Hrs & Hst). exists rs. split; [done|].
  by eapply all_stored_records.
Qed.

Lemma served_stored_rely pds w w' : rely did w w' → served_stored pds w → served_stored pds w'.
Proof.
  intros Hr. unfold served_stored. destruct (GetRepo _ _ _ _) as [recs [e|]]; [|by apply all_stored_rely].
  intros [Hf Hl]. split; [done|]. by eapply listed_stored_rely.
Qed.

(** A result without an error, of a run that is not cancelled, is complete. *)
Definition complete (pds : string) {A} (err : A → option string) (r : A) (w : world) : Prop := w_ctx w = None → err r = None → served_stored pds w.

Lemma complete_rely pds {A} (err : A → option string) r w w' : rely did w w' → complete pds err r w → complete pds err r w'.
Proof. intros Hr Hc Hctx He. eapply served_stored_rely; [exact Hr|]. apply Hc; [by apply Hr|done]. Qed.

Lemma complete_error pds (n : nat) e w : safe_here (complete pds snd) (mret (n, Some e)) w.
Proof. apply safe_ret. by intros w' _ _ [=]. Qed.

Context (Hplain : no_byte slash did = true) (Hnames : well_named) (Hnd : NoDup (cfg_Collections cfg)).

Lemma persist_records_persists : persists persistRecordBatch.
Proof. intros l records w. apply persist_record_safe. Qed.

Lemma persist_inserted_persists : persists (persist_inserted validator activity float64_ok).
Proof. intros l records w. apply persist_inserted_safe. Qed.

Lemma legacy_safe_result persist pds data (k : nat → string + collector → proc world (nat * option string)) w :
  persists persist → ad_DID data = did → (GetRepo None pds did (cfg_Collections cfg)).2 ≫= (λ e, Some (isCARFallbackFailure e)) = Some true →
  (∀ n out w', (w_ctx w' = None → ∀ issues, out = inr issues → co_total issues = 0 → served_stored pds w') → safe_here (complete pds snd) (k n out) w') →
  safe_here (complete pds snd) ('(total, out) ← legacy_loop page_fuel persist data pds (cfg_Collections cfg) 0 no_errors; k total out) w.
Proof.
  intros Hpers Hdid Hfall Hk. eapply safe_bind; [apply _|by apply legacy_safe|]. intros [n out] w1 Hw1. apply Hk.
  intros Hctx issues -> Ht. specialize (Hw1 Hctx issues eq_refl Ht). unfold served_stored.
  destruct (GetRepo _ _ _ _) as [recs [e|]]; [|done]. cbn in Hfall. injection Hfall as Hfall. done.
Qed.

Lemma repo_legacy_safe pds data w :
  ad_DID data = did → (GetRepo None pds did (cfg_Collections cfg)).2 ≫= (λ e, Some (isCARFallbackFailure e)) = Some true →
  safe_here (complete pds snd) (processRepoLegacy cfg validator activity float64_ok page_fuel pds data) w.
Proof.
  intros Hdid Hfall. unfold processRepoLegacy. apply legacy_safe_result; [apply persist_records_persists|done|done|].
  intros n [e|issues] w' Hw'; [apply complete_error|]. destruct (collector_err issues) eqn:E; [apply complete_error|].
  assert (Ht : co_total issues = 0) by (unfold collector_err in E; by destruct (co_total issues)).
  apply safe_records; [done|]. intros w1 Hr1. apply safe_ret. intros w2 Hr2 Hctx _.
  eapply served_stored_rely; [exact Hr2|]. eapply (served_stored_records pds w1); [done|]. eapply served_stored_rely; [exact Hr1|].
  apply (Hw' (proj1 Hr1 (proj1 Hr2 Hctx)) issues); done.
Qed.

Lemma actor_legacy_safe data w :
  ad_DID data = did → (GetRepo None (ad_PDS data) did (cfg_Collections cfg)).2 ≫= (λ e, Some (isCARFallbackFailure e)) = Some true →
  safe_here (complete (ad_PDS data) snd) (backfillActorLegacy cfg validator activity float64_ok page_fuel data) w.
Proof.
  intros Hdid Hfall. unfold backfillActorLegacy. apply legacy_safe_result; [apply persist_inserted_persists|done|done|].
  intros n [e|issues] w' Hw'; [apply complete_error|]. apply safe_ret. intros w1 Hr1 Hctx He. cbn in He.
  assert (Ht : co_total issues = 0) by (unfold collector_err in He; by destruct (co_total issues)).
  eapply served_stored_rely; [exact Hr1|]. apply (Hw' (proj1 Hr1 Hctx) issues); done.
Qed.

(** A CAR that was read: its records are stored, and without a failure these are all of them. *)
Lemma car_persist_safe persist pds recs carErr (k : outcome nat → proc world (nat * option string)) w :
  persists persist → GetRepo None pds did (cfg_Collections cfg) = (recs, carErr) →
  let '(dbRecords, conversionErr) := convertCARRecords did recs in
  (∀ o w', (is_ok o = true → combineCARIntegrityFailures [carErr; conversionErr] = None → served_stored pds w') →
    safe_here (complete pds snd) (k o) w') →
  safe_here (complete pds snd) (o ← persist did dbRecords; k o) w.
Proof.
  intros Hpers E. destruct (GetRepo_spec _ _ _ _ _ E) as [Huris Hreal]. assert (Hown := convert_uris recs Huris Hplain).
  assert (Hconv := convert_real recs). destruct (convertCARRecords did recs) as [db conv] eqn:Ec. cbn in Hown, Hconv. intros Hk.
  eapply safe_bind; [apply _|apply (Hpers []); [done|constructor|constructor]|]. intros o w1 [_ Hst]. apply Hk. intros Hok Hcomb.
  apply combine_none in Hcomb as [-> ->]; [|done|done]. unfold served_stored. rewrite E. rewrite <- (convert_spec _ _ Ec). auto.
Qed.

Lemma process_safe pds data w :
  ad_DID data = did → safe_here (complete pds snd) (processRepo cfg validator activity float64_ok page_fuel pds data) w.
Proof.
  intros Hdid. unfold processRepo. rewrite Hdid. apply safe_read_ctx. intros ctx w1 Hr1 Hctx1 _.
  destruct (GetRepo ctx pds did (cfg_Collections cfg)) as [recs carErr] eqn:E.
  apply safe_read_ctx. intros [e|] w2 Hr2 _ Hctx2; [apply complete_error|]. assert (ctx = None) as -> by auto.
  destruct (from_option isCARFallbackFailure false carErr) eqn:Hfall.
  { apply repo_legacy_safe; [done|]. rewrite E. destruct carErr as [e|]; [|done]. cbn in *. by rewrite Hfall. }
  destruct (from_option (negb ∘ isCARIntegrityFailure) false carErr) eqn:Hother.
  { destruct carErr; [apply complete_error|done]. }
  assert (Hcar := car_persist_safe persistRecordBatch pds recs carErr). destruct (convertCARRecords did recs) as [db conv].
  apply Hcar; [apply persist_records_persists|done|]. intros [n|e] w3 Hst; [|apply complete_error].
  destruct (combineCARIntegrityFailures _) as [e|]; [apply complete_error|].
  apply safe_records; [done|]. intros w4 Hr4. apply safe_ret. intros w5 Hr5 _ _.
  eapply served_stored_rely; [exact Hr5|]. eapply (served_stored_records pds w4); [done|]. eapply served_stored_rely; [exact Hr4|]. by apply Hst.
Qed.

Lemma safe_process_safe pds data w :
  ad_DID data = did → safe_here (complete pds snd) (safeProcessRepo cfg validator activity float64_ok is_cancellation page_fuel pds data) w.
Proof.
  intros Hdid. unfold safeProcessRepo. eapply safe_bind; [apply _|by apply process_safe|]. intros r w1 Hr1. destruct (from_option _ _ _).
  - apply safe_records; [done|]. intros w2 Hr2. apply safe_ret. intros w3 Hr3 Hctx He.
    eapply served_stored_rely; [exact Hr3|]. eapply (served_stored_records pds w2); [done|]. eapply served_stored_rely; [exact Hr2|].
    apply Hr1; [|done]. apply Hr2, (proj1 Hr3 Hctx).
  - apply safe_ret. intros w2 Hr2. by eapply complete_rely.
Qed.

(** The goroutine of a repository: without an issue it is complete. *)
Lemma worker_safe pds data w :
  ad_DID data = did → safe_here (λ _ w', w_ctx w' = None → co_total (w_issues w') = 0 → served_stored pds w')
    (repo_worker cfg validator activity float64_ok is_cancellation page_fuel pds data) w.
Proof.
  intros Hdid. unfold repo_worker. eapply safe_bind; [apply _|by apply safe_process_safe|]. intros [n [e|]] w1 Hr1.
  - apply safe_records; [intros w0; split_and!; [done|cbn; lia|done]|]. intros w2 Hr2. apply safe_ret.
    intros w3 (_ & Ht & _) _ Hz. cbn in Ht. lia.
  - apply safe_ret. intros w2 Hr2 Hctx _. eapply served_stored_rely; [exact Hr2|]. apply Hr1; [by apply Hr2|done].
Qed.

Lemma actor_statement_safe {A} (m : M db A) (Φ : outcome A → world → Prop) w :
  (∀ d fs o d' fs', m d fs = (o, d', fs') → db_records d' = db_records d) → (∀ o w', Φ o w') → safe_here Φ (on_db m) w.
Proof.
  intros Hm HΦ. apply safe_atomically. intros w0 fs o w1 fs' _ Hrun. unfold zoom in Hrun.
  destruct (m (w_db w0) fs) as [[o1 d1] fs1] eqn:E. injection Hrun as <- <- <-. split; [|done]. apply guarantee_records; [done|done|].
  by eapply Hm.
Qed.

Lemma actors_exec_records f d fs o d' fs' : exec (set_actors f) d fs = (o, d', fs') → db_records d' = db_records d.
Proof. unfold exec. destruct o as [u|e]; [intros E%stmt_ok_inv; by injection E as _ <-|by intros ->%stmt_err_inv]. Qed.

Lemma actor_safe w : (∀ ctx data, client_ResolveDID (client cfg) ctx did = Ok data → ad_DID data = did) →
  safe_here (λ r w', w_ctx w' = None → r.2 = None → ∃ data, client_ResolveDID (client cfg) None did = Ok data ∧ served_stored (ad_PDS data) w')
    (BackfillActor cfg validator activity float64_ok page_fuel did) w.
Proof.
  intros Hres. unfold BackfillActor. apply safe_read_ctx. intros ctx0 w0 _ Hctx0 _.
  destruct (client_ResolveDID (client cfg) ctx0 did) as [data|e] eqn:Er; [|apply safe_ret; by intros w' _ _ [=]].
  assert (Hdid := Hres _ _ Er). rewrite Hdid. apply (safe_bind _ _ (λ _ w', w_ctx w' = None → ctx0 = None)).
  { unfold storeResolvedActor. eapply (safe_mono _ _ (λ _ w', (True : Prop) ∧ (w_ctx w' = None → ctx0 = None))); [by intros ? ? []|].
    apply safe_keep; [intros w1 w2 (Hc & _); auto|intros w1 w2 (Hc & _); by rewrite Hc|done|].
    destruct (_ =? _)%string; apply actor_statement_safe; try done; intros d fs o d' fs'; apply actors_exec_records. }
  intros _ w1 Hw1. apply (safe_mono _ _ (λ r w', complete (ad_PDS data) snd r w' ∧ (w_ctx w' = None → ctx0 = None))).
  { intros r w' [Hc Hn] Hctx He. rewrite (Hn Hctx) in Er. exists data. auto. }
  apply safe_keep; [intros w2 w3 (Hc & _); auto|intros w2 w3 (Hc & _); by rewrite Hc|done|].
  apply safe_read_ctx. intros ctx w2 _ Hctx1 _.
  destruct (GetRepo ctx (ad_PDS data) did (cfg_Collections cfg)) as [recs carErr] eqn:E.
  apply safe_read_ctx. intros [e|] w3 _ _ Hctx2; [apply complete_error|]. assert (ctx = None) as -> by auto.
  destruct (from_option isCARFallbackFailure false carErr) eqn:Hfall.
  { apply actor_legacy_safe; [done|]. rewrite E. destruct carErr as [e|]; [|done]. cbn in *. by rewrite Hfall. }
  destruct (from_option (negb ∘ isCARIntegrityFailure) false carErr) eqn:Hother.
  { destruct carErr; [apply complete_error|done]. }
  assert (Hcar := car_persist_safe (persist_inserted validator activity float64_ok) (ad_PDS data) recs carErr).
  destruct (GetRepo_spec _ _ _ _ _ E) as [_ Hreal]. assert (Hconv := convert_real recs).
  destruct (convertCARRecords did recs) as [db conv] eqn:Ec. case_bool_decide as Hnil.
  - destruct (combineCARIntegrityFailures _) as [e|] eqn:Ecomb; [apply complete_error|].
    apply combine_none in Ecomb as [-> ->]; [|done|done]. apply safe_ret. intros w4 _ _ _. unfold served_stored. rewrite E.
    rewrite <- (convert_spec _ _ Ec), Hnil. constructor.
  - apply Hcar; [apply persist_inserted_persists|done|]. intros [n|e] w4 Hst; [|apply complete_error].
    destruct (combineCARIntegrityFailures _) as [e|]; [apply complete_error|].
    apply safe_ret. intros w5 Hr5 _ _. eapply served_stored_rely; [exact Hr5|]. by apply Hst.
Qed.
End backfill.
