(* ===== verification/BackfillRun.v ===== *)
(** * A whole backfill

    A run that reports no error has stored every record of every repository it discovered,
    however its goroutines took turns. *)
From S2P Require Import Prelude GoStrings Json AtprotoTime Effects Database RecordStore RecordProps BatchProps Actors Processes DidDocuments BackfillClient Backfill BackfillProps.

(** What every step of a run respects once it has started. *)
Definition onwards (w w' : world) : Prop :=
  (w_ctx w' = None → w_ctx w = None) ∧ co_total (w_issues w) ≤ co_total (w_issues w').
#[export] Instance onwards_preorder : PreOrder onwards.
Proof. split; [by intros w|]. intros w1 w2 w3 (Hc1 & Ht1) (Hc2 & Ht2). split; [auto|lia]. Qed.

Lemma environment_onwards w w' : environment w w' → onwards w w'.
Proof. by intros []. Qed.

(** Documents are only dropped from the cache. *)
Definition shrinks (c c' : DIDCache) : Prop := dc_plcDirectoryURL c' = dc_plcDirectoryURL c ∧ dc_cache c' ⊆ dc_cache c.
#[export] Instance shrinks_preorder : PreOrder shrinks.
Proof. split; [by intros c|]. intros c1 c2 c3 [Hp1 Hc1] [Hp2 Hc2]. split; [congruence|by etrans]. Qed.

Lemma Cleanup_shrinks t c : shrinks c (Cleanup t c).2.
Proof. split; [done|]. apply map_filter_subseteq. Qed.

(** The context may be cancelled; issues and records stay. *)
Definition quiet (w w' : world) : Prop :=
  (w_ctx w' = None → w_ctx w = None) ∧ w_issues w' = w_issues w ∧ db_records (w_db w') = db_records (w_db w) ∧ shrinks (w_cache w) (w_cache w').
#[export] Instance quiet_preorder : PreOrder quiet.
Proof. split; [by intros w|]. intros w1 w2 w3 (Hc1 & Hi1 & Hr1 & Hd1) (Hc2 & Hi2 & Hr2 & Hd2). split_and!; [auto|congruence|congruence|by etrans]. Qed.

Lemma environment_quiet w w' : environment w w' → quiet w w'.
Proof. intros []; [done| |done]. split_and!; [done..|apply Cleanup_shrinks]. Qed.

(** Accounts grouped by server, and back. *)
Definition jobs_of (m : gmap string (list AtprotoData)) : list (string * AtprotoData) := e ← map_to_list m; (e.1,.) <$> e.2.

Lemma jobs_add m data : jobs_of (add_to_pds m data) ≡ₚ (ad_PDS data, data) :: jobs_of m.
Proof.
  unfold jobs_of, add_to_pds. destruct (m !! ad_PDS data) as [l|] eqn:E; cbn [default].
  - assert (Hins : ∀ x, map_to_list (<[ad_PDS data := x]> m) ≡ₚ (ad_PDS data, x) :: map_to_list (delete (ad_PDS data) m)).
    { intros x. rewrite <- (insert_delete_eq m). by rewrite map_to_list_insert by apply lookup_delete_eq. }
    rewrite (Hins (l ++ [data])). rewrite <- (insert_id m (ad_PDS data) l) at 2 by done. rewrite (Hins l).
    cbn. rewrite fmap_app. cbn. rewrite <- app_assoc. cbn. symmetry. apply Permutation_middle.
  - by rewrite map_to_list_insert.
Qed.

Lemma jobs_group resolved : jobs_of (group_by_pds resolved) ≡ₚ (λ data, (ad_PDS data, data)) <$> resolved.
Proof.
  unfold group_by_pds. assert (Hgo : ∀ m, jobs_of (foldl add_to_pds m resolved) ≡ₚ ((λ data, (ad_PDS data, data)) <$> resolved) ++ jobs_of m).
  { induction resolved as [|data resolved IH]; intros m; [done|]. cbn [foldl fmap list_fmap]. rewrite IH, jobs_add. by rewrite <- Permutation_middle. }
  rewrite Hgo. unfold jobs_of. by rewrite map_to_list_empty, app_nil_r.
Qed.

Section run.
Context `{Env} `{Http} `{CarReader}.
Context (cfg : Config) (validator : option RecordValidator) (activity : bool).
Context (float64_ok : string → bool) (is_cancellation : string → bool) (page_fuel : nat).

Notation list_repos := (ListReposByCollection (client cfg) page_fuel None).

(** ** Discovery *)

(** Listed accounts have no slash. *)
Context (repos_plain : ∀ ctx c l did, ListReposByCollection (client cfg) page_fuel ctx c = Ok l → did ∈ l → no_byte slash did = true).

(** Everything listed for the collections is known. *)
Definition discovered (cols : list string) (known : gset string) : Prop :=
  Forall (λ c, ∃ l, list_repos c = Ok l ∧ Forall (.∈ known) l) cols.

Definition cache_same (w w' : world) : Prop := w_cache w' = w_cache w.

Definition found_so_far (cols : list string) (known : gset string) (w : world) : Prop :=
  (∀ did, did ∈ known → no_byte slash did = true) ∧ (w_ctx w = None → co_total (w_issues w) = 0 → discovered cols known).

Lemma found_quiet cols known w w' : quiet w w' → found_so_far cols known w → found_so_far cols known w'.
Proof. intros (Hc & Hi & _) [Hp Hf]. split; [done|]. intros Hctx Ht. apply Hf; [auto|]. by rewrite <- Hi. Qed.

Lemma discover_collection_safe cols c known w :
  found_so_far cols known w → safe quiet cache_same (found_so_far (cols ++ [c])) (discover_collection cfg page_fuel known c) w.
Proof.
  intros Hf. unfold discover_collection.
  apply (safe_bind _ _ (λ ctx w', found_so_far cols known w' ∧ (w_ctx w' = None → ctx = None))).
  { apply safe_reads. intros w0 Hr0. split; [done|]. intros w2 Hr2. split; [|apply Hr2]. eapply found_quiet; [|exact Hf]. by etrans. }
  intros ctx w1 [Hf1 Hctx]. destruct (ListReposByCollection _ _ ctx c) as [repos|e] eqn:E.
  - apply safe_ret. intros w2 Hr2. destruct (found_quiet _ _ _ _ Hr2 Hf1) as [Hplain Hdone]. split.
    { intros did [Hd|Hd%elem_of_list_to_set]%elem_of_union; [by apply Hplain|]. by eapply repos_plain. }
    intros Hnone Ht. specialize (Hdone Hnone Ht). rewrite (Hctx (proj1 Hr2 Hnone)) in E. apply Forall_app. split; [|constructor; [|constructor]].
    + eapply Forall_impl; [exact Hdone|]. intros c' (l & Hl & Hin). exists l. split; [done|]. eapply Forall_impl; [exact Hin|]. set_solver.
    + exists repos. split; [done|]. apply Forall_forall. set_solver.
  - apply (safe_bind _ _ (λ _ _, True)); [by apply safe_updates|]. intros _ w2 _.
    apply (safe_bind _ _ (λ _ w', co_total (w_issues w') ≠ 0)).
    + apply safe_updates. intros w3 _. split; [done|]. intros w4 (_ & Hi & _). rewrite Hi. cbn. lia.
    + intros _ w3 Ht. apply safe_ret. intros w4 (_ & Hi & _). split; [apply Hf1|]. intros _ Hz. by rewrite Hi in Hz.
Qed.

Lemma discover_safe w : safe quiet cache_same (found_so_far (cfg_Collections cfg)) (discover cfg page_fuel) w.
Proof.
  unfold discover, start_run. apply (safe_bind _ _ (λ _ _, True)).
  { apply (safe_bind _ _ (λ _ _, True)); [by apply safe_reads|]. intros t w1 _. apply (safe_bind _ _ (λ _ _, True)); [by apply safe_updates|].
    intros _ w2 _. by apply safe_updates. }
  intros _ w1 _. apply (safe_bind _ _ (found_so_far (cfg_Collections cfg))).
  { apply (safe_fold _ _ found_so_far).
    - intros dn c known w2 Hf _. by apply discover_collection_safe.
    - intros dn known w2 w3 Hr Hf. by eapply found_quiet.
    - split; [set_solver|]. intros _ _. constructor. }
  intros repos w2 Hf. apply (safe_bind _ _ (λ _, found_so_far (cfg_Collections cfg) repos)).
  { apply safe_updates. intros w3 Hr3. split; [done|]. intros w4 Hr4. eapply found_quiet; [exact Hr4|].
    exact (found_quiet _ _ _ _ Hr3 Hf). }
  intros _ w3 Hf3. apply safe_ret. intros w4 Hr4. by eapply found_quiet.
Qed.

(** ** Resolution *)

(** A document that was in the cache at the start or that resolving gave. *)
Definition resolved_as (c0 : DIDCache) (did : string) (doc : DIDDocument) : Prop :=
  (∃ n, ResolveDID (dc_plcDirectoryURL c0) n did = Ok doc) ∨ ∃ e, dc_cache c0 !! did = Some e ∧ cd_Document e = doc.

Definition cache_ok (c0 c : DIDCache) : Prop :=
  dc_plcDirectoryURL c = dc_plcDirectoryURL c0 ∧ ∀ did e, dc_cache c !! did = Some e → resolved_as c0 did (cd_Document e).

Lemma cache_ok_refl c0 : cache_ok c0 c0.
Proof. split; [done|]. intros did e He. right. by exists e. Qed.

Lemma cache_ok_shrinks c0 c c' : shrinks c c' → cache_ok c0 c → cache_ok c0 c'.
Proof. intros [Hp' Hs] [Hp Hc]. split; [by rewrite Hp'|]. intros did e He. apply Hc. by eapply lookup_weaken. Qed.

Definition resolving (c0 : DIDCache) (w w' : world) : Prop := onwards w w' ∧ (cache_ok c0 (w_cache w) → cache_ok c0 (w_cache w')).
#[local] Instance resolving_preorder c0 : PreOrder (resolving c0).
Proof. split; [by intros w|]. intros w1 w2 w3 [Ho1 Hc1] [Ho2 Hc2]. split; [by etrans|auto]. Qed.

Lemma environment_resolving c0 w w' : environment w w' → resolving c0 w w'.
Proof. intros []; [done| |done]. split; [done|]. apply cache_ok_shrinks, Cleanup_shrinks. Qed.

Notation safe_res c0 := (safe (resolving c0) (resolving c0)).

Lemma safe_cache c0 f w : (∀ c, cache_ok c0 c → cache_ok c0 (f c)) → safe_res c0 (λ _ _, True) (updates (on_cache f)) w.
Proof. intros Hf. apply safe_updates. intros w1 _. split; [|done]. by split; [|apply Hf]. Qed.

Lemma GetWithInvalidate_safe c0 n did b w : cache_ok c0 (w_cache w) →
  safe_res c0 (λ o w', cache_ok c0 (w_cache w') ∧ ∀ doc, o = Ok doc → resolved_as c0 did doc) (GetWithInvalidate w_cache on_cache now n did b) w.
Proof.
  intros Hok. assert (Hkeep : ∀ {A} (Φ : A → world → Prop) p w, cache_ok c0 (w_cache w) → safe_res c0 Φ p w → safe_res c0 (λ a w', Φ a w' ∧ cache_ok c0 (w_cache w')) p w).
  { intros A Φ p w1 Hw1 Hs. apply safe_keep; [by intros w2 w3 [_ Hc]|by intros w2 w3 [_ Hc]|done|done]. }
  unfold GetWithInvalidate. apply (safe_bind _ _ (λ _ w', True ∧ cache_ok c0 (w_cache w'))).
  { apply Hkeep; [done|]. destruct b; [|done]. apply safe_cache. intros c [Hp Hc]. split; [done|].
    cbn. intros d e [_ He]%lookup_delete_Some. by apply Hc. }
  intros _ w1 [_ Hok1]. apply (safe_bind _ _ (λ found w', (∀ doc, found = Some doc → resolved_as c0 did doc) ∧ cache_ok c0 (w_cache w'))).
  { apply Hkeep; [done|]. apply safe_reads. intros w2 [_ Hc2]. split; [reflexivity|]. intros w3 _ doc Hdoc. unfold cached in Hdoc.
    destruct (dc_cache (w_cache w2) !! did) as [e|] eqn:E; [|done]. cbn in Hdoc. destruct (IsExpired _ _); [done|]. injection Hdoc as <-.
    by apply (Hc2 Hok1). }
  intros [doc|] w2 [Hfound Hok2].
  { apply safe_ret. intros w3 [_ Hc3]. split; [auto|]. intros d [= <-]. auto. }
  unfold resolveFresh. apply (safe_bind _ _ (λ plc w', plc = dc_plcDirectoryURL c0 ∧ cache_ok c0 (w_cache w'))).
  { apply Hkeep; [done|]. apply safe_reads. intros w3 [_ Hc3]. split; [reflexivity|]. intros _ _. apply (Hc3 Hok2). }
  intros plc w3 [-> Hok3]. destruct (ResolveDID (dc_plcDirectoryURL c0) n did) as [doc|e] eqn:E.
  2: { apply safe_ret. intros w4 [_ Hc4]. split; [auto|done]. }
  assert (Hdoc : resolved_as c0 did doc) by (left; by exists n).
  apply (safe_bind _ _ (λ _ w', True ∧ cache_ok c0 (w_cache w'))); [apply Hkeep; [done|]; apply safe_reads; by intros w4 _|].
  intros t w4 [_ Hok4]. apply (safe_bind _ _ (λ _ w', True ∧ cache_ok c0 (w_cache w'))).
  { apply Hkeep; [done|]. apply safe_cache. intros c [Hp Hc]. split; [done|]. cbn. intros d e [[<- <-]|[_ He]]%lookup_insert_Some; [done|by apply Hc]. }
  intros _ w5 [_ Hok5]. apply safe_ret. intros w6 [_ Hc6]. split; [auto|]. by intros d [= <-].
Qed.

(** What a resolving goroutine leaves: the account, or an issue. *)
Definition resolve_post (c0 : DIDCache) (did : string) (r : option AtprotoData) (w : world) : Prop :=
  (co_total (w_issues w) = 0 → is_Some r) ∧ ∀ data, r = Some data → ∃ doc, resolved_as c0 did doc ∧ data = account did doc.

Lemma resolve_safe c0 did w : cache_ok c0 (w_cache w) → safe_res c0 (resolve_post c0 did) (resolve_worker did) w.
Proof.
  intros Hok. unfold resolve_worker. eapply safe_bind; [apply _|by apply GetWithInvalidate_safe|]. intros found w1 [Hok1 Hfound].
  apply (safe_bind _ _ (λ o w', cache_ok c0 (w_cache w') ∧ ∀ doc, o = Ok doc → resolved_as c0 did doc)).
  { destruct found as [doc|e]; [|by apply GetWithInvalidate_safe]. apply safe_ret. intros w2 [_ Hc2]. auto. }
  intros [doc|e] w2 [Hok2 Hdoc].
  - apply safe_ret. intros w3 _. split; [by eexists|]. intros data [= <-]. exists doc. auto.
  - apply (safe_bind _ _ (λ _ _, True)); [by apply safe_updates|]. intros _ w3 _.
    apply (safe_bind _ _ (λ _ w', co_total (w_issues w') ≠ 0)).
    + apply safe_updates. intros w4 _. split; [split; [|done]; split; [done|cbn; lia]|]. intros w5 [[_ Ht] _]. cbn in Ht. lia.
    + intros _ w4 Ht. apply safe_ret. intros w5 [[_ Ht5] _]. split; [lia|done].
Qed.

(** ** The phases *)

Context (listings_named : ∀ did, well_named page_fuel did) (collections_distinct : NoDup (cfg_Collections cfg)).

Lemma resolve_phase c0 repoList w1 found w2 :
  cache_ok c0 (w_cache w1) → par environment (resolve_worker <$> repoList) w1 found w2 →
  onwards w1 w2 ∧ length found = length repoList ∧
  ∀ i r, found !! i = Some r → ∃ did, repoList !! i = Some did ∧ resolve_post c0 did r w2.
Proof.
  intros Hok Hpar.
  destruct (par_safe repoList environment (resolving c0) (λ _, resolving c0) (λ _, resolving c0) (resolve_post c0)) with (resolve_worker <$> repoList) w1 found w2
    as (HΦ & Hlen & HT); [done|intros; by apply environment_resolving|done|intros; by apply environment_resolving|done| |].
  - intros i p Hp. rewrite list_lookup_fmap in Hp. apply fmap_Some in Hp as (did & Hdid & ->). exists did. split; [done|]. by apply resolve_safe.
  - split_and!; [apply HT|by rewrite length_fmap in Hlen|done].
Qed.

Notation worker j := (repo_worker cfg validator activity float64_ok is_cancellation page_fuel j.1 j.2).

Lemma worker_phase jobs w3 counts w4 :
  NoDup ((λ j : string * AtprotoData, ad_DID j.2) <$> jobs) → (∀ j, j ∈ jobs → no_byte slash (ad_DID j.2) = true) →
  par environment ((λ j : string * AtprotoData, worker j) <$> jobs) w3 counts w4 →
  onwards w3 w4 ∧ (w_ctx w4 = None → co_total (w_issues w4) = 0 →
    ∀ j, j ∈ jobs → served_stored cfg page_fuel (ad_DID j.2) j.1 w4).
Proof.
  intros Hnd Hplain Hpar.
  destruct (par_safe jobs environment onwards (λ j, rely (ad_DID j.2)) (λ j, guarantee (ad_DID j.2))
    (λ j (_ : nat) w', w_ctx w' = None → co_total (w_issues w') = 0 → served_stored cfg page_fuel (ad_DID j.2) j.1 w'))
    with ((λ j : string * AtprotoData, worker j) <$> jobs) w3 counts w4 as (HΦ & Hlen & HT).
  - intros i k b c w w' Hne Hi Hk. apply interfere. intros Heq. apply Hne. eapply (NoDup_lookup _ _ _ (ad_DID b.2) Hnd); rewrite list_lookup_fmap.
    + by rewrite Hi.
    + rewrite Hk. cbn. by rewrite Heq.
  - intros b w w' _. apply environment_rely.
  - intros b w w' _ (Hc & Ht & _). split; [by rewrite Hc|done].
  - apply environment_onwards.
  - done.
  - intros i p Hp. rewrite list_lookup_fmap in Hp. apply fmap_Some in Hp as (j & Hj & ->). exists j. split; [done|].
    apply worker_safe; [by apply Hplain; eapply list_elem_of_lookup_2|apply listings_named|done|done].
  - split; [done|]. intros Hctx Ht j Hj. apply list_elem_of_lookup in Hj as [i Hi].
    destruct (lookup_lt_is_Some_2 counts i) as [n Hn]; [rewrite Hlen, length_fmap; by eapply lookup_lt_Some|].
    destruct (HΦ i n Hn) as (j' & Hj' & Hpost). assert (j' = j) as -> by congruence. auto.
Qed.

Lemma store_phase resolved w2 w3 : runs (store_actors resolved) w2 tt w3 → onwards w2 w3.
Proof.
  intros Hruns. apply (run_safe environment onwards onwards (λ _ w', True ∧ onwards w2 w') (store_actors resolved)) with (a := tt) (w := w2).
  - apply environment_onwards.
  - exact Hruns.
  - apply safe_keep; [by intros w w' Hr Hw; etrans|by intros w w' Hr Hw; etrans|reflexivity|]. unfold store_actors. case_bool_decide; [done|].
    apply (safe_bind _ _ (λ _ _, True)); [|done]. apply safe_atomically. intros w0 fs o w1 fs' _ Hrun. unfold zoom in Hrun.
    destruct (BatchUpsert _ (w_db w0) fs) as [[o1 d1] fs1]. by injection Hrun as <- <- <-.
Qed.

Lemma finish_phase w4 err w' :
  runs finish_run w4 err w' → err = None → w_ctx w4 = None ∧ co_total (w_issues w4) = 0 ∧ db_records (w_db w') = db_records (w_db w4).
Proof.
  intros Hruns He. enough (H' : (err = None → w_ctx w4 = None ∧ co_total (w_issues w4) = 0) ∧ quiet w4 w') by (destruct H' as [H' (_ & _ & Hr & _)]; by destruct (H' He)).
  apply (run_safe environment quiet quiet (λ err w', (err = None → w_ctx w4 = None ∧ co_total (w_issues w4) = 0) ∧ quiet w4 w') finish_run) with (a := err) (w := w4).
  - apply environment_quiet.
  - exact Hruns.
  - apply safe_keep; [by intros w1 w2 Hr Hw; etrans|by intros w1 w2 Hr Hw; etrans|reflexivity|]. unfold finish_run.
    apply (safe_bind _ _ (λ _ w2, quiet w4 w2)); [by apply safe_reads; intros w0 Hr; split; [|intros w2 Hr2; etrans]|].
    intros t w0 Hr0. apply (safe_bind _ _ (λ _ w2, quiet w4 w2)).
    { apply safe_updates. intros w1 Hr1. split; [done|]. intros w2 Hr2. etrans; [exact Hr0|]. etrans; [exact Hr1|].
      etrans; [|exact Hr2]. done. }
    intros _ w1 Hr1. apply (safe_bind _ _ (λ ctx w2, quiet w4 w2 ∧ (ctx = None → w_ctx w4 = None))).
    { apply safe_reads. intros w2 Hr2. split; [done|]. assert (Hr42 : quiet w4 w2) by by etrans. intros w3 Hr3. split; [by etrans|].
      intros Hctx. by apply Hr42. }
    intros [e|] w2 [Hr2 Hctx]; [by apply safe_ret|]. apply safe_reads. intros w3 Hr3. split; [done|]. intros w5 _ Hnone.
    split; [by apply Hctx|]. assert (Hr43 : quiet w4 w3) by by etrans. destruct Hr43 as (_ & Hi & _). rewrite <- Hi.
    unfold collector_err in Hnone. by destruct (co_total (w_issues w3)).
Qed.

Lemma repo_workers_jobs m :
  repo_workers cfg validator activity float64_ok is_cancellation page_fuel m = (λ j : string * AtprotoData, worker j) <$> jobs_of m.
Proof.
  unfold repo_workers, jobs_of, mbind. induction (map_to_list m) as [|[pds l] rest IH]; [done|]. cbn. rewrite fmap_app. f_equal; [|done].
  by rewrite <- list_fmap_compose.
Qed.

Lemma found_sublist (found : list (option AtprotoData)) repoList :
  length found = length repoList →
  (∀ i r, found !! i = Some r → ∃ did, repoList !! i = Some did ∧ ∀ data, r = Some data → ad_DID data = did) →
  (ad_DID <$> omap id found) `sublist_of` repoList.
Proof.
  revert repoList. induction found as [|r found IH]; intros [|did repoList] Hlen Hall; try done.
  assert (Hrest : (ad_DID <$> omap id found) `sublist_of` repoList).
  { apply IH; [by injection Hlen|]. intros i r' Hr'. by apply (Hall (S i)). }
  destruct (Hall 0 r eq_refl) as (d & [= <-] & Hd). destruct r as [data|]; cbn.
  - rewrite (Hd data eq_refl). by apply sublist_skip.
  - by apply sublist_cons.
Qed.

(** C10. A backfill that reports no error is complete: however its goroutines took turns, whatever was
    cancelled late, and whichever statements failed, every collection could be listed, every account listed
    resolves to a document, and from the server it names every record was fetched, as a CAR or
    by listings, and is in the database under its URI with its CID - provided the configured collections are distinct, listed
    accounts have no slash, and listings name records of what was asked for. *)
Theorem backfill_complete w w' :
  Run cfg validator activity float64_ok is_cancellation page_fuel w None w' →
  ∀ c, c ∈ cfg_Collections cfg → ∃ l, list_repos c = Ok l ∧
    ∀ did, did ∈ l → ∃ doc, resolved_as (w_cache w) did doc ∧ served_stored cfg page_fuel did (ad_PDS (account did doc)) w'.
Proof.
  intros Hrun c Hc. assert (Hdisc : ∀ repos w1, runs (discover cfg page_fuel) w repos w1 → found_so_far (cfg_Collections cfg) repos w1 ∧ shrinks (w_cache w) (w_cache w1)).
  { intros repos w1 Hruns. apply (run_safe environment quiet cache_same (λ repos w1, found_so_far (cfg_Collections cfg) repos w1 ∧ shrinks (w_cache w) (w_cache w1))
      (discover cfg page_fuel)) with (a := repos) (w := w); [apply environment_quiet|done|].
    apply safe_keep; [by intros w2 w3 (_ & _ & _ & Hs) Hs'; etrans|by intros w2 w3 ->|done|apply discover_safe]. }
  inversion Hrun as [w1 ? ? Hd Hf|repos w1 repoList found w2 resolved w3 workers counts w4 ? ? Hd Hne Hperm Hres Hreslist Hstore Hworkers Hpar Hf]; subst.
  { destruct (Hdisc _ _ Hd) as [Hfound _]. destruct (finish_phase _ _ _ Hf eq_refl) as (Hctx & Ht & _).
    assert (Hall := proj2 Hfound Hctx Ht). unfold discovered in Hall. rewrite Forall_forall in Hall. destruct (Hall c Hc) as (l & Hl & Hin). exists l. split; [done|].
    intros did Hdid. rewrite Forall_forall in Hin. set_solver. }
  destruct (Hdisc _ _ Hd) as [Hfound Hcache]. destruct (finish_phase _ _ _ Hf eq_refl) as (Hctx4 & Ht4 & Hrec).
  destruct (resolve_phase (w_cache w) repoList w1 found w2) as (Ho12 & Hlen & Hpost); [by eapply cache_ok_shrinks, cache_ok_refl|done|].
  assert (Ho23 := store_phase _ _ _ Hstore).
  rewrite repo_workers_jobs in Hworkers. apply Permutation_map_inv in Hworkers as (jobs & -> & Hjobs).
  rewrite jobs_group in Hjobs. symmetry in Hjobs.
  assert (Hsub : (ad_DID <$> omap id found) `sublist_of` repoList).
  { apply found_sublist; [done|]. intros i r Hr. destruct (Hpost i r Hr) as (did & Hdid & _ & Hdata). exists did. split; [done|].
    intros data ->. by destruct (Hdata data eq_refl) as (doc & _ & ->). }
  assert (Hnd : NoDup ((λ j : string * AtprotoData, ad_DID j.2) <$> jobs)).
  { rewrite Hjobs, <- list_fmap_compose. change (NoDup (ad_DID <$> resolved)). rewrite Hreslist.
    eapply sublist_NoDup; [|exact Hsub]. rewrite Hperm. apply NoDup_elements. }
  assert (Hin_repos : ∀ did, did ∈ repoList → did ∈ repos) by (intros did Hd'; rewrite Hperm in Hd'; by apply elem_of_elements).
  destruct (worker_phase jobs w3 counts w4 Hnd) as (Ho34 & Hserved); [|exact Hpar|].
  { intros j Hj. apply (list_elem_of_fmap_2 (λ j : string * AtprotoData, ad_DID j.2)) in Hj. rewrite Hjobs, <- list_fmap_compose in Hj.
    change (ad_DID j.2 ∈ (ad_DID <$> resolved)) in Hj. rewrite Hreslist in Hj.
    apply (proj1 Hfound), Hin_repos. by eapply elem_of_sublist. }
  destruct Ho34 as [Hc34 Ht34], Ho23 as [Hc23 Ht23], Ho12 as [Hc12 Ht12].
  assert (Hall : discovered (cfg_Collections cfg) repos) by (apply Hfound; [auto|lia]).
  unfold discovered in Hall. rewrite Forall_forall in Hall. destruct (Hall c Hc) as (l & Hl & Hin). exists l. split; [done|].
  intros did Hdid. rewrite Forall_forall in Hin. assert (Hd' : did ∈ repoList) by (rewrite Hperm; by apply elem_of_elements, Hin).
  apply list_elem_of_lookup in Hd' as [i Hi]. destruct (lookup_lt_is_Some_2 found i) as [r Hr]; [rewrite Hlen; by eapply lookup_lt_Some|].
  destruct (Hpost i r Hr) as (did' & Hdid' & Hsome & Hdata). assert (did' = did) as -> by congruence.
  destruct Hsome as [data ->]; [lia|]. destruct (Hdata data eq_refl) as (doc & Hdoc & ->).
  exists doc. split; [done|]. eapply (served_stored_records _ _ _ _ w4); [done|].
  apply (Hserved Hctx4 Ht4 (ad_PDS (account did doc), account did doc)). rewrite Hjobs. apply list_elem_of_fmap. exists (account did doc). split; [done|].
  rewrite Hreslist. apply list_elem_of_omap. exists (Some (account did doc)). split; [by eapply list_elem_of_lookup_2|done].
Qed.
End run.

(** ** One actor *)

Section actor.
Context `{Env} `{Http} `{CarReader}.
Context (cfg : Config) (validator : option RecordValidator) (activity : bool).
Context (float64_ok : string → bool) (page_fuel : nat).

Lemma client_resolved_did c ctx did data : client_ResolveDID c ctx did = Ok data → ad_DID data = did.
Proof. unfold client_ResolveDID, fmap, outcome_fmap. destruct (fetch _ _ _ _); [|done]. by intros [= <-]. Qed.

(** C11. A backfill of one account that reports no error is complete too: the account resolved, and
    everything its server has of the configured collections was fetched and is stored. *)
Theorem actor_backfill_complete did n w w' :
  no_byte slash did = true → well_named page_fuel did → NoDup (cfg_Collections cfg) →
  runs (BackfillActor cfg validator activity float64_ok page_fuel did) w (n, None) w' → w_ctx w' = None →
  ∃ data, client_ResolveDID (client cfg) None did = Ok data ∧ ad_DID data = did ∧ served_stored cfg page_fuel did (ad_PDS data) w'.
Proof.
  intros Hplain Hnamed Hnd Hruns Hctx.
  destruct (run_safe environment (rely did) (guarantee did) (λ r w', w_ctx w' = None → r.2 = None →
      ∃ data, client_ResolveDID (client cfg) None did = Ok data ∧ served_stored cfg page_fuel did (ad_PDS data) w')
      (BackfillActor cfg validator activity float64_ok page_fuel did)) with (a := (n, None : option string)) (w := w) (w' := w')
    as (data & Hres & Hserved); [|exact Hruns| |exact Hctx|done|].
  - intros w1 w2. apply environment_rely.
  - apply actor_safe; [done..|]. intros ctx data. apply client_resolved_did.
  - exists data. split; [done|]. split; [by eapply client_resolved_did|done].
Qed.
End actor.

(** ** A run followed

    One account, whose server gives a CAR with one record of the collection and one of another. *)

Lemma runs_alone {A} (p : proc world A) w : runs p w (run_proc p w).1 (run_proc p w).2.
Proof. unfold runs. assert (Hpar := run_all_par environment [p] w). cbn in Hpar. by destruct (run_proc p w). Qed.

Definition small_config : Config := mkConfig DefaultRelayURL DefaultPLCURL ["app.x"] 50 10 6 50.

(** A file is its paths, CIDs and values; the values are JSON already. *)
#[local] Instance text_cars : CarReader := {|
  Car := list (string * (string * string));
  ReadRepoFromCar text := if (text =? "car")%string
    then inr [("app.x/1", ("c1", quoted "{'n':1}")); ("app.y/1", ("c2", "{}"))] else inl (mkFailure false "not a CAR");
  car_entries r := (λ e, (e.1, e.2.1)) <$> r;
  car_end _ := None;
  GetRecordBytes r path := match head (filter (λ e, e.1 = path) r) with Some e => Ok (e.2.1, Some e.2.2) | None => Err "not found" end;
  repo_ctx_err _ _ := None;
  AtData := string;
  UnmarshalCBOR := Ok;
  MarshalData := Ok;
|}.

(** A relay and a server; [car]: whether the server gives CAR files. Listings name a record of someone else. *)
Definition small_http (car : bool) : Http := {|
  http_get _ _ rq := match get_query rq with
    | ("collection", _) :: _ => Response 200 (Ok (quoted "{'repos':[{'did':'did:plc:a'}]}"))
    | ("did", _) :: _ => if car then Response 200 (Ok "car") else Response 404 (Ok "")
    | ("repo", _) :: _ => if car then Response 404 (Ok "")
        else Response 200 (Ok (quoted "{'records':[{'uri':'at://did:plc:b/app.x/1','cid':'c2','value':{}}]}"))
    | _ => Response 200 (Ok (quoted "{'id':'did:plc:a','service':[{'type':'AtprotoPersonalDataServer','serviceEndpoint':'https://pds'}]}"))
    end;
  url_parses _ := true;
|}.

Section followed.
#[local] Existing Instance byte_order.
#[local] Instance backfill_env : Env := example_env SQLite.

Definition before_run : world := mkWorld (empty_db 100) (mkStats 0 0 0 0 0 0 None) no_errors (NewDIDCache None None) None.

Section car.
#[local] Instance car_http : Http := small_http true.
Notation worker := (repo_worker small_config (Some Disabled) true (λ _, true) (λ _, false) 3).

Definition data_a : AtprotoData := mkAtprotoData "did:plc:a" "" "https://pds".
Definition run_found := run_proc (discover small_config 3) before_run.
Definition run_resolved := run_all [resolve_worker "did:plc:a"] run_found.2.
Definition run_actors := run_proc (store_actors [data_a]) run_resolved.2.
Definition run_worked := run_all [worker "https://pds" data_a] run_actors.2.
Definition run_finished := run_proc finish_run run_worked.2.

Lemma small_run : Run small_config (Some Disabled) true (λ _, true) (λ _, false) 3 before_run None run_finished.2.
Proof.
  eapply (run_repos _ _ _ _ _ _ _ {[ "did:plc:a" ]} _ ["did:plc:a"] [Some data_a] _ [data_a] _ [worker "https://pds" data_a] [1]).
  - assert (Hr := runs_alone (discover small_config 3) before_run). fold run_found in Hr.
    replace run_found.1 with ({[ "did:plc:a" ]} : gset string) in Hr by (vm_compute; reflexivity). exact Hr.
  - vm_compute. discriminate.
  - by rewrite elements_singleton.
  - assert (Hr := run_all_par environment [resolve_worker "did:plc:a"] run_found.2). fold run_resolved in Hr.
    replace run_resolved.1 with [Some data_a] in Hr by (vm_compute; reflexivity). exact Hr.
  - done.
  - assert (Hr := runs_alone (store_actors [data_a]) run_resolved.2). fold run_actors in Hr.
    replace run_actors.1 with tt in Hr by (vm_compute; reflexivity). exact Hr.
  - rewrite repo_workers_jobs. replace (jobs_of (group_by_pds [data_a])) with [("https://pds", data_a)] by (vm_compute; reflexivity). done.
  - assert (Hr := run_all_par environment [worker "https://pds" data_a] run_actors.2). fold run_worked in Hr.
    replace run_worked.1 with [1] in Hr by (vm_compute; reflexivity). exact Hr.
  - assert (Hr := runs_alone finish_run run_worked.2). fold run_finished in Hr.
    replace run_finished.1 with (None : option string) in Hr by (vm_compute; reflexivity). exact Hr.
Qed.

Lemma backfill_complete_witness :
  stored run_finished.2 "at://did:plc:a/app.x/1" "c1" ∧
  ∃ l, ListReposByCollection (client small_config) 3 None "app.x" = Ok l ∧
    ∀ did, did ∈ l → ∃ doc, resolved_as (w_cache before_run) did doc ∧ served_stored small_config 3 did (ad_PDS (account did doc)) run_finished.2.
Proof.
  split; [eexists; split; vm_compute; reflexivity|].
  apply (backfill_complete small_config (Some Disabled) true (λ _, true) (λ _, false) 3) with (w := before_run).
  - intros ctx c l did E Hin. vm_compute in E. injection E as <-. apply list_elem_of_singleton in Hin as ->. reflexivity.
  - intros did pds c recs E. vm_compute in E. discriminate.
  - apply NoDup_singleton.
  - exact small_run.
  - left.
Defined.

Definition actor_run := run_proc (BackfillActor small_config (Some Disabled) true (λ _, true) 3 "did:plc:a") before_run.

Lemma actor_backfill_complete_witness :
  actor_run.1 = (1, None) ∧
  ∃ data, client_ResolveDID (client small_config) None "did:plc:a" = Ok data ∧ ad_DID data = "did:plc:a" ∧
    served_stored small_config 3 "did:plc:a" (ad_PDS data) actor_run.2.
Proof.
  assert (Hend : actor_run.1 = (1, None)) by (vm_compute; reflexivity). split; [exact Hend|].
  apply (actor_backfill_complete small_config (Some Disabled) true (λ _, true) 3 "did:plc:a" 1 before_run).
  - reflexivity.
  - intros pds c recs E. vm_compute in E. discriminate.
  - apply NoDup_singleton.
  - assert (Hr := runs_alone (BackfillActor small_config (Some Disabled) true (λ _, true) 3 "did:plc:a") before_run). fold actor_run in Hr.
    rewrite Hend in Hr. exact Hr.
  - vm_compute. reflexivity.
Defined.
End car.

(** Without a CAR the server's listings are stored under whatever URIs they give: here the backfill of one
    account replaces a record of another. *)
Section listings.
#[local] Instance listing_http : Http := small_http false.

Definition others_record : row := mkRow "c1" "did:plc:b" "app.x" "{}" 0 None "valid" None None None.
Definition before_listing : world :=
  mkWorld (set_records (λ _, {[ "at://did:plc:b/app.x/1" := others_record ]}) (empty_db 100)) (mkStats 0 0 0 0 0 0 None) no_errors (NewDIDCache None None) None.

Example listing_overwrites_another_account :
  let '((n, err), w') := run_proc (BackfillActor small_config (Some Disabled) true (λ _, true) 3 "did:plc:a") before_listing in
  n = 1 ∧ err = None ∧ row_did <$> db_records (w_db w') !! "at://did:plc:b/app.x/1" = Some "did:plc:a".
Proof. vm_compute. done. Qed.
End listings.

(** A listing that gives the same cursor again is followed for ever: with any fuel, the pages run out of it. *)
Section endless.
#[local] Instance endless_http : Http := {|
  http_get _ _ _ := Response 200 (Ok (quoted "{'repos':[],'cursor':'again'}"));
  url_parses _ := true;
|}.

Example cursor_followed_forever fuel ctx c : ListReposByCollection (client small_config) fuel ctx c = Err "more pages than followed".
Proof.
  enough (Hgo : ∀ n cursor acc, all_pages (listReposByCollectionPage (client small_config) ctx c) fuel n cursor acc = Err "more pages than followed")
    by apply Hgo.
  induction fuel as [|fuel IH]; intros n cursor acc; [done|].
  cbn [all_pages]. assert (E : listReposByCollectionPage (client small_config) ctx c n cursor = Ok ([], "again")) by (vm_compute; reflexivity).
  unfold mbind, outcome_bind. rewrite E. cbn. rewrite app_nil_r. apply IH.
Qed.
End endless.
End followed.
