(* ===== verification/HandleReconciler.v ===== *)
(** * Handle reconciliation

    src/internal/tap/admin.go and handle_reconciler.go: at startup the handles that actors
    lack are read from Tap, page by page, the accounts of a page concurrently, while the
    rest of the server goes on. A goroutine of the pool works on one account at a time; how
    many there are bounds only how many accounts are in progress, so there is one goroutine
    per account here. *)
From S2P Require Import Prelude GoStrings Json Effects Database RecordStore DeleteProps Actors Base64 Processes DidDocuments BackfillClient.

(** ** Tap's admin API (admin.go) *)

(** A request: its body is a list of DIDs, or nothing. *)
Record tap_request := mkTapRequest { tr_method : string; tr_url : string; tr_dids : option (list string); tr_auth : option string }.

Record AdminClient := mkAdminClient { ac_baseURL : string; ac_password : string }.

Record RepoInfoResponse := mkRepoInfo { ri_DID : string; ri_Handle : string; ri_Status : string; ri_Rev : string }.

Definition unmarshal_repo_info (ms : list member) : option RepoInfoResponse :=
  did ← string_field "did" ms; handle ← string_field "handle" ms; status ← string_field "status" ms; rev ← string_field "rev" ms;
  Some (mkRepoInfo did handle status rev).

Definition setAuth (c : AdminClient) : option string :=
  if (ac_password c =? "")%string then None else Some ("Basic " +:+ StdEncode ("admin:" +:+ ac_password c)).

(** Sending a request under a context, as its error. *)
Class Transport := { tap_do : option string → tap_request → reply; tap_url_ok : string → bool }.

Section admin.
Context `{Transport} (c : AdminClient).

Definition send (ctx : option string) (created what method path : string) (dids : option (list string)) : outcome (Z * outcome string) :=
  let url := ac_baseURL c +:+ path in
  if negb (tap_url_ok url) then Err ("failed to create " +:+ created)
  else match tap_do ctx (mkTapRequest method url dids (setAuth c)) with
  | NoReply _ e => Err (what +:+ " failed: " +:+ e)
  | Response status body => Ok (status, body)
  end.

Definition Health (ctx : option string) : outcome unit :=
  '(status, body) ← send ctx "health request" "health request" "GET" "/health" None;
  if negb (status =? 200)%Z then Err ("health check returned HTTP " +:+ itoa status)
  else
    health ← decode_struct (string_field "status") body;
    if negb (health =? "ok")%string then Err ("tap reported unhealthy status: " +:+ health) else Ok tt.

Definition admin_RepoInfo (ctx : option string) (did : string) : outcome RepoInfoResponse :=
  '(status, body) ← send ctx "repo info request" "repo info request" "GET" ("/info/" +:+ did) None;
  if negb (status =? 200)%Z then Err ("repo info returned HTTP " +:+ itoa status) else decode_struct unmarshal_repo_info body.

Definition postDIDs (ctx : option string) (path : string) (dids : list string) : outcome unit :=
  '(status, _) ← send ctx "request" ("request to " +:+ path) "POST" path (Some dids);
  if ((status <? 200) || (300 <=? status))%Z then Err ("request to " +:+ path +:+ " returned HTTP " +:+ itoa status) else Ok tt.

Definition AddRepos (ctx : option string) (dids : list string) : outcome unit := postDIDs ctx "/repos/add" dids.
Definition RemoveRepos (ctx : option string) (dids : list string) : outcome unit := postDIDs ctx "/repos/remove" dids.
End admin.

(** [RepoInfoClient]; the answer is a pointer. *)
Class RepoInfoClient := { RepoInfo : option string → string → outcome (option RepoInfoResponse) }.

Definition admin_client `{Transport} (c : AdminClient) : RepoInfoClient := {| RepoInfo ctx did := Some <$> admin_RepoInfo c ctx did |}.

(** ** The pass (handle_reconciler.go) *)

Definition handleReconcileBatchSize : Z := 250.

Record HandleReconciliationStats := mkStats { hs_Scanned : Z; hs_Updated : Z; hs_Unresolved : Z; hs_AlreadyResolved : Z; hs_Failed : Z }.

Record handleReconciliationResult := mkResult { hr_updated : bool; hr_unresolved : bool; hr_alreadyResolved : bool; hr_failed : bool }.
Definition was_updated : handleReconciliationResult := mkResult true false false false.
Definition was_unresolved : handleReconciliationResult := mkResult false true false false.
Definition was_alreadyResolved : handleReconciliationResult := mkResult false false true false.
Definition was_failed : handleReconciliationResult := mkResult false false false true.

Definition add_scanned (n : nat) (s : HandleReconciliationStats) : HandleReconciliationStats :=
  mkStats (hs_Scanned s + Z.of_nat n) (hs_Updated s) (hs_Unresolved s) (hs_AlreadyResolved s) (hs_Failed s).

(** [switch] on a result *)
Definition count (s : HandleReconciliationStats) (r : handleReconciliationResult) : HandleReconciliationStats :=
  if hr_updated r then mkStats (hs_Scanned s) (hs_Updated s + 1) (hs_Unresolved s) (hs_AlreadyResolved s) (hs_Failed s)
  else if hr_unresolved r then mkStats (hs_Scanned s) (hs_Updated s) (hs_Unresolved s + 1) (hs_AlreadyResolved s) (hs_Failed s)
  else if hr_alreadyResolved r then mkStats (hs_Scanned s) (hs_Updated s) (hs_Unresolved s) (hs_AlreadyResolved s + 1) (hs_Failed s)
  else if hr_failed r then mkStats (hs_Scanned s) (hs_Updated s) (hs_Unresolved s) (hs_AlreadyResolved s) (hs_Failed s + 1)
  else s.

(** What an actor has: no row, a row without a handle, or a handle. *)
Definition handle_of (d : db) (did : string) : option (option string) := actor_handle <$> db_actors d !! did.

(** The database, the error of the context, and - for the statements of the theorems only - what the last
    writes of others left an actor with. *)
Record world := mkWorld { rw_db : db; rw_ctx : option string; rw_events : gmap string (option (option string)) }.

Definition put_db (d : db) (w : world) : world := mkWorld d (rw_ctx w) (rw_events w).
Definition on_db {A} (m : M db A) : proc world (outcome A) := atomically (zoom rw_db put_db m).

Section reconcile.
Context `{TextOrder} `{RepoInfoClient}.

Definition reconcileActorHandle (did : string) : proc world handleReconciliationResult :=
  ctx ← reads rw_ctx;
  match RepoInfo ctx did with
  | Err _ | Ok None => mret was_failed
  | Ok (Some info) =>
      if negb (ri_DID info =? did)%string then mret was_failed
      else if (ri_Handle info =? "")%string then mret was_unresolved
      else
        updated ← on_db (SetHandleIfMissing did (ri_Handle info));
        mret (match updated with Err _ => was_failed | Ok false => was_alreadyResolved | Ok true => was_updated end)
  end.

(** The top of the loop: the next accounts, none when the pass is over. *)
Definition next_page (afterDID : string) : proc world (outcome (list string)) :=
  ctx ← reads rw_ctx;
  match ctx with
  | Some e => mret (Err e)
  | None =>
      dids ← on_db (ListDIDsMissingHandle afterDID handleReconcileBatchSize);
      mret (wrap_err ("list actors with missing handles after " +:+ afterDID) dids)
  end.

(** [env]: what the rest of the server does. *)
Context (env : world → world → Prop).

Definition runs {A} (p : proc world A) (w : world) (a : A) (w' : world) : Prop := par env [p] w [a] w'.

(** Accounts are handed out in order, all of them unless the context is cancelled; results come in any order. *)
Inductive reconcileHandleBatch (w : world) (dids : list string) : list handleReconciliationResult → world → Prop :=
  | batch sent rest rs results w' :
      dids = sent ++ rest → (rest ≠ [] → is_Some (rw_ctx w')) →
      par env (reconcileActorHandle <$> sent) w rs w' → results ≡ₚ rs → reconcileHandleBatch w dids results w'.

(** After [n] batches: where the next page starts, and the counts. *)
Inductive rounds (w0 : world) : nat → string → HandleReconciliationStats → world → Prop :=
  | rounds_start : rounds w0 0 "" (mkStats 0 0 0 0 0) w0
  | rounds_batch n afterDID stats w dids w1 results w2 :
      rounds w0 n afterDID stats w → runs (next_page afterDID) w (Ok dids) w1 → dids ≠ [] →
      reconcileHandleBatch w1 dids results w2 →
      rounds w0 (S n) (default "" (last dids)) (foldl count (add_scanned (length dids) stats) results) w2.

(** The counts and the error returned. *)
Inductive ReconcileActorHandles (w0 : world) : HandleReconciliationStats → option string → world → Prop :=
  | reconcile_failed n afterDID stats w e w' :
      rounds w0 n afterDID stats w → runs (next_page afterDID) w (Err e) w' → ReconcileActorHandles w0 stats (Some e) w'
  | reconcile_done n afterDID stats w w' :
      rounds w0 n afterDID stats w → runs (next_page afterDID) w (Ok []) w' → ReconcileActorHandles w0 stats None w'.
End reconcile.

(** ** Who writes a handle *)

Section laws.
Context `{TextOrder} `{RepoInfoClient}.

(** Others write what they want; an actor they change is one they announce. *)
Definition announced (w w' : world) : Prop :=
  (is_Some (rw_ctx w) → rw_ctx w' = rw_ctx w) ∧
  ∀ did, handle_of (rw_db w') did = handle_of (rw_db w) did ∧ rw_events w' !! did = rw_events w !! did ∨
    rw_events w' !! did = Some (handle_of (rw_db w') did).

(** Tap says that the account has this handle. *)
Definition answered (did h : string) : Prop :=
  h ≠ "" ∧ ∃ ctx info, RepoInfo ctx did = Ok (Some info) ∧ ri_DID info = did ∧ ri_Handle info = h.

Definition lacks (did : string) (h : option (option string)) : Prop :=
  match h with Some o => missing_handle did (mkActor o 0) = true | None => False end.

#[local] Instance lacks_dec did h : Decision (lacks did h).
Proof. unfold lacks. destruct h; apply _. Defined.

Definition page (afterDID : string) (d : db) : list string :=
  (take 250 (filter (λ kv : string * actor_row, missing_handle kv.1 kv.2 = true ∧ text_lt afterDID kv.1) (by_key (db_actors d)))).*1.

Lemma lacks_row did d : lacks did (handle_of d did) ↔ ∃ a, db_actors d !! did = Some a ∧ missing_handle did a = true.
Proof.
  unfold lacks, handle_of. destruct (db_actors d !! did) as [a|]; cbn; [|by split; [|intros (? & ? & _)]].
  split; [intros Hm; by exists a|by intros (? & [= <-] & Hm)].
Qed.

Lemma page_in did afterDID d : did ∈ page afterDID d → text_lt afterDID did ∧ did ∈ dom (db_actors d).
Proof.
  unfold page. intros ([k a] & -> & Hin)%list_elem_of_fmap. apply elem_of_take in Hin as (i & Hin & _).
  apply list_elem_of_lookup_2 in Hin. apply list_elem_of_filter in Hin as [[_ Hlt] Hin%elem_of_by_key]. split; [done|]. by apply elem_of_dom.
Qed.

Lemma page_all did afterDID d :
  lacks did (handle_of d did) → text_lt afterDID did → did ∈ page afterDID d ∨ page afterDID d ≠ [] ∧ text_lt (default "" (last (page afterDID d))) did.
Proof.
  intros (a & Ha & Hm)%lacks_row Hlt. unfold page.
  assert (Hinc := by_key_increasing (db_actors d)).
  apply (increasing_filter fst text_lt (λ kv : string * actor_row, missing_handle kv.1 kv.2 = true ∧ text_lt afterDID kv.1)) in Hinc.
  set (l := filter _ _) in *. assert (Hin : (did, a) ∈ l) by (apply list_elem_of_filter; split; [done|by apply elem_of_by_key]).
  rewrite <- (take_drop 250 l) in Hin, Hinc. apply elem_of_app in Hin as [Hin|Hin]; [left; by apply (list_elem_of_fmap_2 fst) in Hin|].
  right. destruct (last (take 250 l)) as [x|] eqn:E.
  - rewrite fmap_last, E. cbn. split; [intros [=Hnil]%fmap_nil_inv; by rewrite Hnil in E|].
    unfold increasing in Hinc. apply StronglySorted_app in Hinc as (Hinc & _). apply (Hinc x (did, a)); [|done].
    apply last_Some in E as [l' ->]. set_solver.
  - apply last_None in E. destruct l; [by rewrite drop_nil in Hin; apply not_elem_of_nil in Hin|done].
Qed.

Lemma last_page_in afterDID d : page afterDID d ≠ [] → default "" (last (page afterDID d)) ∈ page afterDID d.
Proof. destruct (last (page afterDID d)) as [x|] eqn:E; [|by apply last_None in E]. intros _. apply last_Some in E as [l ->]. set_solver. Qed.

(** The step of the pass: a missing handle becomes the one of Tap. *)
Definition filled (did : string) (w w' : world) : Prop :=
  rw_ctx w' = rw_ctx w ∧ rw_events w' = rw_events w ∧
  ∃ h, answered did h ∧ lacks did (handle_of (rw_db w) did) ∧
    ∀ d, handle_of (rw_db w') d = if decide (d = did) then Some (Some h) else handle_of (rw_db w) d.

(** Steps of the pass and of others; [known] is a property of the set of actors that others keep. *)
Context (known : gset string → Prop).
Notation actors w := (dom (db_actors (rw_db w))).
Definition step (w w' : world) : Prop :=
  w' = w ∨ announced w w' ∧ (known (actors w) → known (actors w')) ∨ ∃ did, filled did w w'.
Definition steps : world → world → Prop := rtc step.

(** What an actor has comes from the last announcement, or, when that leaves it without a handle, from Tap. *)
Definition settled (w0 w : world) : Prop :=
  ∀ did, let told := default (handle_of (rw_db w0) did) (rw_events w !! did) in
    handle_of (rw_db w) did = told ∨ lacks did told ∧ ∃ h, answered did h ∧ handle_of (rw_db w) did = Some (Some h).

Lemma settled_step w0 w w' : step w w' → settled w0 w → settled w0 w'.
Proof.
  intros [->|[[[_ Ha] _]|(did & _ & He & h & Hh & Hl & Hd)]] Hs d; [by apply Hs| |].
  - cbn. destruct (Ha d) as [[Hd He]|He]; [rewrite Hd, He; apply Hs|rewrite He; by left].
  - cbn. rewrite Hd, He. specialize (Hs d). cbn in Hs. destruct (decide (d = did)) as [->|]; [|done].
    right. split; [|by exists h]. destruct Hs as [Heq|[Hs _]]; [by rewrite <- Heq|done].
Qed.

(** Whether the pass is through with an actor. *)
Definition has_no_handle (did : string) : Prop := ∃ ctx info, RepoInfo ctx did = Ok (Some info) ∧ ri_DID info = did ∧ ri_Handle info = "".
Definition through (did : string) (w : world) : Prop :=
  is_Some (rw_events w !! did) ∨ (∃ h, answered did h ∧ handle_of (rw_db w) did = Some (Some h)) ∨ has_no_handle did.

Lemma through_step did w w' : step w w' → through did w → through did w'.
Proof.
  intros [->|[[[_ Ha] _]|(did' & _ & He & h & Hh & Hl & Hd)]] Ht; [done| |].
  - destruct (Ha did) as [[Hd He]|He]; [|left; by rewrite He].
    destruct Ht as [Ht|[(h & Hh & Hdb)|Ht]]; [left; by rewrite He|right; left; exists h; by rewrite Hd|by right; right].
  - destruct Ht as [Ht|[(h' & Hh' & Hdb)|Ht]]; [left; by rewrite He| |by right; right].
    right; left. rewrite Hd. destruct (decide (did = did')) as [->|]; [by exists h|by exists h'].
Qed.

Lemma not_lacking_through w0 did w :
  settled w0 w → lacks did (handle_of (rw_db w0) did) → ¬ lacks did (handle_of (rw_db w) did) → through did w.
Proof.
  intros Hs Hlacks Hn. specialize (Hs did). unfold through. destruct (rw_events w !! did) as [e|]; [by left|]. right; left. cbn in Hs.
  destruct Hs as [Heq|(_ & h & Hh & Hd)]; [by rewrite Heq in Hn|by exists h].
Qed.

(** ** One account *)

Lemma SetHandleIfMissing_step did h d fs o d' fs' :
  SetHandleIfMissing did h d fs = (o, d', fs') →
  match o with
  | Err _ => d' = d
  | Ok false => d' = d ∧ ¬ lacks did (handle_of d did)
  | Ok true => lacks did (handle_of d did) ∧ ∀ x, handle_of d' x = if decide (x = did) then Some (Some h) else handle_of d x
  end.
Proof.
  unfold SetHandleIfMissing, stmt, handle_of, lacks. destruct fs as [|[] fs]; [|by intros [= <- <- <-]|].
  all: destruct (db_actors d !! did) as [a|] eqn:E; [|intros [= <- <- <-]; split; [done|cbn; by intros []]].
  all: assert (Hm : missing_handle did a = missing_handle did (mkActor (actor_handle a) 0)) by done; rewrite Hm; cbn [fmap option_fmap option_map];
    destruct (missing_handle did (mkActor (actor_handle a) 0)) eqn:Em; intros [= <- <- <-]; rewrite ?E; cbn; split; try done; try congruence.
  all: intros x; destruct (decide (x = did)) as [->|Hne]; [by rewrite lookup_insert_eq|by rewrite lookup_insert_ne].
Qed.

Definition result_ok (w0 : world) (did : string) (r : handleReconciliationResult) (w : world) : Prop :=
  (hr_failed r = false → lacks did (handle_of (rw_db w0) did) → through did w) ∧ r ∈ [was_updated; was_unresolved; was_alreadyResolved; was_failed].

Lemma ctx_steps w w' : steps w w' → is_Some (rw_ctx w) → rw_ctx w' = rw_ctx w.
Proof.
  induction 1 as [|w1 w2 w3 Hst _ IH]; [done|]. intros Hc.
  assert (H12 : rw_ctx w2 = rw_ctx w1) by (destruct Hst as [->|[[[Ha _] _]|(did & Ha & _)]]; auto). rewrite <- H12 in Hc |- *. auto.
Qed.

Lemma ctx_back w w' : steps w w' → rw_ctx w' = None → rw_ctx w = None.
Proof. intros Hs Hn. destruct (rw_ctx w) eqn:E; [|done]. apply ctx_steps in Hs; [congruence|by rewrite E]. Qed.

Lemma known_steps w w' : steps w w' → known (actors w) → known (actors w').
Proof.
  induction 1 as [|w1 w2 w3 Hst _ IH]; [done|]. intros Hk. apply IH. destruct Hst as [->|[[_ Ha]|(did & _ & _ & h & _ & Hl & Hd)]]; [auto..|].
  assert (Heq : actors w2 = actors w1); [|by rewrite Heq]. apply set_eq. intros x. specialize (Hd x). unfold handle_of in *. rewrite !elem_of_dom.
  rewrite <- !(fmap_is_Some actor_handle), Hd. destruct (decide (x = did)) as [->|]; [|done]. destruct (db_actors (rw_db w1) !! did); [done|by destruct Hl].
Qed.

Notation safely := (safe steps steps).

Lemma step_once w w' : step w w' → steps w w'.
Proof. apply rtc_once. Qed.

Lemma settled_steps w0 w w' : steps w w' → settled w0 w → settled w0 w'.
Proof. induction 1; [done|]. eauto using settled_step. Qed.
Lemma through_steps did w w' : steps w w' → through did w → through did w'.
Proof. induction 1; [done|]. eauto using through_step. Qed.

Lemma set_safe w0 did h w :
  settled w0 w → answered did h →
  safely (λ o w', is_ok o = true → lacks did (handle_of (rw_db w0) did) → through did w') (on_db (SetHandleIfMissing did h)) w.
Proof.
  intros Hset Hans. apply safe_atomically. intros w1 fs o w2 fs' Hw1 Hm. unfold zoom in Hm.
  destruct (SetHandleIfMissing did h (rw_db w1) fs) as [[o' d'] fs1] eqn:E. injection Hm as <- <- <-.
  assert (Hput : put_db (rw_db w1) w1 = w1) by by destruct w1. apply SetHandleIfMissing_step in E. destruct o' as [[]|e].
  - destruct E as [Hl Hd]. split.
    { apply step_once. right; right. exists did. split; [done|]. split; [done|]. by exists h. }
    intros w3 Hs _ _. apply (through_steps _ _ _ Hs). right; left. exists h. split; [done|]. cbn. rewrite Hd. by case_decide.
  - destruct E as [-> Hl]. rewrite Hput. split; [reflexivity|]. intros w3 Hs _ H0w. apply (through_steps _ _ _ Hs).
    apply (not_lacking_through w0); [by eapply settled_steps|done..].
  - subst d'. rewrite Hput. by split.
Qed.

Lemma account_safe w0 did w :
  settled w0 w → safely (result_ok w0 did) (reconcileActorHandle did) w.
Proof.
  intros Hset. unfold reconcileActorHandle.
  apply (safe_bind _ _ (λ _ w', True ∧ settled w0 w')).
  { apply safe_keep; [apply settled_steps|apply settled_steps|done|]. apply safe_reads. by intros w1 _. }
  intros ctx w1 [_ Hset1].
  assert (Hfail : ∀ r, r = was_failed → safely (result_ok w0 did) (mret r) w1) by (intros r ->; apply safe_ret; intros w2 _; split; [done|set_solver]).
  destruct (RepoInfo ctx did) as [[info|]|e] eqn:E; [|by apply Hfail..].
  destruct (ri_DID info =? did)%string eqn:Edid; [apply String.eqb_eq in Edid|by apply Hfail]. cbn [negb].
  destruct (ri_Handle info =? "")%string eqn:Eh; [apply String.eqb_eq in Eh|apply String.eqb_neq in Eh].
  { apply safe_ret. intros w2 _. split; [|set_solver]. intros _ _. right; right. by exists ctx, info. }
  eapply safe_bind; [apply _|apply (set_safe w0 did (ri_Handle info)); [done..|split; [done|by exists ctx, info]]|].
  intros o w2 Ho. apply safe_ret. intros w3 Hs. destruct o as [[]|e]; (split; [|set_solver]); intros Hf Hl; [| |done].
  all: by apply (through_steps _ _ _ Hs), Ho.
Qed.

(** ** A batch *)

Context (env : world → world → Prop) (env_ok : ∀ w w', env w w' → announced w w' ∧ (known (actors w) → known (actors w'))).

Lemma env_steps w w' : env w w' → steps w w'.
Proof. intros He. apply step_once. right; left. auto. Qed.

Lemma batch_ok w0 w dids results w' :
  settled w0 w → reconcileHandleBatch env w dids results w' →
  steps w w' ∧ Forall (.∈ [was_updated; was_unresolved; was_alreadyResolved; was_failed]) results ∧
  (rw_ctx w' = None → length results = length dids ∧
    ∀ did, did ∈ dids → ∃ r, r ∈ results ∧ (hr_failed r = false → lacks did (handle_of (rw_db w0) did) → through did w')).
Proof.
  intros Hset [sent rest rs results' w2 -> Hrest Hpar Hperm].
  destruct (par_safe sent env steps (λ _, steps) (λ _, steps) (result_ok w0)) with (reconcileActorHandle <$> sent) w rs w2 as (HΦ & Hlen & HT);
    [done|intros; by apply env_steps|done|intros; by apply env_steps|done| |].
  { intros i p Hp. apply list_lookup_fmap_Some in Hp as (did & -> & Hi). exists did. split; [done|]. by apply account_safe. }
  rewrite length_fmap in Hlen. split; [done|]. split.
  { rewrite Hperm. apply Forall_lookup. intros i r Hr. by destruct (HΦ i r Hr) as (did & _ & _ & Hin). }
  intros Hctx. assert (rest = []) as ->.
  { destruct rest; [done|]. destruct (Hrest ltac:(done)) as [e He]. congruence. }
  rewrite app_nil_r. split; [by rewrite Hperm|]. intros did [i Hi]%list_elem_of_lookup.
  destruct (lookup_lt_is_Some_2 rs i) as [r Hr]; [rewrite Hlen; by eapply lookup_lt_Some|].
  destruct (HΦ i r Hr) as (did' & Hi' & Hok & _). assert (did' = did) as -> by congruence. exists r. split; [|done].
  rewrite Hperm. by eapply list_elem_of_lookup_2.
Qed.

Lemma next_page_safe afterDID w :
  safely (λ o w', (∀ dids, o = Ok dids → rw_ctx w = None ∧ ∃ wq, steps w wq ∧ steps wq w' ∧ dids = page afterDID (rw_db wq)) ∧ steps w w')
    (next_page afterDID) w.
Proof.
  apply safe_keep; [by intros w1 w2 Hr Hs; etrans|by intros w1 w2 Hr Hs; etrans|reflexivity|]. unfold next_page.
  apply (safe_bind _ _ (λ ctx w1, (ctx = None → rw_ctx w = None) ∧ steps w w1)).
  { apply safe_reads. intros w1 H1. split; [reflexivity|]. intros w2 H2. split; [by apply ctx_back|by etrans]. }
  intros [e|] w1 [Hctx Hs1]; [by apply safe_ret|].
  apply (safe_bind _ _ (λ o w2, ∀ dids, o = Ok dids → ∃ wq, steps w wq ∧ steps wq w2 ∧ dids = page afterDID (rw_db wq))).
  - apply safe_atomically. intros w2 fs o w3 fs' Hs2 Hm. unfold zoom, ListDIDsMissingHandle, query, stmt in Hm. cbn in Hm.
    assert (Hput : put_db (rw_db w2) w2 = w2) by by destruct w2.
    assert (w3 = w2 ∧ ∀ l, o = Ok l → l = page afterDID (rw_db w2)) as [-> Ho].
    { destruct fs as [|[] fs]; injection Hm as <- <- <-; rewrite ?Hput; split; try done; by intros l [= <-]. }
    split; [reflexivity|]. intros w4 Hs4 l Hl. exists w2. split; [by etrans|]. split; [done|]. by apply Ho.
  - intros o w2 Ho. apply safe_ret. intros w3 Hs3 l Hl. destruct o as [l'|e]; [|done]. injection Hl as <-. destruct (Ho l' eq_refl) as (wq & Hq1 & Hq2 & ->).
    split; [by apply Hctx|]. exists wq. split; [done|]. split; [by etrans|done].
Qed.

Lemma next_page_steps afterDID w o w' : runs env (next_page afterDID) w o w' → steps w w'.
Proof. intros Hruns. by destruct (run_safe env steps steps _ _ w o w' env_steps Hruns (next_page_safe afterDID w)). Qed.

Lemma next_page_ok afterDID w dids w' :
  runs env (next_page afterDID) w (Ok dids) w' →
  steps w w' ∧ rw_ctx w = None ∧ ∃ wq, steps w wq ∧ steps wq w' ∧ dids = page afterDID (rw_db wq).
Proof.
  intros Hruns. destruct (run_safe env steps steps _ _ w _ w' env_steps Hruns (next_page_safe afterDID w)) as [Hq Hst]. by destruct (Hq dids eq_refl).
Qed.

(** ** The pass *)

Definition counted (s : HandleReconciliationStats) : Z := (hs_Updated s + hs_Unresolved s + hs_AlreadyResolved s + hs_Failed s)%Z.

Lemma count_results results s :
  Forall (.∈ [was_updated; was_unresolved; was_alreadyResolved; was_failed]) results →
  let s' := foldl count s results in
  hs_Scanned s' = hs_Scanned s ∧ counted s' = (counted s + Z.of_nat (length results))%Z ∧ (hs_Failed s <= hs_Failed s')%Z ∧
  (hs_Failed s' = hs_Failed s → ∀ r, r ∈ results → hr_failed r = false).
Proof.
  intros Hall. revert s. induction Hall as [|r results Hr _ IH]; intros s; cbn [foldl].
  { split_and!; [done|cbn; lia|lia|]. intros _ r Hr. by apply not_elem_of_nil in Hr. }
  destruct (IH (count s r)) as (Hs & Hc & Hf & Hn). cbn zeta.
  assert (Hstep : hs_Scanned (count s r) = hs_Scanned s ∧ counted (count s r) = (counted s + 1)%Z ∧ (hs_Failed s <= hs_Failed (count s r))%Z ∧
    (hr_failed r = true → hs_Failed (count s r) = hs_Failed s + 1)%Z).
  { clear -Hr. unfold counted. assert (Hr' : r = was_updated ∨ r = was_unresolved ∨ r = was_alreadyResolved ∨ r = was_failed) by set_solver.
    destruct Hr' as [ -> | [ -> | [ -> | -> ] ] ]; cbn; split_and!; try done; lia. }
  destruct Hstep as (Hs1 & Hc1 & Hf1 & Hn1). split_and!; [congruence|rewrite Hc, Hc1; cbn; lia|lia|].
  intros Heq r' [->|Hr']%elem_of_cons; [|apply Hn; [lia|done]]. destruct (hr_failed r); [specialize (Hn1 eq_refl); lia|done].
Qed.

Definition scanned_so_far (w0 : world) (afterDID : string) (stats : HandleReconciliationStats) (w : world) : Prop :=
  hs_Scanned stats = counted stats ∧
  (hs_Failed stats = 0 → ∀ did, lacks did (handle_of (rw_db w0) did) → text_lt "" did → ¬ text_lt afterDID did → through did w)%Z.

Lemma settled_start w0 : rw_events w0 = ∅ → settled w0 w0.
Proof. intros He did. cbn. rewrite He, lookup_empty. by left. Qed.

Lemma page_scanned w0 afterDID stats w wq w1 :
  settled w0 w → steps w wq → steps wq w1 → scanned_so_far w0 afterDID stats w → hs_Failed stats = 0%Z →
  ∀ did, lacks did (handle_of (rw_db w0) did) → text_lt "" did →
    through did w1 ∨ did ∈ page afterDID (rw_db wq) ∨
    page afterDID (rw_db wq) ≠ [] ∧ text_lt (default "" (last (page afterDID (rw_db wq)))) did.
Proof.
  intros Hset Hs1 Hs2 [_ Hall] Hf did Hl Hlt. destruct (decide (text_lt afterDID did)) as [Ha|Ha].
  2: { left. apply (through_steps _ w); [by etrans|]. by apply Hall. }
  assert (Hq : settled w0 wq) by by eapply settled_steps.
  destruct (decide (lacks did (handle_of (rw_db wq) did))) as [Hlq|Hlq].
  - right. by apply page_all.
  - left. apply (through_steps _ wq); [done|]. by eapply not_lacking_through.
Qed.

Lemma rounds_ok w0 n afterDID stats w :
  rw_events w0 = ∅ → rounds env w0 n afterDID stats w →
  steps w0 w ∧ (0 <= hs_Failed stats)%Z ∧ (rw_ctx w = None → scanned_so_far w0 afterDID stats w).
Proof.
  intros Hev. induction 1 as [|n afterDID stats w dids w1 results w2 _ (Hs0 & Hf0 & IH) Hpage Hne Hbatch].
  { split; [reflexivity|]. split; [done|]. intros _. split; [done|]. intros _ did _ Hlt Hn. by destruct (Hn Hlt). }
  apply next_page_ok in Hpage as (Hs1 & Hctx & wq & Hq & Hq1 & ->). specialize (IH Hctx).
  assert (Hset : settled w0 w) by (eapply settled_steps; [done|by apply settled_start]).
  apply (batch_ok w0) in Hbatch as (Hs2 & Hres & Hall); [|by apply (settled_steps _ w)].
  assert (Hcount := count_results results (add_scanned (length (page afterDID (rw_db wq))) stats) Hres). cbn zeta in Hcount.
  destruct Hcount as (Hscan & Hcnt & Hfail & Hnone). change (hs_Failed (add_scanned _ stats)) with (hs_Failed stats) in Hfail, Hnone.
  split; [exact (transitivity Hs0 (transitivity Hs1 Hs2))|]. split; [lia|]. intros Hctx2. destruct (Hall Hctx2) as [Hlen Hdids]. split.
  - destruct IH as [IH _]. rewrite Hscan, Hcnt, Hlen. unfold counted in *. cbn. lia.
  - intros Hzero did Hl Hlt Hlast. assert (Hz : hs_Failed stats = 0%Z) by lia.
    destruct (page_scanned w0 afterDID stats w wq w1 Hset Hq Hq1 IH Hz did Hl Hlt) as [Ht|[Hin|[_ Hin]]]; [by eapply through_steps| |done].
    destruct (Hdids did Hin) as (r & Hr & Hok). apply Hok; [|done]. apply Hnone; [lia|done].
Qed.
End laws.

Section bound.
Context `{TextOrder} `{RepoInfoClient} (env : world → world → Prop) (names : gset string).
Notation within := (λ actors : gset string, actors ⊆ names).
Context (env_within : ∀ w w', env w w' → announced w w' ∧ (dom (db_actors (rw_db w)) ⊆ names → dom (db_actors (rw_db w')) ⊆ names)).

(** The last DIDs of the pages so far are different names, none after where the next page starts. *)
Lemma rounds_passed w0 n afterDID stats w :
  rw_events w0 = ∅ → dom (db_actors (rw_db w0)) ⊆ names → rounds env w0 n afterDID stats w →
  n <= size (filter (λ did, ¬ text_lt afterDID did) names).
Proof.
  intros Hev Hdom. induction 1 as [|n afterDID stats w dids w1 results w2 Hr IH Hpage Hne _]; [lia|].
  destruct (rounds_ok within env env_within _ _ _ _ _ Hev Hr) as (Hs0 & _). apply (next_page_ok within env env_within) in Hpage as (_ & _ & wq & Hq & _ & ->).
  assert (Hin := last_page_in _ _ Hne). set (x := default "" _) in *. apply page_in in Hin as [Hlt Hx].
  assert (Hw : dom (db_actors (rw_db wq)) ⊆ names) by (apply (known_steps within w0); [by etrans|done]).
  assert (Hsub : {[x]} ∪ filter (λ did, ¬ text_lt afterDID did) names ⊆ filter (λ did, ¬ text_lt x did) names).
  { intros d [->%elem_of_singleton|[Hd Hn]%elem_of_filter]%elem_of_union; apply elem_of_filter; [split; [apply text_lt_irrefl|set_solver]|].
    split; [|done]. intros Hxd. apply Hd. by etrans. }
  apply subseteq_size in Hsub. rewrite size_union, size_singleton in Hsub by (set_solver). lia.
Qed.
End bound.

Definition anything (_ : gset string) : Prop := True.

(** C12. Reconciliation yields to everyone else and loses nobody: whatever other goroutines write while it runs, and
    whichever statements fail, an actor ends with what the last write of others left it, or the actor
    had at the start, except where that is no handle: then it may be the handle Tap gave. And a pass that returns no
    error counts every account it scanned once, and when none failed every actor that lacked a
    handle at the start was written by someone, or has the handle Tap gave, or Tap has none. *)
Theorem reconciliation_yields `{TextOrder} `{RepoInfoClient} env w0 stats err w :
  (∀ w w', env w w' → announced w w') → rw_events w0 = ∅ → ReconcileActorHandles env w0 stats err w →
  settled w0 w ∧
  (err = None → hs_Scanned stats = counted stats ∧
    (hs_Failed stats = 0%Z → ∀ did, lacks did (handle_of (rw_db w0) did) → text_lt "" did → through did w)).
Proof.
  intros Henv Hev Hrec.
  assert (Hok : ∀ w w', env w w' → announced w w' ∧ (anything (dom (db_actors (rw_db w))) → anything (dom (db_actors (rw_db w'))))) by (intros; split; auto).
  destruct Hrec as [n afterDID stats w1 e w' Hr Hp|n afterDID stats w1 w' Hr Hp].
  - destruct (rounds_ok anything env Hok _ _ _ _ _ Hev Hr) as (Hs & _). split; [|done].
    eapply (settled_steps anything); [|by apply settled_start]. etrans; [exact Hs|]. by eapply next_page_steps.
  - destruct (rounds_ok anything env Hok _ _ _ _ _ Hev Hr) as (Hs & _ & Hscan). apply (next_page_ok anything env Hok) in Hp as (Hs1 & Hctx & wq & Hq & Hq1 & Hpage).
    specialize (Hscan Hctx). assert (Hset : settled w0 w1) by (eapply (settled_steps anything); [done|by apply settled_start]).
    split; [by apply (settled_steps anything w0 w1)|]. intros _. split; [apply Hscan|]. intros Hz did Hl Hlt.
    destruct (page_scanned anything w0 afterDID stats w1 wq w' Hset Hq Hq1 Hscan Hz did Hl Hlt) as [Ht|[Hin|[Hin _]]]; [done| |]; rewrite <- Hpage in Hin; [by apply not_elem_of_nil in Hin|done].
Qed.

(** A pass ends: while others add no actors outside some set of DIDs, there are at most as many batches as DIDs in it,
    and from every batch the pass goes on to an end or to another batch. *)
Theorem reconciliation_ends `{TextOrder} `{RepoInfoClient} env (names : gset string) w0 n afterDID stats w :
  (∀ w w', env w w' → announced w w' ∧ (dom (db_actors (rw_db w)) ⊆ names → dom (db_actors (rw_db w')) ⊆ names)) →
  rw_events w0 = ∅ → dom (db_actors (rw_db w0)) ⊆ names → rounds env w0 n afterDID stats w →
  n <= size names ∧
  ((∃ err w', ReconcileActorHandles env w0 stats err w') ∨ ∃ afterDID' stats' w', rounds env w0 (S n) afterDID' stats' w').
Proof.
  intros Henv Hev Hdom Hr. split.
  - etrans; [by eapply (rounds_passed env names Henv)|]. apply subseteq_size. set_solver.
  - destruct (par_ends env [next_page afterDID] w) as (rs & w1 & Hpar). assert (Hlen := par_length _ _ _ _ _ Hpar).
    destruct rs as [|o [|o' rs]]; try done. destruct o as [dids|e]; [|left; by exists (Some e), w1; econstructor].
    destruct (decide (dids = [])) as [->|Hne]; [left; by exists None, w1; econstructor|]. right.
    destruct (par_ends env (reconcileActorHandle <$> dids) w1) as (rs & w2 & Hbatch).
    do 3 eexists. eapply rounds_batch; [done|exact Hpar|done|]. apply (batch env w1 dids dids [] rs rs w2); [by rewrite app_nil_r|done|done|done].
Qed.

(** ** What the rest of the server does, and a pass followed *)

Lemma write_announced w d' did :
  (∀ x, x ≠ did → handle_of d' x = handle_of (rw_db w) x) →
  announced w (mkWorld d' (rw_ctx w) (<[did := handle_of d' did]> (rw_events w))).
Proof.
  intros Hd. split; [done|]. intros x. cbn. destruct (decide (x = did)) as [->|Hne]; [right; by rewrite lookup_insert_eq|left].
  rewrite lookup_insert_ne by done. auto.
Qed.

(** Identity events, purges and first sightings of accounts are announced. *)
Lemma UpsertIdentity_announced did handle w fs o d' fs' :
  UpsertIdentity did handle (rw_db w) fs = (o, d', fs') → announced w (mkWorld d' (rw_ctx w) (<[did := handle_of d' did]> (rw_events w))).
Proof.
  intros Hw. apply write_announced. intros x Hx. unfold UpsertIdentity, exec, stmt in Hw.
  destruct fs as [|[] fs]; injection Hw as <- <- <-; [|done|]; unfold handle_of; cbn; by rewrite lookup_insert_ne.
Qed.
Lemma Ensure_announced did w fs o d' fs' :
  Ensure did (rw_db w) fs = (o, d', fs') → announced w (mkWorld d' (rw_ctx w) (<[did := handle_of d' did]> (rw_events w))).
Proof.
  intros Hw. apply write_announced. intros x Hx. unfold Ensure, exec, stmt in Hw.
  destruct fs as [|[] fs]; injection Hw as <- <- <-; [|done|]; unfold handle_of; cbn; (destruct (db_actors (rw_db w) !! did); [done|by rewrite lookup_insert_ne]).
Qed.
Lemma PurgeActorData_announced did w fs o d' fs' :
  PurgeActorData did (rw_db w) fs = (o, d', fs') → announced w (mkWorld d' (rw_ctx w) (<[did := handle_of d' did]> (rw_events w))).
Proof.
  intros Hw%purge_spec. apply write_announced. intros x Hx. destruct o; subst d'; [|done]. unfold handle_of, without_actor. cbn. by rewrite lookup_delete_ne.
Qed.

Section followed.
#[local] Existing Instance byte_order.

(** Tap has a handle for one account, and none for another. *)
#[local] Instance small_tap : RepoInfoClient := {|
  RepoInfo _ did := if (did =? "did:plc:a")%string then Ok (Some (mkRepoInfo did "alice.test" "active" ""))
    else if (did =? "did:plc:b")%string then Ok (Some (mkRepoInfo did "bob.test" "active" ""))
    else Ok (Some (mkRepoInfo did "" "active" ""));
|}.

Definition three_actors : db := set_actors (λ _, {["did:plc:a" := mkActor None 0; "did:plc:b" := mkActor None 0; "did:plc:c" := mkActor (Some " ") 0]}) (empty_db 1).
Definition start : world := mkWorld three_actors None ∅.
Notation dids := ["did:plc:a"; "did:plc:b"; "did:plc:c"].

Definition page_read := run_proc (next_page "") start.
(** While the accounts are worked on, an identity event renames one. *)
Definition renamed : world :=
  let d' := (UpsertIdentity "did:plc:b" "robert.test" (rw_db page_read.2) []).1.2 in
  mkWorld d' None (<["did:plc:b" := handle_of d' "did:plc:b"]> (rw_events page_read.2)).
Definition batch_done := run_all (reconcileActorHandle <$> dids) renamed.
Definition last_read := run_proc (next_page "did:plc:c") batch_done.2.
Definition final_stats : HandleReconciliationStats := mkStats 3 1 1 1 0.

Lemma pass_runs_alone {A} (p : proc world A) w : runs announced p w (run_proc p w).1 (run_proc p w).2.
Proof. unfold runs. assert (Hpar := run_all_par announced [p] w). cbn in Hpar. by destruct (run_proc p w). Qed.

Lemma small_round : rounds announced start 1 "did:plc:c" final_stats batch_done.2.
Proof.
  assert (Hp := pass_runs_alone (next_page "") start). fold page_read in Hp. replace page_read.1 with (Ok dids : outcome (list string)) in Hp by (vm_compute; reflexivity).
  assert (Hb := run_all_par announced (reconcileActorHandle <$> dids) renamed). fold batch_done in Hb.
  replace final_stats with (foldl count (add_scanned (length dids) (mkStats 0 0 0 0 0)) batch_done.1) by (vm_compute; reflexivity).
  apply (rounds_batch announced start 0 "" (mkStats 0 0 0 0 0) start dids page_read.2 batch_done.1 batch_done.2); [constructor|exact Hp|done|].
  eapply (batch _ _ dids dids [] _ batch_done.1); [by rewrite app_nil_r|done| |done]. eapply par_env; [|exact Hb].
  eapply (UpsertIdentity_announced "did:plc:b" "robert.test" page_read.2 [] (Ok tt) _ []). reflexivity.
Qed.

Lemma small_pass : ReconcileActorHandles announced start final_stats None last_read.2.
Proof.
  assert (Hp := pass_runs_alone (next_page "did:plc:c") batch_done.2). fold last_read in Hp.
  replace last_read.1 with (Ok [] : outcome (list string)) in Hp by (vm_compute; reflexivity).
  eapply reconcile_done; [apply small_round|exact Hp].
Qed.

(** The event's handle stays; the account Tap has a handle for gets it. *)
Example renamed_while_read :
  handle_of (rw_db last_read.2) <$> dids = [Some (Some "alice.test"); Some (Some "robert.test"); Some (Some " ")].
Proof. vm_compute. reflexivity. Qed.

Lemma reconciliation_yields_witness :
  settled start last_read.2 ∧ through "did:plc:a" last_read.2 ∧ hs_Scanned final_stats = counted final_stats.
Proof.
  destruct (reconciliation_yields announced start final_stats None last_read.2) as [Hs Ht]; [done|done|apply small_pass|].
  destruct (Ht eq_refl) as [Hc Hall]. split; [exact Hs|]. split; [|exact Hc]. apply Hall; [done|by vm_compute|by vm_compute].
Defined.

Lemma reconciliation_ends_witness :
  1 <= size (dom (db_actors three_actors)) ∧
  ((∃ err w', ReconcileActorHandles (λ w w', announced w w' ∧ db_actors (rw_db w') = db_actors (rw_db w)) start (mkStats 0 0 0 0 0) err w') ∨
   ∃ a s w', rounds (λ w w', announced w w' ∧ db_actors (rw_db w') = db_actors (rw_db w)) start 1 a s w').
Proof.
  split; [vm_compute; lia|].
  apply (reconciliation_ends (λ w w', announced w w' ∧ db_actors (rw_db w') = db_actors (rw_db w)) (dom (db_actors three_actors)) start 0 "" _ start);
    [|done|done|constructor].
  intros w w' [Ha Hd]. split; [done|]. by rewrite Hd.
Defined.
End followed.
