(* ===== verification/Moderation.v ===== *)
(** * Moderation tables

    src/internal/database/repositories/labels.go, label_definitions.go, label_preferences.go
    and reports.go: labels this server applies to accounts and records, what the labels
    mean, what users want to see of them, and the reports users file.

    The column [neg] of labels is an INTEGER on SQLite and a BOOLEAN on PostgreSQL, but the
    statements write and compare it as an integer, which PostgreSQL refuses, and scan it
    into one, which the driver refuses. *)
From S2P Require Import Prelude GoStrings Effects Database RecordStore.

Record Label := mkLabel {
  lb_ID : Z;
  lb_Src : string;
  lb_URI : string;
  lb_CID : option string;
  lb_Val : string;
  lb_Neg : bool;
  lb_Cts : Z;
  lb_Exp : option Z;
}.

Record LabelDefinition := mkDefinition {
  ld_Val : string;
  ld_Description : string;
  ld_Severity : string;
  ld_DefaultVisibility : string;
  ld_CreatedAt : Z;
}.

Record LabelPreference := mkPreference { lp_DID : string; lp_LabelVal : string; lp_Visibility : string; lp_CreatedAt : Z }.

Record Report := mkReport {
  rp_ID : Z;
  rp_ReporterDID : string;
  rp_SubjectURI : string;
  rp_ReasonType : string;
  rp_Reason : option string;
  rp_Status : string;
  rp_ResolvedBy : option string;
  rp_ResolvedAt : option Z;
  rp_CreatedAt : Z;
}.

(** The tables, rows in order of their ids, the ids to come, and the clock. *)
Record mdb := mkMdb {
  m_labels : list Label;
  m_next_label : Z;
  m_definitions : gmap string LabelDefinition;
  m_preferences : gmap (string * string) LabelPreference;
  m_reports : list Report;
  m_next_report : Z;
  m_clock : Z;
}.

Definition add_label (l : Label) (d : mdb) : mdb :=
  mkMdb (m_labels d ++ [l]) (m_next_label d + 1) (m_definitions d) (m_preferences d) (m_reports d) (m_next_report d) (m_clock d).
Definition set_labels f d := mkMdb (f (m_labels d)) (m_next_label d) (m_definitions d) (m_preferences d) (m_reports d) (m_next_report d) (m_clock d).
Definition set_definitions f d := mkMdb (m_labels d) (m_next_label d) (f (m_definitions d)) (m_preferences d) (m_reports d) (m_next_report d) (m_clock d).
Definition set_preferences f d := mkMdb (m_labels d) (m_next_label d) (m_definitions d) (f (m_preferences d)) (m_reports d) (m_next_report d) (m_clock d).
Definition set_reports f d := mkMdb (m_labels d) (m_next_label d) (m_definitions d) (m_preferences d) (f (m_reports d)) (m_next_report d) (m_clock d).
Definition add_report (r : Report) (d : mdb) : mdb :=
  mkMdb (m_labels d) (m_next_label d) (m_definitions d) (m_preferences d) (m_reports d ++ [r]) (m_next_report d + 1) (m_clock d).

(** The rows of a query, as far as the dialect lets them be scanned. *)
Definition scan_rows {A} (scan : outcome unit) (rows : list A) : outcome (list A) :=
  match rows with [] => Ok [] | _ => scan ;; Ok rows end.

(** One page of rows in descending order of their ids; a negative size makes the statement or the slice fail. *)
Definition paginate {A} (scan : outcome unit) (keep : A → bool) (first : Z) (rows : list A) : outcome (list A * bool * nat) :=
  let kept := filter (λ a, keep a = true) (rev rows) in
  if (first <? 0)%Z then Err "slice bounds out of range"
  else
    page ← scan_rows scan (take (Z.to_nat (first + 1)) kept);
    Ok (take (Z.to_nat first) page, Z.to_nat first <? length page, length kept).

Definition after_ok (afterID : option Z) (id : Z) : bool := match afterID with Some a => (id <? a)%Z | None => true end.
Definition filter_ok (wanted : option string) (value : string) : bool := match wanted with Some w => (value =? w)%string | None => true end.

Section moderation.
Context `{Env}.

(** An integer for, or from, the BOOLEAN column. *)
Definition neg_as_int : outcome unit :=
  match dialect with SQLite => Ok tt | PostgreSQL => Err "type boolean does not match integer" end.

(** ** Labels (labels.go) *)

Definition GetByID (id : Z) : M mdb Label :=
  stmt (λ d, match head (filter (λ l, lb_ID l = id) (m_labels d)) with
    | Some l => neg_as_int ;; Ok (l, d) | None => Err no_rows end).

(** [REFERENCES label_definition(val)] *)
Definition insert_label (src uri : string) (cid : option string) (val : string) (neg : bool) (exp : option Z) (d : mdb) : outcome (Label * mdb) :=
  match m_definitions d !! val with
  | None => Err "FOREIGN KEY constraint failed"
  | Some _ => let l := mkLabel (m_next_label d) src uri cid val neg (m_clock d) exp in Ok (l, add_label l d)
  end.

(** PostgreSQL returns the row of the statement, which cannot be scanned; on SQLite it is read back. *)
Definition inserted_label (l : Label) : M mdb Label :=
  match dialect with
  | PostgreSQL => of_outcome (neg_as_int ;; Ok l)
  | SQLite => GetByID (lb_ID l)
  end.

Definition Labels_Insert (src uri : string) (cid : option string) (val : string) (exp : option Z) : M mdb Label :=
  l ← stmt (insert_label src uri cid val false exp); inserted_label l.

Definition InsertNegation (src uri val : string) : M mdb Label :=
  l ← stmt (λ d, neg_as_int ;; insert_label src uri None val true None d); inserted_label l.

(** [NOT EXISTS (... neg.neg = 1 AND neg.id > l.id)] *)
Definition negated (labels : list Label) (l : Label) : bool :=
  existsb (λ n, (lb_URI n =? lb_URI l)%string && (lb_Val n =? lb_Val l)%string && lb_Neg n && (lb_ID l <? lb_ID n)%Z) labels.
Definition active (labels : list Label) (l : Label) : bool := negb (lb_Neg l) && negb (negated labels l).

(** Newest first; equal times come in an order of the database's choice. *)
Definition label_newer (x y : Label) : Prop := (lb_Cts y <= lb_Cts x)%Z.
#[local] Instance label_newer_dec : RelDecision label_newer.
Proof. unfold label_newer. intros x y. apply _. Defined.

Definition Labels_GetByURIs (uris : list string) : M mdb (list Label) :=
  if bool_decide (uris = []) then mret []
  else stmt (λ d, neg_as_int ;;
    Ok (merge_sort label_newer (filter (λ l, lb_URI l ∈ uris ∧ active (m_labels d) l = true) (m_labels d)), d)).

Definition label_selected (uriFilter valFilter : option string) (afterID : option Z) (l : Label) : bool :=
  filter_ok uriFilter (lb_URI l) && filter_ok valFilter (lb_Val l) && after_ok afterID (lb_ID l).

(** The page, whether there is more, and the total. *)
Definition Labels_GetPaginated (uriFilter valFilter : option string) (first : Z) (afterID : option Z) : M mdb (list Label * bool * nat) :=
  query (λ _, tt) ;;
  stmt (λ d, page ← paginate neg_as_int (label_selected uriFilter valFilter afterID) first (m_labels d); Ok (page, d)).

Definition takedown : string := "!takedown".

Definition taken_down (d : mdb) (uri : string) : bool :=
  existsb (λ l, (lb_URI l =? uri)%string && (lb_Val l =? takedown)%string && active (m_labels d) l) (m_labels d).

Definition HasTakedown (uri : string) : M mdb bool := stmt (λ d, neg_as_int ;; Ok (taken_down d uri, d)).

(** Each URI once, in an order of the database's choice. *)
Definition GetTakedownURIs (uris : list string) : M mdb (list string) :=
  if bool_decide (uris = []) then mret []
  else stmt (λ d, neg_as_int ;; Ok (filter (λ u, taken_down d u = true) (remove_dups uris), d)).

Definition Labels_DeleteAll : M mdb unit := exec (set_labels (λ _, [])).

Definition IsValidSubjectURI (uri : string) : bool := has_prefix "at://" uri || has_prefix "did:" uri.

(** ** Definitions (label_definitions.go) *)

Context `{TextOrder}.

Definition ValidateVisibility (visibility : string) : outcome string :=
  if bool_decide (visibility ∈ ["ignore"; "show"; "warn"; "hide"]) then Ok visibility else Err ("invalid visibility: " +:+ visibility).
Definition ValidateSeverity (severity : string) : outcome string :=
  if bool_decide (severity ∈ ["inform"; "alert"; "takedown"]) then Ok severity else Err ("invalid severity: " +:+ severity).

Definition Definitions_GetAll : M mdb (list LabelDefinition) := query (λ d, (by_key (m_definitions d)).*2).

(** [val NOT LIKE '!%'] *)
Definition GetNonSystem : M mdb (list LabelDefinition) :=
  query (λ d, (filter (λ kv : string * LabelDefinition, has_prefix "!" kv.1 = false) (by_key (m_definitions d))).*2).

Definition Definitions_Get (val : string) : M mdb LabelDefinition :=
  stmt (λ d, match m_definitions d !! val with Some x => Ok (x, d) | None => Err no_rows end).

(** With the table's [CHECK] and primary key. *)
Definition Definitions_Insert (val description severity defaultVisibility : string) : M mdb unit :=
  stmt (λ d,
    if negb (is_ok (ValidateSeverity severity)) then Err "CHECK constraint failed"
    else match m_definitions d !! val with
    | Some _ => Err "UNIQUE constraint failed"
    | None => Ok (tt, set_definitions (<[val := mkDefinition val description severity defaultVisibility (m_clock d)]>) d)
    end).

Definition Definitions_Exists (val : string) : M mdb bool := query (λ d, bool_decide (is_Some (m_definitions d !! val))).

(** ** Preferences (label_preferences.go) *)

Definition pref_before (x y : LabelPreference) : Prop := text_le (lp_LabelVal x) (lp_LabelVal y).
#[local] Instance pref_before_dec : RelDecision pref_before.
Proof. unfold pref_before. intros x y. apply text_le_dec. Defined.

Definition GetByDID (did : string) : M mdb (list LabelPreference) :=
  query (λ d, merge_sort pref_before (filter (λ p, lp_DID p = did) (map_to_list (m_preferences d)).*2)).

Definition Preferences_Get (did labelVal : string) : M mdb LabelPreference :=
  stmt (λ d, match m_preferences d !! (did, labelVal) with Some p => Ok (p, d) | None => Err no_rows end).

Definition Preferences_Set (did labelVal visibility : string) : M mdb LabelPreference :=
  exec (λ d, set_preferences (<[(did, labelVal) := mkPreference did labelVal visibility (m_clock d)]>) d) ;;
  Preferences_Get did labelVal.

Definition Preferences_Delete (did labelVal : string) : M mdb unit := exec (set_preferences (delete (did, labelVal))).
Definition Preferences_DeleteByDID (did : string) : M mdb unit :=
  exec (set_preferences (filter (λ kv : (string * string) * LabelPreference, kv.1.1 ≠ did))).

(** ** Reports (reports.go) *)

Definition StatusPending : string := "pending".
Definition StatusResolved : string := "resolved".
Definition StatusDismissed : string := "dismissed".

Definition ValidateReasonType (reasonType : string) : outcome string :=
  if bool_decide (reasonType ∈ ["spam"; "violation"; "misleading"; "sexual"; "rude"; "other"])
  then Ok reasonType else Err ("invalid reason type: " +:+ reasonType).
Definition ValidateReportStatus (status : string) : outcome string :=
  if bool_decide (status ∈ [StatusPending; StatusResolved; StatusDismissed]) then Ok status else Err ("invalid report status: " +:+ status).

Definition report_row (d : mdb) (id : Z) : option Report := head (filter (λ r, rp_ID r = id) (m_reports d)).

Definition Reports_Get (id : Z) : M mdb Report :=
  stmt (λ d, match report_row d id with Some r => Ok (r, d) | None => Err no_rows end).

(** With the table's [CHECK] and [UNIQUE(reporter_did, subject_uri)]. The row is returned by the statement on PostgreSQL, and read
    back on SQLite. *)
Definition Reports_Insert (reporterDID subjectURI reasonType : string) (reason : option string) : M mdb Report :=
  r ← stmt (λ d,
    if negb (is_ok (ValidateReasonType reasonType)) then Err "CHECK constraint failed"
    else if existsb (λ r, (rp_ReporterDID r =? reporterDID)%string && (rp_SubjectURI r =? subjectURI)%string) (m_reports d)
    then Err "UNIQUE constraint failed"
    else
      let r := mkReport (m_next_report d) reporterDID subjectURI reasonType reason StatusPending None None (m_clock d) in
      Ok (r, add_report r d));
  match dialect with PostgreSQL => mret r | SQLite => Reports_Get (rp_ID r) end.

Definition Reports_GetPaginated (statusFilter : option string) (first : Z) (afterID : option Z) : M mdb (list Report * bool * nat) :=
  query (λ _, tt) ;;
  stmt (λ d, page ← paginate (Ok tt) (λ r, filter_ok statusFilter (rp_Status r) && after_ok afterID (rp_ID r)) first (m_reports d); Ok (page, d)).

Definition resolve_row (id : Z) (status resolvedBy : string) (now : Z) (r : Report) : Report :=
  if (rp_ID r =? id)%Z
  then mkReport (rp_ID r) (rp_ReporterDID r) (rp_SubjectURI r) (rp_ReasonType r) (rp_Reason r) status (Some resolvedBy) (Some now) (rp_CreatedAt r)
  else r.

Definition Resolve (id : Z) (status resolvedBy : string) : M mdb Report :=
  stmt (λ d,
    if negb (is_ok (ValidateReportStatus status)) && bool_decide (is_Some (report_row d id)) then Err "CHECK constraint failed"
    else Ok (tt, set_reports (fmap (resolve_row id status resolvedBy (m_clock d))) d)) ;;
  Reports_Get id.

Definition GetByReporterAndSubject (reporterDID subjectURI : string) : M mdb Report :=
  stmt (λ d, match head (filter (λ r, rp_ReporterDID r = reporterDID ∧ rp_SubjectURI r = subjectURI) (m_reports d)) with
    | Some r => Ok (r, d) | None => Err no_rows end).

Definition Reports_DeleteAll : M mdb unit := exec (set_reports (λ _, [])).
End moderation.
