(* ===== verification/LexiconStore.v ===== *)
(** * Saved Lexicons

    src/internal/database/repositories/lexicons.go: the documents administrators save, and
    their validated mutation. The lock a mutation takes first makes it one step for other
    mutations. The creation times of rows always parse: the database writes them. *)
From S2P Require Import Prelude GoStrings Effects Database RecordStore.

(** A row: [raw_json], the document as it was given; its [json]; when it was first saved. *)
Record lexicon_row := mkLexiconRow { xr_raw : string; xr_json : string; xr_created_at : Z }.
Record ldb := mkLdb { l_rows : gmap string lexicon_row; l_clock : Z }.
Definition set_rows f d := mkLdb (f (l_rows d)) (l_clock d).

Record SavedLexicon := mkSaved { sl_ID : string; sl_JSON : string; sl_CreatedAt : Z }.
Record LexiconWrite := mkLexiconWrite { lw_ID : string; lw_JSON : string }.
Record LexiconMutation := mkMutation { mu_Upserts : list LexiconWrite; mu_DeleteIDs : list string }.

Section store.
Context `{Env} `{TextOrder}.

Definition saved_of (e : string * lexicon_row) : SavedLexicon := mkSaved e.1 (xr_raw e.2) (xr_created_at e.2).
Definition saved_lexicons (d : ldb) : list SavedLexicon := saved_of <$> by_key (l_rows d).

(** A conflict keeps the creation time. *)
Definition upsert_row (id jsonData : string) : M ldb unit :=
  stmt (λ d,
    stored ← store_json jsonData;
    let created := default (l_clock d) (xr_created_at <$> l_rows d !! id) in
    Ok (tt, set_rows (<[id := mkLexiconRow jsonData stored created]>) d)).

Definition Upsert (id jsonData : string) : M ldb unit := upsert_row id jsonData.

Definition save_lexicon (what : string) (w : LexiconWrite) : M ldb unit :=
  wrap ("save Lexicon " +:+ lw_ID w +:+ what) (upsert_row (lw_ID w) (lw_JSON w)).
Definition delete_lexicon (id : string) : M ldb unit := wrap ("delete Lexicon " +:+ id +:+ " in mutation") (exec (set_rows (delete id))).

Definition UpsertMany (lexicons : list LexiconWrite) : M ldb unit :=
  if bool_decide (lexicons = []) then mret tt else transaction (for_each (save_lexicon "") lexicons).

Definition getAll : M ldb (list SavedLexicon) := query saved_lexicons.

Definition MutateValidated (build : list SavedLexicon → outcome LexiconMutation) (validate : list SavedLexicon → outcome unit) : M ldb unit :=
  transaction (
    wrap "acquire Lexicon mutation lock" (query (λ _, tt)) ;;
    current ← wrap "load current Lexicons in mutation" getAll;
    mutation ← of_outcome (build current);
    for_each delete_lexicon (mu_DeleteIDs mutation) ;;
    for_each (save_lexicon " in mutation") (mu_Upserts mutation) ;;
    prospective ← wrap "load prospective Lexicons in mutation" getAll;
    of_outcome (validate prospective)).

Definition Lexicons_GetByID (id : string) : M ldb SavedLexicon :=
  stmt (λ d, match l_rows d !! id with Some r => Ok (saved_of (id, r), d) | None => Err no_rows end).
Definition Lexicons_GetAll : M ldb (list SavedLexicon) := getAll.
Definition Lexicons_Delete (id : string) : M ldb unit := exec (set_rows (delete id)).
Definition Lexicons_DeleteAll : M ldb unit := exec (set_rows (λ _, ∅)).
Definition Lexicons_GetCount : M ldb nat := query (λ d, size (l_rows d)).
Definition Lexicons_Exists (id : string) : M ldb bool := query (λ d, bool_decide (is_Some (l_rows d !! id))).

(** ** A mutation happens whole or not at all, and only when the set it leaves is valid *)

Lemma wrap_query_ok {S A} msg (f : S → A) s fs a s' fs' : wrap msg (query f) s fs = (Ok a, s', fs') → a = f s ∧ s' = s.
Proof. unfold wrap, query, stmt. destruct fs as [|[] fs]; cbn; [|done|]; by intros [= <- <- _]. Qed.

Lemma MutateValidated_atomic build validate d fs :
  match MutateValidated build validate d fs with
  | (Ok _, d', _) => validate (saved_lexicons d') = Ok tt
  | (Err _, d', _) => d' = d
  end.
Proof.
  destruct (MutateValidated build validate d fs) as [[[[]|e] d'] fs'] eqn:E; [|by apply transaction_err in E].
  apply transaction_ok in E as [fs1 E].
  apply bind_ok_inv in E as (t & d1 & fs2 & _ & E). apply bind_ok_inv in E as (current & d2 & fs3 & _ & E).
  apply bind_ok_inv in E as (mutation & d3 & fs4 & _ & E). apply bind_ok_inv in E as (u & d4 & fs5 & _ & E).
  apply bind_ok_inv in E as (u' & d5 & fs6 & _ & E). apply bind_ok_inv in E as (prospective & d6 & fs7 & Hq & E).
  apply wrap_query_ok in Hq as [-> ->]. unfold of_outcome in E. by injection E as Hv <- _.
Qed.
End store.
