(* ===== verification/Admin.v ===== *)
(** * The admin API

    src/internal/graphql/admin (handler.go, admin_dids.go, schema.go, resolvers.go): who a
    request is from, the fields of the admin schema with what guards them, and their
    resolvers. Arguments come as the schema types them; times are answered in seconds, the
    text of times is left out, and so are the description of a registered Lexicon and the
    buckets of activity. ZIP files, URLs and the resolution of Lexicons by DNS are
    parameters. *)
From S2P Require Import Prelude GoStrings Json GoTime AtprotoTime Effects Database RecordStore Config Actors Lexicons Validator LexiconStore Moderation OAuthStore Base64.

(** ** Requests (handler.go, admin_dids.go) *)

Definition ParseAdminDIDs (value : string) : list string := if (value =? "")%string then [] else trimmed_parts comma value.
Definition isAdminDID (userDID : string) (adminDIDs : list string) : bool := existsb (λ d, (d =? userDID)%string) adminDIDs.

Definition isValidAdminAPIKey (providedKey expectedKey : string) : bool :=
  let providedKey := trim_space providedKey in
  let expectedKey := trim_space expectedKey in
  if (expectedKey =? "")%string then false else if (providedKey =? "")%string then false else (providedKey =? expectedKey)%string.

(** What [ContextWithAuth] puts into the context. *)
Record auth := mkAuth { au_userDID : string; au_handle : string; au_isAdmin : bool; au_adminDIDs : list string }.

(** The user the middleware found, or the one a proxy with the key names; the headers are [X-User-DID] and [X-Admin-API-Key]. *)
Definition authenticate (adminDIDs : list string) (adminAPIKey ctxUser proxiedUserDID providedKey : string) : auth :=
  let userDID := if negb (ctxUser =? "")%string then ctxUser
    else if (proxiedUserDID =? "")%string then "" else if isValidAdminAPIKey providedKey adminAPIKey then proxiedUserDID else "" in
  mkAuth userDID "" (isAdminDID userDID adminDIDs) adminDIDs.

(** ** State and parameters *)

Record world := mkWorld {
  w_db : db;
  w_mod : mdb;
  w_config : config;
  w_lexicons : ldb;
  w_oauth : odb;
  w_backfillActive : bool;
  w_running : nat;
}.

Definition put_db d w := mkWorld d (w_mod w) (w_config w) (w_lexicons w) (w_oauth w) (w_backfillActive w) (w_running w).
Definition put_mod d w := mkWorld (w_db w) d (w_config w) (w_lexicons w) (w_oauth w) (w_backfillActive w) (w_running w).
Definition put_config c w := mkWorld (w_db w) (w_mod w) c (w_lexicons w) (w_oauth w) (w_backfillActive w) (w_running w).
Definition put_lexicons l w := mkWorld (w_db w) (w_mod w) (w_config w) l (w_oauth w) (w_backfillActive w) (w_running w).
Definition put_oauth o w := mkWorld (w_db w) (w_mod w) (w_config w) (w_lexicons w) o (w_backfillActive w) (w_running w).
Definition put_backfill active running w := mkWorld (w_db w) (w_mod w) (w_config w) (w_lexicons w) (w_oauth w) active running.

Definition on_db {A} : M db A → M world A := zoom w_db put_db.
Definition on_mod {A} : M mdb A → M world A := zoom w_mod put_mod.
Definition on_config {A} : M config A → M world A := zoom w_config put_config.
Definition on_lexicons {A} : M ldb A → M world A := zoom w_lexicons put_lexicons.
Definition on_oauth {A} : M odb A → M world A := zoom w_oauth put_oauth.

(** A file of a ZIP archive; [zf_read]: its first [maxLexiconFileSize + 1] bytes, or why they cannot be read. *)
Record zip_file := mkZipFile { zf_name : string; zf_dir : bool; zf_size : Z; zf_read : outcome string }.

Class AdminWorld := {
  zip_files : string → outcome (list zip_file);
  (** A URL with a scheme and a host, lower-cased, without the slashes at the end of its path. *)
  canonical_url : string → option string;
  (** The schema of a Lexicon and the account that publishes it. *)
  ResolveLexicon : string → outcome (string * string);
}.

(** ** Resolvers (resolvers.go) *)

Record Settings := mkSettings {
  se_domainAuthority : string;
  se_adminDids : list string;
  se_relayUrl : string;
  se_plcDirectoryUrl : string;
  se_jetstreamUrl : string;
  se_oauthSupportedScopes : string;
  se_labelerSubscribeEnabled : bool;
  se_labelerSubscribeUrls : list string;
}.

Record PurgePreview := mkPreview { pp_did : string; pp_isValidDid : bool; pp_actorExists : bool; pp_recordCount : nat }.

(** A definition with what the viewer chose. *)
Record ViewerPreference := mkViewerPreference { vp_definition : LabelDefinition; vp_visibility : string }.

Record LabelEdge := mkLabelEdge { le_cursor : string; le_node : Label }.
Record ReportEdge := mkReportEdge { re_cursor : string; re_node : Report }.
Record page_info := mkPageInfo { pi_hasNextPage : bool; pi_hasPreviousPage : bool; pi_startCursor : string; pi_endCursor : string; pi_totalCount : nat }.

Definition ConfigKeyLabelerSubscribeURLs : string := "labeler_subscribe_urls".

(** config.go [ParseLabelerSubscribeURLs]: each once, where it comes first. *)
Definition ParseLabelerSubscribeURLs (raw : string) : list string := rev (remove_dups (rev (trimmed_parts comma raw))).

Definition maxLexiconUploadBytes : Z := 10 * 1024 * 1024.
Definition maxLexiconFileCount : nat := 500.
Definition maxLexiconFileSize : Z := 1024 * 1024.

Section resolvers.
Context `{Env} `{TextOrder} `{Indigo} `{AdminWorld}.
Context (float64_ok : string → bool).
(** The [Resolver]'s fields. *)
Context (adminDIDs : list string) (domainDID : string) (labelerSubscribeEnabled : bool) (defaultLabelerSubscribeURLs : string).
Context (backfillCallback : option (string → M db unit)) (fullBackfill : bool) (filesystemLexicons : gmap string string).

Definition StatisticsOf : M world (nat * nat * nat) :=
  records ← on_db (wrap "failed to get record count" GetCount);
  actors ← on_db (wrap "failed to get actor count" ActorsGetCount);
  lexicons ← on_lexicons (wrap "failed to get lexicon count" Lexicons_GetCount);
  mret (records, actors, lexicons).

(** [value, _ := Get(key)] *)
Definition setting (key : string) : M world string := on_config (get_or key "").

Definition labelerSubscribeURLList : M world (list string) :=
  value ← attempt (on_config (Get ConfigKeyLabelerSubscribeURLs));
  mret (ParseLabelerSubscribeURLs (match value with Ok v => v | Err _ => defaultLabelerSubscribeURLs end)).

Definition SettingsOf : M world Settings :=
  domainAuthority ← setting "domain_authority";
  relayURL ← setting "relay_url";
  plcDirectoryURL ← setting "plc_directory_url";
  jetstreamURL ← setting "jetstream_url";
  oauthScopes ← setting "oauth_supported_scopes";
  urls ← labelerSubscribeURLList;
  mret (mkSettings domainAuthority adminDIDs relayURL plcDirectoryURL jetstreamURL oauthScopes labelerSubscribeEnabled urls).

Definition normalizeLabelerSubscribeURL (raw : string) : string :=
  let trimmed := trim_space raw in default trimmed (canonical_url trimmed).

Definition set_setting (e : string * option string) : M world unit :=
  match e.2 with None => mret tt | Some v => on_config (wrap ("failed to update " +:+ e.1) (Set_ e.1 v)) end.

Definition UpdateSettings (domainAuthority relayURL plcDirectoryURL jetstreamURL oauthScopes : option string) : M world Settings :=
  for_each set_setting [("domain_authority", domainAuthority); ("relay_url", relayURL); ("plc_directory_url", plcDirectoryURL);
    ("jetstream_url", jetstreamURL); ("oauth_supported_scopes", oauthScopes)] ;;
  SettingsOf.

Definition RemoveLabelerSubscribeURL (subscriptionURL : string) : M world Settings :=
  let trimmedURL := trim_space subscriptionURL in
  if (trimmedURL =? "")%string then throw "labeler subscription URL is required"
  else
    let normalizedURL := normalizeLabelerSubscribeURL trimmedURL in
    current ← labelerSubscribeURLList;
    let next := filter (λ u, normalizeLabelerSubscribeURL u ≠ normalizedURL) current in
    if length next =? length current then throw ("labeler subscription URL not found: " +:+ trimmedURL)
    else
      on_config (wrap "failed to update labeler subscription URLs" (Set_ ConfigKeyLabelerSubscribeURLs (join (byte_str comma) next))) ;;
      SettingsOf.

Definition ResetAll (confirm : string) : M world bool :=
  if negb (confirm =? "RESET")%string then throw "confirmation required: pass 'RESET' to confirm"
  else
    on_db (wrap "failed to delete activity" ActivityDeleteAll) ;;
    on_mod (wrap "failed to delete reports" Reports_DeleteAll) ;;
    on_mod (wrap "failed to delete labels" Labels_DeleteAll) ;;
    on_db (wrap "failed to delete records" DeleteAll) ;;
    on_db (wrap "failed to delete actors" ActorsDeleteAll) ;;
    mret true.

(** records.go [IterateAll]: batches in the order of URIs; [fuel] bounds the batches. *)
Fixpoint iterate_pages {B} (fuel batchSize : nat) (fn : B → RecordStruct → M db B) (lastURI : string) (acc : B) : M db B :=
  match fuel with
  | O => mret acc
  | S fuel =>
      records ← stmt (λ d,
        rs ← scanRecords (take batchSize (filter (λ kv : string * row, lastURI = "" ∨ text_lt lastURI kv.1) (by_key (db_records d))));
        mret (rs, d));
      (fix each (rs : list RecordStruct) (acc : B) : M db B :=
        match rs with
        | [] => if length records <? batchSize then mret acc
                else iterate_pages fuel batchSize fn (default lastURI (rec_uri <$> last records)) acc
        | rec :: rest => acc' ← fn acc rec; each rest acc'
        end) records acc
  end.
Definition IterateAll {B} (batchSize : nat) (fn : B → RecordStruct → M db B) (acc : B) : M db B :=
  d ← get;
  let batchSize := if batchSize =? 0 then DefaultIterateBatchSize else batchSize in
  iterate_pages (S (size (db_records d))) batchSize fn "" acc.

(** A failure to log is not counted. *)
Definition log_create (count : nat) (rec : RecordStruct) : M db nat :=
  now ← gets db_clock;
  logged ← attempt (LogActivityWithStatus (ExtractCreatedAt float64_ok (rec_json rec) (now * 1000000000) / 1000000000) "create"
    (rec_collection rec) (rec_did rec) (rec_rkey rec) (rec_json rec) "success");
  mret (if is_ok logged then S count else count).

Definition PopulateActivity : M world nat :=
  on_db (wrap "failed to clear existing activity" ActivityDeleteAll) ;;
  on_db (wrap "error iterating records" (IterateAll 1000 log_create 0)).

(** ** Moderation *)

Definition CreateLabel (uri val : string) (cid exp : option string) : M world Label :=
  if negb (IsValidSubjectURI uri) then throw "invalid subject URI: must start with 'at://' or 'did:'"
  else
    exists_ ← on_mod (wrap "failed to check label definition" (Definitions_Exists val));
    if negb exists_ then throw ("label value '" +:+ val +:+ "' not defined")
    else
      match exp with
      | None => on_mod (wrap "failed to create label" (Labels_Insert domainDID uri cid val None))
      | Some e => match time_parse (mkLayout false ColonZone) e with
        | None => throw "invalid expiration format"
        | Some t => on_mod (wrap "failed to create label" (Labels_Insert domainDID uri cid val (Some (t / 1000000000)%Z)))
        end
      end.

Definition NegateLabel (uri val : string) : M world Label :=
  if negb (IsValidSubjectURI uri) then throw "invalid subject URI: must start with 'at://' or 'did:'"
  else on_mod (wrap "failed to negate label" (InsertNegation domainDID uri val)).

Definition CreateLabelDefinition (val description severity : string) (defaultVisibility : option string) : M world LabelDefinition :=
  sev ← of_outcome (ValidateSeverity severity);
  vis ← of_outcome (match defaultVisibility with Some v => ValidateVisibility v | None => Ok "warn" end);
  exists_ ← on_mod (wrap "failed to check label definition" (Definitions_Exists val));
  if (exists_ : bool) then throw ("label '" +:+ val +:+ "' already exists")
  else
    on_mod (wrap "failed to create label definition" (Definitions_Insert val description sev vis)) ;;
    on_mod (wrap "failed to retrieve created definition" (Definitions_Get val)).

Definition ResolveReport (id : Z) (action : string) (labelVal : option string) (resolverDID : string) : M world Report :=
  report ← on_mod (wrap "failed to get report" (Reports_Get id));
  status ← (if (action =? "apply_label")%string then
      match labelVal with
      | None => throw "labelVal required for apply_label action"
      | Some v => on_mod (wrap "failed to apply label" (Labels_Insert domainDID (rp_SubjectURI report) None v None)) ;; mret StatusResolved
      end
    else if (action =? "dismiss")%string then mret StatusDismissed
    else throw ("invalid action: " +:+ action));
  on_mod (wrap "failed to resolve report" (Resolve id status resolverDID)).

Definition viewer_preference (prefs : list LabelPreference) (def : LabelDefinition) : ViewerPreference :=
  mkViewerPreference def (default (ld_DefaultVisibility def) (lp_Visibility <$> last (filter (λ p, lp_LabelVal p = ld_Val def) prefs))).

Definition ViewerLabelPreferences (userDID : string) : M world (list ViewerPreference) :=
  defs ← on_mod (wrap "failed to get label definitions" GetNonSystem);
  prefs ← on_mod (wrap "failed to get user preferences" (GetByDID userDID));
  mret (viewer_preference prefs <$> defs).

(** Cursors are encoded ids; one that does not decode is no cursor. *)
Definition id_cursor (id : Z) : string := b64_encode URLEncoding (itoa id).
Definition decode_id (after : option string) : option Z :=
  a ← after; decoded ← b64_decode URLEncoding a; id ← literal_int decoded; if in_int64 id then Some id else None.
Definition page_size (first : Z) : Z := if (first =? 0)%Z then 20 else first.
Definition info {A} (id : A → Z) (rows : list A) (more : bool) (total : nat) (after : option string) : page_info :=
  mkPageInfo more (from_option (λ a, negb (a =? "")%string) false after)
    (default "" (id_cursor ∘ id <$> head rows)) (default "" (id_cursor ∘ id <$> last rows)) total.

Definition LabelsOf (uriFilter valFilter : option string) (first : Z) (after : option string) : M world (list LabelEdge * page_info) :=
  '(rows, more, total) ← on_mod (wrap "failed to get labels" (Labels_GetPaginated uriFilter valFilter (page_size first) (decode_id after)));
  mret ((λ l, mkLabelEdge (id_cursor (lb_ID l)) l) <$> rows, info lb_ID rows more total after).

Definition ReportsOf (statusFilter : option string) (first : Z) (after : option string) : M world (list ReportEdge * page_info) :=
  '(rows, more, total) ← on_mod (wrap "failed to get reports" (Reports_GetPaginated statusFilter (page_size first) (decode_id after)));
  mret ((λ r, mkReportEdge (id_cursor (rp_ID r)) r) <$> rows, info rp_ID rows more total after).

(** ** Lexicons *)

Definition lexiconSetWithFilesystem (dbLexicons : list SavedLexicon) : gmap string string :=
  foldl (λ m s, <[sl_ID s := sl_JSON s]> m) filesystemLexicons dbLexicons.
Definition containsLexicon (lexicons : list SavedLexicon) (id : string) : bool := existsb (λ s, (sl_ID s =? id)%string) lexicons.

Definition check_set (msg : string) (prospectiveDB : list SavedLexicon) : outcome unit :=
  wrap_err msg (CheckLexiconSet float64_ok (lexiconSetWithFilesystem prospectiveDB)).

(** The documents of the archive so far, and the names of their files. *)
Definition read_candidate (acc : list (string * string * string)) (file : zip_file) : outcome (list (string * string * string)) :=
  if zf_dir file || negb (has_suffix ".json" (zf_name file)) then Ok acc
  else if (maxLexiconFileSize <? zf_size file)%Z then Err ("file " +:+ zf_name file +:+ " too large")
  else
    data ← wrap_err ("failed to read " +:+ zf_name file +:+ " in uploaded ZIP") (zf_read file);
    if (maxLexiconFileSize <? Z.of_nat (String.length data))%Z then Err ("file " +:+ zf_name file +:+ " exceeds the limit after decompression")
    else match struct_members data ≫= string_field "id" with
    | None => Err ("file " +:+ zf_name file +:+ " is not valid JSON")
    | Some id =>
        if (id =? "")%string then Err ("file " +:+ zf_name file +:+ " is missing the required top-level Lexicon id")
        else if existsb (λ c : string * string * string, (c.1.1 =? id)%string) acc
        then Err ("uploaded ZIP contains duplicate Lexicon id " +:+ id)
        else
          wrap_err ("file " +:+ zf_name file +:+ " cannot be activated after restart") (CheckLexiconBytes float64_ok id data) ;;
          Ok (acc ++ [(id, zf_name file, data)])
    end.

Definition upload_writes (files : list zip_file) : outcome (list LexiconWrite) :=
  if maxLexiconFileCount <? length files then Err "too many files in ZIP"
  else
    candidates ← fold_outcome read_candidate [] files;
    Ok (map (λ c : string * string * string, mkLexiconWrite c.1.1 c.2) candidates).

Definition read_upload (zipBase64 : string) : outcome (list LexiconWrite) :=
  if (maxLexiconUploadBytes * 4 / 3 <? Z.of_nat (String.length zipBase64))%Z then Err "upload too large"
  else match StdDecode zipBase64 with
  | None => Err "invalid base64 data"
  | Some zipData => files ← wrap_err "invalid ZIP file" (zip_files zipData); upload_writes files
  end.

Definition UploadLexicons (zipBase64 : string) : M world nat :=
  writes ← of_outcome (read_upload zipBase64);
  on_lexicons (wrap "failed to save uploaded Lexicons" (MutateValidated (λ _, Ok (mkMutation writes []))
    (check_set "uploaded Lexicons would make the next startup schema invalid"))) ;;
  mret (length writes).

(** The saved document and the account that published it. *)
Definition RegisterLexicon (nsid : string) : M world (string * string) :=
  if length (split dot nsid) <? 3 then throw "invalid NSID format: must have at least 3 segments (e.g., app.bsky.feed.post)"
  else
    exists_ ← on_lexicons (wrap "failed to check existing lexicon" (Lexicons_Exists nsid));
    if (exists_ : bool) then throw ("lexicon " +:+ nsid +:+ " is already registered")
    else
      '(schema, did) ← of_outcome (wrap_err "failed to resolve lexicon" (ResolveLexicon nsid));
      of_outcome (wrap_err ("resolved Lexicon " +:+ nsid +:+ " cannot be activated after restart") (CheckLexiconBytes float64_ok nsid schema)) ;;
      on_lexicons (wrap "failed to save lexicon" (MutateValidated
        (λ current, if containsLexicon current nsid then Err ("lexicon " +:+ nsid +:+ " is already registered")
                    else Ok (mkMutation [mkLexiconWrite nsid schema] []))
        (check_set ("resolved Lexicon " +:+ nsid +:+ " would make the next startup schema invalid")))) ;;
      mret (schema, did).

Definition DeleteLexicon (nsid : string) : M world bool :=
  on_lexicons (wrap "failed to delete lexicon" (MutateValidated
    (λ current, if containsLexicon current nsid then Ok (mkMutation [] [nsid]) else Err ("lexicon " +:+ nsid +:+ " not found"))
    (check_set ("deleting Lexicon " +:+ nsid +:+ " would make the next startup schema invalid")))) ;;
  mret true.

(** ** Backfills and accounts *)

(** [CompareAndSwap], then a goroutine. *)
Definition TriggerBackfill : M world bool :=
  if negb fullBackfill then throw "full backfill not configured"
  else
    w ← get;
    if w_backfillActive w then throw "backfill already in progress"
    else modify (put_backfill true (S (w_running w))) ;; mret true.
(** The end of the goroutine. *)
Definition backfill_ends (w : world) : world := put_backfill false (pred (w_running w)) w.

Definition BackfillActor (did : string) : M world bool :=
  if negb (has_prefix "did:" did) then throw "invalid DID format"
  else
    on_db (wrap "failed to register actor" (Ensure did)) ;;
    match backfillCallback with
    | Some backfill => on_db (wrap "failed to trigger backfill" (backfill did)) ;; mret true
    | None => mret true
    end.

Definition PurgeActor (did confirm : string) : M world bool :=
  if negb (confirm =? "PURGE")%string then throw "confirmation required: pass 'PURGE' to confirm"
  else
    let normalizedDID := trim_space did in
    if negb (has_prefix "did:" normalizedDID) then throw "invalid DID format"
    else on_db (wrap "failed to purge actor data for DID" (PurgeActorData normalizedDID)) ;; mret true.

Definition PurgeActorPreview (did : string) : M world PurgePreview :=
  let normalizedDID := trim_space did in
  if negb (has_prefix "did:" normalizedDID) then mret (mkPreview normalizedDID false false 0)
  else
    actorExists ← on_db (wrap "failed to check actor existence" (Exists normalizedDID));
    recordCount ← on_db (wrap "failed to count records by DID" (GetCountByDID normalizedDID));
    mret (mkPreview normalizedDID true actorExists recordCount).

(** ** OAuth clients *)

Definition hex_digit (n : N) : Ascii.ascii := Ascii.ascii_of_N (if (n <? 10)%N then 48 + n else 87 + n)%N.
Fixpoint hex_encode (s : string) : string :=
  match s with
  | EmptyString => ""
  | String c r => String (hex_digit (byte_val c / 16)) (String (hex_digit (byte_val c mod 16)) (hex_encode r))
  end.
Definition random_hex (n : nat) : M odb string := λ d fs,
  if String.length (o_random d) <? n then (Err "no random bytes", d, fs)
  else (Ok (hex_encode (stake n (o_random d))), set_random (sdrop n (o_random d)) d, fs).

Definition CreateOAuthClient (clientName clientType : string) (redirectURIs : list string) : M world Client :=
  clientID ← on_oauth (wrap "failed to generate client ID" (random_hex 16));
  clientSecret ← (if (clientType =? "confidential")%string
    then Some <$> on_oauth (wrap "failed to generate client secret" (random_hex 32)) else mret None);
  now ← gets (o_clock ∘ w_oauth);
  let client := mkClient clientID clientSecret clientName redirectURIs ["authorization_code"; "refresh_token"] ["code"] None
    (if (clientType =? "public")%string then "none" else "client_secret_basic") clientType now now "{}" 3600 (86400 * 30) true None None in
  on_oauth (wrap "failed to create OAuth client" (Clients_Insert client)) ;;
  mret client.

Definition UpdateOAuthClient (clientID clientName : string) (redirectURIs : list string) : M world Client :=
  found ← on_oauth (wrap "failed to get OAuth client" (Clients_Get clientID));
  match found with
  | None => throw "OAuth client not found"
  | Some c =>
      now ← gets (o_clock ∘ w_oauth);
      let client := mkClient (cl_ClientID c) (cl_ClientSecret c) clientName redirectURIs (cl_GrantTypes c) (cl_ResponseTypes c) (cl_Scope c)
        (cl_TokenEndpointAuthMethod c) (cl_ClientType c) (cl_CreatedAt c) now (cl_Metadata c) (cl_AccessTokenExpiration c)
        (cl_RefreshTokenExpiration c) (cl_RequireRedirectExact c) (cl_RegistrationAccessToken c) (cl_JWKS c) in
      on_oauth (wrap "failed to update OAuth client" (Clients_Update client)) ;;
      mret client
  end.

Definition DeleteOAuthClient (clientID : string) : M world bool :=
  if (clientID =? "admin")%string then throw "cannot delete the admin client"
  else on_oauth (wrap "failed to delete OAuth client" (Clients_Delete clientID)) ;; mret true.
End resolvers.
