(* ===== verification/AdminApi.v ===== *)
(** * The fields of the admin schema

    schema.go: every query and mutation, what it asks of the caller, and its resolver. An
    absent optional argument is the empty string, as the resolvers read it. Then what the
    API as a whole guarantees. *)
From S2P Require Import Prelude GoStrings Effects Database RecordStore RecordProps VersionProps Config Actors Lexicons Validator LexiconStore Moderation OAuthStore Admin.

Inductive query_field :=
  | QCurrentSession
  | QStatistics
  | QSettings
  | QIsBackfilling
  | QLexicons
  | QOAuthClients
  | QRecentActivity (hours : Z)
  | QLabelDefinitions
  | QViewerLabelPreferences
  | QLabels (uri val : string) (first : Z) (after : string)
  | QReports (status : string) (first : Z) (after : string)
  | QPurgeActorPreview (did : string).

Inductive mutation_field :=
  | UpdateSettingsField (domainAuthority relayUrl plcDirectoryUrl jetstreamUrl oauthSupportedScopes : string)
  | RemoveLabelerSubscribeUrl (url : string)
  | ResetAllField (confirm : string)
  | PopulateActivityField
  | CreateLabelField (uri val cid exp : string)
  | NegateLabelField (uri val : string)
  | CreateLabelDefinitionField (val description severity defaultVisibility : string)
  | ResolveReportField (id : Z) (action labelVal : string)
  | UploadLexiconsField (zipBase64 : string)
  | TriggerBackfillField
  | BackfillActorField (did : string)
  | PurgeActorField (did confirm : string)
  | CreateOAuthClientField (clientName clientType : string) (redirectUris : list string)
  | UpdateOAuthClientField (clientId clientName : string) (redirectUris : list string)
  | DeleteOAuthClientField (clientId : string)
  | RegisterLexiconField (nsid : string)
  | DeleteLexiconField (nsid : string).

Inductive field := Query (q : query_field) | Mutation (m : mutation_field).

(** The values of the schema's types. *)
Inductive answer :=
  | Null
  | ASession (did handle : string) (isAdmin : bool)
  | AStatistics (records actors lexicons : nat)
  | ASettings (s : Settings)
  | ABool (b : bool)
  | AInt (n : nat)
  | ALexicons (l : list SavedLexicon)
  | AClients (l : list Client)
  | AActivity (l : list ActivityEntry)
  | ADefinitions (l : list LabelDefinition)
  | APreferences (l : list ViewerPreference)
  | ALabels (edges : list LabelEdge) (info : page_info)
  | AReports (edges : list ReportEdge) (info : page_info)
  | APreview (p : PurgePreview)
  | ALabel (l : Label)
  | ADefinition (d : LabelDefinition)
  | AReport (r : Report)
  | AClient (c : Client)
  | ALexicon (id json did : string).

Definition requireAdmin (a : auth) : outcome unit := if au_isAdmin a then Ok tt else Err "admin privileges required".

Definition optional (s : string) : option string := if (s =? "")%string then None else Some s.

(** The public fields check nothing, or that there is a user. *)
Definition public_query (q : query_field) : bool :=
  match q with QCurrentSession | QStatistics | QRecentActivity _ | QViewerLabelPreferences => true | _ => false end.

Section api.
Context `{Env} `{TextOrder} `{Indigo} `{AdminWorld}.
Context (float64_ok : string → bool) (adminDIDs : list string) (domainDID : string) (labelerSubscribeEnabled : bool) (defaultLabelerSubscribeURLs : string).
Context (backfillCallback : option (string → M db unit)) (fullBackfill : bool) (filesystemLexicons : gmap string string).

Notation SettingsOf := (SettingsOf adminDIDs labelerSubscribeEnabled defaultLabelerSubscribeURLs).

Definition admin_query (q : query_field) : M world answer :=
  match q with
  | QSettings => ASettings <$> SettingsOf
  | QIsBackfilling => gets (ABool ∘ w_backfillActive)
  | QLexicons => ALexicons <$> on_lexicons (wrap "failed to get lexicons" Lexicons_GetAll)
  | QOAuthClients => AClients <$> on_oauth (wrap "failed to get OAuth clients" Clients_GetAll)
  | QLabelDefinitions => ADefinitions <$> on_mod (wrap "failed to get label definitions" Definitions_GetAll)
  | QLabels uri val first after => (λ p, ALabels p.1 p.2) <$> LabelsOf (optional uri) (optional val) first (optional after)
  | QReports status first after => (λ p, AReports p.1 p.2) <$> ReportsOf (optional status) first (optional after)
  | QPurgeActorPreview did => APreview <$> PurgeActorPreview did
  | _ => mret Null
  end.

Definition resolve_query (a : auth) (q : query_field) : M world answer :=
  match q with
  | QCurrentSession =>
      mret (if (au_userDID a =? "")%string then Null
            else ASession (au_userDID a) (au_handle a) (isAdminDID (au_userDID a) (au_adminDIDs a)))
  | QStatistics => (λ s, AStatistics s.1.1 s.1.2 s.2) <$> StatisticsOf
  | QRecentActivity hours =>
      AActivity <$> on_db (wrap "failed to get recent activity" (GetRecentActivity (Z.min 168 (Z.max 1 hours))))
  | QViewerLabelPreferences =>
      if (au_userDID a =? "")%string then throw "authentication required" else APreferences <$> ViewerLabelPreferences (au_userDID a)
  | _ => of_outcome (requireAdmin a) ;; admin_query q
  end.

Definition settings_mutation (m : mutation_field) : M world answer :=
  match m with
  | UpdateSettingsField domainAuthority relayUrl plcDirectoryUrl jetstreamUrl oauthSupportedScopes =>
      ASettings <$> UpdateSettings adminDIDs labelerSubscribeEnabled defaultLabelerSubscribeURLs (optional domainAuthority) (optional relayUrl)
        (optional plcDirectoryUrl) (optional jetstreamUrl) (optional oauthSupportedScopes)
  | RemoveLabelerSubscribeUrl url => ASettings <$> RemoveLabelerSubscribeURL adminDIDs labelerSubscribeEnabled defaultLabelerSubscribeURLs url
  | ResetAllField confirm => ABool <$> ResetAll confirm
  | PopulateActivityField => AInt <$> PopulateActivity float64_ok
  | _ => mret Null
  end.

Definition moderation_mutation (a : auth) (m : mutation_field) : M world answer :=
  match m with
  | CreateLabelField uri val cid exp => ALabel <$> CreateLabel domainDID uri val (optional cid) (optional exp)
  | NegateLabelField uri val => ALabel <$> NegateLabel domainDID uri val
  | CreateLabelDefinitionField val description severity defaultVisibility =>
      ADefinition <$> CreateLabelDefinition val description severity (optional defaultVisibility)
  | ResolveReportField id action labelVal => AReport <$> ResolveReport domainDID id action (optional labelVal) (au_userDID a)
  | m => settings_mutation m
  end.

Definition account_mutation (a : auth) (m : mutation_field) : M world answer :=
  match m with
  | TriggerBackfillField => ABool <$> TriggerBackfill fullBackfill
  | BackfillActorField did => ABool <$> BackfillActor backfillCallback did
  | PurgeActorField did confirm => ABool <$> PurgeActor did confirm
  | CreateOAuthClientField clientName clientType redirectUris => AClient <$> CreateOAuthClient clientName clientType redirectUris
  | UpdateOAuthClientField clientId clientName redirectUris => AClient <$> UpdateOAuthClient clientId clientName redirectUris
  | DeleteOAuthClientField clientId => ABool <$> DeleteOAuthClient clientId
  | m => moderation_mutation a m
  end.

Definition run_mutation (a : auth) (m : mutation_field) : M world answer :=
  match m with
  | UploadLexiconsField zipBase64 => AInt <$> UploadLexicons float64_ok filesystemLexicons zipBase64
  | RegisterLexiconField nsid => (λ s, ALexicon nsid s.1 s.2) <$> RegisterLexicon float64_ok filesystemLexicons nsid
  | DeleteLexiconField nsid => ABool <$> DeleteLexicon float64_ok filesystemLexicons nsid
  | m => account_mutation a m
  end.

Definition resolve_mutation (a : auth) (m : mutation_field) : M world answer := of_outcome (requireAdmin a) ;; run_mutation a m.

Definition resolve_field (a : auth) (f : field) : M world answer :=
  match f with Query q => resolve_query a q | Mutation m => resolve_mutation a m end.

(** [ServeHTTP]: one field of a request. *)
Definition serve (adminAPIKey ctxUser proxiedUserDID providedKey : string) (f : field) : M world answer :=
  resolve_field (authenticate adminDIDs adminAPIKey ctxUser proxiedUserDID providedKey) f.
End api.
