(* ===== verification/AdminProps.v ===== *)
(** * What the admin API guarantees

    Nobody but an administrator changes anything or sees what is not public; the saved
    Lexicons always make a set the server can start with; and what moderators decided last
    about a subject is what holds. *)
From S2P Require Import Prelude GoStrings Json AtprotoTime Effects Database RecordStore RecordProps VersionProps Config Actors Lexicons Validator LexiconStore Moderation OAuthStore Admin AdminApi ValidatorExamples.

(** ** Computations that only read *)

Definition read_only {S A} (m : M S A) : Prop := ∀ s fs, (m s fs).1.2 = s.

Create HintDb reading.

Section reading.
Context {S : Type}.

Lemma ro_ret {A} (a : A) : read_only (mret a : M S A).
Proof. done. Qed.
Lemma ro_throw {A} e : read_only (throw e : M S A).
Proof. done. Qed.
Lemma ro_outcome {A} (o : outcome A) : read_only (of_outcome o : M S A).
Proof. done. Qed.
Lemma ro_gets {A} (f : S → A) : read_only (gets f).
Proof. done. Qed.
Lemma ro_get : read_only (get : M S S).
Proof. done. Qed.
Lemma ro_stmt {A} (f : S → outcome (A * S)) : (∀ s a s', f s = Ok (a, s') → s' = s) → read_only (stmt f).
Proof. intros Hf s fs. unfold stmt. destruct fs as [|[] fs]; [|done|]; destruct (f s) as [[a s']|e] eqn:E; try done; by apply Hf in E. Qed.
Lemma ro_query {A} (f : S → A) : read_only (query f).
Proof. apply ro_stmt. by intros s a s' [= _ <-]. Qed.
Lemma ro_bind {A B} (m : M S A) (f : A → M S B) : read_only m → (∀ a, read_only (f a)) → read_only (m ≫= f).
Proof.
  intros Hm Hf s fs. specialize (Hm s fs). unfold mbind, M_bind. destruct (m s fs) as [[[a|e] s1] fs1]; cbn in Hm; subst; [apply Hf|done].
Qed.
Lemma ro_fmap {A B} (f : A → B) (m : M S A) : read_only m → read_only (f <$> m).
Proof. intros Hm s fs. specialize (Hm s fs). unfold fmap, M_fmap. by destruct (m s fs) as [[[a|e] s1] fs1]. Qed.
Lemma ro_wrap {A} msg (m : M S A) : read_only m → read_only (wrap msg m).
Proof. intros Hm s fs. specialize (Hm s fs). unfold wrap. by destruct (m s fs) as [[o s1] fs1]. Qed.
Lemma ro_attempt {A} (m : M S A) : read_only m → read_only (attempt m).
Proof. intros Hm s fs. specialize (Hm s fs). unfold attempt. by destruct (m s fs) as [[o s1] fs1]. Qed.
Lemma ro_zoom {W A} (pick : W → S) (put : S → W → W) (m : M S A) : (∀ w, put (pick w) w = w) → read_only m → read_only (zoom pick put m).
Proof. intros Hput Hm w fs. specialize (Hm (pick w) fs). unfold zoom. destruct (m (pick w) fs) as [[o s1] fs1]. cbn in *. by subst. Qed.
End reading.

Lemma ro_db {A} (m : M db A) : read_only m → read_only (on_db m).
Proof. apply ro_zoom. by intros []. Qed.
Lemma ro_mod {A} (m : M mdb A) : read_only m → read_only (on_mod m).
Proof. apply ro_zoom. by intros []. Qed.
Lemma ro_config {A} (m : M _ A) : read_only m → read_only (on_config m).
Proof. apply ro_zoom. by intros []. Qed.
Lemma ro_lexicons {A} (m : M ldb A) : read_only m → read_only (on_lexicons m).
Proof. apply ro_zoom. by intros []. Qed.
Lemma ro_oauth {A} (m : M odb A) : read_only m → read_only (on_oauth m).
Proof. apply ro_zoom. by intros []. Qed.

#[export] Hint Resolve ro_ret ro_throw ro_outcome ro_gets ro_get : reading.

(** Through the structure of a computation; what is left is closed by hints, or is a query. *)
Ltac reading :=
  repeat match goal with
    | |- read_only (_ ≫= _) => apply ro_bind; [|intros ?]
    | |- read_only (if ?b then _ else _) => destruct b
    | |- read_only (match ?x with _ => _ end) => destruct x
    | |- read_only (_ <$> _) => apply ro_fmap
    | |- read_only (wrap _ _) => apply ro_wrap
    | |- read_only (attempt _) => apply ro_attempt
    | |- read_only (on_db _) => apply ro_db
    | |- read_only (on_mod _) => apply ro_mod
    | |- read_only (on_config _) => apply ro_config
    | |- read_only (on_lexicons _) => apply ro_lexicons
    | |- read_only (on_oauth _) => apply ro_oauth
    | |- _ => solve [auto with reading]
    | |- _ => apply ro_query
    end.

(** ** Who changes what *)

(** The caller is an administrator: by the session, or by a proxy that presents the configured key. *)
Definition privileged (adminDIDs : list string) (adminAPIKey ctxUser proxiedUserDID providedKey : string) : Prop :=
  ∃ did, did ≠ "" ∧ did ∈ adminDIDs ∧
    (did = ctxUser ∨ ctxUser = "" ∧ did = proxiedUserDID ∧ trim_space adminAPIKey ≠ "" ∧ trim_space providedKey = trim_space adminAPIKey).

Lemma isAdminDID_in did l : isAdminDID did l = true ↔ did ∈ l.
Proof.
  unfold isAdminDID. rewrite existsb_exists. setoid_rewrite String.eqb_eq. split; [|intros Hd; exists did; split; [by apply list_elem_of_In|done]].
  intros (d & Hd & ->). by apply list_elem_of_In.
Qed.

Lemma ParseAdminDIDs_not_empty value : "" ∉ ParseAdminDIDs value.
Proof. unfold ParseAdminDIDs, trimmed_parts. destruct (value =? "")%string; [apply not_elem_of_nil|]. by intros [? _]%list_elem_of_filter. Qed.

Lemma authenticate_admin value key ctxUser proxied provided :
  au_isAdmin (authenticate (ParseAdminDIDs value) key ctxUser proxied provided) = true ↔
  privileged (ParseAdminDIDs value) key ctxUser proxied provided.
Proof.
  unfold authenticate, privileged. cbn [au_isAdmin]. rewrite isAdminDID_in. assert (Hne := ParseAdminDIDs_not_empty value).
  destruct (ctxUser =? "")%string eqn:Eu; cbn [negb]; [apply String.eqb_eq in Eu as ->|apply String.eqb_neq in Eu].
  2: { split; [intros Hin; exists ctxUser; auto|by intros (d & _ & Hin & [->|(-> & _)])]. }
  destruct (proxied =? "")%string eqn:Ep; [apply String.eqb_eq in Ep as ->|apply String.eqb_neq in Ep].
  { split; [done|by intros (d & Hd & _ & [->|(_ & -> & _)])]. }
  unfold isValidAdminAPIKey. set (e := trim_space key). set (p := trim_space provided).
  destruct (e =? "")%string eqn:Ee; [apply String.eqb_eq in Ee; split; [done|by intros (d & Hd & _ & [->|(_ & _ & He & _)])]|apply String.eqb_neq in Ee].
  destruct (p =? "")%string eqn:Epp; [apply String.eqb_eq in Epp; split; [done|intros (d & Hd & _ & [->|(_ & _ & He & Hk)]); [done|congruence]]|].
  destruct (p =? e)%string eqn:Eq; [apply String.eqb_eq in Eq|apply String.eqb_neq in Eq].
  - split; [intros Hin; exists proxied; auto 10|by intros (d & Hd & Hin & [->|(_ & -> & _)])].
  - split; [done|by intros (d & Hd & _ & [->|(_ & _ & _ & Hk)])].
Qed.

Section admin_only.
Context `{Env} `{TextOrder} `{Indigo} `{AdminWorld}.
Context (float64_ok : string → bool) (domainDID : string) (labelerSubscribeEnabled : bool) (defaultLabelerSubscribeURLs : string).
Context (backfillCallback : option (string → M db unit)) (fullBackfill : bool) (filesystemLexicons : gmap string string).

Lemma Get_ro key : read_only (Get key).
Proof. apply ro_stmt. intros c a c'. by destruct (c !! key); intros [=]. Qed.
Lemma get_or_ro key dflt : read_only (get_or key dflt).
Proof. apply ro_bind; [apply ro_attempt, Get_ro|done]. Qed.
#[local] Hint Resolve Get_ro get_or_ro : reading.

Lemma SettingsOf_ro dids : read_only (SettingsOf dids labelerSubscribeEnabled defaultLabelerSubscribeURLs).
Proof. unfold SettingsOf, setting, labelerSubscribeURLList. reading. Qed.

Lemma paginate_ro {A} (f : mdb → outcome A) : read_only (stmt (λ d, page ← f d; Ok (page, d))).
Proof. apply ro_stmt. intros s a s'. cbn. destruct (f s); [|done]. by intros [= _ <-]. Qed.
#[local] Hint Resolve paginate_ro : reading.

Lemma query_ro dids a q : read_only (resolve_query dids labelerSubscribeEnabled defaultLabelerSubscribeURLs a q).
Proof.
  destruct q; cbn; unfold StatisticsOf, ViewerLabelPreferences, LabelsOf, Labels_GetPaginated, ReportsOf, Reports_GetPaginated, PurgeActorPreview, GetRecentActivity.
  all: try (apply ro_bind; [done|intros ?]); try apply ro_fmap; try apply SettingsOf_ro.
  all: reading.
Qed.

(** C14. Only administrators change anything: whatever a field's arguments and whichever statements fail, the state is as
    it was unless the caller is one of the configured accounts by its session, or comes through a proxy that
    presents the configured key - which is no blank - and names one; nor does anyone else get an answer but from the public fields. *)
Theorem admin_only value key ctxUser proxied provided f w fs o w' fs' :
  serve float64_ok (ParseAdminDIDs value) domainDID labelerSubscribeEnabled defaultLabelerSubscribeURLs backfillCallback fullBackfill filesystemLexicons
    key ctxUser proxied provided f w fs = (o, w', fs') →
  (w' = w ∨ privileged (ParseAdminDIDs value) key ctxUser proxied provided) ∧
  (is_ok o = true → (∃ q, f = Query q ∧ public_query q = true) ∨ privileged (ParseAdminDIDs value) key ctxUser proxied provided).
Proof.
  unfold serve. set (a := authenticate _ _ _ _ _). assert (Ha := authenticate_admin value key ctxUser proxied provided). fold a in Ha.
  destruct (au_isAdmin a) eqn:E; [intros _; split; right; by apply Ha|]. assert (Hreq : requireAdmin a = Err "admin privileges required") by (unfold requireAdmin; by rewrite E).
  destruct f as [q|m]; cbn [resolve_field].
  - intros Hq. split.
    { left. assert (Hro := query_ro (ParseAdminDIDs value) a q w fs). by rewrite Hq in Hro. }
    intros Ho. left. exists q. split; [done|]. destruct q; try done; cbn [resolve_query] in Hq; rewrite Hreq in Hq; by injection Hq as <- _ _.
  - unfold resolve_mutation. rewrite Hreq. intros [= <- <- <-]. split; [by left|done].
Qed.
End admin_only.

(** ** Computations that keep a part of the state *)

Definition keeps {S B A} (part : S → B) (m : M S A) : Prop := ∀ s fs, part (m s fs).1.2 = part s.

Section keeping.
Context {S B : Type} (part : S → B).

Lemma keeps_read_only {A} (m : M S A) : read_only m → keeps part m.
Proof. intros Hm s fs. by rewrite Hm. Qed.
Lemma keeps_bind {A C} (m : M S A) (f : A → M S C) : keeps part m → (∀ a, keeps part (f a)) → keeps part (m ≫= f).
Proof.
  intros Hm Hf s fs. specialize (Hm s fs). unfold mbind, M_bind. destruct (m s fs) as [[[a|e] s1] fs1]; cbn in *; [|done].
  specialize (Hf a s1 fs1). by rewrite Hf.
Qed.
Lemma keeps_fmap {A C} (f : A → C) (m : M S A) : keeps part m → keeps part (f <$> m).
Proof. intros Hm s fs. specialize (Hm s fs). unfold fmap, M_fmap. by destruct (m s fs) as [[[a|e] s1] fs1]. Qed.
Lemma keeps_attempt {A} (m : M S A) : keeps part m → keeps part (attempt m).
Proof. intros Hm s fs. specialize (Hm s fs). unfold attempt. by destruct (m s fs) as [[o s1] fs1]. Qed.
Lemma keeps_for_each {A} (f : A → M S unit) xs : (∀ x, keeps part (f x)) → keeps part (for_each f xs).
Proof. intros Hf. induction xs as [|x xs IH]; [done|]. by apply keeps_bind. Qed.
Lemma keeps_modify f : (∀ s, part (f s) = part s) → keeps part (modify f).
Proof. intros Hf s fs. apply Hf. Qed.
End keeping.

Section others.
Context {B : Type} (part : world → B).

Lemma keeps_zoom {S A} (pick : world → S) (put : S → world → world) (m : M S A) :
  (∀ x w, part (put x w) = part w) → keeps part (zoom pick put m).
Proof. intros Hput w fs. unfold zoom. destruct (m (pick w) fs) as [[o s1] fs1]. apply Hput. Qed.
End others.

Create HintDb keeping.

Ltac keeping :=
  repeat match goal with
    | |- keeps _ (_ ≫= _) => apply keeps_bind; [|intros ?]
    | |- keeps _ (if ?b then _ else _) => destruct b
    | |- keeps _ (match ?x with _ => _ end) => destruct x
    | |- keeps _ (_ <$> _) => apply keeps_fmap
    | |- keeps _ (attempt _) => apply keeps_attempt
    | |- keeps _ (for_each _ _) => apply keeps_for_each; intros ?
    | |- keeps _ (on_db _) => apply keeps_zoom; done
    | |- keeps _ (on_mod _) => apply keeps_zoom; done
    | |- keeps _ (on_config _) => apply keeps_zoom; done
    | |- keeps _ (on_lexicons _) => apply keeps_zoom; done
    | |- keeps _ (on_oauth _) => apply keeps_zoom; done
    | |- keeps _ (modify _) => apply keeps_modify; done
    | |- _ => solve [auto with keeping]
    | |- keeps _ _ => apply keeps_read_only; solve [reading]
    end.

Section lexicons.
Context `{Env} `{TextOrder} `{Indigo} `{AdminWorld}.
Context (float64_ok : string → bool) (domainDID : string) (labelerSubscribeEnabled : bool) (defaultLabelerSubscribeURLs : string).
Context (backfillCallback : option (string → M db unit)) (fullBackfill : bool) (filesystemLexicons : gmap string string).

Notation served adminDIDs := (serve float64_ok adminDIDs domainDID labelerSubscribeEnabled defaultLabelerSubscribeURLs backfillCallback fullBackfill filesystemLexicons).

(** The startup validator accepts the Lexicons of the file system together with those saved. *)
Definition set_checked (l : ldb) : Prop :=
  CheckLexiconSet float64_ok (lexiconSetWithFilesystem filesystemLexicons (saved_lexicons l)) = Ok tt.

Definition stays_checked {A} (m : M world A) : Prop := ∀ w fs, set_checked (w_lexicons w) → set_checked (w_lexicons (m w fs).1.2).

Lemma stays_keeps {A} (m : M world A) : keeps w_lexicons m → stays_checked m.
Proof. intros Hm w fs. by rewrite Hm. Qed.
Lemma stays_bind {A C} (m : M world A) (f : A → M world C) : stays_checked m → (∀ a, stays_checked (f a)) → stays_checked (m ≫= f).
Proof.
  intros Hm Hf w fs Hw. specialize (Hm w fs Hw). unfold mbind, M_bind. destruct (m w fs) as [[[a|e] s1] fs1]; cbn in *; [|done]. by apply Hf.
Qed.
Lemma stays_fmap {A C} (f : A → C) (m : M world A) : stays_checked m → stays_checked (f <$> m).
Proof. intros Hm w fs Hw. specialize (Hm w fs Hw). unfold fmap, M_fmap. by destruct (m w fs) as [[[a|e] s1] fs1]. Qed.

Lemma stays_mutation msg build msg' : stays_checked (on_lexicons (wrap msg (MutateValidated build (check_set float64_ok filesystemLexicons msg')))).
Proof.
  intros w fs Hw. unfold on_lexicons, zoom, wrap. assert (Hm := MutateValidated_atomic build (check_set float64_ok filesystemLexicons msg') (w_lexicons w) fs).
  destruct (MutateValidated _ _ _ _) as [[[[]|e] d'] fs']; cbn; [|by subst]. unfold check_set in Hm. unfold set_checked.
  by destruct (CheckLexiconSet _ _) as [[]|].
Qed.

Lemma SettingsOf_keeps dids : keeps w_lexicons (SettingsOf dids labelerSubscribeEnabled defaultLabelerSubscribeURLs).
Proof. apply keeps_read_only, SettingsOf_ro. Qed.
#[local] Hint Resolve SettingsOf_keeps : keeping.

Lemma other_mutations_keep dids a m :
  keeps w_lexicons (account_mutation float64_ok dids domainDID labelerSubscribeEnabled defaultLabelerSubscribeURLs backfillCallback fullBackfill a m).
Proof.
  destruct m; cbn; unfold UpdateSettings, set_setting, RemoveLabelerSubscribeURL, labelerSubscribeURLList, ResetAll, PopulateActivity, CreateLabel, NegateLabel, CreateLabelDefinition,
    ResolveReport, TriggerBackfill, BackfillActor, PurgeActor, CreateOAuthClient, UpdateOAuthClient, DeleteOAuthClient; keeping.
Qed.

Lemma mutation_checked dids a m :
  stays_checked (run_mutation float64_ok dids domainDID labelerSubscribeEnabled defaultLabelerSubscribeURLs backfillCallback fullBackfill filesystemLexicons a m).
Proof.
  destruct m; cbn [run_mutation]; try apply stays_keeps, other_mutations_keep; apply stays_fmap.
  - unfold UploadLexicons. apply stays_bind; [by apply stays_keeps|]. intros writes. apply stays_bind; [apply stays_mutation|]. by intros _; apply stays_keeps.
  - unfold RegisterLexicon. destruct (_ <? 3); [by apply stays_keeps|]. apply stays_bind; [apply stays_keeps; keeping|]. intros [|]; [by apply stays_keeps|].
    apply stays_bind; [by apply stays_keeps|]. intros [schema did]. apply stays_bind; [by apply stays_keeps|]. intros _.
    apply stays_bind; [apply stays_mutation|]. by intros _; apply stays_keeps.
  - unfold DeleteLexicon. apply stays_bind; [apply stays_mutation|]. by intros _; apply stays_keeps.
Qed.

(** C15. Administrators cannot save Lexicons the validator refuses at the next start: if the Lexicons of the file system and those saved
    make a set [CheckLexiconSet] accepts - every document parses for both parsers, and every reference leads somewhere - they do
    after any request to the admin API, whichever of its statements fail. (The GraphQL schema that a start also builds from
    them is not checked by the API, and refuses some of these sets.) *)
Theorem lexicons_stay_checked adminDIDs key ctxUser proxied provided f w fs :
  set_checked (w_lexicons w) → set_checked (w_lexicons (served adminDIDs key ctxUser proxied provided f w fs).1.2).
Proof.
  intros Hw. unfold serve. destruct f as [q|m]; cbn [resolve_field].
  - by rewrite query_ro.
  - unfold resolve_mutation. apply stays_bind; [by apply stays_keeps|intros _; apply mutation_checked|done].
Qed.
End lexicons.

(** ** What moderators decided last *)

(** Ids grow. *)
Definition ids_ok (d : mdb) : Prop := Forall (λ l, lb_ID l < m_next_label d)%Z (m_labels d).

(** There is a label of that value on the subject that no later one takes back. *)
Definition standing (d : mdb) (uri val : string) : bool :=
  existsb (λ l, (lb_URI l =? uri)%string && (lb_Val l =? val)%string && active (m_labels d) l) (m_labels d).

Definition same_key (l x : Label) : bool := (lb_URI l =? lb_URI x)%string && (lb_Val l =? lb_Val x)%string.

Lemma negated_snoc ls l x : (lb_ID x < lb_ID l)%Z → negated (ls ++ [l]) x = negated ls x || (same_key l x && lb_Neg l).
Proof.
  intros Hid. unfold negated, same_key. rewrite existsb_app. f_equal. cbn. rewrite orb_false_r.
  assert (Hlt : (lb_ID x <? lb_ID l)%Z = true) by by apply Z.ltb_lt. by rewrite Hlt, andb_true_r.
Qed.

Lemma negated_none ls l : Forall (λ x, lb_ID x < lb_ID l)%Z ls → negated (ls ++ [l]) l = false.
Proof.
  intros Hall. unfold negated. apply not_true_iff_false. rewrite existsb_exists. intros (n & Hn & Hc). apply andb_true_iff in Hc as [_ Hlt%Z.ltb_lt].
  apply list_elem_of_In, elem_of_app in Hn as [Hn|Hn%list_elem_of_singleton]; [|subst; lia]. rewrite Forall_forall in Hall. specialize (Hall n Hn). lia.
Qed.

(** A row of a subject and a value decides on them, and on nothing else. *)
Lemma standing_add d l uri val :
  ids_ok d → lb_ID l = m_next_label d →
  standing (add_label l d) uri val =
    if (lb_URI l =? uri)%string && (lb_Val l =? val)%string then negb (lb_Neg l) else standing d uri val.
Proof.
  intros Hids Hid. unfold ids_ok in Hids. rewrite <- Hid in Hids.
  unfold standing. cbn [add_label m_labels]. rewrite existsb_app. cbn [existsb]. rewrite orb_false_r.
  assert (Hl : active (m_labels d ++ [l]) l = negb (lb_Neg l)) by (unfold active; rewrite negated_none by done; by rewrite andb_true_r).
  rewrite Hl. assert (Hold : ∀ x, x ∈ m_labels d → active (m_labels d ++ [l]) x = active (m_labels d) x && negb (same_key l x && lb_Neg l)).
  { intros x Hx. rewrite Forall_forall in Hids. unfold active. rewrite negated_snoc by by apply Hids. by rewrite negb_orb, andb_assoc. }
  destruct ((lb_URI l =? uri)%string && (lb_Val l =? val)%string) eqn:Ek.
  - apply andb_true_iff in Ek as [Eu%String.eqb_eq Ev%String.eqb_eq]. destruct (lb_Neg l) eqn:En; cbn [negb]; [|by rewrite orb_true_r].
    rewrite orb_false_r. apply not_true_iff_false. rewrite existsb_exists. intros (x & Hx & Hc). apply list_elem_of_In in Hx. rewrite Hold in Hc by done.
    apply andb_true_iff in Hc as [[Hu%String.eqb_eq Hv%String.eqb_eq]%andb_true_iff [_ Hk]%andb_true_iff].
    unfold same_key in Hk. subst. by rewrite Hu, Hv, !String.eqb_refl in Hk.
  - rewrite andb_false_l, orb_false_r. apply existsb_ext_in. intros x Hx. rewrite Hold by done.
    destruct ((lb_URI x =? uri)%string && (lb_Val x =? val)%string) eqn:Ex; [|done]. rewrite !andb_true_l.
    apply andb_true_iff in Ex as [<-%String.eqb_eq <-%String.eqb_eq]. unfold same_key. by rewrite Ek, andb_true_r.
Qed.

Lemma ids_add d l : ids_ok d → lb_ID l = m_next_label d → ids_ok (add_label l d).
Proof.
  intros Hids Hid. unfold ids_ok in *. cbn. apply Forall_app. split; [|constructor; [lia|done]].
  eapply Forall_impl; [exact Hids|]. cbn. intros x Hx. lia.
Qed.

Section moderation.
Context `{Env} `{TextOrder} (on_sqlite : dialect = SQLite).

(** The labels are as they were, or one more row was written, as it surely was after a success. *)
Definition writes_label {A} (m : M mdb A) (uri val : string) (neg : bool) : Prop :=
  ∀ d fs o d' fs', m d fs = (o, d', fs') →
    d' = d ∧ is_ok o = false ∨ ∃ l, d' = add_label l d ∧ lb_ID l = m_next_label d ∧ lb_URI l = uri ∧ lb_Val l = val ∧ lb_Neg l = neg.

Lemma insert_label_row src uri cid val neg exp d l d' :
  insert_label src uri cid val neg exp d = Ok (l, d') → d' = add_label l d ∧ lb_ID l = m_next_label d ∧ lb_URI l = uri ∧ lb_Val l = val ∧ lb_Neg l = neg.
Proof. unfold insert_label. destruct (m_definitions d !! val); [|done]. by intros [= <- <-]. Qed.

Lemma neg_as_int_ok : neg_as_int = Ok tt.
Proof. unfold neg_as_int. by rewrite on_sqlite. Qed.

Lemma inserted_ro l : read_only (inserted_label l).
Proof.
  unfold inserted_label. rewrite on_sqlite. apply ro_stmt. intros d a d'. destruct (head _); [|done]. rewrite neg_as_int_ok. by intros [= _ <-].
Qed.

Lemma writes_then f uri val neg :
  (∀ d l d', f d = Ok (l, d') → d' = add_label l d ∧ lb_ID l = m_next_label d ∧ lb_URI l = uri ∧ lb_Val l = val ∧ lb_Neg l = neg) →
  writes_label (l ← stmt f; inserted_label l) uri val neg.
Proof.
  intros Hf d fs o d' fs'. unfold mbind, M_bind. destruct (stmt f d fs) as [[[l|e] d1] fs1] eqn:E.
  - intros Hi. assert (Hro := inserted_ro l d1 fs1). rewrite Hi in Hro. cbn in Hro. subst d'. right. exists l.
    unfold stmt in E. destruct fs as [|[] fs]; [|done|]; destruct (f d) as [[l' d2]|e'] eqn:Ef; try done; injection E as <- <- _; by apply Hf in Ef.
  - intros [= <- <- <-]. left. split; [|done]. unfold stmt in E. destruct fs as [|[] fs]; [|by injection E|]; (destruct (f d) as [[l' d2]|e'] eqn:Ef; [done|by injection E]).
Qed.

Lemma Labels_Insert_writes src uri cid val exp : writes_label (Labels_Insert src uri cid val exp) uri val false.
Proof. apply writes_then. intros d l d'. apply insert_label_row. Qed.
Lemma InsertNegation_writes src uri val : writes_label (InsertNegation src uri val) uri val true.
Proof. apply writes_then. intros d l d'. rewrite neg_as_int_ok. apply insert_label_row. Qed.

(** What a field decides: a subject, a value, and whether the label stands. *)
Definition decides (w : world) (f : field) : option (string * string * bool) :=
  match f with
  | Mutation (CreateLabelField uri val _ _) => Some (uri, val, true)
  | Mutation (NegateLabelField uri val) => Some (uri, val, false)
  | Mutation (ResolveReportField id action labelVal) =>
      if (action =? "apply_label")%string then r ← report_row (w_mod w) id; Some (rp_SubjectURI r, labelVal, true) else None
  | _ => None
  end.

Definition label_part (d : mdb) : list Label * Z := (m_labels d, m_next_label d).
Notation labels_of w := (label_part (w_mod w)).

Lemma keeps_on_mod {A} (m : M mdb A) : keeps label_part m → keeps (λ w, labels_of w) (on_mod m).
Proof. intros Hm w fs. specialize (Hm (w_mod w) fs). unfold on_mod, zoom. destruct (m (w_mod w) fs) as [[o s1] fs1]. exact Hm. Qed.

Lemma keeps_stmt {A} (f : mdb → outcome (A * mdb)) : (∀ d a d', f d = Ok (a, d') → label_part d' = label_part d) → keeps label_part (stmt f).
Proof. intros Hf s fs. unfold stmt. destruct fs as [|[] fs]; [|done|]; destruct (f s) as [[a s']|e] eqn:E; try done; by apply Hf in E. Qed.

Lemma keeps_wrap {S B A} (part : S → B) msg (m : M S A) : keeps part m → keeps part (wrap msg m).
Proof. intros Hm s fs. specialize (Hm s fs). unfold wrap. by destruct (m s fs) as [[o s1] fs1]. Qed.

Lemma standing_part d d' uri val : label_part d' = label_part d → standing d' uri val = standing d uri val.
Proof. intros [= Hl _]. unfold standing. by rewrite Hl. Qed.
Lemma ids_part d d' : label_part d' = label_part d → ids_ok d → ids_ok d'.
Proof. intros [= Hl Hn]. unfold ids_ok. by rewrite Hl, Hn. Qed.

(** The labels are as they were, or one row more. *)
Definition one_more (d d' : mdb) (dec : string * string * bool) : Prop :=
  ∃ l, label_part d' = label_part (add_label l d) ∧ lb_ID l = m_next_label d ∧ dec = (lb_URI l, lb_Val l, negb (lb_Neg l)).
Definition decided {A} (m : M world A) (w : world) (fs : faults) (dec : string * string * bool) : Prop :=
  match m w fs with
  | (o, w', _) => labels_of w' = labels_of w ∧ is_ok o = false ∨ one_more (w_mod w) (w_mod w') dec
  end.

Lemma decided_after {A C} (m : M world A) (f : A → M world C) w fs dec :
  read_only m → (∀ a fs, decided (f a) w fs dec) → decided (m ≫= f) w fs dec.
Proof.
  intros Hm Hf. unfold decided, mbind, M_bind. specialize (Hm w fs). destruct (m w fs) as [[[a|e] w1] fs1]; cbn in Hm; subst; [apply Hf|by left].
Qed.
Lemma decided_before {A C} (m : M world A) (f : A → M world C) w fs dec :
  decided m w fs dec → (∀ a, keeps (λ w, labels_of w) (f a)) → decided (m ≫= f) w fs dec.
Proof.
  unfold decided, mbind, M_bind. destruct (m w fs) as [[[a|e] w1] fs1]; [|done]. intros [[_ Hd]|Hd] Hf; [done|].
  specialize (Hf a w1 fs1). destruct (f a w1 fs1) as [[o w2] fs2]. cbn in Hf. right. destruct Hd as (l & Hl & Hrest). exists l. by rewrite Hf.
Qed.
Lemma decided_fmap {A C} (f : A → C) (m : M world A) w fs dec : decided m w fs dec → decided (f <$> m) w fs dec.
Proof. unfold decided, fmap, M_fmap. by destruct (m w fs) as [[[a|e] w1] fs1]. Qed.
Lemma decided_nothing {A} e w fs dec : decided (throw e : M world A) w fs dec.
Proof. by left. Qed.
Lemma decided_row {A} msg (m : M mdb A) uri val neg w fs : writes_label m uri val neg → decided (on_mod (wrap msg m)) w fs (uri, val, negb neg).
Proof.
  intros Hm. unfold decided, on_mod, zoom, wrap. destruct (m (w_mod w) fs) as [[o d'] fs'] eqn:E. rewrite is_ok_wrap. cbn.
  destruct (Hm _ _ _ _ _ E) as [[-> Ho]|(l & -> & Hid & <- & <- & <-)]; [by left|right]. by exists l.
Qed.
End moderation.

Section decisions.
Context `{Env} `{TextOrder} `{Indigo} `{AdminWorld} (on_sqlite : dialect = SQLite).
Context (float64_ok : string → bool) (domainDID : string) (labelerSubscribeEnabled : bool) (defaultLabelerSubscribeURLs : string).
Context (backfillCallback : option (string → M db unit)) (fullBackfill : bool) (filesystemLexicons : gmap string string).

Notation labels_of w := (label_part (w_mod w)).
Notation run_it dids := (run_mutation float64_ok dids domainDID labelerSubscribeEnabled defaultLabelerSubscribeURLs backfillCallback fullBackfill filesystemLexicons).

Lemma Definitions_Insert_keeps val description sev vis : keeps label_part (Definitions_Insert val description sev vis).
Proof. apply keeps_stmt. intros d a d'. destruct (negb _); [done|]. destruct (m_definitions d !! val); [done|]. by intros [= _ <-]. Qed.
Lemma Reports_Get_ro id : read_only (Reports_Get id).
Proof. apply ro_stmt. intros d a d'. destruct (report_row d id); [|done]. by intros [= _ <-]. Qed.
Lemma Definitions_Get_ro val : read_only (Definitions_Get val).
Proof. apply ro_stmt. intros d a d'. destruct (m_definitions d !! val); [|done]. by intros [= _ <-]. Qed.
Lemma Resolve_keeps id status by_ : keeps label_part (Resolve id status by_).
Proof.
  unfold Resolve. apply keeps_bind; [|intros _; apply keeps_read_only, Reports_Get_ro].
  apply keeps_stmt. intros d a d'. destruct (_ && _); [done|]. by intros [= _ <-].
Qed.
Lemma Reports_DeleteAll_keeps : keeps label_part Reports_DeleteAll.
Proof. apply keeps_stmt. by intros d a d' [= _ <-]. Qed.
#[local] Hint Resolve Definitions_Insert_keeps Reports_Get_ro Definitions_Get_ro Resolve_keeps Reports_DeleteAll_keeps keeps_on_mod keeps_wrap keeps_read_only : keeping.
#[local] Hint Resolve Reports_Get_ro Definitions_Get_ro : reading.

Lemma CreateLabel_decides uri val cid exp w fs : decided (CreateLabel domainDID uri val cid exp) w fs (uri, val, true).
Proof.
  unfold CreateLabel. destruct (negb _); [by left|]. apply decided_after; [reading|]. intros [|] fs1; [|by left]. cbn [negb].
  assert (Hins : ∀ e, decided (on_mod (wrap "failed to create label" (Labels_Insert domainDID uri cid val e))) w fs1 (uri, val, true)).
  { intros e. by apply (decided_row _ _ uri val false), Labels_Insert_writes. }
  destruct exp as [e|]; [|by apply Hins]. destruct (time_parse _ e); [by apply Hins|by left].
Qed.

Lemma NegateLabel_decides uri val w fs : decided (NegateLabel domainDID uri val) w fs (uri, val, false).
Proof. unfold NegateLabel. destruct (negb _); [by left|]. by apply (decided_row _ _ uri val true), InsertNegation_writes. Qed.

Lemma Reports_Get_row id w fs r w' fs' :
  on_mod (wrap "failed to get report" (Reports_Get id)) w fs = (Ok r, w', fs') → report_row (w_mod w) id = Some r.
Proof.
  unfold on_mod, zoom, wrap, Reports_Get, stmt. destruct fs as [|[] fs]; [|done|].
  all: destruct (report_row (w_mod w) id) as [r'|]; cbn; [by intros [= -> _ _]|done].
Qed.

Lemma ResolveReport_decides id action labelVal by_ w fs :
  match decides w (Mutation (ResolveReportField id action labelVal)) with
  | Some dec => decided (ResolveReport domainDID id action (optional labelVal) by_) w fs dec
  | None => labels_of (ResolveReport domainDID id action (optional labelVal) by_ w fs).1.2 = labels_of w
  end.
Proof.
  unfold ResolveReport. cbn [decides]. set (get := on_mod (wrap "failed to get report" _)). assert (Hro : read_only get) by (unfold get; reading).
  destruct (get w fs) as [[[r|e] w1] fs1] eqn:Eg; assert (Hw1 := Hro w fs); rewrite Eg in Hw1; cbn in Hw1; subst w1.
  - rewrite (Reports_Get_row _ _ _ _ _ _ Eg), (bind_ok _ _ _ _ _ _ _ Eg). destruct (action =? "apply_label")%string; cbn [mbind option_bind].
    + unfold decided. rewrite (bind_ok _ _ _ _ _ _ _ Eg). apply decided_before; [|intros ?; keeping].
      unfold optional. destruct (labelVal =? "")%string; [by left|]. apply decided_before; [|intros ?; by apply keeps_read_only].
      by apply (decided_row _ _ _ _ false), Labels_Insert_writes.
    + destruct (action =? "dismiss")%string; [|done].
      assert (Hk : keeps (λ w, labels_of w) (status ← mret StatusDismissed; on_mod (wrap "failed to resolve report" (Resolve id status by_)))) by keeping.
      apply Hk.
  - rewrite (bind_err _ _ _ _ _ _ _ Eg). destruct (action =? "apply_label")%string; [|done].
    destruct (report_row (w_mod w) id) as [r|]; [|done]. cbn. unfold decided. rewrite (bind_err _ _ _ _ _ _ _ Eg). by left.
Qed.

Lemma other_mutations_labels dids a m w fs :
  decides w (Mutation m) = None → (∀ c, m ≠ ResetAllField c) → labels_of (run_it dids a m w fs).1.2 = labels_of w.
Proof.
  intros Hd Hreset. assert (Hset := λ dids, keeps_read_only (λ w, labels_of w) _ (SettingsOf_ro labelerSubscribeEnabled defaultLabelerSubscribeURLs dids)).
  assert (Hcut : ∀ p : M world answer, keeps (λ w, labels_of w) p → labels_of (p w fs).1.2 = labels_of w) by (intros p Hk; apply Hk).
  destruct m; try done; try by destruct (Hreset confirm).
  all: lazymatch goal with
    | |- context [ResolveReportField ?id ?action ?labelVal] =>
        assert (Hr := ResolveReport_decides id action labelVal (au_userDID a) w fs); rewrite Hd in Hr; cbn; unfold fmap, M_fmap;
        by destruct (ResolveReport _ _ _ _ _ _ _) as [[[]]]
    | _ => apply Hcut; cbn end.
  all: unfold UpdateSettings, set_setting, RemoveLabelerSubscribeURL, labelerSubscribeURLList, PopulateActivity, CreateLabelDefinition, TriggerBackfill, BackfillActor,
      PurgeActor, CreateOAuthClient, UpdateOAuthClient, DeleteOAuthClient, UploadLexicons, RegisterLexicon, DeleteLexicon; keeping.
Qed.

Lemma ResetAll_labels confirm w fs :
  labels_of (ResetAll confirm w fs).1.2 = labels_of w ∨
  m_labels (w_mod (ResetAll confirm w fs).1.2) = [] ∧ m_next_label (w_mod (ResetAll confirm w fs).1.2) = m_next_label (w_mod w).
Proof.
  unfold ResetAll. destruct (negb _); [by left|].
  match goal with |- context [(?m ≫= ?f) w fs] => set (first := m); set (rest := f) end.
  assert (Hfirst : keeps w_mod first) by (unfold first; keeping). unfold mbind, M_bind. specialize (Hfirst w fs).
  destruct (first w fs) as [[[[]|e] w1] fs1]; cbn in Hfirst; [|left; cbn; by rewrite Hfirst]. rewrite <- Hfirst. unfold rest. clear rest first Hfirst.
  match goal with |- context [(?m ≫= ?f) w1 fs1] => set (second := m); set (rest := f) end.
  assert (Hsecond : keeps (λ w, labels_of w) second) by (unfold second; keeping). unfold mbind, M_bind. specialize (Hsecond w1 fs1).
  destruct (second w1 fs1) as [[[[]|e] w2] fs2]; cbn in Hsecond; [|by left]. unfold rest. clear rest second.
  assert (Hn : m_next_label (w_mod w2) = m_next_label (w_mod w1)) by by injection Hsecond.
  match goal with |- context [(?m ≫= ?f) w2 fs2] => set (third := m); set (rest := f) end.
  assert (Hrest : ∀ u, keeps w_mod (rest u)) by (intros u; unfold rest; keeping). unfold mbind, M_bind.
  destruct (third w2 fs2) as [[[u|e] w3] fs3] eqn:E; unfold third, on_mod, zoom, wrap, Labels_DeleteAll, exec, stmt in E.
  - rewrite Hrest. right. by destruct fs2 as [|[] fs2]; try done; injection E as _ <- _; cbn.
  - left. by destruct fs2 as [|[] fs2]; try done; injection E as _ <- _; cbn.
Qed.

Lemma standing_empty d uri val : m_labels d = [] → standing d uri val = false.
Proof. intros Hl. unfold standing. by rewrite Hl. Qed.

Lemma ids_empty d : m_labels d = [] → ids_ok d.
Proof. intros Hl. unfold ids_ok. by rewrite Hl. Qed.

Notation served adminDIDs := (serve float64_ok adminDIDs domainDID labelerSubscribeEnabled defaultLabelerSubscribeURLs backfillCallback fullBackfill filesystemLexicons).

(** C16. On SQLite, what moderators decided last about a subject holds: after any request to the admin API a label stands on
    a subject exactly if it stood before, unless the request was for that label - to apply it, by itself or for a report, or to take it
    back - and then it stands or not as asked, surely so if the request succeeded; a reset takes every label away or
    none. And an account or record is taken down for the readers of the table exactly while a takedown label stands. *)
Theorem last_decision_holds adminDIDs key ctxUser proxied provided f w fs o w' fs' :
  ids_ok (w_mod w) → served adminDIDs key ctxUser proxied provided f w fs = (o, w', fs') →
  ids_ok (w_mod w') ∧
  (∀ uri val, let now := standing (w_mod w') uri val in
    now = standing (w_mod w) uri val ∨ decides w f = Some (uri, val, now) ∨ (∃ c, f = Mutation (ResetAllField c)) ∧ now = false) ∧
  (is_ok o = true → ∀ uri val b, decides w f = Some (uri, val, b) → standing (w_mod w') uri val = b) ∧
  ∀ uri, (HasTakedown uri (w_mod w') []).1.1 = Ok (standing (w_mod w') uri takedown).
Proof.
  intros Hids Hserve. match goal with |- ?A ∧ ?B ∧ ?C ∧ _ => enough (A ∧ B ∧ C) as (Ha & Hb & Hc) end.
  { split_and!; [exact Ha|exact Hb|exact Hc|]. intros uri. unfold HasTakedown, stmt. by rewrite (neg_as_int_ok on_sqlite). }
  assert (Hsame : labels_of w' = labels_of w → decides w f = None ∨ is_ok o = false → ids_ok (w_mod w') ∧
    (∀ uri val, let now := standing (w_mod w') uri val in
      now = standing (w_mod w) uri val ∨ decides w f = Some (uri, val, now) ∨ (∃ c, f = Mutation (ResetAllField c)) ∧ now = false) ∧
    (is_ok o = true → ∀ uri val b, decides w f = Some (uri, val, b) → standing (w_mod w') uri val = b)).
  { intros Hl Hnone. split; [by eapply ids_part|]. split; [intros uri val; left; by apply standing_part|].
    intros Ho uri val b Hd. destruct Hnone; congruence. }
  unfold serve in Hserve. destruct f as [q|m]; cbn [resolve_field] in Hserve.
  { apply Hsame; [|by left]. assert (Hro := query_ro labelerSubscribeEnabled defaultLabelerSubscribeURLs adminDIDs
      (authenticate adminDIDs key ctxUser proxied provided) q w fs). rewrite Hserve in Hro. cbn in Hro. by subst. }
  unfold resolve_mutation in Hserve. set (a := authenticate _ _ _ _ _) in *. unfold requireAdmin in Hserve. destruct (au_isAdmin a).
  2: { injection Hserve as <- <- _. apply Hsame; [done|by right]. }
  change (run_it adminDIDs a m w fs = (o, w', fs')) in Hserve.
  destruct (decides w (Mutation m)) as [[[uri val] b]|] eqn:Ed.
  - assert (Hdec : decided (run_it adminDIDs a m) w fs (uri, val, b)).
    { destruct m; try done; cbn in Ed.
      - injection Ed as <- <- <-. apply decided_fmap, CreateLabel_decides.
      - injection Ed as <- <- <-. apply decided_fmap, NegateLabel_decides.
      - assert (Hr := ResolveReport_decides id action labelVal (au_userDID a) w fs). cbn [decides] in Hr. rewrite Ed in Hr. by apply decided_fmap. }
    unfold decided in Hdec. rewrite Hserve in Hdec. destruct Hdec as [[Hl Ho]|(l & Hl & Hid & [= -> -> ->])]; [apply Hsame; [done|by right]|].
    split; [eapply ids_part; [exact Hl|by apply ids_add]|].
    assert (Hst : ∀ u v, standing (w_mod w') u v = if (lb_URI l =? u)%string && (lb_Val l =? v)%string then negb (lb_Neg l) else standing (w_mod w) u v).
    { intros u v. rewrite (standing_part _ _ u v Hl). by apply standing_add. }
    split.
    + intros u v. cbn zeta. rewrite Hst. destruct ((lb_URI l =? u)%string && (lb_Val l =? v)%string) eqn:E; [|by left].
      right; left. by apply andb_true_iff in E as [->%String.eqb_eq ->%String.eqb_eq].
    + intros _ u v b' [= <- <- <-]. by rewrite Hst, !String.eqb_refl.
  - assert ((∃ c, m = ResetAllField c) ∨ ∀ c, m ≠ ResetAllField c) as [[c ->]|Hne] by (destruct m; try (by right); left; by eexists).
    + cbn in Hserve. assert (Hr := ResetAll_labels c w fs). unfold fmap, M_fmap in Hserve.
      assert (Hw' : w' = (ResetAll c w fs).1.2) by (destruct (ResetAll c w fs) as [[[]]]; by injection Hserve). rewrite <- Hw' in Hr.
      destruct Hr as [Hl|[Hl Hn]]; [apply Hsame; [done|by left]|]. split; [by apply ids_empty|]. split; [|done].
      intros uri val. right; right. split; [by exists c|by apply standing_empty].
    + apply Hsame; [|by left]. assert (Hl := other_mutations_labels adminDIDs a m w fs Ed). rewrite Hserve in Hl. by apply Hl.
Qed.
End decisions.

(** ** A server at work *)

#[local] Existing Instance byte_order.
#[local] Existing Instance hex_env.
#[local] Existing Instance small_indigo.

(** Archives, URLs and the network: no archive opens, URLs are as they are, and one Lexicon is published. *)
#[local] Instance small_admin : AdminWorld := {|
  zip_files _ := Err "not a valid zip file";
  canonical_url u := Some u;
  ResolveLexicon nsid := if (nsid =? "app.example.post")%string
    then Ok (quoted "{'lexicon':1,'id':'app.example.post','defs':{'main':{'type':'record','key':'any','record':{'type':'object','properties':{'style':{'type':'ref','ref':'app.style#look'}}}}}}", "did:plc:author")
    else Err "not found";
|}.

Definition a_post : string := "at://did:plc:a/app.post/3jzfcijpj2z2a".
Definition small_mdb : mdb :=
  mkMdb [] 1 {[ takedown := mkDefinition takedown "Taken down" "takedown" "hide" 0; "rude" := mkDefinition "rude" "Rude" "alert" "warn" 0 ]} ∅
    [mkReport 1 "did:plc:b" a_post "rude" None StatusPending None None 0] 2 100.
Definition small_world : world :=
  mkWorld stored_db small_mdb ∅ (mkLdb {[ "app.style" := mkLexiconRow style_lexicon style_lexicon 0 ]} 5)
    (mkOdb ∅ ∅ ∅ ∅ ∅ ∅ ∅ ∅ 5 "") false 0.

(** The server whose administrators are [did:plc:admin] and [did:plc:other], with the key [secret]. *)
Definition small_serve (ctxUser proxied provided : string) (f : field) : M world answer :=
  serve any_number (ParseAdminDIDs " did:plc:admin, did:plc:other") "did:web:here" true "wss://labels" None true {[ "app.post" := post_lexicon ]}
    "secret" ctxUser proxied provided f.

Definition state_after (w : world) (requests : list field) : world :=
  foldl (λ w f, (small_serve "did:plc:admin" "" "" f w []).1.2) w requests.

(** A stranger is refused, and so is one who names an administrator without the key. *)
Lemma admin_only_witness :
  ∃ o w' fs', small_serve "" "did:plc:admin" "guess" (Mutation (ResetAllField "RESET")) small_world [] = (o, w', fs') ∧
    w' = small_world ∧ is_ok o = false.
Proof.
  destruct (small_serve "" "did:plc:admin" "guess" (Mutation (ResetAllField "RESET")) small_world []) as [[o w'] fs'] eqn:E. exists o, w', fs'. split; [done|].
  assert (Hno : ¬ privileged (ParseAdminDIDs " did:plc:admin, did:plc:other") "secret" "" "did:plc:admin" "guess").
  { intros (d & Hd & _ & [->|(_ & _ & _ & Hk)]); [done|by vm_compute in Hk]. }
  destruct (admin_only _ _ _ _ _ _ _ _ _ _ _ _ _ _ _ _ _ _ E) as [[->|?] Ho]; [|done]. split; [done|].
  destruct o as [a|e]; [|done]. destruct (Ho eq_refl) as [(q & [=] & _)|?]; done.
Defined.

(** A Lexicon that refers to a saved one is registered; then the saved one cannot be deleted. *)
Definition lexicon_requests : list field :=
  [Mutation (RegisterLexiconField "app.example.post"); Mutation (DeleteLexiconField "app.style"); Mutation (RegisterLexiconField "app.example.gone")].

Lemma lexicons_stay_checked_witness :
  set_checked any_number {[ "app.post" := post_lexicon ]} (w_lexicons (state_after small_world lexicon_requests)) ∧
  sl_ID <$> saved_lexicons (w_lexicons (state_after small_world lexicon_requests)) = ["app.example.post"; "app.style"].
Proof.
  split; [|by vm_compute]. unfold lexicon_requests, state_after. cbn [foldl].
  do 3 apply lexicons_stay_checked. by vm_compute.
Defined.

(** A report is resolved by a takedown, which is then taken back. *)
Lemma last_decision_holds_witness :
  let reported := state_after small_world [Mutation (ResolveReportField 1 "apply_label" takedown)] in
  ids_ok (w_mod reported) ∧ standing (w_mod reported) a_post takedown = true ∧
  (HasTakedown a_post (w_mod reported) []).1.1 = Ok true ∧
  let back := state_after reported [Mutation (NegateLabelField a_post takedown)] in
  standing (w_mod back) a_post takedown = false ∧ (HasTakedown a_post (w_mod back) []).1.1 = Ok false.
Proof.
  set (resolve := Mutation (ResolveReportField 1 "apply_label" takedown)). set (negate := Mutation (NegateLabelField a_post takedown)).
  unfold state_after. cbn [foldl]. cbv zeta. assert (Hids0 : ids_ok (w_mod small_world)) by by constructor.
  destruct (small_serve "did:plc:admin" "" "" resolve small_world []) as [[o1 w1] fs1] eqn:E1.
  destruct (last_decision_holds (eq_refl : @dialect hex_env = SQLite) _ _ _ _ _ _ _ _ _ _ _ _ _ _ _ _ _ _ Hids0 E1) as (Hids1 & _ & Hd1 & Ht1).
  assert (Ho1 : is_ok o1 = true) by by vm_compute in E1; injection E1 as <- _ _.
  specialize (Hd1 Ho1 a_post takedown true eq_refl).
  cbn [fst snd]. destruct (small_serve "did:plc:admin" "" "" negate w1 []) as [[o2 w2] fs2] eqn:E2. cbn [fst snd].
  destruct (last_decision_holds (eq_refl : @dialect hex_env = SQLite) _ _ _ _ _ _ _ _ _ _ _ _ _ _ _ _ _ _ Hids1 E2) as (_ & _ & Hd2 & Ht2).
  assert (Ho2 : is_ok o2 = true) by by vm_compute in E1; injection E1 as _ <- _; vm_compute in E2; injection E2 as <- _ _.
  specialize (Hd2 Ho2 a_post takedown false eq_refl). rewrite Ht1, Ht2, Hd1, Hd2. by split_and!.
Defined.

(** ** What the code leaves open *)

(** A reset keeps the history of records, which the API goes on to serve. *)
Lemma reset_keeps_history confirm w fs : db_versions (w_db (ResetAll confirm w fs).1.2) = db_versions (w_db w).
Proof.
  assert (Hstmt : ∀ (f : db → db), (∀ d, db_versions (f d) = db_versions d) → keeps db_versions (exec f)).
  { intros f Hf s fs'. unfold exec, stmt. destruct fs' as [|[] fs']; cbn; auto. }
  assert (Hdb : ∀ msg (m : M db unit), keeps db_versions m → keeps (λ w, db_versions (w_db w)) (on_db (wrap msg m))).
  { intros msg m Hm w' fs'. specialize (Hm (w_db w') fs'). unfold on_db, zoom, wrap. by destruct (m (w_db w') fs') as [[o d'] fs'']. }
  assert (Hk : keeps (λ w, db_versions (w_db w)) (ResetAll confirm)); [|apply Hk]. unfold ResetAll.
  destruct (negb _); [done|]. repeat (apply keeps_bind; [first [by apply Hdb, Hstmt|keeping]|intros ?]). keeping.
Qed.

(** A report is left pending with its label applied when the last statement of resolving it fails. *)
Example report_pending_with_label :
  let w := (small_serve "did:plc:admin" "" "" (Mutation (ResolveReportField 1 "apply_label" takedown)) small_world [false; false; false; true]).1.2 in
  standing (w_mod w) a_post takedown = true ∧ rp_Status <$> report_row (w_mod w) 1 = Some StatusPending.
Proof. split; by vm_compute. Qed.

(** A takedown that expired holds on. *)
Example expired_takedown_holds :
  let w := state_after small_world [Mutation (CreateLabelField a_post takedown "" "1970-01-01T00:00:50Z")] in
  (lb_Exp <$> m_labels (w_mod w)) = [Some 50%Z] ∧ m_clock (w_mod w) = 100%Z ∧ (HasTakedown a_post (w_mod w) []).1.1 = Ok true.
Proof. split_and!; by vm_compute. Qed.

(** On PostgreSQL a label is applied and an error answered, and no label can be taken back. *)
#[local] Instance postgres_env : Env := {|
  dialect := PostgreSQL; jsonb := Some; sha256_hex s := s; datetime_parser := {| ParseDatetimeTime := λ _, None |} |}.

Example postgres_labels :
  let '(o, d, _) := Labels_Insert (H := postgres_env) "did:web:here" a_post None "rude" None small_mdb [] in
  is_ok o = false ∧ length (m_labels d) = 1 ∧
  (∀ fs, is_ok (InsertNegation (H := postgres_env) "did:web:here" a_post "rude" d fs).1.1 = false) ∧
  (∀ fs, is_ok (HasTakedown (H := postgres_env) a_post d fs).1.1 = false).
Proof. vm_compute. split_and!; try done; by intros [|[] fs]. Qed.
