(* ===== verification/Labeler.v ===== *)
(** * Label subscriptions

    src/internal/labeler/subscriber.go: a labeler's stream is read from the saved cursor on,
    its labels are stored, and the connection is made anew after every failure except those
    of the cursor. The websocket and Indigo's reader of streams deliver frames to the
    callbacks one at a time and stop at the first error; the connection, the JSON Indigo
    writes of a label and the parsing of URLs are parameters. While a frame is waited for,
    others use the database. *)
From S2P Require Import Prelude GoStrings Json GoTime Effects Database Like RecordStore Filters LabelFilters Base64 Labels.

Definition second : Z := 1000000000.
Definition defaultReconnectInitial : Z := second.
Definition defaultReconnectCeiling : Z := 60 * second.
Definition defaultReadLimit : Z := 4 * 1024 * 1024.
Definition fatalCursorFuture : string := "FutureCursor".
Definition fatalCursorOutdated : string := "OutdatedCursor".

(** ** Configuration *)

Record Config := mkConfig { cfg_URLs : list string; cfg_ReconnectMin : Z; cfg_ReconnectMax : Z; cfg_ReadLimit : Z }.

Fixpoint distinct_urls (seen urls : list string) : list string :=
  match urls with
  | [] => []
  | u :: rest =>
      let trimmed := trim_space u in
      if (trimmed =? "")%string then distinct_urls seen rest
      else if bool_decide (trimmed ∈ seen) then distinct_urls seen rest
      else trimmed :: distinct_urls (trimmed :: seen) rest
  end.

Definition normalizeConfig (cfg : Config) : Config :=
  let min := if (cfg_ReconnectMin cfg <=? 0)%Z then defaultReconnectInitial else cfg_ReconnectMin cfg in
  let max := if (cfg_ReconnectMax cfg <=? 0)%Z then defaultReconnectCeiling else cfg_ReconnectMax cfg in
  let max := if (max <? min)%Z then min else max in
  mkConfig (distinct_urls [] (cfg_URLs cfg)) min max (if (cfg_ReadLimit cfg <=? 0)%Z then defaultReadLimit else cfg_ReadLimit cfg).

(** ** Streams *)

(** Indigo's [LabelDefs_Label]. *)
Record stream_label := mkStreamLabel {
  sl_Cid : option string;
  sl_Cts : string;
  sl_Exp : option string;
  sl_Neg : option bool;
  sl_Sig : string;
  sl_Src : string;
  sl_Uri : string;
  sl_Val : string;
  sl_Ver : option Z;
}.

(** What the stream delivers; of other messages nobody is told. *)
Inductive frame :=
  | LabelLabels (seq : Z) (labels : list (option stream_label))
  | RepoInfo (name : string) (message : option string)
  | LabelInfo (name : string) (message : option string)
  | ErrorFrame (error message : string)
  | OtherFrame.

(** A frame, and what others did to the database until it came. *)
Record arrival := mkArrival { ar_meanwhile : db → db; ar_frame : frame }.

(** The frames, and how reading ends after them. *)
Record connection := mkConnection { cn_frames : list arrival; cn_end : option string }.

(** What one attempt to connect meets, and what others did to the database before it. *)
Record attempt_env := mkAttempt { at_meanwhile : db → db; at_dial : string → outcome connection }.

Class LabelStreams := {
  marshal_label : stream_label → outcome string;
  (** [url.Parse], the query parameter [cursor] set, and back. *)
  with_cursor : string → string → outcome string;
}.

(** An error in whose chain [errors.As] finds a [FatalCursorError], or another. *)
Inductive stream_error := FatalCursorError (code message : string) | OtherError (text : string).

Definition error_text (e : stream_error) : string :=
  match e with
  | FatalCursorError code message => if (message =? "")%string then code else code +:+ ": " +:+ message
  | OtherError text => text
  end.
Definition wrap_error (msg : string) (e : stream_error) : stream_error :=
  match e with FatalCursorError _ _ => e | OtherError text => OtherError (msg +:+ ": " +:+ text) end.

Definition fatalCursorResetMessage (code message : string) : string :=
  let base := "Reset subscription cursor and replay labels." in
  let message := trim_space message in
  if (message =? "")%string
  then (if (code =? fatalCursorFuture)%string then "Cursor is in the future. " else "Cursor is outside retained history. ") +:+ base
  else
    let message := if negb (has_suffix "." message) && negb (has_suffix "!" message) && negb (has_suffix "?" message)
      then message +:+ "." else message in
    message +:+ " " +:+ base.

Section subscriber.
Context `{Env} `{LabelStreams}.

Definition convert_label (i : nat) (label : option stream_label) : outcome ExternalLabelInput :=
  match label with
  | None => Err ("label " +:+ itoa (Z.of_nat i) +:+ " is nil")
  | Some l =>
      rawJSON ← wrap_err ("marshal label " +:+ itoa (Z.of_nat i) +:+ " raw JSON") (marshal_label l);
      Ok (mkLabelInput (Z.of_nat i) (sl_Src l) (sl_Uri l) (sl_Cid l) (sl_Val l) (default false (sl_Neg l)) (sl_Cts l) (sl_Exp l)
        (if (sl_Sig l =? "")%string then None else Some (StdEncode (sl_Sig l))) (sl_Ver l) rawJSON)
  end.

Fixpoint convert_from (i : nat) (labels : list (option stream_label)) : outcome (list ExternalLabelInput) :=
  match labels with
  | [] => Ok []
  | l :: rest => input ← convert_label i l; inputs ← convert_from (S i) rest; Ok (input :: inputs)
  end.
Definition ConvertLabels (labels : list (option stream_label)) : outcome (list ExternalLabelInput) := convert_from 0 labels.

Definition buildSubscribeURL (rawURL : string) (cursor : Z) : outcome string :=
  if (cursor <? 0)%Z then Err ("cursor must be non-negative: " +:+ itoa cursor) else with_cursor rawURL (itoa cursor).

Context (subscriptionURL : string).

Definition recordAndReturnError (text : string) : M db (option stream_error) :=
  attempt (UpdateError subscriptionURL text) ;; mret (Some (OtherError text)).

Definition recordFatalCursorAndReturnError (code message : string) : M db (option stream_error) :=
  let message := fatalCursorResetMessage code message in
  marked ← attempt (MarkFatalCursor subscriptionURL code message);
  mret (Some (match marked with
    | Ok _ => FatalCursorError code message
    | Err e => OtherError ("record fatal labeler subscription error " +:+ code +:+ ": " +:+ e)
    end)).

Definition handleInfo (name : string) (message : option string) : M db (option stream_error) :=
  if (name =? fatalCursorOutdated)%string then recordFatalCursorAndReturnError fatalCursorOutdated (default "" message) else mret None.

(** [callbacks] *)
Definition on_frame (f : frame) : M db (option stream_error) :=
  match f with
  | LabelLabels seq labels =>
      match ConvertLabels labels with
      | Err e => recordAndReturnError ("convert labeler labels seq=" +:+ itoa seq +:+ ": " +:+ e)
      | Ok inputs =>
          persisted ← attempt (PersistEvent subscriptionURL seq inputs);
          match persisted with
          | Err e => recordAndReturnError ("persist labeler labels seq=" +:+ itoa seq +:+ ": " +:+ e)
          | Ok _ => mret None
          end
      end
  | RepoInfo name message | LabelInfo name message => handleInfo name message
  | ErrorFrame error message =>
      if (error =? fatalCursorFuture)%string then recordFatalCursorAndReturnError fatalCursorFuture message
      else recordAndReturnError ("labeler stream error: " +:+ error +:+ (if (message =? "")%string then "" else ": " +:+ message))
  | OtherFrame => mret None
  end.

(** [HandleRepoStream] with the sequential scheduler. *)
Fixpoint handle_stream (frames : list arrival) (ending : option string) : M db (option stream_error) :=
  match frames with
  | [] => mret (OtherError <$> ending)
  | a :: rest =>
      modify (ar_meanwhile a) ;;
      failed ← on_frame (ar_frame a);
      match failed with None => handle_stream rest ending | Some e => mret (Some e) end
  end.

Definition runOnce (dial : string → outcome connection) : M db (option stream_error) :=
  ensured ← attempt (EnsureState subscriptionURL);
  match ensured with
  | Err e => mret (Some (OtherError ("ensure labeler subscription state: " +:+ e)))
  | Ok (_, state) =>
      if IsFatalCursorError (ls_last_error state) then
        let code := FatalCursorCode (ls_last_error state) in
        mret (Some (FatalCursorError (if (code =? "")%string then "FatalCursor" else code)
          "subscription is marked fatal. Reset subscription cursor and replay labels before labels can resume"))
      else match buildSubscribeURL subscriptionURL (ls_last_seq state) with
      | Err e => mret (Some (OtherError ("build labeler subscription URL: " +:+ e)))
      | Ok streamURL => match dial streamURL with
        | Err e => mret (Some (OtherError ("connect to labeler subscription: " +:+ e)))
        | Ok conn =>
            connected ← attempt (UpdateConnected subscriptionURL);
            match connected with
            | Err e => mret (Some (OtherError ("record labeler connection: " +:+ e)))
            | Ok _ => fmap (wrap_error "handle labeler stream") <$> handle_stream (cn_frames conn) (cn_end conn)
            end
        end
      end
  end.

Context (cfg : Config).

Definition next_backoff (backoff : Z) : Z :=
  if (cfg_ReconnectMax cfg <? backoff * 2)%Z then cfg_ReconnectMax cfg else (backoff * 2)%Z.

(** The loop, over the attempts there are until the context is done: the pauses it made, and the error it gave up with. *)
Fixpoint run_from (attempts : list attempt_env) (backoff : Z) : M db (list Z * option stream_error) :=
  match attempts with
  | [] => mret ([], None)
  | a :: rest =>
      modify (at_meanwhile a) ;;
      failed ← runOnce (at_dial a);
      match failed with
      | Some (FatalCursorError code message) => mret ([], Some (FatalCursorError code message))
      | _ =>
          match failed with Some e => attempt (UpdateError subscriptionURL (error_text e)) ;; mret tt | None => mret tt end ;;
          '(pauses, e) ← run_from rest (next_backoff backoff);
          mret (backoff :: pauses, e)
      end
  end.

Definition runSubscription (attempts : list attempt_env) : M db (list Z * option stream_error) :=
  run_from attempts (cfg_ReconnectMin cfg).
End subscriber.
