(* ===== verification/LabelerProps.v ===== *)
(** * What label subscriptions guarantee

    Through any number of broken connections and failed statements the labels of a stream
    are stored exactly once and in order, up to the cursor; and a subscription whose cursor
    the labeler refused stays stopped. *)
From S2P Require Import Prelude GoStrings Json GoTime AtprotoTime Effects Database Like RecordStore Filters LabelFilters Base64 Labels LabelText LabelProps Labeler.

(** ** Texts no reader takes for a fatal marker *)

Definition benign (text : string) : bool :=
  match text with
  | String c _ => let n := byte_val c in (32 <? n)%N && (n <? 127)%N && negb (n =? 70)%N && negb (n =? 102)%N
  | EmptyString => false
  end.

Lemma benign_inv text : benign text = true → ∃ c r, text = String c r ∧ visible c ∧ byte_val c ≠ 70%N ∧ byte_val c ≠ 102%N.
Proof.
  destruct text as [|c r]; [done|]. cbn. rewrite !andb_true_iff, !negb_true_iff, !N.ltb_lt, !N.eqb_neq. intros [[[H1 H2] H3] H4].
  by exists c, r.
Qed.

Section markers.
Context `{Env}.

Lemma normalized_head c r : visible c → ∃ r', normalizeLastError (String c r) = String c r'.
Proof.
  intros Hc. unfold normalizeLastError.
  assert (Hv : to_valid_utf8 (String c r) replacement = String c (to_valid_utf8 r replacement)).
  { apply (to_valid_split replacement "" c r). unfold visible in Hc. lia. }
  rewrite Hv. destruct (trim_space_keep "" c (to_valid_utf8 r replacement) Hc) as [r' Hr].
  { by apply visible_not_space. }
  rewrite !append_nil_l in Hr. rewrite Hr. cbn [String.eqb]. destruct (_ <? _); [|by exists r'].
  by exists (stake 4095 r').
Qed.

Lemma ascii_lower_f c : ascii_lower c = Ascii.ascii_of_N 102 → byte_val c = 70%N ∨ byte_val c = 102%N.
Proof. destruct c as [[][][][][][][][]]; vm_compute; intros Hc; auto; discriminate Hc. Qed.

Lemma benign_kept text :
  benign text = true →
  IsFatalCursorError (Some (normalizeLastError text)) = false ∧ like_match (like_tokens fatalCursorLikePattern) (normalizeLastError text) = false.
Proof.
  intros (c & r & -> & Hc & H70 & H102)%benign_inv. destruct (normalized_head c r Hc) as [r' ->]. split.
  - unfold IsFatalCursorError. destruct (trim_space_keep "" c r' Hc) as [r'' Hr]; [by apply visible_not_space|].
    rewrite !append_nil_l in Hr. rewrite Hr. apply not_true_iff_false. intros [t Ht]%prefix_true.
    apply H70. unfold fatalCursorPrefix in Ht. rewrite append_cons in Ht. by injection Ht as -> _.
  - let ts := eval vm_compute in (like_tokens fatalCursorLikePattern) in change (like_tokens fatalCursorLikePattern) with ts.
    cbn [like_match]. apply andb_false_iff. left. apply not_true_iff_false. unfold like_byte_eq. destruct dialect; intros Hx%Ascii.eqb_eq.
    + symmetry in Hx. change (ascii_lower c = Ascii.ascii_of_N 102) in Hx. by apply ascii_lower_f in Hx as [?|?].
    + apply H70. by rewrite <- Hx.
Qed.
End markers.

(** ** A subscription in step with a stream *)

Notation event := (Z * list (option stream_label))%type.

(** The labels of a stream: events in the order of their numbers, which start above zero. *)
Definition stream_ok (lg : list event) : Prop := increasing (λ e : event, e.1) Z.lt lg ∧ Forall (λ e : event, 0 < e.1)%Z lg.

Definition after (c : Z) (lg : list event) : list event := filter (λ e : event, (c < e.1)%Z) lg.
Definition upto (c : Z) (lg : list event) : list event := filter (λ e : event, (e.1 <= c)%Z) lg.

Lemma upto_after c lg : increasing (λ e : event, e.1) Z.lt lg → lg = upto c lg ++ after c lg.
Proof.
  intros Hlg. unfold upto, after.
  rewrite (filter_split (λ e : event, e.1) Z.lt (λ e : event, (e.1 <= c)%Z) (λ e : event, (c < e.1)%Z) (λ _, True)); [|done| |].
  - symmetry. by apply filter_all, Forall_true.
  - intros y _. split; [lia|done].
  - cbn. intros. lia.
Qed.

Lemma after_step c lg e es :
  increasing (λ e : event, e.1) Z.lt lg → after c lg = e :: es → (c < e.1)%Z ∧ after e.1 lg = es ∧ upto e.1 lg = upto c lg ++ [e].
Proof.
  intros Hlg Ha. assert (Hc : (c < e.1)%Z).
  { assert (He : e ∈ after c lg) by (rewrite Ha; by left). by apply list_elem_of_filter in He as [? _]. }
  split; [done|]. assert (Hs := upto_after c lg Hlg). rewrite Ha in Hs.
  assert (Hes : after e.1 lg = es) by (unfold after; rewrite Hs; rewrite Hs in Hlg; by apply (filter_after_prefix (λ e : event, e.1) Z.lt)).
  split; [done|]. assert (Hs' := upto_after e.1 lg Hlg). rewrite Hes in Hs'. rewrite Hs' in Hs at 1.
  change (e :: es) with ([e] ++ es) in Hs. rewrite app_assoc in Hs. by apply app_inv_tail in Hs.
Qed.

Section step.
Context `{Env} `{LabelStreams} (url : string) (lg : list event) (Hlg : stream_ok lg).

(** The row of the subscription; one that is not there yet is as a new one. *)
Definition state_of (d : db) : label_state := default (new_state 0) (db_label_states d !! url).
Definition cursor (d : db) : Z := ls_last_seq (state_of d).
Definition labels_stored (d : db) : list label_row := filter (λ r, lb_subscription_url r = url) (db_labels d).

Definition event_inputs (e : event) : list ExternalLabelInput := match ConvertLabels e.2 with Ok inputs => inputs | Err _ => [] end.
Definition log_labels (es : list event) : list (Z * ExternalLabelInput) := es ≫= λ e, pair e.1 <$> event_inputs e.

Definition stored_as (p : Z * ExternalLabelInput) (r : label_row) : Prop := ∃ now, stores now url p.1 p.2 r.

(** An event that can be stored. *)
Definition good (e : event) : Prop := ∃ inputs, ConvertLabels e.2 = Ok inputs ∧ validateExternalLabelInputs inputs = Ok tt.

(** The Go code and the SQL agree on whether the subscription is stopped. *)
Definition agree (s : label_state) : Prop := IsFatalCursorError (ls_last_error s) = negb (not_fatal s).

Record in_step (d : db) : Prop := {
  is_agree : agree (state_of d);
  is_good : Forall good (upto (cursor d) lg);
  is_stored : Forall2 stored_as (log_labels (upto (cursor d) lg)) (labels_stored d);
}.

(** What others do leaves the subscription alone. *)
Definition quiet (f : db → db) : Prop :=
  ∀ d, db_label_states (f d) !! url = db_label_states d !! url ∧ labels_stored (f d) = labels_stored d.

Lemma in_step_keep d d' :
  in_step d → cursor d' = cursor d → labels_stored d' = labels_stored d → agree (state_of d') → in_step d'.
Proof. intros [_ Hg Hs] Hc Hl Ha. by split; rewrite ?Hc, ?Hl. Qed.

Lemma quiet_state f d : quiet f → state_of (f d) = state_of d.
Proof. intros Hf. unfold state_of. by destruct (Hf d) as [-> _]. Qed.
Lemma quiet_step f d : quiet f → in_step d → in_step (f d).
Proof.
  intros Hf Hd. assert (Hs := quiet_state f d Hf). eapply in_step_keep; [done|unfold cursor; by rewrite Hs|by destruct (Hf d)|].
  rewrite Hs. apply Hd.
Qed.

(** What bookkeeping does: the cursor and the labels stay, and a fatal marker too. *)
Definition kept (d d' : db) : Prop :=
  in_step d' ∧ cursor d' = cursor d ∧ labels_stored d' = labels_stored d ∧ (not_fatal (state_of d) = false → not_fatal (state_of d') = false).

Lemma kept_refl d : in_step d → kept d d.
Proof. done. Qed.
Lemma kept_trans d1 d2 d3 : kept d1 d2 → kept d2 d3 → kept d1 d3.
Proof. intros (_ & Hc & Hl & Hf) (Hs & Hc' & Hl' & Hf'). split; [done|]. split; [congruence|]. split; [congruence|auto]. Qed.

Lemma kept_ensure d : in_step d → kept d (ensure_state url d).
Proof.
  intros Hd. assert (Hs : cursor (ensure_state url d) = cursor d ∧ not_fatal (state_of (ensure_state url d)) = not_fatal (state_of d) ∧
      agree (state_of (ensure_state url d))).
  { assert (Ha := is_agree d Hd). unfold cursor, state_of, ensure_state, set_label_states in *. cbn in *. destruct (db_label_states d !! url) eqn:E; [by rewrite E|].
    by rewrite lookup_insert_eq. }
  destruct Hs as (Hc & Hf & Ha). split; [by eapply in_step_keep|]. split; [done|]. split; [done|congruence].
Qed.

Lemma kept_update cond f d :
  (∀ s, cond s = true → ls_last_seq (f s) = ls_last_seq s ∧ agree (f s) ∧ (not_fatal s = false → not_fatal (f s) = false)) →
  in_step d → kept d (update_state url cond f d).
Proof.
  intros Hf Hd. assert (Ha := is_agree d Hd).
  assert (Hs : cursor (update_state url cond f d) = cursor d ∧ (not_fatal (state_of d) = false → not_fatal (state_of (update_state url cond f d)) = false) ∧
      agree (state_of (update_state url cond f d))).
  { unfold cursor, state_of, update_state, set_label_states in *. cbn in *. rewrite lookup_alter_eq. destruct (db_label_states d !! url) as [s|]; cbn in *; [|done].
    destruct (cond s) eqn:E; [|done]. by destruct (Hf s E) as (? & ? & ?). }
  destruct Hs as (Hc & Hn & Hag). split; [by eapply in_step_keep|done].
Qed.

Definition keeping_step {A} (m : M db A) : Prop := ∀ d fs, in_step d → kept d (m d fs).1.2.

Lemma keeping_exec f : (∀ d, in_step d → kept d (f d)) → keeping_step (exec f).
Proof. intros Hf d fs Hd. unfold exec, stmt. destruct fs as [|[] fs]; cbn; auto using kept_refl. Qed.
Lemma keeping_bind {A B} (m : M db A) (f : A → M db B) : keeping_step m → (∀ a, keeping_step (f a)) → keeping_step (m ≫= f).
Proof.
  intros Hm Hf d fs Hd. specialize (Hm d fs Hd). unfold mbind, M_bind. destruct (m d fs) as [[[a|e] d1] fs1]; cbn in *; [|done].
  eapply kept_trans; [done|]. apply Hf, Hm.
Qed.
Lemma keeping_outcome {A} (o : outcome A) : keeping_step (of_outcome o).
Proof. intros d fs Hd. by apply kept_refl. Qed.
Lemma keeping_GetState : keeping_step (GetState url).
Proof. intros d fs Hd. unfold GetState, stmt. destruct fs as [|[] fs]; destruct (db_label_states d !! url); by apply kept_refl. Qed.
Lemma keeping_EnsureState : keeping_step (EnsureState url).
Proof.
  apply keeping_bind; [apply keeping_outcome|intros _]. apply keeping_bind; [apply keeping_exec, kept_ensure|intros _]. apply keeping_GetState.
Qed.

Lemma keeping_UpdateConnected : keeping_step (UpdateConnected url).
Proof. apply keeping_bind; [apply keeping_EnsureState|intros _]. apply keeping_exec. intros d. apply kept_update. intros s Hs. split_and!; [done|done|congruence]. Qed.

Lemma keeping_UpdateError text : benign text = true → keeping_step (UpdateError url text).
Proof.
  intros Hb. apply keeping_bind; [apply keeping_EnsureState|intros _]. apply keeping_exec. intros d. apply kept_update. intros s Hs.
  destruct (benign_kept text Hb) as [H1 H2]. split; [done|]. split; [|congruence]. unfold agree, not_fatal. cbn [ls_last_error]. by rewrite H1, H2.
Qed.

(** The codes the labeler sends. *)
Lemma format_fatal code text :
  code = fatalCursorFuture ∨ code = fatalCursorOutdated →
  IsFatalCursorError (Some (formatFatalCursorLastError code text)) = true ∧
  like_match (like_tokens fatalCursorLikePattern) (formatFatalCursorLastError code text) = true.
Proof.
  intros Hcode. assert (Hn : normalizeErrorCode code = code) by (by destruct Hcode as [-> | ->]; vm_compute).
  destruct (format_shape code text) as [t ->]; rewrite ?Hn; [by destruct Hcode as [-> | ->]; vm_compute; lia|by destruct Hcode as [-> | ->]; vm_compute|].
  apply marker_seen.
Qed.

Lemma keeping_MarkFatalCursor code text : code = fatalCursorFuture ∨ code = fatalCursorOutdated → keeping_step (MarkFatalCursor url code text).
Proof.
  intros Hcode. apply keeping_bind; [apply keeping_EnsureState|intros _]. apply keeping_exec. intros d. apply kept_update. intros s _.
  destruct (format_fatal code text Hcode) as [H1 H2]. split; [done|]. unfold agree, not_fatal. cbn [ls_last_error]. by rewrite H1, H2.
Qed.

Lemma MarkFatalCursor_marks code text d fs d' fs' :
  code = fatalCursorFuture ∨ code = fatalCursorOutdated → MarkFatalCursor url code text d fs = (Ok tt, d', fs') → not_fatal (state_of d') = false.
Proof.
  intros Hcode E. unfold MarkFatalCursor in E. apply bind_ok_inv in E as (x & d1 & fs1 & E1 & E2).
  apply bind_ok_inv in E1 as ([] & d2 & fs2 & _ & E1). apply bind_ok_inv in E1 as ([] & d3 & fs3 & _ & E1).
  apply stmt_ok_inv in E1. apply stmt_ok_inv in E2. injection E2 as <-. destruct (db_label_states d3 !! url) as [s|] eqn:Es; [|done]. injection E1 as _ <-.
  unfold state_of, update_state, set_label_states. cbn. rewrite lookup_alter_eq, Es. cbn. unfold not_fatal. cbn.
  by destruct (format_fatal code text Hcode) as [_ ->].
Qed.

(** *** Events *)

Lemma convert_indexes i ls inputs : convert_from i ls = Ok inputs → li_LabelIndex <$> inputs = Z.of_nat <$> seq i (length inputs).
Proof.
  revert i inputs. induction ls as [|l ls IH]; intros i inputs; cbn [convert_from]; [by intros [= <-]|]. unfold mbind, outcome_bind.
  destruct (convert_label i l) as [input|] eqn:E; [|done]. destruct (convert_from (S i) ls) as [rest|] eqn:Er; [|done]. intros [= <-]. cbn.
  rewrite (IH _ _ Er). f_equal. unfold convert_label in E. destruct l as [l|]; [|done]. unfold mbind, outcome_bind in E.
  destruct (wrap_err _ _); [|done]. by injection E as <-.
Qed.

Lemma new_labels_distinct seen ls :
  NoDup (li_LabelIndex <$> ls) → Forall (λ l, li_LabelIndex l ∉ seen) ls → new_labels seen ls = ls.
Proof.
  revert seen. induction ls as [|l ls IH]; intros seen; [done|]. cbn. intros [Hl Hnd]%NoDup_cons [Hs Hall]%Forall_cons.
  rewrite bool_decide_false by done. f_equal. apply IH; [done|]. apply Forall_forall. intros l' Hl' [Heq|Hin]%elem_of_cons.
  - apply Hl. rewrite <- Heq. by apply list_elem_of_fmap_2.
  - rewrite Forall_forall in Hall. by apply (Hall l').
Qed.

Lemma stored_seqs d r : in_step d → r ∈ labels_stored d → (lb_seq r <= cursor d)%Z.
Proof.
  intros [_ _ Hs] Hr. apply list_elem_of_lookup in Hr as [i Hi].
  destruct (Forall2_lookup_r _ _ _ _ _ Hs Hi) as (p & Hp & now & raw & _ & ->). cbn.
  apply list_elem_of_lookup_2 in Hp. unfold log_labels in Hp. apply list_elem_of_bind in Hp as (e & Hp & He).
  apply list_elem_of_fmap in Hp as (l & -> & _). by apply list_elem_of_filter in He as [? _].
Qed.

Lemma no_indexes d seq : in_step d → (cursor d < seq)%Z → stored_indexes url seq d = [].
Proof.
  intros Hd Hc. unfold stored_indexes. rewrite filter_none; [done|]. apply Forall_forall. intros r Hr [Hu Hs].
  assert (Hin : r ∈ labels_stored d) by by apply list_elem_of_filter. apply (stored_seqs d r Hd) in Hin. lia.
Qed.

Lemma persist_step d seq ls inputs es fs d' fs' :
  in_step d → not_fatal (state_of d) = true → after (cursor d) lg = (seq, ls) :: es → ConvertLabels ls = Ok inputs →
  PersistEvent url seq inputs d fs = (Ok tt, d', fs') →
  in_step d' ∧ cursor d' = seq ∧ not_fatal (state_of d') = true ∧ after seq lg = es.
Proof.
  intros Hd Hnf Ha Hconv E. destruct Hlg as [Hinc Hpos]. destruct (after_step _ _ _ _ Hinc Ha) as (Hlt & Hes & Hup). cbn in Hlt, Hes, Hup.
  apply persist_event_ok in E as ((_ & _ & Hval) & _ & _ & Hst & rs & Hrs & Hall).
  assert (Hs : state_of d' = advance (db_clock d) seq (default (new_state (db_clock d)) (db_label_states d !! url))).
  { unfold state_of, not_fatal in *. rewrite Hst. unfold after_event. rewrite lookup_insert_eq. cbn. by destruct (db_label_states d !! url) as [s|]; [unfold not_fatal; cbn in *; rewrite Hnf|]. }
  assert (Hc : cursor d' = seq).
  { unfold cursor. rewrite Hs. unfold advance. cbn [ls_last_seq].
    assert (Heq : ls_last_seq (default (new_state (db_clock d)) (db_label_states d !! url)) = cursor d) by (unfold cursor, state_of; by destruct (db_label_states d !! url)).
    rewrite Heq. by rewrite (proj2 (Z.ltb_lt _ _)). }
  split; [|split; [done|split; [by rewrite Hs|done]]].
  rewrite no_indexes, new_labels_distinct in Hall; [|by rewrite (convert_indexes 0 ls inputs Hconv); apply NoDup_fmap_2, NoDup_seq; apply _
    |apply Forall_forall; intros ? ?; apply not_elem_of_nil|done|done].
  split.
  - by rewrite Hs.
  - rewrite Hc, Hup. apply Forall_app. split; [apply Hd|]. constructor; [|done]. by exists inputs.
  - rewrite Hc, Hup. unfold log_labels. rewrite bind_app. unfold labels_stored. rewrite Hrs, filter_app. apply Forall2_app; [apply Hd|].
    cbn [mbind list_bind]. rewrite app_nil_r. unfold event_inputs. cbn [snd fst]. rewrite Hconv.
    assert (Hurl : Forall (λ r, lb_subscription_url r = url) rs) by (clear -Hall; induction Hall as [|l r ls rs (raw & _ & ->)]; by constructor).
    rewrite (filter_all _ _ Hurl). apply Forall2_fmap_l. eapply Forall2_impl; [exact Hall|]. intros l r Hr. by exists (db_clock d).
Qed.

(** *** Frames *)

Definition frame_event (a : arrival) : option event := match ar_frame a with LabelLabels seq labels => Some (seq, labels) | _ => None end.
Definition events_of (frames : list arrival) : list event := omap frame_event frames.

(** What is left when something ended with [r]: in step, not behind, and stopped if the error is fatal. *)
Definition proceeds (d : db) (r : option stream_error) (d' : db) : Prop :=
  in_step d' ∧ (cursor d <= cursor d')%Z ∧ match r with Some (FatalCursorError _ _) => not_fatal (state_of d') = false | _ => True end.

Lemma proceeds_kept d d' r : kept d d' → match r with Some (FatalCursorError _ _) => not_fatal (state_of d') = false | _ => True end → proceeds d r d'.
Proof. intros (Hs & Hc & _) Hr. split; [done|]. split; [lia|done]. Qed.

Lemma record_ends text d fs :
  benign text = true → in_step d → ∃ d' fs', recordAndReturnError url text d fs = (Ok (Some (OtherError text)), d', fs') ∧ kept d d'.
Proof.
  intros Hb Hd. unfold recordAndReturnError, mbind, M_bind, attempt. assert (Hk := keeping_UpdateError text Hb d fs Hd).
  destruct (UpdateError url text d fs) as [[o d'] fs']. cbn in *. by exists d', fs'.
Qed.

Lemma record_fatal_ends code message d fs :
  code = fatalCursorFuture ∨ code = fatalCursorOutdated → in_step d →
  ∃ r d' fs', recordFatalCursorAndReturnError url code message d fs = (Ok (Some r), d', fs') ∧ proceeds d (Some r) d'.
Proof.
  intros Hcode Hd. unfold recordFatalCursorAndReturnError, mbind, M_bind, attempt. set (text := fatalCursorResetMessage code message).
  assert (Hk := keeping_MarkFatalCursor code text Hcode d fs Hd). destruct (MarkFatalCursor url code text d fs) as [[o d'] fs'] eqn:E. cbn in *.
  eexists _, _, _. split; [done|]. apply proceeds_kept; [done|]. destruct o as [[]|e]; [|done]. by eapply MarkFatalCursor_marks.
Qed.

(** A frame goes by, or ends the stream. *)
Lemma frame_step f d fs es :
  in_step d → not_fatal (state_of d) = true →
  match f with LabelLabels seq ls => ∃ rest, after (cursor d) lg = (seq, ls) :: es ++ rest | _ => es `prefix_of` after (cursor d) lg end →
  ∃ r d' fs', on_frame url f d fs = (Ok r, d', fs') ∧ proceeds d r d' ∧
    (r = None → not_fatal (state_of d') = true ∧ es `prefix_of` after (cursor d') lg).
Proof.
  intros Hd Hnf Hf. destruct f as [seq ls|name message|name message|error message|]; cbn [on_frame].
  - destruct Hf as [rest Hrest]. destruct (ConvertLabels ls) as [inputs|e] eqn:Econv.
    + unfold mbind, M_bind, attempt. destruct (PersistEvent url seq inputs d fs) as [[o d1] fs1] eqn:E. destruct o as [[]|e].
      * destruct (persist_step _ _ _ _ _ _ _ _ Hd Hnf Hrest Econv E) as (Hs & Hc & Hn & Ha).
        eexists None, _, _. split; [done|]. split; [split; [done|]; split; [|done]|intros _; split; [done|rewrite Hc, Ha; by exists rest]].
        destruct Hlg as [Hinc _]. destruct (after_step _ _ _ _ Hinc Hrest) as [Hlt _]. cbn in Hlt. lia.
      * apply persist_event_err in E as ->. destruct (record_ends ("persist labeler labels seq=" +:+ itoa seq +:+ ": " +:+ e) d fs1) as (d' & fs' & -> & Hk); [done|done|].
        eexists _, _, _. split; [done|]. split; [by apply proceeds_kept|done].
    + destruct (record_ends ("convert labeler labels seq=" +:+ itoa seq +:+ ": " +:+ e) d fs) as (d' & fs' & -> & Hk); [done|done|].
      eexists _, _, _. split; [done|]. split; [by apply proceeds_kept|done].
  - unfold handleInfo. destruct (name =? _)%string.
    + destruct (record_fatal_ends fatalCursorOutdated (default "" message) d fs) as (r & d' & fs' & -> & Hp); [by right|done|]. by eexists _, _, _.
    + eexists None, d, fs. split; [done|]. split; [by apply proceeds_kept|done].
  - unfold handleInfo. destruct (name =? _)%string.
    + destruct (record_fatal_ends fatalCursorOutdated (default "" message) d fs) as (r & d' & fs' & -> & Hp); [by right|done|]. by eexists _, _, _.
    + eexists None, d, fs. split; [done|]. split; [by apply proceeds_kept|done].
  - destruct (error =? _)%string.
    + destruct (record_fatal_ends fatalCursorFuture message d fs) as (r & d' & fs' & -> & Hp); [by left|done|]. by eexists _, _, _.
    + set (text := "labeler stream error: " +:+ _). destruct (record_ends text d fs) as (d' & fs' & -> & Hk); [done|done|].
      eexists _, _, _. split; [done|]. split; [by apply proceeds_kept|done].
  - eexists None, d, fs. split; [done|]. split; [by apply proceeds_kept|done].
Qed.

Lemma proceeds_trans d r1 d1 r2 d2 : proceeds d r1 d1 → proceeds d1 r2 d2 → proceeds d r2 d2.
Proof. intros (_ & Hc & _) (Hs & Hc' & Hr). split; [done|]. split; [lia|done]. Qed.
Lemma proceeds_quiet f d r d' : quiet f → proceeds (f d) r d' → proceeds d r d'.
Proof. intros Hf (Hs & Hc & Hr). unfold cursor in Hc. rewrite quiet_state in Hc by done. by split. Qed.

Lemma stream_step frames ending d fs :
  in_step d → not_fatal (state_of d) = true → Forall (λ a, quiet (ar_meanwhile a)) frames → events_of frames `prefix_of` after (cursor d) lg →
  ∃ r d' fs', handle_stream url frames ending d fs = (Ok r, d', fs') ∧ proceeds d r d'.
Proof.
  revert d fs. induction frames as [|a frames IH]; intros d fs Hd Hnf Hq Hpre.
  - eexists _, d, fs. split; [done|]. by destruct ending; apply proceeds_kept.
  - apply Forall_cons in Hq as [Hqa Hq]. set (d0 := ar_meanwhile a d). assert (Hs0 := quiet_state (ar_meanwhile a) d Hqa). fold d0 in Hs0.
    assert (Hd0 : in_step d0) by by apply quiet_step.
    assert (Hstep : match ar_frame a with
      | LabelLabels seq ls => ∃ rest, after (cursor d0) lg = (seq, ls) :: events_of frames ++ rest | _ => events_of frames `prefix_of` after (cursor d0) lg end).
    { unfold cursor. rewrite Hs0. unfold events_of in Hpre. cbn in Hpre. unfold frame_event in Hpre at 1. destruct (ar_frame a); exact Hpre. }
    rewrite <- Hs0 in Hnf. destruct (frame_step (ar_frame a) d0 fs (events_of frames) Hd0 Hnf Hstep) as (r & d1 & fs1 & E & Hp & Hgo).
    cbn [handle_stream]. unfold mbind, M_bind, modify. fold d0. rewrite E. destruct r as [e|].
    + eexists _, _, _. split; [done|]. by apply (proceeds_quiet (ar_meanwhile a)).
    + destruct (Hgo eq_refl) as [Hn1 Hpre1]. destruct (IH d1 fs1) as (r & d' & fs' & -> & Hp'); [apply Hp|done|done|done|].
      eexists _, _, _. split; [done|]. apply (proceeds_quiet (ar_meanwhile a)); [done|]. by eapply proceeds_trans.
Qed.

(** *** Connections *)

(** The labeler sends events of its log after the cursor it was asked for, in order and without a gap. *)
Definition honest (dial : string → outcome connection) : Prop :=
  ∀ c streamURL conn, buildSubscribeURL url c = Ok streamURL → dial streamURL = Ok conn →
    Forall (λ a, quiet (ar_meanwhile a)) (cn_frames conn) ∧ events_of (cn_frames conn) `prefix_of` after c lg.

Lemma EnsureState_ok d fs u s d' fs' : EnsureState url d fs = (Ok (u, s), d', fs') → state_of d' = s.
Proof.
  intros E. unfold EnsureState in E. apply bind_ok_inv in E as ([] & d1 & fs1 & _ & E). apply bind_ok_inv in E as ([] & d2 & fs2 & _ & E).
  apply stmt_ok_inv in E. unfold state_of. destruct (db_label_states d2 !! url) as [s'|] eqn:Es; [|done]. injection E as _ <- <-. by rewrite Es.
Qed.

Lemma UpdateConnected_free d fs d' fs' :
  UpdateConnected url d fs = (Ok tt, d', fs') → not_fatal (state_of d) = true → not_fatal (state_of d') = true.
Proof.
  intros E Hnf. unfold UpdateConnected in E. apply bind_ok_inv in E as ((u & s) & d1 & fs1 & E1 & E). apply stmt_ok_inv in E. injection E as <-.
  apply bind_ok_inv in E1 as ([] & d2 & fs2 & (_ & -> & ->)%of_outcome_ok_inv & E1). apply bind_ok_inv in E1 as ([] & d3 & fs3 & E1 & E2).
  apply stmt_ok_inv in E1. injection E1 as <-. apply stmt_ok_inv in E2.
  assert (Hs : db_label_states (ensure_state url d) !! url = Some s ∧ d1 = ensure_state url d).
  { destruct (db_label_states (ensure_state url d) !! url) as [s'|] eqn:Es; [|done]. by injection E2 as _ <- <-. }
  destruct Hs as [Hs ->]. unfold state_of, update_state, set_label_states. cbn. cbn in Hs. rewrite lookup_alter_eq, Hs. cbn.
  assert (Hn : not_fatal s = true); [|by rewrite Hn]. unfold state_of in Hnf. destruct (db_label_states d !! url) as [s'|] eqn:Es.
  - rewrite Es in Hs. by injection Hs as <-.
  - rewrite lookup_insert_eq in Hs. by injection Hs as <-.
Qed.

Lemma wrapped_proceeds msg d r d' : proceeds d r d' → proceeds d (wrap_error msg <$> r) d'.
Proof. by destruct r as [[|]|]. Qed.

Lemma once_step dial d fs :
  honest dial → in_step d → ∃ r d' fs', runOnce url dial d fs = (Ok r, d', fs') ∧ proceeds d r d' ∧
    match r with Some (OtherError text) => benign text = true | _ => True end.
Proof.
  intros Hdial Hd. unfold runOnce. unfold mbind at 1, M_bind at 1, attempt at 1. assert (Hk := keeping_EnsureState d fs Hd).
  destruct (EnsureState url d fs) as [[o d1] fs1] eqn:E. cbn in Hk. destruct o as [[u s]|e].
  2: { eexists _, _, _. split; [done|]. by split; [apply proceeds_kept|]. }
  apply EnsureState_ok in E. destruct (IsFatalCursorError (ls_last_error s)) eqn:Ef.
  { eexists _, _, _. split; [done|]. split; [|done]. apply proceeds_kept; [done|]. assert (Ha := is_agree d1 (proj1 Hk)). unfold agree in Ha.
    rewrite E, Ef in Ha. rewrite E. by destruct (not_fatal s). }
  assert (Hn1 : not_fatal (state_of d1) = true).
  { assert (Ha := is_agree d1 (proj1 Hk)). unfold agree in Ha. rewrite E, Ef in Ha. rewrite E. by destruct (not_fatal s). }
  assert (Hc1 : ls_last_seq s = cursor d1) by (unfold cursor; by rewrite E).
  destruct (buildSubscribeURL url (ls_last_seq s)) as [streamURL|e] eqn:Eb; [|eexists _, _, _; split; [done|]; by split; [apply proceeds_kept|]].
  destruct (dial streamURL) as [conn|e] eqn:Edial; [|eexists _, _, _; split; [done|]; by split; [apply proceeds_kept|]].
  unfold mbind, M_bind, attempt. assert (Hk2 := keeping_UpdateConnected d1 fs1 (proj1 Hk)). destruct (UpdateConnected url d1 fs1) as [[o d2] fs2] eqn:Ec. cbn in Hk2.
  assert (Hk' := kept_trans _ _ _ Hk Hk2). destruct o as [[]|e]; [|eexists _, _, _; split; [done|]; by split; [apply proceeds_kept|]].
  destruct (Hdial _ _ _ Eb Edial) as [Hq Hpre]. assert (Hc2 : cursor d2 = cursor d1) by apply Hk2. rewrite Hc1, <- Hc2 in Hpre.
  destruct (stream_step (cn_frames conn) (cn_end conn) d2 fs2) as (r & d' & fs' & Es & Hp); [apply Hk2|by eapply UpdateConnected_free|done|done|].
  unfold fmap, M_fmap. rewrite Es. eexists _, _, _. split; [done|]. split.
  - apply wrapped_proceeds. destruct Hp as (? & ? & ?). split; [done|]. split; [|done]. destruct Hk' as (_ & Hc & _). lia.
  - destruct r as [[|]|]; done.
Qed.

Lemma run_step cfg attempts backoff d fs :
  Forall (λ a, quiet (at_meanwhile a) ∧ honest (at_dial a)) attempts → in_step d →
  ∃ pauses r d' fs', run_from url cfg attempts backoff d fs = (Ok (pauses, r), d', fs') ∧ proceeds d r d'.
Proof.
  intros Hall. revert backoff d fs. induction Hall as [|a attempts [Hq Hh] Hall IH]; intros backoff d fs Hd.
  - eexists _, _, d, fs. split; [done|]. by apply proceeds_kept.
  - cbn [run_from]. unfold mbind at 1, M_bind at 1, modify. set (d0 := at_meanwhile a d). assert (Hd0 : in_step d0) by by apply quiet_step.
    destruct (once_step (at_dial a) d0 fs Hh Hd0) as (r & d1 & fs1 & E & Hp & Hb). unfold mbind at 1, M_bind at 1. rewrite E.
    assert (Hgo : ∀ d2 fs2, in_step d2 → (cursor d0 <= cursor d2)%Z → ∃ pauses r d' fs',
        ('(pauses, e) ← run_from url cfg attempts (next_backoff cfg backoff); mret (backoff :: pauses, e)) d2 fs2 = (Ok (pauses, r), d', fs') ∧ proceeds d r d').
    { intros d2 fs2 Hd2 Hc. destruct (IH (next_backoff cfg backoff) d2 fs2 Hd2) as (ps & r' & d' & fs' & E' & Hp').
      unfold mbind, M_bind. rewrite E'. eexists _, _, _, _. split; [done|]. apply (proceeds_quiet (at_meanwhile a)); [done|]. fold d0.
      destruct Hp' as (? & ? & ?). split; [done|]. split; [lia|done]. }
    destruct r as [[code message|text]|].
    + eexists _, _, _, _. split; [done|]. by apply (proceeds_quiet (at_meanwhile a)).
    + assert (Hk := keeping_UpdateError text Hb d1 fs1 (proj1 Hp)). unfold mbind at 1, M_bind at 1. unfold mbind at 1, M_bind at 1, attempt. cbn [error_text].
      destruct (UpdateError url text d1 fs1) as [[o d2] fs2]. cbn in Hk. apply Hgo; [apply Hk|]. destruct Hk as (_ & -> & _). apply Hp.
    + apply Hgo; apply Hp.
Qed.

(** *** A connection that delivers everything *)

Definition plain (a : arrival) : Prop :=
  match ar_frame a with LabelLabels _ _ | OtherFrame => True | RepoInfo name _ | LabelInfo name _ => name ≠ fatalCursorOutdated | ErrorFrame _ _ => False end.

(** An event of labels whose JSON the database takes. *)
Definition fine (e : event) : Prop :=
  ∃ inputs, ConvertLabels e.2 = Ok inputs ∧ validateExternalLabelInputs inputs = Ok tt ∧ storable inputs.

Lemma stream_all frames ending d :
  blank url = false → Forall fine lg → in_step d → not_fatal (state_of d) = true → Forall (λ a, quiet (ar_meanwhile a)) frames → Forall plain frames →
  events_of frames = after (cursor d) lg →
  ∃ r d', handle_stream url frames ending d [] = (Ok r, d', []) ∧ in_step d' ∧ after (cursor d') lg = [].
Proof.
  intros Hurl Hfine. revert d. induction frames as [|a frames IH]; intros d Hd Hnf Hq Hpl Hev.
  - by eexists _, d.
  - apply Forall_cons in Hq as [Hqa Hq]. apply Forall_cons in Hpl as [Hpa Hpl]. set (d0 := ar_meanwhile a d).
    assert (Hs0 := quiet_state (ar_meanwhile a) d Hqa). fold d0 in Hs0. assert (Hd0 : in_step d0) by by apply quiet_step.
    assert (Hc0 : cursor d0 = cursor d) by (unfold cursor; by rewrite Hs0). rewrite <- Hs0 in Hnf. rewrite <- Hc0 in Hev.
    cbn [handle_stream]. unfold mbind at 1, M_bind at 1, modify. fold d0. unfold mbind at 1, M_bind at 1.
    unfold events_of, frame_event, plain in *. cbn [omap list_omap] in Hev. destruct (ar_frame a) as [seq ls|name message|name message|error message|]; cbn [on_frame].
    + assert (He : (seq, ls) ∈ lg).
      { assert (He : (seq, ls) ∈ after (cursor d0) lg) by (rewrite <- Hev; by left). by apply list_elem_of_filter in He as [_ ?]. }
      destruct (proj1 (Forall_forall _ _) Hfine _ He) as (inputs & Hconv & Hval & Hst). change (ConvertLabels ls = Ok inputs) in Hconv. rewrite Hconv.
      assert (Hpos := proj1 (Forall_forall _ _) (proj2 Hlg) _ He). cbn in Hpos.
      destruct (persist_event_run url seq inputs d0) as [d1 E]; [by split_and!; [|lia|]|done|].
      unfold mbind at 1, M_bind at 1, attempt. rewrite E. symmetry in Hev.
      destruct (persist_step _ _ _ _ _ _ _ _ Hd0 Hnf Hev Hconv E) as (Hs & Hc & Hn & Ha). apply IH; [done|done|done|done|by rewrite Hc].
    + unfold handleInfo. rewrite (proj2 (String.eqb_neq _ _) Hpa). by apply IH.
    + unfold handleInfo. rewrite (proj2 (String.eqb_neq _ _) Hpa). by apply IH.
    + done.
    + by apply IH.
Qed.

Lemma EnsureState_run d : blank url = false → ∃ s, EnsureState url d [] = (Ok (url, s), ensure_state url d, []).
Proof.
  intros Hurl. unfold EnsureState, validateSubscriptionURL. rewrite Hurl. unfold mbind, M_bind. cbn.
  destruct (db_label_states d !! url) as [s|] eqn:E; [exists s; by rewrite E|]. rewrite lookup_insert_eq. by eexists.
Qed.

Lemma UpdateConnected_run d : blank url = false → ∃ d', UpdateConnected url d [] = (Ok tt, d', []).
Proof. intros Hurl. destruct (EnsureState_run d Hurl) as [s E]. unfold UpdateConnected, mbind, M_bind. rewrite E. by eexists. Qed.

Lemma once_all dial d streamURL conn :
  blank url = false → Forall fine lg → in_step d → not_fatal (state_of d) = true →
  buildSubscribeURL url (cursor d) = Ok streamURL → dial streamURL = Ok conn →
  Forall (λ a, quiet (ar_meanwhile a)) (cn_frames conn) → Forall plain (cn_frames conn) → events_of (cn_frames conn) = after (cursor d) lg →
  ∃ r d', runOnce url dial d [] = (Ok r, d', []) ∧ in_step d' ∧ after (cursor d') lg = [].
Proof.
  intros Hurl Hfine Hd Hnf Hb Hdial Hq Hpl Hev. destruct (EnsureState_run d Hurl) as [s E].
  assert (Hk := keeping_EnsureState d [] Hd). rewrite E in Hk. cbn in Hk. set (d1 := ensure_state url d) in *. assert (Hs := EnsureState_ok _ _ _ _ _ _ E).
  destruct Hk as (Hd1 & Hc1 & _). assert (Hn1 : not_fatal s = true).
  { rewrite <- Hs. unfold d1, state_of, ensure_state, set_label_states in *. cbn. destruct (db_label_states d !! url) eqn:El; [by rewrite El|by rewrite lookup_insert_eq]. }
  unfold runOnce. unfold mbind at 1, M_bind at 1, attempt at 1. rewrite E. assert (Ha := is_agree d1 Hd1). unfold agree in Ha. rewrite Hs, Hn1 in Ha. rewrite Ha.
  assert (Hcs : ls_last_seq s = cursor d) by (rewrite <- Hc1; unfold cursor; by rewrite Hs). rewrite Hcs, Hb, Hdial.
  destruct (UpdateConnected_run d1 Hurl) as [d2 Ec]. cbn [negb]. cbv beta iota. unfold mbind at 1, M_bind at 1, attempt. rewrite Ec. assert (Hk := keeping_UpdateConnected d1 [] Hd1). rewrite Ec in Hk. cbn in Hk.
  destruct Hk as (Hd2 & Hc2 & _). assert (Hn2 : not_fatal (state_of d2) = true) by (apply (UpdateConnected_free _ _ _ _ Ec); by rewrite Hs).
  destruct (stream_all (cn_frames conn) (cn_end conn) d2) as (r & d' & Es & Hp); [done..|by rewrite Hc2, Hc1|].
  unfold fmap, M_fmap. rewrite Es. by eexists _, _.
Qed.

(** *** A stopped subscription *)

Lemma stopped_once d fs :
  in_step d → not_fatal (state_of d) = false →
  ∃ e d' fs', (∀ dial, runOnce url dial d fs = (Ok (Some e), d', fs')) ∧ kept d d' ∧ match e with OtherError text => benign text = true | _ => True end.
Proof.
  intros Hd Hf. unfold runOnce. unfold mbind at 1, M_bind at 1, attempt at 1. assert (Hk := keeping_EnsureState d fs Hd).
  destruct (EnsureState url d fs) as [[o d1] fs1] eqn:E. cbn in Hk. destruct o as [[u s]|e].
  - apply EnsureState_ok in E. assert (Ha := is_agree d1 (proj1 Hk)). destruct Hk as (H1 & H2 & H3 & Hf1). specialize (Hf1 Hf).
    unfold agree in Ha. rewrite Hf1, E in Ha. cbn in Ha. rewrite Ha. by eexists _, _, _.
  - by eexists _, _, _.
Qed.

Lemma stopped_run cfg as1 as2 backoff d fs :
  Forall2 (λ a b, at_meanwhile a = at_meanwhile b ∧ quiet (at_meanwhile a)) as1 as2 → in_step d → not_fatal (state_of d) = false →
  run_from url cfg as1 backoff d fs = run_from url cfg as2 backoff d fs ∧
  (cursor (run_from url cfg as1 backoff d fs).1.2 = cursor d ∧ labels_stored (run_from url cfg as1 backoff d fs).1.2 = labels_stored d ∧
    not_fatal (state_of (run_from url cfg as1 backoff d fs).1.2) = false).
Proof.
  intros Hall. revert backoff d fs. induction Hall as [|a b as1 as2 [Hab Hq] Hall IH]; intros backoff d fs Hd Hf; [done|].
  set (d0 := at_meanwhile a d). assert (Hs0 := quiet_state (at_meanwhile a) d Hq). fold d0 in Hs0.
  assert (Hl0 : labels_stored d0 = labels_stored d) by by destruct (Hq d). assert (Hd0 : in_step d0) by by apply quiet_step.
  assert (Hc0 : cursor d0 = cursor d) by (unfold cursor; by rewrite Hs0). rewrite <- Hs0 in Hf. rewrite <- Hc0, <- Hl0.
  destruct (stopped_once d0 fs Hd0 Hf) as (e & d1 & fs1 & Honce & Hk & Hb). cbn [run_from].
  rewrite !(bind_ok (modify _) _ _ _ tt d0 fs) by (by unfold modify, d0; rewrite ?Hab). rewrite !(bind_ok _ _ _ _ _ _ _ (Honce _)).
  destruct e as [code message|text]; [cbn; destruct Hk as (_ & -> & -> & Hf'); by auto|].
  assert (Hk2 := keeping_UpdateError text Hb d1 fs1 (proj1 Hk)). destruct (UpdateError url text d1 fs1) as [[o d2] fs2] eqn:E. cbn in Hk2.
  assert (Hupd : (attempt (UpdateError url (error_text (OtherError text))) ;; mret tt) d1 fs1 = (Ok tt, d2, fs2)) by (unfold mbind, M_bind, attempt; cbn; by rewrite E).
  rewrite !(bind_ok _ _ _ _ _ _ _ Hupd). destruct (kept_trans _ _ _ Hk Hk2) as (Hd2 & Hc2 & Hl2 & Hf2).
  destruct (IH (next_backoff cfg backoff) d2 fs2 Hd2 (Hf2 Hf)) as (Heq & Hc & Hl & Hn). rewrite <- Hc2, <- Hl2, <- Hc, <- Hl.
  unfold mbind, M_bind. rewrite <- Heq. split; [done|]. by destruct (run_from url cfg as1 (next_backoff cfg backoff) d2 fs2) as [[[[ps r]|x] d'] fs'].
Qed.

(** A label that cannot be stored is the end: no event from it on is ever stored, however often the stream is read again. *)
Lemma bad_event_blocks cfg attempts backoff d fs e es :
  Forall (λ a, quiet (at_meanwhile a) ∧ honest (at_dial a)) attempts → in_step d → after (cursor d) lg = e :: es → ¬ good e →
  (cursor (run_from url cfg attempts backoff d fs).1.2 < e.1)%Z.
Proof.
  intros Hall Hd Ha Hbad. destruct (run_step cfg attempts backoff d fs Hall Hd) as (ps & r & d' & fs' & -> & Hs & _). cbn.
  apply Z.nle_gt. intros Hle. apply Hbad. apply (proj1 (Forall_forall _ _) (is_good d' Hs)). apply list_elem_of_filter. split; [done|].
  assert (He : e ∈ after (cursor d) lg) by (rewrite Ha; by left). by apply list_elem_of_filter in He as [_ ?].
Qed.

(** C17. The labels of a stream are stored exactly once and in the order of the stream. Whenever a subscription is in step - what is stored
    are the labels of the events up to its cursor - it is so after any number of connections, wherever they break and whichever statements
    fail, while others use the database, and never further back; and once a connection delivers the rest of a stream of storable
    labels without a failing statement, all of it is stored. *)
Theorem stream_stored_once cfg attempts backoff d fs :
  Forall (λ a, quiet (at_meanwhile a) ∧ honest (at_dial a)) attempts → in_step d →
  ∃ pauses r d' fs', run_from url cfg attempts backoff d fs = (Ok (pauses, r), d', fs') ∧ in_step d' ∧ (cursor d <= cursor d')%Z ∧
    ∀ dial streamURL conn, blank url = false → Forall fine lg → not_fatal (state_of d') = true →
      buildSubscribeURL url (cursor d') = Ok streamURL → dial streamURL = Ok conn →
      Forall (λ a, quiet (ar_meanwhile a)) (cn_frames conn) → Forall plain (cn_frames conn) → events_of (cn_frames conn) = after (cursor d') lg →
      Forall2 stored_as (log_labels lg) (labels_stored (run (runOnce url dial) d').2).
Proof.
  intros Hall Hd. destruct (run_step cfg attempts backoff d fs Hall Hd) as (ps & r & d' & fs' & E & Hs & Hc & _).
  exists ps, r, d', fs'. split_and!; [done..|]. intros dial streamURL conn Hurl Hfine Hnf Hb Hdial Hq Hpl Hev.
  destruct (once_all dial d' streamURL conn) as (r' & d2 & E2 & Hs2 & Ha); [done..|]. unfold run. rewrite E2. cbn.
  assert (Hst := is_stored d2 Hs2). assert (Hup := upto_after (cursor d2) lg (proj1 Hlg)). rewrite Ha, app_nil_r in Hup. by rewrite <- Hup in Hst.
Qed.

(** C18. A subscription whose cursor the labeler refused stays stopped: when the loop gives up the table says so, and from then on no
    run of it connects anywhere - it comes to the same whatever a connection would give, and whichever statements fail - nor
    changes the cursor or the labels. *)
Theorem refused_cursor_stays cfg attempts backoff d fs pauses e d' fs' :
  Forall (λ a, quiet (at_meanwhile a) ∧ honest (at_dial a)) attempts → in_step d →
  run_from url cfg attempts backoff d fs = (Ok (pauses, Some (FatalCursorError e.1 e.2)), d', fs') →
  IsFatalCursorError (ls_last_error (state_of d')) = true ∧
  ∀ as1 as2 fs2, Forall2 (λ a b, at_meanwhile a = at_meanwhile b ∧ quiet (at_meanwhile a)) as1 as2 →
    runSubscription url cfg as1 d' fs2 = runSubscription url cfg as2 d' fs2 ∧
    let d2 := (runSubscription url cfg as1 d' fs2).1.2 in
    cursor d2 = cursor d' ∧ labels_stored d2 = labels_stored d' ∧ not_fatal (state_of d2) = false.
Proof.
  intros Hall Hd E. destruct (run_step cfg attempts backoff d fs Hall Hd) as (ps & r & d1 & fs1 & E1 & Hs & _ & Hr). rewrite E in E1.
  injection E1 as <- <- <- <-. cbn in Hr. split; [by rewrite (is_agree d' Hs), Hr|]. intros as1 as2 fs2 Has. by apply stopped_run.
Qed.
End step.

(** ** A labeler at work *)

#[local] Instance labeler_env : Env := {|
  dialect := SQLite; jsonb := Some; sha256_hex s := s; datetime_parser := {| ParseDatetimeTime := λ _, None |} |}.
#[local] Instance labeler_streams : LabelStreams := {| marshal_label _ := Ok "{}"; with_cursor u c := Ok (u +:+ "?cursor=" +:+ c) |}.

Definition feed : string := "wss://labels.example".
Definition sent (val : string) : option stream_label :=
  Some (mkStreamLabel None "2024-01-01T00:00:00Z" None None "" "did:plc:labeler" "at://did:plc:a/app.post/1" val None).
Definition small_log : list event := [(1%Z, [sent "spam"; sent "rude"]); (2%Z, [sent "porn"])].

Definition at_rest (frames : list frame) : list arrival := mkArrival id <$> frames.
Definition answer (c : Z) (conn : connection) (streamURL : string) : outcome connection :=
  if (streamURL =? feed +:+ "?cursor=" +:+ itoa c)%string then Ok conn else Err "connection refused".

(** The first connection breaks after an event; the second delivers the rest. *)
Definition broken : connection := mkConnection (at_rest [LabelInfo "Hello" None; LabelLabels 1 [sent "spam"; sent "rude"]]) (Some "EOF").
Definition whole : connection := mkConnection (at_rest [LabelLabels 2 [sent "porn"]]) (Some "EOF").
Definition refusing : connection := mkConnection (at_rest [ErrorFrame "FutureCursor" "too far"]) (Some "EOF").
Definition small_cfg : Config := normalizeConfig (mkConfig [feed; " " +:+ feed; ""] 0 0 0).

Lemma small_log_ok : stream_ok small_log.
Proof. split; [repeat constructor; cbn; lia|repeat constructor]. Qed.
Lemma quiet_id : quiet feed id.
Proof. done. Qed.

Lemma honest_answer c conn :
  Forall (λ a, quiet feed (ar_meanwhile a)) (cn_frames conn) → events_of (cn_frames conn) `prefix_of` after c small_log →
  honest feed small_log (answer c conn).
Proof.
  intros Hq Hpre c' streamURL conn' Hb Hd. unfold buildSubscribeURL in Hb. destruct (c' <? 0)%Z; [done|]. injection Hb as <-.
  unfold answer in Hd. destruct (_ =? _)%string eqn:E; [|done]. injection Hd as <-. apply String.eqb_eq in E. apply (inj (String.append feed)) in E.
  apply (inj (String.append "?cursor=")) in E. apply itoa_inj in E as ->. done.
Qed.

Lemma fresh_in_step : in_step feed small_log (empty_db 9).
Proof.
  assert (Hu : upto (cursor feed (empty_db 9)) small_log = []) by (vm_compute; reflexivity).
  split; rewrite ?Hu; [vm_compute; reflexivity|constructor|constructor].
Qed.

Definition small_attempts (c : Z) (conn : connection) : list attempt_env := [mkAttempt id (answer c conn)].

Lemma small_honest c conn :
  Forall (λ a, quiet feed (ar_meanwhile a)) (cn_frames conn) → events_of (cn_frames conn) `prefix_of` after c small_log →
  Forall (λ a, quiet feed (at_meanwhile a) ∧ honest feed small_log (at_dial a)) (small_attempts c conn).
Proof. intros Hq Hpre. apply Forall_singleton. split; [done|by apply honest_answer]. Qed.

Lemma stream_stored_once_witness :
  let d := (run_from feed small_cfg (small_attempts 0 broken) 1 (empty_db 9) []).1.2 in
  in_step feed small_log d ∧ cursor feed d = 1%Z ∧
  Forall2 (stored_as feed) (log_labels small_log) (labels_stored feed (run (runOnce feed (answer 1 whole)) d).2) ∧
  (lb_val <$> labels_stored feed (run (runOnce feed (answer 1 whole)) d).2) = ["spam"; "rude"; "porn"].
Proof.
  assert (Hh : Forall (λ a, quiet feed (at_meanwhile a) ∧ honest feed small_log (at_dial a)) (small_attempts 0 broken)).
  { apply small_honest; [by repeat constructor|]. exists [(2%Z, [sent "porn"])]. by vm_compute. }
  destruct (stream_stored_once feed small_log small_log_ok small_cfg (small_attempts 0 broken) 1 (empty_db 9) [] Hh fresh_in_step)
    as (ps & r & d' & fs' & E & Hs & _ & Hall).
  rewrite E. cbn [fst snd]. assert (Hd' : d' = (run_from feed small_cfg (small_attempts 0 broken) 1 (empty_db 9) []).1.2) by by rewrite E.
  split; [done|]. split; [by rewrite Hd'; vm_compute|]. split; [|by rewrite Hd'; vm_compute].
  apply (Hall (answer 1 whole) (feed +:+ "?cursor=1") whole); [done| | | |by vm_compute|by repeat constructor|by repeat constructor|].
  - repeat constructor; eexists; (split; [by vm_compute|]); (split; [by vm_compute|]); by repeat constructor.
  - by rewrite Hd'; vm_compute.
  - by rewrite Hd'; vm_compute.
  - by rewrite Hd'; vm_compute.
Defined.

(** The labeler does not know the cursor: nothing that comes later makes a connection. *)
Lemma refused_cursor_stays_witness :
  let d := (run_from feed small_cfg (small_attempts 0 refusing) 1 (empty_db 9) []).1.2 in
  IsFatalCursorError (ls_last_error (state_of feed d)) = true ∧
  runSubscription feed small_cfg (small_attempts 0 whole) d [] = runSubscription feed small_cfg (small_attempts 1 broken) d [].
Proof.
  assert (Hh : Forall (λ a, quiet feed (at_meanwhile a) ∧ honest feed small_log (at_dial a)) (small_attempts 0 refusing)).
  { apply small_honest; [by repeat constructor|]. apply prefix_nil. }
  destruct (run_from feed small_cfg (small_attempts 0 refusing) 1 (empty_db 9) []) as [[o d] fs'] eqn:E. cbn [fst snd].
  assert (Ho : o = Ok ([], Some (FatalCursorError "FutureCursor" "too far. Reset subscription cursor and replay labels."))) by by vm_compute in E; injection E as <- _ _.
  subst o. destruct (refused_cursor_stays feed small_log small_log_ok small_cfg _ 1 _ [] [] ("FutureCursor", "too far. Reset subscription cursor and replay labels.")
    d fs' Hh fresh_in_step E) as [Hf Hall]. split; [done|]. apply Hall. repeat constructor.
Defined.

(** A label without a time that can be read keeps the stream from ever going on. *)
Example bad_label_repeats :
  let bad := mkStreamLabel None "yesterday" None None "" "did:plc:labeler" "at://did:plc:a/app.post/1" "spam" None in
  let conn := mkConnection (at_rest [LabelLabels 1 [Some bad]; LabelLabels 2 [sent "porn"]]) None in
  let attempts := replicate 5 (mkAttempt id (answer 0 conn)) in
  let '(o, d, _) := runSubscription feed small_cfg attempts (empty_db 9) [] in
  o = Ok ([1000000000; 2000000000; 4000000000; 8000000000; 16000000000]%Z, None) ∧ cursor feed d = 0%Z ∧ labels_stored feed d = [].
Proof. by vm_compute. Qed.
