(* ===== verification/Migrations.v ===== *)
(** * Schema migrations

    src/internal/database/migrations/migrations.go and statements.go: which migrations there
    are, how a file is run - in one transaction, or one statement at a time - and the
    creation times that are filled in for old records. What a text of SQL does to the schema
    and to the records is the database's affair and a parameter; so are its catalog and its
    JSON functions. The names of the regular expressions are those of ASCII. *)
From S2P Require Import Prelude GoStrings Json AtprotoTime Effects Database RecordStore.

(** ** Statements (statements.go) *)

Definition noTransactionMarker : string := "-- hyperindex:no-transaction".

Definition runsOutsideTransaction (migrationSQL : string) : bool :=
  match filter (λ line, trim_space line ≠ "") (split newline migrationSQL) with
  | line :: _ => (trim_space line =? noTransactionMarker)%string
  | [] => false
  end.

Definition quote1 : Ascii.ascii := Eval cbv in Ascii.ascii_of_N 39.
Definition quote2 : Ascii.ascii := Eval cbv in Ascii.ascii_of_N 34.
Definition dollar : Ascii.ascii := Eval cbv in Ascii.ascii_of_N 36.
Definition semicolon : Ascii.ascii := Eval cbv in Ascii.ascii_of_N 59.

(** The length of what follows an opening quote, up to the closing one. *)
Fixpoint close_quote (quote : Ascii.ascii) (s : string) : nat :=
  match s with
  | EmptyString => 0
  | String c r =>
      if negb (Ascii.eqb c quote) then S (close_quote quote r)
      else match r with
      | String d r' => if Ascii.eqb d quote then S (S (close_quote quote r')) else 1
      | EmptyString => 1
      end
  end.
Definition quotedLength (s : string) : nat := match s with String quote r => S (close_quote quote r) | EmptyString => 0 end.

Definition is_name_start (c : Ascii.ascii) : bool :=
  let n := byte_val c in ((65 <=? n) && (n <=? 90) || (97 <=? n) && (n <=? 122) || (n =? 95))%N.
Definition is_name_byte (c : Ascii.ascii) : bool := is_name_start c || (let n := byte_val c in (48 <=? n) && (n <=? 57))%N.
Fixpoint take_name (s : string) : string :=
  match s with String c r => if is_name_byte c then String c (take_name r) else "" | EmptyString => "" end.
Definition name_at (s : string) : string := match s with String c _ => if is_name_start c then take_name s else "" | EmptyString => "" end.

(** Two dollar signs, with a name between them or none. *)
Definition dollarQuoteTag (s : string) : string :=
  match s with
  | String c r =>
      let name := name_at r in
      match sdrop (String.length name) r with
      | String d _ => if Ascii.eqb c dollar && Ascii.eqb d dollar then String dollar (name +:+ byte_str dollar) else ""
      | EmptyString => ""
      end
  | EmptyString => ""
  end.

Definition dollarQuotedLength (s tag : string) : nat :=
  match String.index 0 tag (sdrop (String.length tag) s) with
  | Some n => String.length tag + n + String.length tag
  | None => String.length s
  end.

(** [flush]; the bytes of the current statement are held in reverse. *)
Definition flush (current : string) (statements : list string) : list string :=
  let statement := trim_space (srev current) in
  if (statement =? "")%string then statements else statements ++ [statement].

(** The length of the token at the start of a text that is not empty, and what is kept of it; a semicolon has none. *)
Definition next_token (rest : string) : nat * option string :=
  match rest with
  | EmptyString => (0, Some "")
  | String c _ =>
      if has_prefix "--" rest then
        (match String.index 0 (byte_str newline) rest with Some n => n | None => String.length rest end, Some "")
      else if has_prefix "/*" rest then
        (match String.index 0 "*/" (sdrop 2 rest) with Some n => 2 + n + 2 | None => String.length rest end, Some " ")
      else if Ascii.eqb c quote1 || Ascii.eqb c quote2 then (quotedLength rest, Some (stake (quotedLength rest) rest))
      else if Ascii.eqb c dollar then
        let tag := dollarQuoteTag rest in
        if (tag =? "")%string then (1, Some (byte_str c))
        else (dollarQuotedLength rest tag, Some (stake (dollarQuotedLength rest tag) rest))
      else if Ascii.eqb c semicolon then (1, None)
      else (1, Some (byte_str c))
  end.

Fixpoint split_tokens (fuel : nat) (rest current : string) (statements : list string) : list string :=
  match fuel, rest with
  | S fuel, String _ _ =>
      let '(n, text) := next_token rest in
      match text with
      | Some text => split_tokens fuel (sdrop n rest) (srev text +:+ current) statements
      | None => split_tokens fuel (sdrop n rest) "" (flush current statements)
      end
  | _, _ => flush current statements
  end.
(** Every token has a byte, so the length of the text is fuel enough. *)
Definition splitStatements (migrationSQL : string) : list string := split_tokens (String.length migrationSQL) migrationSQL "" [].

(** A word of the pattern, whatever its case, and white space, [\s+], behind it. *)
Definition is_pattern_space (c : Ascii.ascii) : bool := let n := byte_val c in ((n =? 9) || (n =? 10) || (n =? 12) || (n =? 13) || (n =? 32))%N.
Fixpoint skip_spaces (s : string) : string := match s with String c r => if is_pattern_space c then skip_spaces r else s | EmptyString => "" end.
Definition ascii_fold (c : Ascii.ascii) : Ascii.ascii :=
  let n := byte_val c in if ((97 <=? n) && (n <=? 122))%N then Ascii.ascii_of_N (n - 32) else c.
Fixpoint after_word (word s : string) : option string :=
  match word, s with
  | EmptyString, String c r => if is_pattern_space c then Some (skip_spaces r) else None
  | String w word', String c r => if Ascii.eqb (ascii_fold c) w then after_word word' r else None
  | _, EmptyString => None
  end.

Fixpoint after_words (words : list string) (s : string) : option string :=
  match words with
  | [] => Some s
  | w :: rest => match after_word w s with Some r => after_words rest r | None => None end
  end.
(** [first] if it matches, [second] otherwise. *)
Definition or_else {A} (first second : option A) : option A := match first with Some a => Some a | None => second end.
Definition captured (s : string) : option string := let n := name_at s in if (n =? "")%string then None else Some n.

(** The name [createIndexConcurrently] captures. An optional part is taken if the rest matches behind it. *)
Definition index_name (statement : string) : option string :=
  match or_else (after_words ["CREATE"; "UNIQUE"; "INDEX"; "CONCURRENTLY"] statement) (after_words ["CREATE"; "INDEX"; "CONCURRENTLY"] statement) with
  | Some r => or_else (match after_words ["IF"; "NOT"; "EXISTS"] r with Some r' => captured r' | None => None end) (captured r)
  | None => None
  end.

Definition concurrentIndexNames (statements : list string) : list string := omap index_name statements.

(** ** Files *)

Record Migration := mkMigration { mg_Version : string; mg_Name : string; mg_UpSQL : string; mg_DownSQL : string }.

(** A directory entry with the content of the file. *)
Record entry := mkEntry { en_Name : string; en_IsDir : bool; en_content : string }.

(** The files of a version: [name], [up] and [down]. *)
Definition add_file (files : gmap string Migration) (e : entry) : gmap string Migration :=
  if en_IsDir e || negb (has_suffix ".sql" (en_Name e)) then files
  else
    let parts := split dot (en_Name e) in
    if length parts <? 3 then files
    else
      let direction := nth (length parts - 2) parts "" in
      if negb ((direction =? "up")%string || (direction =? "down")%string) then files
      else
        let baseName := join (byte_str dot) (take (length parts - 2) parts) in
        let version := nth 0 (split (Ascii.ascii_of_N 95) baseName) "" in
        let m := default (mkMigration version baseName "" "") (files !! version) in
        <[version := if (direction =? "up")%string then mkMigration version (mg_Name m) (en_content e) (mg_DownSQL m)
                     else mkMigration version (mg_Name m) (mg_UpSQL m) (en_content e)]> files.

Definition version_le (a b : string * Migration) : Prop := String.le a.1 b.1.
#[export] Instance version_le_dec : RelDecision version_le := λ a b, @text_le_dec byte_order a.1 b.1.

(** The directory of the dialect, in the order of file names. *)
Definition loadMigrations (entries : list entry) : list Migration :=
  (merge_sort version_le (map_to_list (foldl add_file ∅ entries))).*2.

(** ** The database *)

Class SqlSchema := {
  schema : Type;
  (** A text of one or more statements, all of it or nothing. *)
  sql_run : string → schema * db → outcome (schema * db);
  (** The table of records has the column [record_created_at]. *)
  has_created_at : schema → bool;
  (** [json_type(json, '$.createdAt') = 'text'], [jsonb_typeof(json->'createdAt') = 'string'] *)
  created_at_is_text : string → bool;
}.

Record mdb `{SqlSchema} := mkMdb {
  md_schema : schema;
  md_db : db;
  (** The table [schema_migrations], once there is one. *)
  md_versions : option (gset string);
  (** [pg_index]: the indexes that are there and not valid. *)
  md_invalid : gset string;
}.

Section runner.
Context `{Env} `{TextOrder} `{SqlSchema}.

Definition set_versions (vs : option (gset string)) (d : mdb) : mdb := mkMdb _ (md_schema d) (md_db d) vs (md_invalid d).
Definition set_invalid (names : gset string) (d : mdb) : mdb := mkMdb _ (md_schema d) (md_db d) (md_versions d) names.

(** [ExecContext] in a transaction *)
Definition exec_sql (sql : string) : M mdb unit :=
  stmt (λ d, after ← sql_run sql (md_schema d, md_db d); Ok (tt, mkMdb _ after.1 after.2 (md_versions d) (md_invalid d))).

(** What PostgreSQL may keep of a statement that fails outside of transactions: the index a
    concurrent build was making, which is not valid. *)
Definition left_behind (sql : string) (d : mdb) : mdb :=
  match dialect, index_name sql with
  | PostgreSQL, Some name => set_invalid ({[name]} ∪ md_invalid d) d
  | _, _ => d
  end.

(** [ExecContext] outside of transactions. Of a statement that fails, the schedule says next
    whether the index is left. *)
Definition exec_outside (sql : string) : M mdb unit := λ d fs,
  match exec_sql sql d fs with
  | (Err e, d', true :: fs') => (Err e, left_behind sql d', fs')
  | (Err e, d', fs') => (Err e, d', tl fs')
  | done => done
  end.

(** [DROP INDEX CONCURRENTLY name], by hand. *)
Definition drop_invalid (name : string) (d : mdb) : mdb := set_invalid (md_invalid d ∖ {[name]}) d.

Definition createMigrationsTable : M mdb unit :=
  exec (λ d, set_versions (Some (default ∅ (md_versions d))) d).

Definition getAppliedMigrations : M mdb (gset string) :=
  stmt (λ d, match md_versions d with Some vs => Ok (vs, d) | None => Err "no such table: schema_migrations" end).

Definition record_version (version : string) : M mdb unit :=
  wrap "record migration version" (stmt (λ d, match md_versions d with
    | Some vs => if bool_decide (version ∈ vs) then Err "UNIQUE constraint failed" else Ok (tt, set_versions (Some ({[version]} ∪ vs)) d)
    | None => Err "no such table: schema_migrations"
    end)).

Definition remove_version (version : string) : M mdb unit :=
  wrap "remove migration version" (stmt (λ d, match md_versions d with
    | Some vs => Ok (tt, set_versions (Some (vs ∖ {[version]})) d)
    | None => Err "no such table: schema_migrations"
    end)).

Definition rejectInvalidIndex (name : string) : M mdb unit :=
  invalid ← wrap ("check index " +:+ name +:+ " validity") (query (λ d, bool_decide (name ∈ md_invalid d)));
  if (invalid : bool) then throw ("index " +:+ name +:+ " exists but is invalid") else mret tt.

Definition execStatementsOutsideTransaction (migrationSQL : string) : M mdb unit :=
  let statements := splitStatements migrationSQL in
  match dialect with PostgreSQL => for_each rejectInvalidIndex (concurrentIndexNames statements) | SQLite => mret tt end ;;
  for_each (λ s, wrap "execute migration statement" (exec_outside s)) statements.

Definition applyMigration (m : Migration) : M mdb unit :=
  if runsOutsideTransaction (mg_UpSQL m)
  then execStatementsOutsideTransaction (mg_UpSQL m) ;; record_version (mg_Version m)
  else transaction (wrap "execute migration SQL" (exec_sql (mg_UpSQL m)) ;; record_version (mg_Version m)).

Definition rollbackMigration (m : Migration) : M mdb unit :=
  if runsOutsideTransaction (mg_DownSQL m)
  then execStatementsOutsideTransaction (mg_DownSQL m) ;; remove_version (mg_Version m)
  else transaction (wrap "execute rollback SQL" (exec_sql (mg_DownSQL m)) ;; remove_version (mg_Version m)).

(** ** Creation times of old records *)

Definition recordCreatedAtBackfillBatchSize : nat := 500.

Definition lacks_created_at (lastURI : string) (e : string * row) : Prop :=
  row_record_created_at e.2 = None ∧ created_at_is_text (row_json e.2) = true ∧ (lastURI = "" ∨ text_lt lastURI e.1).
#[export] Instance lacks_created_at_dec lastURI e : Decision (lacks_created_at lastURI e).
Proof. unfold lacks_created_at. apply _. Defined.

Definition queryRecordCreatedAtBackfillBatch (lastURI : string) : M mdb (list (string * string)) :=
  wrap "query record_created_at backfill batch" (query (λ d,
    (λ e : string * row, (e.1, row_json e.2)) <$>
      take recordCreatedAtBackfillBatchSize (filter (lacks_created_at lastURI) (by_key (db_records (md_db d)))))).

Definition updateRecordCreatedAt (uri createdAt : string) : M mdb unit :=
  wrap ("update record_created_at for " +:+ uri) (exec (λ d, mkMdb _ (md_schema d)
    (update_rows (λ u r, (u =? uri)%string && bool_decide (row_record_created_at r = None))
      (λ _ r, set_created_at (Some createdAt) r) (md_db d)).2 (md_versions d) (md_invalid d))).

Definition fill_row (e : string * string) : M mdb unit :=
  match NormalizeRecordCreatedAt e.2 with None => mret tt | Some createdAt => updateRecordCreatedAt e.1 createdAt end.

(** Every batch ends behind the one before, so the number of records is fuel enough. *)
Fixpoint fill_batches (fuel : nat) (lastURI : string) : M mdb unit :=
  match fuel with
  | O => throw "out of fuel"
  | S fuel =>
      rows ← queryRecordCreatedAtBackfillBatch lastURI;
      match last rows with
      | None => mret tt
      | Some e => for_each fill_row rows ;; fill_batches fuel e.1
      end
  end.

Definition recordCreatedAtColumnExists : M mdb bool := wrap "check record_created_at column" (query (λ d, has_created_at (md_schema d))).

Definition backfillRecordCreatedAt : M mdb unit :=
  ok ← recordCreatedAtColumnExists;
  if (ok : bool) then d ← get; fill_batches (S (size (db_records (md_db d)))) "" else mret tt.

(** ** Startup *)

Context (entries : list entry).

Definition apply_pending (applied : gset string) (m : Migration) : M mdb unit :=
  if bool_decide (mg_Version m ∈ applied) then mret tt
  else wrap ("failed to apply migration " +:+ mg_Version m) (applyMigration m).

Definition Run : M mdb unit :=
  wrap "failed to create migrations table" createMigrationsTable ;;
  applied ← wrap "failed to get applied migrations" getAppliedMigrations;
  for_each (apply_pending applied) (loadMigrations entries) ;;
  wrap "failed to backfill record_created_at" backfillRecordCreatedAt.

(** [ORDER BY version DESC LIMIT 1] *)
Definition last_version (vs : gset string) : option string := last (merge_sort text_le (elements vs)).

Definition Rollback : M mdb unit :=
  version ← wrap "failed to get last migration" (stmt (λ d, match md_versions d with
    | Some vs => Ok (last_version vs, d) | None => Err "no such table: schema_migrations" end));
  match version with
  | None => mret tt
  | Some version =>
      match head (filter (λ m, mg_Version m = version) (loadMigrations entries)) with
      | None => throw ("migration " +:+ version +:+ " not found")
      | Some m => wrap ("failed to rollback migration " +:+ version) (rollbackMigration m)
      end
  end.
End runner.

(** The cases of statements_test.go. *)
Example statements_split :
  splitStatements ("-- hyperindex:no-transaction" +:+ byte_str newline +:+ "-- a note; with a semicolon" +:+ byte_str newline
    +:+ "CREATE INDEX CONCURRENTLY IF NOT EXISTS a ON t (c); /* inline; */" +:+ byte_str newline +:+ "DROP INDEX CONCURRENTLY IF EXISTS b;")
    = ["CREATE INDEX CONCURRENTLY IF NOT EXISTS a ON t (c)"; "DROP INDEX CONCURRENTLY IF EXISTS b"] ∧
  splitStatements "INSERT INTO t VALUES ('a;b', 'it''s -- not a comment'); SELECT 1" = ["INSERT INTO t VALUES ('a;b', 'it''s -- not a comment')"; "SELECT 1"] ∧
  splitStatements "DO $$ BEGIN PERFORM 1; PERFORM 2; END $$; DO $tag$ SELECT ';' $tag$;"
    = ["DO $$ BEGIN PERFORM 1; PERFORM 2; END $$"; "DO $tag$ SELECT ';' $tag$"] ∧
  concurrentIndexNames ["CREATE INDEX CONCURRENTLY IF NOT EXISTS idx_a ON record (collection)"; "create unique index concurrently idx_b ON record (uri)";
    "CREATE INDEX idx_plain ON record (did)"; "DROP INDEX CONCURRENTLY IF EXISTS idx_c"] = ["idx_a"; "idx_b"].
Proof. split_and!; vm_compute; reflexivity. Qed.
