(* ===== verification/MigrationProps.v ===== *)
(** * What startup guarantees

    However often startup was interrupted, a startup that succeeds leaves the schema, the
    records and the recorded versions as a single uninterrupted one would have. One that no
    statement of which fails succeeds, unless a concurrent build of an index failed before it on
    PostgreSQL: then startups fail, and change nothing, until someone drops the index. *)
From S2P Require Import Prelude GoStrings Json AtprotoTime Effects Database RecordStore RecordProps LabelText Migrations.

(** ** Statements *)

(** The fuel of the loop is enough: every token has a byte. *)
Lemma next_token_advances c s : 0 < (next_token (String c s)).1.
Proof.
  cbn [next_token]. destruct (has_prefix "--" (String c s)) eqn:E1.
  - apply prefix_true in E1 as [t Ht]. rewrite !append_cons in Ht. injection Ht as -> ->. cbn [fst].
    destruct (String.index 0 (byte_str newline) _) as [[|n]|] eqn:Ei; [by cbn in Ei; destruct (String.index _ _ _)|lia|cbn; lia].
  - destruct (has_prefix "/*" (String c s)); [cbn [fst]; destruct (String.index _ _ _); cbn; lia|].
    destruct (_ || _); [cbn; lia|]. destruct (Ascii.eqb c dollar); [|by destruct (Ascii.eqb c semicolon); cbn; lia].
    destruct (_ =? "")%string eqn:Et; [cbn; lia|]. cbn [fst]. unfold dollarQuotedLength.
    destruct (dollarQuoteTag (String c s)); [done|]. destruct (String.index _ _ _); cbn; lia.
Qed.

Lemma split_tokens_enough fuel1 fuel2 rest current statements :
  String.length rest ≤ fuel1 → String.length rest ≤ fuel2 → split_tokens fuel1 rest current statements = split_tokens fuel2 rest current statements.
Proof.
  revert fuel2 rest current statements. induction fuel1 as [|fuel1 IH]; intros fuel2 rest current statements Hf1 Hf2.
  - destruct rest; [by destruct fuel2|cbn in Hf1; lia].
  - destruct rest as [|c s]; [by destruct fuel2|]. destruct fuel2 as [|fuel2]; [cbn in Hf2; lia|]. assert (Ha := next_token_advances c s).
    cbn [split_tokens]. destruct (next_token (String c s)) as [n text]. cbn [fst] in Ha.
    assert (Hn : String.length (sdrop n (String c s)) ≤ String.length s) by (rewrite length_sdrop; cbn; lia). cbn in Hf1, Hf2.
    destruct text; apply IH; lia.
Qed.

(** ** Files *)

Lemma add_file_keys files e :
  map_Forall (λ v m, mg_Version m = v) files → map_Forall (λ v m, mg_Version m = v) (add_file files e).
Proof.
  intros Hf. unfold add_file. destruct (_ || _); [done|]. destruct (_ <? 3); [done|]. destruct (negb _); [done|].
  apply map_Forall_insert_2; [by destruct (_ =? _)%string|done].
Qed.

Lemma load_keys entries files :
  map_Forall (λ v m, mg_Version m = v) files → map_Forall (λ v m, mg_Version m = v) (foldl add_file files entries).
Proof. revert files. induction entries as [|e entries IH]; intros files Hf; [done|]. by apply IH, add_file_keys. Qed.

Lemma loadMigrations_distinct entries : NoDup (mg_Version <$> loadMigrations entries).
Proof.
  unfold loadMigrations. assert (Hk := load_keys entries ∅ (map_Forall_empty _)). revert Hk. generalize (foldl add_file ∅ entries) as files.
  intros files Hk. assert (Heq : mg_Version <$> (merge_sort version_le (map_to_list files)).*2 = (merge_sort version_le (map_to_list files)).*1).
  { rewrite <- list_fmap_compose. apply list_fmap_ext. intros i [v m] Hi. cbn. apply list_elem_of_lookup_2 in Hi.
    rewrite merge_sort_Permutation in Hi. apply elem_of_map_to_list in Hi. by apply Hk in Hi. }
  rewrite Heq, merge_sort_Permutation. apply NoDup_fst_map_to_list.
Qed.

Section upgrade.
Context `{Env} `{TextOrder} `{SqlSchema}.
Context (entries : list entry).
Notation ms := (loadMigrations entries).

(** ** What an uninterrupted startup does *)

Fixpoint run_all (statements : list string) (x : schema * db) : outcome (schema * db) :=
  match statements with [] => Ok x | s :: rest => y ← sql_run s x; run_all rest y end.

Definition up (m : Migration) (x : schema * db) : outcome (schema * db) :=
  if runsOutsideTransaction (mg_UpSQL m) then run_all (splitStatements (mg_UpSQL m)) x else sql_run (mg_UpSQL m) x.

Fixpoint upgrade (todo : list Migration) (applied : gset string) (x : schema * db) : outcome (schema * db) :=
  match todo with
  | [] => Ok x
  | m :: rest => if bool_decide (mg_Version m ∈ applied) then upgrade rest applied x else y ← up m x; upgrade rest applied y
  end.

(** A record that shows when it was created gets that time, unless it has one. *)
Definition filled_row (r : row) : row :=
  match row_record_created_at r with
  | Some _ => r
  | None => if created_at_is_text (row_json r)
            then match NormalizeRecordCreatedAt (row_json r) with Some c => set_created_at (Some c) r | None => r end
            else r
  end.
Definition fill (d : db) : db := set_records (fmap filled_row) d.
Definition finish (x : schema * db) : schema * db := if has_created_at x.1 then (x.1, fill x.2) else x.

Definition applied_in (d : mdb) : gset string := default ∅ (md_versions d).
Definition contents (d : mdb) : schema * db := (md_schema d, md_db d).
Definition uninterrupted (d : mdb) : outcome (schema * db) := x ← upgrade ms (applied_in d) (contents d); Ok (finish x).

(** What the code asks of statements that run outside of transactions: after some of the file's statements, all of them do what they
    would have done. *)
Definition repeatable (m : Migration) : Prop :=
  runsOutsideTransaction (mg_UpSQL m) = true → ∀ p s x y,
    splitStatements (mg_UpSQL m) = p ++ s → run_all p x = Ok y → run_all (splitStatements (mg_UpSQL m)) y = run_all (splitStatements (mg_UpSQL m)) x.

(** ** Migrations *)

Lemma upgrade_applied done todo applied x :
  (∀ m, m ∈ done → mg_Version m ∈ applied) → upgrade (done ++ todo) applied x = upgrade todo applied x.
Proof.
  induction done as [|m done IH]; intros Hd; [done|]. cbn. rewrite bool_decide_true by (apply Hd; by left). apply IH. intros m' Hm'. apply Hd. by right.
Qed.

Lemma upgrade_more v todo applied x : v ∉ mg_Version <$> todo → upgrade todo ({[v]} ∪ applied) x = upgrade todo applied x.
Proof.
  revert x. induction todo as [|m todo IH]; intros x Hv; [done|]. cbn in Hv. apply not_elem_of_cons in Hv as [Hm Hv]. cbn.
  rewrite (bool_decide_ext _ (mg_Version m ∈ applied)) by set_solver. destruct (bool_decide _); [by apply IH|]. unfold mbind, outcome_bind.
  destruct (up m x); [by apply IH|done].
Qed.

(** The state in the middle of a startup that found [vs0]: all of [done] is applied, nothing else of [todo] is. *)
Definition midway (vs0 : gset string) (before todo : list Migration) (d : mdb) : Prop :=
  ms = before ++ todo ∧ md_versions d = Some (vs0 ∪ list_to_set (mg_Version <$> before)).

Lemma midway_upgrade vs0 before todo d :
  midway vs0 before todo d → upgrade ms (applied_in d) (contents d) = upgrade todo (applied_in d) (contents d).
Proof.
  intros [Hms Hvs]. rewrite Hms. apply upgrade_applied. intros m Hm. unfold applied_in. rewrite Hvs. cbn. apply elem_of_union_r, elem_of_list_to_set.
  by apply list_elem_of_fmap_2.
Qed.

Lemma midway_pending vs0 before m todo d :
  midway vs0 before (m :: todo) d → (mg_Version m ∈ applied_in d ↔ mg_Version m ∈ vs0) ∧ mg_Version m ∉ mg_Version <$> todo.
Proof.
  intros [Hms Hvs]. assert (Hnd := loadMigrations_distinct entries). rewrite Hms, fmap_app in Hnd. apply NoDup_app in Hnd as (_ & Hd & Hnd).
  cbn in Hnd. apply NoDup_cons in Hnd as [Hm _]. split; [|done]. unfold applied_in. rewrite Hvs. cbn. rewrite elem_of_union, elem_of_list_to_set.
  split; [|by left]. intros [?|Hin]; [done|]. exfalso. apply (Hd _ Hin). cbn. by left.
Qed.

Lemma exec_sql_inv sql d fs o d' fs' :
  exec_sql sql d fs = (o, d', fs') →
  match o with Ok _ => sql_run sql (contents d) = Ok (contents d') | Err _ => d' = d end ∧ md_versions d' = md_versions d ∧ md_invalid d' = md_invalid d.
Proof.
  unfold exec_sql, stmt. destruct fs as [|[] fs]; [|by intros [= <- <- <-]|].
  all: destruct (sql_run sql _) as [[s b]|e] eqn:E; cbn; by intros [= <- <- <-].
Qed.

(** Nothing is left behind, or the index [name] is. *)
Definition left_of (names : list string) (d d' : mdb) : Prop :=
  md_invalid d' = md_invalid d ∨ dialect = PostgreSQL ∧ ∃ name, name ∈ names ∧ md_invalid d' = {[name]} ∪ md_invalid d.

Lemma left_behind_spec sql d :
  contents (left_behind sql d) = contents d ∧ md_versions (left_behind sql d) = md_versions d ∧ left_of (concurrentIndexNames [sql]) d (left_behind sql d).
Proof.
  unfold left_behind, left_of, concurrentIndexNames. cbn. destruct dialect; [by split_and!; [..|left]|].
  destruct (index_name sql) as [n|]; [|by split_and!; [..|left]]. split_and!; [done..|right; split; [done|]]. exists n. split; [by left|done].
Qed.

Lemma exec_outside_inv sql d fs o d' fs' :
  exec_outside sql d fs = (o, d', fs') →
  match o with
  | Ok _ => sql_run sql (contents d) = Ok (contents d') ∧ md_invalid d' = md_invalid d
  | Err _ => contents d' = contents d ∧ left_of (concurrentIndexNames [sql]) d d'
  end ∧ md_versions d' = md_versions d.
Proof.
  unfold exec_outside. destruct (exec_sql sql d fs) as [[[a|e] d1] fs1] eqn:E; apply exec_sql_inv in E as (E & Hv & Hi).
  - by intros [= <- <- <-].
  - subst d1. destruct (left_behind_spec sql d) as (Hc & Hv' & Hl).
    destruct fs1 as [|[] fs1]; intros [= <- <- <-]; split; try done; split; try done; by left.
Qed.

Lemma exec_all_inv sqls d fs o d' fs' :
  for_each (λ s, wrap "execute migration statement" (exec_outside s)) sqls d fs = (o, d', fs') →
  (∃ p s, sqls = p ++ s ∧ run_all p (contents d) = Ok (contents d') ∧ (o = Ok tt → s = [])) ∧ md_versions d' = md_versions d ∧
  left_of (concurrentIndexNames sqls) d d' ∧ (is_ok o = true → md_invalid d' = md_invalid d).
Proof.
  revert d fs. induction sqls as [|sql sqls IH]; intros d fs; cbn [for_each].
  { intros [= <- <- <-]. split_and!; [by exists [], []|done|by left|done]. }
  assert (Hsub : ∀ n, n ∈ concurrentIndexNames [sql] ∨ n ∈ concurrentIndexNames sqls → n ∈ concurrentIndexNames (sql :: sqls)).
  { intros n. unfold concurrentIndexNames. cbn. destruct (index_name sql); cbn; set_solver. }
  unfold mbind, M_bind, wrap. destruct (exec_outside sql d fs) as [[[[]|e] d1] fs1] eqn:E; apply exec_outside_inv in E as [E Hv]; cbn [wrap_err].
  - destruct E as [E Hi]. intros ((p & s & -> & Hp & Ho) & Hv' & Hl & Hok)%IH. split_and!; [|congruence| |intros Hk; rewrite Hok; done].
    + exists (sql :: p), s. split; [done|]. cbn. unfold mbind, outcome_bind. by rewrite E.
    + destruct Hl as [Hl|(Hd & n & Hn & Hl)]; [left; congruence|right]. split; [done|]. exists n. split; [apply Hsub; by right|congruence].
  - intros [= <- <- <-]. destruct E as [Hc Hl]. split_and!; [|done| |done].
    + exists [], (sql :: sqls). split_and!; [done|cbn; by rewrite Hc|done].
    + destruct Hl as [Hl|(Hd & n & Hn & Hl)]; [by left|right]. split; [done|]. exists n. split; [apply Hsub; by left|done].
Qed.

Lemma reject_inv names (d : mdb) fs o d' fs' : for_each rejectInvalidIndex names d fs = (o, d', fs') → d' = d.
Proof.
  revert d fs. induction names as [|n names IH]; intros d fs; cbn [for_each]; [by intros [= _ <- _]|].
  unfold mbind at 1, M_bind at 1. destruct (rejectInvalidIndex n d fs) as [[o1 d1] fs1] eqn:E.
  assert (d1 = d) as ->. { unfold rejectInvalidIndex, mbind, M_bind, wrap, query, stmt in E. destruct fs as [|[] fs]; cbn in E; try (by injection E); case_bool_decide; by injection E. }
  destruct o1; [apply IH|by intros [= _ <- _]].
Qed.

(** What passes has none of the names as an invalid index. *)
Lemma reject_ok names (d : mdb) fs d' fs' :
  for_each rejectInvalidIndex names d fs = (Ok tt, d', fs') → Forall (λ n, n ∉ md_invalid d) names.
Proof.
  revert d fs. induction names as [|n names IH]; intros d fs; cbn [for_each]; [by constructor|]. intros E.
  apply bind_ok_inv in E as ([] & d1 & fs1 & E1 & E2). assert (d1 = d ∧ n ∉ md_invalid d) as [-> Hn].
  { unfold rejectInvalidIndex, mbind, M_bind, wrap, query, stmt in E1. destruct fs as [|[] fs]; cbn in E1; [|done|]; destruct (bool_decide (n ∈ md_invalid d)) eqn:Eb; try done;
      apply bool_decide_eq_false in Eb; by injection E1 as <- <-. }
  constructor; [done|by eapply IH].
Qed.

Lemma record_version_inv v d fs o d' fs' :
  record_version v d fs = (o, d', fs') →
  contents d' = contents d ∧ md_invalid d' = md_invalid d ∧ match o with Ok _ => md_versions d' = (λ vs, {[v]} ∪ vs) <$> md_versions d ∧ is_Some (md_versions d) | Err _ => d' = d end.
Proof.
  unfold record_version, wrap, stmt. destruct fs as [|[] fs]; [|by intros [= <- <- <-]|].
  all: destruct (md_versions d) as [vs|]; [|by intros [= <- <- <-]]; destruct (bool_decide _); by intros [= <- <- <-].
Qed.

(** The indexes a migration builds outside of transactions. *)
Definition built_outside (m : Migration) : list string :=
  if runsOutsideTransaction (mg_UpSQL m) then concurrentIndexNames (splitStatements (mg_UpSQL m)) else [].

(** One migration: it is done and recorded, or the startup ahead is the same as before. *)
Lemma applyMigration_spec m d fs o d' fs' :
  repeatable m → applyMigration m d fs = (o, d', fs') →
  match o with
  | Ok _ => up m (contents d) = Ok (contents d') ∧ md_versions d' = (λ vs, {[mg_Version m]} ∪ vs) <$> md_versions d ∧ md_invalid d' = md_invalid d
  | Err _ => up m (contents d') = up m (contents d) ∧ md_versions d' = md_versions d ∧ left_of (built_outside m) d d'
  end.
Proof.
  intros Hrep. unfold applyMigration, up, repeatable, built_outside in *. destruct (runsOutsideTransaction (mg_UpSQL m)).
  - intros E. assert (Hex : ∃ o1 d1 fs1, execStatementsOutsideTransaction (mg_UpSQL m) d fs = (o1, d1, fs1)) by (destruct (execStatementsOutsideTransaction _ _ _) as [[? ?] ?]; by eexists _, _, _).
    destruct Hex as (o1 & d1 & fs1 & E1).
    assert (Hst : (∃ p s, splitStatements (mg_UpSQL m) = p ++ s ∧ run_all p (contents d) = Ok (contents d1) ∧ (o1 = Ok tt → s = [])) ∧ md_versions d1 = md_versions d
      ∧ left_of (concurrentIndexNames (splitStatements (mg_UpSQL m))) d d1 ∧ (is_ok o1 = true → md_invalid d1 = md_invalid d)).
    { unfold execStatementsOutsideTransaction, mbind, M_bind in E1.
      destruct ((match dialect with PostgreSQL => _ | SQLite => _ end : M mdb unit) d fs) as [[o2 d2] fs2] eqn:E2.
      assert (d2 = d) as -> by (destruct dialect; [by injection E2|by eapply reject_inv]).
      destruct o2; [by apply exec_all_inv in E1|]. injection E1 as <- <- <-. split_and!; [by exists [], (splitStatements (mg_UpSQL m))|done|by left|done]. }
    destruct Hst as ((p & s & Hsp & Hp & Hdone) & Hv1 & Hl & Hi1). unfold mbind, M_bind in E. rewrite E1 in E. destruct o1 as [[]|e].
    + rewrite (Hdone eq_refl), app_nil_r in Hsp. apply record_version_inv in E as (Hc & Hi & E). rewrite Hc. rewrite <- Hsp in Hp. specialize (Hi1 eq_refl). destruct o.
      * rewrite <- Hv1. split_and!; [done|apply E|congruence].
      * subst. split_and!; [|done|by left]. eapply (Hrep eq_refl _ []); [by rewrite app_nil_r|done].
    + injection E as <- <- <-. split_and!; [|done|done]. by eapply (Hrep eq_refl).
  - intros E. destruct o; [|apply transaction_err in E as ->; split_and!; [done|done|by left]]. apply transaction_ok in E as [fs1 E].
    apply bind_ok_inv in E as ([] & d1 & fs2 & E1 & E2). unfold wrap in E1. destruct (exec_sql _ d _) as [[o1 d1'] fs1'] eqn:Ee.
    destruct o1 as [[]|]; [|done]. injection E1 as <- <-. apply exec_sql_inv in Ee as (Ee & Hv & Hi). apply record_version_inv in E2 as (Hc & Hi2 & Hv2 & _).
    rewrite Hc, Hv2, Hv, Hi2, Hi. done.
Qed.

(** ** Creation times *)

Definition settled (r : row) : Prop := filled_row r = r.

Lemma filled_again r c : row_record_created_at r = None → created_at_is_text (row_json r) = true → NormalizeRecordCreatedAt (row_json r) = Some c →
  filled_row (set_created_at (Some c) r) = filled_row r.
Proof. intros Hn Ht Hc. unfold filled_row. rewrite Hn, Ht, Hc. done. Qed.

Lemma settled_filled r : settled (filled_row r).
Proof.
  unfold settled, filled_row. destruct (row_record_created_at r) eqn:E; [by rewrite E|]. destruct (created_at_is_text _) eqn:Et; [|by rewrite E, Et].
  destruct (NormalizeRecordCreatedAt _) eqn:Ec; [done|by rewrite E, Et, Ec].
Qed.

Lemma not_lacking_settled r : ¬ (row_record_created_at r = None ∧ created_at_is_text (row_json r) = true) → settled r.
Proof. intros Hr. unfold settled, filled_row. destruct (row_record_created_at r); [done|]. destruct (created_at_is_text _); [by destruct Hr|done]. Qed.

Lemma fill_settled d : (∀ u r, db_records d !! u = Some r → settled r) → fill d = d.
Proof.
  intros Hall. unfold fill, set_records. assert (Heq : filled_row <$> db_records d = db_records d); [|rewrite Heq; by destruct d].
  apply map_eq. intros u. rewrite lookup_fmap. destruct (db_records d !! u) as [r|] eqn:E; [|done]. cbn. f_equal. by eapply Hall.
Qed.

(** What filling in does: the rows are as before, or as they are filled. *)
Definition filling (d d' : mdb) : Prop :=
  md_schema d' = md_schema d ∧ (md_versions d' = md_versions d ∧ md_invalid d' = md_invalid d) ∧ fill (md_db d') = fill (md_db d) ∧
  ∀ u, match db_records (md_db d) !! u, db_records (md_db d') !! u with
       | Some r, Some r' => r' = r ∨ r' = filled_row r
       | None, None => True
       | _, _ => False
       end.

#[export] Instance filling_preorder : PreOrder filling.
Proof.
  split.
  - intros d. split_and!; try done. intros u. destruct (_ !! u); [by left|done].
  - intros d1 d2 d3 (A1 & [A2 A5] & A3 & A4) (B1 & [B2 B5] & B3 & B4). split_and!; [congruence..|]. intros u. specialize (A4 u). specialize (B4 u).
    destruct (db_records (md_db d1) !! u) as [r1|], (db_records (md_db d2) !! u) as [r2|], (db_records (md_db d3) !! u) as [r3|]; try done.
    destruct A4 as [-> | ->]; [done|]. destruct B4 as [-> | ->]; right; [done|apply settled_filled].
Qed.

(** The row is the one that was read, up to filling. *)
Definition still_there (e : string * string) (d : mdb) : Prop :=
  ∃ r, db_records (md_db d) !! e.1 = Some r ∧ row_json r = e.2 ∧ created_at_is_text e.2 = true.

Lemma still_there_filling e d d' : filling d d' → still_there e d → still_there e d'.
Proof.
  intros (_ & _ & _ & Hf) (r & Hr & Hj & Ht). specialize (Hf e.1). rewrite Hr in Hf. destruct (db_records (md_db d') !! e.1) as [r'|] eqn:E; [|done].
  exists r'. split; [done|]. split; [|done]. destruct Hf as [-> | ->]; [done|]. unfold filled_row. by repeat case_match.
Qed.

Lemma row_filling uri c d r :
  db_records (md_db d) !! uri = Some r → row_record_created_at r = None → created_at_is_text (row_json r) = true →
  NormalizeRecordCreatedAt (row_json r) = Some c →
  let d' := mkMdb _ (md_schema d) (set_records <[uri := set_created_at (Some c) r]> (md_db d)) (md_versions d) (md_invalid d) in
  filling d d' ∧ ∃ r', db_records (md_db d') !! uri = Some r' ∧ settled r'.
Proof.
  intros Hr Hn Ht Hc d'. assert (Hfl : filled_row r = set_created_at (Some c) r) by (unfold filled_row; by rewrite Hn, Ht, Hc).
  split; [|exists (set_created_at (Some c) r); split; [unfold d'; cbn; by rewrite lookup_insert_eq|by rewrite <- Hfl; apply settled_filled]].
  split_and!; [done|done|done|..].
  - unfold fill, set_records. cbn. f_equal. apply map_eq. intros u. rewrite !lookup_fmap. destruct (decide (u = uri)) as [->|Hne].
    + rewrite lookup_insert_eq, Hr. change (Some (filled_row (set_created_at (Some c) r)) = Some (filled_row r)). f_equal. by apply filled_again.
    + by rewrite lookup_insert_ne.
  - intros u. cbn. destruct (decide (u = uri)) as [->|Hne]; [rewrite Hr, lookup_insert_eq; by right|].
    rewrite lookup_insert_ne by done. destruct (_ !! u); [by left|done].
Qed.

Lemma update_filling uri createdAt d fs o d' fs' :
  still_there (uri, createdAt.1) d → NormalizeRecordCreatedAt createdAt.1 = Some createdAt.2 →
  updateRecordCreatedAt uri createdAt.2 d fs = (o, d', fs') →
  filling d d' ∧ (o = Ok tt → ∃ r, db_records (md_db d') !! uri = Some r ∧ settled r).
Proof.
  destruct createdAt as [j c]. cbn. intros (r & Hr & Hj & Ht) Hc. cbn in *. subst j. unfold updateRecordCreatedAt, wrap, exec, stmt.
  assert (Hspec := update_rows_one uri (λ r, bool_decide (row_record_created_at r = None)) (λ r, set_created_at (Some c) r) (md_db d)). rewrite Hr in Hspec.
  destruct fs as [|[] fs]; [|by intros [= <- <- <-]|]; cbn [wrap_err].
  all: rewrite Hspec; intros [= <- <- <-]; case_bool_decide as Hn; cbn [fst snd].
  1, 3: split; [|intros _]; by apply row_filling.
  all: split; [by destruct d|]; intros _; exists r; split; [by destruct d|]; apply not_lacking_settled; naive_solver.
Qed.

Lemma fill_row_spec e d fs o d' fs' :
  still_there e d → fill_row e d fs = (o, d', fs') → filling d d' ∧ (o = Ok tt → ∃ r, db_records (md_db d') !! e.1 = Some r ∧ settled r).
Proof.
  intros He. unfold fill_row. destruct (NormalizeRecordCreatedAt e.2) as [c|] eqn:Ec.
  - destruct e as [u j]. cbn in *. by apply (update_filling u (j, c)).
  - intros [= <- <- <-]. split; [done|]. intros _. destruct He as (r & Hr & Hj & Ht). exists r. split; [done|]. unfold settled, filled_row.
    destruct (row_record_created_at r); [done|]. by rewrite Hj, Ht, Ec.
Qed.

Lemma settled_filling d d' u r : filling d d' → db_records (md_db d) !! u = Some r → settled r → db_records (md_db d') !! u = Some r.
Proof.
  intros (_ & _ & _ & Hf) Hr Hs. specialize (Hf u). rewrite Hr in Hf. destruct (_ !! u) as [r'|]; [|done]. by destruct Hf as [-> | ->]; [|rewrite Hs].
Qed.

Lemma fill_rows_spec rows d fs o d' fs' :
  Forall (λ e, still_there e d) rows → for_each fill_row rows d fs = (o, d', fs') →
  filling d d' ∧ (o = Ok tt → Forall (λ e, ∃ r, db_records (md_db d') !! e.1 = Some r ∧ settled r) rows).
Proof.
  revert d fs. induction rows as [|e rows IH]; intros d fs Hall; cbn [for_each]; [by intros [= <- <- <-]|].
  apply Forall_cons in Hall as [He Hall]. unfold mbind, M_bind. destruct (fill_row e d fs) as [[o1 d1] fs1] eqn:E. apply fill_row_spec in E as [Hf Hs]; [|done].
  destruct o1 as [[]|x]; [|by intros [= <- <- <-]]. intros E. apply IH in E as [Hf' Hs'].
  - split; [by etrans|]. intros Ho. constructor; [|by apply Hs']. destruct (Hs eq_refl) as (r & Hr & Hset). exists r. split; [by eapply settled_filling|done].
  - eapply Forall_impl; [exact Hall|]. intros e' He'. by eapply still_there_filling.
Qed.

(** *** Batches *)

Definition settled_upto (lastURI : string) (d : mdb) : Prop :=
  ∀ u r, db_records (md_db d) !! u = Some r → lastURI ≠ "" → ¬ text_lt lastURI u → settled r.
Definition all_settled (d : mdb) : Prop := ∀ u r, db_records (md_db d) !! u = Some r → settled r.

Lemma take_behind {A} (key : A → string) n l x y :
  increasing key text_lt l → last (take n l) = Some x → y ∈ l → ¬ text_lt (key x) (key y) → y ∈ take n l.
Proof.
  intros Hs Hl Hy Hlt. rewrite <- (take_drop n l) in Hy. apply elem_of_app in Hy as [?|Hy]; [done|]. exfalso. apply Hlt.
  rewrite <- (filter_after_last key text_lt l (take n l) (drop n l) x Hs) in Hy; [|by rewrite take_drop|done].
  by apply list_elem_of_filter in Hy as [? _].
Qed.

Definition lacking (lastURI : string) (d : mdb) : list (string * row) := filter (lacks_created_at lastURI) (by_key (db_records (md_db d))).
Definition batch (lastURI : string) (d : mdb) : list (string * string) :=
  (λ e : string * row, (e.1, row_json e.2)) <$> take recordCreatedAtBackfillBatchSize (lacking lastURI d).

Lemma elem_of_lacking lastURI d u r : (u, r) ∈ lacking lastURI d ↔ lacks_created_at lastURI (u, r) ∧ db_records (md_db d) !! u = Some r.
Proof. unfold lacking. by rewrite list_elem_of_filter, elem_of_by_key. Qed.

Lemma batch_there lastURI d : Forall (λ e, still_there e d) (batch lastURI d).
Proof.
  apply Forall_forall. intros e (x & -> & Hx)%list_elem_of_fmap. destruct x as [u r]. apply elem_of_take in Hx as (i & Hx & _). apply list_elem_of_lookup_2 in Hx.
  apply elem_of_lacking in Hx as [(_ & Ht & _) Hr]. by exists r.
Qed.

Lemma settled_now lastURI d u r : settled_upto lastURI d → db_records (md_db d) !! u = Some r → (u, r) ∉ lacking lastURI d → settled r.
Proof.
  intros Hup Hr Hl. destruct (decide (row_record_created_at r = None ∧ created_at_is_text (row_json r) = true)) as [[Hn Ht]|]; [|by apply not_lacking_settled].
  destruct (decide (lastURI = "" ∨ text_lt lastURI u)) as [Ha|Ha].
  - exfalso. apply Hl, elem_of_lacking. split; [split_and!; done|done].
  - eapply Hup; [done|intros He; apply Ha; by left|intros Hlt; apply Ha; by right].
Qed.

Lemma batch_done lastURI d : settled_upto lastURI d → last (batch lastURI d) = None → all_settled d.
Proof.
  intros Hup Hl u r Hr. apply last_None in Hl. unfold batch in Hl. apply fmap_nil_inv in Hl. eapply settled_now; [done|done|].
  destruct (lacking lastURI d); [apply not_elem_of_nil|done].
Qed.

Lemma batch_next lastURI d d1 e :
  settled_upto lastURI d → filling d d1 → last (batch lastURI d) = Some e →
  Forall (λ e, ∃ r, db_records (md_db d1) !! e.1 = Some r ∧ settled r) (batch lastURI d) → settled_upto e.1 d1.
Proof.
  intros Hup Hf Hl Hall u r1 Hr1 _ Hlt. assert (Hf' := Hf). destruct Hf' as (_ & _ & _ & Hrows). specialize (Hrows u). rewrite Hr1 in Hrows.
  destruct (db_records (md_db d) !! u) as [r|] eqn:Hr; [|done].
  destruct (decide ((u, r) ∈ lacking lastURI d)) as [Hin|Hout].
  - unfold batch in Hl. rewrite fmap_last in Hl. destruct (last (take _ _)) as [[u0 r0]|] eqn:El; [|done]. cbn in Hl. injection Hl as <-. cbn in Hlt.
    assert (Hin' : (u, r) ∈ take recordCreatedAtBackfillBatchSize (lacking lastURI d)).
    { eapply (take_behind fst); [|exact El|done|done]. apply (increasing_filter fst text_lt), by_key_increasing. }
    rewrite Forall_forall in Hall. destruct (Hall (u, row_json r)) as (r' & Hr' & Hs).
    { apply list_elem_of_fmap. by exists (u, r). }
    cbn in Hr'. congruence.
  - assert (Hs : settled r) by by eapply settled_now. destruct Hrows as [-> | ->]; [done|by rewrite Hs].
Qed.

Lemma fill_batches_spec fuel lastURI d fs o d' fs' :
  settled_upto lastURI d → fill_batches fuel lastURI d fs = (o, d', fs') → filling d d' ∧ (o = Ok tt → all_settled d').
Proof.
  revert lastURI d fs. induction fuel as [|fuel IH]; intros lastURI d fs Hup; cbn [fill_batches]; [by intros [= <- <- <-]|].
  assert (Hq : ∀ fs, queryRecordCreatedAtBackfillBatch lastURI d fs = (Ok (batch lastURI d), d, tl fs) ∨ ∃ e, queryRecordCreatedAtBackfillBatch lastURI d fs = (Err e, d, tl fs)).
  { intros [|[] fs0]; [by left|by right; eexists|by left]. }
  destruct (Hq fs) as [E|[e E]]; [|rewrite (bind_err _ _ _ _ _ _ _ E); by intros [= <- <- <-]]. rewrite (bind_ok _ _ _ _ _ _ _ E).
  destruct (last (batch lastURI d)) as [e|] eqn:El; [|intros [= <- <- <-]; split; [done|intros _; by eapply batch_done]].
  unfold mbind, M_bind. destruct (for_each fill_row (batch lastURI d) d (tl fs)) as [[o1 d1] fs1] eqn:E1.
  apply fill_rows_spec in E1 as [Hf Hs]; [|apply batch_there]. destruct o1 as [[]|x]; [|by intros [= <- <- <-]].
  intros E2. apply IH in E2 as [Hf' Hs']; [split; [by etrans|done]|]. eapply batch_next; [exact Hup|exact Hf|exact El|by apply Hs].
Qed.

Lemma backfill_spec d fs o d' fs' :
  backfillRecordCreatedAt d fs = (o, d', fs') →
  filling d d' ∧ (has_created_at (md_schema d) = false → d' = d) ∧ (o = Ok tt → has_created_at (md_schema d) = true → all_settled d').
Proof.
  unfold backfillRecordCreatedAt, recordCreatedAtColumnExists. unfold mbind at 1, M_bind at 1, wrap, query, stmt.
  destruct fs as [|[] fs]; [|by intros [= <- <- <-]|]; cbn [wrap_err]; destruct (has_created_at (md_schema d)) eqn:Eh; try (by intros [= <- <- <-]).
  all: unfold mbind at 1, M_bind at 1, get; intros E; apply fill_batches_spec in E as [Hf Hs]; [split_and!; [done|done|intros Ho _; by apply Hs]|by intros u r _ Hne].
Qed.

(** ** One startup *)

Lemma uninterrupted_midway vs0 before todo d :
  midway vs0 before todo d → uninterrupted d = (x ← upgrade todo (applied_in d) (contents d); Ok (finish x)).
Proof. intros Hm. unfold uninterrupted. by rewrite (midway_upgrade _ _ _ _ Hm). Qed.

(** The first migration that is left to do builds the index [n], which is there and not valid. *)
Definition stuck (n : string) (d : mdb) : Prop :=
  ∃ before m todo, ms = before ++ m :: todo ∧ dialect = PostgreSQL ∧ n ∈ built_outside m ∧ md_invalid d = {[n]} ∧
    (∀ m', m' ∈ before → mg_Version m' ∈ applied_in d) ∧ mg_Version m ∉ applied_in d.

(** No index is invalid, or the startup has failed and left one. *)
Definition clear_or_stuck {A} (o : outcome A) (d : mdb) : Prop := md_invalid d = ∅ ∨ is_ok o = false ∧ ∃ n, stuck n d.

Lemma left_stuck vs0 before m todo d d' e :
  midway vs0 before (m :: todo) d' → mg_Version m ∉ vs0 → left_of (built_outside m) d d' → md_invalid d = ∅ → clear_or_stuck (Err (A := unit) e) d'.
Proof.
  intros Hm Hv0 [Hl|(Hd & n & Hn & Hl)] Hi; [left; congruence|right]. split; [done|]. exists n, before, m, todo.
  destruct (midway_pending _ _ _ _ _ Hm) as [Hin _]. destruct Hm as [Hms Hv]. split_and!; [done|done|done|rewrite Hl, Hi; set_solver| |by rewrite Hin].
  intros m' Hm'. unfold applied_in. rewrite Hv. cbn. apply elem_of_union_r, elem_of_list_to_set. by apply list_elem_of_fmap_2.
Qed.

Lemma pending_step vs0 before m todo d fs o d' fs' :
  repeatable m → midway vs0 before (m :: todo) d → apply_pending vs0 m d fs = (o, d', fs') →
  (uninterrupted d' = uninterrupted d ∧ if is_ok o then midway vs0 (before ++ [m]) todo d' else midway vs0 before (m :: todo) d') ∧
  (md_invalid d = ∅ → clear_or_stuck o d').
Proof.
  intros Hrep Hm. destruct (midway_pending _ _ _ _ _ Hm) as [Hin Hnew]. assert (Hm' := Hm). destruct Hm' as [Hms Hvs]. unfold apply_pending.
  rewrite cons_middle, app_assoc in Hms. case_bool_decide as Hv0.
  - intros [= <- <- <-]. split; [|by left]. split; [done|]. cbn. split; [done|]. rewrite Hvs, fmap_app, list_to_set_app_L. cbn. f_equal. set_solver.
  - unfold wrap. destruct (applyMigration m d fs) as [[o1 d1] fs1] eqn:E. apply applyMigration_spec in E; [|done]. intros [= <- <- <-].
    assert (Hna : bool_decide (mg_Version m ∈ applied_in d) = false) by (apply bool_decide_eq_false; by rewrite Hin).
    assert (Hd := uninterrupted_midway _ _ _ _ Hm). cbn [upgrade] in Hd. rewrite Hna in Hd. destruct o1 as [[]|x]; cbn [wrap_err is_ok].
    + destruct E as (Hup & Hv1 & Hi1). rewrite Hup in Hd. split; [|intros Hi; left; congruence]. assert (Hm1 : midway vs0 (before ++ [m]) todo d1).
      { split; [done|]. rewrite Hv1, Hvs, fmap_app, list_to_set_app_L. cbn. f_equal. set_solver. }
      split; [|done]. rewrite (uninterrupted_midway _ _ _ _ Hm1), Hd. unfold mbind, outcome_bind. 
      assert (Ha : applied_in d1 = {[mg_Version m]} ∪ applied_in d) by (unfold applied_in; rewrite Hv1, Hvs; done). by rewrite Ha, upgrade_more.
    + destruct E as (Hup & Hv1 & Hl). assert (Hm1 : midway vs0 before (m :: todo) d1) by (split; [by rewrite <- app_assoc in Hms|by rewrite Hv1]).
      split; [|intros Hi; by eapply left_stuck]. split; [|done]. rewrite (uninterrupted_midway _ _ _ _ Hm1), Hd. cbn [upgrade].
      assert (Ha : applied_in d1 = applied_in d) by (unfold applied_in; by rewrite Hv1). by rewrite Ha, Hna, Hup.
Qed.

Lemma pending_steps vs0 before todo d fs o d' fs' :
  Forall repeatable todo → midway vs0 before todo d → for_each (apply_pending vs0) todo d fs = (o, d', fs') →
  uninterrupted d' = uninterrupted d ∧ (∃ before' todo', midway vs0 before' todo' d' ∧ (is_ok o = true → todo' = [])) ∧
  (md_invalid d = ∅ → clear_or_stuck o d').
Proof.
  revert before d fs. induction todo as [|m todo IH]; intros before d fs Hrep Hm; cbn [for_each].
  { intros [= <- <- <-]; split_and!; [done|by exists before, []|by left]. }
  apply Forall_cons in Hrep as [Hr Hrep]. unfold mbind, M_bind. destruct (apply_pending vs0 m d fs) as [[o1 d1] fs1] eqn:E.
  apply (pending_step vs0 before m todo) in E as [[Hu Hm1] Hi1]; [|done|done]. destruct o1 as [[]|x]; cbn in Hm1.
  - intros E. apply (IH (before ++ [m])) in E as (Hu' & Hr' & Hi'); [|done|done]. split_and!; [congruence|done|].
    intros Hi. destruct (Hi1 Hi) as [?|[? _]]; [by apply Hi'|done].
  - intros [= <- <- <-]. split_and!; [done|by exists before, (m :: todo)|]. done.
Qed.

Lemma midway_start vs d : md_versions d = Some vs → midway vs [] ms d.
Proof. intros Hv. split; [done|]. rewrite Hv. cbn. f_equal. set_solver. Qed.

Lemma uninterrupted_filling d d' before vs0 :
  midway vs0 before [] d → filling d d' → (has_created_at (md_schema d) = false → d' = d) →
  midway vs0 before [] d' ∧ uninterrupted d' = uninterrupted d.
Proof.
  intros Hm (Hs & [Hv _] & Hf & _) Hsame. assert (Hm' : midway vs0 before [] d') by (destruct Hm as [Hms Hvs]; split; [done|by rewrite Hv]). split; [done|].
  rewrite (uninterrupted_midway _ _ _ _ Hm), (uninterrupted_midway _ _ _ _ Hm'). cbn. unfold finish, contents. cbn. rewrite Hs.
  destruct (has_created_at (md_schema d)); [by rewrite Hf|by rewrite Hsame].
Qed.

Definition versions_of : gset string := list_to_set (mg_Version <$> ms).

(** A startup keeps what is ahead; it succeeds when nothing is. *)
Lemma Run_spec d fs o d' fs' :
  Forall repeatable ms → Run entries d fs = (o, d', fs') →
  uninterrupted d' = uninterrupted d ∧ (∃ vs, vs ⊆ versions_of ∧ applied_in d' = applied_in d ∪ vs) ∧
  (is_ok o = true → uninterrupted d = Ok (contents d') ∧ md_versions d' = Some (applied_in d ∪ versions_of)) ∧
  (md_invalid d = ∅ → clear_or_stuck o d').
Proof.
  intros Hrep. assert (Hsame : ∀ d0, contents d0 = contents d → applied_in d0 = applied_in d → uninterrupted d0 = uninterrupted d).
  { intros d0 Hc Ha. unfold uninterrupted. by rewrite Hc, Ha. }
  unfold Run. unfold mbind at 1, M_bind at 1, wrap at 1. set (d1 := set_versions (Some (applied_in d)) d).
  assert (Hcr : ∀ fs, createMigrationsTable d fs = (Ok tt, d1, tl fs) ∨ ∃ e, createMigrationsTable d fs = (Err e, d, tl fs)).
  { intros [|[] fs0]; [by left|by right; eexists|by left]. }
  assert (Hnone : ∀ d0, contents d0 = contents d → applied_in d0 = applied_in d → uninterrupted d0 = uninterrupted d ∧ (∃ vs, vs ⊆ versions_of ∧ applied_in d0 = applied_in d ∪ vs)).
  { intros d0 Hc Ha. split; [by apply Hsame|]. exists ∅. split; [set_solver|]. rewrite Ha. set_solver. }
  destruct (Hcr fs) as [-> |[e ->]]; cbn [wrap_err]; [|intros [= <- <- <-]; destruct (Hnone d eq_refl eq_refl); split_and!; [done|done|done|by intros ?; left]].
  unfold mbind at 1, M_bind at 1, wrap at 1.
  assert (Hget : ∀ fs, getAppliedMigrations d1 fs = (Ok (applied_in d), d1, tl fs) ∨ ∃ e, getAppliedMigrations d1 fs = (Err e, d1, tl fs)).
  { intros [|[] fs0]; [by left|by right; eexists|by left]. }
  destruct (Hget (tl fs)) as [-> |[e ->]]; cbn [wrap_err]; [|intros [= <- <- <-]; destruct (Hnone d1 eq_refl eq_refl); split_and!; [done|done|done|by intros ?; left]].
  assert (Hm := midway_start (applied_in d) d1 eq_refl). assert (Hu1 : uninterrupted d1 = uninterrupted d) by by apply Hsame.
  unfold mbind at 1, M_bind at 1. destruct (for_each (apply_pending (applied_in d)) ms d1 (tl (tl fs))) as [[o2 d2] fs2] eqn:E.
  apply (pending_steps (applied_in d) []) in E as (Hu2 & (before & todo & Hm2 & Ho) & Hi2); [|done|done].
  assert (Hsub : ∀ d3, midway (applied_in d) before todo d3 → ∃ vs, vs ⊆ versions_of ∧ applied_in d3 = applied_in d ∪ vs).
  { intros d3 [Hms Hv3]. exists (list_to_set (mg_Version <$> before)). split; [|unfold applied_in at 1; by rewrite Hv3]. unfold versions_of. rewrite Hms, fmap_app. set_solver. }
  destruct o2 as [[]|e]; [|intros [= <- <- <-]; split_and!; [congruence|by apply Hsub|done|exact Hi2]].
  rewrite (Ho eq_refl) in Hm2, Hsub. unfold wrap. destruct (backfillRecordCreatedAt d2 fs2) as [[o3 d3] fs3] eqn:E3. apply backfill_spec in E3 as (Hf & Hno & Hset).
  destruct (uninterrupted_filling _ _ _ _ Hm2 Hf Hno) as [Hm3 Hu3]. intros [= <- <- <-]. split; [congruence|]. split; [by apply Hsub|].
  split; [|intros Hi; left; destruct (Hi2 Hi) as [?|[? _]]; [destruct Hf as (_ & [_ ?] & _); congruence|done]]. intros Ho3. assert (Ho3' : o3 = Ok tt) by (by destruct o3 as [[]|]). rewrite <- Hu1, <- Hu2, <- Hu3.
  split; [|destruct Hm3 as [Hms Hv3]; rewrite Hv3; f_equal; f_equal; unfold versions_of; by rewrite Hms, app_nil_r].
  rewrite (uninterrupted_midway _ _ _ _ Hm3). cbn. f_equal. unfold finish, contents. cbn. destruct Hf as (Hs & _). rewrite Hs.
  destruct (has_created_at (md_schema d2)) eqn:Eh; [|done]. by rewrite fill_settled by by apply Hset.
Qed.

(** ** A startup no statement of which fails *)

Definition keys_after (lastURI : string) (d : mdb) : gset string :=
  filter (λ u, lastURI = "" ∨ text_lt lastURI u) (dom (db_records (md_db d))).

Lemma filling_dom d d' : filling d d' → dom (db_records (md_db d')) = dom (db_records (md_db d)).
Proof.
  intros (_ & _ & _ & Hf). apply set_eq. intros u. rewrite !elem_of_dom. specialize (Hf u).
  destruct (db_records (md_db d) !! u), (db_records (md_db d') !! u); try done; by split; intros [? ?].
Qed.

Lemma fill_rows_run rows d : ∃ d', for_each fill_row rows d [] = (Ok tt, d', []).
Proof.
  revert d. induction rows as [|e rows IH]; intros d; cbn [for_each]; [by exists d|].
  assert (He : ∃ d1, fill_row e d [] = (Ok tt, d1, [])) by (unfold fill_row; destruct (NormalizeRecordCreatedAt e.2); by eexists).
  destruct He as [d1 He]. rewrite (bind_ok _ _ _ _ _ _ _ He). apply IH.
Qed.

Lemma fill_batches_run fuel lastURI d :
  db_records (md_db d) !! "" = None → size (keys_after lastURI d) < fuel → ∃ d', fill_batches fuel lastURI d [] = (Ok tt, d', []).
Proof.
  revert lastURI d. induction fuel as [|fuel IH]; intros lastURI d Hempty Hsize; [lia|]. cbn [fill_batches].
  assert (Hq : queryRecordCreatedAtBackfillBatch lastURI d [] = (Ok (batch lastURI d), d, [])) by done.
  rewrite (bind_ok _ _ _ _ _ _ _ Hq). destruct (last (batch lastURI d)) as [e|] eqn:El; [|by eexists].
  destruct (fill_rows_run (batch lastURI d) d) as [d1 Hr]. rewrite (bind_ok _ _ _ _ _ _ _ Hr).
  destruct (fill_rows_spec _ _ _ _ _ _ (batch_there lastURI d) Hr) as [Hf _]. assert (Hdom := filling_dom _ _ Hf).
  assert (He : ∃ r, db_records (md_db d) !! e.1 = Some r ∧ (lastURI = "" ∨ text_lt lastURI e.1)).
  { apply last_Some_elem_of in El. unfold batch in El. apply list_elem_of_fmap in El as ([u r] & -> & Hin).
    apply elem_of_take in Hin as (i & Hi & _). apply list_elem_of_lookup_2, elem_of_lacking in Hi as [(_ & _ & Ha) Hr']. by exists r. }
  destruct He as (r & Hrow & Hafter). assert (Hne : e.1 ≠ "") by (intros Heq; by rewrite Heq, Hempty in Hrow). apply IH.
  { apply not_elem_of_dom. rewrite Hdom. by apply not_elem_of_dom. }
  assert (Hsub : keys_after e.1 d1 ⊂ keys_after lastURI d); [|apply subset_size in Hsub; lia]. unfold keys_after. rewrite Hdom. split.
  - intros u [[?|Hlt] Hu]%elem_of_filter; [done|]. apply elem_of_filter. split; [|done]. destruct Hafter as [?|Hlt']; [by left|right]. by etrans.
  - intros Hall. assert (Hin : e.1 ∈ filter (λ u, e.1 = "" ∨ text_lt e.1 u) (dom (db_records (md_db d)))).
    { apply Hall, elem_of_filter. split; [done|]. by apply elem_of_dom_2 in Hrow. }
    apply elem_of_filter in Hin as [[?|Hlt] _]; [done|]. by apply text_lt_irrefl in Hlt.
Qed.

Lemma reject_run names (d : mdb) : md_invalid d = ∅ → (match dialect with PostgreSQL => for_each rejectInvalidIndex names | SQLite => mret tt end) d [] = (Ok tt, d, []).
Proof.
  intros Hv. destruct dialect; [done|]. induction names as [|n names IH]; [done|]. cbn [for_each]. rewrite (bind_ok _ _ _ _ tt d []); [done|].
  unfold rejectInvalidIndex, mbind, M_bind, wrap, query, stmt. cbn. rewrite bool_decide_eq_false_2; [done|]. rewrite Hv. set_solver.
Qed.

Lemma exec_run sql d y : sql_run sql (contents d) = Ok y → exec_sql sql d [] = (Ok tt, mkMdb _ y.1 y.2 (md_versions d) (md_invalid d), []).
Proof. intros E. unfold exec_sql, stmt. unfold contents in E. rewrite E. done. Qed.

Lemma exec_all_run sqls d y :
  run_all sqls (contents d) = Ok y → for_each (λ s, wrap "execute migration statement" (exec_outside s)) sqls d [] = (Ok tt, mkMdb _ y.1 y.2 (md_versions d) (md_invalid d), []).
Proof.
  revert d. induction sqls as [|sql sqls IH]; intros d; cbn [run_all for_each]; [by intros [= <-]; destruct d|].
  unfold mbind at 1, outcome_bind. destruct (sql_run sql (contents d)) as [z|] eqn:E; [|done]. intros Hrun.
  unfold mbind, M_bind, wrap at 1. unfold exec_outside at 1. rewrite (exec_run _ _ _ E). cbn [wrap_err]. specialize (IH (mkMdb _ z.1 z.2 (md_versions d) (md_invalid d))). rewrite IH; [done|].
  unfold contents. cbn. by destruct z.
Qed.

Lemma applyMigration_run m d y vs :
  md_invalid d = ∅ → up m (contents d) = Ok y → md_versions d = Some vs → mg_Version m ∉ vs → ∃ d', applyMigration m d [] = (Ok tt, d', []).
Proof.
  intros Hv Hup Hvs Hm.
  assert (Hrec : ∀ d1, md_versions d1 = Some vs → ∃ d2, record_version (mg_Version m) d1 [] = (Ok tt, d2, [])).
  { intros d1 H1'. unfold record_version, wrap, stmt. rewrite H1'. rewrite bool_decide_false by done. by eexists. }
  unfold applyMigration, up in *. destruct (runsOutsideTransaction (mg_UpSQL m)).
  - unfold execStatementsOutsideTransaction. rewrite (bind_ok _ _ _ _ tt (mkMdb _ y.1 y.2 (md_versions d) (md_invalid d)) []); [by apply Hrec|].
    rewrite (bind_ok _ _ _ _ _ _ _ (reject_run _ d Hv)). by apply exec_all_run.
  - unfold transaction. cbn [tl]. destruct (Hrec (mkMdb _ y.1 y.2 (md_versions d) (md_invalid d)) Hvs) as [d2 E2]. exists d2.
    unfold mbind, M_bind, wrap. by rewrite (exec_run _ _ _ Hup), E2.
Qed.

Lemma pending_run vs0 before todo d x :
  md_invalid d = ∅ → Forall repeatable todo → midway vs0 before todo d → upgrade todo (applied_in d) (contents d) = Ok x →
  ∃ d', for_each (apply_pending vs0) todo d [] = (Ok tt, d', []).
Proof.
  revert before d x. induction todo as [|m todo IH]; intros before d x Hv Hrep Hm Hup; cbn [for_each]; [by exists d|].
  apply Forall_cons in Hrep as [Hr Hrep]. destruct (midway_pending _ _ _ _ _ Hm) as [Hin Hnew]. cbn [upgrade] in Hup.
  assert (Hstep : ∃ d1, apply_pending vs0 m d [] = (Ok tt, d1, [])).
  { unfold apply_pending. destruct (decide (mg_Version m ∈ vs0)) as [Hm0|Hm0]; [rewrite (bool_decide_eq_true_2 _ Hm0); by exists d|].
    rewrite (bool_decide_eq_false_2 _ Hm0). assert (Hna : bool_decide (mg_Version m ∈ applied_in d) = false) by (apply bool_decide_eq_false; by rewrite Hin). rewrite Hna in Hup.
    unfold mbind, outcome_bind in Hup. destruct (up m (contents d)) as [y|] eqn:Ey; [|done].
    assert (Hvs : md_versions d = Some (applied_in d)) by (unfold applied_in; destruct Hm as [_ ->]; done).
    destruct (applyMigration_run m d y (applied_in d)) as [d1 E]; [done|done|done|by rewrite Hin|]. exists d1. unfold wrap. by rewrite E. }
  destruct Hstep as [d1 E]. rewrite (bind_ok _ _ _ _ _ _ _ E). assert (Hu := uninterrupted_midway _ _ _ _ Hm).
  destruct (pending_step _ _ _ _ _ _ _ _ _ Hr Hm E) as [[Hu1 Hm1] Hi1]. cbn [is_ok] in Hm1. destruct (Hi1 Hv) as [Hv1|[? _]]; [|done]. rewrite (uninterrupted_midway _ _ _ _ Hm1), Hu in Hu1. cbn [upgrade] in Hu1.
  rewrite Hup in Hu1. unfold mbind, outcome_bind in Hu1. destruct (upgrade todo (applied_in d1) (contents d1)) as [x1|] eqn:E1; [|done].
  by eapply (IH (before ++ [m])).
Qed.

Lemma finish_dom x : dom (db_records (finish x).2) = dom (db_records x.2).
Proof. unfold finish. destruct (has_created_at x.1); [|done]. cbn. apply dom_fmap_L. Qed.

Lemma Run_runs d x :
  Forall repeatable ms → uninterrupted d = Ok x → db_records x.2 !! "" = None → md_invalid d = ∅ → is_ok (Run entries d []).1.1 = true.
Proof.
  intros Hrep Hx Hempty Hv. unfold Run. set (d1 := set_versions (Some (applied_in d)) d).
  rewrite (bind_ok _ _ _ _ tt d1 []) by done. rewrite (bind_ok _ _ _ _ (applied_in d) d1 []) by done.
  assert (Hm := midway_start (applied_in d) d1 eq_refl). unfold uninterrupted, mbind, outcome_bind in Hx.
  destruct (upgrade ms (applied_in d) (contents d)) as [y|] eqn:Ey; [|done]. injection Hx as <-.
  destruct (pending_run (applied_in d) [] ms d1 y Hv Hrep Hm Ey) as [d2 E2]. rewrite (bind_ok _ _ _ _ _ _ _ E2).
  destruct (pending_steps _ _ _ _ _ _ _ _ Hrep Hm E2) as (Hu & (before & todo & Hm2 & Ho) & _). rewrite (Ho eq_refl) in Hm2.
  rewrite (uninterrupted_midway _ _ _ _ Hm2) in Hu. unfold uninterrupted in Hu. change (applied_in d1) with (applied_in d) in Hu.
  change (contents d1) with (contents d) in Hu. rewrite Ey in Hu. cbn in Hu. injection Hu as Hu.
  assert (He2 : db_records (md_db d2) !! "" = None).
  { apply not_elem_of_dom. change (md_db d2) with (contents d2).2. rewrite <- finish_dom, Hu. by apply not_elem_of_dom. }
  assert (Hb : ∃ d3, backfillRecordCreatedAt d2 [] = (Ok tt, d3, [])).
  { unfold backfillRecordCreatedAt, recordCreatedAtColumnExists. rewrite (bind_ok _ _ _ _ (has_created_at (md_schema d2)) d2 []) by done.
    destruct (has_created_at (md_schema d2)); [|by eexists]. rewrite (bind_ok _ _ _ _ d2 d2 []) by done. apply fill_batches_run; [done|].
    apply Nat.lt_succ_r. unfold keys_after. rewrite <- (size_dom (D := gset string) (db_records (md_db d2))).
    apply subseteq_size. intros u Hin. by apply elem_of_filter in Hin as [_ ?]. }
  destruct Hb as [d3 Hb]. unfold wrap. by rewrite Hb.
Qed.

(** ** A startup that finds a build that failed *)

Lemma skip_applied vs before rest (d : mdb) fs :
  (∀ m, m ∈ before → mg_Version m ∈ vs) → for_each (apply_pending vs) (before ++ rest) d fs = for_each (apply_pending vs) rest d fs.
Proof.
  induction before as [|m before IH]; intros Hb; [done|]. cbn [app for_each].
  assert (E : apply_pending vs m d fs = (Ok tt, d, fs)) by (unfold apply_pending; rewrite bool_decide_eq_true_2; [done|apply Hb; by left]).
  rewrite (bind_ok _ _ _ _ _ _ _ E). apply IH. intros m' Hm'. apply Hb. by right.
Qed.

(** The names are checked before any statement is run. *)
Lemma rejected_apply n m (d : mdb) fs o d' fs' :
  dialect = PostgreSQL → n ∈ built_outside m → n ∈ md_invalid d → applyMigration m d fs = (o, d', fs') → is_ok o = false ∧ d' = d.
Proof.
  unfold built_outside, applyMigration. destruct (runsOutsideTransaction (mg_UpSQL m)); [|by intros _ ?%elem_of_nil].
  intros Hpg Hn Hi. unfold execStatementsOutsideTransaction. unfold mbind at 1 2, M_bind at 1 2.
  assert (Hdial : (match dialect with PostgreSQL => for_each rejectInvalidIndex (concurrentIndexNames (splitStatements (mg_UpSQL m))) | SQLite => mret tt end)
    = for_each rejectInvalidIndex (concurrentIndexNames (splitStatements (mg_UpSQL m)))) by by rewrite Hpg.
  rewrite Hdial. destruct (for_each rejectInvalidIndex _ d fs) as [[o1 d1] fs1] eqn:E. assert (d1 = d) as -> by by eapply reject_inv.
  destruct o1 as [[]|e]; [|by intros [= <- <- <-]]. apply reject_ok in E. rewrite Forall_forall in E. by destruct (E n Hn).
Qed.

Lemma Run_stuck n d fs o d' fs' :
  stuck n d → Run entries d fs = (o, d', fs') → is_ok o = false ∧ contents d' = contents d ∧ applied_in d' = applied_in d ∧ md_invalid d' = md_invalid d.
Proof.
  intros (before & m & todo & Hms & Hpg & Hn & Hi & Hb & Hm). unfold Run. unfold mbind at 1, M_bind at 1, wrap at 1. set (d1 := set_versions (Some (applied_in d)) d).
  assert (Hcr : ∀ fs, createMigrationsTable d fs = (Ok tt, d1, tl fs) ∨ ∃ e, createMigrationsTable d fs = (Err e, d, tl fs)).
  { intros [|[] fs0]; [by left|by right; eexists|by left]. }
  destruct (Hcr fs) as [-> |[e ->]]; cbn [wrap_err]; [|by intros [= <- <- <-]].
  unfold mbind at 1, M_bind at 1, wrap at 1.
  assert (Hget : ∀ fs, getAppliedMigrations d1 fs = (Ok (applied_in d), d1, tl fs) ∨ ∃ e, getAppliedMigrations d1 fs = (Err e, d1, tl fs)).
  { intros [|[] fs0]; [by left|by right; eexists|by left]. }
  destruct (Hget (tl fs)) as [-> |[e ->]]; cbn [wrap_err]; [|by intros [= <- <- <-]].
  rewrite Hms. unfold mbind at 1, M_bind at 1. rewrite skip_applied by done. cbn [for_each]. destruct (applyMigration m d1 (tl (tl fs))) as [[o1 d2] fs2] eqn:E.
  assert (E' : apply_pending (applied_in d) m d1 (tl (tl fs)) = (wrap_err ("failed to apply migration " +:+ mg_Version m) o1, d2, fs2))
    by (unfold apply_pending, wrap; rewrite bool_decide_eq_false_2 by done; by rewrite E).
  apply (rejected_apply n) in E as [Ho ->]; [|done|done|cbn; rewrite Hi; set_solver]. destruct o1 as [|e]; [done|].
  rewrite (bind_err _ _ _ _ _ _ _ E'). by intros [= <- <- <-].
Qed.

Lemma reject_named n names (d : mdb) :
  md_invalid d = {[n]} → n ∈ names → for_each rejectInvalidIndex names d [] = (Err ("index " +:+ n +:+ " exists but is invalid"), d, []).
Proof.
  intros Hi. induction names as [|k names IH]; intros Hn; [by apply elem_of_nil in Hn|]. cbn [for_each].
  assert (Hk : rejectInvalidIndex k d [] = if bool_decide (k = n) then (Err ("index " +:+ k +:+ " exists but is invalid"), d, []) else (Ok tt, d, [])).
  { unfold rejectInvalidIndex, mbind, M_bind, wrap, query, stmt. cbn -[bool_decide].
    rewrite Hi, (bool_decide_ext (k ∈ ({[n]} : gset string)) (k = n)) by set_solver. by destruct (bool_decide _). }
  case_bool_decide as Heq; [subst k; by rewrite (bind_err _ _ _ _ _ _ _ Hk)|]. rewrite (bind_ok _ _ _ _ _ _ _ Hk). apply IH. by apply elem_of_cons in Hn as [->|?].
Qed.

(** A startup no statement of which fails says which index it is. *)
Lemma Run_names_index n d : stuck n d → ∃ version,
  (Run entries d []).1.1 = wrap_err ("failed to apply migration " +:+ version) (Err ("index " +:+ n +:+ " exists but is invalid")).
Proof.
  intros (before & m & todo & Hms & Hpg & Hn & Hi & Hb & Hm). exists (mg_Version m). unfold Run. set (d1 := set_versions (Some (applied_in d)) d).
  rewrite (bind_ok _ _ _ _ tt d1 []) by done. rewrite (bind_ok _ _ _ _ (applied_in d) d1 []) by done. rewrite Hms.
  unfold mbind at 1, M_bind at 1. rewrite skip_applied by done. cbn [for_each].
  assert (E : applyMigration m d1 [] = (Err ("index " +:+ n +:+ " exists but is invalid"), d1, [])).
  2: { assert (E' : apply_pending (applied_in d) m d1 [] = (wrap_err ("failed to apply migration " +:+ mg_Version m)
      (Err ("index " +:+ n +:+ " exists but is invalid")), d1, [])) by (unfold apply_pending, wrap; rewrite bool_decide_eq_false_2 by done; by rewrite E).
    by rewrite (bind_err _ _ _ _ _ _ _ E'). }
  revert Hn. unfold built_outside, applyMigration. destruct (runsOutsideTransaction (mg_UpSQL m)); [|by intros ?%elem_of_nil]. intros Hn.
  unfold execStatementsOutsideTransaction. unfold mbind at 1 2, M_bind at 1 2.
  assert (Hr := reject_named n (concurrentIndexNames (splitStatements (mg_UpSQL m))) d1 Hi Hn).
  assert (Hdial : (match dialect with PostgreSQL => for_each rejectInvalidIndex (concurrentIndexNames (splitStatements (mg_UpSQL m))) | SQLite => mret tt end)
    = for_each rejectInvalidIndex (concurrentIndexNames (splitStatements (mg_UpSQL m)))) by by rewrite Hpg.
  by rewrite Hdial, Hr.
Qed.

(** *** Startups after startups *)

(** A startup with statements that fail, or someone who drops an invalid index by hand. *)
Inductive event := Startup (fs : faults) | DropInvalid (name : string).

Definition happen (d : mdb) (e : event) : mdb :=
  match e with Startup fs => (Run entries d fs).1.2 | DropInvalid name => drop_invalid name d end.
Definition startups (d : mdb) (events : list event) : mdb := foldl happen d events.

Definition sound (d : mdb) : Prop := md_invalid d = ∅ ∨ ∃ n, stuck n d.

Lemma stuck_same n d d' : stuck n d → applied_in d' = applied_in d → md_invalid d' = md_invalid d → stuck n d'.
Proof. intros (before & m & todo & ? & ? & ? & ? & ? & ?) Ha Hi. exists before, m, todo. rewrite Ha, Hi. done. Qed.

Lemma happen_sound d e : Forall repeatable ms → sound d → sound (happen d e).
Proof.
  intros Hrep [Hi|[n Hs]]; destruct e as [fs|name]; cbn [happen].
  - destruct (Run entries d fs) as [[o d'] fs'] eqn:E. destruct (Run_spec _ _ _ _ _ Hrep E) as (_ & _ & _ & Hc). destruct (Hc Hi) as [?|[_ ?]]; [by left|by right].
  - left. cbn. rewrite Hi. set_solver.
  - destruct (Run entries d fs) as [[o d'] fs'] eqn:E. destruct (Run_stuck _ _ _ _ _ _ Hs E) as (_ & _ & Ha & Hi). right. exists n. by eapply stuck_same.
  - destruct (decide (name = n)) as [->|Hne].
    + left. destruct Hs as (? & ? & ? & _ & _ & _ & Hi & _). cbn. rewrite Hi. set_solver.
    + right. exists n. eapply stuck_same; [exact Hs|done|]. destruct Hs as (? & ? & ? & _ & _ & _ & Hi & _). cbn. rewrite Hi. set_solver.
Qed.

Lemma happen_spec d e :
  Forall repeatable ms → uninterrupted (happen d e) = uninterrupted d ∧ ∃ vs, vs ⊆ versions_of ∧ applied_in (happen d e) = applied_in d ∪ vs.
Proof.
  intros Hrep. destruct e as [fs|name]; cbn [happen].
  - destruct (Run entries d fs) as [[o d1] fs1] eqn:E. by destruct (Run_spec _ _ _ _ _ Hrep E) as (Hu & Hvs & _).
  - split; [done|]. exists ∅. split; [set_solver|]. change (applied_in (drop_invalid name d)) with (applied_in d). set_solver.
Qed.

Lemma startups_spec d events :
  Forall repeatable ms → sound d →
  sound (startups d events) ∧ uninterrupted (startups d events) = uninterrupted d ∧ ∃ vs, vs ⊆ versions_of ∧ applied_in (startups d events) = applied_in d ∪ vs.
Proof.
  intros Hrep. revert d. induction events as [|e events IH]; intros d Hs; cbn [startups foldl]; [split_and!; [done|done|]; exists ∅; set_solver|].
  destruct (happen_spec d e Hrep) as (Hu & vs & Hvs & Ha). destruct (IH (happen d e) (happen_sound d e Hrep Hs)) as (Hs' & Hu' & vs' & Hvs' & Ha').
  split_and!; [done|by rewrite <- Hu|]. exists (vs ∪ vs'). split; [set_solver|]. unfold startups in Ha'. rewrite Ha', Ha. set_solver.
Qed.

(** C19. Interrupted startups. Take a database without invalid indexes, and any history of startups, each broken off by whichever
    statement failed, and of invalid indexes dropped by hand; a concurrent build of an index that fails outside of a transaction may
    leave the index invalid. Then a startup that succeeds leaves exactly what a single undisturbed one would have: the same schema,
    the same records, with the time of creation of each record that shows one and had none, every migration recorded once,
    and no invalid index. If no index is invalid and an undisturbed startup can succeed, the next one does unless a statement of it fails.
    If an index is invalid, the database is PostgreSQL, every startup fails and leaves schema, records and recorded versions alone,
    one without failing statements names the index, and when that is dropped no index is invalid. What runs outside
    of transactions must, as the code asks, be safe to repeat. *)
Theorem interrupted_startups d events :
  Forall repeatable ms → md_invalid d = ∅ →
  let now := startups d events in
  (∀ fs d' fs', Run entries now fs = (Ok tt, d', fs') →
    uninterrupted d = Ok (contents d') ∧ md_versions d' = Some (applied_in d ∪ versions_of) ∧ md_invalid d' = ∅) ∧
  (∀ x, uninterrupted d = Ok x → db_records x.2 !! "" = None → md_invalid now = ∅ → is_ok (Run entries now []).1.1 = true) ∧
  (∀ n, n ∈ md_invalid now → dialect = PostgreSQL ∧
    (∀ fs o d' fs', Run entries now fs = (o, d', fs') → is_ok o = false ∧ contents d' = contents now ∧ applied_in d' = applied_in now) ∧
    (∃ version, (Run entries now []).1.1 =
      wrap_err ("failed to apply migration " +:+ version) (Err ("index " +:+ n +:+ " exists but is invalid"))) ∧
    md_invalid (startups d (events ++ [DropInvalid n])) = ∅).
Proof.
  intros Hrep Hi now. destruct (startups_spec d events Hrep (or_introl Hi)) as (Hs & Hu & vs & Hvs & Ha). fold now in Hs, Hu, Ha. split_and!.
  - intros fs d' fs' E. destruct (Run_spec _ _ _ _ _ Hrep E) as (_ & _ & Hok & Hclear). destruct (Hok eq_refl) as [Hc Hv]. rewrite Hu in Hc. split_and!; [done| |].
    + rewrite Hv, Ha. f_equal. set_solver.
    + destruct Hs as [Hs|[n Hs]]; [by destruct (Hclear Hs) as [?|[? _]]|]. by destruct (Run_stuck _ _ _ _ _ _ Hs E).
  - intros x Hx Hempty Hvalid. eapply Run_runs; [done|by rewrite Hu|done|done].
  - intros n Hn. destruct Hs as [Hs|[k Hs]]; [rewrite Hs in Hn; set_solver|].
    assert (k = n) as -> by (destruct Hs as (? & ? & ? & _ & _ & _ & Hk & _); rewrite Hk in Hn; set_solver).
    split; [by destruct Hs as (? & ? & ? & _ & ? & _)|]. split; [|split; [by apply Run_names_index|]].
    + intros fs o d' fs' E. by destruct (Run_stuck _ _ _ _ _ _ Hs E) as (? & ? & ? & _).
    + unfold startups. rewrite foldl_app. cbn. fold (startups d events) now. destruct Hs as (? & ? & ? & _ & _ & _ & Hk & _). rewrite Hk. set_solver.
Qed.
End upgrade.

(** ** Two migrations at work *)

#[local] Existing Instance byte_order.

#[local] Instance small_env : Env := {|
  dialect := PostgreSQL; jsonb := Some; sha256_hex s := s; datetime_parser := {| ParseDatetimeTime := parse_millis |} |}.

(** A schema is the set of statements that were run; running one again changes nothing. *)
#[local] Instance small_schema : SqlSchema := {|
  schema := gset string;
  sql_run sql x := Ok ({[sql]} ∪ x.1, x.2);
  has_created_at s := bool_decide ("ALTER TABLE record ADD COLUMN record_created_at TEXT" ∈ s);
  created_at_is_text j := is_ok (match NormalizeRecordCreatedAt j with Some _ => Ok tt | None => Err "" end);
|}.

Definition column_file : entry := mkEntry "001_column.up.sql" false "ALTER TABLE record ADD COLUMN record_created_at TEXT".
Definition indexes_file : entry := mkEntry "002_indexes.up.sql" false
  (noTransactionMarker +:+ byte_str newline +:+ "CREATE INDEX CONCURRENTLY IF NOT EXISTS a ON record (did); CREATE INDEX CONCURRENTLY IF NOT EXISTS b ON record (uri);").
Definition small_entries : list entry := [column_file; mkEntry "001_column.down.sql" false "DROP"; indexes_file; mkEntry "README.md" false ""].

Definition old_row (json : string) : row := mkRow "cid" "did:plc:a" "app.post" json 0 None StatusUnvalidated None None None.
Definition old_db : db := set_records (λ _, {[
  "at://did:plc:a/app.post/1" := old_row (quoted "{'createdAt':'2024-05-01T10:00:00.000Z'}"); "at://did:plc:a/app.post/2" := old_row "{}" ]}) (empty_db 7).
Definition old_server : mdb := mkMdb small_schema (∅ : gset string) old_db None ∅.

Lemma run_all_small statements x : run_all statements x = Ok (list_to_set statements ∪ x.1, x.2).
Proof.
  revert x. induction statements as [|s statements IH]; intros [sch b]; cbn; [by rewrite union_empty_l_L|]. rewrite IH. cbn. f_equal. f_equal. set_solver.
Qed.

Lemma small_repeatable m : repeatable m.
Proof.
  intros _ p s x y Hsp Hp. rewrite run_all_small in Hp. injection Hp as <-. rewrite !run_all_small, Hsp. cbn. f_equal. f_equal. set_solver.
Qed.

(** The first startup dies while it builds the second of two indexes, which stays behind invalid; the second is refused; then the index is
    dropped, the third dies while it records the migration, and the fourth is left alone. *)
Definition small_history : list event := [Startup (replicate 9 false ++ [true; true]); Startup []].
Definition dropped_history : list event := small_history ++ [DropInvalid "b"] ++ [Startup (replicate 6 false ++ [true])].

Lemma interrupted_startups_witness :
  let blocked := startups small_entries old_server small_history in
  let d := startups small_entries old_server dropped_history in
  md_invalid blocked = {["b"]} ∧
  (Run small_entries blocked []).1.1 = Err "failed to apply migration 002: index b exists but is invalid" ∧
  md_versions d = Some {["001"]} ∧ size (md_schema d : gset string) = 3 ∧
  is_ok (Run small_entries d []).1.1 = true ∧
  let d' := (Run small_entries d []).1.2 in
  uninterrupted small_entries old_server = Ok (contents d') ∧ md_versions d' = Some {["001"; "002"]} ∧
  (row_record_created_at <$> db_records (md_db d') !! "at://did:plc:a/app.post/1") = Some (Some "2024-05-01T10:00:00.000Z").
Proof.
  cbv zeta. assert (Hrep : Forall repeatable (loadMigrations small_entries)) by (apply Forall_forall; intros m _; apply small_repeatable).
  destruct (interrupted_startups small_entries old_server small_history Hrep eq_refl) as (_ & _ & Hblocked).
  destruct (interrupted_startups small_entries old_server dropped_history Hrep eq_refl) as (Hsafe & Hlive & _).
  set (d := startups small_entries old_server dropped_history) in *. set (blocked := startups small_entries old_server small_history) in *.
  assert (Hb : md_invalid blocked = {["b"]}) by (apply (bool_decide_unpack _); by vm_compute).
  assert (He : (Run small_entries blocked []).1.1 = Err "failed to apply migration 002: index b exists but is invalid") by by vm_compute.
  assert (Hok : is_ok (Run small_entries d []).1.1 = true).
  { assert (Hx : match uninterrupted small_entries old_server with Ok x => bool_decide (db_records x.2 !! "" = None) | Err _ => false end = true) by by vm_compute.
    destruct (uninterrupted small_entries old_server) as [x|]; [|done]. apply (Hlive x eq_refl); [by apply bool_decide_eq_true in Hx|].
    apply (bool_decide_unpack _); by vm_compute. }
  assert (Hv : md_versions d = Some {["001"]}) by (apply (bool_decide_unpack _); by vm_compute).
  assert (Hs : size (md_schema d : gset string) = 3) by by vm_compute.
  assert (Hrow : (row_record_created_at <$> db_records (md_db (Run small_entries d []).1.2) !! "at://did:plc:a/app.post/1") = Some (Some "2024-05-01T10:00:00.000Z")) by by vm_compute.
  assert (Hvv : applied_in old_server ∪ versions_of small_entries = {["001"; "002"]}) by (apply (bool_decide_unpack _); by vm_compute).
  destruct (Run small_entries d []) as [[[[]|e] d'] fs'] eqn:E; [|cbn in Hok; discriminate Hok]. destruct (Hsafe [] d' fs' E) as (Hc & Hver & _).
  split; [exact Hb|]. split; [exact He|].
  split; [exact Hv|]. split; [exact Hs|]. split; [exact Hok|]. split; [exact Hc|]. split; [rewrite <- Hvv; exact Hver|exact Hrow].
Defined.
