(* ===== verification/RecordTimeline.v ===== *)
(** * The record timeline

    src/internal/database/repositories/records.go [GetRecordTimeline] and
    src/internal/graphql/schema/builder.go [createRecordTimelineResolver]: the newest records
    of several collections, of all or of given authors, a page at a time, with cursors made of
    a creation time and a URI. Undated records are not on it.

    Parameters: the two JSON functions of SQLite the statement calls ([JsonSql]), what authors
    and certified profiles attach to a node ([Hydration]), which numbers fit a float64 and
    which characters outside ASCII may be in an NSID. *)
From S2P Require Import Prelude GoStrings Json GoTime AtprotoTime Effects Database Like RecordStore RecordProps Lexicons Keyset Filters KeysetProps FilterProps KeysetForward LabelText Base64 Cursors Connection ConnectionProps EndorsementClosure.

(** ** The query *)

Definition MaxRecordTimelineAuthors : nat := 1000.
Definition MaxRecordTimelineCollections : nat := 25.

Record RecordTimelineCursor := mkTimelineCursor { tc_CreatedAt : string; tc_URI : string }.

Record RecordTimelineRecord := mkTimelineRecord { tr_record : RecordStruct; tr_RecordCreatedAt : Z }.

(** A condition of the statement, by the placeholders of its parameters. *)
Inductive timeline_cond :=
  | TDated
  | TJsonValid
  | TSet (column : string) (count start : nat)
  | TAfter (ph1 ph2 : nat).

Record timeline_query := mkTimelineQuery {
  tq_conditions : list timeline_cond;
  tq_params : list Value;
  tq_order : string;
  tq_limit : nat;
}.

(** SQLite's [json_valid], and the values of the elements of [json_each]. *)
Class JsonSql := { json_valid : string → bool; json_each : string → list string }.

Section query.
Context `{Env} `{TextOrder} `{SortKeys} `{JsonSql}.

Definition timelineSetCondition (column : string) (values : list string) (startPlaceholder : nat)
    : outcome (timeline_cond * list Value * nat) :=
  match values with
  | [] => Err (column +:+ " set must not be empty")
  | _ =>
      match dialect with
      | SQLite => Ok (TSet column 1 startPlaceholder, [TextValue (marshal_strings values)], 1)
      | PostgreSQL => Ok (TSet column (length values) startPlaceholder, TextValue <$> values, length values)
      end
  end.

Definition recordTimelineOrder (authorFiltered : bool) : string :=
  if bool_decide (dialect = PostgreSQL) && negb authorFiltered
  then "record.record_created_at DESC NULLS LAST, uri DESC"
  else "record.record_created_at DESC, uri DESC".

Definition recordTimelineColumns : string :=
  match dialect with
  | PostgreSQL => "uri, cid, did, collection, json::text, indexed_at::text, rkey, record_created_at::text"
  | SQLite => "uri, cid, did, collection, json, indexed_at, rkey, record_created_at"
  end.

Definition render_timeline_cond (c : timeline_cond) : string :=
  match c with
  | TDated => "record_created_at IS NOT NULL"
  | TJsonValid => "json_valid(json)"
  | TSet column count start =>
      match dialect with
      | SQLite => column +:+ " IN (SELECT value FROM json_each(" +:+ Placeholder start +:+ "))"
      | PostgreSQL => column +:+ " IN (" +:+ Placeholders count start +:+ ")"
      end
  | TAfter ph1 ph2 =>
      "(record_created_at, uri) < (" +:+ recordCreatedAtCursorValueExpr (Placeholder ph1) +:+ ", " +:+ Placeholder ph2 +:+ ")"
  end.

Definition recordTimelineQuery (authors : option (list string)) (collections : list string) (limit : nat)
    (after : option RecordTimelineCursor) : outcome timeline_query :=
  let conditions := TDated :: (if bool_decide (dialect = SQLite) then [TJsonValid] else []) in
  '(c, params, consumed) ← timelineSetCondition "collection" collections 1;
  let conditions := conditions ++ [c] in
  let next := 1 + consumed in
  '(conditions, params, next) ← match authors with
    | None => Ok (conditions, params, next)
    | Some dids =>
        '(c, ps, consumed) ← timelineSetCondition "did" dids next;
        mret (conditions ++ [c], params ++ ps, next + consumed)
    end;
  let '(conditions, params, next) := match after with
    | None => (conditions, params, next)
    | Some a => (conditions ++ [TAfter next (next + 1)], params ++ [TimestamptzValue (tc_CreatedAt a); TextValue (tc_URI a)], next + 2)
    end in
  Ok (mkTimelineQuery conditions (params ++ [IntValue (Z.of_nat limit)])
    (recordTimelineOrder (bool_decide (is_Some authors))) next).

(** The statement's text; [tq_limit] is the placeholder of the limit. *)
Definition timeline_sql (q : timeline_query) : string :=
  "SELECT " +:+ recordTimelineColumns +:+ " FROM record WHERE " +:+ join " AND " (render_timeline_cond <$> tq_conditions q)
    +:+ " ORDER BY " +:+ tq_order q +:+ " LIMIT " +:+ Placeholder (tq_limit q).

(** ** What it selects *)

Definition timeline_column (column : string) (r : row) : string :=
  if (column =? "did")%string then row_did r else row_collection r.

Definition set_values (params : list Value) (count start : nat) : list string :=
  match dialect with
  | SQLite => json_each (arg_text params start)
  | PostgreSQL => arg_text params <$> seq start count
  end.

(** The row-value comparison is that of a keyset page in descending order. *)
Definition timeline_holds (params : list Value) (c : timeline_cond) (kv : string * row) : Prop :=
  match c with
  | TDated => row_record_created_at kv.2 ≠ None
  | TJsonValid => json_valid (row_json kv.2) = true
  | TSet column count start => timeline_column column kv.2 ∈ set_values params count start
  | TAfter ph1 ph2 => keyset_holds params (Dated Less ph1 ph2) kv
  end.
#[export] Instance timeline_holds_dec params c kv : Decision (timeline_holds params c kv).
Proof. destruct c; unfold timeline_holds; apply _. Defined.

(** Newest first, ties by URI. Undated rows, which the two orders of PostgreSQL place
    differently, are never selected. *)
Definition newest : option SortOption := Some (mkSort SortFieldRecordCreatedAt "DESC").

Definition timeline_select (q : timeline_query) (d : db) : list (string * row) :=
  let limit := default 0%Z (column_int (nth (tq_limit q - 1) (tq_params q) NullValue)) in
  take (Z.to_nat limit) (filter (λ kv, Forall (λ c, timeline_holds (tq_params q) c kv) (tq_conditions q)) (sorted_rows newest d)).

(** The columns the statement does not select keep their zero values. *)
Definition scan_timeline (kv : string * row) : outcome RecordTimelineRecord :=
  match rkey_column kv.1, row_record_created_at kv.2 with
  | Some rkey, Some c =>
      Ok (mkTimelineRecord
        (mkRecord kv.1 (row_cid kv.2) (row_did kv.2) (row_collection kv.2) (row_json kv.2) (row_indexed_at kv.2) rkey "" "" None "")
        (ParseTimestamp (created_text c)))
  | _, _ => Err "converting NULL to string is unsupported"
  end.

Definition scanRecordTimelineRecords (rows : list (string * row)) : outcome (list RecordTimelineRecord) :=
  foldr (λ r rest, x ← scan_timeline r; xs ← rest; mret (x :: xs)) (Ok []) rows.

Definition GetRecordTimeline (authors : option (list string)) (collections : list string) (limit : Z)
    (after : option RecordTimelineCursor) : M db (list RecordTimelineRecord) :=
  if (limit <=? 0)%Z || bool_decide (collections = []) then mret []
  else if bool_decide (authors = Some []) then mret []
  else
    q ← of_outcome (recordTimelineQuery authors collections (Z.to_nat limit) after);
    rows ← wrap "failed to query record timeline" (query (timeline_select q));
    of_outcome (scanRecordTimelineRecords rows).
End query.

(** ** Arguments *)

Definition recordTimelineDefaultPageSize : Z := 50.
Definition recordTimelineMaxPageSize : Z := MaxPageSize.

Definition recordTimelineFirstArg (value : argument) : outcome Z :=
  let first := match value with ArgInt parsed => parsed | _ => recordTimelineDefaultPageSize end in
  if (first <? 1)%Z || (recordTimelineMaxPageSize <? first)%Z
  then Err ("recordTimeline first must be between 1 and " +:+ itoa recordTimelineMaxPageSize)
  else Ok first.

(** The loops over the items: [i] counts them. *)
Fixpoint trimmed_items (name : string) (i : nat) (items : list argument) : outcome (list string) :=
  match items with
  | [] => Ok []
  | ArgString s :: rest =>
      let s := trim_space s in
      if (s =? "")%string then Err ("recordTimeline " +:+ name +:+ "[" +:+ itoa (Z.of_nat i) +:+ "] must not be empty")
      else ss ← trimmed_items name (S i) rest; mret (s :: ss)
  | _ :: _ => Err ("recordTimeline " +:+ name +:+ "[" +:+ itoa (Z.of_nat i) +:+ "] must be a string")
  end.

Definition recordTimelineStringListArg (value : argument) (name : string) : outcome (list string) :=
  match value with
  | ArgList items => trimmed_items name 0 items
  | ArgStrings items => trimmed_items name 0 (ArgString <$> items)
  | _ => Err ("recordTimeline " +:+ name +:+ " must be a list of strings")
  end.

Fixpoint dedupe_go (seen values : list string) : list string :=
  match values with
  | [] => []
  | v :: rest => if bool_decide (v ∈ seen) then dedupe_go seen rest else v :: dedupe_go (v :: seen) rest
  end.
Definition dedupeStrings (values : list string) : list string := dedupe_go [] values.

Definition no_bytes (cs : list N) (s : string) : bool := forallb (λ n, no_byte (byte n) s) cs.
Definition isDIDString (value : string) : bool := has_prefix "did:" value && no_bytes [32; 9; 10; 13]%N value.

(** The position of the first value a test refuses. *)
Fixpoint first_bad (ok : string → bool) (i : nat) (values : list string) : option nat :=
  match values with
  | [] => None
  | v :: rest => if ok v then first_bad ok (S i) rest else Some i
  end.

Section where_arg.
Context (unicode_nsid : string → bool).

Definition collection_missing : string := "recordTimeline where.collection.in must include at least one collection NSID".

Definition timeline_collections (whereMap : list (string * argument)) : outcome (list string) :=
  match arg_get whereMap "collection" with
  | Some (ArgMap collectionFilter) =>
      collections ← recordTimelineStringListArg (default ArgNil (arg_get collectionFilter "in")) "where.collection.in";
      let collections := dedupeStrings collections in
      if bool_decide (collections = []) then Err collection_missing
      else if MaxRecordTimelineCollections <? length collections
      then Err ("recordTimeline where.collection.in supports at most " +:+ itoa (Z.of_nat MaxRecordTimelineCollections) +:+ " values")
      else match first_bad (IsValidNSID unicode_nsid) 0 collections with
           | Some i => Err ("recordTimeline where.collection.in[" +:+ itoa (Z.of_nat i) +:+ "] must be a valid collection NSID")
           | None => Ok collections
           end
  | _ => Err collection_missing
  end.

Definition did_prefix : string := " must be a DID string starting with " +:+ quoted "'did:'".

Definition check_authors (isEq : bool) (authors : list string) : outcome unit :=
  if MaxRecordTimelineAuthors <? length authors
  then Err ("recordTimeline where.did.in supports at most " +:+ itoa (Z.of_nat MaxRecordTimelineAuthors) +:+ " values")
  else match first_bad isDIDString 0 authors with
       | None => Ok tt
       | Some i =>
           if isEq then Err ("recordTimeline where.did.eq" +:+ did_prefix)
           else Err ("recordTimeline where.did.in[" +:+ itoa (Z.of_nat i) +:+ "]" +:+ did_prefix)
       end.

(** The authors ([None]: no author filter), and whether the set given is empty. *)
Definition timeline_authors (whereMap : list (string * argument)) : outcome (option (list string) * bool) :=
  match arg_get whereMap "did" with
  | None | Some ArgNil => Ok (None, false)
  | Some (ArgMap didFilter) =>
      match arg_get didFilter "eq" with
      | Some (ArgString eqAuthor) =>
          let eqAuthor := trim_space eqAuthor in
          if (eqAuthor =? "")%string then Err "recordTimeline where.did.eq must not be empty"
          else check_authors true [eqAuthor] ;; mret (Some [eqAuthor], false)
      | _ =>
          match arg_get didFilter "in" with
          | None | Some ArgNil => Ok (None, false)
          | Some rawAuthors =>
              authors ← recordTimelineStringListArg rawAuthors "where.did.in";
              let authors := dedupeStrings authors in
              check_authors false authors ;; mret (Some authors, bool_decide (authors = []))
          end
      end
  | Some _ => Err "recordTimeline where.did must be a DID filter"
  end.

Definition recordTimelineWhereArg (value : argument) : outcome (list string * option (list string) * bool) :=
  match value with
  | ArgMap whereMap =>
      collections ← timeline_collections whereMap;
      '(authors, authorsEmpty) ← timeline_authors whereMap;
      mret (collections, authors, authorsEmpty)
  | _ => Err collection_missing
  end.
End where_arg.

(** ** Cursors *)

Definition formatRecordTimelineTimestamp (value : Z) : string := format_millis value.

(** [json.Marshal] of the payload. *)
Definition timeline_payload (createdAt uri : string) : string :=
  quoted "{'v':1,'createdAt':" +:+ marshal_string createdAt +:+ quoted ",'uri':" +:+ marshal_string uri +:+ "}".

Definition encodeRecordTimelineCursor (createdAt uri : string) : string :=
  b64_encode RawURLEncoding (timeline_payload createdAt uri).

(** [json.Unmarshal] into a [recordTimelineCursorPayload]. *)
Definition unmarshal_payload (data : string) : option (Z * string * string) :=
  ms ← struct_members data;
  version ← int64_field "v" ms; createdAt ← string_field "createdAt" ms; uri ← string_field "uri" ms;
  Some (version, createdAt, uri).

Definition decodeRecordTimelineCursor (cursor : string) : outcome RecordTimelineCursor :=
  match b64_decode RawURLEncoding cursor with
  | None => Err "cursor must be base64url-encoded"
  | Some decoded =>
      match unmarshal_payload decoded with
      | None => Err "cursor payload must be a JSON object"
      | Some (version, createdAt, uri) =>
          if negb (version =? 1)%Z then Err ("unsupported cursor version " +:+ itoa version)
          else if (createdAt =? "")%string then Err "cursor createdAt is required"
          else match time_parse RFC3339Nano createdAt with
               | None => Err "cursor createdAt must be an RFC3339 timestamp"
               | Some t =>
                   if (uri =? "")%string || negb (has_prefix "at://" uri) then Err "cursor uri must be an AT-URI"
                   else Ok (mkTimelineCursor (formatRecordTimelineTimestamp t) uri)
               end
      end
  end.

(** ** The resolver *)

Record TimelineConnection := mkTimelineConnection {
  tl_edges : list Edge;
  tl_hasNextPage : bool;
  tl_hasPreviousPage : bool;
  tl_startCursor : option string;
  tl_endCursor : option string;
}.

Definition emptyRecordTimelineConnection : TimelineConnection := mkTimelineConnection [] false false None None.

Definition nullableString (value : string) : option string := if (value =? "")%string then None else Some value.

Section resolver.
Context `{Env} `{TextOrder} `{SortKeys} `{JsonSql} `{Hydration}.
Context (unicode_nsid float64_ok : string → bool).

Definition timeline_node (rec : RecordStruct) (createdAt : string) (value : govalue) : object :=
  list_to_map [("uri", JString (rec_uri rec)); ("cid", JString (rec_cid rec)); ("did", JString (rec_did rec));
    ("collection", JString (rec_collection rec)); ("rkey", from_option JString JNull (nullableString (rec_rkey rec)));
    ("createdAt", JString createdAt); ("indexedAt", JString (format_time (rec_indexed_at rec))); ("value", json_of value)].

(** One turn of the loop over a page's records: [None] for a skipped record. *)
Definition timeline_edge (attach : attachment) (rec : RecordTimelineRecord) : option Edge :=
  let r := tr_record rec in
  match decodeConnectionRecordValue float64_ok r false with
  | Err _ => None
  | Ok rawJSON =>
      let createdAt := formatRecordTimelineTimestamp (tr_RecordCreatedAt rec) in
      Some (mkEdge (encodeRecordTimelineCursor createdAt (rec_uri r)) (attach r (timeline_node r createdAt rawJSON)))
  end.

Definition hydrate_timeline (records : list RecordTimelineRecord) : M db attachment :=
  let rs := tr_record <$> records in
  authors ← hydrateAuthors rs;
  profiles ← hydrateCertifiedProfiles rs;
  mret (λ r node, profiles r (authors r node)).

Definition recordTimelineResolver (hasRepos : bool) (first wh : argument) (after : string) : M db TimelineConnection :=
  first ← of_outcome (recordTimelineFirstArg first);
  '(collections, authors, authorsEmpty) ← of_outcome (recordTimelineWhereArg unicode_nsid wh);
  afterCursor ← of_outcome (if (after =? "")%string then Ok None
    else Some <$> wrap_err "invalid recordTimeline cursor" (decodeRecordTimelineCursor after));
  if negb hasRepos then mret emptyRecordTimelineConnection
  else if (authorsEmpty : bool) then mret emptyRecordTimelineConnection
  else
    records ← wrap "failed to query recordTimeline" (GetRecordTimeline authors collections (first + 1) afterCursor);
    let hasNextPage := (Z.to_nat first <? length records) in
    let records := if hasNextPage then take (Z.to_nat first) records else records in
    attach ← hydrate_timeline records;
    let edges := omap (timeline_edge attach) records in
    mret (mkTimelineConnection edges hasNextPage (bool_decide (is_Some afterCursor))
      (nullableString (start_cursor edges "")) (nullableString (end_cursor edges))).

(** A client that passes on each page's end cursor while there is a next page. *)
Fixpoint timeline_walk (fuel : nat) (first wh : argument) (after : string) : M db (list Edge) :=
  match fuel with
  | O => throw "out of fuel"
  | S f =>
      c ← recordTimelineResolver true first wh after;
      if tl_hasNextPage c then rest ← timeline_walk f first wh (default "" (tl_endCursor c)); mret (tl_edges c ++ rest)
      else mret (tl_edges c)
  end.
End resolver.

(** ** Cursors round trip *)

Lemma parse_members_step f dep s :
  parse_members (S f) dep s =
  match skip_space s with
  | String q s0 =>
      if is_byte 34 q then
        '(k, s1) ← parse_string f s0 "";
        match skip_space s1 with
        | String col s2 =>
            if is_byte 58 col then
              '(v, s3) ← parse_value f dep s2;
              let text := skip_space s2 in
              let raw := stake (String.length text - String.length s3) text in
              match skip_space s3 with
              | String c rest =>
                  if is_byte 44 c then '(ms, s4) ← parse_members f dep rest; Some ((k, (raw, v)) :: ms, s4)
                  else if is_byte 125 c then Some ([(k, (raw, v))], rest) else None
              | EmptyString => None
              end
            else None
        | EmptyString => None
        end
      else None
  | EmptyString => None
  end.
Proof. reflexivity. Qed.

(** One member of the payload, with a text or, for the version, a number. *)
Lemma parse_text_member f dep key s rest :
  (∀ w, parse_string f (key +:+ String quote_byte w) "" = Some (key, w)) → String.length s + 2 ≤ f →
  ∃ raw, parse_members (S f) dep (String quote_byte (key +:+ String quote_byte (String (byte 58) (marshal_string s +:+ rest)))) =
    match skip_space rest with
    | String c rest =>
        if is_byte 44 c then '(ms, s4) ← parse_members f dep rest; Some ((key, (raw, JString (clean s))) :: ms, s4)
        else if is_byte 125 c then Some ([(key, (raw, JString (clean s)))], rest) else None
    | EmptyString => None
    end.
Proof.
  intros Hkey Hf. eexists. rewrite parse_members_step.
  change (skip_space (String quote_byte ?x)) with (String quote_byte x).
  change (is_byte 34 quote_byte) with true. cbv iota. rewrite Hkey. cbn [mbind option_bind].
  change (skip_space (String (byte 58) ?x)) with (String (byte 58) x).
  change (is_byte 58 (byte 58)) with true. cbv iota. rewrite parse_marshalled by done. cbn [mbind option_bind]. reflexivity.
Qed.

Lemma parse_version_member f dep w :
  ∃ raw, parse_members (S (S (S f))) dep (quoted "'v':1," +:+ w) =
    ('(ms, s4) ← parse_members (S (S f)) dep w; Some (("v", (raw, JNumber "1")) :: ms, s4)).
Proof. eexists. rewrite parse_members_step. reflexivity. Qed.

Definition uri_member (u : string) : string :=
  String quote_byte ("uri" +:+ String quote_byte (String (byte 58) (marshal_string u +:+ "}"))).
Definition created_member (a u : string) : string :=
  String quote_byte ("createdAt" +:+ String quote_byte (String (byte 58) (marshal_string a +:+ String (byte 44) (uri_member u)))).

Lemma parse_payload_members f dep a u :
  String.length a + String.length u + 16 ≤ f →
  ∃ r1 r2 r3, parse_members f dep (quoted "'v':1," +:+ created_member a u) =
    Some ([("v", (r1, JNumber "1")); ("createdAt", (r2, JString (clean a))); ("uri", (r3, JString (clean u)))], "").
Proof.
  intros Hf. destruct (Nat.le_exists_sub 13 f) as (g & -> & _); [lia|]. rewrite Nat.add_comm.
  destruct (parse_version_member (10 + g) dep (created_member a u)) as (r1 & H1).
  destruct (parse_text_member (11 + g) dep "createdAt" a (String (byte 44) (uri_member u))) as (r2 & H2); [by intros w|lia|].
  destruct (parse_text_member (10 + g) dep "uri" u "}") as (r3 & H3); [by intros w|lia|].
  exists r1, r2, r3. change (13 + g) with (S (S (S (10 + g)))). rewrite H1.
  change (S (S (10 + g))) with (S (11 + g)). unfold created_member. rewrite H2.
  change (skip_space (String (byte 44) (uri_member u))) with (String (byte 44) (uri_member u)).
  change (is_byte 44 (byte 44)) with true. cbv iota.
  change (11 + g) with (S (10 + g)). unfold uri_member. rewrite H3. reflexivity.
Qed.

Lemma parse_payload a u :
  ∃ r1 r2 r3, json_parse (timeline_payload a u) =
    Some (JObject [("v", (r1, JNumber "1")); ("createdAt", (r2, JString (clean a))); ("uri", (r3, JString (clean u)))]).
Proof.
  unfold json_parse. set (n := String.length (timeline_payload a u)).
  assert (Hn : String.length a + String.length u + 30 ≤ n).
  { unfold n, timeline_payload. rewrite !length_append. pose proof (marshalled_length a). pose proof (marshalled_length u). cbn in *. lia. }
  destruct max_depth as [|dep] eqn:Ed; [by vm_compute in Ed|]. clear Ed.
  assert (Hp : ∀ g, parse_value (S g) (S dep) (timeline_payload a u) =
    ('(ms, rest) ← parse_members g dep (quoted "'v':1," +:+ created_member a u); Some (JObject ms, rest))) by reflexivity.
  replace (2 * n + 2) with (S (2 * n + 1)) by lia. rewrite Hp.
  destruct (parse_payload_members (2 * n + 1) dep a u ltac:(lia)) as (r1 & r2 & r3 & ->). by exists r1, r2, r3.
Qed.

(** A normal time is ASCII. *)
Definition ascii (s : string) : bool := all_bytes (λ c, (byte_val c <? 128)%N) s.

Lemma ascii_app s w : ascii (s +:+ w) = ascii s && ascii w.
Proof. unfold ascii. induction s as [|c s IH]; [done|]. rewrite append_cons. cbn [all_bytes]. by rewrite IH, andb_assoc. Qed.

Lemma ascii_valid_go f s : String.length s ≤ f → ascii s = true → valid_utf8_go f s = true.
Proof.
  revert s. induction f as [|f IH]; intros [|c s] Hf Ha; try done.
  unfold ascii in Ha. cbn [all_bytes] in Ha. apply andb_prop in Ha as [Hc Ha].
  cbn [valid_utf8_go utf8_len]. rewrite Hc. cbn [sdrop]. apply IH; [cbn in Hf; lia|done].
Qed.

Lemma ascii_pair v : (0 ≤ v < 100)%Z → ascii (append_int v 2) = true.
Proof.
  intros Hv. assert (Hall : upto (λ v, ascii (append_int v 2)) 100 0 = true) by (vm_compute; reflexivity).
  exact (upto_spec _ _ _ v Hall ltac:(lia)).
Qed.

Lemma ascii_milli v : (0 ≤ v < 1000)%Z → ascii (append_int v 3) = true.
Proof.
  intros Hv. assert (Hall : upto (λ v, ascii (append_int v 3)) 1000 0 = true) by (vm_compute; reflexivity).
  exact (upto_spec _ _ _ v Hall ltac:(lia)).
Qed.

Lemma normal_utf8 t : four_digit_year t → valid_utf8 (format_millis t) = true.
Proof.
  intros Ht. apply ascii_valid_go; [done|]. pose proof (moment_spec t Ht) as Hm. cbv zeta in Hm.
  rewrite format_millis_text. destruct Hm as (Hy & Hm & Hd & Hh & Hmi & Hss & Hms & _). cbv zeta.
  assert (Hday : (mo_day (moment_of t) < 100)%Z).
  { unfold days_in in Hd. destruct (_ =? 2)%Z; [destruct (is_leap _)|case_bool_decide]; lia. }
  generalize dependent (moment_of t). intros m Hy Hm Hd Hh Hmi Hss Hms Hday.
  unfold date_text, clock_text. rewrite append_year by done.
  rewrite !ascii_app, !ascii_pair, ascii_milli by first [lia|Z.to_euclidean_division_equations; lia]. reflexivity.
Qed.

(** A cursor is read back. *)
Lemma decode_encode_timeline t uri :
  four_digit_year t → valid_utf8 uri = true → has_prefix "at://" uri = true →
  decodeRecordTimelineCursor (encodeRecordTimelineCursor (format_millis t) uri) = Ok (mkTimelineCursor (format_millis t) uri).
Proof.
  intros Ht Hv Hp. unfold decodeRecordTimelineCursor, encodeRecordTimelineCursor, unmarshal_payload, struct_members.
  rewrite b64_decode_encode. destruct (parse_payload (format_millis t) uri) as (r1 & r2 & r3 & ->). cbn [mbind option_bind].
  rewrite (clean_valid _ (normal_utf8 t Ht)), (clean_valid uri Hv).
  change (int64_field _ _) with (Some 1%Z). cbn [mbind option_bind].
  change (string_field "createdAt" _) with (Some (format_millis t)). cbn [mbind option_bind].
  change (string_field "uri" _) with (Some uri). cbn [mbind option_bind]. change (negb (1 =? 1)%Z) with false. cbv iota.
  rewrite (parse_formatted t Ht), Hp. unfold formatRecordTimelineTimestamp. rewrite format_truncated.
  destruct (String.eqb_spec (format_millis t) "") as [E|_].
  { exfalso. rewrite format_millis_text in E. cbv zeta in E. apply (f_equal String.length) in E. rewrite !length_append in E. cbn in E. lia. }
  destruct (String.eqb_spec uri "") as [->|_]; [done|]. reflexivity.
Qed.

Lemma timeline_cursor_nonempty a u : encodeRecordTimelineCursor a u ≠ "".
Proof.
  intros E. pose proof (b64_decode_encode RawURLEncoding (timeline_payload a u)) as Hd. fold (encodeRecordTimelineCursor a u) in Hd.
  rewrite E in Hd. by injection Hd.
Qed.

(** ** What a page selects *)

(** The documented behaviour of [json_each] on an array of strings. *)
Class JsonSqlLaws `{JsonSql} := {
  json_each_law vs : vs ≠ [] → json_each (marshal_strings vs) = clean <$> vs;
}.

(** The texts the databases give for a normal time - PostgreSQL's in the time zone of the
    session, at a whole number of hours from UTC - and that a normal time in a cursor is
    compared as the column it was made from. *)
Class TimelineLaws `{Env} `{SortKeys} := {
  session_hours : Z → Z;
  session_hours_ok t : zone_hours (session_hours t);
  created_text_normal t : four_digit_year t → (dialect = PostgreSQL → four_digit_year (local_time (session_hours t) t)) →
    created_text (format_millis t) = match dialect with SQLite => format_millis t | PostgreSQL => pg_timestamp (session_hours t) t end;
  created_cursor_normal t : four_digit_year t →
    field_cursor SortFieldRecordCreatedAt (format_millis t) = Some (created_key (format_millis t));
}.

Section selection.
Context `{Env} `{TextOrder} `{SortKeys} `{!JsonSql} `{!JsonSqlLaws} `{!TimelineLaws}.
Implicit Types (params pre post : list Value) (kv : string * row).

Lemma arg_text_middle pre v post : arg_text (pre ++ v :: post) (length pre + 1) = null_string (column_text v).
Proof. unfold arg_text. rewrite Nat.add_sub, app_nth2 by lia. by rewrite Nat.sub_diag. Qed.

Lemma arg_texts pre vs post :
  arg_text (pre ++ (TextValue <$> vs) ++ post) <$> seq (length pre + 1) (length vs) = vs.
Proof.
  revert pre. induction vs as [|v vs IH]; intros pre; [done|]. cbn [length seq fmap list_fmap app].
  rewrite arg_text_middle. change (null_string (column_text (TextValue v))) with v. f_equal.
  specialize (IH (pre ++ [TextValue v])). rewrite length_app, <- app_assoc in IH. cbn in IH.
  replace (length pre + 1 + 1) with (S (length pre + 1)) in IH by lia. exact IH.
Qed.

(** A set condition selects the rows whose column is in the set. *)
Lemma set_condition_spec column vs start :
  vs ≠ [] → Forall (λ s, valid_utf8 s = true) vs →
  ∃ c ps, timelineSetCondition column vs start = Ok (c, ps, length ps) ∧
    ∀ pre post kv, start = length pre + 1 →
      timeline_holds (pre ++ ps ++ post) c kv ↔ timeline_column column kv.2 ∈ vs.
Proof.
  intros Hne Hv. unfold timelineSetCondition, timeline_holds, set_values. destruct vs as [|v vs]; [done|].
  destruct dialect eqn:Ed.
  - exists (TSet column 1 start), [TextValue (marshal_strings (v :: vs))]. split; [done|]. intros pre post kv ->. cbv beta iota. cbn [app]. rewrite arg_text_middle. change (null_string (column_text (TextValue ?s))) with s.
    rewrite json_each_law by done. assert (clean <$> v :: vs = v :: vs) as ->; [|done].
    rewrite <- (list_fmap_id (v :: vs)) at 2. apply list_fmap_ext. intros i s Hs%list_elem_of_lookup_2.
    rewrite Forall_forall in Hv. apply clean_valid, Hv, Hs.
  - exists (TSet column (length (v :: vs)) start), (TextValue <$> v :: vs). split; [by rewrite length_fmap|]. intros pre post kv ->. cbv beta iota. by rewrite arg_texts.
Qed.

(** The rows of a timeline, newest first. *)
Definition on_timeline (authors : option (list string)) (collections : list string) kv : Prop :=
  row_record_created_at kv.2 ≠ None ∧ (dialect = SQLite → json_valid (row_json kv.2) = true) ∧
  row_collection kv.2 ∈ collections ∧ match authors with None => True | Some dids => row_did kv.2 ∈ dids end.
#[export] Instance on_timeline_dec authors collections kv : Decision (on_timeline authors collections kv).
Proof. unfold on_timeline. destruct authors; apply _. Defined.

Definition timeline_rows (authors : option (list string)) (collections : list string) (d : db) : list (string * row) :=
  filter (on_timeline authors collections) (sorted_rows newest d).

(** The cursor of a row, and the rows after it. *)
Definition cursor_of kv : RecordTimelineCursor := mkTimelineCursor (null_string (row_record_created_at kv.2)) kv.1.
Definition rows_after (start : option (string * row)) (rows : list (string * row)) : list (string * row) :=
  match start with None => rows | Some x => filter (row_lt newest x) rows end.

Definition normal_row kv : Prop := ∃ t, four_digit_year t ∧ (dialect = PostgreSQL → four_digit_year (local_time (session_hours t) t)) ∧
  row_record_created_at kv.2 = Some (format_millis t).

Lemma after_condition pre post x kv :
  normal_row x → row_record_created_at kv.2 ≠ None →
  timeline_holds (pre ++ [TimestamptzValue (tc_CreatedAt (cursor_of x)); TextValue (tc_URI (cursor_of x))] ++ post)
    (TAfter (length pre + 1) (length pre + 2)) kv ↔ row_lt newest x kv.
Proof.
  intros (t & Ht & _ & Hx) Hkv. cbn [timeline_holds keyset_holds app]. rewrite arg_text_middle.
  replace (pre ++ _ :: _ :: post) with ((pre ++ [TimestamptzValue (tc_CreatedAt (cursor_of x))]) ++ TextValue (tc_URI (cursor_of x)) :: post)
    by by rewrite <- app_assoc.
  replace (length pre + 2) with (length (pre ++ [TimestamptzValue (tc_CreatedAt (cursor_of x))]) + 1) by (rewrite length_app; cbn; lia).
  rewrite arg_text_middle. unfold cursor_of. cbn [tc_CreatedAt tc_URI]. rewrite Hx.
  change (null_string (column_text (TimestamptzValue ?s))) with s. change (null_string (column_text (TextValue ?s))) with s.
  change (null_string (Some ?s)) with s.
  rewrite created_cursor_normal by done. unfold row_lt, newest, asc_lt. cbn [keysetSortFieldName Field is_asc Direction String.eqb].
  rewrite !field_key_created, Hx. destruct (row_record_created_at kv.2) as [c|]; [|done].
  change ("DESC" =? "ASC")%string with false. cbn. split; (intros [?|[E ?]]; [by left|right; split; [congruence|done]]).
Qed.

Definition base_conditions : list timeline_cond := TDated :: (if bool_decide (dialect = SQLite) then [TJsonValid] else []).

Lemma base_spec params kv :
  Forall (λ c, timeline_holds params c kv) base_conditions ↔
  row_record_created_at kv.2 ≠ None ∧ (dialect = SQLite → json_valid (row_json kv.2) = true).
Proof.
  unfold base_conditions. rewrite Forall_cons. cbn [timeline_holds].
  case_bool_decide; rewrite ?Forall_cons, ?Forall_nil; cbn [timeline_holds]; tauto.
Qed.

Lemma select_spec q authors collections start limit d :
  nth (tq_limit q - 1) (tq_params q) NullValue = IntValue (Z.of_nat limit) →
  (∀ kv, Forall (λ c, timeline_holds (tq_params q) c kv) (tq_conditions q) ↔
    on_timeline authors collections kv ∧ match start with None => True | Some x => row_lt newest x kv end) →
  timeline_select q d = take limit (rows_after start (timeline_rows authors collections d)).
Proof.
  intros Hl Hc. unfold timeline_select. rewrite Hl. cbn [column_int]. change (default 0%Z (Some ?z)) with z. rewrite Nat2Z.id. f_equal.
  unfold rows_after, timeline_rows. destruct start as [x|]; [rewrite list_filter_filter|]; apply list_filter_iff; intros kv; rewrite Hc; tauto.
Qed.

Lemma timeline_query_spec authors collections limit after start d :
  collections ≠ [] → authors ≠ Some [] → Forall (λ s, valid_utf8 s = true) (collections ++ default [] authors) →
  match start with None => after = None | Some x => normal_row x ∧ after = Some (cursor_of x) end →
  ∃ q, recordTimelineQuery authors collections limit after = Ok q ∧
    timeline_select q d = take limit (rows_after start (timeline_rows authors collections d)).
Proof.
  intros Hcs Has [Hv1 Hv2]%Forall_app Hst. unfold recordTimelineQuery. fold base_conditions.
  destruct (set_condition_spec "collection" collections 1 Hcs Hv1) as (c1 & ps1 & E1 & Hc1). rewrite E1. cbn [mbind outcome_bind].
  set (auth := match authors with None => _ | Some dids => _ end).
  assert (Hauth : ∃ conds ps, auth = Ok ((base_conditions ++ [c1]) ++ conds, ps1 ++ ps, 1 + length ps1 + length ps) ∧
    ∀ post kv, Forall (λ c, timeline_holds (ps1 ++ ps ++ post) c kv) conds ↔
      match authors with None => True | Some dids => row_did kv.2 ∈ dids end).
  { unfold auth. destruct authors as [dids|].
    - destruct (set_condition_spec "did" dids (1 + length ps1)) as (c2 & ps2 & E2 & Hc2); [congruence|done|]. rewrite E2.
      exists [c2], ps2. split; [done|]. intros post kv. rewrite Forall_singleton. apply Hc2. lia.
    - exists [], []. rewrite !app_nil_r, Nat.add_0_r. split; [done|]. intros post kv. split; [done|constructor]. }
  destruct Hauth as (c2 & ps2 & -> & Hc2). cbn [mbind outcome_bind].
  assert (Hcoll : ∀ post kv, timeline_holds (ps1 ++ post) c1 kv ↔ row_collection kv.2 ∈ collections)
    by (intros post kv; by apply (Hc1 [] post kv)).
  destruct start as [x|]; [destruct Hst as [Hx ->]|subst after]; eexists; (split; [reflexivity|]); apply select_spec; cbn [tq_limit tq_params tq_conditions].
  - rewrite app_nth2; rewrite !length_app; cbn [length]; [|lia].
    replace (_ - _) with 0 by lia. done.
  - intros kv. rewrite !Forall_app, !Forall_singleton, base_spec, <- !app_assoc, Hcoll, Hc2. unfold on_timeline.
    assert (Hlt : row_record_created_at kv.2 ≠ None →
      timeline_holds (ps1 ++ ps2 ++ [TimestamptzValue (tc_CreatedAt (cursor_of x)); TextValue (tc_URI (cursor_of x))] ++ [IntValue (Z.of_nat limit)])
        (TAfter (1 + length ps1 + length ps2) (1 + length ps1 + length ps2 + 1)) kv ↔ row_lt newest x kv).
    { intros Hd. pose proof (after_condition (ps1 ++ ps2) [IntValue (Z.of_nat limit)] x kv Hx Hd) as Ha.
      rewrite length_app, <- !app_assoc in Ha.
      replace (1 + length ps1 + length ps2) with (length ps1 + length ps2 + 1) by lia.
      replace (length ps1 + length ps2 + 1 + 1) with (length ps1 + length ps2 + 2) by lia. exact Ha. }
    tauto.
  - rewrite app_nth2; rewrite !length_app; cbn [length]; [|lia].
    replace (_ - _) with 0 by lia. done.
  - intros kv. rewrite !Forall_app, !Forall_singleton, base_spec, <- !app_assoc, Hcoll, Hc2. unfold on_timeline. tauto.
Qed.
End selection.

(** ** Reading a timeline *)

Lemma first_arg_ok value n : recordTimelineFirstArg value = Ok n → (1 ≤ n ≤ 1000)%Z.
Proof.
  unfold recordTimelineFirstArg. cbv zeta. destruct (_ || _) eqn:E; [done|]. intros [= <-].
  apply orb_false_iff in E as [?%Z.ltb_ge ?%Z.ltb_ge]. unfold recordTimelineMaxPageSize, MaxPageSize in *. lia.
Qed.

Lemma where_arg_ok unicode_nsid wh collections authors :
  recordTimelineWhereArg unicode_nsid wh = Ok (collections, authors, false) → collections ≠ [] ∧ authors ≠ Some [].
Proof.
  unfold recordTimelineWhereArg. destruct wh as [| | | | |m|]; try done.
  destruct (timeline_collections unicode_nsid m) as [cs|] eqn:Ec; [|done]. cbn [mbind outcome_bind].
  destruct (timeline_authors m) as [[dids empty]|] eqn:Ea; [|done]. intros [= <- <- ->]. split.
  - intros ->. unfold timeline_collections in Ec. destruct (arg_get m "collection") as [[| | | | |f|]|]; try done.
    destruct (recordTimelineStringListArg _ _); [|done]. cbn [mbind outcome_bind] in Ec. case_bool_decide as Hd; [done|].
    repeat case_match; try done. injection Ec as Ec. congruence.
  - intros ->. unfold timeline_authors in Ea. repeat case_match; try done; cbn [mbind outcome_bind] in Ea; try done.
    all: try (destruct (check_authors _ _); try done).
    all: destruct (recordTimelineStringListArg _ _) as [l|]; [|done]; cbn [mbind outcome_bind] in Ea;
      destruct (check_authors _ _); [|done]; cbn in Ea; injection Ea as -> Hd; by apply bool_decide_eq_false in Hd.
Qed.

Section reading.
Context `{Env} `{TextOrder} `{SortKeys} `{!JsonSql} `{!JsonSqlLaws} `{!TimelineLaws} `{Hydration}.
Context (unicode_nsid float64_ok : string → bool).
Context (first wh : argument) (n : Z) (collections : list string) (authors : option (list string)).

Notation rows_of := (timeline_rows authors collections).
Notation resolve := (recordTimelineResolver unicode_nsid float64_ok true first wh).
Notation edge := (timeline_edge float64_ok).
Notation size := (Z.to_nat n).

(** What the walk needs: arguments the resolver accepts, texts that are UTF-8, records under
    AT-URIs with creation times the parser wrote, rows that scan, and hydrations that read
    and attach to a record the same whatever page it is on. *)
Record timeline_ready (d : db) (att : attachment) (records : list RecordTimelineRecord) : Prop := {
  td_first : recordTimelineFirstArg first = Ok n;
  td_where : recordTimelineWhereArg unicode_nsid wh = Ok (collections, authors, false);
  td_utf8 : Forall (λ s, valid_utf8 s = true) (collections ++ default [] authors);
  td_rows : ∀ kv, kv ∈ rows_of d → normal_row kv ∧ valid_utf8 kv.1 = true ∧ has_prefix "at://" kv.1 = true;
  td_records : scanRecordTimelineRecords (rows_of d) = Ok records;
  td_hydrated : ∀ rs, ∃ f, ReadsAs (hydrate_timeline rs) d (Ok f) ∧ ∀ r, r ∈ rs → f (tr_record r) = att (tr_record r);
}.

Lemma scan_timeline_Forall2 rows records :
  scanRecordTimelineRecords rows = Ok records ↔ Forall2 (λ kv r, scan_timeline kv = Ok r) rows records.
Proof.
  unfold scanRecordTimelineRecords. revert records. induction rows as [|kv rows IH]; intros records; cbn [foldr].
  - split; [by intros [= <-]|]. by intros ->%Forall2_nil_inv_l.
  - split.
    + destruct (scan_timeline kv) as [r|] eqn:Er; [|done]. cbn [mbind outcome_bind].
      destruct (foldr _ _ rows) as [rs|]; [|done]. intros [= <-]. constructor; [done|]. by apply IH.
    + intros (r & rs & Hr & Hrs & ->)%Forall2_cons_inv_l. rewrite Hr. cbn [mbind outcome_bind].
      by rewrite (proj2 (IH rs) Hrs).
Qed.

(** The cursor of a row, and of where a page starts. *)
Definition timeline_cursor (kv : string * row) : string :=
  encodeRecordTimelineCursor (null_string (row_record_created_at kv.2)) kv.1.
Definition cursor_text (start : option (string * row)) : string := from_option timeline_cursor "" start.

Lemma row_cursor_nonempty kv : timeline_cursor kv ≠ "".
Proof. apply timeline_cursor_nonempty. Qed.

Lemma edge_cursor att kv r e :
  scan_timeline kv = Ok r → normal_row kv → edge att r = Some e → ed_cursor e = timeline_cursor kv.
Proof.
  intros Hs (t & Ht & Hl & Hc). unfold scan_timeline in Hs. destruct (rkey_column kv.1) as [rkey|]; [|done]. rewrite Hc in Hs.
  injection Hs as <-. unfold timeline_edge. destruct (decodeConnectionRecordValue _ _ _); [|done]. intros [= <-].
  cbn [ed_cursor tr_record tr_RecordCreatedAt rec_uri]. unfold timeline_cursor, formatRecordTimelineTimestamp. rewrite Hc.
  change (null_string (Some ?s)) with s. f_equal. rewrite created_text_normal by done.
  pose proof (session_hours_ok t) as Hz. destruct dialect; [rewrite ParseTimestamp_formatted by done|rewrite ParseTimestamp_pg by auto]; apply format_truncated.
Qed.

Lemma decode_row_cursor d att records kv :
  timeline_ready d att records → kv ∈ rows_of d → decodeRecordTimelineCursor (timeline_cursor kv) = Ok (cursor_of kv).
Proof.
  intros Hw Hkv. destruct (td_rows _ _ _ Hw kv Hkv) as ((t & Ht & _ & Hc) & Hv & Hp). unfold timeline_cursor, cursor_of. rewrite Hc.
  change (null_string (Some ?s)) with s. by apply decode_encode_timeline.
Qed.

Lemma edge_ext f att r : f (tr_record r) = att (tr_record r) → edge f r = edge att r.
Proof. unfold timeline_edge. by intros ->. Qed.

Lemma take_more {A} k (l : list A) :
  (k <? length (take (S k) l)) = (k <? length l) ∧ (if k <? length l then take k (take (S k) l) else take (S k) l) = take k l.
Proof.
  rewrite length_take. destruct (Nat.ltb_spec k (length l)).
  - split; [apply Nat.ltb_lt; lia|]. rewrite take_take. f_equal. lia.
  - split; [apply Nat.ltb_ge; lia|]. by rewrite !take_ge by lia.
Qed.

(** One page: the first records after its start, and whether there are more. *)
Lemma timeline_page d att records start rest :
  timeline_ready d att records → from_option (λ x, x ∈ rows_of d) True start →
  scanRecordTimelineRecords (rows_after start (rows_of d)) = Ok rest →
  let edges := omap (edge att) (take size rest) in
  ReadsAs (resolve (cursor_text start)) d (Ok (mkTimelineConnection edges (size <? length rest) (bool_decide (is_Some start))
    (nullableString (start_cursor edges "")) (nullableString (end_cursor edges)))).
Proof.
  intros Hw Hst Hrest edges. unfold recordTimelineResolver. rewrite (td_first _ _ _ Hw), (td_where _ _ _ Hw).
  pose proof (first_arg_ok _ _ (td_first _ _ _ Hw)) as Hn. destruct (where_arg_ok _ _ _ _ (td_where _ _ _ Hw)) as [Hcs Has].
  eapply reads_bind; [apply reads_of_outcome| |done]. intros ? [= <-].
  eapply reads_bind; [apply reads_of_outcome| |done]. intros [[? ?] ?] [= <- <- <-].
  set (cur := cursor_of <$> start).
  assert (Hcur : (if (cursor_text start =? "")%string then Ok None
    else Some <$> wrap_err "invalid recordTimeline cursor" (decodeRecordTimelineCursor (cursor_text start))) = Ok cur).
  { destruct start as [x|]; [|done]. cbn [cursor_text from_option]. unfold cursor_text. cbn [from_option].
    rewrite (proj2 (String.eqb_neq _ _) (row_cursor_nonempty x)). by erewrite decode_row_cursor. }
  rewrite Hcur. eapply reads_bind; [apply reads_of_outcome| |done]. intros ? [= <-]. cbn [negb].
  destruct (timeline_query_spec authors collections (Z.to_nat (n + 1)) cur start d Hcs Has (td_utf8 _ _ _ Hw)) as (q & Hq & Hsel).
  { destruct start as [x|]; [|done]. split; [|done]. by apply (td_rows _ _ _ Hw). }
  assert (Hsize : Z.to_nat (n + 1) = S size) by lia.
  assert (Hpage : ReadsAs (GetRecordTimeline authors collections (n + 1) cur) d (Ok (take (S size) rest))).
  { unfold GetRecordTimeline. rewrite (bool_decide_eq_false_2 _ Hcs), (bool_decide_eq_false_2 _ Has).
    rewrite (proj2 (Z.leb_gt _ _)) by lia. cbn [orb]. rewrite Hq.
    eapply reads_bind; [apply reads_of_outcome| |done]. intros ? [= <-].
    eapply reads_bind; [apply reads_wrap, reads_query| |done]. intros ? [= <-]. rewrite Hsel, Hsize.
    assert (scanRecordTimelineRecords (take (S size) (rows_after start (rows_of d))) = Ok (take (S size) rest)) as ->; [|apply reads_of_outcome].
    apply scan_timeline_Forall2, Forall2_take. by apply scan_timeline_Forall2. }
  eapply reads_bind; [apply reads_wrap, Hpage| |done]. intros ? [= <-].
  destruct (take_more size rest) as [Hmore Htake]. rewrite Hmore. cbv zeta. rewrite Htake.
  destruct (td_hydrated _ _ _ Hw (take size rest)) as (f & Hf & Hatt).
  eapply reads_bind; [exact Hf| |done]. intros ? [= <-].
  assert (omap (edge f) (take size rest) = edges) as ->.
  { unfold edges. apply list_omap_ext. apply Forall_Forall2_diag, Forall_forall. intros r Hr. by apply edge_ext, Hatt. }
  assert (bool_decide (is_Some cur) = bool_decide (is_Some start)) as ->; [|apply reads_ret].
  unfold cur. by destruct start.
Qed.

(** No page's worth of records that all fail to decode, before the last page. *)
Definition no_dead_timeline (att : attachment) (records : list RecordTimelineRecord) : Prop :=
  ∀ pre page post, records = pre ++ page ++ post → length page = size → post ≠ [] →
    Exists (λ r, is_Some (edge att r)) page.

Lemma timeline_rest d start k1 kv k2 :
  rows_after start (rows_of d) = k1 ++ kv :: k2 → rows_after (Some kv) (rows_of d) = k2.
Proof.
  intros Hr. assert (Hs : increasing id (row_lt newest) (rows_of d)) by (apply increasing_filter, sorted_rows_increasing).
  destruct start as [x|]; cbn [rows_after] in *.
  - assert (Hlt : row_lt newest x kv).
    { assert (kv ∈ filter (row_lt newest x) (rows_of d)) as [? _]%list_elem_of_filter; [|done]. rewrite Hr. apply elem_of_app. right. left. }
    transitivity (filter (row_lt newest kv) (k1 ++ kv :: k2)).
    + rewrite <- Hr. symmetry. exact (filter_later id (row_lt newest) x kv (rows_of d) Hlt).
    + apply (filter_after_prefix id (row_lt newest)). rewrite <- Hr. by apply increasing_filter.
  - rewrite Hr in Hs |- *. by apply (filter_after_prefix id (row_lt newest)).
Qed.

Lemma timeline_walk_reads d att records fuel start pre rest :
  timeline_ready d att records → no_dead_timeline att records → from_option (λ x, x ∈ rows_of d) True start →
  records = pre ++ rest → scanRecordTimelineRecords (rows_after start (rows_of d)) = Ok rest → length rest < fuel →
  ReadsAs (timeline_walk unicode_nsid float64_ok fuel first wh (cursor_text start)) d (Ok (omap (edge att) rest)).
Proof.
  intros Hw Hdead. revert start pre rest.
  induction fuel as [|f IH]; intros start pre rest Hst Hpre Hrest Hfuel; [lia|]. cbn [timeline_walk].
  eapply reads_bind; [by eapply timeline_page| |done]. intros c [= <-]. cbn [tl_hasNextPage tl_endCursor tl_edges].
  destruct (Nat.ltb_spec size (length rest)) as [Hmore|Hlast].
  2:{ rewrite take_ge by done. apply reads_ret. }
  destruct (omap_last (edge att) (take size rest)) as (w1 & x & e & w2 & Htake & Hx & Hw2 & Hedges).
  { apply (Hdead pre _ (drop size rest)); [by rewrite Hpre, take_drop|rewrite length_take; lia|].
    intros Hnil. apply (f_equal length) in Hnil. rewrite length_drop in Hnil. cbn in Hnil. lia. }
  assert (Hsplit : rest = w1 ++ x :: (w2 ++ drop size rest)).
  { rewrite <- (take_drop size rest) at 1. by rewrite Htake, <- app_assoc. }
  pose proof Hrest as Hscan. apply scan_timeline_Forall2 in Hscan. rewrite Hsplit in Hscan.
  apply Forall2_app_inv_r in Hscan as (k1 & k2' & _ & (kv & k2 & Hkx & Hk2 & ->)%Forall2_cons_inv_r & Hrows).
  assert (Hkv : kv ∈ rows_of d).
  { assert (kv ∈ rows_after start (rows_of d)) as Hin by (rewrite Hrows; apply elem_of_app; right; left).
    destruct start; cbn [rows_after] in Hin; [by apply list_elem_of_filter in Hin as [_ ?]|done]. }
  destruct (td_rows _ _ _ Hw kv Hkv) as (Hnorm & _ & _).
  rewrite Hedges, end_cursor_snoc, (edge_cursor att kv x e Hkx Hnorm Hx), <- Hedges.
  assert (Hnull : nullableString (timeline_cursor kv) = Some (timeline_cursor kv)).
  { unfold nullableString. by rewrite (proj2 (String.eqb_neq _ _) (row_cursor_nonempty kv)). }
  rewrite Hnull. change (default "" (Some (timeline_cursor kv))) with (cursor_text (Some kv)).
  eapply reads_bind.
  - apply (IH (Some kv) (pre ++ w1 ++ [x]) (w2 ++ drop size rest)); [done| | |].
    + rewrite Hpre, Hsplit at 1. by rewrite <- !app_assoc.
    + rewrite (timeline_rest d start k1 kv k2 Hrows). by apply scan_timeline_Forall2.
    + apply (f_equal length) in Hsplit. rewrite length_app in Hsplit. cbn in Hsplit. lia.
  - intros es [= <-].
    assert (omap (edge att) rest = omap (edge att) (take size rest) ++ omap (edge att) (w2 ++ drop size rest)) as ->; [|apply reads_ret].
    rewrite omap_app, Hw2, app_nil_l, <- omap_app, take_drop. done.
  - done.
Qed.

(** C4. A client that reads a record timeline, passing on each page's end cursor while there
    is a next page, gets an edge for every dated record of the selected collections and
    authors that decodes, exactly once, newest first and ties by descending URI, whatever the
    page size (1 to 1000): a page's cursor holds the creation time the database compares with, to
    the millisecond. What this needs is that the creation times are of the years 1 to 9999, as is what
    PostgreSQL shows of them, that a PostgreSQL session's time zone is whole hours from UTC, that
    reading authors and profiles does not fail, and that the records that do not decode never
    fill a page that is not the last. Under faults the client gets that list or an error. *)
Theorem timeline_walk_complete d att records fuel :
  timeline_ready d att records → no_dead_timeline att records → length records < fuel →
  ReadsAs (timeline_walk unicode_nsid float64_ok fuel first wh "") d (Ok (omap (edge att) records)) ∧
  increasing id (row_lt newest) (rows_of d) ∧
  (∀ u r, (u, r) ∈ rows_of d ↔ db_records d !! u = Some r ∧ on_timeline authors collections (u, r)) ∧
  (rec_uri ∘ tr_record <$> records) = (rows_of d).*1.
Proof.
  intros Hw Hdead Hfuel. split_and!.
  - apply (timeline_walk_reads d att records fuel None [] records); try done. apply (td_records _ _ _ Hw).
  - apply increasing_filter, sorted_rows_increasing.
  - intros u r. unfold timeline_rows. rewrite list_elem_of_filter, elem_of_sorted_rows. tauto.
  - pose proof (td_records _ _ _ Hw) as Hs. apply scan_timeline_Forall2 in Hs.
    clear Hw Hdead Hfuel. induction Hs as [|kv r rows rs Hr _ IH]; [done|]. cbn. f_equal; [|exact IH].
    unfold scan_timeline in Hr. destruct (rkey_column kv.1), (row_record_created_at kv.2); try done. by injection Hr as <-.
Qed.
End reading.

(** ** A timeline, evaluated on both databases *)

#[local] Existing Instance byte_order.

#[local] Instance plain_json : JsonSql := {| json_valid := valid_json; json_each s := default [] (unmarshal_strings s) |}.
#[local] Instance plain_json_laws : JsonSqlLaws.
Proof.
  split. intros [|v vs] Hne; [done|]. cbn [json_each plain_json]. unfold unmarshal_strings.
  by rewrite json_parse_strings, mapM_strings.
Defined.

Definition far_future : string := "10000-01-01T12:00:00.000Z".

(** The instant of a stored time, as PostgreSQL compares it. *)
Definition stored_instant (c : string) : Z :=
  if (c =? far_future)%string then 253402344000000000000 else ParseTimestamp c.

Definition timeline_keys (dia : Dialect) : SortKeys := {|
  indexed_key := KNumber;
  created_key c := match dia with SQLite => KText c | PostgreSQL => KNumber (stored_instant c) end;
  created_text c := match dia with SQLite => c | PostgreSQL => pg_timestamp (-7) (stored_instant c) end;
  timestamp_cursor s := Some (KNumber (stored_instant s));
  Keyset.json_field _ _ := None;
  format_time := itoa;
  format_value _ := "";
|}.

Lemma stored_normal t : four_digit_year t → stored_instant (format_millis t) = (t / 1000000 * 1000000)%Z.
Proof.
  intros Ht. unfold stored_instant. destruct (String.eqb_spec (format_millis t) far_future) as [E|_].
  - exfalso. pose proof (parse_formatted t Ht) as Hp. rewrite E in Hp.
    assert (Hn : time_parse RFC3339Nano far_future = None) by (vm_compute; reflexivity). by rewrite Hn in Hp.
  - by apply ParseTimestamp_formatted.
Qed.

(** The session is seven hours behind UTC. *)
#[local] Instance timeline_laws dia : @TimelineLaws (example_env dia) (timeline_keys dia).
Proof.
  refine {| session_hours := λ _, (-7)%Z |}; intros t; [by split| |]; intros Ht; destruct dia; cbn [dialect example_env created_text timeline_keys]; try done.
  intros _. rewrite stored_normal by done. unfold pg_timestamp, local_time, moment_of.
  replace (-7 * 3600000000000)%Z with (-25200000 * 1000000)%Z by done. by rewrite !Z.div_add, Z.div_mul.
Defined.

Definition timeline_row (did collection json created : string) : row :=
  mkRow "c" did collection json 0 (Some created) StatusValid None None None.
Definition timeline_db (rows : list (string * row)) : db := mkDb (list_to_map rows) [] 1 ∅ ∅ 1 0 [] 1 ∅.

Definition post (k : string) : string := at_uri "did:a" "app.x.post" k.
Definition like (k : string) : string := at_uri "did:a" "app.x.like" k.

(** Two posts of one time, a like between, and rows of another author, of another collection
    and without a time. *)
Definition example_rows : list (string * row) := [
  (post "1", timeline_row "did:a" "app.x.post" "{}" "2024-01-01T00:00:00.500Z");
  (post "2", timeline_row "did:a" "app.x.post" "[]" "2024-01-02T00:00:00.000Z");
  (post "3", timeline_row "did:a" "app.x.post" "{}" "2024-01-02T00:00:00.000Z");
  (like "4", timeline_row "did:a" "app.x.like" "{}" "2024-01-01T12:00:00.000Z");
  (at_uri "did:b" "app.x.post" "5", timeline_row "did:b" "app.x.post" "{}" "2024-01-03T00:00:00.000Z");
  (at_uri "did:a" "app.x.other" "6", timeline_row "did:a" "app.x.other" "{}" "2024-01-04T00:00:00.000Z");
  (post "7", mkRow "c" "did:a" "app.x.post" "{}" 0 None StatusValid None None None)].

Definition in_collections (collections : list string) : argument := ArgMap [("in", ArgList (ArgString <$> collections))].
Definition posts_and_likes : argument := ArgMap [
  ("collection", in_collections [" app.x.post "; "app.x.like"; "app.x.post"]); ("did", ArgMap [("eq", ArgString "did:a")])].

Definition no_unicode (bytes : string) : bool := false.
Definition small_number (literal : string) : bool := negb (literal =? "1e400")%string.

Section evaluated.
Context (dia : Dialect).
#[local] Instance timeline_env_of : Env := example_env dia.
#[local] Instance timeline_keys_of : SortKeys := timeline_keys dia.
#[local] Existing Instance no_hydration.

Definition example_walk (first : Z) (fuel : nat) : M db (list Edge) :=
  timeline_walk no_unicode small_number fuel (ArgInt first) posts_and_likes "".

Definition edge_uris (o : outcome (list Edge)) : outcome (list (option json)) := (λ es : list Edge, (λ e, ed_node e !! "uri") <$> es) <$> o.

Definition normal_row_b (kv : string * row) : bool :=
  match row_record_created_at kv.2 with
  | Some c => bool_decide (four_digit_year (ParseTimestamp c)) && bool_decide (four_digit_year (local_time (-7) (ParseTimestamp c))) && (format_millis (ParseTimestamp c) =? c)%string
  | None => false
  end.

Lemma normal_row_check kv : normal_row_b kv = true → normal_row kv.
Proof.
  unfold normal_row_b, normal_row. destruct (row_record_created_at kv.2) as [c|] eqn:E; [|done].
  intros [[Hy%bool_decide_eq_true Hl%bool_decide_eq_true]%andb_prop Hf%String.eqb_eq]%andb_prop. exists (ParseTimestamp c). by rewrite Hf.
Qed.

Definition example_records : list RecordTimelineRecord :=
  match scanRecordTimelineRecords (timeline_rows (Some ["did:a"]) ["app.x.post"; "app.x.like"] (timeline_db example_rows)) with
  | Ok l => l | Err _ => [] end.
End evaluated.

Lemma example_ready dia :
  @timeline_ready (example_env dia) byte_order (timeline_keys dia) plain_json (timeline_laws dia) no_hydration no_unicode
    (ArgInt 1) posts_and_likes 1 ["app.x.post"; "app.x.like"] (Some ["did:a"]) (timeline_db example_rows) bare (example_records dia).
Proof.
  split.
  - reflexivity.
  - vm_compute. reflexivity.
  - repeat constructor.
  - intros kv Hkv.
    assert (Hall : forallb (λ kv, normal_row_b kv && valid_utf8 kv.1 && has_prefix "at://" kv.1)
      (@timeline_rows (example_env dia) byte_order (timeline_keys dia) plain_json (Some ["did:a"]) ["app.x.post"; "app.x.like"]
        (timeline_db example_rows)) = true) by (destruct dia; vm_compute; reflexivity).
    rewrite forallb_forall in Hall. apply list_elem_of_In, Hall in Hkv. apply andb_prop in Hkv as [[Hn Hv]%andb_prop Hp].
    split; [by apply normal_row_check|done].
  - destruct dia; vm_compute; reflexivity.
  - intros rs. exists (λ _ node, node). split; [|done]. repeat (eapply reads_bind; [apply reads_ret| |done]; intros ? [= <-]).
    apply reads_ret.
Qed.

(** Both databases: the like between the posts in its place, the posts of one time by URI. *)
Lemma timeline_walk_complete_witness :
  edge_uris (run (example_walk SQLite 1 6) (timeline_db example_rows)).1 =
    Ok (Some ∘ JString <$> [post "3"; post "2"; like "4"; post "1"]) ∧
  edge_uris (run (example_walk PostgreSQL 1 6) (timeline_db example_rows)).1 =
    Ok (Some ∘ JString <$> [post "3"; post "2"; like "4"; post "1"]).
Proof.
  enough (Hdia : ∀ dia, edge_uris (run (example_walk dia 1 6) (timeline_db example_rows)).1 =
    Ok (Some ∘ JString <$> [post "3"; post "2"; like "4"; post "1"])) by (split; apply Hdia).
  intros dia.
  destruct (@timeline_walk_complete (example_env dia) byte_order (timeline_keys dia) plain_json plain_json_laws (timeline_laws dia)
    no_hydration no_unicode small_number (ArgInt 1) posts_and_likes 1 ["app.x.post"; "app.x.like"] (Some ["did:a"])
    (timeline_db example_rows) bare (example_records dia) 6 (example_ready dia)) as [Hwalk _].
  - intros pre page post_ Hrec Hlen _. destruct page as [|r page]; [by vm_compute in Hlen|]. left.
    assert (Hall : forallb (λ r, bool_decide (is_Some (@timeline_edge (timeline_keys dia) small_number bare r))) (example_records dia) = true)
      by (destruct dia; vm_compute; reflexivity).
    rewrite forallb_forall in Hall. refine (proj1 (bool_decide_eq_true _) (Hall r _)). rewrite Hrec. apply list_elem_of_In.
    apply elem_of_app. right. by left.
  - destruct dia; vm_compute; lia.
  - apply reads_run in Hwalk. unfold example_walk, timeline_env_of, timeline_keys_of. rewrite Hwalk. destruct dia; vm_compute; reflexivity.
Defined.

(** A record whose JSON holds a number beyond float64 fills a page of one: the page has no
    edges and no end cursor but a next page, and the client starts over. *)
Example undecodable_record_restarts :
  (run (example_walk SQLite 1 20)
    (timeline_db ((post "8", timeline_row "did:a" "app.x.post" (quoted "{'n':1e400}") "2024-01-09T00:00:00.000Z") :: example_rows))).1
  = Err "out of fuel".
Proof. vm_compute. reflexivity. Qed.

(** On PostgreSQL a record of the year 10000 comes first, its time reads as the year 1, and
    nothing is after its cursor: the timeline ends with it. *)
Example far_future_hides_the_rest :
  edge_uris (run (example_walk PostgreSQL 1 20)
    (timeline_db ((post "8", timeline_row "did:a" "app.x.post" "{}" far_future) :: example_rows))).1
  = Ok [Some (JString (post "8"))].
Proof. vm_compute. reflexivity. Qed.

(** A documented collection that [IsValidNSID] refuses. *)
Example camel_case_refused :
  recordTimelineWhereArg no_unicode (ArgMap [("collection", in_collections ["org.hypercerts.claim.contributorInformation"])]) =
  Err "recordTimeline where.collection.in[0] must be a valid collection NSID".
Proof. vm_compute. reflexivity. Qed.
