(* ===== verification/WhereArg.v ===== *)
(** * Where arguments

    src/internal/graphql/schema/builder.go [extractFiltersWithExternalLabels] and what it
    calls: nested_filters.go (conditions on references, unions and array items, to a depth of
    three properties), collection_filter_extensions.go and the label predicates; and
    types/filters.go, the input of each scalar type. A [where] argument is turned into filters
    on fields, on the author and on labels. Then: the filters mean what the argument asks.

    Error texts leave out quoted names. What [%v] prints of a map is a parameter; the members
    of a map come in the order Go ranges over them. *)
From S2P Require Import Prelude GoStrings Json Effects Database Like RecordStore Lexicons Keyset Filters KeysetProps FilterProps LabelFilters KeysetSpec FilteredPages.

(** ** Arguments *)

Inductive where_value := WV (v : goval) | WMap (members : list (string * where_value)).
Notation members := (list (string * where_value)).

(** The value of a member, put through [f]; [d] when there is none. *)
Definition on_member {B} (name : string) (f : where_value → B) (d : B) : members → B :=
  fix go m := match m with [] => d | (n, x) :: rest => if (n =? name)%string then f x else go rest end.

Definition member_map (m : members) (name : string) : option members :=
  on_member name (λ x, match x with WMap m => Some m | WV _ => None end) None m.

(** ** Inputs of scalar types (types/filters.go), by name *)

Definition FilterInputForLexiconType (lexiconType format : string) : option string :=
  if (lexiconType =? "string")%string then Some (if (format =? "datetime")%string then "DateTimeFilterInput" else "StringFilterInput")
  else if (lexiconType =? "integer")%string then Some "IntFilterInput"
  else if (lexiconType =? "number")%string then Some "FloatFilterInput"
  else if (lexiconType =? "boolean")%string then Some "BooleanFilterInput"
  else None.

Definition ExactFilterInputForLexiconType (lexiconType format : string) : option string :=
  if (lexiconType =? "string")%string then Some (if (format =? "datetime")%string then "ExactDateTimeFilterInput" else "ExactStringFilterInput")
  else if (lexiconType =? "integer")%string then Some "ExactIntFilterInput"
  else if (lexiconType =? "number")%string then Some "ExactFloatFilterInput"
  else if (lexiconType =? "boolean")%string then Some "ExactBooleanFilterInput"
  else None.

Definition prop_type (p : Property) : string := pb_Type (body p).
Definition prop_format (p : Property) : string := pb_Format (body p).

Definition nestedPropertyFilterType (p : Property) : string :=
  default (prop_type p) (ExactFilterInputForLexiconType (prop_type p) (prop_format p)).

Definition scalarFieldType (p : Property) : string :=
  match ExactFilterInputForLexiconType (prop_type p) (prop_format p) with
  | None => ""
  | Some _ => if (prop_format p =? "datetime")%string then "datetime" else prop_type p
  end.

(** ** Nested conditions (nested_filters.go) *)

Definition nestedFilterMaxLexiconDepth : nat := 3.

Section nested.
Context (print_map : members → string) (contextLexiconID : string) (registry : Registry).

(** The value of an operator: [None] for [nil]. *)
Definition op_value (x : where_value) : option goval :=
  match x with WV GNil => None | WV v => Some v | WMap m => Some (GOther (print_map m)) end.
Definition member_value (m : members) (name : string) : option goval := on_member name op_value None m.

Definition def_properties (def : ObjectDef + RecordDef) : list (string * Property) :=
  match def with inl o => od_Properties o | inr r => rd_Properties r end.

Definition findPropertyEntry (properties : list (string * Property)) (fieldName : string) : option Property :=
  property_named properties fieldName.

Fixpoint findUnionNestedProperty (refs : list string) (fieldName : string) (found : option Property) : option Property :=
  match refs with
  | [] => found
  | ref :: rest =>
      match ResolveRef registry ref contextLexiconID with
      | None => findUnionNestedProperty rest fieldName found
      | Some def =>
          match findPropertyEntry (def_properties def) fieldName with
          | None => findUnionNestedProperty rest fieldName found
          | Some prop =>
              match found with
              | Some f =>
                  if negb (nestedPropertyFilterType f =? nestedPropertyFilterType prop)%string then None
                  else findUnionNestedProperty rest fieldName (Some prop)
              | None => findUnionNestedProperty rest fieldName (Some prop)
              end
          end
      end
  end.

(** The property a nested field of a reference or union is: [None] for a field to skip. *)
Definition child_property (prop : Property) (nestedField : string) : option Property :=
  if (prop_type prop =? "ref")%string then
    def ← ResolveRef registry (pb_Ref (body prop)) contextLexiconID; findPropertyEntry (def_properties def) nestedField
  else if (prop_type prop =? "union")%string then findUnionNestedProperty (pb_Refs (body prop)) nestedField None
  else None.

Definition item_property (items : ArrayItems) : Property :=
  mkProperty (mkBody (ai_Type items) false "" (ai_Ref items) (ai_Refs items) None "" None None None None None [] None []) None.

(** The loops over the members of a reference's or a union's map. *)
Definition collect_members {A} (f : string → where_value → outcome (list A)) : members → outcome (list A) :=
  fix go m := match m with [] => Ok [] | (n, x) :: rest => a ← f n x; b ← go rest; mret (a ++ b) end.

Fixpoint extractNestedPropertyFiltersAtPath (filter : where_value) (fieldName : string) (prop : Property)
    (jsonPath arrayPath : list string) (depth : nat) {struct filter} : outcome (list FieldFilter) :=
  match filter with
  | WV _ => Ok []
  | WMap filterMap =>
      let condition op ty v := mkFilter fieldName jsonPath arrayPath op v ty "" in
      let filters := option_list (condition "isNull" (prop_type prop) <$> member_value filterMap "isNull") in
      let scalarType := scalarFieldType prop in
      if negb (scalarType =? "")%string then
        Ok (filters ++ omap (λ op, condition op scalarType <$> member_value filterMap op) ["eq"; "in"])
      else if (nestedFilterMaxLexiconDepth <=? depth) && negb (prop_type prop =? "array")%string then Ok filters
      else if (prop_type prop =? "array")%string then
        on_member "any" (λ x,
          match x, pb_Items (body prop) with
          | WMap _, Some items =>
              if negb (bool_decide (arrayPath = []))
              then Err "nested array any filters inside another array any are not supported"
              else
                anyFilters ← extractNestedPropertyFiltersAtPath x fieldName (item_property items) [] jsonPath depth;
                mret (filters ++ anyFilters)
          | _, _ => Ok filters
          end) (Ok filters) filterMap
      else
        childFilters ← collect_members (λ nestedField x,
          match x with
          | WV _ => Ok []
          | WMap _ =>
              if (nestedField =? "isNull")%string then Ok []
              else match child_property prop nestedField with
              | None => Ok []
              | Some child =>
                  if nestedFilterMaxLexiconDepth <? depth + 1 then Ok []
                  else extractNestedPropertyFiltersAtPath x fieldName child (jsonPath ++ [nestedField]) arrayPath (depth + 1)
              end
          end) filterMap;
        mret (filters ++ childFilters)
  end.

Definition extractNestedPropertyFilters (fieldName : string) (prop : Property) (filterMap : members) : outcome (list FieldFilter) :=
  extractNestedPropertyFiltersAtPath (WMap filterMap) fieldName prop [fieldName] [] 1.
End nested.

(** ** Label predicates *)

Definition labelOperators : list string := ["eq"; "neq"; "in"; "contains"; "startsWith"; "isNull"].

Section where_arg.
Context (print_map : members → string).

Definition extractExternalLabelStringFilters (filterMap : members) : outcome (list ExternalLabelStringFilter) :=
  collect_members (λ op x,
    match op_value print_map x with
    | None => Ok []
    | Some v => if bool_decide (op ∈ labelOperators) then Ok [mkLabelString op v] else Err "unsupported operator"
    end) filterMap.

Definition label_filters (predicateMap : members) (name : string) : outcome (list ExternalLabelStringFilter) :=
  match member_map predicateMap name with
  | Some m => wrap_err ("invalid " +:+ name +:+ " filter") (extractExternalLabelStringFilters m)
  | None => Ok []
  end.

Definition extractExternalLabelPredicate (predicateMap : members) : outcome ExternalLabelPredicate :=
  let activeOnly := on_member "activeOnly" (λ x, match x with WV (GBool b) => b | _ => true end) true predicateMap in
  sources ← label_filters predicateMap "src";
  values ← label_filters predicateMap "val";
  mret (mkLabelPredicate sources values activeOnly).

Definition label_predicate (fieldName : string) (filterMap : members) (name : string) : outcome (option ExternalLabelPredicate) :=
  match member_map filterMap name with
  | Some m => p ← wrap_err ("invalid " +:+ fieldName +:+ "." +:+ name +:+ " filter") (extractExternalLabelPredicate m); mret (Some p)
  | None => Ok None
  end.

Definition extractExternalLabelRecordFilter (fieldName : string) (filterMap : members) : outcome ExternalLabelRecordFilter :=
  has ← label_predicate fieldName filterMap "has";
  none ← label_predicate fieldName filterMap "none";
  mret (mkLabelFilter has none).

(** ** Collection extensions (collection_filter_extensions.go) *)

Record collectionFilterExtension := mkExtension {
  ext_Collection : string;
  ext_Field : string;
  ext_FieldType : string;
  ext_Target : string;
}.

Definition collectionFilterExtensions : list collectionFilterExtension := [
  mkExtension "org.hypercerts.claim.activity" "contributorDid" "string" FieldFilterTargetContributorDID;
  mkExtension "app.certified.badge.award" "badgeType" "string" FieldFilterTargetBadgeAwardBadgeType].

Definition collectionFilterExtensionForField (collection field : string) : option collectionFilterExtension :=
  head (filter (λ e, ext_Collection e = collection ∧ ext_Field e = field) collectionFilterExtensions).

(** Every operator of a map, as a filter. *)
Definition operator_filters (field ty target : string) (filterMap : members) : list FieldFilter :=
  omap (λ m : string * where_value, (λ v, mkFilter field [] [] m.1 v ty target) <$> op_value print_map m.2) filterMap.

Definition extractCollectionFilterExtensionFilters (extension : collectionFilterExtension) (filterMap : members) : list FieldFilter :=
  operator_filters (ext_Field extension) (ext_FieldType extension) (ext_Target extension) filterMap.

(** ** The argument *)

Definition MaxFilterConditions : nat := 20.

Definition no_label_filter : ExternalLabelRecordFilter := mkLabelFilter None None.

Definition nonempty_string (v : goval) : option string :=
  match v with GString s => if (s =? "")%string then None else Some s | _ => None end.

Definition extract_did (filterMap : members) (did : DIDFilter) : DIDFilter :=
  let eq := default (did_EQ did) (on_member "eq" (λ x, match x with WV v => nonempty_string v | _ => None end) None filterMap) in
  let added := on_member "in" (λ x, match x with WV (GList vs) => omap nonempty_string vs | _ => [] end) [] filterMap in
  mkDID eq (did_IN did ++ added).

Context (lexiconID : string) (registry : Registry).

(** The filters of a field of the record: of its URI, of a property or of a name the Lexicon does not have. *)
Definition field_filters (fieldName : string) (filterMap : members) : outcome (list FieldFilter) :=
  if (fieldName =? "uri")%string then Ok (operator_filters fieldName "string" FieldFilterTargetColumn filterMap)
  else match (recordDef ← GetRecordDef registry lexiconID; property_named (rd_Properties recordDef) fieldName) with
  | None => Ok (operator_filters fieldName "string" FieldFilterTargetJSON filterMap)
  | Some prop =>
      match FilterInputForLexiconType (prop_type prop) (prop_format prop) with
      | None => extractNestedPropertyFilters print_map lexiconID registry fieldName prop filterMap
      | Some _ =>
          let fieldType := if (prop_format prop =? "datetime")%string then "datetime" else prop_type prop in
          Ok (operator_filters fieldName fieldType FieldFilterTargetJSON filterMap)
      end
  end.

(** What an argument has been turned into so far. *)
Record extracted := mkExtracted { ex_filters : list FieldFilter; ex_did : DIDFilter; ex_labels : ExternalLabelFilterSet }.

Definition extract_member (st : extracted) (fieldName : string) (filterMap : members) : outcome extracted :=
  if (fieldName =? "did")%string then Ok (mkExtracted (ex_filters st) (extract_did filterMap (ex_did st)) (ex_labels st))
  else if (fieldName =? "externalLabels")%string then
    f ← extractExternalLabelRecordFilter fieldName filterMap;
    mret (mkExtracted (ex_filters st) (ex_did st) (mkLabelSet f (lfs_Author (ex_labels st))))
  else if (fieldName =? "authorLabels")%string then
    f ← extractExternalLabelRecordFilter fieldName filterMap;
    mret (mkExtracted (ex_filters st) (ex_did st) (mkLabelSet (lfs_Record (ex_labels st)) f))
  else match collectionFilterExtensionForField lexiconID fieldName with
  | Some extension =>
      Ok (mkExtracted (ex_filters st ++ extractCollectionFilterExtensionFilters extension filterMap) (ex_did st) (ex_labels st))
  | None =>
      fs ← field_filters fieldName filterMap;
      mret (mkExtracted (ex_filters st ++ fs) (ex_did st) (ex_labels st))
  end.

Fixpoint extract_members (st : extracted) (whereMap : members) : outcome extracted :=
  match whereMap with
  | [] => Ok st
  | (fieldName, x) :: rest =>
      st ← match x with WMap filterMap => extract_member st fieldName filterMap | WV _ => Ok st end;
      extract_members st rest
  end.

Definition nothing_extracted : extracted := mkExtracted [] (mkDID "" []) (mkLabelSet no_label_filter no_label_filter).

Definition extractFiltersWithExternalLabels (whereArg : where_value)
    : outcome (list FieldFilter * DIDFilter * ExternalLabelFilterSet) :=
  match whereArg with
  | WV _ | WMap [] => Ok ([], mkDID "" [], mkLabelSet no_label_filter no_label_filter)
  | WMap whereMap =>
      st ← extract_members nothing_extracted whereMap;
      if MaxFilterConditions <? length (ex_filters st)
      then Err ("too many filter conditions: " +:+ itoa (Z.of_nat (length (ex_filters st))) +:+ " (maximum "
        +:+ itoa (Z.of_nat MaxFilterConditions) +:+ ")")
      else Ok (ex_filters st, ex_did st, ex_labels st)
  end.
End where_arg.

(** ** What an argument asks of a record *)

(** The conjunction of what the members of a map ask; [None] asks nothing. *)
Definition both (a b : option bool) : option bool :=
  match a, b with None, x | x, None => x | Some a, Some b => Some (a && b) end.
Definition all_members (f : string → where_value → option bool) : members → option bool :=
  fix go m := match m with [] => None | (n, x) :: rest => both (f n x) (go rest) end.

Section meaning.
Context `{Env} `{SqlFunctions} (print_map : members → string) (contextLexiconID : string) (registry : Registry).

(** An operator applied to a value of a type. *)
Definition asks_value (op ty : string) (v : goval) (x : Value) : bool := value_matches (mkFilter "" [] [] op v ty "") x.

(** What a nested map asks of the value of a property: [read] reads a path below the record, or
    below the item of an array; [elements] are the items of the array at a path, outside of
    arrays. *)
Fixpoint nested_asks (filter : where_value) (prop : Property) (read : list string → Value)
    (elements : list string → list string) (path : list string) (depth : nat) {struct filter} : option bool :=
  match filter with
  | WV _ => None
  | WMap m =>
      let ask op ty := (λ v, asks_value op ty v (read path)) <$> member_value print_map m op in
      both (ask "isNull" (prop_type prop))
        (if negb (scalarFieldType prop =? "")%string then both (ask "eq" (scalarFieldType prop)) (ask "in" (scalarFieldType prop))
         else if (prop_type prop =? "array")%string then
           on_member "any" (λ x, match pb_Items (body prop) with
             | Some items =>
                 let item e := nested_asks x (item_property items) (element_at e) (λ _, []) [] depth in
                 (λ _, existsb (λ e, default true (item e)) (elements path)) <$> item ""
             | None => None end) None m
         else if nestedFilterMaxLexiconDepth <=? depth then None
         else all_members (λ n x,
           if (n =? "isNull")%string then None
           else match child_property contextLexiconID registry prop n with
           | Some child => nested_asks x child read elements (path ++ [n]) (depth + 1)
           | None => None end) m)
  end.

(** Every operator of a map, applied to a value. *)
Definition operators_ask (ty : string) (x : Value) (m : members) : option bool :=
  all_members (λ op v, (λ v, asks_value op ty v x) <$> op_value print_map v) m.

(** What a field's map asks of a record. *)
Definition field_asks (d : db) (u : string) (r : row) (fieldName : string) (x : where_value) : option bool :=
  match x with
  | WV _ => None
  | WMap m =>
      if bool_decide (fieldName ∈ ["did"; "externalLabels"; "authorLabels"]) then None
      else match collectionFilterExtensionForField contextLexiconID fieldName with
      | Some e =>
          if (ext_Target e =? FieldFilterTargetContributorDID)%string then
            all_members (λ op v, (λ v, contributor_matches (mkFilter (ext_Field e) [] [] op v (ext_FieldType e) (ext_Target e)) d r)
              <$> op_value print_map v) m
          else operators_ask (ext_FieldType e) (badge_type d r) m
      | None =>
          if (fieldName =? "uri")%string then operators_ask "string" (TextValue u) m
          else
            let value := json_at (row_json r) [fieldName] in
            match (recordDef ← GetRecordDef registry contextLexiconID; property_named (rd_Properties recordDef) fieldName) with
            | None => operators_ask "string" value m
            | Some prop =>
                match FilterInputForLexiconType (prop_type prop) (prop_format prop) with
                | None => nested_asks (WMap m) prop (json_at (row_json r)) (json_array (row_json r)) [fieldName] 1
                | Some _ => operators_ask (if (prop_format prop =? "datetime")%string then "datetime" else prop_type prop) value m
                end
            end
      end
  end.

(** What the author's map asks: an [eq] decides alone; an empty [in] asks nothing. *)
Definition did_asks (r : row) (x : where_value) : option bool :=
  match x with
  | WV _ => None
  | WMap m =>
      match on_member "eq" (λ x, match x with WV v => nonempty_string v | _ => None end) None m with
      | Some s => Some (row_did r =? s)%string
      | None =>
          match on_member "in" (λ x, match x with WV (GList vs) => omap nonempty_string vs | _ => [] end) [] m with
          | [] => None
          | dids => Some (bool_decide (row_did r ∈ dids))
          end
      end
  end.

(** The conditions on the source or the text of a label. *)
Definition label_texts (predicateMap : members) (name : string) : list ExternalLabelStringFilter :=
  match member_map predicateMap name with
  | Some m => omap (λ nx : string * where_value, mkLabelString nx.1 <$> op_value print_map nx.2) m
  | None => []
  end.

(** A label on the subject that meets the conditions; only standing ones unless [activeOnly] is false. *)
Definition some_label (subject : externalLabelSubject) (m : members) : db → string → row → bool :=
  has_label subject (mkLabelPredicate (label_texts m "src") (label_texts m "val")
    (on_member "activeOnly" (λ x, match x with WV (GBool b) => b | _ => true end) true m)).

Definition label_asks (subject : externalLabelSubject) (d : db) (u : string) (r : row) (x : where_value) : option bool :=
  match x with
  | WV _ => None
  | WMap m => both ((λ p, some_label subject p d u r) <$> member_map m "has")
                   ((λ p, negb (some_label subject p d u r)) <$> member_map m "none")
  end.

Definition where_asks (d : db) (u : string) (r : row) (x : where_value) : option bool :=
  match x with
  | WV _ => None
  | WMap m =>
      both (all_members (field_asks d u r) m)
        (both (on_member "did" (did_asks r) None m)
          (both (on_member "externalLabels" (label_asks externalLabelSubjectRecord d u r) None m)
            (on_member "authorLabels" (label_asks externalLabelSubjectAuthor d u r) None m)))
  end.
End meaning.

(** ** Lists of members *)

Lemma where_value_nested (P : where_value → Prop) :
  (∀ v, P (WV v)) → (∀ m, Forall (λ nx, P nx.2) m → P (WMap m)) → ∀ x, P x.
Proof.
  intros HV HM. fix IH 1. intros [v|m]; [apply HV|]. apply HM. induction m as [|[n x] m IHm]; constructor; [apply IH|done].
Qed.

(** Names are distinct at every level, as in any Go map. *)
Fixpoint distinct_names (x : where_value) : Prop :=
  match x with
  | WV _ => True
  | WMap m => NoDup m.*1 ∧ (fix go (m : members) := match m with [] => True | (_, x) :: rest => distinct_names x ∧ go rest end) m
  end.

Lemma distinct_map m : distinct_names (WMap m) ↔ NoDup m.*1 ∧ Forall (λ nx, distinct_names nx.2) m.
Proof.
  cbn. apply and_iff_compat_l. induction m as [|[n x] m IH]; [by split|]. by rewrite Forall_cons, IH.
Qed.

Lemma on_member_some {B} name (f : where_value → B) d m :
  on_member name f d m = from_option f d (on_member name Some None m).
Proof. induction m as [|[n x] m IH]; [done|]. cbn. by destruct (n =? name)%string. Qed.

Lemma on_member_in name m x : on_member name Some None m = Some x → (name, x) ∈ m.
Proof.
  induction m as [|[n y] m IH]; [done|]. cbn. destruct (String.eqb_spec n name) as [->|]; intros Hx.
  - simplify_eq. left.
  - right. by apply IH.
Qed.

Lemma on_member_absent {B} name (f : where_value → B) d m : name ∉ m.*1 → on_member name f d m = d.
Proof.
  induction m as [|[n x] m IH]; [done|]. cbn. rewrite not_elem_of_cons. intros [Hn ?].
  destruct (String.eqb_spec n name) as [->|]; [done|by apply IH].
Qed.

(** ** Filters as conjunctions *)

(** What a list of filters asks: nothing when it is empty. *)
Definition asked (t : FieldFilter → bool) (fs : list FieldFilter) : option bool :=
  match fs with [] => None | _ => Some (forallb t fs) end.

Lemma asked_all t fs : default true (asked t fs) = forallb t fs.
Proof. by destruct fs. Qed.

Lemma asked_app t fs gs : asked t (fs ++ gs) = both (asked t fs) (asked t gs).
Proof.
  destruct fs as [|f fs]; [done|]. cbn. rewrite forallb_app.
  destruct gs as [|g gs]; cbn; [by rewrite !andb_true_r|]. by rewrite andb_assoc.
Qed.

Lemma asked_option t {A} (f : A → FieldFilter) o : asked t (option_list (f <$> o)) = (λ v, t (f v)) <$> o.
Proof. destruct o; [cbn; by rewrite andb_true_r|done]. Qed.

Lemma both_None_r o : both o None = o.
Proof. by destruct o. Qed.

Lemma both_default a b : default true (both a b) = default true a && default true b.
Proof. destruct a as [a|], b as [b|]; cbn; by rewrite ?andb_true_r. Qed.

(** The filters on the items of the array at [path]. *)
Definition on_items (path : list string) (g : FieldFilter) : Prop := isArrayAnyFilter g = true ∧ ff_ArrayPath g = path.
#[export] Instance on_items_dec path g : Decision (on_items path g).
Proof. unfold on_items. apply _. Defined.

(** [fs] has every filter that [all] has on the arrays [fs] is about. *)
Definition closed_in (fs all : list FieldFilter) : Prop :=
  ∀ g, g ∈ fs → isArrayAnyFilter g = true → filter (on_items (ff_ArrayPath g)) all = filter (on_items (ff_ArrayPath g)) fs.

Definition disjoint_arrays (fs gs : list FieldFilter) : Prop :=
  ∀ f g, f ∈ fs → g ∈ gs → isArrayAnyFilter f = true → isArrayAnyFilter g = true → ff_ArrayPath f ≠ ff_ArrayPath g.

Lemma closed_app fs gs all : disjoint_arrays fs gs → closed_in (fs ++ gs) all → closed_in fs all ∧ closed_in gs all.
Proof.
  intros Hd Hc. split; intros g Hg Ha; rewrite (Hc g), filter_app by (rewrite ?elem_of_app; auto).
  - rewrite (filter_none _ gs), app_nil_r; [done|]. apply Forall_forall. intros h Hh [? He]. by eapply (Hd g h).
  - rewrite (filter_none _ fs); [done|]. apply Forall_forall. intros h Hh [? He]. by eapply (Hd h g).
Qed.

(** The arrays a list of filters is about are below a path. *)
Definition below (path : list string) (fs : list FieldFilter) : Prop :=
  ∀ g, g ∈ fs → isArrayAnyFilter g = true → path `prefix_of` ff_ArrayPath g.

Lemma below_app path fs gs : below path fs → below path gs → below path (fs ++ gs).
Proof. intros Hf Hg g [?|?]%elem_of_app ?; auto. Qed.

Lemma below_disjoint path n (names : list string) fs gs :
  n ∉ names → below (path ++ [n]) fs →
  (∀ g, g ∈ gs → isArrayAnyFilter g = true → ∃ k, k ∈ names ∧ (path ++ [k]) `prefix_of` ff_ArrayPath g) → disjoint_arrays fs gs.
Proof.
  intros Hn Hf Hg f g Hin Hin' Ha Ha' He. destruct (Hg g Hin' Ha') as (k & Hk & [l' Hl']).
  destruct (Hf f Hin Ha) as [l Hl]. rewrite <- He, Hl, <- !app_assoc in Hl'. apply app_inv_head in Hl'. cbn in Hl'. naive_solver.
Qed.

Lemma collect_cons (f : string → where_value → outcome (list FieldFilter)) n x m fs :
  collect_members f ((n, x) :: m) = Ok fs → ∃ a b, f n x = Ok a ∧ collect_members f m = Ok b ∧ fs = a ++ b.
Proof.
  cbn. destruct (f n x) as [a|]; cbn; [|done]. destruct (collect_members f m) as [b|]; cbn; [|done]. intros [= <-]. by exists a, b.
Qed.

Lemma collect_names path (f : string → where_value → outcome (list FieldFilter)) m fs :
  (∀ n x gs, (n, x) ∈ m → f n x = Ok gs → below (path ++ [n]) gs) → collect_members f m = Ok fs →
  ∀ g, g ∈ fs → isArrayAnyFilter g = true → ∃ k, k ∈ m.*1 ∧ (path ++ [k]) `prefix_of` ff_ArrayPath g.
Proof.
  revert fs. induction m as [|[n x] m IH]; intros fs Hb Hc g Hg Ha; [injection Hc as <-; by apply elem_of_nil in Hg|].
  apply collect_cons in Hc as (a & b & Hf & Hc & ->). apply elem_of_app in Hg as [Hg|Hg].
  - exists n. split; [left|]. eapply Hb; [left|done|done|done].
  - destruct (IH b (λ n x gs Hin, Hb n x gs (list_elem_of_further _ _ _ Hin)) Hc g Hg Ha) as (k & ? & ?).
    exists k. split; [by right|done].
Qed.

Lemma collect_below path (f : string → where_value → outcome (list FieldFilter)) m fs :
  (∀ n x gs, (n, x) ∈ m → f n x = Ok gs → below (path ++ [n]) gs) → collect_members f m = Ok fs → below path fs.
Proof.
  intros Hb Hc g Hg Ha. destruct (collect_names path f m fs Hb Hc g Hg Ha) as (k & _ & l & ->).
  exists (k :: l). by rewrite <- app_assoc.
Qed.

(** Filters collected member by member ask what each member asks; the items of arrays are
    told apart when [P] holds. *)
Lemma collect_asks (P : Prop) t all path (f : string → where_value → outcome (list FieldFilter)) asks m fs :
  (P → ∀ n x gs, (n, x) ∈ m → f n x = Ok gs → below (path ++ [n]) gs) →
  (∀ n x gs, (n, x) ∈ m → f n x = Ok gs → (P → closed_in gs all) → asked t gs = asks n x) →
  NoDup m.*1 → collect_members f m = Ok fs → (P → closed_in fs all) → asked t fs = all_members asks m.
Proof.
  revert fs. induction m as [|[n x] m IH]; intros fs Hb Ha Hnd Hc Hcl; [by injection Hc as <-|].
  apply collect_cons in Hc as (a & b & Hf & Hc & ->). cbn in Hnd. apply NoDup_cons in Hnd as [Hn Hnd].
  assert (Hb' : P → ∀ k y gs, (k, y) ∈ m → f k y = Ok gs → below (path ++ [k]) gs) by (intros; eapply Hb; [done|by right|done]).
  assert (Hcl' : P → closed_in a all ∧ closed_in b all).
  { intros HP. apply closed_app; [|by apply Hcl]. eapply below_disjoint; [exact Hn|eapply Hb; [done|left|done]|].
    eapply collect_names; [by apply Hb'|done]. }
  rewrite asked_app. cbn. f_equal; [eapply Ha; [left|done|naive_solver]|]. eapply IH; [done| |done|done|naive_solver].
  intros; eapply Ha; [by right|done|done].
Qed.

Lemma collect_Forall (Q : FieldFilter → Prop) (f : string → where_value → outcome (list FieldFilter)) m fs :
  (∀ n x gs, (n, x) ∈ m → f n x = Ok gs → Forall Q gs) → collect_members f m = Ok fs → Forall Q fs.
Proof.
  revert fs. induction m as [|[n x] m IH]; intros fs Hf Hc; [by injection Hc as <-|].
  apply collect_cons in Hc as (a & b & Hfx & Hc & ->). apply Forall_app. split; [eapply Hf; [left|done]|].
  eapply IH; [|done]. intros; eapply Hf; [by right|done].
Qed.

(** ** Nested conditions mean what they ask *)

Section nested_means.
Context `{Env} `{SqlFunctions} (print_map : members → string) (contextLexiconID : string) (registry : Registry) (fieldName : string).
Notation extract := (λ x, extractNestedPropertyFiltersAtPath print_map contextLexiconID registry x fieldName).
Notation asks := (nested_asks print_map contextLexiconID registry).
Notation child := (child_property contextLexiconID registry).

Definition condition (jp ap : list string) (ty op : string) (m : members) : list FieldFilter :=
  option_list ((λ v, mkFilter fieldName jp ap op v ty "") <$> member_value print_map m op).

(** The function called for each member of a reference's or a union's map. *)
Definition child_filters (prop : Property) (jp ap : list string) (depth : nat) (n : string) (x : where_value) : outcome (list FieldFilter) :=
  match x with
  | WV _ => Ok []
  | WMap _ =>
      if (n =? "isNull")%string then Ok []
      else match child prop n with
      | None => Ok []
      | Some c => if nestedFilterMaxLexiconDepth <? depth + 1 then Ok [] else extract x c (jp ++ [n]) ap (depth + 1)
      end
  end.

Definition is_scalar (prop : Property) : bool := negb (scalarFieldType prop =? "")%string.
Definition is_array (prop : Property) : bool := (prop_type prop =? "array")%string.

(** The ways the extraction of a map ends. *)
Inductive extracted_as (m : members) (prop : Property) (jp ap : list string) (depth : nat) : list FieldFilter → Prop :=
  | as_scalar : is_scalar prop = true →
      extracted_as m prop jp ap depth (condition jp ap (scalarFieldType prop) "eq" m ++ condition jp ap (scalarFieldType prop) "in" m)
  | as_leaf : is_scalar prop = false → is_array prop = false → nestedFilterMaxLexiconDepth ≤ depth → extracted_as m prop jp ap depth []
  | as_no_any : is_scalar prop = false → is_array prop = true →
      (∀ x, on_member "any" Some None m = Some (WMap x) → pb_Items (body prop) = None) → extracted_as m prop jp ap depth []
  | as_any x items gs : is_scalar prop = false → is_array prop = true → on_member "any" Some None m = Some (WMap x) →
      pb_Items (body prop) = Some items → ap = [] → extract (WMap x) (item_property items) [] jp depth = Ok gs →
      extracted_as m prop jp ap depth gs
  | as_children gs : is_scalar prop = false → is_array prop = false → depth < nestedFilterMaxLexiconDepth →
      collect_members (child_filters prop jp ap depth) m = Ok gs → extracted_as m prop jp ap depth gs.

Lemma Ok_inj {A} (x y : A) : Ok x = Ok y → x = y.
Proof. by injection 1. Qed.

Lemma scalar_conditions jp ap ty m :
  omap (λ op, (λ v, mkFilter fieldName jp ap op v ty "") <$> member_value print_map m op) ["eq"; "in"]
  = condition jp ap ty "eq" m ++ condition jp ap ty "in" m.
Proof.
  unfold condition. cbn [omap list_omap]. by destruct (member_value print_map m "eq"), (member_value print_map m "in").
Qed.

Lemma extract_inv m prop jp ap depth fs :
  extract (WMap m) prop jp ap depth = Ok fs →
  ∃ gs, fs = condition jp ap (prop_type prop) "isNull" m ++ gs ∧ extracted_as m prop jp ap depth gs.
Proof.
  cbn -[child_property nestedFilterMaxLexiconDepth member_value list_omap omap]. destruct (negb (scalarFieldType prop =? "")%string) eqn:Es.
  { intros <-%Ok_inj. rewrite scalar_conditions. eexists. split; [done|]. by apply as_scalar. }
  destruct (prop_type prop =? "array")%string eqn:Ea.
  - rewrite andb_false_r, on_member_some. destruct (on_member "any" Some None m) as [[v|x]|] eqn:Ex; cbn [from_option];
      try (intros <-%Ok_inj; exists []; rewrite app_nil_r; split; [done|];
        apply as_no_any; [done|done|]; intros ? Hx; by rewrite Ex in Hx).
    destruct (pb_Items (body prop)) as [items|] eqn:Ei.
    + case_bool_decide as Hap; cbn [negb]; [|done].
      destruct (extract (WMap x) (item_property items) [] jp depth) as [gs|] eqn:Eg; cbn [mbind outcome_bind]; [|done]. intros <-%Ok_inj. exists gs. split; [done|]. by eapply as_any.
    + intros <-%Ok_inj. exists []. rewrite app_nil_r. split; [done|]. apply as_no_any; [done|done|]. by intros.
  - rewrite andb_true_r. destruct (nestedFilterMaxLexiconDepth <=? depth) eqn:Ed.
    + intros <-%Ok_inj. exists []. rewrite app_nil_r. split; [done|]. apply as_leaf; [done|done|]. by apply Nat.leb_le.
    + intros Hok. assert (Hc : (gs ← collect_members (child_filters prop jp ap depth) m;
        mret (condition jp ap (prop_type prop) "isNull" m ++ gs)) = Ok fs) by exact Hok. revert Hc. clear Hok.
      destruct (collect_members (child_filters prop jp ap depth) m) as [gs|] eqn:Eg; cbn [mbind outcome_bind]; [|done].
      intros <-%Ok_inj. exists gs. split; [done|]. apply as_children; [done|done|by apply Nat.leb_gt|done].
Qed.

Lemma child_inv prop jp ap depth n x fs : child_filters prop jp ap depth n x = Ok fs → depth < nestedFilterMaxLexiconDepth →
  (fs = [] ∧ (n = "isNull" ∨ (∃ v, x = WV v) ∨ child prop n = None)) ∨
  (∃ c, n ≠ "isNull" ∧ child prop n = Some c ∧ extract x c (jp ++ [n]) ap (depth + 1) = Ok fs).
Proof.
  unfold child_filters. intros Hf Hd. destruct x as [v|m]; [apply Ok_inj in Hf as <-; left; split; [done|]; eauto|].
  destruct (String.eqb_spec n "isNull") as [->|Hn]; [apply Ok_inj in Hf as <-; left; split; [done|]; auto|].
  destruct (child prop n) as [c|]; [|apply Ok_inj in Hf as <-; auto].
  destruct (Nat.ltb_spec nestedFilterMaxLexiconDepth (depth + 1)); [lia|]. eauto.
Qed.

(** Where the filters of a map are: below the path they were asked at, or on the items of the array they were asked in. *)
Definition placed (jp ap : list string) (g : FieldFilter) : Prop :=
  ff_Target g = "" ∧ if decide (ap = []) then isArrayAnyFilter g = true → jp `prefix_of` ff_ArrayPath g else ff_ArrayPath g = ap.

Lemma condition_placed jp ap ty op m : Forall (placed jp ap) (condition jp ap ty op m).
Proof.
  unfold condition. destruct (member_value print_map m op); [|constructor]. repeat constructor. cbn.
  destruct (decide (ap = [])) as [->|]; [|done]. by cbn.
Qed.

Lemma placed_deeper jp n ap g : placed (jp ++ [n]) ap g → placed jp ap g.
Proof.
  intros [Ht Hp]. split; [done|]. destruct (decide (ap = [])); [|done]. intros Ha. destruct (Hp Ha) as [l Hl].
  exists (n :: l). by rewrite Hl, <- app_assoc.
Qed.

Lemma extract_placed x prop jp ap depth fs : extract x prop jp ap depth = Ok fs → Forall (placed jp ap) fs.
Proof.
  revert prop jp ap depth fs. induction x as [v|m IH] using where_value_nested; intros prop jp ap depth fs Hex.
  { apply Ok_inj in Hex as <-. constructor. }
  apply extract_inv in Hex as (gs & -> & Hgs). apply Forall_app. split; [apply condition_placed|].
  destruct Hgs as [Hs|Hs Ha Hd|Hs Ha Hx|x items gs Hs Ha Hx Hi -> Hex|gs Hs Ha Hd Hc]; [|constructor|constructor| |].
  - apply Forall_app. split; apply condition_placed.
  - apply on_member_in in Hx. rewrite Forall_forall in IH. pose proof (IH _ Hx _ _ _ _ _ Hex) as Hg.
    eapply Forall_impl; [exact Hg|]. intros g [Ht Hp]. split; [done|]. cbn. intros _.
    destruct (decide (jp = [])) as [->|]; [apply prefix_nil|by rewrite Hp].
  - eapply collect_Forall; [|exact Hc]. intros n x hs Hin Hf. rewrite Forall_forall in IH.
    apply child_inv in Hf as [[-> _]|(c & _ & _ & Hf)]; [constructor| |done].
    eapply Forall_impl; [exact (IH _ Hin _ _ _ _ _ Hf)|]. intros g. apply placed_deeper.
Qed.

Lemma extract_below x prop jp depth fs : extract x prop jp [] depth = Ok fs → below jp fs.
Proof. intros Hex g Hg. apply extract_placed in Hex. rewrite Forall_forall in Hex. by destruct (Hex g Hg). Qed.

Lemma condition_plain jp ty op m g : g ∈ condition jp [] ty op m → isArrayAnyFilter g = false.
Proof. unfold condition. destruct (member_value print_map m op); cbn; [|by intros ?%elem_of_nil]. by intros ->%list_elem_of_singleton. Qed.

(** [t] tests a condition by reading its path. *)
Definition tests_paths (t : FieldFilter → bool) (read : list string → Value) (ap : list string) : Prop :=
  ∀ p op v ty, (ap = [] → p ≠ []) → t (mkFilter fieldName p ap op v ty "") = asks_value op ty v (read p).

(** [t] tests a filter on the items of an array of [all] by trying its items. *)
Definition tests_items (t : FieldFilter → bool) (all : list FieldFilter) (elements : list string → list string) : Prop :=
  ∀ g, isArrayAnyFilter g = true → t g = existsb (λ e, forallb (λ g, value_matches g (element_at e (ff_Path g)))
    (filter (on_items (ff_ArrayPath g)) all)) (elements (ff_ArrayPath g)).

Lemma condition_asks t read jp ap ty op m : tests_paths t read ap → (ap = [] → jp ≠ []) →
  asked t (condition jp ap ty op m) = (λ v, asks_value op ty v (read jp)) <$> member_value print_map m op.
Proof. intros Ht Hjp. unfold condition. rewrite asked_option. destruct (member_value print_map m op); cbn; [by rewrite Ht|done]. Qed.

(** Every filter that comes from one [any] is on one array; together they ask that an item meets all. *)
Lemma items_ask t all elements jp gs (item : string → option bool) :
  tests_items t all elements → jp ≠ [] → Forall (placed [] jp) gs → closed_in gs all →
  (∀ e, asked (λ g, value_matches g (element_at e (ff_Path g))) gs = item e) →
  asked t gs = (λ _, existsb (λ e, default true (item e)) (elements jp)) <$> item "".
Proof.
  intros Ht Hjp Hp Hcl He. rewrite <- (He "").
  assert (Hin : ∀ h, h ∈ gs → on_items jp h).
  { intros h Hh. rewrite Forall_forall in Hp. destruct (Hp h Hh) as [Hk Ha]. rewrite decide_False in Ha by done.
    split; [|done]. unfold isArrayAnyFilter, targets_json. rewrite Hk, Ha, bool_decide_false by done. done. }
  assert (Hall : filter (on_items jp) gs = gs) by (by apply filter_all, Forall_forall).
  assert (Htest : ∀ h, h ∈ gs → t h = existsb (λ e, default true (item e)) (elements jp)).
  { intros h Hh. destruct (Hin h Hh) as [Ha Hj]. rewrite (Ht h Ha), (Hcl h Hh Ha), Hj, Hall.
    apply existsb_ext_in. intros e _. by rewrite <- (He e), asked_all. }
  revert Htest. generalize (existsb (λ e, default true (item e)) (elements jp)). intros c Htest.
  destruct gs as [|g gs']; [done|]. cbn [asked fmap option_fmap option_map forallb]. f_equal.
  rewrite (Htest g (list_elem_of_here _ _)). destruct c; [|done].
  apply forallb_forall. intros h Hh. apply Htest. right. by apply list_elem_of_In.
Qed.

(** A map's filters ask what the map asks of the value its property has. *)
Lemma nested_means x t all read elements prop jp ap depth fs :
  distinct_names x → extract x prop jp ap depth = Ok fs →
  tests_paths t read ap → (ap = [] → tests_items t all elements ∧ jp ≠ [] ∧ closed_in fs all) →
  asked t fs = asks x prop read elements jp depth.
Proof.
  revert t all read elements prop jp ap depth fs.
  induction x as [v|m IH] using where_value_nested; intros t all read elements prop jp ap depth fs Hdn Hex Ht Hap.
  { by apply Ok_inj in Hex as <-. }
  apply extract_inv in Hex as (gs & -> & Hgs). apply distinct_map in Hdn as [Hnd Hdn]. rewrite Forall_forall in IH, Hdn.
  assert (Hjp : ap = [] → jp ≠ []) by naive_solver.
  rewrite asked_app. rewrite (condition_asks t read) by done. cbn [nested_asks]. f_equal.
  assert (Hcl : ap = [] → closed_in gs all).
  { intros Ha. destruct (Hap Ha) as (_ & _ & Hcl). eapply closed_app; [|exact Hcl]. intros f g Hf _ Hfa.
    rewrite Ha in Hf. by rewrite (condition_plain _ _ _ _ _ Hf) in Hfa. }
  destruct Hgs as [Hs|Hs Ha Hd|Hs Ha Hx|x items gs Hs Ha Hx Hi -> Hex|gs Hs Ha Hd Hc]; unfold is_scalar, is_array in *; rewrite Hs; try rewrite Ha.
  - rewrite asked_app. f_equal; by apply condition_asks.
  - by rewrite (proj2 (Nat.leb_le _ _) Hd).
  - rewrite on_member_some. destruct (on_member "any" Some None m) as [[v|x]|] eqn:Ex; cbn [from_option]; [| |done].
    + by destruct (pb_Items (body prop)).
    + by rewrite (Hx x).
  - rewrite on_member_some, Hx. cbn [from_option]. rewrite Hi. apply on_member_in in Hx. destruct (Hap eq_refl) as (Hti & _ & _).
    apply (items_ask t all elements jp gs); [done|by apply Hjp|by eapply extract_placed|by apply Hcl|].
    intros e. eapply (IH _ Hx _ [] (element_at e) (λ _, [])); [by apply (Hdn _ Hx)|exact Hex|done|].
    intros ?. by destruct (Hjp eq_refl).
  - rewrite (proj2 (Nat.leb_gt _ _)) by done.
    apply (collect_asks (ap = []) t all jp (child_filters prop jp ap depth)); [| |done|done|done].
    + intros -> n x hs _ Hf. apply child_inv in Hf as [[-> _]|(c & _ & _ & Hf)]; [by intros ? ?%elem_of_nil|by eapply extract_below|done].
    + intros n x hs Hin Hf Hc'. apply child_inv in Hf as [[-> Hnone]|(c & Hn & Hch & Hf)]; [| |done].
      * destruct (String.eqb_spec n "isNull"); [done|]. destruct Hnone as [?|[[v ->]|Hch]]; [done|by destruct (child prop n)|by rewrite Hch].
      * rewrite (proj2 (String.eqb_neq _ _) Hn), Hch. eapply (IH _ Hin); [by apply (Hdn _ Hin)|exact Hf|exact Ht|].
        intros Ha'. destruct (Hap Ha') as (? & ? & _). split_and!; [done|by destruct jp|by apply Hc'].
Qed.
End nested_means.

(** ** The argument means what it asks *)

Section where_means.
Context `{Env} `{SqlFunctions} (print_map : members → string) (lexiconID : string) (registry : Registry).
Notation op_value := (op_value print_map).

(** A filter among [all], tested the way [filters_match] does. *)
Definition test_filter (all : list FieldFilter) (d : db) (u : string) (r : row) (g : FieldFilter) : bool :=
  if isArrayAnyFilter g then array_matches all (ff_ArrayPath g) r else field_matches g d u r.

Lemma operator_filters_ask t field ty target m (ask : string → goval → bool) :
  (∀ op v, t (mkFilter field [] [] op v ty target) = ask op v) →
  asked t (operator_filters print_map field ty target m) = all_members (λ op x, ask op <$> op_value x) m.
Proof.
  intros Ht. induction m as [|[op x] m IH]; [done|].
  assert (E : operator_filters print_map field ty target ((op, x) :: m)
    = option_list ((λ v, mkFilter field [] [] op v ty target) <$> op_value x) ++ operator_filters print_map field ty target m)
    by (unfold operator_filters; cbn; by destruct (op_value x)).
  rewrite E, asked_app, IH, asked_option. cbn. by destruct (op_value x); cbn; rewrite ?Ht.
Qed.

Lemma operator_filters_below field ty target path m : below path (operator_filters print_map field ty target m).
Proof.
  intros g Hg Ha. unfold operator_filters in Hg. apply list_elem_of_omap in Hg as ([op x] & _ & Hv). cbn in Hv.
  destruct (op_value x); cbn in Hv; [|done]. injection Hv as <-. unfold isArrayAnyFilter in Ha. cbn in Ha. by rewrite andb_false_r in Ha.
Qed.

(** The filters on fields that a member turns into. *)
Definition member_filters (n : string) (x : where_value) : outcome (list FieldFilter) :=
  match x with
  | WV _ => Ok []
  | WMap m =>
      if bool_decide (n ∈ ["did"; "externalLabels"; "authorLabels"]) then Ok []
      else match collectionFilterExtensionForField lexiconID n with
      | Some e => Ok (extractCollectionFilterExtensionFilters print_map e m)
      | None => field_filters print_map lexiconID registry n m
      end
  end.

Lemma member_below n x gs : member_filters n x = Ok gs → below [n] gs.
Proof.
  unfold member_filters, extractCollectionFilterExtensionFilters, field_filters, extractNestedPropertyFilters. intros Hf.
  repeat case_match; try (apply Ok_inj in Hf as <-); try apply operator_filters_below; try (by intros ? ?%elem_of_nil).
  by eapply extract_below.
Qed.

Lemma plain_not_array field p ty target op v : isArrayAnyFilter (mkFilter field p [] op v ty target) = false.
Proof. unfold isArrayAnyFilter. cbn. apply andb_false_r. Qed.

Lemma extension_target e n : collectionFilterExtensionForField lexiconID n = Some e →
  ext_Target e = FieldFilterTargetContributorDID ∨ ext_Target e = FieldFilterTargetBadgeAwardBadgeType.
Proof.
  unfold collectionFilterExtensionForField, collectionFilterExtensions. rewrite !filter_cons, filter_nil.
  repeat case_decide; cbn; intros [= <-]; cbn; auto.
Qed.

Lemma member_asks all d u r n x gs :
  distinct_names x → member_filters n x = Ok gs → closed_in gs all →
  asked (test_filter all d u r) gs = field_asks print_map lexiconID registry d u r n x.
Proof.
  intros Hdn Hf Hcl. destruct x as [v|m]; [by apply Ok_inj in Hf as <-|]. cbn [member_filters field_asks] in *.
  case_bool_decide; [by apply Ok_inj in Hf as <-|].
  destruct (collectionFilterExtensionForField lexiconID n) as [e|] eqn:Ee.
  { apply Ok_inj in Hf as <-. unfold extractCollectionFilterExtensionFilters.
    destruct (extension_target e n Ee) as [Et|Et]; rewrite Et; cbn [String.eqb];
      (erewrite operator_filters_ask; [reflexivity|]); intros op v; unfold test_filter; rewrite plain_not_array; done. }
  unfold field_filters in Hf. destruct (n =? "uri")%string eqn:Eu.
  { apply Ok_inj in Hf as <-. erewrite operator_filters_ask; [reflexivity|]. intros op v. unfold test_filter. rewrite plain_not_array.
    apply String.eqb_eq in Eu as ->. done. }
  destruct (recordDef ← GetRecordDef registry lexiconID; property_named (rd_Properties recordDef) n) as [prop|].
  2: { apply Ok_inj in Hf as <-. erewrite operator_filters_ask; [reflexivity|]. intros op v. unfold test_filter. by rewrite plain_not_array. }
  destruct (FilterInputForLexiconType (prop_type prop) (prop_format prop)).
  { apply Ok_inj in Hf as <-. erewrite operator_filters_ask; [reflexivity|]. intros op v. unfold test_filter. by rewrite plain_not_array. }
  unfold extractNestedPropertyFilters in Hf. eapply nested_means; [done|exact Hf| |].
  - intros p op v ty Hp. unfold test_filter. rewrite plain_not_array. unfold field_matches. cbn. by rewrite decide_False by auto.
  - intros _. split_and!; [|done|done]. intros g Hg. unfold test_filter. by rewrite Hg.
Qed.

(** The whole argument, member by member. *)
Lemma extract_members_filters m st st' :
  extract_members print_map lexiconID registry st m = Ok st' →
  ∃ fs, collect_members member_filters m = Ok fs ∧ ex_filters st' = ex_filters st ++ fs.
Proof.
  revert st. induction m as [|[n x] m IH]; intros st Hex.
  { apply Ok_inj in Hex as <-. exists []. by rewrite app_nil_r. }
  destruct x as [v|fm].
  { destruct (IH _ Hex) as (fs & Hc & He). exists fs. cbn. by rewrite Hc. }
  cbn [extract_members] in Hex. destruct (extract_member print_map lexiconID registry st n fm) as [st1|] eqn:E1; [|done].
  destruct (IH st1 Hex) as (fs & Hc & He).
  assert (Hst : ∃ gs, member_filters n (WMap fm) = Ok gs ∧ ex_filters st1 = ex_filters st ++ gs).
  { unfold extract_member in E1. cbn [member_filters].
    destruct (String.eqb_spec n "did") as [->|]; [apply Ok_inj in E1 as <-; exists []; by rewrite app_nil_r|].
    destruct (String.eqb_spec n "externalLabels") as [->|].
    { destruct (extractExternalLabelRecordFilter _ _ _); [|done]. apply Ok_inj in E1 as <-. exists []. by rewrite app_nil_r. }
    destruct (String.eqb_spec n "authorLabels") as [->|].
    { destruct (extractExternalLabelRecordFilter _ _ _); [|done]. apply Ok_inj in E1 as <-. exists []. by rewrite app_nil_r. }
    rewrite bool_decide_false by set_solver. destruct (collectionFilterExtensionForField lexiconID n) as [e|].
    { apply Ok_inj in E1 as <-. by eexists. }
    destruct (field_filters print_map lexiconID registry n fm) as [gs|]; [|done]. apply Ok_inj in E1 as <-. by eexists. }
  destruct Hst as (gs & Hg & Hs). exists (gs ++ fs). cbn [collect_members]. rewrite Hg. cbn. rewrite Hc. split; [done|].
  by rewrite He, Hs, <- app_assoc.
Qed.

(** A part of the result that only the member of one name changes. *)
Lemma extract_members_part {B} (get : extracted → B) name m st st' :
  (∀ st st1 n fm, n ≠ name → extract_member print_map lexiconID registry st n fm = Ok st1 → get st1 = get st) →
  NoDup m.*1 → extract_members print_map lexiconID registry st m = Ok st' →
  match on_member name Some None m with
  | Some (WMap fm) => ∃ st0 st1, get st0 = get st ∧ extract_member print_map lexiconID registry st0 name fm = Ok st1 ∧ get st' = get st1
  | _ => get st' = get st
  end.
Proof.
  intros Hother. revert st. induction m as [|[n x] m IH]; intros st Hnd Hex; [by apply Ok_inj in Hex as <-|].
  cbn in Hnd. apply NoDup_cons in Hnd as [Hn Hnd]. cbn [on_member].
  destruct (String.eqb_spec n name) as [->|Hne].
  - destruct x as [v|fm]; cbn [extract_members] in Hex.
    + specialize (IH st Hnd Hex). by rewrite on_member_absent in IH.
    + destruct (extract_member print_map lexiconID registry st name fm) as [st1|] eqn:E1; [|done].
      specialize (IH st1 Hnd Hex). rewrite on_member_absent in IH by done. by exists st, st1.
  - destruct x as [v|fm]; cbn [extract_members] in Hex; [by apply IH|].
    destruct (extract_member print_map lexiconID registry st n fm) as [st1|] eqn:E1; [|done].
    specialize (IH st1 Hnd Hex). by rewrite (Hother _ _ _ _ Hne E1) in IH.
Qed.

Lemma did_means d u r fm : did_matches (extract_did fm (mkDID "" [])) d u r = default true (did_asks r (WMap fm)).
Proof.
  unfold did_matches, did_empty, extract_did. cbn [did_asks did_EQ did_IN app].
  destruct (on_member "eq" _ None fm) as [s|] eqn:Es; cbn [from_option]; unfold id.
  - assert (Hs : s ≠ "").
    { rewrite on_member_some in Es. destruct (on_member "eq" Some None fm) as [[v|]|]; cbn in Es; try done.
      unfold nonempty_string in Es. destruct v; try done. by destruct (String.eqb_spec s0 ""); simplify_eq. }
    by rewrite (proj2 (String.eqb_neq _ _) Hs).
  - cbn. by destruct (on_member "in" _ [] fm).
Qed.

Lemma label_strings_ok m fs :
  extractExternalLabelStringFilters print_map m = Ok fs → fs = omap (λ nx : string * where_value, mkLabelString nx.1 <$> op_value nx.2) m.
Proof.
  unfold extractExternalLabelStringFilters. revert fs. induction m as [|[op x] m IH]; intros fs Hc; [by apply Ok_inj in Hc as <-|].
  cbn [collect_members] in Hc. cbn. destruct (op_value x) as [v|]; [|by apply IH; destruct (collect_members _ m)].
  destruct (bool_decide (op ∈ labelOperators)); [|done]. destruct (collect_members _ m) as [gs|]; [|done].
  apply Ok_inj in Hc as <-. cbn. by rewrite (IH gs).
Qed.

Lemma label_texts_ok m name fs : label_filters print_map m name = Ok fs → fs = label_texts print_map m name.
Proof.
  unfold label_filters, label_texts. destruct (member_map m name) as [fm|]; [|by intros <-%Ok_inj].
  destruct (extractExternalLabelStringFilters print_map fm) as [gs|] eqn:E; [|done]. intros <-%Ok_inj. by apply label_strings_ok.
Qed.

Lemma label_predicate_means fieldName subject m name p d u r :
  label_predicate print_map fieldName m name = Ok p →
  (λ q, has_label subject q d u r) <$> p = (λ q, some_label print_map subject q d u r) <$> member_map m name.
Proof.
  unfold label_predicate, extractExternalLabelPredicate. destruct (member_map m name) as [fm|]; [|by intros <-%Ok_inj].
  destruct (label_filters print_map fm "src") as [srcs|] eqn:Es; [|done].
  destruct (label_filters print_map fm "val") as [vals|] eqn:Ev; [|done]. intros <-%Ok_inj.
  cbn. by rewrite (label_texts_ok _ _ _ Es), (label_texts_ok _ _ _ Ev).
Qed.

Lemma label_filter_means fieldName subject m f d u r :
  extractExternalLabelRecordFilter print_map fieldName m = Ok f →
  label_filter_matches subject f d u r = default true (label_asks print_map subject d u r (WMap m)).
Proof.
  unfold extractExternalLabelRecordFilter. destruct (label_predicate print_map fieldName m "has") as [h|] eqn:Eh; [|done].
  destruct (label_predicate print_map fieldName m "none") as [n|] eqn:En; [|done]. intros <-%Ok_inj.
  apply (label_predicate_means _ subject _ _ _ d u r) in Eh, En. unfold label_filter_matches. cbn [label_asks lrf_Has lrf_None].
  rewrite both_default. f_equal.
  - rewrite <- Eh. by destruct h.
  - destruct n, (member_map m "none"); cbn in En |- *; try done. by injection En as ->.
Qed.

Definition part_unchanged {B} (get : extracted → B) (name : string) : Prop :=
  ∀ st st1 n fm, n ≠ name → extract_member print_map lexiconID registry st n fm = Ok st1 → get st1 = get st.

Lemma parts_unchanged : part_unchanged ex_did "did" ∧ part_unchanged (lfs_Record ∘ ex_labels) "externalLabels"
  ∧ part_unchanged (lfs_Author ∘ ex_labels) "authorLabels".
Proof.
  split_and!; intros st st1 n fm Hn He; unfold extract_member in He;
    (destruct (String.eqb_spec n "did") as [->|]; [apply Ok_inj in He as <-; done|]);
    (destruct (String.eqb_spec n "externalLabels") as [->|];
      [destruct (extractExternalLabelRecordFilter _ _ _); [|done]; apply Ok_inj in He as <-; done|]);
    (destruct (String.eqb_spec n "authorLabels") as [->|];
      [destruct (extractExternalLabelRecordFilter _ _ _); [|done]; apply Ok_inj in He as <-; done|]);
    (destruct (collectionFilterExtensionForField lexiconID n); [apply Ok_inj in He as <-; done|]);
    (destruct (field_filters print_map lexiconID registry n fm); [apply Ok_inj in He as <-; done|done]).
Qed.

Lemma extracted_parts m st d u r :
  NoDup m.*1 → extract_members print_map lexiconID registry nothing_extracted m = Ok st →
  did_matches (ex_did st) d u r = default true (on_member "did" (did_asks r) None m) ∧
  label_filter_matches externalLabelSubjectRecord (lfs_Record (ex_labels st)) d u r
    = default true (on_member "externalLabels" (label_asks print_map externalLabelSubjectRecord d u r) None m) ∧
  label_filter_matches externalLabelSubjectAuthor (lfs_Author (ex_labels st)) d u r
    = default true (on_member "authorLabels" (label_asks print_map externalLabelSubjectAuthor d u r) None m).
Proof.
  intros Hnd Hex. destruct parts_unchanged as (Hd & Hr & Ha).
  apply (extract_members_part _ _ _ _ _ Hd Hnd) in Hex as Hdid. apply (extract_members_part _ _ _ _ _ Hr Hnd) in Hex as Hrec.
  apply (extract_members_part _ _ _ _ _ Ha Hnd) in Hex as Haut. clear Hex Hd Hr Ha.
  rewrite (on_member_some "did"), (on_member_some "externalLabels"), (on_member_some "authorLabels"). split_and!.
  - destruct (on_member "did" Some None m) as [[v|fm]|]; cbn [from_option]; [by rewrite Hdid| |by rewrite Hdid].
    destruct Hdid as (st0 & st1 & Hst0 & He & ->). apply Ok_inj in He as <-. cbn [ex_did]. rewrite Hst0. apply did_means.
  - destruct (on_member "externalLabels" Some None m) as [[v|fm]|]; cbn [from_option]; cbn in Hrec; [by rewrite Hrec| |by rewrite Hrec].
    destruct Hrec as (st0 & st1 & _ & He & ->). unfold extract_member in He. cbn [String.eqb Ascii.eqb Bool.eqb] in He.
    destruct (extractExternalLabelRecordFilter _ _ fm) eqn:Ef; [|done]. apply Ok_inj in He as <-. by eapply label_filter_means.
  - destruct (on_member "authorLabels" Some None m) as [[v|fm]|]; cbn [from_option]; cbn in Haut; [by rewrite Haut| |by rewrite Haut].
    destruct Haut as (st0 & st1 & _ & He & ->). unfold extract_member in He. cbn [String.eqb Ascii.eqb Bool.eqb] in He.
    destruct (extractExternalLabelRecordFilter _ _ fm) eqn:Ef; [|done]. apply Ok_inj in He as <-. by eapply label_filter_means.
Qed.

(** C5. The filters a [where] argument is turned into select exactly the records that meet what
    the argument asks: every operator of every field, conditions on a reference or a union on
    the value at their path, the conditions below one [any] on one item of the array, the
    author's and the labels' conditions. There are at most twenty of them. *)
Theorem where_means whereArg fs did labels d u r :
  distinct_names whereArg →
  extractFiltersWithExternalLabels print_map lexiconID registry whereArg = Ok (fs, did, labels) →
  filters_match fs d u r && did_matches did d u r && label_set_matches labels d u r
    = default true (where_asks print_map lexiconID registry d u r whereArg) ∧
  length fs ≤ MaxFilterConditions.
Proof.
  intros Hdn Hex. destruct whereArg as [v|m]; [by apply Ok_inj in Hex as [= <- <- <-]; split; [|cbn; lia]|].
  assert (Hst : ∃ st, extract_members print_map lexiconID registry nothing_extracted m = Ok st ∧ length fs ≤ MaxFilterConditions
    ∧ fs = ex_filters st ∧ did = ex_did st ∧ labels = ex_labels st).
  { destruct m as [|nx m]; [apply Ok_inj in Hex as [= <- <- <-]; exists nothing_extracted; cbn; split_and!; [done|lia|done..]|].
    revert Hex. unfold extractFiltersWithExternalLabels. destruct (extract_members _ _ _ _ (nx :: m)) as [st|]; cbn [mbind outcome_bind]; [|done].
    destruct (Nat.ltb_spec MaxFilterConditions (length (ex_filters st))); [done|]. intros [= <- <- <-]%Ok_inj. by exists st. }
  destruct Hst as (st & Hm & Hlen & -> & -> & ->). split; [|done]. clear Hex.
  apply distinct_map in Hdn as [Hnd Hdn]. rewrite Forall_forall in Hdn. cbn [where_asks]. rewrite !both_default.
  destruct (extracted_parts m st d u r Hnd Hm) as (<- & <- & <-).
  apply extract_members_filters in Hm as (fs & Hc & ->). cbn [nothing_extracted ex_filters app].
  rewrite <- (collect_asks True (test_filter fs d u r) fs [] member_filters (field_asks print_map lexiconID registry d u r) m fs);
    [|by intros _ n x gs _ ?%member_below| |done|done|by intros _ g _ _].
  - rewrite asked_all. by rewrite <- andb_assoc.
  - intros n x gs Hin Hf Hcl. apply member_asks; [by apply (Hdn _ Hin)|done|by apply Hcl].
Qed.
End where_means.

(** ** Arguments on a concrete Lexicon *)

#[local] Existing Instance ex_env.

Definition ex_item_text (j : json) : string :=
  match j with
  | JString s => quoted ("'" +:+ s +:+ "'")
  | JObject ms => "{" +:+ join "," ((λ m : member, quoted ("'" +:+ m.1 +:+ "':") +:+ m.2.1) <$> ms) +:+ "}"
  | _ => "null"
  end.

#[local] Instance where_sql : SqlFunctions := {|
  json_at doc path := match json_parse doc with Some j => json_value (json_get j path) | None => NullValue end;
  json_array doc path := match json_get (default JNull (json_parse doc)) path with JArray items => ex_item_text <$> items | _ => [] end;
  element_at e path := match json_parse e with Some j => json_value (json_get j path) | None => NullValue end;
  cast_numeric v := v;
  sql_compare op a b := match a, b with NullValue, _ | _, NullValue => None
    | a, b => if (op =? "=")%string then Some (value_eqb a b) else None end;
  sql_text v := match v with TextValue s => Some s | _ => None end;
  pg_lower s := s;
  label_time s := None;
|}.

Definition ex_lexicon : string := quoted "{'lexicon':1,'id':'app.x.post','defs':{
  'main':{'type':'record','key':'tid','record':{'type':'object','properties':{
    'title':{'type':'string'},
    'embed':{'type':'ref','ref':'#embed'},
    'facets':{'type':'array','items':{'type':'ref','ref':'#facet'}}}}},
  'embed':{'type':'object','properties':{'lang':{'type':'string'},'rows':{'type':'array','items':{'type':'string'}}}},
  'facet':{'type':'object','properties':{'tag':{'type':'string'},'by':{'type':'string'},'refs':{'type':'array','items':{'type':'string'}}}}}}".

Definition ex_registered : Registry :=
  match ParseAndRegister (λ _, true) ex_lexicon NewRegistry with Ok (_, r) => r | Err _ => NewRegistry end.

Definition text_is (s : string) : where_value := WMap [("eq", WV (GString s))].
Definition one_of (vs : list string) : where_value := WMap [("in", WV (GList (GString <$> vs)))].
Definition facet (tag by_ : string) : where_value := WMap [("any", WMap [("tag", text_is tag); ("by", text_is by_)])].
Definition ex_where (by_ : string) : where_value :=
  WMap [("did", one_of ["did:x"]); ("embed", WMap [("lang", one_of ["de"; "en"])]); ("facets", facet "a" by_)].

Definition ex_post : row :=
  ex_row None (quoted "{'title':'t','embed':{'lang':'en'},'facets':[{'tag':'a','by':'x'},{'tag':'b','by':'y'}]}").

Definition ex_extract := extractFiltersWithExternalLabels (λ _, "map[]") "app.x.post" ex_registered.
Definition ex_asks (x : where_value) : option bool :=
  where_asks (λ _, "map[]") "app.x.post" ex_registered ex_sorted_db (ex_uri "1")
    ex_post x.

(** The conditions below [any] are about one item: no item has the tag of the one and the author of the other. *)
Example one_item_meets_all : ex_asks (ex_where "x") = Some true ∧ ex_asks (ex_where "y") = Some false.
Proof. split; vm_compute; reflexivity. Qed.

(** No author is in an empty list, yet it selects the records of all; an empty list for a field selects none. *)
Example empty_author_list_asks_nothing :
  ex_asks (WMap [("did", one_of [])]) = None ∧ ex_asks (WMap [("title", one_of [])]) = Some false.
Proof. split; vm_compute; reflexivity. Qed.

Example any_inside_any_refused :
  ex_extract (WMap [("facets", WMap [("any", WMap [("refs", WMap [("any", text_is "x")])])])])
  = Err "nested array any filters inside another array any are not supported".
Proof. vm_compute. reflexivity. Qed.

Example twenty_one_conditions_refused :
  ex_extract (WMap [("title", WMap (replicate 21 ("eq", WV (GString "t"))))])
  = Err "too many filter conditions: 21 (maximum 20)".
Proof. vm_compute. reflexivity. Qed.

Definition ex_meant : list FieldFilter * DIDFilter * ExternalLabelFilterSet :=
  match ex_extract (ex_where "x") with Ok r => r | Err _ => ([], mkDID "" [], mkLabelSet no_label_filter no_label_filter) end.

Lemma where_means_witness :
  filters_match ex_meant.1.1 ex_sorted_db (ex_uri "1")
    ex_post = true ∧
  length ex_meant.1.1 = 3.
Proof.
  destruct (where_means (λ _, "map[]") "app.x.post" ex_registered (ex_where "x") ex_meant.1.1 ex_meant.1.2 ex_meant.2
    ex_sorted_db (ex_uri "1")
    ex_post) as [Hm _].
  - vm_compute. repeat split; repeat constructor; set_solver.
  - vm_compute. reflexivity.
  - split; [|vm_compute; reflexivity]. replace (default true _) with true in Hm by (vm_compute; reflexivity).
    apply andb_true_iff in Hm as [Hm _]. by apply andb_true_iff in Hm as [Hm _].
Defined.
